(* ===== verification/_CoqProject ===== *)
-Q . S2P
Prelude.v
Floats.v
Json.v
Chunks.v
H264.v
Ingress.v
Framing.v
Diagnostics.v
Constants.v
Channel.v
Events.v
Lidar.v
Utf8.v
Security.v
Signaling.v
JsonText.v
Ports.v
Service.v
ServiceProps.v
Engine.v
EngineProps.v
Connection.v
ConnectionProps.v
Session.v
PyJson.v
Video.v
AudioReceive.v
AudioTransmit.v
Pipelines.v
Playback.v
Callbacks.v
Bridges.v
PyModule.v
PyRequest.v
Peer.v
Setup.v
Lifetime.v
LifetimeProps.v
Uninterrupted.v
Attempt.v
Ownership.v
Completion.v
Media.v
System.v
ServiceTests.v
CoreTests.v
EngineTests.v
MediaTests.v
InterfaceTests.v
ConnectionTests.v
