(* ===== verification/Prelude.v ===== *)
(** * A verification of the unitree-webrtc SDK

    The Rust library under src/src connects to a Unitree robot over WebRTC.  A
    session ([connection/]) asks the robot for an SDP answer over HTTP
    ([infrastructure/signaling_http.rs]), prepares a peer and a data channel
    ([infrastructure/rtc_engine/]) and talks to the robot through the data
    channel service ([datachannel/core/service.rs]): requests and their
    responses, subscriptions, chunked and binary messages, validation and
    heartbeat.  LiDAR frames go to a pool of workers ([datachannel/lidar/]),
    video packets to a depacketizer and a GStreamer decoder ([video/]), audio
    packets to Opus ([audio/receive/]); what reaches the user's callbacks passes
    the event channel ([protocol/events.rs]) and the thread that calls Python
    ([interface/callbacks.rs]).  Python calls in through [interface/bridges/]; a
    session also plays audio to the robot ([audio/transmit/]).

    ** Files

    - Prelude: results, machine integers, bytes and strings, sums over maps,
      [BTree] (Rust's [BTreeMap]) and the tactics and hint databases the other
      files use.  Floats: IEEE [f64] and [f32] by Stdlib's [SpecFloat], and
      [std::time].  Json: [serde_json::Value] and its accessors,
      protocol/models.rs.  JsonText: a reader and a writer of RFC 8259 texts, an
      instance of what is asked of serde_json.  Utf8: the parts of [str] the source
      relies on.
      Channel: bounded channels as a class with its laws and an instance.
    - Chunks (datachannel/core/chunks.rs), Framing (core/framing.rs), Ingress
      (protocol/ingress.rs), H264 (video/h264_rtp.rs), Diagnostics
      (diagnostics.rs), Constants (protocol/constants.rs), Security
      (infrastructure/security.rs), Lidar (datachannel/lidar/): one component
      each, its state, its operations and its theorems.
    - Events (protocol/events.rs): the channel of callback events with its
      shared account; operations of all threads are the steps [ev_op].
    - Ports (protocol/ports.rs): the [DataChannelPort] trait as a class, with
      the laws a transport promises ([DataChannelPortSpec]): the reset of a
      session is proved against them, the engine discharges them.
    - Service, ServiceProps (datachannel/core/service.rs): the service over any
      transport of that class.  Every method that changes state is a step
      [svc_op]; the request protocol [req_step] is its abstract specification.
    - Engine, EngineProps (infrastructure/rtc_engine/): the engine with all the
      peers it ever prepared, as every callback and sending task keeps what it
      captured; the engine is an instance of [DataChannelPort] and its laws.
    - Signaling (infrastructure/signaling_http.rs): the exchange of the offer.
    - Connection, ConnectionProps (connection/service.rs, lifecycle.rs):
      attempts as tasks with a program counter, one step between two awaits;
      Session (connection/session.rs): options, assembly and retries.
    - Peer (rtc_engine/setup.rs, the awaits of engine.rs): who owns a peer while
      [prepare_offer] and [close] are cut at their awaits, cancelled, joined and
      overtaken by tracks.  Engine abstracts this to one step each and keeps the
      command queue; Peer keeps the resources and tasks.  Setup (setup.rs): the
      calls into the webrtc crate that make a peer.
    - Lifetime, LifetimeProps: Engine and Peer as one engine, in which everything
      Engine does at once happens between the awaits of Peer; Uninterrupted: the runs
      of it that nobody interrupts are Engine's operations; Attempt: the tasks of
      Connection as the callers of that engine; Ownership (session.rs,
      bridges/connection.rs): the Python objects and futures that hold a session,
      and the disconnect its drop spawns, over Attempt; Completion: from every state
      of these the operations that were begun can end.
    - Video (video/codec.rs, service.rs), AudioReceive (audio/receive/): the two
      media tasks, from RTP packets to events of the channel of Events; Video
      runs the depacketizer of H264.
    - AudioTransmit (audio/transmit/service.rs): one sender with its sink
      callback, RTP task and bus thread; Pipelines (video/codec.rs,
      audio/transmit/service.rs): the calls that make and drop the two GStreamer
      pipelines, and their launch lines; Playback (lifecycle.rs, [play_audio] and
      [stop_audio] of session.rs): the senders of a session over time, under the
      session gate.
    - PyJson (interface/utils.rs): the conversion of values over a store of
      Python objects, with aliases and cycles; Callbacks (interface/callbacks.rs,
      the registry of bridges/pubsub.rs): the dispatcher over the receiver of
      Events; Bridges (interface/bridges/, [init_tracing] of lib.rs): what the
      Python methods do around the service; PyRequest: a request through Bridges,
      Service and PyJson; PyModule (lib.rs, bridges/constants.rs): what the import
      makes, and the getters.
    - Media: the tasks of Video and AudioReceive, the workers of Lidar and the
      dispatcher of Callbacks on the one event channel they share; System: Service
      over Engine, its router and all its peers.  These compose the components and
      add no code of their own but the router's loop.
    - ServiceTests, CoreTests, EngineTests, MediaTests, InterfaceTests,
      ConnectionTests: the unit tests of the source, statement by statement, run on
      the model.  They show that the definitions do on concrete inputs what the code
      is tested to do.

    ** Correspondence

    Definitions carry the names of the source.  A method that changes state
    takes the state and returns the result with the new state.  Unsigned
    integers are [Z] with the wrap-around, saturation or check of the source
    written out; [usize] is 64 bits.  A [HashMap] is a [gmap], a [BTreeMap] a
    sorted list, a [String] its UTF-8 bytes, an [Instant] nanoseconds.  Clock
    readings, random values and the outcomes of external calls are arguments.
    A method that runs under a mutex is one step, and so is one that takes a few
    short locks in a row (an iteration of the router, whose parts ServiceProps also
    has as steps; [send_text], which reads the ready state, the sender and its queue);
    an [async] function is cut at its awaits.  A oneshot sender is named by a token,
    and answered when its token is in [replies].

    What is not under src/ is a class of parameters, its documented behaviour
    the laws of the class: crossbeam channels ([Chan]), the tokenizer of
    serde_json ([JsonReader], [SerdeJson]), buffer capacities ([Layout]), LZ4
    ([Lz4]), the cryptographic primitives ([Crypto], [CryptoLaws]), reqwest and
    url ([Http], [UrlLib]), webrtc's session descriptions ([SdpParser]), libopus
    ([Opus]), the RTP parser ([RtpLib]), the file system and GStreamer's URI
    handlers ([MediaFiles]), GStreamer's pipelines ([GstApi], [GstLaws]), the calls
    that make a peer ([PeerApi]).  Threads of GStreamer are steps of their own that may
    come at any moment; the steps a blocking call may be interrupted by are an
    argument of it ([Interference], the lists of [play]).

    ** Theorems

    - Requests: every execution of the service refines the request protocol
      ([service_refines_requests]); so at most 128 requests are in flight, all
      of the current session ([inflight_bounded_current]), each is answered at
      most once ([answered_once]) and an API request only with a response that has
      its topic and its [api_id] ([response_validated]).  The effect of responses, of ended calls and of a
      reset is stated exactly, as are validation, dispatch and throttling; a
      throttled binary topic is throttled twice ([binary_throttled_twice]).
    - Sessions: attempts are serialised, a completed disconnect is final, no
      transport outlives a failed attempt, a successful attempt follows its
      script, and the gate is always released ([gate_released], ConnectionProps);
      options and retries (Session).
    - Sessions across service and engine: no command reaches a peer of another
      session, and no message of one is acted on ([sessions_isolated], System).
    - Transport: commands keep their order and an answer is applied exactly when
      the channel opens in time (EngineProps); at most one peer is open, a [close]
      leaves nothing behind and always returns, also to whoever joined or abandoned
      it (Peer); a peer advertises what is decoded (Setup).  With calls, tasks and
      callbacks interleaved at every await, an open channel belongs to the peer the
      engine has, and a replaced or closed peer is inert ([open_is_live],
      [replaced_peer_inert], [closed_engine_inert], LifetimeProps); in every run that
      nothing interrupts, a call returns what Engine says and leaves the state Engine
      says, and no such run is stuck ([uninterrupted_exact], Uninterrupted).
    - Attempts on the engine: only the attempt that holds the gate drives it, and
      what an attempt reports is what the engine did (Attempt).  No operation
      outlives the references to its session; once a session is abandoned and its
      tasks have ended, no peer, task or channel of it is left (Ownership); from every
      state the operations can end, and an abandoned session can reach that end, without
      any further call ([operations_end], [abandoned_session_ends], Completion).
    - Audio playback: packets reach the track in order and never early, a stopped
      sender is silent and its shutdown completes (AudioTransmit); a session never
      has two running senders, and a cancelled operation still frees the gate
      (Playback).
    - Media: no NAL is lost while a stream runs, the encoded queue is bounded, and
      every frame event has the shape of its picture (Video, AudioReceive); a decoder
      that was created is only offered frames it can repack, and creating a decoder or a
      sender fails for no other reason than GStreamer and the source
      ([decoder_created], [sender_created], Pipelines); from
      the packets to Python no conversion fails ([media_reaches_callbacks], Media).
    - Python: values are accepted exactly within the budgets and survive the round
      trip (PyJson), so that a request sends exactly the caller's value and returns
      exactly the response ([python_request_answered], PyRequest); a callback is
      only called with an event sent in the generation it is called for, never for
      one that has ended or after it was removed, and no event of its producer's
      shape fails to convert (Callbacks); the registry agrees with the subscriptions
      (Bridges); the module exports the tables unchanged ([module_exports],
      PyModule).
    - Resources: the account of the event channel is exact and bounded, as are
      chunk assembly, JSON admission, signaling bodies and LiDAR decoding.
    - Tests: all assertions of the replayed tests hold ([service_tests_pass],
      [core_tests_pass], [engine_tests_pass], [media_tests_pass],
      [interface_tests_pass], [connection_tests_pass]).
    - Codecs: H.264 reassembly, chunk reassembly and AES are round trips, the
      LiDAR decoder equals its bit-by-bit specification, frames and JSON
      documents are characterised exactly.

    ** Fuel

    Loops run on fuel that is proved or computed to be enough: the size walk on
    the number of values ([json_size_exact]), deliveries on the queue lengths
    ([try_delivery_first_current]), the bits of a byte on 8
    ([loop_offsets_byte]), UTF-8 validation on the length.  Driving an attempt
    takes at most 21 steps ([gate_released]).

    A conversion of a Python value recurses on the 64 levels the source allows;
    that a shutdown and a close complete is stated on the steps of their parts
    ([shutdown_completes], [gate_is_released], [close_returns]), not on fuel.

    ** Not modelled

    Log output, thread and runtime start-up beyond its failure.  What GStreamer,
    webrtc and Python do inside is external: the negotiation of a peer, reference
    counts and the GIL.  Connection sees the
    playback of a session as the call [StopAudio], Playback sees an attempt as its
    outcome, and the audio methods of Python are futures of unknown length in
    Ownership.  Of the tests those are not replayed that need two callers of one
    engine at a time, a socket, a running GStreamer, payloads of a megabyte, memory
    addresses or captured log output.

    ** Plan

    Next: one execution of a session in which Connection and Playback are the
    callers of System, and the media tasks of Peer are those of Media; that under a
    fair scheduler the operations not only can end but do. *)
From stdpp Require Export base tactics numbers list strings gmap option fin_maps pretty.
From Stdlib Require Export ZArith Lia.
From Stdlib Require Import OrderedTypeEx.
#[export] Set Default Goal Selector "!".
#[local] Open Scope Z_scope.

(** ** Results

    Rust's [Result<A, E>]; the error type comes first so that [result E] is a
    monad for stdpp's [x ← m; k] notation (the [?] operator of the source). *)
Inductive result (E A : Type) : Type :=
  | Ok (a : A)
  | Err (e : E).
Arguments Ok {E A} a.
Arguments Err {E A} e.

#[export] Instance result_ret E : MRet (result E) := λ A a, Ok a.
#[export] Instance result_bind E : MBind (result E) := λ A B f m,
  match m with Ok a => f a | Err e => Err e end.
#[export] Instance result_fmap E : FMap (result E) := λ A B f m,
  match m with Ok a => Ok (f a) | Err e => Err e end.

(** [ports::PortResult]: errors are messages. *)
Abbreviation PortResult := (result string).

Definition ok_or {E A} (e : E) (o : option A) : result E A :=
  match o with Some a => Ok a | None => Err e end.
Definition map_err {E F A} (f : E → F) (r : result E A) : result F A :=
  match r with Ok a => Ok a | Err e => Err (f e) end.
Definition ok {E A} (r : result E A) : option A :=
  match r with Ok a => Some a | Err _ => None end.
Definition is_ok {E A} (r : result E A) : bool :=
  match r with Ok _ => true | Err _ => false end.
Definition is_err {E A} (r : result E A) : bool := negb (is_ok r).
(** [Result::and]. *)
Definition result_and {E A B} (r : result E A) (s : result E B) : result E B :=
  match r with Ok _ => s | Err e => Err e end.

#[export] Instance result_eq_dec E A `{EqDecision E, EqDecision A} :
  EqDecision (result E A).
Proof. solve_decision. Defined.

Lemma result_bind_Ok {E A B} (f : A → result E B) m b :
  m ≫= f = Ok b ↔ ∃ a, m = Ok a ∧ f a = Ok b.
Proof. destruct m; naive_solver. Qed.

Lemma result_bind_Err {E A B} (f : A → result E B) m e :
  m ≫= f = Err e ↔ m = Err e ∨ ∃ a, m = Ok a ∧ f a = Err e.
Proof. destruct m; naive_solver. Qed.

Lemma ok_or_Ok {E A} (e : E) (o : option A) a : ok_or e o = Ok a ↔ o = Some a.
Proof. destruct o; naive_solver. Qed.

(** ** Machine integers

    An unsigned [w]-bit integer is a [Z] in [[0, 2^w)]; the operations of
    [core::num] are written out.  The platform is 64-bit ([usize] = [u64]). *)
Definition in_u (w n : Z) : Prop := 0 ≤ n < 2 ^ w.
Definition u64_max : Z := 18446744073709551615.
Definition usize_max : Z := u64_max.
Definition i64_min : Z := -9223372036854775808.
Definition i64_max : Z := 9223372036854775807.
Definition i32_max : Z := 2147483647.
Definition wrapping_add (w a b : Z) : Z := (a + b) mod 2 ^ w.
Definition wrapping_sub (w a b : Z) : Z := (a - b) mod 2 ^ w.
Definition saturating_add (w a b : Z) : Z := Z.min (a + b) (2 ^ w - 1).
Definition saturating_mul (w a b : Z) : Z := Z.min (a * b) (2 ^ w - 1).
Definition saturating_sub (a b : Z) : Z := Z.max 0 (a - b).
Definition checked_add (w a b : Z) : option Z :=
  if a + b <? 2 ^ w then Some (a + b) else None.
Definition checked_sub (a b : Z) : option Z :=
  if b <=? a then Some (a - b) else None.
Definition checked_mul (w a b : Z) : option Z :=
  if a * b <? 2 ^ w then Some (a * b) else None.

(** ** Bytes and strings

    A [u8] is a [Z] in [[0, 256)]; a Rust [String]/[str] is a Rocq [string], read
    as its UTF-8 bytes. *)
Abbreviation byte := Z (only parsing).
Abbreviation bytes := (list Z) (only parsing).
Definition is_byte (b : Z) : Prop := 0 ≤ b < 256.
(** [len] of a slice or [Vec], as the [usize] it is in the source. *)
Definition len {A} (l : list A) : Z := Z.of_nat (length l).
Definition slen (s : string) : Z := Z.of_nat (String.length s).
Definition byte_of_ascii (c : Ascii.ascii) : Z := Z.of_N (Ascii.N_of_ascii c).
Definition ascii_of_byte (b : Z) : Ascii.ascii := Ascii.ascii_of_N (Z.to_N b).
(** [str::as_bytes]. *)
Fixpoint as_bytes (s : string) : bytes :=
  match s with
  | EmptyString => []
  | String c s' => byte_of_ascii c :: as_bytes s'
  end.
Fixpoint string_of_bytes (l : bytes) : string :=
  match l with
  | [] => EmptyString
  | b :: l' => String (ascii_of_byte b) (string_of_bytes l')
  end.

(** [from_le_bytes] and [to_le_bytes] of an [n]-byte unsigned integer. *)
Definition from_le_bytes (l : bytes) : Z := foldr (λ b acc, b + 256 * acc) 0 l.
Fixpoint to_le_bytes (n : nat) (v : Z) : bytes :=
  match n with O => [] | S n' => v mod 256 :: to_le_bytes n' (v / 256) end.

(** A checked sub-slice: [l.get(a..b)]. *)
Definition get_range {A} (l : list A) (a b : Z) : option (list A) :=
  if (0 <=? a) && (a <=? b) && (b <=? len l)
  then Some (take (Z.to_nat (b - a)) (drop (Z.to_nat a) l)) else None.
(** [&l[a..]] and [&l[..b]] for in-range bounds. *)
Definition slice_from {A} (l : list A) (a : Z) : list A := drop (Z.to_nat a) l.
Definition slice_to {A} (l : list A) (b : Z) : list A := take (Z.to_nat b) l.

(** [str::starts_with], [str::strip_prefix], [str::strip_suffix]. *)
Fixpoint strip_prefix (p s : string) : option string :=
  match p, s with
  | EmptyString, _ => Some s
  | String a p', String b s' => if Ascii.eqb a b then strip_prefix p' s' else None
  | _, _ => None
  end.
Definition starts_with (s p : string) : bool :=
  match strip_prefix p s with Some _ => true | None => false end.
Fixpoint strip_suffix (s suf : string) : option string :=
  if String.eqb s suf then Some EmptyString else
  match s with
  | EmptyString => None
  | String c s' => String c <$> strip_suffix s' suf
  end.
Definition seqb (a b : string) : bool := String.eqb a b.

Lemma strip_prefix_Some p s r : strip_prefix p s = Some r → s = p +:+ r.
Proof.
  revert s. induction p as [|a p IH]; intros s; simpl; [by intros [= ->]|].
  destruct s as [|b s]; [done|]. destruct (Ascii.eqb_spec a b) as [->|]; [|done].
  intros ->%IH. done.
Qed.
Lemma strip_suffix_Some s suf r : strip_suffix s suf = Some r → s = r +:+ suf.
Proof.
  revert r. induction s as [|c s IH]; intros r; cbn [strip_suffix].
  - destruct (String.eqb_spec "" suf) as [<-|]; [by intros [= <-]|done].
  - destruct (String.eqb_spec (String c s) suf) as [<-|]; [by intros [= <-]|].
    destruct (strip_suffix s suf) as [r'|]; [|done]. intros [= <-]. by rewrite (IH r').
Qed.

(** ** Sums *)
Fixpoint zsum (l : list Z) : Z :=
  match l with [] => 0 | x :: l' => x + zsum l' end.

Lemma zsum_app l k : zsum (l ++ k) = zsum l + zsum k.
Proof. induction l; simpl; lia. Qed.
Lemma zsum_nonneg l : Forall (λ x, 0 ≤ x) l → 0 ≤ zsum l.
Proof. induction 1; simpl; lia. Qed.
Lemma zsum_Permutation l k : l ≡ₚ k → zsum l = zsum k.
Proof. induction 1; simpl; lia. Qed.

(** Sum of a measure over the values of a [HashMap]. *)
Definition map_zsum {K V} `{Countable K} (f : V → Z) (m : gmap K V) : Z :=
  map_fold (λ _ v acc, f v + acc) 0 m.

Section map_zsum.
Context {K V : Type} `{Countable K}.
Implicit Types (f : V → Z) (m : gmap K V).

Lemma map_zsum_empty f : map_zsum f (∅ : gmap K V) = 0.
Proof. apply map_fold_empty. Qed.

Lemma map_zsum_insert f m k v :
  m !! k = None → map_zsum f (<[k:=v]> m) = f v + map_zsum f m.
Proof. intros Hk. unfold map_zsum. rewrite map_fold_insert_L; [done| |done]. intros; lia. Qed.

Lemma map_zsum_delete f m k v :
  m !! k = Some v → map_zsum f m = f v + map_zsum f (delete k m).
Proof.
  intros Hk. rewrite <- (insert_delete_id m k v Hk) at 1.
  apply map_zsum_insert, lookup_delete_eq.
Qed.

Lemma map_zsum_update f m k v v' :
  m !! k = Some v → map_zsum f (<[k:=v']> m) = map_zsum f m - f v + f v'.
Proof.
  intros Hk. rewrite (map_zsum_delete f m k v Hk), <- insert_delete_eq.
  rewrite map_zsum_insert by apply lookup_delete_eq. lia.
Qed.

Lemma map_zsum_nonneg f m : (∀ k v, m !! k = Some v → 0 ≤ f v) → 0 ≤ map_zsum f m.
Proof.
  induction m as [|k v m Hk IH] using map_ind; intros Hf.
  - by rewrite map_zsum_empty.
  - rewrite map_zsum_insert by done.
    pose proof (Hf k v (lookup_insert_eq _ _ _)).
    assert (0 ≤ map_zsum f m); [|lia]. apply IH. intros k' v' Hk'.
    apply (Hf k' v'). rewrite lookup_insert_ne; [done|]. congruence.
Qed.

Lemma map_zsum_lookup_le f m k v :
  (∀ k v, m !! k = Some v → 0 ≤ f v) → m !! k = Some v → f v ≤ map_zsum f m.
Proof.
  intros Hf Hk. rewrite (map_zsum_delete f m k v Hk).
  assert (0 ≤ map_zsum f (delete k m)); [|lia].
  apply map_zsum_nonneg. intros k' v' [_ Hk']%lookup_delete_Some. eauto.
Qed.

Lemma map_zsum_size m : map_zsum (λ _, 1) m = Z.of_nat (size m).
Proof.
  induction m as [|k v m Hk IH] using map_ind; [done|].
  rewrite map_zsum_insert, map_size_insert_None by done. lia.
Qed.

Lemma map_zsum_delete_le f m k :
  (∀ k v, m !! k = Some v → 0 ≤ f v) → map_zsum f (delete k m) ≤ map_zsum f m.
Proof.
  intros Hf. destruct (m !! k) as [v|] eqn:Hk.
  - rewrite (map_zsum_delete f m k v Hk). pose proof (Hf _ _ Hk). lia.
  - by rewrite delete_id.
Qed.
End map_zsum.

(** ** Ordered maps

    [BTreeMap] (and [serde_json::Map], which is a [BTreeMap] in this build:
    Cargo.toml does not enable [preserve_order]) as an association list kept in
    strictly increasing key order: iteration order is part of its meaning. *)
Class KeyOrder (K : Type) := {
  key_compare : K → K → comparison;
  key_compare_eq a b : key_compare a b = Eq ↔ a = b;
  key_compare_opp a b : key_compare b a = CompOpp (key_compare a b);
  key_compare_trans a b c :
    key_compare a b = Lt → key_compare b c = Lt → key_compare a c = Lt;
}.

#[export] Program Instance Z_key_order : KeyOrder Z := {| key_compare := Z.compare |}.
Next Obligation. intros. apply Z.compare_eq_iff. Qed.
Next Obligation. intros. by rewrite Z.compare_antisym. Qed.
Next Obligation. intros a b c. rewrite !Z.compare_lt_iff. lia. Qed.

#[export] Program Instance string_key_order : KeyOrder string :=
  {| key_compare := String.compare |}.
Next Obligation.
  intros a b. split; [apply String.compare_eq_iff|]. intros ->.
  pose proof (String.compare_antisym b b) as Hc. by destruct (String.compare b b).
Qed.
Next Obligation. intros a b. apply String.compare_antisym. Qed.
Next Obligation.
  intros a b c Hab Hbc. apply String_as_OT.cmp_lt.
  apply (String_as_OT.lt_trans _ b); by apply String_as_OT.cmp_lt.
Qed.

Module BTree.
Section btree.
Context {K V : Type} `{KeyOrder K}.
Implicit Types (m : list (K * V)).

Fixpoint get (k : K) m : option V :=
  match m with
  | [] => None
  | (k', v) :: m' => match key_compare k k' with Eq => Some v | _ => get k m' end
  end.

Fixpoint insert (k : K) (v : V) m : list (K * V) :=
  match m with
  | [] => [(k, v)]
  | (k', v') :: m' =>
      match key_compare k k' with
      | Lt => (k, v) :: m
      | Eq => (k, v) :: m'
      | Gt => (k', v') :: insert k v m'
      end
  end.

(** [BTreeMap::from]: later entries win. *)
Definition of_list (l : list (K * V)) : list (K * V) :=
  foldl (λ m kv, insert kv.1 kv.2 m) [] l.

Definition keys m : list K := m.*1.
(** [into_values], in key order. *)
Definition values m : list V := m.*2.

(** Strictly increasing keys. *)
Definition lt_all (k : K) m : Prop := Forall (λ kv, key_compare k kv.1 = Lt) m.
Fixpoint sorted m : Prop :=
  match m with [] => True | (k, _) :: m' => lt_all k m' ∧ sorted m' end.

Lemma key_compare_refl (k : K) : key_compare k k = Eq.
Proof. by apply key_compare_eq. Qed.

Lemma key_compare_gt (a b : K) : key_compare a b = Gt → key_compare b a = Lt.
Proof. intros Hab. by rewrite key_compare_opp, Hab. Qed.

Lemma get_insert_eq k v m : get k (insert k v m) = Some v.
Proof.
  induction m as [|[k' v'] m IH]; simpl; [by rewrite key_compare_refl|].
  destruct (key_compare k k') eqn:E; simpl; rewrite ?key_compare_refl, ?E; done.
Qed.

Lemma get_insert_ne k k' v m : k ≠ k' → get k' (insert k v m) = get k' m.
Proof.
  intros Hne.
  assert (Hne' : key_compare k' k ≠ Eq) by (by intros ?%key_compare_eq).
  induction m as [|[a w] m IH]; simpl; [by destruct (key_compare k' k)|].
  destruct (key_compare k a) eqn:E; simpl.
  - apply key_compare_eq in E as ->. by destruct (key_compare k' a).
  - by destruct (key_compare k' k).
  - by rewrite IH.
Qed.

Lemma lt_all_insert a k v m :
  key_compare a k = Lt → lt_all a m → lt_all a (insert k v m).
Proof.
  intros Hak. induction 1 as [|[k' v'] m Hk' Hm IH]; simpl in *.
  - by constructor.
  - destruct (key_compare k k') eqn:E; repeat (constructor; simpl; try done).
Qed.

Lemma sorted_insert k v m : sorted m → sorted (insert k v m).
Proof.
  induction m as [|[k' v'] m IH]; simpl; [by repeat constructor|].
  intros [Hlt Hs]. destruct (key_compare k k') eqn:E; simpl.
  - apply key_compare_eq in E as ->. done.
  - split; [|done]. constructor; [done|]. eapply Forall_impl; [apply Hlt|].
    intros [] ?; simpl in *. by eapply key_compare_trans.
  - split; [|by apply IH]. by apply lt_all_insert; [apply key_compare_gt|].
Qed.

Lemma sorted_of_list l : sorted (of_list l).
Proof.
  unfold of_list. assert (Hg : ∀ m, sorted m → sorted (foldl (λ m kv, insert kv.1 kv.2 m) m l)).
  { induction l as [|[k v] l IH]; simpl; [done|]. intros m Hm. by apply IH, sorted_insert. }
  by apply Hg.
Qed.

Lemma lt_all_get k m : lt_all k m → get k m = None.
Proof.
  induction 1 as [|[k' v'] m Hk Hm IH]; simpl in *; [done|]. by rewrite Hk.
Qed.

Lemma length_insert_fresh k v m : get k m = None → len (insert k v m) = len m + 1.
Proof.
  unfold len. induction m as [|[k' v'] m IH]; simpl; [lia|].
  destruct (key_compare k k'); simpl; [done|lia|]. intros Hm. specialize (IH Hm). lia.
Qed.

Lemma length_insert_le k v m : len m ≤ len (insert k v m) ≤ len m + 1.
Proof.
  unfold len. induction m as [|[k' v'] m IH]; simpl; [lia|].
  destruct (key_compare k k'); simpl; lia.
Qed.

Lemma elem_of_get k v m : get k m = Some v → (k, v) ∈ m.
Proof.
  induction m as [|[k' v'] m IH]; simpl; [done|].
  destruct (key_compare k k') eqn:E; [|by right; apply IH..].
  apply key_compare_eq in E as ->. intros [= ->]. left.
Qed.

Lemma get_elem_of k v m : sorted m → (k, v) ∈ m → get k m = Some v.
Proof.
  induction m as [|[k' v'] m IH]; simpl; [by intros _ ?%elem_of_nil|].
  intros [Hlt Hs] [[= -> ->]|Hin]%elem_of_cons; [by rewrite key_compare_refl|].
  destruct (key_compare k k') eqn:E; [|by apply IH..].
  apply key_compare_eq in E as ->. unfold lt_all in Hlt. rewrite Forall_forall in Hlt.
  specialize (Hlt _ Hin). simpl in Hlt. by rewrite key_compare_refl in Hlt.
Qed.

(** Two sorted maps with the same lookups are the same map. *)
Lemma sorted_ext m m' : sorted m → sorted m' → (∀ k, get k m = get k m') → m = m'.
Proof.
  revert m'. induction m as [|[k v] m IH]; intros [|[k' v'] m']; simpl; [done|..].
  { intros _ _ Hg. specialize (Hg k'). by rewrite key_compare_refl in Hg. }
  { intros _ _ Hg. specialize (Hg k). by rewrite key_compare_refl in Hg. }
  intros [Hl Hs] [Hl' Hs'] Hg.
  assert (k = k') as <-.
  { pose proof (Hg k) as H1. pose proof (Hg k') as H2.
    rewrite key_compare_refl in H1, H2.
    destruct (key_compare k k') eqn:E; [by apply key_compare_eq|..].
    - assert (lt_all k m') as Hx%lt_all_get; [|simpl in H1; by rewrite ?E, Hx in H1].
      eapply Forall_impl; [apply Hl'|]. intros [] ?; simpl in *. by eapply key_compare_trans.
    - rewrite key_compare_opp, E in H2; simpl in H2.
      assert (lt_all k' m) as Hx%lt_all_get; [|by rewrite Hx in H2].
      apply key_compare_gt in E.
      eapply Forall_impl; [apply Hl|]. intros [] ?; simpl in *. by eapply key_compare_trans. }
  pose proof (Hg k) as H1. rewrite key_compare_refl in H1. injection H1 as ->.
  f_equal. apply IH; [done|done|]. intros a. specialize (Hg a).
  destruct (key_compare a k) eqn:E; [|done..].
  apply key_compare_eq in E as ->. by rewrite !lt_all_get.
Qed.

Lemma insert_Permutation k v m : get k m = None → insert k v m ≡ₚ (k, v) :: m.
Proof.
  induction m as [|[k' v'] m IH]; simpl; [done|].
  destruct (key_compare k k') eqn:E; [done|done|]. intros Hm.
  rewrite (IH Hm). apply Permutation_swap.
Qed.

Lemma get_None_lt_all k m : sorted m → (∀ v, (k, v) ∉ m) → get k m = None.
Proof.
  intros Hs Hm. destruct (get k m) as [v|] eqn:E; [|done].
  by apply elem_of_get, Hm in E.
Qed.

Lemma sorted_NoDup_keys m : sorted m → NoDup (keys m).
Proof.
  induction m as [|[k v] m IH]; simpl; [constructor|]. intros [Hlt Hs].
  constructor; [|by apply IH]. intros ([k' v'] & Hk & Hin)%list_elem_of_fmap.
  simpl in Hk. subst k'. unfold lt_all in Hlt. rewrite Forall_forall in Hlt.
  specialize (Hlt _ Hin). simpl in Hlt. by rewrite key_compare_refl in Hlt.
Qed.

Lemma sorted_Permutation m m' : sorted m → sorted m' → m ≡ₚ m' → m = m'.
Proof.
  intros Hs Hs' Hp. apply sorted_ext; [done|done|]. intros k.
  destruct (get k m) as [v|] eqn:E, (get k m') as [v'|] eqn:E'; [|exfalso..|done].
  - apply elem_of_get in E. rewrite Hp in E. apply get_elem_of in E; [congruence|done].
  - apply elem_of_get in E. rewrite Hp in E. apply get_elem_of in E; [congruence|done].
  - apply elem_of_get in E'. rewrite <- Hp in E'. apply get_elem_of in E'; [congruence|done].
Qed.

Lemma insert_snoc k v m l : sorted (m ++ (k, v) :: l) → insert k v m = m ++ [(k, v)].
Proof.
  induction m as [|[k' v'] m IH]; simpl; [done|]. intros [Hlt Hs].
  apply Forall_app in Hlt as [_ Hlt]. inversion_clear Hlt as [|? ? Hk _]. simpl in Hk.
  rewrite key_compare_opp, Hk. simpl. by rewrite IH.
Qed.

(** A sorted map is its own [of_list]. *)
Lemma of_list_sorted m : sorted m → of_list m = m.
Proof.
  unfold of_list. assert (Hg : ∀ acc, sorted (acc ++ m) →
    foldl (λ m kv, insert kv.1 kv.2 m) acc m = acc ++ m).
  { induction m as [|[k v] m IH]; intros acc Hs; simpl; [by rewrite app_nil_r|].
    rewrite (insert_snoc _ _ _ _ Hs), IH by (by rewrite <- app_assoc). by rewrite <- app_assoc. }
  intros Hs. by apply (Hg []).
Qed.
End btree.
End BTree.

(** ** Lengths *)
Lemma len_nonneg {A} (l : list A) : 0 ≤ len l.
Proof. unfold len. lia. Qed.
Lemma len_nil {A} : len (@nil A) = 0.
Proof. done. Qed.
Lemma len_cons {A} (x : A) l : len (x :: l) = 1 + len l.
Proof. unfold len. simpl. lia. Qed.
Lemma len_app {A} (l k : list A) : len (l ++ k) = len l + len k.
Proof. unfold len. rewrite length_app. lia. Qed.
Lemma len_map {A B} (f : A → B) l : len (f <$> l) = len l.
Proof. unfold len. by rewrite length_fmap. Qed.
Lemma len_replicate {A} n (x : A) : len (replicate n x) = Z.of_nat n.
Proof. unfold len. by rewrite length_replicate. Qed.
Lemma len_zero {A} (l : list A) : len l = 0 → l = [].
Proof. destruct l; [done|]. rewrite len_cons. pose proof (len_nonneg l). lia. Qed.
Lemma len_slice_to {A} (l : list A) n : 0 ≤ n ≤ len l → len (slice_to l n) = n.
Proof. unfold len, slice_to. rewrite length_take. lia. Qed.
Lemma len_slice_from {A} (l : list A) n : 0 ≤ n ≤ len l → len (slice_from l n) = len l - n.
Proof. unfold len, slice_from. rewrite length_drop. lia. Qed.
Lemma slice_split {A} (l : list A) n : slice_to l n ++ slice_from l n = l.
Proof. apply take_drop. Qed.
Lemma slice_to_app {A} (l k : list A) n : n = len l → slice_to (l ++ k) n = l.
Proof. intros ->. unfold slice_to, len. rewrite Nat2Z.id. apply take_app_length. Qed.
Lemma slice_from_app {A} (l k : list A) n : n = len l → slice_from (l ++ k) n = k.
Proof. intros ->. unfold slice_from, len. rewrite Nat2Z.id. apply drop_app_length. Qed.

Lemma get_range_app {A} (p m s : list A) a b :
  a = len p → b = a + len m → get_range (p ++ m ++ s) a b = Some m.
Proof.
  intros -> ->. unfold get_range. pose proof (len_nonneg p). pose proof (len_nonneg m).
  pose proof (len_nonneg s). rewrite !len_app.
  replace (0 <=? len p) with true by lia. replace (len p <=? len p + len m) with true by lia.
  replace (len p + len m <=? len p + (len m + len s)) with true by lia. simpl. f_equal.
  replace (Z.to_nat (len p + len m - len p)) with (length m) by (unfold len; lia).
  replace (Z.to_nat (len p)) with (length p) by (unfold len; lia).
  rewrite drop_app_length. apply take_app_length.
Qed.

Lemma get_range_Some {A} (l r : list A) a b :
  get_range l a b = Some r →
  0 ≤ a ≤ b ∧ b ≤ len l ∧ len r = b - a ∧
  l = slice_to l a ++ r ++ slice_from l b.
Proof.
  unfold get_range, slice_to, slice_from. destruct (_ && _) eqn:E; [|done]. intros [= <-].
  apply andb_prop in E as [[? ?]%andb_prop ?]. split_and!; try lia.
  - unfold len in *. rewrite length_take, length_drop. lia.
  - rewrite <- (take_drop (Z.to_nat a) l) at 1. f_equal.
    rewrite <- (take_drop (Z.to_nat (b - a)) (drop (Z.to_nat a) l)) at 1. f_equal.
    rewrite drop_drop. f_equal. lia.
Qed.

Lemma len_as_bytes s : len (as_bytes s) = slen s.
Proof.
  induction s as [|c s IH]; [done|]. simpl. rewrite len_cons, IH.
  unfold slen. change (String.length (String c s)) with (S (String.length s)). lia.
Qed.

Lemma as_bytes_app s s' : as_bytes (s +:+ s') = as_bytes s ++ as_bytes s'.
Proof. induction s as [|c s IH]; [done|]. by apply (f_equal (cons (byte_of_ascii c))). Qed.

Lemma as_bytes_is_byte s : Forall is_byte (as_bytes s).
Proof.
  induction s as [|c s IH]; simpl; constructor; [|done].
  unfold is_byte, byte_of_ascii. pose proof (Ascii.N_ascii_bounded c). lia.
Qed.

Lemma string_of_as_bytes s : string_of_bytes (as_bytes s) = s.
Proof.
  induction s as [|c s IH]; [done|]. simpl. rewrite IH. f_equal.
  unfold ascii_of_byte, byte_of_ascii. by rewrite N2Z.id, Ascii.ascii_N_embedding.
Qed.

Lemma as_string_of_bytes l : Forall is_byte l → as_bytes (string_of_bytes l) = l.
Proof.
  induction 1 as [|b l Hb _ IH]; [done|]. simpl. rewrite IH. f_equal.
  unfold is_byte in Hb. unfold ascii_of_byte, byte_of_ascii.
  rewrite Ascii.N_ascii_embedding by lia. lia.
Qed.

Lemma slen_app s t : slen (s +:+ t) = slen s + slen t.
Proof.
  unfold slen. induction s as [|c s IH]; [done|].
  change (String c s +:+ t) with (String c (s +:+ t)).
  change (String.length (String c ?u)) with (S (String.length u)). lia.
Qed.

Lemma from_to_le_bytes n v : 0 ≤ v < 256 ^ Z.of_nat n → from_le_bytes (to_le_bytes n v) = v.
Proof.
  revert v. induction n as [|n IH]; intros v Hv; cbn [to_le_bytes from_le_bytes foldr].
  - change (256 ^ Z.of_nat 0) with 1 in Hv. lia.
  - unfold from_le_bytes in IH. rewrite IH; [pose proof (Z.div_mod v 256); lia|].
    rewrite Nat2Z.inj_succ, Z.pow_succ_r in Hv by lia.
    pose proof (Z.div_pos v 256). split; [lia|]. apply Z.div_lt_upper_bound; lia.
Qed.
Lemma len_to_le_bytes n v : len (to_le_bytes n v) = Z.of_nat n.
Proof. revert v. induction n as [|n IH]; intros v; simpl; [done|]. rewrite len_cons, IH. lia. Qed.

(** A relation that is functional on the second list. *)
Lemma Forall2_functional {A B} (R : A → B → Prop) l k k' :
  Forall (λ y, ∀ x y', R x y → R x y' → y = y') k → Forall2 R l k → Forall2 R l k' → k = k'.
Proof.
  intros Hf H2. revert k' Hf. induction H2 as [|x y l k Hxy _ IH]; intros k' Hf H2'.
  - by inversion H2'.
  - inversion H2' as [|? y' ? k'' ? ?]; subst. inversion_clear Hf as [|? ? Hy Hk].
    f_equal; [by eapply Hy|by apply IH].
Qed.

(** ** Automation *)

(** Split a goal or a hypothesis on the tests of the code it mentions. *)
Ltac case_tests := repeat case_match; simplify_eq/=; try done.
Ltac bool_hyps := repeat match goal with
  | H : _ && _ = true |- _ => apply andb_prop in H as [? ?]
  | H : _ || _ = false |- _ => apply orb_false_elim in H as [? ?]
  | H : negb _ = true |- _ => apply negb_true_iff in H
  | H : negb _ = false |- _ => apply negb_false_iff in H
  end.

Create HintDb lengths.
#[export] Hint Rewrite @len_nil @len_cons @len_app @len_map @len_replicate len_as_bytes
  slen_app : lengths.
#[export] Hint Resolve len_nonneg : core.
Ltac lens := autorewrite with lengths in *.
