(* ===== verification/Floats.v ===== *)
(** * Floating point and time

    The source's [f64]/[f32] values are the IEEE-754 numbers of
    [Floats.SpecFloat] at the two formats (NaN payloads are not observed by the
    source), so every cast, sum, product and comparison below evaluates.
    [Duration] and [Instant] are nanosecond counts. *)
From S2P Require Import Prelude.
From Stdlib Require Export SpecFloat.
#[local] Open Scope Z_scope.

Abbreviation f64 := spec_float (only parsing).
Abbreviation f32 := spec_float (only parsing).

#[export] Instance spec_float_eq_dec : EqDecision spec_float.
Proof. solve_decision. Defined.

Definition is_finite (x : spec_float) : bool :=
  match x with S754_zero _ | S754_finite _ _ _ => true | _ => false end.
(** The comparisons [x <= 0.0] and [x < 0.0] of the source. *)
Definition le_zero (x : spec_float) : bool := SFleb x (S754_zero false).

Module F64.
Definition of_Z (n : Z) : f64 := binary_normalize 53 1024 n 0 false.
Definition add : f64 → f64 → f64 := SFadd 53 1024.
Definition sub : f64 → f64 → f64 := SFsub 53 1024.
Definition div : f64 → f64 → f64 := SFdiv 53 1024.
Definition ge (x y : f64) : bool := SFleb y x.
End F64.

Module F32.
(** [n as f32] for an integer and [x as f32] for an [f64]: round to nearest,
    ties to even, overflow to infinity. *)
Definition of_Z (n : Z) : f32 := binary_normalize 24 128 n 0 false.
Definition of_f64 (x : f64) : f32 :=
  match x with S754_finite s m e => binary_round 24 128 s m e | _ => x end.
Definition add : f32 → f32 → f32 := SFadd 24 128.
Definition mul : f32 → f32 → f32 := SFmul 24 128.
End F32.

(** ** [std::time] *)
Definition nanos_per_sec : Z := 1000000000.
Definition duration_max : Z := u64_max * nanos_per_sec + 999999999.
Definition from_secs (s : Z) : Z := s * nanos_per_sec.
Definition from_millis (ms : Z) : Z := ms * 1000000.
(** The largest [Instant] of the Unix targets: a [Timespec] with [i64] seconds. *)
Definition instant_max : Z := i64_max * nanos_per_sec + 999999999.
Definition instant_checked_add (now d : Z) : option Z :=
  if now + d <=? instant_max then Some (now + d) else None.

(** [n / d] rounded to nearest, ties to even. *)
Definition div_half_even (n d : Z) : Z :=
  let q := n / d in let r := n mod d in
  match 2 * r ?= d with
  | Lt => q
  | Gt => q + 1
  | Eq => if Z.even q then q else q + 1
  end.

(** [Duration::try_from_secs_f64]: negative, NaN and out-of-range seconds are
    errors; the rest is rounded to the nearest nanosecond. *)
Definition try_from_secs_f64 (x : f64) : option Z :=
  match x with
  | S754_zero _ => Some 0
  | S754_infinity _ | S754_nan => None
  | S754_finite true _ _ => None
  | S754_finite false m e =>
      let n := if 0 <=? e then Z.pos m * 2 ^ e * nanos_per_sec
               else div_half_even (Z.pos m * nanos_per_sec) (2 ^ (- e)) in
      if n <=? duration_max then Some n else None
  end.

(** [Duration::as_secs_f64] is [secs as f64 + nanos as f64 / 1e9]. *)
Definition as_secs_f64 (d : Z) : f64 :=
  F64.add (F64.of_Z (d / nanos_per_sec))
          (F64.div (F64.of_Z (d mod nanos_per_sec)) (F64.of_Z nanos_per_sec)).

Lemma div_half_even_nonneg n d : 0 ≤ n → 0 < d → 0 ≤ div_half_even n d.
Proof.
  intros Hn Hd. unfold div_half_even. pose proof (Z.div_pos n d Hn Hd).
  repeat case_match; lia.
Qed.

Lemma try_from_secs_f64_range x d :
  try_from_secs_f64 x = Some d → 0 ≤ d ≤ duration_max.
Proof.
  unfold try_from_secs_f64. intros Hx.
  assert (0 < nanos_per_sec) by done.
  destruct x as [| | |[] m e]; simplify_eq/=; [done|].
  destruct (_ <=? duration_max) eqn:Hle in Hx; simplify_eq.
  split; [|lia]. case_match.
  - repeat apply Z.mul_nonneg_nonneg; [lia|apply Z.pow_nonneg; lia|lia].
  - apply div_half_even_nonneg; [lia|apply Z.pow_pos_nonneg; lia].
Qed.

Example try_from_secs_examples :
  try_from_secs_f64 (F64.of_Z 10) = Some 10000000000 ∧
  try_from_secs_f64 (F64.div (F64.of_Z 1) (F64.of_Z 15)) = Some 66666667 ∧
  try_from_secs_f64 (F64.of_Z (-1)) = None ∧
  try_from_secs_f64 S754_nan = None.
Proof. by vm_compute. Qed.
