(* ===== verification/Json.v ===== *)
(** * JSON values and request identities (src/src/protocol/models.rs)

    [serde_json::Value] with its constructors and the accessors the source
    calls, the data of models.rs and [RequestIdentity].  The printers of
    serde_json and of [f64] are the operations of [SerdeJson]. *)
From S2P Require Import Prelude Floats.
#[local] Open Scope Z_scope.

(** [serde_json::Number]. *)
Inductive number :=
  | PosInt (n : Z)
  | NegInt (n : Z)
  | Float (x : f64).

Inductive value :=
  | JNull
  | JBool (b : bool)
  | JNumber (n : number)
  | JString (s : string)
  | JArray (l : list value)
  | JObject (m : list (string * value)).

Fixpoint value_ind' (P : value → Prop)
    (HNull : P JNull) (HBool : ∀ b, P (JBool b)) (HNum : ∀ n, P (JNumber n))
    (HStr : ∀ s, P (JString s))
    (HArr : ∀ l, Forall P l → P (JArray l))
    (HObj : ∀ m, Forall (λ kv, P kv.2) m → P (JObject m)) (v : value) : P v :=
  let rec := value_ind' P HNull HBool HNum HStr HArr HObj in
  match v with
  | JNull => HNull
  | JBool b => HBool b
  | JNumber n => HNum n
  | JString s => HStr s
  | JArray l => HArr l ((fix go l : Forall P l :=
      match l with [] => Forall_nil_2 _ | x :: l => Forall_cons_2 _ _ _ (rec x) (go l) end) l)
  | JObject m => HObj m ((fix go m : Forall (λ kv, P kv.2) m :=
      match m with
      | [] => Forall_nil_2 _
      | kv :: m => Forall_cons_2 _ _ _ (rec kv.2) (go m)
      end) m)
  end.

(** Printers the source only forwards the results of: [serde_json::to_string] and
    [Display] of a value, [{}] and [{:.1}] of an [f64]. *)
Class SerdeJson := {
  json_to_string : value → result string string;
  value_display : value → string;
  f64_to_string : f64 → string;
  f64_to_fixed1 : f64 → string;
}.

(** ** Accessors *)
Definition num_of_i64 (n : Z) : number := if 0 <=? n then PosInt n else NegInt n.
Definition num_of_u64 (n : Z) : number := PosInt n.

Definition as_str (v : value) : option string :=
  match v with JString s => Some s | _ => None end.
Definition as_bool (v : value) : option bool :=
  match v with JBool b => Some b | _ => None end.
Definition as_array (v : value) : option (list value) :=
  match v with JArray l => Some l | _ => None end.
Definition as_object (v : value) : option (list (string * value)) :=
  match v with JObject m => Some m | _ => None end.
Definition as_i64 (v : value) : option Z :=
  match v with
  | JNumber (PosInt n) => if n <=? i64_max then Some n else None
  | JNumber (NegInt n) => Some n
  | _ => None
  end.
Definition as_u64 (v : value) : option Z :=
  match v with JNumber (PosInt n) => Some n | _ => None end.
Definition as_f64 (v : value) : option f64 :=
  match v with
  | JNumber (PosInt n) | JNumber (NegInt n) => Some (F64.of_Z n)
  | JNumber (Float x) => Some x
  | _ => None
  end.
Definition is_object (v : value) : bool :=
  match v with JObject _ => true | _ => false end.

(** [Value::get] with a string index. *)
Definition get (v : value) (k : string) : option value :=
  match v with JObject m => BTree.get k m | _ => None end.
Definition get_path (v : value) (ks : list string) : option value :=
  foldl (λ o k, o ≫= λ u, get u k) (Some v) ks.

(** [value[k] = x] on an object (or on [Null], which becomes one); the other
    uses panic in the source and do not occur. *)
Definition set_key (v : value) (k : string) (x : value) : value :=
  match v with
  | JObject m => JObject (BTree.insert k x m)
  | JNull => JObject [(k, x)]
  | _ => v
  end.
(** Assignment through [pointer_mut] on a path of object keys. *)
Fixpoint set_path (v : value) (ks : list string) (x : value) : value :=
  match ks with
  | [] => x
  | k :: ks' =>
      match get v k with
      | Some u => set_key v k (set_path u ks' x)
      | None => v
      end
  end.
(** [json!({...})]. *)
Definition obj (l : list (string * value)) : value := JObject (BTree.of_list l).
Definition jint (n : Z) : value := JNumber (num_of_i64 n).

(** Well-formed values: integers in range, object keys strictly increasing. *)
Definition number_wf (n : number) : Prop :=
  match n with
  | PosInt n => 0 ≤ n ≤ u64_max
  | NegInt n => i64_min ≤ n < 0
  | Float x => is_finite x = true
  end.
Fixpoint value_wf (v : value) : Prop :=
  match v with
  | JNumber n => number_wf n
  | JArray l => foldr (λ v P, value_wf v ∧ P) True l
  | JObject m => BTree.sorted m ∧ foldr (λ kv P, value_wf kv.2 ∧ P) True m
  | _ => True
  end.

(** ** models.rs *)
Module Session.
Inductive SessionState := Disconnected | Connecting | Connected | Reconnecting.
End Session.

Record MessageEnvelope := {
  env_type : string;
  env_topic : string;
  env_data : value;
}.
Definition correlation_key (e : MessageEnvelope) : string :=
  env_type e +:+ " $ " +:+ env_topic e.

Inductive DcMessage :=
  | Text (s : string)
  | Binary (b : bytes)
  | TransportFault (s : string).

Record IngressMessage := { im_generation : Z; im_payload : DcMessage }.
Definition for_generation (m : DcMessage) (generation : Z) : IngressMessage :=
  {| im_generation := generation; im_payload := m |}.

Inductive CallbackEvent :=
  | TopicCallback (topic : string) (payload : value)
  | LidarCallback (topic : string) (payload : value) (points : list f32)
  | VideoFrame (data : bytes) (width height : Z)
  | AudioFrame (data : list Z) (sample_rate channels : Z)
  | FutureResolve (key : string) (res : value).

Section identity.
Context `{SerdeJson}.

Definition nested_scalar_to_string (payload : value) (keys : list string) : option string :=
  current ← get_path payload keys;
  match as_str current with
  | Some s => Some s
  | None =>
  match as_i64 current with
  | Some n => Some (pretty n)
  | None =>
  match as_u64 current with
  | Some n => Some (pretty n)
  | None =>
  match as_f64 current with
  | Some x => Some (f64_to_string x)
  | None =>
  match as_bool current with
  | Some b => Some (if b then "true" else "false")
  | None => None
  end end end end end.

(** [RequestIdentity::extract_key]. *)
Definition extract_key (payload : value) : option string :=
  match nested_scalar_to_string payload ["uuid"] with
  | Some s => Some s
  | None =>
  match nested_scalar_to_string payload ["header"; "identity"; "id"] with
  | Some s => Some s
  | None =>
  match nested_scalar_to_string payload ["req_uuid"] with
  | Some s => Some s
  | None =>
      let type_ := default "" (nested_scalar_to_string payload ["type"]) in
      let topic := default "" (nested_scalar_to_string payload ["topic"]) in
      if seqb type_ "" && seqb topic "" then None
      else Some (type_ +:+ " $ " +:+ topic)
  end end end.
End identity.

(** ** Laws of the accessors *)
Lemma get_set_key m k x : get (set_key (JObject m) k x) k = Some x.
Proof. apply BTree.get_insert_eq. Qed.

Lemma get_set_key_ne v k k' x : k ≠ k' → is_object v = true → get (set_key v k x) k' = get v k'.
Proof. intros ?. destruct v; try done. intros _. by apply BTree.get_insert_ne. Qed.

Lemma is_object_set_key v k x : is_object v = true → is_object (set_key v k x) = true.
Proof. by destruct v. Qed.

Lemma get_Some_object v k u : get v k = Some u → is_object v = true.
Proof. by destruct v. Qed.

Lemma get_path_cons v k ks : get_path v (k :: ks) = get v k ≫= λ u, get_path u ks.
Proof.
  unfold get_path. simpl. destruct (get v k); [done|]. simpl.
  induction ks as [|k' ks IH]; [done|]. simpl. done.
Qed.

(** Writing at an existing path is read back there, and nowhere else at the
    same level. *)
Lemma get_set_path v ks x :
  is_Some (get_path v ks) → get_path (set_path v ks x) ks = Some x.
Proof.
  revert v. induction ks as [|k ks IH]; intros v; [done|].
  rewrite get_path_cons. simpl. destruct (get v k) as [u|] eqn:Hu; simpl; [|by intros []].
  intros Hks. rewrite get_path_cons.
  destruct v; simplify_eq/=. rewrite BTree.get_insert_eq. simpl. by apply IH.
Qed.

Lemma get_set_path_ne v k ks x k' :
  k ≠ k' → get (set_path v (k :: ks) x) k' = get v k'.
Proof.
  intros Hne. simpl. destruct (get v k) as [u|] eqn:Hu; [|done].
  apply get_set_key_ne; [done|]. by eapply get_Some_object.
Qed.

Lemma value_wf_array l : value_wf (JArray l) ↔ Forall value_wf l.
Proof. simpl. induction l as [|v l IH]; simpl; [done|]. rewrite IH. by rewrite Forall_cons. Qed.
Lemma value_wf_object m :
  value_wf (JObject m) ↔ BTree.sorted m ∧ Forall (λ kv, value_wf kv.2) m.
Proof.
  simpl. f_equiv. clear. induction m as [|[k v] m IH]; simpl; [done|].
  rewrite IH. by rewrite Forall_cons.
Qed.
