(* ===== verification/Chunks.v ===== *)
(** * Chunk assembly (src/src/datachannel/core/chunks.rs)

    [ChunkAssembler]: the retained transfers, their admission checks and budgets.
    The theorems: the resource invariant is preserved by every operation (so the
    [usize] subtractions never underflow), every rejected insertion discards
    exactly its own transfer, and the chunks of a transfer, delivered in any
    order, reassemble to their concatenation. *)
From S2P Require Import Prelude.
#[local] Open Scope Z_scope.

Definition MAX_CHUNKS : Z := 4096.
Definition MAX_TRANSFER_BYTES : Z := 16 * 1024 * 1024.
Definition MAX_TRANSFERS : Z := 64.
Definition MAX_RETAINED_BYTES : Z := 64 * 1024 * 1024.
(** 30 s, in the nanoseconds of [Instant]. *)
Definition TRANSFER_TTL : Z := 30 * 1000000000.

Record Transfer := {
  schema : string;
  total : Z;
  chunks : list (Z * bytes);   (* BTreeMap<usize, Vec<u8>> *)
  tbytes : Z;
  deadline : Z;
}.

Abbreviation ChunkAssembler := (gmap string Transfer).

Definition remove (a : ChunkAssembler) (key : string) : ChunkAssembler := delete key a.
Definition clear (a : ChunkAssembler) : ChunkAssembler := ∅.

(** The transfers past their deadline leave; their keys are returned. *)
Definition expired_b (now : Z) (t : Transfer) : bool := deadline t <=? now.
Definition expire (a : ChunkAssembler) (now : Z) : list string * ChunkAssembler :=
  let expired := (filter (λ kt, expired_b now kt.2 = true) (map_to_list a)).*1 in
  (expired, foldr delete a expired).

Definition retained (a : ChunkAssembler) : Z := map_zsum tbytes a.

(** The entry [insert_checked] stores a chunk into. *)
Definition entry_or_insert (a : ChunkAssembler) (key sch : string) (tot now : Z) : Transfer :=
  match a !! key with
  | Some t => t
  | None => {| schema := sch; total := tot; chunks := []; tbytes := 0;
               deadline := now + TRANSFER_TTL |}
  end.
Definition add_chunk (t : Transfer) (index : Z) (data : bytes) : Transfer :=
  {| schema := schema t; total := total t;
     chunks := BTree.insert index data (chunks t);
     tbytes := tbytes t + len data; deadline := deadline t |}.

(** The store and completion step, once a chunk is admitted. *)
Definition store_chunk (a : ChunkAssembler) (key sch : string) (index tot : Z)
    (data : bytes) (now : Z) : PortResult (option bytes) * ChunkAssembler :=
  let t := add_chunk (entry_or_insert a key sch tot now) index data in
  if negb (len (chunks t) =? tot) then (Ok None, <[key := t]> a)
  else (Ok (Some (concat (BTree.values (chunks t)))), delete key a).

Definition insert_checked (a : ChunkAssembler) (key sch : string) (index tot : Z)
    (data : bytes) (now : Z) : PortResult (option bytes) * ChunkAssembler :=
  if (tot =? 0) || (MAX_CHUNKS <? tot) || (index =? 0) || (tot <? index) then
    (Err "Invalid chunk count or index", a)
  else
  let ret := retained a in
  match a !! key with
  | Some t =>
      if deadline t <=? now then (Err "Chunk assembly deadline expired", a)
      else if negb (seqb (schema t) sch) then (Err "Inconsistent chunk schema", a)
      else if negb (total t =? tot) then (Err "Inconsistent chunk count", a)
      else
      match BTree.get index (chunks t) with
      | Some previous =>
          if decide (previous = data) then (Ok None, a)
          else (Err "Conflicting duplicate chunk", a)
      | None =>
          if MAX_TRANSFER_BYTES - tbytes t <? len data then
            (Err "Chunk transfer exceeds byte budget", a)
          else if MAX_RETAINED_BYTES - ret <? len data then
            (Err "Chunk assembly exceeds retained byte budget", a)
          else store_chunk a key sch index tot data now
      end
  | None =>
      if (MAX_TRANSFERS <=? Z.of_nat (size a)) || (MAX_TRANSFER_BYTES <? len data) then
        (Err "Chunk transfer exceeds resource budget", a)
      else if MAX_RETAINED_BYTES - ret <? len data then
        (Err "Chunk assembly exceeds retained byte budget", a)
      else store_chunk a key sch index tot data now
  end.

(** [ChunkAssembler::insert]: a rejected chunk also discards its transfer. *)
Definition insert (a : ChunkAssembler) (key sch : string) (index tot : Z)
    (data : bytes) (now : Z) : PortResult (option bytes) * ChunkAssembler :=
  let '(r, a') := insert_checked a key sch index tot data now in
  if is_err r then (r, remove a' key) else (r, a').

(** ** Resource invariant *)
Definition chunk_bytes (m : list (Z * bytes)) : Z := zsum (len <$> BTree.values m).

Record transfer_wf (t : Transfer) : Prop := {
  twf_total : 0 < total t ≤ MAX_CHUNKS;
  twf_sorted : BTree.sorted (chunks t);
  twf_keys : Forall (λ kv, 0 < kv.1 ≤ total t) (chunks t);
  twf_incomplete : 0 < len (chunks t) < total t;
  twf_bytes : tbytes t = chunk_bytes (chunks t);
  twf_budget : 0 ≤ tbytes t ≤ MAX_TRANSFER_BYTES;
}.

Record assembler_wf (a : ChunkAssembler) : Prop := {
  awf_transfers : map_Forall (λ _ t, transfer_wf t) a;
  awf_count : Z.of_nat (size a) ≤ MAX_TRANSFERS;
  awf_retained : retained a ≤ MAX_RETAINED_BYTES;
}.

Lemma chunk_bytes_insert k d m :
  BTree.get k m = None → chunk_bytes (BTree.insert k d m) = chunk_bytes m + len d.
Proof.
  intros Hk. unfold chunk_bytes, BTree.values.
  rewrite (zsum_Permutation _ (len <$> ((k, d) :: m).*2)).
  - rewrite !fmap_cons. simpl. lia.
  - do 2 apply Permutation_map. by apply BTree.insert_Permutation.
Qed.

Lemma chunk_bytes_nonneg m : 0 ≤ chunk_bytes m.
Proof. apply zsum_nonneg, Forall_fmap, Forall_true. intros. apply len_nonneg. Qed.

Lemma assembler_wf_empty : assembler_wf ∅.
Proof. split; [apply map_Forall_empty|done|done]. Qed.

Lemma transfer_bytes_nonneg a key t :
  assembler_wf a → a !! key = Some t → 0 ≤ tbytes t.
Proof. intros [Ha _ _] Ht. destruct (Ha _ _ Ht) as [_ _ _ _ _ ?]. lia. Qed.

Lemma assembler_wf_delete a key : assembler_wf a → assembler_wf (delete key a).
Proof.
  intros Hwf. pose proof Hwf as [Ha Hn Hr]. split.
  - by apply map_Forall_delete.
  - enough (size (delete key a) ≤ size a)%nat by lia.
    apply map_subseteq_size, delete_subseteq.
  - unfold retained in *. etrans; [|exact Hr].
    apply map_zsum_delete_le. intros; by eapply transfer_bytes_nonneg.
Qed.

(** The admission conditions under which [insert_checked] stores a chunk. *)
Definition admissible (a : ChunkAssembler) (key sch : string) (index tot : Z)
    (data : bytes) (now : Z) : Prop :=
  let t := entry_or_insert a key sch tot now in
  0 < tot ≤ MAX_CHUNKS ∧ 0 < index ≤ tot ∧ total t = tot ∧ schema t = sch ∧
  now < deadline t ∧ BTree.get index (chunks t) = None ∧
  tbytes t + len data ≤ MAX_TRANSFER_BYTES ∧
  retained a + len data ≤ MAX_RETAINED_BYTES ∧
  (a !! key = None → Z.of_nat (size a) < MAX_TRANSFERS).

(** What [insert_checked] can do, one case per branch of the source. *)
Lemma insert_checked_cases a key sch index tot data now r a' :
  0 ≤ tot → 0 ≤ index →
  insert_checked a key sch index tot data now = (r, a') →
  (∃ e, r = Err e ∧ a' = a) ∨
  (∃ t, a !! key = Some t ∧ now < deadline t ∧ schema t = sch ∧ total t = tot ∧
        BTree.get index (chunks t) = Some data ∧ r = Ok None ∧ a' = a) ∨
  (admissible a key sch index tot data now ∧
   store_chunk a key sch index tot data now = (r, a')).
Proof.
  intros Htot Hidx. unfold insert_checked, admissible, entry_or_insert, seqb.
  destruct (_ || _) eqn:Hhead; [intros; simplify_eq/=; left; eauto|]. bool_hyps.
  destruct (a !! key) as [t|] eqn:Ht.
  - destruct (deadline t <=? now) eqn:?; [intros; simplify_eq/=; left; eauto|].
    destruct (String.eqb_spec (schema t) sch); [|intros; simplify_eq/=; left; eauto]; simpl.
    destruct (total t =? tot) eqn:?; [|intros; simplify_eq/=; left; eauto]. simpl.
    destruct (BTree.get index (chunks t)) as [prev|] eqn:Hget.
    + case_decide; [|intros; simplify_eq/=; left; eauto].
      intros; simplify_eq. right; left. exists t. split_and!; auto; lia.
    + destruct (_ <? len data) eqn:?; [intros; simplify_eq/=; left; eauto|].
      destruct (MAX_RETAINED_BYTES - _ <? len data) eqn:?; [intros; simplify_eq/=; left; eauto|].
      intros Hst. right; right. split; [|done]. split_and!; try done; lia.
  - destruct (_ || _) eqn:?; [intros; simplify_eq/=; left; eauto|]. bool_hyps.
    destruct (MAX_RETAINED_BYTES - _ <? len data) eqn:?; [intros; simplify_eq/=; left; eauto|].
    intros Hst. right; right. split; [|done]. unfold TRANSFER_TTL; simpl.
    split_and!; try done; lia.
Qed.

Lemma entry_wf a key sch tot now :
  assembler_wf a → 0 < tot ≤ MAX_CHUNKS →
  let t := entry_or_insert a key sch tot now in
  total t = tot →
  BTree.sorted (chunks t) ∧ Forall (λ kv, 0 < kv.1 ≤ tot) (chunks t) ∧
  0 ≤ len (chunks t) < tot ∧ tbytes t = chunk_bytes (chunks t).
Proof.
  intros [Ha _ _] Htot. unfold entry_or_insert. destruct (a !! key) as [t|] eqn:Ht; simpl.
  - intros <-. destruct (Ha _ _ Ht). split_and!; auto; lia.
  - intros _. split_and!; [done|apply Forall_nil_2|done|rewrite len_nil; lia|done].
Qed.

Lemma add_chunk_wf a key sch index tot data now :
  assembler_wf a → admissible a key sch index tot data now →
  let t := add_chunk (entry_or_insert a key sch tot now) index data in
  len (chunks t) = len (chunks (entry_or_insert a key sch tot now)) + 1 ∧
  (len (chunks t) ≠ tot → transfer_wf t).
Proof.
  intros Hwf (Htot & Hidx & Heq & Hsch & Hdl & Hget & Hb & Hr & Hsz).
  destruct (entry_wf a key sch tot now Hwf Htot Heq) as (Hs & Hk & Hl & Htb).
  set (t0 := entry_or_insert a key sch tot now) in *. simpl.
  pose proof (BTree.length_insert_fresh index data _ Hget) as Hlen. split; [done|].
  intros Hne. pose proof (chunk_bytes_nonneg (chunks t0)). pose proof (len_nonneg data).
  split; simpl.
  - by rewrite Heq.
  - by apply BTree.sorted_insert.
  - rewrite (BTree.insert_Permutation _ _ _ Hget), Heq. by constructor.
  - rewrite Heq. lia.
  - rewrite chunk_bytes_insert by done. lia.
  - lia.
Qed.

Lemma retained_store a key sch index tot data now :
  retained (<[key := add_chunk (entry_or_insert a key sch tot now) index data]> a)
  = retained a + len data.
Proof.
  unfold retained, entry_or_insert, add_chunk. destruct (a !! key) as [t|] eqn:Ht.
  - rewrite (map_zsum_update _ _ _ _ _ Ht). simpl. lia.
  - rewrite map_zsum_insert by done. simpl. lia.
Qed.

Lemma store_chunk_wf a key sch index tot data now :
  assembler_wf a → admissible a key sch index tot data now →
  assembler_wf (store_chunk a key sch index tot data now).2.
Proof.
  intros Hwf Hadm. destruct (add_chunk_wf _ _ _ _ _ _ _ Hwf Hadm) as [_ Htwf].
  pose proof Hwf as [Ha Hn Hr].
  destruct Hadm as (Htot & Hidx & Heq & Hsch & Hdl & Hget & Hb & Hret & Hsz).
  unfold store_chunk. case_match eqn:Hc; simpl; [|by apply assembler_wf_delete].
  split.
  - apply map_Forall_insert_2; [|done]. apply Htwf. lia.
  - destruct (a !! key) eqn:Hk.
    + rewrite map_size_insert_Some; [done|by eexists].
    + rewrite map_size_insert_None by done. specialize (Hsz eq_refl). lia.
  - rewrite retained_store. lia.
Qed.

(** The resource invariant is preserved by every insertion, accepted
    or not: at most 64 transfers, 16 MiB each, 64 MiB together, every retained
    transfer incomplete, sorted and consistent with its byte count. *)
Theorem insert_preserves_wf a key sch index tot data now :
  assembler_wf a → 0 ≤ index → 0 ≤ tot →
  assembler_wf (insert a key sch index tot data now).2.
Proof.
  intros Hwf Hidx Htot. unfold insert.
  destruct (insert_checked _ _ _ _ _ _ _) as [r a'] eqn:Hc.
  apply insert_checked_cases in Hc as
    [(e & -> & ->)|[(t & ? & ? & ? & ? & ? & -> & ->)|[Hadm Hst]]]; try done; simpl.
  - by apply assembler_wf_delete.
  - apply store_chunk_wf in Hadm as Hwf'; [|done]. rewrite Hst in Hwf'.
    destruct (is_err r); [by apply assembler_wf_delete|done].
Qed.

Lemma assembler_wf_foldr_delete a ks : assembler_wf a → assembler_wf (foldr delete a ks).
Proof. intros Ha. induction ks; simpl; [done|]. by apply assembler_wf_delete. Qed.

(** A rejected chunk discards its transfer and nothing else. *)
Lemma insert_err_discards a key sch index tot data now e :
  (insert a key sch index tot data now).1 = Err e → 0 ≤ index → 0 ≤ tot →
  (insert a key sch index tot data now).2 = delete key a.
Proof.
  unfold insert. destruct (insert_checked _ _ _ _ _ _ _) as [r a'] eqn:Hc.
  intros Hr Hidx Htot. destruct r as [o|e']; simpl in *; [done|].
  apply insert_checked_cases in Hc as
    [(? & ? & ->)|[(? & ? & ? & ? & ? & ? & ? & ?)|[_ Hst]]]; [done|done| |done|done].
  unfold store_chunk in Hst. by destruct (negb _).
Qed.

(** Insertions touch only their own key. *)
Lemma insert_frame a key key' sch index tot data now :
  key ≠ key' → (insert a key sch index tot data now).2 !! key' = a !! key'.
Proof.
  intros Hne. unfold insert, insert_checked, store_chunk.
  repeat case_match; simplify_eq/=; unfold remove;
    rewrite ?lookup_delete_ne, ?lookup_insert_ne by done; done.
Qed.

(** Expiry removes exactly the transfers whose deadline has passed, returns
    exactly their keys, and leaves every other transfer as it was. *)
Theorem expire_exact a now key :
  ((key ∈ (expire a now).1) ↔ ∃ t, a !! key = Some t ∧ deadline t ≤ now) ∧
  (expire a now).2 !! key =
    match a !! key with
    | Some t => if deadline t <=? now then None else Some t
    | None => None
    end.
Proof.
  assert (Hin : ∀ k, k ∈ (expire a now).1 ↔ ∃ t, a !! k = Some t ∧ deadline t ≤ now).
  { intros k. unfold expire, expired_b; simpl. rewrite list_elem_of_fmap. split.
    - intros ([k' t] & -> & [? Ht]%list_elem_of_filter).
      apply elem_of_map_to_list in Ht. exists t. simpl in *. split; [done|lia].
    - intros (t & Ht & Hd). exists (k, t). split; [done|].
      apply list_elem_of_filter. split; [simpl; lia|by apply elem_of_map_to_list]. }
  split; [apply Hin|]. specialize (Hin key).
  change (expire a now).2 with (foldr delete a (expire a now).1).
  destruct (decide (key ∈ (expire a now).1)) as [Hk|Hk].
  - rewrite lookup_foldr_delete by done. apply Hin in Hk as (t & -> & ?).
    by replace (deadline t <=? now) with true by lia.
  - rewrite lookup_foldr_delete_not_elem_of by done.
    destruct (a !! key) as [t|] eqn:Ht; [|done].
    destruct (deadline t <=? now) eqn:Hd; [|done].
    destruct Hk. apply Hin. exists t. split; [done|lia].
Qed.

(** An identical duplicate of a stored chunk is ignored. *)
Lemma insert_duplicate a key sch index tot data now t :
  a !! key = Some t → schema t = sch → total t = tot → now < deadline t →
  0 < index ≤ tot → tot ≤ MAX_CHUNKS → BTree.get index (chunks t) = Some data →
  insert a key sch index tot data now = (Ok None, a).
Proof.
  intros Ht Hs Htt Hd Hi Hm Hg. unfold insert, insert_checked, seqb.
  replace ((tot =? 0) || _ || _ || _) with false by lia.
  rewrite Ht, Hs, String.eqb_refl, Htt, Z.eqb_refl, Hg.
  replace (deadline t <=? now) with false by lia. simpl. by rewrite decide_True.
Qed.

(** ** Reassembly *)
Definition delivery : Type := Z * bytes * Z.
Fixpoint feed (a : ChunkAssembler) (key sch : string) (tot : Z) (ds : list delivery)
    : list (PortResult (option bytes)) * ChunkAssembler :=
  match ds with
  | [] => ([], a)
  | (index, data, now) :: ds' =>
      let '(r, a') := insert a key sch index tot data now in
      let '(rs, a'') := feed a' key sch tot ds' in (r :: rs, a'')
  end.

(** The chunks of a transfer: one-based indexes over its pieces. *)
Definition numbered (pieces : list bytes) : list (Z * bytes) :=
  imap (λ i p, (Z.of_nat i + 1, p)) pieces.

Lemma numbered_values pieces : BTree.values (numbered pieces) = pieces.
Proof.
  unfold BTree.values, numbered.
  apply list_eq. intros i. rewrite list_lookup_fmap, list_lookup_imap.
  by destruct (pieces !! i).
Qed.

Lemma numbered_sorted_from (n : nat) (pieces : list bytes) :
  BTree.sorted (imap (λ i p, (Z.of_nat (n + i) + 1, p)) pieces).
Proof.
  revert n. induction pieces as [|p ps IH]; intros n; simpl; [done|]. split.
  - apply Forall_forall. intros [j q] (i & Hi)%list_elem_of_lookup.
    rewrite list_lookup_imap in Hi. destruct (ps !! i); simplify_eq/=.
    apply Z.compare_lt_iff. lia.
  - specialize (IH (S n)). erewrite imap_ext; [exact IH|].
    intros i x _; simpl. f_equal. lia.
Qed.

Lemma numbered_sorted pieces : BTree.sorted (numbered pieces).
Proof. apply (numbered_sorted_from 0). Qed.

Lemma numbered_index (pieces : list bytes) j p : (j, p) ∈ numbered pieces → 0 < j ≤ len pieces.
Proof.
  intros (i & Hi)%list_elem_of_lookup. unfold numbered in Hi.
  rewrite list_lookup_imap in Hi. destruct (pieces !! i) eqn:Hp; simplify_eq/=.
  apply lookup_lt_Some in Hp. unfold len. lia.
Qed.

Lemma insert_store a key sch index tot data now :
  admissible a key sch index tot data now →
  insert a key sch index tot data now = store_chunk a key sch index tot data now.
Proof.
  intros (Htot & Hidx & Heq & Hsch & Hdl & Hget & Hb & Hret & Hsz).
  assert (insert_checked a key sch index tot data now =
          store_chunk a key sch index tot data now) as Hc.
  { unfold insert_checked, entry_or_insert, seqb in *.
    replace ((tot =? 0) || _ || _ || _) with false by lia.
    destruct (a !! key) as [t|] eqn:Ht; simpl in *.
    - rewrite Hsch, String.eqb_refl, Heq, Z.eqb_refl, Hget.
      replace (deadline t <=? now) with false by lia. simpl.
      replace (_ <? len data) with false by lia.
      by replace (MAX_RETAINED_BYTES - _ <? len data) with false by lia.
    - specialize (Hsz eq_refl).
      replace (MAX_TRANSFERS <=? _) with false by lia.
      replace (MAX_TRANSFER_BYTES <? _) with false by lia. simpl.
      by replace (MAX_RETAINED_BYTES - _ <? len data) with false by lia. }
  unfold insert. rewrite Hc. unfold store_chunk. by destruct (negb _).
Qed.

(** The state between two chunks of a transfer of [pieces]: [m] is stored,
    [rest] is still to come, everything but [key] is [a]. *)
Record assembling (a : ChunkAssembler) (key sch : string) (pieces : list bytes)
    (rest : list (Z * bytes)) (t : Transfer) : Prop := {
  asm_schema : schema t = sch;
  asm_total : total t = len pieces;
  asm_sorted : BTree.sorted (chunks t);
  asm_bytes : tbytes t = chunk_bytes (chunks t);
  asm_split : rest ++ chunks t ≡ₚ numbered pieces;
}.

Lemma sizes_numbered pieces l :
  l ≡ₚ numbered pieces → zsum (len <$> l.*2) = zsum (len <$> pieces).
Proof.
  intros Hl. rewrite <- (numbered_values pieces) at 1. apply zsum_Permutation.
  do 2 apply Permutation_map. done.
Qed.

Lemma assembling_next a key sch pieces rest t index data :
  assembling a key sch pieces ((index, data) :: rest) t →
  0 < index ≤ len pieces ∧ BTree.get index (chunks t) = None ∧
  tbytes t + len data ≤ zsum (len <$> pieces) ∧
  len (chunks t) + 1 + len rest = len pieces ∧
  assembling a key sch pieces rest (add_chunk t index data).
Proof.
  intros [Hs Ht Hsrt Hb Hp].
  assert (Hget : BTree.get index (chunks t) = None).
  { apply BTree.get_None_lt_all; [done|]. intros v Hv.
    pose proof (BTree.sorted_NoDup_keys _ (numbered_sorted pieces)) as Hnd.
    unfold BTree.keys in Hnd. rewrite <- Hp in Hnd. simpl in Hnd.
    apply NoDup_cons in Hnd as [Hnd _]. apply Hnd.
    rewrite fmap_app. apply elem_of_app. right. apply list_elem_of_fmap. by exists (index, v). }
  split_and!.
  - assert (Hin : (index, data) ∈ numbered pieces) by (rewrite <- Hp; left).
    apply numbered_index in Hin. lia.
  - assert (Hin : (index, data) ∈ numbered pieces) by (rewrite <- Hp; left).
    apply numbered_index in Hin. lia.
  - done.
  - apply sizes_numbered in Hp. rewrite <- Hp, Hb. simpl. rewrite fmap_app, fmap_app, zsum_app.
    unfold chunk_bytes, BTree.values.
    assert (0 ≤ zsum (len <$> rest.*2)); [|simpl; lia].
    apply zsum_nonneg, Forall_fmap, Forall_true. intros. apply len_nonneg.
  - pose proof (Permutation_length Hp) as Hl. unfold numbered in Hl.
    rewrite length_imap, length_app in Hl. simpl in Hl. unfold len. lia.
  - split; simpl; [done|done|by apply BTree.sorted_insert| |].
    + rewrite chunk_bytes_insert by done. lia.
    + rewrite <- Hp, (BTree.insert_Permutation _ _ _ Hget). simpl.
      by rewrite <- Permutation_middle.
Qed.

Section reassembly.
Context (a : ChunkAssembler) (key sch : string) (pieces : list bytes).
Hypothesis (Hkey : a !! key = None).
Hypothesis (Hcount : 0 < len pieces ≤ MAX_CHUNKS).
Hypothesis (Hbytes : zsum (len <$> pieces) ≤ MAX_TRANSFER_BYTES).
Hypothesis (Hslot : Z.of_nat (size a) < MAX_TRANSFERS).
Hypothesis (Hret : retained a + zsum (len <$> pieces) ≤ MAX_RETAINED_BYTES).

(** One admissible chunk, whether or not the transfer already has an entry. *)
Lemma insert_next b index data now rest t :
  delete key b = a → entry_or_insert b key sch (len pieces) now = t →
  retained b = retained a + tbytes t → Z.of_nat (size b) ≤ MAX_TRANSFERS →
  (b !! key = None → b = a) → now < deadline t →
  assembling a key sch pieces ((index, data) :: rest) t →
  insert b key sch index (len pieces) data now =
    if decide (rest = []) then (Ok (Some (concat pieces)), a)
    else (Ok None, <[key := add_chunk t index data]> a).
Proof.
  intros Hb Ht Hrb Hsz Hnone Hdl Hasm.
  destruct (assembling_next _ _ _ _ _ _ _ _ Hasm) as (Hi & Hget & Hby & Hlen & Hasm').
  rewrite insert_store.
  - unfold store_chunk. rewrite Ht. simpl.
    rewrite BTree.length_insert_fresh by done.
    destruct (decide (rest = [])) as [->|Hne].
    + rewrite len_nil in Hlen. replace (len (chunks t) + 1 =? len pieces) with true by lia.
      simpl. rewrite Hb. do 3 f_equal. rewrite <- (numbered_values pieces). do 2 f_equal.
      apply BTree.sorted_Permutation; [apply Hasm'|apply numbered_sorted|apply Hasm'].
    + assert (len rest ≠ 0) by (intros ?%len_zero; done).
      replace (len (chunks t) + 1 =? len pieces) with false by (pose proof (len_nonneg rest); lia).
      simpl. by rewrite <- (insert_delete_eq b), Hb.
  - destruct Hasm. unfold admissible. rewrite Ht. split_and!; try done; try lia.
    intros Hn. by rewrite (Hnone Hn).
Qed.

Lemma feed_from t ds :
  assembling a key sch pieces (ds.*1) t → ds ≠ [] →
  Forall (λ d : delivery, d.2 < deadline t) ds →
  feed (<[key := t]> a) key sch (len pieces) ds =
    (replicate (length ds - 1) (Ok None) ++ [Ok (Some (concat pieces))], a).
Proof.
  revert t. induction ds as [|[[index data] now] ds IH]; intros t Hasm; [done|].
  intros _ [Hnow Hds]%Forall_cons. simpl.
  rewrite (insert_next _ index data now (ds.*1) t); simpl.
  - destruct (assembling_next _ _ _ _ _ _ _ _ Hasm) as (_ & _ & _ & _ & Hasm').
    case_decide as Hnil; [by destruct ds|].
    rewrite IH; [|done|by intros ->|done].
    destruct ds; [done|]. simpl. by rewrite Nat.sub_0_r.
  - rewrite delete_insert_id by done. done.
  - unfold entry_or_insert. by rewrite lookup_insert_eq.
  - unfold retained. rewrite map_zsum_insert by done. lia.
  - rewrite map_size_insert_None by done. lia.
  - by rewrite lookup_insert_eq.
  - done.
  - done.
Qed.
End reassembly.

(** C29: the chunks of a transfer, delivered in any order before the deadline of
    its first chunk, complete it exactly at the last delivery with the
    concatenation of its pieces in index order; every earlier delivery reports
    an incomplete transfer, and the assembler ends as it began. *)
Theorem chunks_reassemble a key sch pieces d ds :
  a !! key = None → Z.of_nat (size a) < MAX_TRANSFERS →
  len pieces ≤ MAX_CHUNKS → zsum (len <$> pieces) ≤ MAX_TRANSFER_BYTES →
  retained a + zsum (len <$> pieces) ≤ MAX_RETAINED_BYTES →
  (d :: ds).*1 ≡ₚ numbered pieces →
  Forall (λ d' : delivery, d'.2 < d.2 + TRANSFER_TTL) ds →
  feed a key sch (len pieces) (d :: ds) =
    (replicate (length ds) (Ok None) ++ [Ok (Some (concat pieces))], a).
Proof.
  intros Hkey Hslot Hcount Hbytes Hret Hp Htime. destruct d as [[index data] now].
  pose (t := entry_or_insert a key sch (len pieces) now).
  assert (Hasm : assembling a key sch pieces ((index, data) :: ds.*1) t).
  { subst t. unfold entry_or_insert. rewrite Hkey. split; simpl; [done..|].
    by rewrite app_nil_r. }
  assert (Hpos : 0 < len pieces).
  { destruct (assembling_next _ _ _ _ _ _ _ _ Hasm) as (? & _). lia. }
  simpl. rewrite (insert_next a key sch pieces (conj Hpos Hcount) Hbytes Hslot Hret
    a index data now (ds.*1) t).
  - destruct (assembling_next _ _ _ _ _ _ _ _ Hasm) as (_ & _ & _ & _ & Hasm').
    destruct ds as [|d ds]; [done|]. rewrite decide_False by done.
    rewrite (feed_from a key sch pieces Hkey (conj Hpos Hcount) Hbytes Hslot Hret); try done.
    + simpl. by rewrite Nat.sub_0_r.
    + subst t. unfold entry_or_insert. by rewrite Hkey.
  - by apply delete_id.
  - done.
  - subst t. unfold entry_or_insert. rewrite Hkey. simpl. lia.
  - lia.
  - done.
  - subst t. unfold entry_or_insert. rewrite Hkey. simpl. unfold TRANSFER_TTL. simpl. lia.
  - done.
Qed.

Lemma insert_preserves_wf_witness :
  assembler_wf (insert ∅ "k" "/data/data" 1 2 [7] 0).2 ∧
  (insert ∅ "k" "/data/data" 1 2 [7] 0).1 = Ok None.
Proof.
  split; [|by vm_compute].
  apply (insert_preserves_wf ∅ "k" "/data/data" 1 2 [7] 0); [apply assembler_wf_empty|lia|lia].
Defined.

Lemma chunks_reassemble_witness :
  feed ∅ "k" "/data/data" 2 [(2, [2; 3], 5); (1, [1], 0)] =
    ([Ok None; Ok (Some [1; 2; 3])], ∅).
Proof.
  apply (chunks_reassemble ∅ "k" "/data/data" [[1]; [2; 3]] (2, [2; 3], 5) [(1, [1], 0)]);
    try done.
  - by apply Permutation_swap.
  - by repeat constructor.
Defined.
