(* ===== verification/H264.v ===== *)
(** * H.264 RTP reassembly (src/src/video/h264_rtp.rs)

    [H264RtpReassembler]: single NAL units pass through, FU-A fragments are
    joined under RTP sequence/timestamp continuity.  The theorems: the buffer
    invariant and the shape of every emitted NAL, the round trip of
    fragmentation, and soundness: an FU-A result is always the concatenation of
    one uninterrupted run of fragments from a start to an end fragment. *)
From S2P Require Import Prelude.
#[local] Open Scope Z_scope.

Definition FU_A_TYPE : Z := 28.
Definition MAX_NAL_BYTES : Z := 8 * 1024 * 1024.

Record H264RtpReassembler := {
  buffer : bytes;
  in_progress : bool;
  next_rtp : option (Z * Z);   (* (u16 sequence, u32 timestamp) *)
}.

Definition new : H264RtpReassembler :=
  {| buffer := []; in_progress := false; next_rtp := None |}.
(** [reset] clears all three fields. *)
Definition reset (st : H264RtpReassembler) : H264RtpReassembler := new.

Definition valid_unit (t : Z) : bool := (1 <=? t) && (t <=? 23).
Definition bit_set (b mask : Z) : bool := negb (Z.land b mask =? 0).

(** The half-range test of a start fragment against the expected sequence. *)
Definition stale_start (rtp next : option (Z * Z)) : bool :=
  match rtp, next with
  | Some (sequence, _), Some (next_sequence, _) =>
      0x8000 <=? wrapping_sub 16 sequence next_sequence
  | _, _ => false
  end.

(** The tail of [process_payload]: append the fragment and finish on [end]. *)
Definition append_fragment (buf tail : bytes) (rtp : option (Z * Z)) (end_ : bool)
    : option bytes * H264RtpReassembler :=
  if MAX_NAL_BYTES - len buf <? len tail then (None, new)
  else if end_ then (Some (buf ++ tail), new)
  else (None, {| buffer := buf ++ tail; in_progress := true;
                 next_rtp := (λ p, (wrapping_add 16 p.1 1, p.2)) <$> rtp |}).

Definition process_payload (st : H264RtpReassembler) (payload : bytes)
    (rtp : option (Z * Z)) : option bytes * H264RtpReassembler :=
  match payload with
  | [] => (None, reset st)
  | b0 :: rest =>
  if (MAX_NAL_BYTES <? len payload) || bit_set b0 0x80 then (None, reset st) else
  let nal_type := Z.land b0 0x1f in
  if negb (nal_type =? FU_A_TYPE) then
    (if valid_unit nal_type then Some payload else None, reset st)
  else
  match rest with
  | [] => (None, reset st)
  | fu_header :: tail =>
  let start := bit_set fu_header 0x80 in
  let end_ := bit_set fu_header 0x40 in
  let unit_type := Z.land fu_header 0x1f in
  if (start && end_) || bit_set fu_header 0x20 || negb (valid_unit unit_type) then
    (None, reset st) else
  let header := Z.lor (Z.land b0 0x60) unit_type in
  if negb start && negb (bool_decide (next_rtp st = rtp)) then (None, reset st)
  else if start && stale_start rtp (next_rtp st) then (None, reset st)
  else if start then append_fragment [header] tail rtp end_
  else if negb (in_progress st) || negb (bool_decide (head (buffer st) = Some header)) then
    (None, reset st)
  else append_fragment (buffer st) tail rtp end_
  end end.

Definition process_rtp_packet (st : H264RtpReassembler) (payload : bytes)
    (sequence_number timestamp : Z) : option bytes * H264RtpReassembler :=
  process_payload st payload (Some (sequence_number, timestamp)).
Definition process_packet (st : H264RtpReassembler) (payload : bytes) :=
  process_payload st payload None.

(** ** Invariant *)
Definition nal_header (h : Z) : Prop := Z.land h 0x80 = 0 ∧ valid_unit (Z.land h 0x1f) = true.

Record wf (st : H264RtpReassembler) : Prop := {
  wf_bound : len (buffer st) ≤ MAX_NAL_BYTES;
  wf_idle : in_progress st = false → st = new;
  wf_busy : in_progress st = true → ∃ h tl, buffer st = h :: tl ∧ nal_header h;
}.

Lemma wf_new : wf new.
Proof. by split. Qed.

Lemma fu_header_nal b0 u :
  0 ≤ u → valid_unit (Z.land u 0x1f) = true →
  nal_header (Z.lor (Z.land b0 0x60) (Z.land u 0x1f)).
Proof.
  intros Hu Hv. split.
  - apply Z.bits_inj'. intros n Hn.
    rewrite Z.land_spec, Z.lor_spec, !Z.land_spec, Z.bits_0.
    destruct (decide (n = 7)) as [->|Hn7]; [by rewrite !andb_false_r|].
    assert (Z.testbit 0x80 n = false) as ->; [|by rewrite andb_false_r].
    apply (Z.pow2_bits_false 7); lia.
  - rewrite Z.land_lor_distr_l, <- !Z.land_assoc.
    change (Z.land 0x60 0x1f) with 0. change (Z.land 0x1f 0x1f) with 0x1f.
    by rewrite Z.land_0_r, Z.lor_0_l.
Qed.

Lemma append_fragment_wf h tl tail rtp e r st' :
  nal_header h → append_fragment (h :: tl) tail rtp e = (r, st') →
  wf st' ∧ ∀ nal, r = Some nal → nal = (h :: tl) ++ tail ∧ len nal ≤ MAX_NAL_BYTES ∧ st' = new.
Proof.
  intros Hh. unfold append_fragment. destruct (_ <? len tail) eqn:Hb.
  { intros; simplify_eq. split; [apply wf_new|done]. }
  destruct e; intros; simplify_eq.
  - split; [apply wf_new|]. intros nal [= <-].
    change (h :: tl ++ tail) with ((h :: tl) ++ tail). rewrite len_app. split_and!; [done|lia|done].
  - split; [|done]. split; cbn -[MAX_NAL_BYTES]; [|done|eauto].
    change (h :: tl ++ tail) with ((h :: tl) ++ tail). rewrite len_app. lia.
Qed.

(** The branches of [process_payload] that do not reset. *)
Lemma process_payload_cases st payload rtp r st' :
  process_payload st payload rtp = (r, st') →
  (r = None ∧ st' = new) ∨
  (∃ b0 rest, payload = b0 :: rest ∧ bit_set b0 0x80 = false ∧
     len payload ≤ MAX_NAL_BYTES ∧ Z.land b0 0x1f ≠ FU_A_TYPE ∧
     valid_unit (Z.land b0 0x1f) = true ∧ r = Some payload ∧ st' = new) ∨
  (∃ b0 u tail, payload = b0 :: u :: tail ∧ Z.land b0 0x1f = FU_A_TYPE ∧
     valid_unit (Z.land u 0x1f) = true ∧
     let h := Z.lor (Z.land b0 0x60) (Z.land u 0x1f) in
     (bit_set u 0x80 = true ∧ bit_set u 0x40 = false ∧ stale_start rtp (next_rtp st) = false ∧
      append_fragment [h] tail rtp false = (r, st') ∨
      bit_set u 0x80 = false ∧ next_rtp st = rtp ∧ in_progress st = true ∧
      head (buffer st) = Some h ∧
      append_fragment (buffer st) tail rtp (bit_set u 0x40) = (r, st'))).
Proof.
  unfold process_payload. destruct payload as [|b0 rest]; [intros; simplify_eq; auto|].
  destruct (_ || _) eqn:Hg; [intros; simplify_eq; auto|]. bool_hyps.
  destruct (Z.land b0 0x1f =? FU_A_TYPE) eqn:Hfu; cbn [negb].
  2:{ destruct (valid_unit _) eqn:Hv; [|intros; simplify_eq; auto].
      intros [= <- <-]. right; left. exists b0, rest. split_and!; auto; lia. }
  destruct rest as [|u tail]; [intros; simplify_eq; auto|].
  destruct (_ || _ || _) eqn:Hg; [intros; simplify_eq; auto|]. bool_hyps.
  destruct (bit_set u 0x80) eqn:Hs; cbn [negb andb].
  - destruct (stale_start _ _) eqn:?; [intros; simplify_eq; auto|].
    destruct (bit_set u 0x40) eqn:?; [done|]. intros Hap. right; right.
    exists b0, u, tail. split_and!; auto; lia.
  - case_bool_decide as Hn; cbn [negb]; [|intros; simplify_eq; auto].
    destruct (_ || _) eqn:Hg'; [intros; simplify_eq; auto|]. bool_hyps.
    intros Hap. right; right. exists b0, u, tail. repeat split; try done; [lia|].
    right. by repeat match goal with H : bool_decide _ = true |- _ =>
      apply bool_decide_eq_true in H end.
Qed.

(** The reassembler keeps at most one bounded NAL whose header byte is valid;
    every NAL it emits is non-empty, within the size ceiling, starts with a valid
    header, and leaves the reassembler empty. *)
Theorem process_payload_wf st payload rtp r st' :
  wf st → Forall is_byte payload → process_payload st payload rtp = (r, st') →
  wf st' ∧ ∀ nal, r = Some nal →
    st' = new ∧ len nal ≤ MAX_NAL_BYTES ∧ ∃ h tl, nal = h :: tl ∧ nal_header h.
Proof.
  intros Hwf Hb Hp. apply process_payload_cases in Hp as
    [[-> ->]|[(b0 & rest & -> & Hf & Hl & _ & Hv & -> & ->)|
     (b0 & u & tail & -> & Hfu & Hv & [(_ & _ & _ & Hap)|(_ & _ & Hip & Hhd & Hap)])]].
  - split; [apply wf_new|done].
  - split; [apply wf_new|]. intros nal [= <-]. split_and!; [done|done|].
    exists b0, rest. split; [done|]. split; [|done].
    unfold bit_set in Hf. bool_hyps. lia.
  - assert (0 ≤ u) by (apply Forall_cons in Hb as [_ [? _]%Forall_cons]; unfold is_byte in *; lia).
    apply append_fragment_wf in Hap as [Hw Hr]; [|by apply fu_header_nal].
    split; [done|]. intros nal Hnal. destruct (Hr nal Hnal) as (-> & ? & ->).
    split_and!; [done|done|]. eexists _, _. split; [done|by apply fu_header_nal].
  - destruct (wf_busy _ Hwf Hip) as (h & tl & Heq & Hh). rewrite Heq in Hap.
    apply append_fragment_wf in Hap as [Hw Hr]; [|done].
    split; [done|]. intros nal Hnal. destruct (Hr nal Hnal) as (-> & ? & ->).
    split_and!; [done|done|]. by eexists _, _.
Qed.

(** ** Soundness of a reassembled NAL *)
Record packet := { p_payload : bytes; p_seq : Z; p_ts : Z }.

Definition step (st : H264RtpReassembler) (p : packet) :=
  process_rtp_packet st (p_payload p) (p_seq p) (p_ts p).
Definition run (ps : list packet) : H264RtpReassembler :=
  foldl (λ st p, (step st p).2) new ps.

(** [frag start end h data p]: [p] is an FU-A packet for header byte [h]. *)
Record frag (start end_ : bool) (h : Z) (data : bytes) (p : packet) : Prop := {
  fr_payload : ∃ b0 u, p_payload p = b0 :: u :: data ∧ Z.land b0 0x1f = FU_A_TYPE ∧
    h = Z.lor (Z.land b0 0x60) (Z.land u 0x1f) ∧ valid_unit (Z.land u 0x1f) = true ∧
    bit_set u 0x80 = start ∧ bit_set u 0x40 = end_;
}.

(** An uninterrupted run of fragments of one NAL: a start fragment, then
    continuation fragments with consecutive sequence numbers (modulo 2^16) and
    the same timestamp.  [fragments h sq ts data ps]: [data] is collected and
    [sq], [ts] are expected next. *)
Inductive fragments (h : Z) : Z → Z → bytes → list packet → Prop :=
  | fragments_start p data :
      frag true false h data p →
      fragments h (wrapping_add 16 (p_seq p) 1) (p_ts p) data [p]
  | fragments_more sq ts data ps p tail :
      fragments h sq ts data ps → frag false false h tail p →
      p_seq p = sq → p_ts p = ts →
      fragments h (wrapping_add 16 (p_seq p) 1) ts (data ++ tail) (ps ++ [p]).

(** A busy reassembler holds exactly the run of fragments received last. *)
Definition holds (ps : list packet) (st : H264RtpReassembler) : Prop :=
  in_progress st = true → ∃ pre frs h sq ts data,
    ps = pre ++ frs ∧ fragments h sq ts data frs ∧
    buffer st = h :: data ∧ next_rtp st = Some (sq, ts).

Lemma append_fragment_cases buf tail rtp e r st' :
  append_fragment buf tail rtp e = (r, st') →
  (r = None ∧ st' = new) ∨ (e = true ∧ r = Some (buf ++ tail) ∧ st' = new) ∨
  (e = false ∧ r = None ∧ st' = {| buffer := buf ++ tail; in_progress := true;
      next_rtp := (λ p, (wrapping_add 16 p.1 1, p.2)) <$> rtp |}).
Proof. unfold append_fragment. repeat case_match; naive_solver. Qed.

Lemma holds_new ps : holds ps new.
Proof. done. Qed.

Lemma step_holds ps st p r st' :
  holds ps st → step st p = (r, st') → holds (ps ++ [p]) st'.
Proof.
  unfold step, process_rtp_packet. intros Hst Hp.
  apply process_payload_cases in Hp as
    [[-> ->]|[(b0 & rest & _ & _ & _ & _ & _ & -> & ->)|(b0 & u & tail & Hpl & Hfu & Hv & Hc)]];
    [done|done|]. destruct Hc as [(Hs & He & _ & Hap)|(Hs & Hn & Hip & Hhd & Hap)].
  - apply append_fragment_cases in Hap as [[_ ->]|[(? & _)|(_ & _ & ->)]]; [done|done|].
    intros _. exists ps, [p]. eexists _, _, _, tail. split_and!; [done| |done|done].
    apply (fragments_start _ p tail). split. exists b0, u. by split_and!.
  - destruct (Hst Hip) as (pre & frs & h & sq & ts & data & -> & Hfr & Hbuf & Hnx).
    rewrite Hbuf in Hhd. simplify_eq/=.
    apply append_fragment_cases in Hap as [[_ ->]|[(_ & _ & ->)|(He & _ & ->)]]; [done|done|].
    intros _. eexists pre, (frs ++ [p]), _, _, _, (data ++ tail).
    split_and!; [by rewrite app_assoc| |by rewrite Hbuf|done].
    eapply fragments_more; [done| |done|done]. split. exists b0, u. by split_and!.
Qed.

Lemma run_snoc ps p : run (ps ++ [p]) = (step (run ps) p).2.
Proof. unfold run. by rewrite foldl_app. Qed.

Lemma run_holds ps : holds ps (run ps).
Proof.
  induction ps as [|p ps IH] using rev_ind; [done|].
  rewrite run_snoc. destruct (step (run ps) p) as [r st'] eqn:Hs. by eapply step_holds.
Qed.

(** C31: whatever packets came before, when an FU-A packet completes a NAL then
    the last packets received are one uninterrupted run: a start fragment,
    continuations with consecutive sequence numbers (wrapping at 2^16) and the
    same timestamp, and the end fragment; the NAL is its header byte followed by
    exactly the payloads of that run, in order.  No lost, duplicated, reordered
    or foreign fragment contributes a byte. *)
Theorem fu_a_sound ps p nal b0 u tail :
  p_payload p = b0 :: u :: tail → Z.land b0 0x1f = FU_A_TYPE →
  (step (run ps) p).1 = Some nal →
  ∃ pre frs h sq ts data,
    ps = pre ++ frs ∧ fragments h sq ts data frs ∧ frag false true h tail p ∧
    p_seq p = sq ∧ p_ts p = ts ∧ nal = h :: data ++ tail.
Proof.
  intros Hpl Hfu Hr. destruct (step (run ps) p) as [r st'] eqn:Hs. simpl in Hr. subst r.
  unfold step, process_rtp_packet in Hs. apply process_payload_cases in Hs as
    [[? _]|[(c0 & rest & Hpl' & _ & _ & Hne & _)|(c0 & v & tl & Hpl' & _ & Hv & Hc)]];
    [done|congruence|]. rewrite Hpl in Hpl'. injection Hpl' as <- <- <-.
  destruct Hc as [(Hs & He & _ & Hap)|(Hs & Hn & Hip & Hhd & Hap)].
  { by apply append_fragment_cases in Hap as [[? _]|[(? & _)|(_ & ? & _)]]. }
  apply append_fragment_cases in Hap as [[? _]|[(He & [= ->] & ->)|(_ & ? & _)]]; [done| |done].
  destruct (run_holds ps Hip) as (pre & frs & h & sq & ts & data & -> & Hfr & Hbuf & Hnx).
  rewrite Hbuf in *. simplify_eq/=.
  exists pre, frs, (Z.lor (Z.land b0 0x60) (Z.land u 0x1f)), (p_seq p), (p_ts p), data.
  split_and!; [done|done| |done|done|done]. split. exists b0, u. by split_and!.
Qed.

(** ** Round trip of fragmentation *)

(** The sender's side: the FU-A packet carrying [data] of the NAL with header [h]. *)
Definition fu_packet (h : Z) (start end_ : bool) (data : bytes) (seq ts : Z) : packet :=
  {| p_payload := Z.lor (Z.land h 0x60) FU_A_TYPE ::
       Z.lor (Z.lor (if start then 0x80 else 0) (if end_ then 0x40 else 0)) (Z.land h 0x1f) :: data;
     p_seq := seq; p_ts := ts |}.
Fixpoint fu_rest (h seq ts : Z) (pieces : list bytes) : list packet :=
  match pieces with
  | [] => []
  | [d] => [fu_packet h false true d seq ts]
  | d :: ds => fu_packet h false false d seq ts :: fu_rest h (wrapping_add 16 seq 1) ts ds
  end.
Definition fragment_nal (h seq ts : Z) (first : bytes) (pieces : list bytes) : list packet :=
  fu_packet h true false first seq ts :: fu_rest h (wrapping_add 16 seq 1) ts pieces.

Fixpoint outputs (st : H264RtpReassembler) (ps : list packet)
    : list (option bytes) * H264RtpReassembler :=
  match ps with
  | [] => ([], st)
  | p :: ps' => let '(r, st') := step st p in
      let '(rs, st'') := outputs st' ps' in (r :: rs, st'')
  end.

(** Bit facts of the two FU-A header bytes, by enumeration of the NAL headers. *)
Definition fu_bytes_ok (h : Z) (s e : bool) : bool :=
  let b0 := Z.lor (Z.land h 0x60) FU_A_TYPE in
  let u := Z.lor (Z.lor (if s then 0x80 else 0) (if e then 0x40 else 0)) (Z.land h 0x1f) in
  negb (bit_set b0 0x80) && (Z.land b0 0x1f =? FU_A_TYPE) &&
  Bool.eqb (bit_set u 0x80) s && Bool.eqb (bit_set u 0x40) e && negb (bit_set u 0x20) &&
  (Z.land u 0x1f =? Z.land h 0x1f) && (Z.lor (Z.land b0 0x60) (Z.land u 0x1f) =? h).

Lemma fu_bytes_all :
  forallb (λ h, forallb (λ se : bool * bool, fu_bytes_ok h se.1 se.2)
    [(true, true); (true, false); (false, true); (false, false)]) (seqZ 0 128) = true.
Proof. by vm_compute. Qed.

Lemma fu_bytes h (s e : bool) : 0 ≤ h < 128 →
  let b0 := Z.lor (Z.land h 0x60) FU_A_TYPE in
  let u := Z.lor (Z.lor (if s then 0x80 else 0) (if e then 0x40 else 0)) (Z.land h 0x1f) in
  bit_set b0 0x80 = false ∧ Z.land b0 0x1f = FU_A_TYPE ∧ bit_set u 0x80 = s ∧
  bit_set u 0x40 = e ∧ bit_set u 0x20 = false ∧ Z.land u 0x1f = Z.land h 0x1f ∧
  Z.lor (Z.land b0 0x60) (Z.land h 0x1f) = h.
Proof.
  intros Hh. pose proof fu_bytes_all as Ha. rewrite forallb_forall in Ha.
  specialize (Ha h). rewrite <- list_elem_of_In, elem_of_seqZ in Ha.
  specialize (Ha ltac:(lia)). rewrite forallb_forall in Ha.
  assert (fu_bytes_ok h s e = true) as Hf.
  { apply (Ha (s, e)). destruct s, e; simpl; auto 10. }
  unfold fu_bytes_ok in Hf. bool_hyps.
  repeat match goal with
    | H : Bool.eqb _ _ = true |- _ => apply eqb_prop in H
    | H : (_ =? _) = true |- _ => apply Z.eqb_eq in H
    end.
  split_and!; congruence.
Qed.

Section roundtrip.
Context (h ts : Z).
Hypothesis (Hh : 0 ≤ h < 128) (Hv : valid_unit (Z.land h 0x1f) = true).

(** One continuation fragment in sequence. *)
Lemma step_fu_more buf e data seq :
  head buf = Some h → len buf + len data ≤ MAX_NAL_BYTES →
  2 + len data ≤ MAX_NAL_BYTES →
  step {| buffer := buf; in_progress := true; next_rtp := Some (seq, ts) |}
       (fu_packet h false e data seq ts) =
  append_fragment buf data (Some (seq, ts)) e.
Proof.
  intros Hhd Hl Hl'. destruct (fu_bytes h false e Hh) as (H1 & H2 & H3 & H4 & H5 & H6 & H7).
  unfold step, process_rtp_packet, process_payload, fu_packet.
  cbn [p_payload p_seq p_ts next_rtp in_progress buffer].
  replace (MAX_NAL_BYTES <? _) with false by (rewrite !len_cons; lia).
  rewrite H1, H2, H3, H4, H5, H6, H7, Hv, Hhd, !bool_decide_true by done. done.
Qed.

Lemma step_fu_start st data seq :
  stale_start (Some (seq, ts)) (next_rtp st) = false →
  2 + len data ≤ MAX_NAL_BYTES →
  step st (fu_packet h true false data seq ts) =
  append_fragment [h] data (Some (seq, ts)) false.
Proof.
  intros Hst Hl. destruct (fu_bytes h true false Hh) as (H1 & H2 & H3 & H4 & H5 & H6 & H7).
  unfold step, process_rtp_packet, process_payload, fu_packet. cbn [p_payload p_seq p_ts].
  replace (MAX_NAL_BYTES <? _) with false by (rewrite !len_cons; lia).
  rewrite H1, H2, H3, H4, H5, H6, H7, Hv, Hst. done.
Qed.

Lemma outputs_rest buf seq pieces :
  head buf = Some h → pieces ≠ [] → 1 ≤ len buf →
  len buf + len (concat pieces) + 1 ≤ MAX_NAL_BYTES →
  outputs {| buffer := buf; in_progress := true; next_rtp := Some (seq, ts) |}
          (fu_rest h seq ts pieces) =
  (replicate (length pieces - 1) None ++ [Some (buf ++ concat pieces)], new).
Proof.
  revert buf seq. induction pieces as [|d ds IH]; intros buf seq Hhd Hne Hb Hl; [done|].
  simpl in Hl. rewrite len_app in Hl. pose proof (len_nonneg (concat ds)).
  pose proof (len_nonneg d).
  destruct ds as [|d' ds]; cbn [fu_rest outputs].
  - rewrite step_fu_more by (done || lia). unfold append_fragment.
    replace (_ <? len d) with false by lia. simpl. by rewrite app_nil_r.
  - rewrite step_fu_more by (done || lia). unfold append_fragment.
    replace (_ <? len d) with false by lia. cbn [fmap option_fmap option_map fst snd].
    rewrite IH.
    + simpl. rewrite Nat.sub_0_r, <- app_assoc. done.
    + by destruct buf.
    + done.
    + rewrite len_app. lia.
    + rewrite len_app. lia.
Qed.
End roundtrip.

(** C30: a NAL fragmented into FU-A packets with consecutive sequence numbers
    (across the 2^16 wrap) and one timestamp is reassembled exactly, at its last
    packet and not before, from any state in which the start is not stale; the
    reassembler is then ready for the next NAL. *)
Theorem fragment_roundtrip st h seq ts first pieces :
  0 ≤ h < 128 → valid_unit (Z.land h 0x1f) = true → pieces ≠ [] →
  2 + len first + len (concat pieces) ≤ MAX_NAL_BYTES →
  stale_start (Some (seq, ts)) (next_rtp st) = false →
  outputs st (fragment_nal h seq ts first pieces) =
    (replicate (length pieces) None ++ [Some (h :: first ++ concat pieces)], new).
Proof.
  intros Hh Hv Hne Hl Hst. unfold fragment_nal. cbn [outputs].
  pose proof (len_nonneg first). pose proof (len_nonneg (concat pieces)).
  rewrite step_fu_start by (done || lia). unfold append_fragment.
  change (len [h]) with 1. replace (_ <? len first) with false by lia.
  cbn [fmap option_fmap option_map fst snd].
  assert (len ([h] ++ first) = 1 + len first) as Hlen by (rewrite len_app; done).
  rewrite outputs_rest; try done; try lia.
  destruct pieces; [done|]. simpl. by rewrite Nat.sub_0_r.
Qed.

Lemma process_payload_wf_witness :
  wf (process_payload new [0x7c; 0x85; 1] (Some (10, 90000))).2 ∧
  process_payload new [0x65; 3] None = (Some [0x65; 3], new).
Proof.
  split; [|by vm_compute].
  apply (process_payload_wf new [0x7c; 0x85; 1] (Some (10, 90000))
    (process_payload new [0x7c; 0x85; 1] (Some (10, 90000))).1
    (process_payload new [0x7c; 0x85; 1] (Some (10, 90000))).2).
  - apply wf_new.
  - repeat constructor; unfold is_byte; lia.
  - by vm_compute.
Defined.

Lemma fu_a_sound_witness :
  ∃ pre frs h sq ts data,
    [fu_packet 0x65 true false [1] 65535 90000] = pre ++ frs ∧
    fragments h sq ts data frs ∧
    frag false true h [2] (fu_packet 0x65 false true [2] 0 90000) ∧
    0 = sq ∧ 90000 = ts ∧ [0x65; 1; 2] = h :: data ++ [2].
Proof.
  apply (fu_a_sound [fu_packet 0x65 true false [1] 65535 90000]
    (fu_packet 0x65 false true [2] 0 90000) [0x65; 1; 2] 0x7c 0x45 [2]); by vm_compute.
Defined.

Lemma fragment_roundtrip_witness :
  outputs new (fragment_nal 0x65 65534 90000 [1] [[2; 3]; []; [4]]) =
    ([None; None; None; Some [0x65; 1; 2; 3; 4]], new).
Proof. apply (fragment_roundtrip new 0x65 65534 90000 [1] [[2; 3]; []; [4]]); by vm_compute. Defined.
