(* ===== verification/Ingress.v ===== *)
(** * Ingress admission (src/src/protocol/ingress.rs)

    [parse_json]: a one-pass build of an owned value under a byte, a node and a
    nesting budget.  serde_json's [Deserializer] is external: it is the operation
    [document] of [JsonReader], which gives the document it presents to the
    visitor.  [admission] is the visitor.  The theorems characterise exactly which
    documents are admitted and with which value. *)
From S2P Require Import Prelude Floats Json.
#[local] Open Scope Z_scope.

Definition MAX_TEXT_BYTES : Z := 1024 * 1024.
Definition MAX_BINARY_BYTES : Z := 1152 * 1024.
Definition MAX_BINARY_HEADER_BYTES : Z := 64 * 1024.
Definition MAX_BINARY_EXPANSION_BYTES : Z := 1024 * 1024.
Definition MAX_JSON_NODES : Z := 65536.
Definition MAX_JSON_DEPTH : Z := 64.

(** The calls a [Deserializer] makes on a [Visitor], as a tree: one constructor
    per [visit_*] method, duplicate keys kept; [DFail] is the point where the
    deserializer itself reports an error. *)
Inductive json_doc :=
  | DUnit
  | DBool (b : bool)
  | DI64 (n : Z)
  | DU64 (n : Z)
  | DF64 (x : f64)
  | DStr (s : string)
  | DSeq (l : list json_doc)
  | DMap (l : list (string * json_doc))
  | DFail.

(** [Deserializer::from_slice] and [Deserializer::end]. *)
Class JsonReader := {
  document : bytes → json_doc;
  document_end : bytes → bool;
}.

(** [Visitor::visit_seq] and [visit_map] below the depth check; [seed] is the
    [JsonAdmission] of the elements.  A key is charged before its value
    ([JsonKey::deserialize]); a repeated key replaces the earlier value. *)
Definition visit_seq (seed : json_doc → Z → result string (value * Z)) :
    list json_doc → list value → Z → result string (value * Z) :=
  fix go l values remaining_nodes :=
    match l with
    | [] => Ok (JArray values, remaining_nodes)
    | x :: l' =>
        '(v, remaining_nodes) ← seed x remaining_nodes;
        go l' (values ++ [v]) remaining_nodes
    end.
Definition visit_map (seed : json_doc → Z → result string (value * Z)) :
    list (string * json_doc) → list (string * value) → Z → result string (value * Z) :=
  fix go l values remaining_nodes :=
    match l with
    | [] => Ok (JObject values, remaining_nodes)
    | (key, x) :: l' =>
        if remaining_nodes =? 0 then Err "JSON node budget exceeded" else
        '(v, remaining_nodes) ← seed x (remaining_nodes - 1);
        go l' (BTree.insert key v values) remaining_nodes
    end.

(** [JsonAdmission::deserialize] and its visitor: the remaining node budget is
    threaded through, the depth is passed down. *)
Fixpoint admission (depth : Z) (d : json_doc) (remaining_nodes : Z) : result string (value * Z) :=
  if remaining_nodes =? 0 then Err "JSON node budget exceeded" else
  let remaining_nodes := remaining_nodes - 1 in
  match d with
  | DUnit => Ok (JNull, remaining_nodes)
  | DBool b => Ok (JBool b, remaining_nodes)
  | DI64 n => Ok (JNumber (num_of_i64 n), remaining_nodes)
  | DU64 n => Ok (JNumber (num_of_u64 n), remaining_nodes)
  | DF64 x => if is_finite x then Ok (JNumber (Float x), remaining_nodes)
              else Err "Nonfinite JSON number"
  | DStr s => Ok (JString s, remaining_nodes)
  | DSeq l =>
      if MAX_JSON_DEPTH <=? depth then Err "JSON depth budget exceeded"
      else visit_seq (admission (depth + 1)) l [] remaining_nodes
  | DMap l =>
      if MAX_JSON_DEPTH <=? depth then Err "JSON depth budget exceeded"
      else visit_map (admission (depth + 1)) l [] remaining_nodes
  | DFail => Err "deserializer error"
  end.

Definition parse_json `{JsonReader} (data : bytes) : result string value :=
  if MAX_TEXT_BYTES <? len data then Err "Ingress JSON exceeds 1 MiB" else
  map_err (λ _, "Invalid ingress JSON or resource budget exceeded")
    ('(v, _) ← admission 0 (document data) MAX_JSON_NODES;
     if document_end data then Ok v else Err "trailing characters").

(** ** Reference semantics of a document *)
Fixpoint doc_ind' (P : json_doc → Prop)
    (HU : P DUnit) (HB : ∀ b, P (DBool b)) (HI : ∀ n, P (DI64 n)) (HN : ∀ n, P (DU64 n))
    (HF : ∀ x, P (DF64 x)) (HS : ∀ s, P (DStr s))
    (HSeq : ∀ l, Forall P l → P (DSeq l))
    (HMap : ∀ l, Forall (λ kx, P kx.2) l → P (DMap l)) (HFail : P DFail) (d : json_doc) : P d :=
  let rec := doc_ind' P HU HB HI HN HF HS HSeq HMap HFail in
  match d with
  | DUnit => HU | DBool b => HB b | DI64 n => HI n | DU64 n => HN n
  | DF64 x => HF x | DStr s => HS s
  | DSeq l => HSeq l ((fix go l : Forall P l :=
      match l with [] => Forall_nil_2 _ | x :: l => Forall_cons_2 _ _ _ (rec x) (go l) end) l)
  | DMap l => HMap l ((fix go l : Forall (λ kx, P kx.2) l :=
      match l with
      | [] => Forall_nil_2 _
      | kx :: l => Forall_cons_2 _ _ _ (rec kx.2) (go l)
      end) l)
  | DFail => HFail
  end.

(** Visits: one per value and one per key, overwritten duplicates included. *)
Fixpoint doc_nodes (d : json_doc) : Z :=
  match d with
  | DSeq l => 1 + zsum (doc_nodes <$> l)
  | DMap l => 1 + zsum ((λ kx, 1 + doc_nodes kx.2) <$> l)
  | _ => 1
  end.
(** Container nesting; scalars do not count. *)
Fixpoint doc_depth (d : json_doc) : Z :=
  match d with
  | DSeq l => 1 + foldr (λ x m, Z.max (doc_depth x) m) 0 l
  | DMap l => 1 + foldr (λ kx m, Z.max (doc_depth kx.2) m) 0 l
  | _ => 0
  end.
(** The value a document denotes; [None] for a failed or non-finite one. *)
Fixpoint doc_value (d : json_doc) : option value :=
  match d with
  | DUnit => Some JNull
  | DBool b => Some (JBool b)
  | DI64 n => Some (JNumber (num_of_i64 n))
  | DU64 n => Some (JNumber (num_of_u64 n))
  | DF64 x => if is_finite x then Some (JNumber (Float x)) else None
  | DStr s => Some (JString s)
  | DSeq l => JArray <$> foldr (λ x o, v ← doc_value x; vs ← o; Some (v :: vs)) (Some []) l
  | DMap l =>
      (λ kvs, JObject (BTree.of_list kvs)) <$>
      foldr (λ kx o, v ← doc_value kx.2; vs ← o; Some ((kx.1, v) :: vs)) (Some []) l
  | DFail => None
  end.

Lemma doc_nodes_pos d : 1 ≤ doc_nodes d.
Proof.
  induction d as [| | | | | |l IH|l IH|] using doc_ind'; simpl; try lia.
  - assert (0 ≤ zsum (doc_nodes <$> l)); [|lia].
    apply zsum_nonneg, Forall_fmap. eapply Forall_impl; [exact IH|]. simpl; lia.
  - assert (0 ≤ zsum ((λ kx : string * json_doc, 1 + doc_nodes kx.2) <$> l)); [|lia].
    apply zsum_nonneg, Forall_fmap. eapply Forall_impl; [exact IH|]. simpl; lia.
Qed.

Lemma doc_depth_nonneg d : 0 ≤ doc_depth d.
Proof.
  destruct d as [| | | | | |l|l|]; simpl; try lia.
  - induction l; simpl; lia.
  - induction l; simpl; lia.
Qed.

(** ** Exact admission *)
Definition depth_ok (depth n : Z) : Prop := n ≤ Z.max 0 (MAX_JSON_DEPTH - depth).
Definition seq_value (l : list json_doc) : option (list value) :=
  foldr (λ x o, v ← doc_value x; vs ← o; Some (v :: vs)) (Some []) l.
Definition map_value (l : list (string * json_doc)) : option (list (string * value)) :=
  foldr (λ kx o, v ← doc_value kx.2; vs ← o; Some ((kx.1, v) :: vs)) (Some []) l.
Definition seq_nodes (l : list json_doc) : Z := zsum (doc_nodes <$> l).
Definition map_nodes (l : list (string * json_doc)) : Z := zsum ((λ kx, 1 + doc_nodes kx.2) <$> l).

(** [spec depth d rem r]: [r] is what the budgets and the value of [d] determine. *)
Definition admits (depth : Z) (d : json_doc) (rem : Z) (r : value * Z) : Prop :=
  doc_value d = Some r.1 ∧ doc_nodes d ≤ rem ∧ depth_ok depth (doc_depth d) ∧
  r.2 = rem - doc_nodes d.

Lemma seq_nodes_nonneg l : 0 ≤ seq_nodes l.
Proof.
  apply zsum_nonneg, Forall_fmap, Forall_true. intros x. pose proof (doc_nodes_pos x). simpl; lia.
Qed.
Lemma map_nodes_nonneg l : 0 ≤ map_nodes l.
Proof.
  apply zsum_nonneg, Forall_fmap, Forall_true. intros [k x]. pose proof (doc_nodes_pos x). simpl; lia.
Qed.

Lemma seq_nodes_cons x l : seq_nodes (x :: l) = doc_nodes x + seq_nodes l.
Proof. done. Qed.
Lemma map_nodes_cons k x l : map_nodes ((k, x) :: l) = 1 + doc_nodes x + map_nodes l.
Proof. done. Qed.

Lemma visit_seq_iff depth l : 0 ≤ depth →
  Forall (λ x, ∀ rem r, 0 ≤ rem → admission depth x rem = Ok r ↔ admits depth x rem r) l →
  ∀ acc rem r, 0 ≤ rem →
  visit_seq (admission depth) l acc rem = Ok r ↔
  ∃ vs, seq_value l = Some vs ∧ r = (JArray (acc ++ vs), rem - seq_nodes l) ∧
    seq_nodes l ≤ rem ∧ Forall (λ x, depth_ok depth (doc_depth x)) l.
Proof.
  intros Hd.
  induction 1 as [|x l Hx _ IH]; intros acc rem r Hrem;
    [change (seq_nodes []) with 0|rewrite seq_nodes_cons]; simpl.
  { rewrite Z.sub_0_r. setoid_rewrite Forall_nil. split.
    - intros [= <-]. exists []. by rewrite app_nil_r.
    - intros (vs & [= <-] & -> & _). by rewrite app_nil_r. }
  rewrite result_bind_Ok. split.
  - intros ([v rem'] & Hv & Hr). apply Hx in Hv as (Hv & Hn & Hdep & Hrem'); [|done].
    simpl in *. subst rem'. apply IH in Hr as (vs & Hvs & -> & Hle & Hf); [|lia].
    exists (v :: vs). unfold seq_value in *. simpl. rewrite Hv, Hvs. split_and!; [done| |lia|].
    + rewrite <- app_assoc. f_equal. lia.
    + by constructor.
  - unfold seq_value. simpl. intros (vs & Hvs & -> & Hle & [Hdx Hdl]%Forall_cons).
    destruct (doc_value x) as [v|] eqn:Hv; [|done]. simpl in Hvs.
    destruct (foldr _ _ l) as [vs'|] eqn:Hvs' in Hvs; [|done]. simplify_eq/=.
    pose proof (doc_nodes_pos x). pose proof (seq_nodes_nonneg l).
    exists (v, rem - doc_nodes x). split; [apply Hx; [done|split_and!; [done|lia|done|done]]|].
    apply IH; [lia|]. exists vs'. split_and!; [done| |lia|done].
    rewrite <- app_assoc. f_equal. lia.
Qed.

Lemma visit_map_iff depth l : 0 ≤ depth →
  Forall (λ kx, ∀ rem r, 0 ≤ rem → admission depth kx.2 rem = Ok r ↔ admits depth kx.2 rem r) l →
  ∀ acc rem r, 0 ≤ rem →
  visit_map (admission depth) l acc rem = Ok r ↔
  ∃ kvs, map_value l = Some kvs ∧
    r = (JObject (foldl (λ m kv, BTree.insert kv.1 kv.2 m) acc kvs), rem - map_nodes l) ∧
    map_nodes l ≤ rem ∧ Forall (λ kx, depth_ok depth (doc_depth kx.2)) l.
Proof.
  intros Hd.
  induction 1 as [|[k x] l Hx _ IH]; intros acc rem r Hrem;
    [change (map_nodes []) with 0|rewrite map_nodes_cons]; simpl.
  { rewrite Z.sub_0_r. setoid_rewrite Forall_nil. split.
    - intros [= <-]. by exists [].
    - by intros (vs & [= <-] & -> & _). }
  pose proof (doc_nodes_pos x). pose proof (map_nodes_nonneg l).
  destruct (rem =? 0) eqn:Hz.
  { split; [done|]. intros (? & ? & ? & ? & ?). lia. }
  rewrite result_bind_Ok. split.
  - intros ([v rem'] & Hv & Hr). apply Hx in Hv as (Hv & Hn & Hdep & Hrem'); [|lia].
    simpl in *. subst rem'. apply IH in Hr as (vs & Hvs & -> & Hle & Hf); [|lia].
    exists ((k, v) :: vs). unfold map_value in *. simpl. rewrite Hv, Hvs. split_and!; [done| |lia|].
    + f_equal. lia.
    + by constructor.
  - unfold map_value. simpl. intros (vs & Hvs & -> & Hle & [Hdx Hdl]%Forall_cons).
    simpl in *. destruct (doc_value x) as [v|] eqn:Hv; [|done]. simpl in Hvs.
    destruct (foldr _ _ l) as [vs'|] eqn:Hvs' in Hvs; [|done]. simplify_eq/=.
    exists (v, rem - 1 - doc_nodes x).
    split; [apply Hx; [lia|split_and!; [done|simpl; lia|done|done]]|].
    apply IH; [lia|]. exists vs'. split_and!; [done| |lia|done].
    f_equal. lia.
Qed.

Lemma depth_ok_container {A} depth (f : A → Z) (l : list A) :
  0 ≤ depth → (∀ x, 0 ≤ f x) →
  depth_ok depth (1 + foldr (λ x m, Z.max (f x) m) 0 l) ↔
  depth < MAX_JSON_DEPTH ∧ Forall (λ x, depth_ok (depth + 1) (f x)) l.
Proof.
  intros Hd Hf. unfold depth_ok.
  assert (0 ≤ foldr (λ x m, Z.max (f x) m) 0 l) by (induction l; simpl; lia).
  induction l as [|x l IH]; simpl in *.
  - rewrite Forall_nil. lia.
  - rewrite Forall_cons. pose proof (Hf x).
    assert (0 ≤ foldr (λ x m, Z.max (f x) m) 0 l) as Hl by (clear; induction l; simpl; lia).
    specialize (IH Hl). split.
    + intros Hle. split; [lia|]. split; [lia|]. apply IH. lia.
    + intros (Hdep & Hx & Hrest). assert (Hr : depth < MAX_JSON_DEPTH ∧
        Forall (λ x : A, f x ≤ Z.max 0 (MAX_JSON_DEPTH - (depth + 1))) l) by done.
      apply IH in Hr. lia.
Qed.

Lemma admit_iff d : ∀ depth rem r, 0 ≤ depth → 0 ≤ rem →
  admission depth d rem = Ok r ↔ admits depth d rem r.
Proof.
  induction d as [|b|n|n|x|s|l IH|l IH|] using doc_ind'; intros depth rem [v rem'] Hdep Hrem;
    unfold admits, depth_ok; simpl doc_value; simpl doc_depth;
    [simpl..|change (doc_nodes (DSeq l)) with (1 + seq_nodes l); simpl
    |change (doc_nodes (DMap l)) with (1 + map_nodes l); simpl|simpl].
  7: { destruct (rem =? 0) eqn:Hz.
       { pose proof (seq_nodes_nonneg l). split; [done|]. intros (_ & ? & _). lia. }
       rewrite (depth_ok_container depth doc_depth l Hdep doc_depth_nonneg).
       destruct (MAX_JSON_DEPTH <=? depth) eqn:Hmax.
       { split; [done|]. intros (_ & _ & [? _] & _). lia. }
       rewrite visit_seq_iff; [|lia| |lia].
       2:{ eapply Forall_impl; [exact IH|]. intros x Hx rem0 r Hr. apply Hx; lia. }
       unfold seq_value. destruct (foldr _ _ l) as [vs|]; simpl; [|naive_solver].
       split.
       - intros (vs' & [= <-] & [= -> ->] & Hle & Hf). split_and!; auto; lia.
       - intros ([= <-] & Hle & [_ Hf] & ->). exists vs. split_and!; auto; [f_equal; lia|lia]. }
  7: { destruct (rem =? 0) eqn:Hz.
       { pose proof (map_nodes_nonneg l). split; [done|]. intros (_ & ? & _). lia. }
       rewrite (depth_ok_container depth (λ kx, doc_depth kx.2) l Hdep (λ kx, doc_depth_nonneg _)).
       destruct (MAX_JSON_DEPTH <=? depth) eqn:Hmax.
       { split; [done|]. intros (_ & _ & [? _] & _). lia. }
       rewrite visit_map_iff; [|lia| |lia].
       2:{ eapply Forall_impl; [exact IH|]. intros x Hx rem0 r Hr. apply Hx; lia. }
       unfold map_value, BTree.of_list. destruct (foldr _ _ l) as [vs|]; simpl; [|naive_solver].
       split.
       - intros (vs' & [= <-] & [= -> ->] & Hle & Hf). split_and!; auto; lia.
       - intros ([= <-] & Hle & [_ Hf] & ->). exists vs. split_and!; auto; [f_equal; lia|lia]. }
  all: destruct (rem =? 0) eqn:Hz; [split; [done|intros (? & ? & ?); lia]|].
  5: destruct (is_finite x).
  all: split; [intros [= <- <-]; split_and!; try done; lia|].
  all: intros ([= <-] & ? & ? & ->); done.
Qed.

(** C34: [parse_json] succeeds exactly on inputs of at most 1 MiB whose document
    has no error and no non-finite number, at most 65,536 values and keys
    (overwritten duplicates counted) and at most 64 nested containers, followed
    by nothing; its result is the value of the document, where the last
    occurrence of a key wins. *)
Theorem parse_json_exact `{JsonReader} (data : bytes) v :
  parse_json data = Ok v ↔
  len data ≤ MAX_TEXT_BYTES ∧ doc_value (document data) = Some v ∧
  doc_nodes (document data) ≤ MAX_JSON_NODES ∧
  doc_depth (document data) ≤ MAX_JSON_DEPTH ∧ document_end data = true.
Proof.
  unfold parse_json. destruct (_ <? len data) eqn:Hlen.
  { split; [done|]. intros (? & _). lia. }
  destruct (admission _ _ _) as [[u rem]|e] eqn:Ha; simpl.
  - pose proof Ha as (Hv & Hn & Hd & _)%admit_iff; [|done|done]. simpl in *.
    unfold depth_ok in Hd. change (0 `max` (MAX_JSON_DEPTH - 0)) with MAX_JSON_DEPTH in Hd.
    rewrite Hv. destruct (document_end data) eqn:He; simpl.
    + split; [intros [= ->]; split_and!; [lia|done|lia|lia|done]|naive_solver].
    + naive_solver.
  - split; [done|]. intros (_ & Hv & Hn & Hd & _).
    assert (admission 0 (document data) MAX_JSON_NODES = Ok (v, MAX_JSON_NODES - doc_nodes (document data)))
      as Hok; [|congruence].
    apply admit_iff; [done|done|]. by unfold admits, depth_ok.
Qed.
