(* ===== verification/Framing.v ===== *)
(** * Binary frames (src/src/datachannel/core/framing.rs)

    [parse] splits a binary message into its kind, its JSON header and its
    payload; the theorem characterises exactly which buffers are frames. *)
From S2P Require Import Prelude Floats Json Ingress.
#[local] Open Scope Z_scope.

Inductive BinaryFrame := Normal | Lidar.
#[export] Instance BinaryFrame_eq_dec : EqDecision BinaryFrame.
Proof. solve_decision. Defined.

(** [Debug] of [BinaryFrame]. *)
Definition frame_debug (f : BinaryFrame) : string :=
  match f with Normal => "Normal" | Lidar => "Lidar" end.

Definition frame_kind (pre : bytes) : BinaryFrame :=
  if decide (pre = [2; 0; 0; 0]) then Lidar else Normal.

Definition parse `{JsonReader} (buffer : bytes) : PortResult (BinaryFrame * value * bytes) :=
  pre ← ok_or "Binary frame is too short" (get_range buffer 0 4);
  let frame := frame_kind pre in
  '(start, length) ← match frame with
    | Normal => Ok (4, from_le_bytes (slice_to pre 2))
    | Lidar =>
        b ← ok_or "Missing LiDAR frame length" (get_range buffer 4 8);
        Ok (12, from_le_bytes b)
    end;
  if MAX_BINARY_HEADER_BYTES <? length
  then Err "Binary JSON header exceeds 64 KiB" else
  end_ ← ok_or "Binary frame length overflow" (checked_add 64 start length);
  json ← ok_or "Binary JSON header exceeds frame length" (get_range buffer start end_);
  header ← parse_json json;
  if negb (is_object header)
  then Err (frame_debug frame +:+ " binary JSON header must be an object")
  else Ok (frame, header, slice_from buffer end_).

(** ** The wire format *)

(** [frame_prefix f pre n]: the bytes in front of an [n]-byte header. *)
Definition frame_prefix (f : BinaryFrame) (pre : bytes) (n : Z) : Prop :=
  match f with
  | Normal => len pre = 4 ∧ pre ≠ [2; 0; 0; 0] ∧ from_le_bytes (slice_to pre 2) = n
  | Lidar => ∃ size reserved, pre = [2; 0; 0; 0] ++ size ++ reserved ∧
      len size = 4 ∧ len reserved = 4 ∧ from_le_bytes size = n
  end.

Lemma get_range_prefix {A} (l r : list A) n : n = len l → get_range (l ++ r) 0 n = Some l.
Proof. intros ->. exact (get_range_app [] l r 0 (len l) eq_refl eq_refl). Qed.

Lemma frame_kind_Lidar pre : frame_kind pre = Lidar ↔ pre = [2; 0; 0; 0].
Proof. unfold frame_kind. destruct (decide _); naive_solver. Qed.
Lemma frame_kind_Normal pre : frame_kind pre = Normal ↔ pre ≠ [2; 0; 0; 0].
Proof. unfold frame_kind. destruct (decide _); naive_solver. Qed.

(** A sub-slice starting where another ends. *)
Lemma get_range_0 {A} (l r : list A) n : get_range l 0 n = Some r → l = r ++ slice_from l n ∧ len r = n.
Proof. intros (_ & _ & Hr & Hl)%get_range_Some. split; [done|lia]. Qed.

Lemma checked_add_Some w a b c : checked_add w a b = Some c ↔ c = a + b ∧ a + b < 2 ^ w.
Proof. unfold checked_add. destruct (_ <? _) eqn:E; naive_solver lia. Qed.

Lemma parse_header_split (buffer : bytes) start n end_ json :
  checked_add 64 start n = Some end_ → get_range buffer start end_ = Some json →
  len (slice_to buffer start) = start ∧ len json = n ∧ 0 ≤ start ∧
  buffer = slice_to buffer start ++ json ++ slice_from buffer end_.
Proof.
  intros [-> _]%checked_add_Some (? & ? & ? & ?)%get_range_Some.
  split_and!; [|lia|lia|done]. apply len_slice_to. lia.
Qed.

Lemma slice_to_prefix {A} (l r rest : list A) (n : Z) :
  l = r ++ rest → len r ≤ n → slice_to l n = r ++ slice_to rest (n - len r).
Proof.
  intros -> Hn. unfold slice_to, len in *. rewrite take_app. f_equal.
  - apply take_ge. lia.
  - f_equal. lia.
Qed.

Lemma parse_Normal `{JsonReader} pre json p :
  len pre = 4 → pre ≠ [2; 0; 0; 0] → from_le_bytes (slice_to pre 2) = len json →
  len json ≤ MAX_BINARY_HEADER_BYTES →
  parse (pre ++ json ++ p) =
    (header ← parse_json json;
     if negb (is_object header) then Err "Normal binary JSON header must be an object"
     else Ok (Normal, header, p)).
Proof.
  intros Hp Hk Hn Hmax. unfold parse.
  rewrite (get_range_prefix pre) by lia. simpl.
  rewrite (proj2 (frame_kind_Normal pre) Hk). simpl. rewrite Hn.
  replace (_ <? len json) with false by lia.
  unfold checked_add. unfold MAX_BINARY_HEADER_BYTES in *.
  replace (4 + len json <? 2 ^ 64) with true by lia. simpl.
  rewrite (get_range_app pre json p) by lia. simpl.
  destruct (parse_json json) as [h|]; simpl; [|done].
  rewrite app_assoc, slice_from_app by (rewrite len_app; lia). done.
Qed.

Lemma parse_Lidar `{JsonReader} size reserved json p :
  len size = 4 → len reserved = 4 → from_le_bytes size = len json →
  len json ≤ MAX_BINARY_HEADER_BYTES →
  parse (([2; 0; 0; 0] ++ size ++ reserved) ++ json ++ p) =
    (header ← parse_json json;
     if negb (is_object header) then Err "Lidar binary JSON header must be an object"
     else Ok (Lidar, header, p)).
Proof.
  intros Hs Hr Hn Hmax. pose proof (proj2 (frame_kind_Lidar _) eq_refl) as Hk.
  assert (len [2; 0; 0; 0] = 4) as Hm by done. revert Hk Hm.
  generalize [2; 0; 0; 0]. intros magic Hk Hm. unfold parse.
  rewrite <- (app_assoc magic), <- (app_assoc size), (get_range_prefix magic) by lia.
  simpl. rewrite Hk. rewrite (get_range_app magic size) by lia. simpl.
  rewrite Hn. replace (_ <? len json) with false by lia.
  unfold checked_add. unfold MAX_BINARY_HEADER_BYTES in *.
  replace (12 + len json <? 2 ^ 64) with true by lia. simpl.
  rewrite (app_assoc size), (app_assoc magic).
  assert (len (magic ++ size ++ reserved) = 12) as H12 by (rewrite !len_app; lia).
  rewrite (get_range_app _ json p) by lia. simpl.
  destruct (parse_json json) as [h|]; simpl; [|done].
  rewrite (app_assoc _ json), slice_from_app by (rewrite len_app; lia). done.
Qed.

(** C33: a buffer is a frame exactly when it is a prefix of its kind, a JSON
    object of the announced length (at most 64 KiB), and the payload: the
    parser returns these parts, loses nothing, and every well-formed frame is
    accepted. *)
Theorem parse_exact `{JsonReader} (buffer : bytes) f h p :
  parse buffer = Ok (f, h, p) ↔
  ∃ pre json, buffer = pre ++ json ++ p ∧ frame_prefix f pre (len json) ∧
    len json ≤ MAX_BINARY_HEADER_BYTES ∧ parse_json json = Ok h ∧ is_object h = true.
Proof.
  split.
  - unfold parse. intros (pre & Hpre%ok_or_Ok & Hr)%result_bind_Ok.
    apply get_range_0 in Hpre as [Hb Hlp].
    apply result_bind_Ok in Hr as ([start n] & Hs & Hr). simpl in Hr.
    destruct (_ <? n) eqn:Hmax; [done|].
    apply result_bind_Ok in Hr as (end_ & Hend%ok_or_Ok & Hr).
    apply result_bind_Ok in Hr as (json & Hjson%ok_or_Ok & Hr).
    apply result_bind_Ok in Hr as (hd & Hh & Hr). destruct (is_object hd) eqn:Ho; [|done].
    injection Hr as <- <- <-.
    pose proof (parse_header_split _ _ _ _ _ Hend Hjson) as (Hls & Hlj & Hs0 & Hbuf).
    exists (slice_to buffer start), json. split_and!; [done| |lia|done|done].
    destruct (frame_kind pre) eqn:Hk.
    + injection Hs as <- <-. apply frame_kind_Normal in Hk.
      assert (slice_to buffer 4 = pre) as ->; [|done].
      rewrite (slice_to_prefix _ _ _ _ Hb), Hlp by lia. simpl. apply app_nil_r.
    + apply frame_kind_Lidar in Hk. subst pre.
      apply result_bind_Ok in Hs as (b & Hrange%ok_or_Ok & [= <- <-]).
      apply get_range_Some in Hrange as (_ & Hle & Hlb & Hsplit).
      replace (slice_to buffer 4) with ([2; 0; 0; 0] : bytes) in Hsplit.
      2:{ rewrite (slice_to_prefix _ _ _ _ Hb) by done. done. }
      exists b, (slice_to (slice_from buffer 8) 4).
      assert (12 ≤ len buffer).
      { rewrite Hbuf, !len_app. pose proof (len_nonneg json).
        pose proof (len_nonneg (slice_from buffer end_)). lia. }
      split_and!; [|lia| |lia].
      * rewrite app_assoc in Hsplit. rewrite (slice_to_prefix _ _ _ _ Hsplit).
        -- rewrite <- app_assoc. do 2 f_equal. f_equal. rewrite len_app, Hlb. done.
        -- rewrite len_app, Hlb. done.
      * rewrite len_slice_to; [done|]. rewrite len_slice_from; lia.
  - intros (pre & json & -> & Hf & Hmax & Hj & Ho). destruct f.
    + destruct Hf as (? & ? & ?). rewrite parse_Normal by done. rewrite Hj. simpl. by rewrite Ho.
    + destruct Hf as (size & reserved & -> & ? & ? & ?).
      rewrite parse_Lidar by done. rewrite Hj. simpl. by rewrite Ho.
Qed.
