(* ===== verification/Diagnostics.v ===== *)
(** * Aggregated diagnostics (src/src/diagnostics.rs)

    [RepeatLog] turns a stream of recoverable failures into rate-limited
    reports.  The operations run under its mutex, so an execution is a sequence
    of them; the theorems: no recorded failure is lost or counted twice, and
    reports of a log are at least [WINDOW] apart. *)
From S2P Require Import Prelude.
#[local] Open Scope Z_scope.

(** 5 s in nanoseconds. *)
Definition WINDOW : Z := 5 * 1000000000.

Record RepeatState := { last_report : option Z; pending : Z }.
Definition repeat_default : RepeatState := {| last_report := None; pending := 0 |}.

(** [Instant::saturating_duration_since]. *)
Definition saturating_duration_since (now earlier : Z) : Z := saturating_sub now earlier.

Definition record_at (now : Z) (st : RepeatState) : option (Z * Z) * RepeatState :=
  match last_report st with
  | None => (Some (1, 0), {| last_report := Some now; pending := pending st |})
  | Some last =>
      let p := saturating_add 64 (pending st) 1 in
      if saturating_duration_since now last <? WINDOW
      then (None, {| last_report := Some last; pending := p |})
      else (Some (p, p), {| last_report := Some now; pending := 0 |})
  end.

Definition take_pending (st : RepeatState) : option (Z * Z) * RepeatState :=
  let count := pending st in
  (if negb (count =? 0) then Some (count, count) else None,
   {| last_report := last_report st; pending := 0 |}).

Definition reset (st : RepeatState) : option (Z * Z) * RepeatState :=
  let count := pending st in
  (if negb (count =? 0) then Some (count, count) else None, repeat_default).

(** [record] (at a clock reading), [flush] (also run by [Drop]) and [reset]:
    each emits its report, when there is one. *)
Inductive log_op := Record_ (now : Z) | Flush | Reset.
Definition log_step (o : log_op) : RepeatState → option (Z * Z) * RepeatState :=
  match o with Record_ now => record_at now | Flush => take_pending | Reset => reset end.
Fixpoint log_run (l : list log_op) (st : RepeatState) : list (log_op * (Z * Z)) * RepeatState :=
  match l with
  | [] => ([], st)
  | o :: l' =>
      let '(r, st1) := log_step o st in
      let '(rs, st2) := log_run l' st1 in
      (match r with Some c => (o, c) :: rs | None => rs end, st2)
  end.

Definition records (l : list log_op) : Z :=
  zsum ((λ o, match o with Record_ _ => 1 | _ => 0 end) <$> l).
Definition reported (rs : list (log_op * (Z * Z))) : Z := zsum ((λ r, r.2.1) <$> rs).

Lemma records_cons o l :
  records (o :: l) = (match o with Record_ _ => 1 | _ => 0 end) + records l.
Proof. done. Qed.
Lemma records_nonneg l : 0 ≤ records l.
Proof. apply zsum_nonneg, Forall_fmap, Forall_true. by intros []. Qed.

Lemma reported_cons r rs : reported (r :: rs) = r.2.1 + reported rs.
Proof. done. Qed.

Lemma log_run_app l k st :
  log_run (l ++ k) st =
  let '(rs, st1) := log_run l st in let '(rs', st2) := log_run k st1 in (rs ++ rs', st2).
Proof.
  revert st. induction l as [|o l IH]; intros st; simpl; [by destruct (log_run k st)|].
  destruct (log_step o st) as [r st1]. rewrite IH. destruct (log_run l st1) as [rs st2].
  destruct (log_run k st2) as [rs' st3]. by destruct r.
Qed.

Lemma log_step_counts o st r st' :
  0 ≤ pending st → pending st + (match o with Record_ _ => 1 | _ => 0 end) ≤ u64_max →
  log_step o st = (r, st') →
  0 ≤ pending st' ≤ pending st + (match o with Record_ _ => 1 | _ => 0 end) ∧
  (match r with Some c => c.1 | None => 0 end) + pending st' =
  pending st + (match o with Record_ _ => 1 | _ => 0 end).
Proof.
  intros H0 Hmax. destruct o as [now| |]; simpl.
  - unfold record_at. assert (saturating_add 64 (pending st) 1 = pending st + 1) as Hs.
    { unfold saturating_add, u64_max in *. lia. }
    rewrite Hs. destruct (last_report st); [destruct (_ <? WINDOW)|]; intros [= <- <-]; simpl; lia.
  - unfold take_pending. destruct (pending st =? 0) eqn:E; intros [= <- <-]; simpl; lia.
  - unfold reset. destruct (pending st =? 0) eqn:E; intros [= <- <-]; simpl; lia.
Qed.

Lemma log_run_counts l : ∀ st rs st',
  0 ≤ pending st → pending st + records l ≤ u64_max → log_run l st = (rs, st') →
  0 ≤ pending st' ∧ reported rs + pending st' = pending st + records l.
Proof.
  induction l as [|o l IH]; intros st rs st' H0 Hmax; simpl.
  { intros [= <- <-]. change (records []) with 0. change (reported []) with 0. lia. }
  rewrite records_cons in *. pose proof (records_nonneg l).
  destruct (log_step o st) as [r st1] eqn:Hs. destruct (log_run l st1) as [rs1 st2] eqn:Hl.
  intros [= <- <-]. apply log_step_counts in Hs as [? Hc]; [|done|lia].
  apply IH in Hl as [? Hl]; [|lia|lia]. split; [done|].
  destruct r as [c|]; rewrite ?reported_cons; simpl in *; lia.
Qed.

(** Over every sequence of operations with at most [u64::MAX] records, the
    counts of the emitted reports and what is pending add up to the records
    made, so after the final flush of [Drop] each one has been reported once. *)
Theorem log_conserves l rs st :
  records l ≤ u64_max → log_run l repeat_default = (rs, st) →
  reported rs + pending st = records l ∧
  reported (log_run (l ++ [Flush]) repeat_default).1 = records l.
Proof.
  intros Hmax Hrun. pose proof (log_run_counts l repeat_default _ _ (Z.le_refl 0) Hmax Hrun) as [? Hsum].
  simpl in Hsum. split; [done|].
  rewrite log_run_app, Hrun. unfold reported in *. simpl. unfold take_pending.
  rewrite fmap_app, zsum_app. destruct (pending st =? 0) eqn:E; simpl; lia.
Qed.

Lemma log_conserves_witness :
  reported (log_run ([Record_ 0; Record_ 1; Record_ 2; Record_ (WINDOW + 3); Record_ (WINDOW + 4)]
    ++ [Flush]) repeat_default).1 = 5.
Proof.
  exact (proj2 (log_conserves
    [Record_ 0; Record_ 1; Record_ 2; Record_ (WINDOW + 3); Record_ (WINDOW + 4)] _ _
    ltac:(vm_compute; discriminate) eq_refl)).
Defined.

(** ** Rate limit *)

(** The times at which [record] reports, in order. *)
Definition report_times (rs : list (log_op * (Z * Z))) : list Z :=
  omap (λ r, match r.1 with Record_ now => Some now | _ => None end) rs.
(** Each one at least a window after the previous one. *)
Fixpoint spaced (prev : option Z) (l : list Z) : Prop :=
  match l with
  | [] => True
  | t :: l' => (∀ p, prev = Some p → p + WINDOW ≤ t) ∧ spaced (Some t) l'
  end.

Lemma log_run_spaced l : ∀ st, Reset ∉ l →
  spaced (last_report st) (report_times (log_run l st).1).
Proof.
  induction l as [|o l IH]; intros st Hr; [done|]. apply not_elem_of_cons in Hr as [Ho Hr].
  simpl. destruct (log_step o st) as [r st1] eqn:Hs.
  specialize (IH st1 Hr). destruct (log_run l st1) as [rs st2]. simpl in *.
  destruct o as [now| |]; [|destruct st; unfold log_step, take_pending in Hs; simpl in *..].
  - simpl in Hs. unfold record_at in Hs. destruct (last_report st) as [lt|] eqn:Hl.
    + destruct (_ <? WINDOW) eqn:Hw; injection Hs as <- <-; simpl in *; [done|].
      split; [|done]. intros ? [= <-].
      unfold saturating_duration_since, saturating_sub, WINDOW in *. lia.
    + injection Hs as <- <-. by split.
  - destruct (negb _); injection Hs as <- <-; done.
  - done.
Qed.

(** Without a reset in between, the first record is reported at once and any
    two successive reports of [record] are at least five seconds apart, whatever
    the clock readings are (a clock that goes back only delays a report). *)
Theorem log_rate_limited l now :
  Reset ∉ l →
  ∃ rs, report_times (log_run (Record_ now :: l) repeat_default).1 = now :: rs ∧
        spaced (Some now) rs.
Proof.
  intros Hr. simpl.
  pose proof (log_run_spaced l {| last_report := Some now; pending := 0 |} Hr) as Hs.
  destruct (log_run l _) as [rs st]. simpl in *. eauto.
Qed.

Lemma log_rate_limited_witness :
  ∃ rs, report_times (log_run [Record_ 7; Record_ 8; Flush; Record_ (WINDOW + 7)]
    repeat_default).1 = 7 :: rs ∧ spaced (Some 7) rs.
Proof.
  apply (log_rate_limited [Record_ 8; Flush; Record_ (WINDOW + 7)] 7).
  rewrite !not_elem_of_cons, elem_of_nil. naive_solver.
Defined.
