(* ===== verification/Constants.v ===== *)
(** * Protocol constants (src/src/protocol/constants.rs)

    The connection methods and the static tables, each built from its literal
    entries the way [BTreeMap::from] builds it.  The theorem: no literal entry
    is overwritten by another, message types and topics are distinct, and the
    sport commands share an identifier only where the table says so. *)
From S2P Require Import Prelude.
#[local] Open Scope Z_scope.

Inductive WebRTCConnectionMethod := LocalAP | LocalSTA | Remote.
#[export] Instance WebRTCConnectionMethod_eq_dec : EqDecision WebRTCConnectionMethod.
Proof. solve_decision. Defined.
(** The discriminants, [method as i32]. *)
Definition method_value (m : WebRTCConnectionMethod) : Z :=
  match m with LocalAP => 1 | LocalSTA => 2 | Remote => 3 end.
Definition default_method : WebRTCConnectionMethod := LocalSTA.
Definition try_from (v : Z) : result string WebRTCConnectionMethod :=
  match v with
  | 1 => Ok LocalAP
  | 2 => Ok LocalSTA
  | 3 => Ok Remote
  | _ => Err ("Unsupported WebRTCConnectionMethod value: " +:+ pretty v)
  end.

(** [VuiColor]. *)
Module VuiColor.
Definition WHITE : string := "white".
Definition RED : string := "red".
Definition YELLOW : string := "yellow".
Definition BLUE : string := "blue".
Definition GREEN : string := "green".
Definition CYAN : string := "cyan".
Definition PURPLE : string := "purple".
End VuiColor.

Definition data_channel_type_entries : list (string * string) :=
  [("VALIDATION", "validation");
   ("SUBSCRIBE", "subscribe");
   ("UNSUBSCRIBE", "unsubscribe");
   ("MSG", "msg");
   ("REQUEST", "req");
   ("RESPONSE", "res");
   ("VID", "vid");
   ("AUD", "aud");
   ("ERR", "err");
   ("HEARTBEAT", "heartbeat");
   ("RTC_INNER_REQ", "rtc_inner_req");
   ("RTC_REPORT", "rtc_report");
   ("ADD_ERROR", "add_error");
   ("RM_ERROR", "rm_error");
   ("ERRORS", "errors")].
Definition data_channel_type : list (string * string) := BTree.of_list data_channel_type_entries.

Definition rtc_topic_entries : list (string * string) :=
  [("LOW_STATE", "rt/lf/lowstate");
   ("MULTIPLE_STATE", "rt/multiplestate");
   ("FRONT_PHOTO_REQ", "rt/api/videohub/request");
   ("ULIDAR_SWITCH", "rt/utlidar/switch");
   ("ULIDAR", "rt/utlidar/voxel_map");
   ("ULIDAR_ARRAY", "rt/utlidar/voxel_map_compressed");
   ("ULIDAR_STATE", "rt/utlidar/lidar_state");
   ("ROBOTODOM", "rt/utlidar/robot_pose");
   ("UWB_REQ", "rt/api/uwbswitch/request");
   ("UWB_STATE", "rt/uwbstate");
   ("LOW_CMD", "rt/lowcmd");
   ("WIRELESS_CONTROLLER", "rt/wirelesscontroller");
   ("SPORT_MOD", "rt/api/sport/request");
   ("SPORT_MOD_STATE", "rt/sportmodestate");
   ("LF_SPORT_MOD_STATE", "rt/lf/sportmodestate");
   ("BASH_REQ", "rt/api/bashrunner/request");
   ("SELF_TEST", "rt/selftest");
   ("GRID_MAP", "rt/mapping/grid_map");
   ("SERVICE_STATE", "rt/servicestate");
   ("GPT_FEEDBACK", "rt/gptflowfeedback");
   ("VUI", "rt/api/vui/request");
   ("OBSTACLES_AVOID", "rt/api/obstacles_avoid/request");
   ("SLAM_QT_COMMAND", "rt/qt_command");
   ("SLAM_ADD_NODE", "rt/qt_add_node");
   ("SLAM_ADD_EDGE", "rt/qt_add_edge");
   ("SLAM_QT_NOTICE", "rt/qt_notice");
   ("SLAM_PC_TO_IMAGE_LOCAL", "rt/pctoimage_local");
   ("SLAM_ODOMETRY", "rt/lio_sam_ros2/mapping/odometry");
   ("ARM_COMMAND", "rt/arm_Command");
   ("ARM_FEEDBACK", "rt/arm_Feedback");
   ("AUDIO_HUB_REQ", "rt/api/audiohub/request");
   ("AUDIO_HUB_PLAY_STATE", "rt/audiohub/player/state");
   ("GAS_SENSOR", "rt/gas_sensor");
   ("GAS_SENSOR_REQ", "rt/api/gas_sensor/request");
   ("LIDAR_MAPPING_CMD", "rt/uslam/client_command");
   ("LIDAR_MAPPING_CLOUD_POINT", "rt/uslam/frontend/cloud_world_ds");
   ("LIDAR_MAPPING_ODOM", "rt/uslam/frontend/odom");
   ("LIDAR_MAPPING_PCD_FILE", "rt/uslam/cloud_map");
   ("LIDAR_MAPPING_SERVER_LOG", "rt/uslam/server_log");
   ("LIDAR_LOCALIZATION_ODOM", "rt/uslam/localization/odom");
   ("LIDAR_NAVIGATION_GLOBAL_PATH", "rt/uslam/navigation/global_path");
   ("LIDAR_LOCALIZATION_CLOUD_POINT", "rt/uslam/localization/cloud_world");
   ("PROGRAMMING_ACTUATOR_CMD", "rt/programming_actuator/command");
   ("ASSISTANT_RECORDER", "rt/api/assistant_recorder/request");
   ("MOTION_SWITCHER", "rt/api/motion_switcher/request")].
Definition rtc_topic : list (string * string) := BTree.of_list rtc_topic_entries.

Definition sport_cmd_entries : list (string * Z) :=
  [("Damp", 1001);
   ("BalanceStand", 1002);
   ("StopMove", 1003);
   ("StandUp", 1004);
   ("StandDown", 1005);
   ("RecoveryStand", 1006);
   ("Euler", 1007);
   ("Move", 1008);
   ("Sit", 1009);
   ("RiseSit", 1010);
   ("SwitchGait", 1011);
   ("Trigger", 1012);
   ("BodyHeight", 1013);
   ("FootRaiseHeight", 1014);
   ("SpeedLevel", 1015);
   ("Hello", 1016);
   ("Stretch", 1017);
   ("TrajectoryFollow", 1018);
   ("ContinuousGait", 1019);
   ("Content", 1020);
   ("Wallow", 1021);
   ("Dance1", 1022);
   ("Dance2", 1023);
   ("GetBodyHeight", 1024);
   ("GetFootRaiseHeight", 1025);
   ("GetSpeedLevel", 1026);
   ("SwitchJoystick", 1027);
   ("Pose", 1028);
   ("Scrape", 1029);
   ("FrontFlip", 1030);
   ("LeftFlip", 1042);
   ("RightFlip", 1043);
   ("BackFlip", 1044);
   ("FrontJump", 1031);
   ("FrontPounce", 1032);
   ("WiggleHips", 1033);
   ("GetState", 1034);
   ("EconomicGait", 1035);
   ("LeadFollow", 1045);
   ("FingerHeart", 1036);
   ("Bound", 1304);
   ("MoonWalk", 1305);
   ("OnesidedStep", 1303);
   ("CrossStep", 1302);
   ("Handstand", 1301);
   ("StandOut", 1039);
   ("FreeWalk", 1045);
   ("Standup", 1050);
   ("CrossWalk", 1051)].
Definition sport_cmd : list (string * Z) := BTree.of_list sport_cmd_entries.

Definition app_error_messages_entries : list (string * string) :=
  [("app_error_code_100_1", "DDS message timeout");
   ("app_error_code_100_10", "Battery communication error");
   ("app_error_code_100_2", "Distribution switch abnormal");
   ("app_error_code_100_20", "Abnormal mote control communication");
   ("app_error_code_100_40", "MCU communication error");
   ("app_error_code_100_80", "Motor communication error");
   ("app_error_code_200_1", "Rear left fan jammed");
   ("app_error_code_200_2", "Rear right fan jammed");
   ("app_error_code_200_4", "Front fan jammed");
   ("app_error_code_300_1", "Overcurrent");
   ("app_error_code_300_10", "Winding overheating");
   ("app_error_code_300_100", "Motor communication interruption");
   ("app_error_code_300_2", "Overvoltage");
   ("app_error_code_300_20", "Encoder abnormal");
   ("app_error_code_300_4", "Driver overheating");
   ("app_error_code_300_8", "Generatrix undervoltage");
   ("app_error_code_400_1", "Motor rotate speed abnormal");
   ("app_error_code_400_10", "Abnormal dirt index");
   ("app_error_code_400_2", "PointCloud data abnormal");
   ("app_error_code_400_4", "Serial port data abnormal");
   ("app_error_code_500_1", "UWB serial port open abnormal");
   ("app_error_code_500_2", "Robot dog information retrieval abnormal");
   ("app_error_code_600_4", "Overheating software protection");
   ("app_error_code_600_8", "Low battery software protection");
   ("app_error_source_100", "Communication firmware malfunction");
   ("app_error_source_200", "Communication firmware malfunction");
   ("app_error_source_300", "Motor malfunction");
   ("app_error_source_400", "Radar malfunction");
   ("app_error_source_500", "UWB malfunction");
   ("app_error_source_600", "Motion Control");
   ("app_error_wheel_300_100", "Motor Communication Interruption");
   ("app_error_wheel_300_40", "Calibration Data Abnormality");
   ("app_error_wheel_300_80", "Abnormal Reset")].
Definition app_error_messages : list (string * string) := BTree.of_list app_error_messages_entries.

Definition audio_api_entries : list (string * Z) :=
  [("GET_AUDIO_LIST", 1001);
   ("SELECT_START_PLAY", 1002);
   ("PAUSE", 1003);
   ("UNSUSPEND", 1004);
   ("SELECT_PREV_START_PLAY", 1005);
   ("SELECT_NEXT_START_PLAY", 1006);
   ("SET_PLAY_MODE", 1007);
   ("SELECT_RENAME", 1008);
   ("SELECT_DELETE", 1009);
   ("GET_PLAY_MODE", 1010);
   ("UPLOAD_AUDIO_FILE", 2001);
   ("PLAY_START_OBSTACLE_AVOIDANCE", 3001);
   ("PLAY_EXIT_OBSTACLE_AVOIDANCE", 3002);
   ("PLAY_START_COMPANION_MODE", 3003);
   ("PLAY_EXIT_COMPANION_MODE", 3004);
   ("ENTER_MEGAPHONE", 4001);
   ("EXIT_MEGAPHONE", 4002);
   ("UPLOAD_MEGAPHONE", 4003);
   ("INTERNAL_LONG_CORPUS_SELECT_TO_PLAY", 5001);
   ("INTERNAL_LONG_CORPUS_PLAYBACK_COMPLETED", 5002);
   ("INTERNAL_LONG_CORPUS_STOP_PLAYING", 5003)].
Definition audio_api : list (string * Z) := BTree.of_list audio_api_entries.

Lemma try_from_exact v m : try_from v = Ok m ↔ v = method_value m.
Proof.
  split; [|by intros ->; destruct m].
  unfold try_from. repeat case_match; intros [= <-]; done.
Qed.

(** Every literal entry is what a lookup finds. *)
Definition all_found {V} `{EqDecision V} (entries : list (string * V)) : bool :=
  let table := BTree.of_list entries in
  forallb (λ kv, bool_decide (BTree.get kv.1 table = Some kv.2)) entries.

Lemma all_found_spec {V} `{EqDecision V} (entries : list (string * V)) k v :
  all_found entries = true → (k, v) ∈ entries → BTree.get k (BTree.of_list entries) = Some v.
Proof.
  unfold all_found. rewrite forallb_forall. intros Hf Hin%list_elem_of_In.
  specialize (Hf _ Hin). by apply bool_decide_eq_true in Hf.
Qed.

(** The tables hold their literal entries, none overwritten by another; no
    two message kinds have the same wire type, no two names the same topic or
    audio identifier, and two sport commands with the same identifier are the
    pair [LeadFollow], [FreeWalk]. *)
Theorem tables_exact :
  (∀ k v, (k, v) ∈ data_channel_type_entries → BTree.get k data_channel_type = Some v) ∧
  (∀ k v, (k, v) ∈ rtc_topic_entries → BTree.get k rtc_topic = Some v) ∧
  (∀ k v, (k, v) ∈ sport_cmd_entries → BTree.get k sport_cmd = Some v) ∧
  (∀ k v, (k, v) ∈ app_error_messages_entries → BTree.get k app_error_messages = Some v) ∧
  (∀ k v, (k, v) ∈ audio_api_entries → BTree.get k audio_api = Some v) ∧
  NoDup data_channel_type.*2 ∧ NoDup rtc_topic.*2 ∧ NoDup audio_api.*2 ∧
  NoDup (filter (λ kv, kv.1 ≠ "FreeWalk") sport_cmd).*2 ∧
  BTree.get "FreeWalk" sport_cmd = BTree.get "LeadFollow" sport_cmd.
Proof.
  split_and!; try (intros k v; apply all_found_spec; vm_compute; reflexivity);
    try (apply (bool_decide_unpack _); vm_compute; exact I).
Qed.
