(* ===== verification/Channel.v ===== *)
(** * Bounded channels

    crossbeam's [bounded] channel and tokio's bounded [mpsc] are external; this
    is the interface the components use, with its documented behaviour: a FIFO
    of at most [capacity] messages that reports a missing other end.
    [vec_chan] is an implementation. *)
From S2P Require Import Prelude.
#[local] Open Scope Z_scope.

Inductive TrySendError (A : Type) := Full (a : A) | Disconnected (a : A).
Arguments Full {A} a.
Arguments Disconnected {A} a.
Inductive TryRecvError := Empty | RecvDisconnected.
#[export] Instance TryRecvError_eq_dec : EqDecision TryRecvError.
Proof. solve_decision. Defined.

Class Chan (C : Type → Type) := {
  bounded {A} : Z → C A;
  chan_send {A} : C A → A → result (TrySendError A) (C A);
  chan_recv {A} : C A → result TryRecvError (A * C A);
  (** The last [Receiver], the last [Sender] goes away. *)
  close_rx {A} : C A → C A;
  close_tx {A} : C A → C A;
  (** What the laws speak about. *)
  contents {A} : C A → list A;
  chan_capacity {A} : C A → Z;
  rx_open {A} : C A → bool;
  tx_open {A} : C A → bool;
  bounded_spec A n : 0 < n →
    contents (bounded (A:=A) n) = [] ∧ chan_capacity (bounded (A:=A) n) = n ∧
    rx_open (bounded (A:=A) n) = true ∧ tx_open (bounded (A:=A) n) = true;
  send_closed A (c : C A) a : rx_open c = false → chan_send c a = Err (Disconnected a);
  send_full A (c : C A) a :
    rx_open c = true → chan_capacity c ≤ len (contents c) → chan_send c a = Err (Full a);
  send_ok A (c : C A) a :
    rx_open c = true → len (contents c) < chan_capacity c →
    ∃ c', chan_send c a = Ok c' ∧ contents c' = contents c ++ [a] ∧
      chan_capacity c' = chan_capacity c ∧ rx_open c' = true ∧ tx_open c' = tx_open c;
  recv_nil A (c : C A) :
    contents c = [] → chan_recv c = Err (if tx_open c then Empty else RecvDisconnected);
  recv_cons A (c : C A) a l :
    contents c = a :: l →
    ∃ c', chan_recv c = Ok (a, c') ∧ contents c' = l ∧ chan_capacity c' = chan_capacity c ∧
      rx_open c' = rx_open c ∧ tx_open c' = tx_open c;
  close_tx_spec A (c : C A) :
    contents (close_tx c) = contents c ∧ chan_capacity (close_tx c) = chan_capacity c ∧
    rx_open (close_tx c) = rx_open c ∧ tx_open (close_tx c) = false;
  (** Whether unread messages survive their last receiver is not specified. *)
  close_rx_spec A (c : C A) :
    (contents (close_rx c) = contents c ∨ contents (close_rx c) = []) ∧
    chan_capacity (close_rx c) = chan_capacity c ∧
    rx_open (close_rx c) = false ∧ tx_open (close_rx c) = tx_open c;
}.

Section derived.
Context {C : Type → Type} `{Chan C} {A : Type}.
Implicit Types (c : C A).

(** The outcome of a send, by cases. *)
Lemma chan_send_cases c a :
  (∃ c', chan_send c a = Ok c' ∧ contents c' = contents c ++ [a] ∧
     chan_capacity c' = chan_capacity c ∧ rx_open c' = rx_open c ∧
     tx_open c' = tx_open c ∧ rx_open c = true ∧ len (contents c) < chan_capacity c) ∨
  (chan_send c a = Err (Full a) ∧ rx_open c = true ∧ chan_capacity c ≤ len (contents c)) ∨
  (chan_send c a = Err (Disconnected a) ∧ rx_open c = false).
Proof.
  destruct (rx_open c) eqn:Hrx; [|right; right; by rewrite send_closed].
  destruct (decide (len (contents c) < chan_capacity c)) as [Hlt|Hge].
  - left. destruct (send_ok A c a Hrx Hlt) as (c' & ? & ? & ? & ? & ?). exists c'.
    split_and!; congruence || lia.
  - right; left. rewrite send_full by (done || lia). split_and!; [done|done|lia].
Qed.

Lemma chan_recv_Ok c a c' :
  chan_recv c = Ok (a, c') →
  contents c = a :: contents c' ∧ chan_capacity c' = chan_capacity c ∧
  rx_open c' = rx_open c ∧ tx_open c' = tx_open c.
Proof.
  destruct (contents c) as [|b l] eqn:Hc; [by rewrite recv_nil|].
  destruct (recv_cons A c b l Hc) as (c2 & Hr & ? & ? & ? & ?). rewrite Hr.
  intros [= -> ->]. subst. done.
Qed.

Lemma chan_recv_Err c e :
  chan_recv c = Err e → contents c = [] ∧ e = if tx_open c then Empty else RecvDisconnected.
Proof.
  destruct (contents c) as [|b l] eqn:Hc.
  - rewrite recv_nil by done. by intros [= <-].
  - destruct (recv_cons A c b l Hc) as (c2 & Hr & _). by rewrite Hr.
Qed.

Lemma close_rx_nil c : contents c = [] → contents (close_rx c) = [].
Proof. by destruct (close_rx_spec A c) as [[->| ->] _]. Qed.
Lemma close_rx_len c : len (contents (close_rx c)) ≤ len (contents c).
Proof. destruct (close_rx_spec A c) as [[->| ->] _]; unfold len; simpl; lia. Qed.

(** [while rx.try_recv().is_ok() {}]. *)
Fixpoint drain_loop (fuel : nat) c : C A :=
  match fuel with
  | O => c
  | S fuel => match chan_recv c with Ok (_, c') => drain_loop fuel c' | Err _ => c end
  end.
Definition drain c : C A := drain_loop (length (contents c)) c.

Lemma drain_spec c :
  contents (drain c) = [] ∧ chan_capacity (drain c) = chan_capacity c ∧
  rx_open (drain c) = rx_open c ∧ tx_open (drain c) = tx_open c.
Proof.
  unfold drain. remember (contents c) as l eqn:Hl.
  revert c Hl. induction l as [|a l IH]; intros c Hl; simpl; [done|].
  destruct (recv_cons A c a l (eq_sym Hl)) as (c' & -> & Hc' & <- & <- & <-).
  by apply IH.
Qed.
End derived.

(** An implementation: a queue with its flags. *)
Record vec_chan (A : Type) := {
  vc_items : list A; vc_cap : Z; vc_rx : bool; vc_tx : bool }.
Arguments vc_items {A}. Arguments vc_cap {A}. Arguments vc_rx {A}. Arguments vc_tx {A}.

#[export] Program Instance vec_chan_chan : Chan vec_chan := {|
  bounded A n := {| vc_items := []; vc_cap := n; vc_rx := true; vc_tx := true |};
  chan_send A c a :=
    if negb (vc_rx c) then Err (Disconnected a) else
    if vc_cap c <=? len (vc_items c) then Err (Full a) else
    Ok {| vc_items := vc_items c ++ [a]; vc_cap := vc_cap c; vc_rx := true; vc_tx := vc_tx c |};
  chan_recv A c :=
    match vc_items c with
    | [] => Err (if vc_tx c then Empty else RecvDisconnected)
    | a :: l => Ok (a, {| vc_items := l; vc_cap := vc_cap c; vc_rx := vc_rx c; vc_tx := vc_tx c |})
    end;
  close_rx A c :=
    {| vc_items := vc_items c; vc_cap := vc_cap c; vc_rx := false; vc_tx := vc_tx c |};
  close_tx A c :=
    {| vc_items := vc_items c; vc_cap := vc_cap c; vc_rx := vc_rx c; vc_tx := false |};
  contents A := vc_items;
  chan_capacity A := vc_cap;
  rx_open A := vc_rx;
  tx_open A := vc_tx;
|}.
Next Obligation. done. Qed.
Next Obligation. intros A c a Hrx. simpl in *. by rewrite Hrx. Qed.
Next Obligation.
  intros A c a Hrx Hlen. simpl in *. rewrite Hrx. simpl. by replace (_ <=? _) with true by lia.
Qed.
Next Obligation.
  intros A c a Hrx Hlen. simpl in *. rewrite Hrx. simpl. replace (_ <=? _) with false by lia. eauto 10.
Qed.
Next Obligation. intros A c Hc. simpl in *. by rewrite Hc. Qed.
Next Obligation. intros A c a l Hc. simpl in *. rewrite Hc. eauto 10. Qed.
Next Obligation. done. Qed.
Next Obligation. intros A c. split; [by left|done]. Qed.
