(* ===== verification/Events.v ===== *)
(** * Callback admission (src/src/protocol/events.rs)

    [event_channel]: two bounded queues (control and media) with one shared
    account of the bytes and deliveries that are queued or owned by a
    dispatcher, and the session generation every delivery is tagged with.  Every
    locked section of the code is one operation here; [run] executes any
    sequence of them.  The theorems: the account is exact and bounded in every
    reachable state, admission is decided by the account alone, delivery is the
    first current event with control first, and a dropped receiver retains
    nothing. *)
From S2P Require Import Prelude Floats Json Channel.
#[local] Open Scope Z_scope.

Definition MEDIA_BYTES : Z := 32 * 1024 * 1024.
Definition CONTROL_BYTES : Z := 2 * 1024 * 1024.

(** What the allocator and the compiler decide: the capacities of the buffers of
    an event and two type sizes. *)
Class Layout := {
  size_of_Value : Z;
  size_of_CallbackEvent : Z;
  string_capacity : string → Z;
  values_capacity : list value → Z;
  points_capacity : list f32 → Z;
  bytes_capacity : bytes → Z;
  samples_capacity : list Z → Z;
  size_of_Value_pos : 0 < size_of_Value;
  size_of_CallbackEvent_pos : 0 < size_of_CallbackEvent;
  string_capacity_le s : slen s ≤ string_capacity s;
  values_capacity_le l : len l ≤ values_capacity l;
  points_capacity_le l : len l ≤ points_capacity l;
  bytes_capacity_le l : len l ≤ bytes_capacity l;
  samples_capacity_le l : len l ≤ samples_capacity l;
}.

(** ** Sizes *)
Section sizes.
Context `{Layout}.

(** The key loop of an object: the accumulated size and the pending stack
    (head = top), or the early [usize::MAX]. *)
Fixpoint json_size_object (m : list (string * value)) (size : Z) (pending : list value) :
    option (Z * list value) :=
  match m with
  | [] => Some (size, pending)
  | (key, v) :: m' =>
      let size := saturating_add 64 (saturating_add 64 size (string_capacity key)) 128 in
      if CONTROL_BYTES <? size then None else json_size_object m' size (v :: pending)
  end.

(** The walk, one popped value per unit of fuel. *)
Fixpoint json_size_loop (fuel : nat) (size : Z) (pending : list value) : option Z :=
  match fuel, pending with
  | _, [] => Some size
  | O, _ => None
  | S fuel, v :: pending =>
      let size := saturating_add 64 size 128 in
      match v with
      | JString text =>
          let size := saturating_add 64 size (string_capacity text) in
          if CONTROL_BYTES <? size then Some usize_max else json_size_loop fuel size pending
      | JArray values =>
          let size := saturating_add 64 size
                        (saturating_mul 64 (values_capacity values) size_of_Value) in
          if CONTROL_BYTES <? size then Some usize_max
          else json_size_loop fuel size (rev values ++ pending)
      | JObject values =>
          match json_size_object values size pending with
          | None => Some usize_max
          | Some (size, pending) =>
              if CONTROL_BYTES <? size then Some usize_max else json_size_loop fuel size pending
          end
      | _ => if CONTROL_BYTES <? size then Some usize_max else json_size_loop fuel size pending
      end
  end.

(** The values in a value: the fuel of its walk. *)
Fixpoint value_nodes (v : value) : nat :=
  match v with
  | JArray l => S (foldr (λ x n, value_nodes x + n) 0 l)%nat
  | JObject m => S (foldr (λ kx n, value_nodes kx.2 + n) 0 m)%nat
  | _ => 1%nat
  end.
Definition json_size (v : value) : Z :=
  default 0 (json_size_loop (value_nodes v) 0 [v]).

Definition event_size (event : CallbackEvent) : nat * Z :=
  let base := size_of_CallbackEvent in
  let '(class, n) :=
    match event with
    | TopicCallback topic payload =>
        (0%nat, saturating_add 64 (string_capacity topic) (json_size payload))
    | FutureResolve key res => (0%nat, saturating_add 64 (string_capacity key) (json_size res))
    | LidarCallback topic payload points =>
        (1%nat, saturating_add 64 (saturating_add 64 (string_capacity topic) (json_size payload))
                  (saturating_mul 64 (points_capacity points) 4))
    | VideoFrame data _ _ => (1%nat, bytes_capacity data)
    | AudioFrame data _ _ => (1%nat, saturating_mul 64 (samples_capacity data) 2)
    end in
  (class, saturating_add 64 n base).

(** The size the walk is meant to compute. *)
Fixpoint json_weight (v : value) : Z :=
  128 + match v with
        | JString text => string_capacity text
        | JArray l =>
            values_capacity l * size_of_Value + foldr (λ x n, json_weight x + n) 0 l
        | JObject m =>
            foldr (λ kx n, (string_capacity kx.1 + 128) + json_weight kx.2 + n) 0 m
        | _ => 0
        end.
Definition weights (l : list value) : Z := foldr (λ x n, json_weight x + n) 0 l.
Definition nodes (l : list value) : nat := foldr (λ x n, value_nodes x + n)%nat 0%nat l.

Lemma string_capacity_nonneg s : 0 ≤ string_capacity s.
Proof. pose proof (string_capacity_le s). unfold slen in *. lia. Qed.
Lemma values_size_nonneg l : 0 ≤ values_capacity l * size_of_Value.
Proof.
  pose proof (values_capacity_le l). pose proof (len_nonneg l). pose proof size_of_Value_pos. nia.
Qed.

Lemma json_weight_pos v : 128 ≤ json_weight v.
Proof.
  induction v as [| | |s|l IH|m IH] using value_ind'; simpl; try lia.
  - pose proof (string_capacity_nonneg s). lia.
  - assert (0 ≤ foldr (λ x n, json_weight x + n) 0 l) by (induction IH; simpl; lia).
    pose proof (values_size_nonneg l). lia.
  - assert (0 ≤ foldr (λ kx n, (string_capacity kx.1 + 128) + json_weight kx.2 + n) 0 m); [|lia].
    induction IH as [|[k x] m]; simpl; [lia|].
    pose proof (string_capacity_nonneg k). simpl in *. lia.
Qed.

Lemma weights_app l k : weights (l ++ k) = weights l + weights k.
Proof. induction l; simpl; lia. Qed.
Lemma weights_rev l : weights (rev l) = weights l.
Proof. induction l; simpl; [done|]. rewrite weights_app. simpl. lia. Qed.
Lemma weights_nonneg l : 0 ≤ weights l.
Proof. induction l as [|v l IH]; simpl; [lia|]. pose proof (json_weight_pos v). lia. Qed.
Lemma nodes_app l k : nodes (l ++ k) = (nodes l + nodes k)%nat.
Proof. induction l; simpl; lia. Qed.
Lemma nodes_rev l : nodes (rev l) = nodes l.
Proof. induction l; simpl; [done|]. rewrite nodes_app. simpl. lia. Qed.

(** Saturation is out of reach below the limit. *)
Lemma sat_add_small a b : 0 ≤ a → 0 ≤ b →
  (a + b ≤ CONTROL_BYTES → saturating_add 64 a b = a + b) ∧
  (CONTROL_BYTES < a + b → CONTROL_BYTES < saturating_add 64 a b).
Proof. unfold saturating_add, CONTROL_BYTES. lia. Qed.
Lemma sat_mul_small a : 0 ≤ a →
  (a ≤ CONTROL_BYTES → Z.min a (2 ^ 64 - 1) = a) ∧
  (CONTROL_BYTES < a → CONTROL_BYTES < Z.min a (2 ^ 64 - 1)).
Proof. unfold CONTROL_BYTES. lia. Qed.

Definition keys_weight (m : list (string * value)) : Z :=
  foldr (λ kx n, string_capacity kx.1 + 128 + n) 0 m.
Lemma object_weight m :
  foldr (λ kx n, (string_capacity kx.1 + 128) + json_weight kx.2 + n) 0 m =
  keys_weight m + weights m.*2.
Proof.
  induction m as [|[k v] m IH]; [done|]. rewrite fmap_cons.
  change (weights ((k, v).2 :: m.*2)) with (json_weight v + weights m.*2).
  change (keys_weight ((k, v) :: m)) with (string_capacity k + 128 + keys_weight m).
  cbn [foldr fst snd]. lia.
Qed.
Lemma object_nodes m :
  foldr (λ (kx : string * value) n, value_nodes kx.2 + n)%nat 0%nat m = nodes m.*2.
Proof. induction m as [|[k v] m IH]; simpl; [done|]. by rewrite IH. Qed.
Lemma keys_weight_nonneg m : 0 ≤ keys_weight m.
Proof.
  induction m as [|[k v] m IH]; simpl; [lia|]. pose proof (string_capacity_nonneg k). lia.
Qed.

Definition capped (n : Z) : Z := if n <=? CONTROL_BYTES then n else usize_max.

(** Past the limit every path of the walk ends in the cap. *)
Lemma json_size_object_spec m : ∀ size pending, 0 ≤ size ≤ u64_max →
  match json_size_object m size pending with
  | Some (size', pending') =>
      (size' ≤ CONTROL_BYTES ∧ size' = size + keys_weight m ∧ pending' = rev m.*2 ++ pending) ∨
      (CONTROL_BYTES < size' ∧ CONTROL_BYTES < size + keys_weight m)
  | None => CONTROL_BYTES < size + keys_weight m
  end.
Proof.
  induction m as [|[k v] m IH]; intros size pending Hs; simpl.
  - rewrite Z.add_0_r. destruct (decide (size ≤ CONTROL_BYTES)); [left|right]; split_and!; done || lia.
  - pose proof (string_capacity_nonneg k). pose proof (keys_weight_nonneg m).
    assert (saturating_add 64 (saturating_add 64 size (string_capacity k)) 128 =
            saturating_add 64 size (string_capacity k + 128)) as ->
      by (unfold saturating_add; lia).
    destruct (sat_add_small size (string_capacity k + 128)) as [Hle Hgt]; [lia..|].
    destruct (_ <? saturating_add _ _ _) eqn:Hlim.
    { unfold saturating_add, CONTROL_BYTES in *. lia. }
    assert (size + (string_capacity k + 128) ≤ CONTROL_BYTES) as Hsmall by lia.
    rewrite (Hle Hsmall) in *. specialize (IH (size + (string_capacity k + 128)) (v :: pending)).
    unfold u64_max, CONTROL_BYTES in *.
    destruct (json_size_object m _ _) as [[size' pending']|]; [|lia].
    destruct IH as [(?&?&->)|?]; [lia|left|right; lia].
    rewrite <- app_assoc. split_and!; [lia|lia|done].
Qed.

(** One visited value of own size [d], whose children are pushed. *)
Lemma visit_spec (loop : Z → list value → option Z) size d pending :
  0 ≤ size ≤ CONTROL_BYTES → 0 ≤ d →
  (size + d ≤ CONTROL_BYTES →
   loop (size + d) pending = Some (capped (size + d + weights pending))) →
  (if CONTROL_BYTES <? saturating_add 64 size d then Some usize_max
   else loop (saturating_add 64 size d) pending) = Some (capped (size + d + weights pending)).
Proof.
  intros Hs Hd Hloop. destruct (sat_add_small size d) as [Hle Hgt]; [lia..|].
  pose proof (weights_nonneg pending). unfold capped in *.
  destruct (decide (size + d ≤ CONTROL_BYTES)) as [H1|H1].
  - rewrite (Hle H1). replace (_ <? _) with false by lia. auto.
  - replace (_ <? _) with true by lia. by replace (_ <=? CONTROL_BYTES) with false by lia.
Qed.

Lemma sat_add_assoc a b c : 0 ≤ b → 0 ≤ c →
  saturating_add 64 (saturating_add 64 a b) c = saturating_add 64 a (b + c).
Proof. unfold saturating_add. lia. Qed.

Lemma json_size_loop_spec fuel : ∀ size pending,
  0 ≤ size ≤ CONTROL_BYTES → (nodes pending ≤ fuel)%nat →
  json_size_loop fuel size pending = Some (capped (size + weights pending)).
Proof.
  induction fuel as [|fuel IH]; intros size [|v pending] Hs Hf; cbn [json_size_loop].
  1,3: unfold capped; simpl; rewrite Z.add_0_r; by replace (_ <=? _) with true by lia.
  { exfalso. destruct v; simpl in Hf; lia. }
  assert (∀ d k, 0 ≤ d → (nodes k ≤ fuel)%nat → size + d ≤ CONTROL_BYTES →
    json_size_loop fuel (size + d) k = Some (capped (size + d + weights k))) as IH'.
  { intros d k ? ? ?. apply IH; [lia|done]. }
  destruct v as [|b|n|s|l|m]; simpl in Hf.
  1-3: rewrite visit_spec; [simpl; do 2 f_equal; lia|done|lia|intros; apply IH'; [lia|lia|done]].
  - pose proof (string_capacity_nonneg s). rewrite sat_add_assoc by lia.
    rewrite visit_spec; [simpl; do 2 f_equal; lia|done|lia|intros; apply IH'; [lia|lia|done]].
  - pose proof (values_size_nonneg l). fold (nodes l) in Hf.
    assert (saturating_add 64 (saturating_add 64 size 128)
      (saturating_mul 64 (values_capacity l) size_of_Value) =
      saturating_add 64 size (128 + values_capacity l * size_of_Value)) as ->
      by (unfold saturating_add, saturating_mul; lia).
    rewrite visit_spec; [|done|lia|].
    + rewrite weights_app, weights_rev. simpl. fold (weights l). do 2 f_equal. lia.
    + intros. apply IH'; [lia| |done]. rewrite nodes_app, nodes_rev. lia.
  - rewrite object_nodes in Hf. pose proof (keys_weight_nonneg m) as Hk.
    pose proof (weights_nonneg m.*2). pose proof (weights_nonneg pending).
    pose proof (json_size_object_spec m (saturating_add 64 size 128) pending) as Hobj.
    assert (saturating_add 64 size 128 = size + 128) as Hsat
      by (unfold saturating_add, CONTROL_BYTES in *; lia).
    rewrite Hsat in *.
    assert (weights (JObject m :: pending) = 128 + keys_weight m + weights m.*2 + weights pending)
      as -> by (simpl; rewrite object_weight; lia).
    assert (CONTROL_BYTES < size + 128 + keys_weight m →
      Some usize_max = Some (capped (size + (128 + keys_weight m + weights m.*2 + weights pending))))
      as Hcap.
    { intros. unfold capped. by replace (_ <=? CONTROL_BYTES) with false by lia. }
    destruct (json_size_object m _ _) as [[size' pending']|].
    + destruct Hobj as [(Hle & -> & ->)|[Hgt Hgt']]; [unfold u64_max, CONTROL_BYTES in *; lia|..].
      * replace (_ <? _) with false by lia. rewrite IH; [|lia|rewrite nodes_app, nodes_rev; lia].
        rewrite weights_app, weights_rev. do 2 f_equal. lia.
      * replace (_ <? size') with true by lia. auto.
    + apply Hcap, Hobj. unfold u64_max, CONTROL_BYTES in *. lia.
Qed.

Lemma json_size_spec v :
  json_size_loop (value_nodes v) 0 [v] = Some (json_size v) ∧ json_size v = capped (json_weight v).
Proof.
  unfold json_size. rewrite json_size_loop_spec; [|done|simpl; lia].
  split; [done|]. simpl. by rewrite Z.add_0_r.
Qed.

(** The iterative size walk terminates on every value and computes the
    weight of the whole tree (128 bytes and the owned buffers per value, 128 and
    the key buffer per entry), or [usize::MAX] as soon as that exceeds the
    2 MiB control budget; no addition of it wraps. *)
Theorem json_size_exact v :
  json_size_loop (value_nodes v) 0 [v] = Some (json_size v) ∧
  json_size v = if json_weight v <=? CONTROL_BYTES then json_weight v else usize_max.
Proof. apply json_size_spec. Qed.
End sizes.

(** ** The channel *)

(** [Usage]: the arrays are indexed by the class, 0 control and 1 media. *)
Record Usage := { closed : bool; ubytes : list Z; ucount : list Z }.
Definition Usage_default : Usage := {| closed := false; ubytes := [0; 0]; ucount := [0; 0] |}.
Record Budget := { usage : Usage; bcapacity : Z }.

(** A delivery with its [Permit] (class and bytes). *)
Record EventDelivery := {
  d_event : option CallbackEvent;
  d_generation : Z;
  d_class : nat;
  d_bytes : Z;
}.
(** A producer handle is the generation it captured. *)
Record EventSender := { s_generation : Z }.
Definition for_generation (s : EventSender) (generation : Z) : EventSender :=
  {| s_generation := generation |}.

Section channel.
Context {C : Type → Type} `{Chan C} `{Layout}.

(** The shared state: the queues, the account, the [current] generation and the
    deliveries a dispatcher still owns. *)
Record Events := {
  control : C EventDelivery;
  media : C EventDelivery;
  current : Z;
  budget : Budget;
  owned : list EventDelivery;
}.

Definition event_channel (capacity : Z) : PortResult (EventSender * Events) :=
  if negb ((1 <=? capacity) && (capacity <=? 256))
  then Err "event capacity must be between 1 and 256" else
  Ok ({| s_generation := 0 |},
      {| control := bounded capacity; media := bounded (Z.min capacity 4); current := 0;
         budget := {| usage := Usage_default; bcapacity := capacity |}; owned := [] |}).

Definition with_queues (ch : Events) (c m : C EventDelivery) : Events :=
  {| control := c; media := m; current := current ch; budget := budget ch; owned := owned ch |}.
Definition with_usage (ch : Events) (u : Usage) : Events :=
  {| control := control ch; media := media ch; current := current ch;
     budget := {| usage := u; bcapacity := bcapacity (budget ch) |}; owned := owned ch |}.
Definition with_owned (ch : Events) (l : list EventDelivery) : Events :=
  {| control := control ch; media := media ch; current := current ch;
     budget := budget ch; owned := l |}.
Definition charge (u : Usage) (class : nat) (n k : Z) : Usage :=
  {| closed := closed u; ubytes := alter (Z.add n) class (ubytes u);
     ucount := alter (Z.add k) class (ucount u) |}.
(** [Permit::drop]. *)
Definition release (d : EventDelivery) (u : Usage) : Usage :=
  charge u (d_class d) (- d_bytes d) (-1).
Definition drop_delivery (d : EventDelivery) (ch : Events) : Events :=
  with_usage ch (release d (usage (budget ch))).

Definition set_generation (generation : Z) (ch : Events) : Events :=
  {| control := control ch; media := media ch; current := generation;
     budget := budget ch; owned := owned ch |}.

Definition is_current (ch : Events) (d : EventDelivery) : bool :=
  current ch =? d_generation d.

Definition byte_limit (class : nat) : Z :=
  match class with O => CONTROL_BYTES | _ => MEDIA_BYTES end.
Definition count_limit (capacity : Z) (class : nat) : Z :=
  match class with O => capacity | _ => Z.min capacity 4 end.

(** [EventSender::try_send]: [seen] is what the first, unlocked load of
    [current] read; the second load and the rest run under the usage lock. *)
Definition try_send (s : EventSender) (seen : Z) (event : CallbackEvent) (ch : Events) :
    result (TrySendError CallbackEvent) () * Events :=
  if negb (seen =? s_generation s) then (Err (Full event), ch) else
  let '(class, n) := event_size event in
  let u := usage (budget ch) in
  if closed u then (Err (Disconnected event), ch) else
  if negb (current ch =? s_generation s) then (Err (Full event), ch) else
  if (saturating_sub (byte_limit class) (ubytes u !!! class) <? n)
     || (count_limit (bcapacity (budget ch)) class <=? ucount u !!! class)
  then (Err (Full event), ch) else
  let delivery := {| d_event := Some event; d_generation := s_generation s;
                     d_class := class; d_bytes := n |} in
  let ch := with_usage ch (charge u class n 1) in
  match chan_send (match class with O => control ch | _ => media ch end) delivery with
  | Ok q => (Ok (), match class with O => with_queues ch q (media ch)
                                | _ => with_queues ch (control ch) q end)
  | Err (Full d) => (Err (Full event), drop_delivery d ch)
  | Err (Disconnected d) => (Err (Disconnected event), drop_delivery d ch)
  end.

(** [EventReceiver::try_delivery]: one iteration per unit of fuel; a stale
    delivery is dropped, a current one becomes owned by the caller. *)
Fixpoint try_delivery_loop (fuel : nat) (ch : Events) :
    result TryRecvError EventDelivery * Events :=
  match fuel with
  | O => (Err Empty, ch)
  | S fuel =>
      let next d ch :=
        if is_current ch d then (Ok d, with_owned ch (d :: owned ch))
        else try_delivery_loop fuel (drop_delivery d ch) in
      match chan_recv (control ch) with
      | Ok (d, q) => next d (with_queues ch q (media ch))
      | Err control_error =>
          match chan_recv (media ch) with
          | Ok (d, q) => next d (with_queues ch (control ch) q)
          | Err RecvDisconnected =>
              match control_error with
              | RecvDisconnected => (Err RecvDisconnected, ch)
              | Empty => (Err Empty, ch)
              end
          | Err Empty => (Err Empty, ch)
          end
      end
  end.
Definition queued (ch : Events) : list EventDelivery := contents (control ch) ++ contents (media ch).
Definition try_delivery (ch : Events) : result TryRecvError EventDelivery * Events :=
  try_delivery_loop (S (length (queued ch))) ch.

(** The end of a delivery's ownership: the [i]-th owned one is dropped. *)
Definition drop_owned (i : nat) (ch : Events) : Events :=
  match owned ch !! i with
  | Some d => drop_delivery d (with_owned ch (delete i (owned ch)))
  | None => ch
  end.
(** [take_event]: the event leaves its envelope, the permit stays. *)
Definition take_event (i : nat) (ch : Events) : option CallbackEvent * Events :=
  match owned ch !! i with
  | Some d =>
      (d_event d, with_owned ch (<[i := {| d_event := None; d_generation := d_generation d;
                                           d_class := d_class d; d_bytes := d_bytes d |}]> (owned ch)))
  | None => (None, ch)
  end.

(** [EventReceiver::drop]: closed, drained (each drained delivery releases its
    permit), then the receivers go away. *)
Definition drop_receiver (ch : Events) : Events :=
  let u := usage (budget ch) in
  let ch1 := with_usage ch {| closed := true; ubytes := ubytes u; ucount := ucount u |} in
  let ch2 := foldl (λ ch d, drop_delivery d ch) ch1 (queued ch1) in
  with_queues ch2 (close_rx (drain (control ch2))) (close_rx (drain (media ch2))).

(** Everything the threads do to the channel. *)
Inductive ev_op :=
  | SetGeneration (generation : Z)
  | TrySend (s : EventSender) (seen : Z) (event : CallbackEvent)
  | TryDelivery
  | TakeEvent (i : nat)
  | DropOwned (i : nat)
  | DropReceiver.
Definition ev_step (o : ev_op) (ch : Events) : Events :=
  match o with
  | SetGeneration g => set_generation g ch
  | TrySend s seen event => (try_send s seen event ch).2
  | TryDelivery => (try_delivery ch).2
  | TakeEvent i => (take_event i ch).2
  | DropOwned i => drop_owned i ch
  | DropReceiver => drop_receiver ch
  end.
Definition ev_run (l : list ev_op) (ch : Events) : Events := foldl (λ ch o, ev_step o ch) ch l.

(** [delivery_timeout]: between two looks at the queues other threads run
    ([during]) and the clock is read; [select_biased!] prefers control.  [None]:
    the listed waits did not end the call. *)
Record wait := { clock : Z; during : list ev_op }.
Fixpoint delivery_timeout (deadline : option Z) (waits : list wait) (ch : Events) :
    option (result (option TryRecvError) EventDelivery) * Events :=
  match try_delivery ch with
  | (Ok d, ch) => (Some (Ok d), ch)
  | (Err RecvDisconnected, ch) => (Some (Err (Some RecvDisconnected)), ch)
  | (Err Empty, ch) =>
      match waits with
      | [] => (None, ch)
      | w :: waits =>
          if match deadline with Some t => t <=? clock w | None => false end
          then (Some (Err None), ch) else
          let ch := ev_run (during w) ch in
          let take d ch :=
            if is_current ch d then (Some (Ok d), with_owned ch (d :: owned ch))
            else delivery_timeout deadline waits (drop_delivery d ch) in
          match chan_recv (control ch) with
          | Ok (d, q) => take d (with_queues ch q (media ch))
          | Err RecvDisconnected => (Some (Err (Some RecvDisconnected)), ch)
          | Err Empty =>
              match chan_recv (media ch) with
              | Ok (d, q) => take d (with_queues ch (control ch) q)
              | Err RecvDisconnected => (Some (Err (Some RecvDisconnected)), ch)
              | Err Empty => (Some (Err None), ch)
              end
          end
      end
  end.

(** [recv_delivery] has no deadline; its only error is the disconnection. *)
Definition recv_delivery (waits : list wait) (ch : Events) : option (option EventDelivery) * Events :=
  let '(r, ch) := delivery_timeout None waits ch in (ok <$> r, ch).
(** [try_recv], [recv_timeout], [recv]: the event leaves its delivery, which is
    dropped. *)
Definition surface {E} (r : result E EventDelivery) (ch : Events) : result E (option CallbackEvent) * Events :=
  match r with
  | Ok _ => let '(event, ch) := take_event 0 ch in (Ok event, drop_owned 0 ch)
  | Err e => (Err e, ch)
  end.
Definition try_recv (ch : Events) : result TryRecvError (option CallbackEvent) * Events :=
  let '(r, ch) := try_delivery ch in surface r ch.
(** [now] and [timeout]: the deadline, none when it is not representable. *)
Definition recv_timeout (now timeout : Z) (waits : list wait) (ch : Events) :
    option (result (option TryRecvError) (option CallbackEvent)) * Events :=
  match delivery_timeout (instant_checked_add now timeout) waits ch with
  | (Some r, ch) => let '(r, ch) := surface r ch in (Some r, ch)
  | (None, ch) => (None, ch)
  end.
Definition recv (waits : list wait) (ch : Events) :
    option (result (option TryRecvError) (option CallbackEvent)) * Events :=
  match delivery_timeout None waits ch with
  | (Some r, ch) => let '(r, ch) := surface r ch in (Some r, ch)
  | (None, ch) => (None, ch)
  end.

(** ** The account is exact and bounded *)
Definition live (ch : Events) : list EventDelivery := queued ch ++ owned ch.
Definition of_class (f : EventDelivery → Z) (class : nat) (l : list EventDelivery) : Z :=
  zsum ((λ d, if bool_decide (d_class d = class) then f d else 0) <$> l).
Definition account (l : list EventDelivery) : list Z * list Z :=
  ([of_class d_bytes 0 l; of_class d_bytes 1 l], [of_class (λ _, 1) 0 l; of_class (λ _, 1) 1 l]).
(** [u] charges exactly the deliveries [l]. *)
Definition charged (u : Usage) (l : list EventDelivery) : Prop := (ubytes u, ucount u) = account l.
Definition classes_ok (ch : Events) : Prop :=
  Forall (λ d, d_class d = 0%nat) (contents (control ch)) ∧
  Forall (λ d, d_class d = 1%nat) (contents (media ch)) ∧
  Forall (λ d, d_class d ≤ 1)%nat (owned ch).
Definition within_limits (cap : Z) (l : list EventDelivery) : Prop :=
  ∀ class, (class ≤ 1)%nat →
    of_class d_bytes class l ≤ byte_limit class ∧ of_class (λ _, 1) class l ≤ count_limit cap class.
Definition conf_ok (ch : Events) : Prop :=
  1 ≤ bcapacity (budget ch) ≤ 256 ∧
  chan_capacity (control ch) = bcapacity (budget ch) ∧
  chan_capacity (media ch) = Z.min (bcapacity (budget ch)) 4 ∧
  rx_open (control ch) = negb (closed (usage (budget ch))) ∧
  rx_open (media ch) = negb (closed (usage (budget ch))) ∧
  (closed (usage (budget ch)) = true → queued ch = []).

Record events_inv (ch : Events) : Prop := {
  inv_account : charged (usage (budget ch)) (live ch);
  inv_classes : classes_ok ch;
  inv_bytes : Forall (λ d, 0 ≤ d_bytes d) (live ch);
  inv_limits : within_limits (bcapacity (budget ch)) (live ch);
  inv_conf : conf_ok ch;
}.

Lemma of_class_cons f c d l :
  of_class f c (d :: l) = (if bool_decide (d_class d = c) then f d else 0) + of_class f c l.
Proof. done. Qed.
Lemma of_class_app f c l k : of_class f c (l ++ k) = of_class f c l + of_class f c k.
Proof. unfold of_class. by rewrite fmap_app, zsum_app. Qed.
Lemma of_class_perm f c l k : l ≡ₚ k → of_class f c l = of_class f c k.
Proof. intros Hp. unfold of_class. apply zsum_Permutation. by rewrite Hp. Qed.
Lemma of_class_nonneg f c l : Forall (λ d, 0 ≤ f d) l → 0 ≤ of_class f c l.
Proof.
  intros Hf. apply zsum_nonneg, Forall_fmap. eapply Forall_impl; [exact Hf|].
  intros d Hd. simpl in *. case_bool_decide; lia.
Qed.
Lemma of_class_all f c l : Forall (λ d, d_class d = c) l → of_class f c l = zsum (f <$> l).
Proof.
  induction 1 as [|d l Hd _ IH]; [done|]. rewrite of_class_cons, IH, fmap_cons.
  by rewrite bool_decide_true.
Qed.

Lemma charged_perm u l k : l ≡ₚ k → charged u l → charged u k.
Proof. unfold charged, account. intros Hp ->. by rewrite !(of_class_perm _ _ _ _ Hp). Qed.

Lemma charge_charged u l d :
  (d_class d ≤ 1)%nat → charged u l → charged (charge u (d_class d) (d_bytes d) 1) (d :: l).
Proof.
  unfold charged, account. intros Hc [= Hb Hk]. unfold charge. simpl. rewrite Hb, Hk.
  rewrite !of_class_cons. destruct (d_class d) as [|[|]]; [done|done|lia].
Qed.

Lemma release_charged u l d :
  (d_class d ≤ 1)%nat → charged u (d :: l) → charged (release d u) l.
Proof.
  unfold charged, account, release, charge. intros Hc [= Hb Hk]. simpl. rewrite Hb, Hk.
  rewrite !of_class_cons.
  assert (∀ a b c e a' b' c' e' : Z, a = a' → b = b' → c = c' → e = e' →
    ([a; b], [c; e]) = ([a'; b'], [c'; e'])) as Hpair by congruence.
  destruct (d_class d) as [|[|]]; [| |lia];
    repeat (rewrite bool_decide_true by done || rewrite bool_decide_false by done); simpl;
    apply Hpair; lia.
Qed.

(** Deliveries leave: everything else about the invariant carries over. *)
Lemma events_inv_shrink ch ch' ds :
  events_inv ch → live ch ≡ₚ ds ++ live ch' → charged (usage (budget ch')) (live ch') →
  classes_ok ch' → bcapacity (budget ch') = bcapacity (budget ch) → conf_ok ch' →
  events_inv ch'.
Proof.
  intros [_ _ Hb Hl _] Hp Ha Hc Hcap Hconf. rewrite Hp, Forall_app in Hb. destruct Hb as [Hds Hb].
  split; [done|done|done| |done]. intros class Hclass. rewrite Hcap.
  destruct (Hl class Hclass) as [Hl1 Hl2].
  rewrite (of_class_perm _ class _ _ Hp), of_class_app in Hl1.
  rewrite (of_class_perm _ class _ _ Hp), of_class_app in Hl2.
  pose proof (of_class_nonneg d_bytes class ds Hds).
  assert (0 ≤ of_class (λ _, 1) class ds); [|lia].
  by apply of_class_nonneg, Forall_true.
Qed.

Lemma event_channel_inv capacity s ch :
  event_channel capacity = Ok (s, ch) →
  events_inv ch ∧ s_generation s = current ch ∧ 1 ≤ capacity ≤ 256 ∧ live ch = [].
Proof.
  unfold event_channel. destruct (negb _) eqn:Hc; [done|]. bool_hyps. intros [= <- <-].
  assert (0 < capacity ∧ 0 < Z.min capacity 4) as [Hp1 Hp2] by lia.
  destruct (bounded_spec EventDelivery capacity Hp1) as (Hn & Hk & Hr & _).
  destruct (bounded_spec EventDelivery (Z.min capacity 4) Hp2) as (Hn' & Hk' & Hr' & _).
  assert (queued {| control := bounded capacity; media := bounded (capacity `min` 4); current := 0;
    budget := {| usage := Usage_default; bcapacity := capacity |}; owned := [] |} = []) as Hq.
  { unfold queued. simpl. by rewrite Hn, Hn'. }
  split_and!; [|done|lia|lia|unfold live; by rewrite Hq].
  split; unfold live, classes_ok, conf_ok; rewrite ?Hq; simpl; rewrite ?Hn, ?Hn', ?Hk, ?Hk', ?Hr, ?Hr'.
  - done.
  - by repeat constructor.
  - constructor.
  - intros [|[|]] ?; unfold of_class, byte_limit, CONTROL_BYTES, MEDIA_BYTES, count_limit; simpl; lia.
  - split_and!; done || lia.
Qed.

(** Popping a queue. *)
Lemma pop_live_control ch d q :
  chan_recv (control ch) = Ok (d, q) →
  live ch = d :: live (with_queues ch q (media ch)) ∧ contents (control ch) = d :: contents q.
Proof. intros (Hc & _)%chan_recv_Ok. unfold live, queued. simpl. by rewrite Hc. Qed.
Lemma pop_live_media ch d q :
  chan_recv (media ch) = Ok (d, q) →
  live ch ≡ₚ d :: live (with_queues ch (control ch) q) ∧ contents (media ch) = d :: contents q.
Proof.
  intros (Hc & _)%chan_recv_Ok. unfold live, queued. simpl. rewrite Hc. split; [|done].
  rewrite <- !app_assoc. symmetry. apply Permutation_middle.
Qed.

Definition queues_step (ch ch1 : Events) (d : EventDelivery) : Prop :=
  live ch ≡ₚ d :: live ch1 ∧ classes_ok ch1 ∧ conf_ok ch1 ∧ (d_class d ≤ 1)%nat ∧
  budget ch1 = budget ch ∧ current ch1 = current ch ∧ owned ch1 = owned ch.

Lemma pop_control ch d q :
  events_inv ch → chan_recv (control ch) = Ok (d, q) →
  queues_step ch (with_queues ch q (media ch)) d.
Proof.
  intros [_ (Hc & Hm & Ho) _ _ (Hcap & Hk & Hkm & Hr & Hrm & Hcl)] Hrecv.
  pose proof (pop_live_control _ _ _ Hrecv) as [Hl Hcc].
  apply chan_recv_Ok in Hrecv as (_ & Hqc & Hqr & _). rewrite Hcc in Hc. inversion_clear Hc.
  split_and!; [by rewrite Hl|split_and!; done| |lia|done..].
  unfold conf_ok. simpl. rewrite Hqc, Hqr. split_and!; [lia|lia|done..|].
  intros Hclosed. specialize (Hcl Hclosed). unfold queued in Hcl. by rewrite Hcc in Hcl.
Qed.

Lemma pop_media ch d q :
  events_inv ch → chan_recv (media ch) = Ok (d, q) →
  queues_step ch (with_queues ch (control ch) q) d.
Proof.
  intros [_ (Hc & Hm & Ho) _ _ (Hcap & Hk & Hkm & Hr & Hrm & Hcl)] Hrecv.
  pose proof (pop_live_media _ _ _ Hrecv) as [Hl Hcc].
  apply chan_recv_Ok in Hrecv as (_ & Hqc & Hqr & _). rewrite Hcc in Hm. inversion_clear Hm.
  split_and!; [done|split_and!; done| |lia|done..].
  unfold conf_ok. simpl. rewrite Hqc, Hqr. split_and!; [lia|lia|done..|].
  intros Hclosed. specialize (Hcl Hclosed). unfold queued in Hcl.
  rewrite Hcc in Hcl. by destruct (contents (control ch)).
Qed.

Lemma own_inv ch ch1 d :
  events_inv ch → queues_step ch ch1 d → events_inv (with_owned ch1 (d :: owned ch1)).
Proof.
  intros Hi (Hl & (Hc & Hm & Ho) & Hconf & Hd & Hb & _ & _).
  assert (live (with_owned ch1 (d :: owned ch1)) ≡ₚ live ch) as Hp.
  { rewrite Hl. unfold live, queued. simpl. by rewrite Permutation_middle. }
  apply (events_inv_shrink ch _ []); [done|by rewrite Hp| |..].
  - simpl. rewrite Hb. eapply charged_perm; [symmetry; exact Hp|apply Hi].
  - split_and!; [done|done|by constructor].
  - simpl. by rewrite Hb.
  - done.
Qed.

Lemma discard_inv ch ch1 d :
  events_inv ch → queues_step ch ch1 d → events_inv (drop_delivery d ch1).
Proof.
  intros Hi (Hl & Hc & Hconf & Hd & Hb & _ & _).
  apply (events_inv_shrink ch _ [d]); [done|done| |done|simpl; by rewrite Hb|done].
  simpl. rewrite Hb. apply release_charged; [done|].
  eapply charged_perm; [exact Hl|apply Hi].
Qed.

(** ** Admission *)
Lemma event_size_class event n c : event_size event = (c, n) → (c ≤ 1)%nat ∧ 0 ≤ n.
Proof.
  pose proof size_of_CallbackEvent_pos as Hbase. unfold event_size.
  destruct event as [t p|t p l|data w h|data r k|key r]; intros [= <- <-]; split; try lia.
  - pose proof (json_size_spec p) as [_ Hj]. pose proof (json_weight_pos p).
    pose proof (string_capacity_nonneg t). unfold capped, saturating_add, usize_max, u64_max in *.
    case_match; lia.
  - pose proof (json_size_spec p) as [_ Hj]. pose proof (json_weight_pos p).
    pose proof (string_capacity_nonneg t). pose proof (points_capacity_le l).
    pose proof (len_nonneg l). unfold capped, saturating_add, saturating_mul, usize_max, u64_max in *.
    case_match; lia.
  - pose proof (bytes_capacity_le data). pose proof (len_nonneg data).
    unfold saturating_add. lia.
  - pose proof (samples_capacity_le data). pose proof (len_nonneg data).
    unfold saturating_add, saturating_mul. lia.
  - pose proof (json_size_spec r) as [_ Hj]. pose proof (json_weight_pos r).
    pose proof (string_capacity_nonneg key). unfold capped, saturating_add, usize_max, u64_max in *.
    case_match; lia.
Qed.

Definition class_queue (ch : Events) (class : nat) : C EventDelivery :=
  match class with O => control ch | _ => media ch end.

Lemma charged_lookup u l c :
  charged u l → (c ≤ 1)%nat →
  ubytes u !!! c = of_class d_bytes c l ∧ ucount u !!! c = of_class (λ _, 1) c l.
Proof.
  unfold charged, account. intros [= Hb Hk] Hc. rewrite Hb, Hk.
  destruct c as [|[|]]; [done|done|lia].
Qed.

(** A class never has more queued deliveries than the account counts. *)
Lemma queue_within_count ch c :
  events_inv ch → (c ≤ 1)%nat →
  len (contents (class_queue ch c)) ≤ of_class (λ _, 1) c (live ch).
Proof.
  intros [_ (Hcc & Hcm & _) _ _ _] Hc. unfold live, queued. rewrite !of_class_app.
  assert (Hnn : ∀ l, 0 ≤ of_class (λ _, 1) c l) by (intros; by apply of_class_nonneg, Forall_true).
  assert (Hlen : ∀ l, Forall (λ d, d_class d = c) l → of_class (λ _, 1) c l = len l).
  { intros l Hl. rewrite of_class_all by done. clear. induction l as [|d l IH]; [done|].
    rewrite fmap_cons, len_cons. simpl. lia. }
  pose proof (Hnn (contents (control ch))). pose proof (Hnn (contents (media ch))).
  pose proof (Hnn (owned ch)).
  destruct c as [|[|]]; simpl; [rewrite <- (Hlen _ Hcc)|rewrite <- (Hlen _ Hcm)|]; lia.
Qed.

Definition admits_event (ch : Events) (c : nat) (n : Z) : bool :=
  (of_class d_bytes c (live ch) + n <=? byte_limit c) &&
  (of_class (λ _, 1) c (live ch) <? count_limit (bcapacity (budget ch)) c).

(** The whole behaviour of [try_send], from the deliveries alone. *)
Definition try_send_spec (s : EventSender) (seen : Z) (event : CallbackEvent) (ch : Events) :
    result (TrySendError CallbackEvent) () :=
  let '(c, n) := event_size event in
  if negb (seen =? s_generation s) then Err (Full event) else
  if closed (usage (budget ch)) then Err (Disconnected event) else
  if negb (current ch =? s_generation s) then Err (Full event) else
  if admits_event ch c n then Ok () else Err (Full event).

Definition delivery_of (s : EventSender) (event : CallbackEvent) : EventDelivery :=
  {| d_event := Some event; d_generation := s_generation s;
     d_class := (event_size event).1; d_bytes := (event_size event).2 |}.

(** The code's test, in terms of the deliveries. *)
Lemma admits_event_test ch c n :
  of_class d_bytes c (live ch) ≤ byte_limit c → 0 ≤ n →
  (saturating_sub (byte_limit c) (of_class d_bytes c (live ch)) <? n)
  || (count_limit (bcapacity (budget ch)) c <=? of_class (λ _, 1) c (live ch)) =
  negb (admits_event ch c n).
Proof.
  intros Hle Hn. unfold admits_event, saturating_sub. apply Bool.eq_iff_eq_true.
  rewrite orb_true_iff, negb_true_iff, andb_false_iff. lia.
Qed.

(** Charging an admitted delivery that enters a queue. *)
Lemma charge_inv ch ch' d :
  events_inv ch → (d_class d ≤ 1)%nat → 0 ≤ d_bytes d →
  of_class d_bytes (d_class d) (live ch) + d_bytes d ≤ byte_limit (d_class d) →
  of_class (λ _, 1) (d_class d) (live ch) < count_limit (bcapacity (budget ch)) (d_class d) →
  budget ch' = {| usage := charge (usage (budget ch)) (d_class d) (d_bytes d) 1;
                  bcapacity := bcapacity (budget ch) |} →
  live ch' ≡ₚ d :: live ch → classes_ok ch' → conf_ok ch' → events_inv ch'.
Proof.
  intros Hi Hc Hn Hbytes Hcount Hb Hp Hcls Hconf. split; [|done| | |done]; rewrite ?Hb; simpl.
  - eapply charged_perm; [symmetry; exact Hp|].
    apply (charge_charged (usage (budget ch)) (live ch) d Hc), Hi.
  - rewrite Hp. constructor; [done|apply Hi].
  - intros c' Hc'. rewrite !(of_class_perm _ _ _ _ Hp), !of_class_cons.
    destruct (inv_limits _ Hi c' Hc'). case_bool_decide; [subst c'|]; lia.
Qed.

Lemma try_send_refines s seen event ch :
  events_inv ch →
  (try_send s seen event ch).1 = try_send_spec s seen event ch ∧
  match try_send_spec s seen event ch with
  | Err _ => (try_send s seen event ch).2 = ch
  | Ok _ =>
      let ch' := (try_send s seen event ch).2 in
      let d := delivery_of s event in
      live ch' ≡ₚ d :: live ch ∧ contents (class_queue ch' (d_class d)) =
        contents (class_queue ch (d_class d)) ++ [d] ∧
      events_inv ch' ∧ current ch' = current ch ∧ owned ch' = owned ch
  end.
Proof.
  intros Hi. unfold try_send, try_send_spec, delivery_of.
  destruct (event_size event) as [c n] eqn:Hsz. simpl.
  destruct (event_size_class _ _ _ Hsz) as [Hc Hn].
  destruct (negb (seen =? _)); [done|].
  destruct (closed _) eqn:Hcl; [done|]. destruct (negb (current ch =? _)); [done|].
  pose proof (charged_lookup _ _ c (inv_account _ Hi) Hc) as [-> ->].
  destruct (inv_limits _ Hi c Hc) as [Hlb Hlc].
  rewrite admits_event_test by lia.
  destruct (admits_event ch c n) eqn:Had; simpl; [|done].
  unfold admits_event in Had. bool_hyps.
  set (d := {| d_event := Some event; d_generation := s_generation s; d_class := c; d_bytes := n |}).
  pose proof (queue_within_count ch c Hi Hc) as Hq.
  destruct (inv_conf _ Hi) as (Hcap & Hk & Hkm & Hr & Hrm & _).
  assert (chan_capacity (class_queue ch c) = count_limit (bcapacity (budget ch)) c ∧
    rx_open (class_queue ch c) = true) as [Hcapc Hrc].
  { destruct c; simpl; rewrite ?Hr, ?Hrm, ?Hcl; done. }
  destruct (send_ok _ (class_queue ch c) d Hrc) as (q & Hsend & Hcont & Hqcap & Hqrx & _); [lia|].
  unfold class_queue in Hsend. rewrite Hsend.
  pose proof (λ ch', charge_inv ch ch' d Hi Hc Hn) as Hinv.
  destruct (inv_classes _ Hi) as (Hc0 & Hc1 & Ho).
  destruct c as [|[|]]; [| |lia]; simpl in *; (split; [done|]).
  - assert (live (with_queues (with_usage ch (charge (usage (budget ch)) 0 n 1)) q (media ch)) ≡ₚ
      d :: live ch) as Hp.
    { unfold live, queued. simpl. rewrite Hcont, <- !app_assoc. simpl.
      by rewrite <- Permutation_middle. }
    split_and!; [done|done| |done|done]. apply Hinv; [simpl; lia|simpl; lia|done|done| |].
    + split_and!; [simpl; rewrite Hcont; apply Forall_app; by split; [|constructor]|done|done].
    + unfold conf_ok. simpl. rewrite Hcl in *. rewrite Hqcap, Hqrx. split_and!; done || lia.
  - assert (live (with_queues (with_usage ch (charge (usage (budget ch)) 1 n 1)) (control ch) q) ≡ₚ
      d :: live ch) as Hp.
    { unfold live, queued. simpl. rewrite Hcont, <- !app_assoc. simpl.
      rewrite (app_assoc (contents (control ch))), <- Permutation_middle. by rewrite <- app_assoc. }
    split_and!; [done|done| |done|done]. apply Hinv; [simpl; lia|simpl; lia|done|done| |].
    + split_and!; [done|simpl; rewrite Hcont; apply Forall_app; by split; [|constructor]|done].
    + unfold conf_ok. simpl. rewrite Hcl in *. rewrite Hqcap, Hqrx. split_and!; done || lia.
Qed.

(** An admitted event is charged, and only its own queue changes. *)
Lemma try_send_charges s seen event ch :
  (try_send s seen event ch).1 = Ok () →
  let d := delivery_of s event in
  usage (budget (try_send s seen event ch).2) = charge (usage (budget ch)) (d_class d) (d_bytes d) 1 ∧
  ∀ class, (class ≤ 1)%nat → class ≠ d_class d →
    contents (class_queue (try_send s seen event ch).2 class) = contents (class_queue ch class).
Proof.
  unfold try_send, delivery_of. destruct (event_size event) as [c n] eqn:Hsz. simpl.
  destruct (event_size_class _ _ _ Hsz) as [Hc _].
  repeat (case_match; try done); intros _; simpl; (split; [done|]); intros [|[|]] ? ?; done || lia.
Qed.

(** C25: [try_send] decides by the generation, the closed flag and the bytes and
    number of the deliveries that are queued or owned: within the budgets the
    event is the last one of the queue of its class (the bounded queue itself is
    never full), the other queue and what the receiver owns are as they were, and
    exactly its bytes and one delivery are charged; a rejected event is handed back
    and nothing changes. *)
Theorem try_send_exact s seen event ch :
  events_inv ch →
  (try_send s seen event ch).1 = try_send_spec s seen event ch ∧
  (try_send_spec s seen event ch = Ok () →
   let ch' := (try_send s seen event ch).2 in
   let d := delivery_of s event in
   (∀ class, (class ≤ 1)%nat →
      contents (class_queue ch' class) =
      contents (class_queue ch class) ++ (if decide (class = d_class d) then [d] else [])) ∧
   owned ch' = owned ch ∧ current ch' = current ch ∧
   usage (budget ch') = charge (usage (budget ch)) (d_class d) (d_bytes d) 1) ∧
  (try_send_spec s seen event ch ≠ Ok () → (try_send s seen event ch).2 = ch).
Proof.
  intros Hi. destruct (try_send_refines s seen event ch Hi) as [Hr Hs].
  split_and!; [done| |]; destruct (try_send_spec s seen event ch) as [[]|e] eqn:Hsp; try done.
  intros _. destruct Hs as (_ & Hq & _ & Hcur & Ho). destruct (try_send_charges s seen event ch Hr) as [Hu Hother].
  split_and!; [|done..]. intros class Hc. destruct (decide _) as [->|Hne]; [done|]. rewrite app_nil_r. by apply Hother.
Qed.

(** ** Delivery *)
Lemma try_delivery_loop_S fuel ch :
  events_inv ch →
  (queued ch = [] ∧ ∃ e, try_delivery_loop (S fuel) ch = (Err e, ch)) ∨
  (∃ d ch1, queues_step ch ch1 d ∧ queued ch = d :: queued ch1 ∧
     try_delivery_loop (S fuel) ch =
     if is_current ch1 d then (Ok d, with_owned ch1 (d :: owned ch1))
     else try_delivery_loop fuel (drop_delivery d ch1)).
Proof.
  intros Hi. simpl. destruct (chan_recv (control ch)) as [[d q]|e] eqn:Hc.
  - right. exists d, (with_queues ch q (media ch)). split_and!; [by apply pop_control| |done].
    pose proof (pop_live_control _ _ _ Hc) as [_ Hq]. unfold queued. simpl. by rewrite Hq.
  - apply chan_recv_Err in Hc as [Hc _].
    destruct (chan_recv (media ch)) as [[d q]|e'] eqn:Hm.
    + right. exists d, (with_queues ch (control ch) q). split_and!; [by apply pop_media| |done].
      pose proof (pop_live_media _ _ _ Hm) as [_ Hq]. unfold queued. simpl. by rewrite Hc, Hq.
    + left. apply chan_recv_Err in Hm as [Hm _]. split; [unfold queued; by rewrite Hc, Hm|].
      destruct e, e'; eauto.
Qed.

Definition delivered (ch : Events) (r : result TryRecvError EventDelivery * Events) : Prop :=
  events_inv r.2 ∧ current r.2 = current ch ∧
  match r.1 with
  | Ok d =>
      ∃ stale, queued ch = stale ++ d :: queued r.2 ∧ owned r.2 = d :: owned ch ∧
        is_current ch d = true ∧ Forall (λ d, is_current ch d = false) stale
  | Err _ =>
      queued r.2 = [] ∧ owned r.2 = owned ch ∧ Forall (λ d, is_current ch d = false) (queued ch)
  end.

Lemma try_delivery_loop_spec fuel ch :
  events_inv ch → (length (queued ch) < fuel)%nat → delivered ch (try_delivery_loop fuel ch).
Proof.
  revert ch. induction fuel as [|fuel IH]; intros ch Hi Hf; [lia|].
  destruct (try_delivery_loop_S fuel ch Hi) as [[Hq [e ->]]|(d & ch1 & Hs & Hq & ->)].
  { split_and!; [done|done|]. simpl. rewrite Hq. by split_and!. }
  pose proof Hs as (_ & _ & _ & _ & _ & Hcur & Hown).
  assert (is_current ch1 d = is_current ch d) as -> by (unfold is_current; by rewrite Hcur).
  destruct (is_current ch d) eqn:Hd.
  { split_and!; [by apply (own_inv ch)|done|]. exists [].
    split_and!; [done|simpl; by rewrite Hown|done|constructor]. }
  specialize (IH (drop_delivery d ch1) (discard_inv _ _ _ Hi Hs)).
  change (queued (drop_delivery d ch1)) with (queued ch1) in IH. rewrite Hq in Hf. simpl in Hf.
  destruct IH as (Hi' & Hc' & Hr); [lia|]. split_and!; [done|by rewrite Hc'|].
  assert (∀ l, Forall (λ d0, is_current (drop_delivery d ch1) d0 = false) l →
    Forall (λ d0, is_current ch d0 = false) l) as Hst.
  { intros l Hl. eapply Forall_impl; [exact Hl|]. intros x. unfold is_current. simpl. by rewrite Hcur. }
  destruct (try_delivery_loop fuel (drop_delivery d ch1)) as [[d'|e] ch']; simpl in *.
  - destruct Hr as (stale & Hq' & Ho & Hd' & Hall). change (queued (drop_delivery d ch1)) with (queued ch1) in Hq'.
    exists (d :: stale). rewrite Hq, Hq', Ho, Hown. split_and!; [done|done| |].
    + unfold is_current in *. simpl in Hd'. by rewrite Hcur in Hd'.
    + constructor; [done|]. by apply Hst.
  - destruct Hr as (Hq' & Ho & Hall). rewrite Ho, Hown, Hq. split_and!; [done|done|].
    constructor; [done|]. by apply Hst.
Qed.

(** [try_delivery] returns the first delivery of the current generation,
    control deliveries before media ones, drops exactly the stale ones in front
    of it, and reports an error only when every queued delivery is stale. *)
Theorem try_delivery_first_current ch :
  events_inv ch →
  match try_delivery ch with
  | (Ok d, ch') =>
      ∃ stale, contents (control ch) ++ contents (media ch) =
          stale ++ d :: contents (control ch') ++ contents (media ch') ∧
        d_generation d = current ch ∧ Forall (λ d, d_generation d ≠ current ch) stale ∧
        owned ch' = d :: owned ch
  | (Err _, ch') =>
      Forall (λ d, d_generation d ≠ current ch) (contents (control ch) ++ contents (media ch)) ∧
      contents (control ch') ++ contents (media ch') = [] ∧ owned ch' = owned ch
  end.
Proof.
  intros Hi. pose proof (try_delivery_loop_spec (S (length (queued ch))) ch Hi) as Hr.
  unfold try_delivery. destruct Hr as (_ & _ & Hr); [lia|].
  assert (∀ l, Forall (λ d, is_current ch d = false) l →
    Forall (λ d, d_generation d ≠ current ch) l) as Hst.
  { intros l Hl. eapply Forall_impl; [exact Hl|]. intros x. unfold is_current. simpl. lia. }
  destruct (try_delivery_loop _ ch) as [[d|e] ch']; simpl in *.
  - destruct Hr as (stale & Hq & Ho & Hd & Hall). exists stale.
    split_and!; [done| |by apply Hst|done]. unfold is_current in Hd. lia.
  - destruct Hr as (? & ? & ?). split_and!; [by apply Hst|done|done].
Qed.

(** ** Every reachable state *)
Lemma set_generation_inv g ch : events_inv ch → events_inv (set_generation g ch).
Proof. by intros []. Qed.

Lemma drop_owned_inv i ch : events_inv ch → events_inv (drop_owned i ch).
Proof.
  intros Hi. unfold drop_owned. destruct (owned ch !! i) as [d|] eqn:Hd; [|done].
  assert (owned ch ≡ₚ d :: delete i (owned ch)) as Hp by by apply delete_Permutation.
  destruct (inv_classes _ Hi) as (Hc & Hm & Ho). rewrite Hp in Ho. inversion_clear Ho.
  assert (live ch ≡ₚ d :: live (with_owned ch (delete i (owned ch)))) as Hl.
  { unfold live, queued. simpl. rewrite Hp at 1. by rewrite Permutation_middle. }
  apply (events_inv_shrink ch _ [d]); [done|done| |done|done|].
  - simpl. apply release_charged; [done|]. eapply charged_perm; [exact Hl|apply Hi].
  - apply Hi.
Qed.

Lemma take_event_inv i ch : events_inv ch → events_inv (take_event i ch).2.
Proof.
  intros Hi. unfold take_event. destruct (owned ch !! i) as [d|] eqn:Hd; [|done]. simpl.
  set (d' := {| d_event := None; d_generation := _; d_class := _; d_bytes := _ |}).
  assert (owned ch ≡ₚ d :: delete i (owned ch)) as Hp by by apply delete_Permutation.
  assert (<[i:=d']> (owned ch) ≡ₚ d' :: delete i (owned ch)) as Hp'.
  { rewrite insert_take_drop, delete_take_drop by (by eapply lookup_lt_Some).
    symmetry. apply Permutation_middle. }
  assert (∃ l, live ch ≡ₚ d :: l ∧ live (with_owned ch (<[i:=d']> (owned ch))) ≡ₚ d' :: l)
    as (l & Hl & Hl').
  { exists (queued ch ++ delete i (owned ch)). unfold live. simpl. split.
    - rewrite Hp at 1. by rewrite Permutation_middle.
    - change (queued (with_owned ch (<[i:=d']> (owned ch)))) with (queued ch).
      rewrite Hp'. by rewrite Permutation_middle. }
  assert (∀ f c, f d' = f d →
    of_class f c (live (with_owned ch (<[i:=d']> (owned ch)))) = of_class f c (live ch)) as Hof.
  { intros f c Hf. by rewrite (of_class_perm f c _ _ Hl), (of_class_perm f c _ _ Hl'), !of_class_cons, Hf. }
  destruct Hi as [Ha (Hc & Hm & Ho) Hb Hlim Hconf]. split; [| | | |done].
  - unfold charged, account in *. simpl. rewrite !Hof by done. done.
  - split_and!; [done|done|]. simpl. rewrite Hp'. rewrite Hp in Ho. inversion_clear Ho. by constructor.
  - rewrite Hl'. rewrite Hl in Hb. inversion_clear Hb. by constructor.
  - intros c Hc'. rewrite !Hof by done. by apply Hlim.
Qed.

(** The drained deliveries release exactly their charges. *)
Lemma release_all l : ∀ ch k,
  Forall (λ d, d_class d ≤ 1)%nat l → charged (usage (budget ch)) (l ++ k) →
  let ch' := foldl (λ ch d, drop_delivery d ch) ch l in
  charged (usage (budget ch')) k ∧ control ch' = control ch ∧ media ch' = media ch ∧
  owned ch' = owned ch ∧ current ch' = current ch ∧
  bcapacity (budget ch') = bcapacity (budget ch) ∧
  closed (usage (budget ch')) = closed (usage (budget ch)).
Proof.
  induction l as [|d l IH]; intros ch k Hf Hc; simpl; [done|]. inversion_clear Hf.
  apply (IH (drop_delivery d ch)); [done|]. by apply release_charged.
Qed.

Lemma drop_receiver_spec ch :
  events_inv ch →
  let ch' := drop_receiver ch in
  events_inv ch' ∧ closed (usage (budget ch')) = true ∧ live ch' = owned ch ∧ owned ch' = owned ch.
Proof.
  intros Hi ch'. pose proof Hi as [Ha Hcls Hb Hl (Hcap & Hk & Hkm & Hr & Hrm & Hcl)].
  set (ch1 := with_usage ch {| closed := true; ubytes := ubytes (usage (budget ch));
                               ucount := ucount (usage (budget ch)) |}).
  assert (Forall (λ d, d_class d ≤ 1)%nat (queued ch1)) as Hq.
  { destruct Hcls as (Hc & Hm & _). apply Forall_app.
    split; [eapply Forall_impl; [exact Hc|]|eapply Forall_impl; [exact Hm|]]; simpl; lia. }
  destruct (release_all (queued ch1) ch1 (owned ch) Hq Ha) as (Hc2 & Hco & Hme & Ho & _ & Hbc & Hcl2).
  unfold drop_receiver in ch'. fold ch1 in ch'.
  set (ch2 := foldl (λ ch d, drop_delivery d ch) ch1 (queued ch1)) in *.
  destruct (drain_spec (control ch2)) as (Hd & Hdk & _ & _).
  destruct (drain_spec (media ch2)) as (Hdm & Hdkm & _ & _).
  destruct (close_rx_spec _ (drain (control ch2))) as (_ & Hxk & Hxr & _).
  destruct (close_rx_spec _ (drain (media ch2))) as (_ & Hyk & Hyr & _).
  pose proof (close_rx_nil _ Hd) as Hx. pose proof (close_rx_nil _ Hdm) as Hy.
  assert (queued ch' = []) as Hq' by (unfold queued; simpl; by rewrite Hx, Hy).
  assert (live ch' = owned ch) as Hlive by (unfold live; rewrite Hq'; simpl; done).
  split_and!; [|exact Hcl2|done|exact Ho].
  apply (events_inv_shrink ch _ (queued ch)); [done|by rewrite Hlive| | |exact Hbc|].
  - rewrite Hlive. exact Hc2.
  - split_and!; simpl; [by rewrite Hx|by rewrite Hy|]. rewrite Ho. apply Hcls.
  - unfold conf_ok. rewrite Hq'. simpl.
    rewrite Hxk, Hyk, Hxr, Hyr, Hdk, Hdkm, Hco, Hme, Hcl2, Hbc. subst ch1. simpl. split_and!; done || lia.
Qed.

Lemma ev_step_inv o ch : events_inv ch → events_inv (ev_step o ch).
Proof.
  intros Hi. destruct o as [g|s seen event| |i|i|]; simpl.
  - by apply set_generation_inv.
  - destruct (try_send_refines s seen event ch Hi) as [_ Hs].
    destruct (try_send_spec s seen event ch); [apply Hs|by rewrite Hs].
  - apply (try_delivery_loop_spec (S (length (queued ch))) ch Hi). lia.
  - by apply take_event_inv.
  - by apply drop_owned_inv.
  - by apply drop_receiver_spec.
Qed.

Lemma ev_run_inv l ch : events_inv ch → events_inv (ev_run l ch).
Proof. revert ch. induction l as [|o l IH]; intros ch Hi; [done|]. by apply IH, ev_step_inv. Qed.

(** Where the deliveries of a step come from. *)
Lemma ev_step_live o ch d :
  events_inv ch → d ∈ live (ev_step o ch) →
  d ∈ live ch ∨ d_event d = None ∨ ∃ s seen event, o = TrySend s seen event ∧ d = delivery_of s event.
Proof.
  intros Hi. destruct o as [g|s seen event| |i|i|]; simpl.
  - by left.
  - destruct (try_send_refines s seen event ch Hi) as [_ Hs].
    destruct (try_send_spec s seen event ch); [|rewrite Hs; by left].
    destruct Hs as (-> & _). intros [->|?]%elem_of_cons; [|by left]. right; right. eauto.
  - pose proof (try_delivery_loop_spec (S (length (queued ch))) ch Hi ltac:(lia)) as (_ & _ & Hr).
    fold (try_delivery ch) in Hr. destruct (try_delivery ch) as [[d'|e] ch']; simpl in *.
    + destruct Hr as (stale & Hq & Ho & _). unfold live. rewrite Hq, Ho. set_solver.
    + destruct Hr as (Hq & Ho & _). unfold live. rewrite Hq, Ho. set_solver.
  - unfold take_event. destruct (owned ch !! i) as [d'|] eqn:Ho; simpl; [|by left].
    unfold live. rewrite !elem_of_app. intros [?|Hin]; [by left; left|].
    apply list_elem_of_lookup in Hin as [j Hj]. simpl in Hj.
    apply list_lookup_insert_Some in Hj as [(_ & <- & _)|[_ Hj]]; [by right; left|].
    left; right. by eapply list_elem_of_lookup_2.
  - unfold drop_owned. destruct (owned ch !! i) as [d'|] eqn:Ho; [|by left].
    unfold live. simpl. rewrite !elem_of_app. intros [?|Hin]; left; [by left|right].
    eapply elem_of_submseteq; [exact Hin|]. apply sublist_submseteq, sublist_delete.
  - destruct (drop_receiver_spec ch Hi) as (_ & _ & -> & _). unfold live. rewrite elem_of_app. auto.
Qed.

(** C24: after any sequence of sends, deliveries, extractions, drops and
    generation changes on a fresh channel, the account is exactly the bytes and
    number of the deliveries that are queued or owned, and stays within 2 MiB of
    control and 32 MiB of media and within the configured counts. *)
Theorem events_bounded capacity s ch l c :
  event_channel capacity = Ok (s, ch) → (c ≤ 1)%nat →
  let ch' := ev_run l ch in
  ubytes (usage (budget ch')) !!! c = of_class d_bytes c (live ch') ∧
  ucount (usage (budget ch')) !!! c = of_class (λ _, 1) c (live ch') ∧
  0 ≤ of_class d_bytes c (live ch') ≤ byte_limit c ∧
  0 ≤ of_class (λ _, 1) c (live ch') ≤ count_limit (bcapacity (budget ch')) c.
Proof.
  intros (Hi & _)%event_channel_inv Hc ch'. assert (events_inv ch') as Hi' by by apply ev_run_inv.
  destruct (charged_lookup _ _ c (inv_account _ Hi') Hc) as [-> ->].
  destruct (inv_limits _ Hi' c Hc). split_and!; try done.
  - apply of_class_nonneg, Hi'.
  - by apply of_class_nonneg, Forall_true.
Qed.

Lemma ev_step_closed o ch :
  events_inv ch → closed (usage (budget ch)) = true →
  closed (usage (budget (ev_step o ch))) = true.
Proof.
  intros Hi Hcl. destruct o as [g|s seen event| |i|i|]; simpl; [done|..].
  - unfold try_send. destruct (event_size event). rewrite Hcl. by destruct (negb _).
  - unfold try_delivery.
    destruct (try_delivery_loop_S (length (queued ch)) ch Hi) as [[_ [e ->]]|(d & ch1 & _ & Hq & _)];
      [done|]. destruct (inv_conf _ Hi) as (_ & _ & _ & _ & _ & Hx).
    rewrite (Hx Hcl) in Hq. done.
  - unfold take_event. by destruct (owned ch !! i).
  - unfold drop_owned. by destruct (owned ch !! i).
  - by destruct (drop_receiver_spec ch Hi) as (_ & ? & _).
Qed.

(** Once the receiver is dropped nothing is queued any more, whatever the
    producers that are still alive do, and the account holds only what
    dispatchers still own. *)
Theorem receiver_drop_retains_nothing l ch :
  events_inv ch →
  let ch' := ev_run l (drop_receiver ch) in
  contents (control ch') = [] ∧ contents (media ch') = [] ∧
  (ubytes (usage (budget ch')), ucount (usage (budget ch'))) = account (owned ch').
Proof.
  intros Hi. destruct (drop_receiver_spec ch Hi) as (Hi' & Hcl & _).
  revert Hi' Hcl. generalize (drop_receiver ch). clear ch Hi.
  induction l as [|o l IH]; intros ch Hi Hcl; simpl.
  - destruct (inv_conf _ Hi) as (_ & _ & _ & _ & _ & Hx). specialize (Hx Hcl).
    pose proof (inv_account _ Hi) as Ha. unfold live in Ha. rewrite Hx in Ha.
    unfold queued in Hx. by apply app_nil in Hx as [-> ->].
  - apply IH; [by apply ev_step_inv|by apply ev_step_closed].
Qed.

(** A blocking receive, with any activity of other threads while it waits,
    only returns a delivery of the generation that is current at that moment,
    and keeps its permit charged until the owner drops it. *)
Theorem recv_returns_current deadline waits ch d ch' :
  events_inv ch → delivery_timeout deadline waits ch = (Some (Ok d), ch') →
  d_generation d = current ch' ∧ events_inv ch' ∧ d ∈ owned ch'.
Proof.
  revert ch. induction waits as [|w waits IH]; intros ch Hi; cbn [delivery_timeout];
    pose proof (try_delivery_loop_spec (S (length (queued ch))) ch Hi) as Hr;
    fold (try_delivery ch) in Hr; destruct Hr as (Hi1 & Hc1 & Hr); [lia| |lia|];
    destruct (try_delivery ch) as [[d1|[|]] ch1]; simpl in *; try done.
  1,2: destruct Hr as (stale & _ & Ho & Hd & _); intros [= <- <-]; rewrite Ho, Hc1;
    unfold is_current in Hd; split_and!; [lia|done|left].
  clear Hr. destruct (match deadline with Some t => _ | None => false end); [done|].
  assert (events_inv (ev_run (during w) ch1)) as Hi2 by by apply ev_run_inv.
  revert Hi2. generalize (ev_run (during w) ch1). intros ch2 Hi2.
  assert (Htake : ∀ d0 ch3, queues_step ch2 ch3 d0 →
    (if is_current ch3 d0 then (Some (Ok d0), with_owned ch3 (d0 :: owned ch3))
     else delivery_timeout deadline waits (drop_delivery d0 ch3)) = (Some (Ok d), ch') →
    d_generation d = current ch' ∧ events_inv ch' ∧ d ∈ owned ch').
  { intros d0 ch3 Hs. destruct (is_current ch3 d0) eqn:Hd.
    - intros [= <- <-]. unfold is_current in Hd. simpl.
      split_and!; [lia|by apply (own_inv ch2)|left].
    - apply IH. by apply (discard_inv ch2). }
  destruct (chan_recv (control ch2)) as [[d0 q]|[|]] eqn:Hc; [| |done].
  - apply (Htake d0 (with_queues ch2 q (media ch2))). by apply pop_control.
  - destruct (chan_recv (media ch2)) as [[d0 q]|[|]] eqn:Hm; [|done|done].
    apply (Htake d0 (with_queues ch2 (control ch2) q)). by apply pop_media.
Qed.
End channel.
Arguments Events : clear implicits.

(** ** Instances *)

(** Exact-fit buffers on a 64-bit target. *)
#[local] Program Instance exact_layout : Layout := {|
  size_of_Value := 32; size_of_CallbackEvent := 96;
  string_capacity := slen; values_capacity := len; points_capacity := len;
  bytes_capacity := len; samples_capacity := len |}.
Solve All Obligations with intros; simpl; lia.

Definition demo_channel : Events vec_chan :=
  {| control := bounded 8; media := bounded 4; current := 1;
     budget := {| usage := Usage_default; bcapacity := 8 |}; owned := [] |}.
Definition demo_sender : EventSender := {| s_generation := 1 |}.
Definition demo_event : CallbackEvent := TopicCallback "rt/lowstate" (JBool true).
Definition demo_stale : ev_op := TrySend {| s_generation := 0 |} 0 demo_event.

Lemma demo_inv : events_inv demo_channel.
Proof.
  assert (event_channel 8 = Ok ({| s_generation := 0 |}, set_generation 0 demo_channel)) as Hc
    by reflexivity.
  apply event_channel_inv in Hc as (Hi & _). exact (set_generation_inv 1 _ Hi).
Qed.

Lemma try_send_exact_witness :
  (try_send demo_sender 1 demo_event demo_channel).1 = Ok () ∧
  contents (control (try_send demo_sender 1 demo_event demo_channel).2) = [delivery_of demo_sender demo_event].
Proof.
  destruct (try_send_exact demo_sender 1 demo_event demo_channel demo_inv) as (H1 & H2 & _).
  split; [rewrite H1; vm_compute; reflexivity|].
  exact (proj1 (H2 eq_refl) 0%nat (Nat.le_0_l 1)).
Defined.

Lemma try_delivery_first_current_witness :
  match try_delivery (ev_run [TrySend demo_sender 1 demo_event; SetGeneration 2] demo_channel) with
  | (Ok _, _) => False
  | (Err _, ch') => owned ch' = []
  end.
Proof.
  exact (proj2 (proj2 (try_delivery_first_current
    (ev_run [TrySend demo_sender 1 demo_event; SetGeneration 2] demo_channel)
    (ev_run_inv _ _ demo_inv)))).
Defined.

Lemma events_bounded_witness :
  ucount (usage (budget (ev_run [TrySend {| s_generation := 0 |} 0 demo_event; TryDelivery]
    (set_generation 0 demo_channel)))) !!! 0%nat = 1.
Proof.
  destruct (events_bounded (C:=vec_chan) 8 {| s_generation := 0 |} (set_generation 0 demo_channel)
    [TrySend {| s_generation := 0 |} 0 demo_event; TryDelivery] 0 eq_refl ltac:(lia)) as (_ & Hk & _).
  rewrite Hk. vm_compute. reflexivity.
Defined.

Lemma receiver_drop_retains_nothing_witness :
  contents (control (ev_run [TrySend demo_sender 1 demo_event]
    (drop_receiver (ev_run [TrySend demo_sender 1 demo_event] demo_channel)))) = [].
Proof.
  exact (proj1 (receiver_drop_retains_nothing [TrySend demo_sender 1 demo_event]
    (ev_run [TrySend demo_sender 1 demo_event] demo_channel) (ev_run_inv _ _ demo_inv))).
Defined.

Lemma recv_returns_current_witness :
  d_generation (delivery_of demo_sender demo_event) =
  current (delivery_timeout None [{| clock := 0; during := [TrySend demo_sender 1 demo_event] |}]
    demo_channel).2.
Proof.
  exact (proj1 (recv_returns_current None
    [{| clock := 0; during := [TrySend demo_sender 1 demo_event] |}] demo_channel
    (delivery_of demo_sender demo_event) _ demo_inv eq_refl)).
Defined.
