(* ===== verification/Lidar.v ===== *)
(** * LiDAR decoding (src/src/datachannel/lidar/)

    codec.rs: the admission of a bitmap's geometry, the LZ4 step (external:
    [Lz4]) and the extraction of its set voxels; service.rs: the request
    metadata, the bounded worker queue and one worker iteration.  The theorems:
    the bit-twiddling decoder computes exactly the voxels of the set bits in
    wire order, within its budgets, and a worker only ever emits points of the
    generation that is current. *)
From S2P Require Import Prelude Floats Json Channel Diagnostics Events.
#[local] Open Scope Z_scope.

(** ** codec.rs *)
Definition MAX_BITMAP_BYTES : Z := 1024 * 1024.
Definition MAX_COMPRESSED_BYTES : Z := MAX_BITMAP_BYTES + MAX_BITMAP_BYTES / 255 + 16.
Definition MAX_POINTS : Z := 1000000.
Definition BYTES_PER_ROW : Z := 16.
Definition BYTES_PER_SLICE : Z := 2048.

(** [lz4_flex::block::decompress], with the [Display] of its error. *)
Class Lz4 := { lz4_decompress : bytes → Z → result string bytes }.

Definition decompress_lz4 `{Lz4} (compressed : bytes) (decompressed_size : Z) :
    result string bytes :=
  if (MAX_BITMAP_BYTES <? decompressed_size) || (MAX_COMPRESSED_BYTES <? len compressed)
  then Err "LiDAR compressed/decompressed size exceeds resource budget"
  else map_err (λ e, "lz4 decompress failed: " +:+ e) (lz4_decompress compressed decompressed_size).

(** [[f64; 3]]. *)
Abbreviation origin3 := (f64 * f64 * f64)%type.

Definition axis_invalid (resolution : f32) (v : f64) (index : Z) : bool :=
  negb (is_finite v) || negb (is_finite (F32.of_f64 v))
  || negb (is_finite (F32.add (F32.of_f64 v) (F32.mul (F32.of_Z index) resolution))).

Definition validate_geometry (size : Z) (origin : origin3) (resolution : f64) : result string () :=
  if (MAX_BITMAP_BYTES <? size) || negb (is_finite resolution) || le_zero resolution
  then Err "Invalid LiDAR size or resolution" else
  let resolution := F32.of_f64 resolution in
  let '(ox, oy, oz) := origin in
  if negb (is_finite resolution) || le_zero resolution
     || axis_invalid resolution ox (BYTES_PER_ROW * 8 - 1)
     || axis_invalid resolution oy (BYTES_PER_SLICE / BYTES_PER_ROW - 1)
     || axis_invalid resolution oz (saturating_sub size 1 / BYTES_PER_SLICE)
  then Err "LiDAR coordinates exceed finite f32 range"
  else Ok ().

(** [u8::count_ones]. *)
Definition count_ones (b : byte) : Z :=
  zsum ((λ i, if Z.testbit b i then 1 else 0) <$> seqZ 0 8).
(** The [try_fold] with [checked_add]. *)
Definition count_points (buffer : bytes) : option Z :=
  foldl (λ acc b, count ← acc; checked_add 64 count (count_ones b)) (Some 0) buffer.

(** The [while bits != 0] loop; [emit] pushes the point of a column. *)
Fixpoint bit_loop (fuel : nat) (bits bit_offset : Z) (emit : Z → list f32) (points : list f32) :
    list f32 :=
  match fuel with
  | O => points
  | S fuel =>
      if bits =? 0 then points else
      let points := if negb (Z.land bits 128 =? 0) then points ++ emit bit_offset else points in
      bit_loop fuel (Z.land (Z.shiftl bits 1) 255) (bit_offset + 1) emit points
  end.

Definition point (resolution : f32) (origin : f32 * f32 * f32) (x y z : Z) : list f32 :=
  let '(ox, oy, oz) := origin in
  [F32.add (F32.mul (F32.of_Z x) resolution) ox;
   F32.add (F32.mul (F32.of_Z y) resolution) oy;
   F32.add (F32.mul (F32.of_Z z) resolution) oz].

(** One iteration of the loop over the bytes; the state is the byte index and
    the points.  A [u8] has 8 bits: 8 units of fuel. *)
Definition byte_step (resolution : f32) (origin : f32 * f32 * f32)
    (st : Z * list f32) (byte_value : byte) : Z * list f32 :=
  let '(byte_index, points) := st in
  if byte_value =? 0 then (byte_index + 1, points) else
  let z := byte_index / BYTES_PER_SLICE in
  let n_slice := byte_index mod BYTES_PER_SLICE in
  let y := n_slice / BYTES_PER_ROW in
  let x_base := n_slice mod BYTES_PER_ROW * 8 in
  (byte_index + 1,
   bit_loop 8 byte_value 0 (λ off, point resolution origin (x_base + off) y z) points).

Definition bits_to_points_optimized (buffer : bytes) (origin : origin3) (resolution : f64) :
    result string (list f32) :=
  _ ← validate_geometry (len buffer) origin resolution;
  point_count ← ok_or "LiDAR point count overflow" (count_points buffer);
  if MAX_POINTS <? point_count then Err "LiDAR point count exceeds resource budget" else
  _ ← ok_or "LiDAR output size overflow" (checked_mul 64 point_count 3);
  let '(ox, oy, oz) := origin in
  let resolution := F32.of_f64 resolution in
  let origin := (F32.of_f64 ox, F32.of_f64 oy, F32.of_f64 oz) in
  Ok (foldl (byte_step resolution origin) (0, []) buffer).2.

(** *** The voxels of a bitmap

    Bit [i] of the wire order (most significant first) is the voxel at column
    [i mod 128], row [i / 128 mod 128], slice [i / 16384]. *)
Definition voxel_set (buffer : bytes) (i : Z) : bool :=
  Z.testbit (buffer !!! Z.to_nat (i / 8)) (7 - i mod 8).
Definition set_voxels (buffer : bytes) : list Z :=
  List.filter (voxel_set buffer) (seqZ 0 (8 * len buffer)).
Definition voxel_point (resolution : f32) (origin : f32 * f32 * f32) (i : Z) : list f32 :=
  point resolution origin (i mod 128) (i / 128 mod 128) (i / 16384).

Definition byte_offsets (b : byte) : list Z :=
  List.filter (λ o, Z.testbit b (7 - o)) (seqZ 0 8).

(** The offsets the shifting loop pushes. *)
Fixpoint loop_offsets (fuel : nat) (bits bit_offset : Z) : list Z :=
  match fuel with
  | O => []
  | S fuel =>
      if bits =? 0 then [] else
      (if negb (Z.land bits 128 =? 0) then [bit_offset] else [])
      ++ loop_offsets fuel (Z.land (Z.shiftl bits 1) 255) (bit_offset + 1)
  end.

Lemma bit_loop_offsets fuel : ∀ bits off emit points,
  bit_loop fuel bits off emit points = points ++ (loop_offsets fuel bits off ≫= emit).
Proof.
  induction fuel as [|fuel IH]; intros bits off emit points; simpl; [by rewrite app_nil_r|].
  destruct (bits =? 0); [by rewrite app_nil_r|]. rewrite IH, bind_app.
  destruct (negb _); [|done]. simpl. by rewrite app_nil_r, <- app_assoc.
Qed.

(** All 256 bytes. *)
Lemma byte_cases (P : Z → bool) b :
  forallb P (seqZ 0 256) = true → is_byte b → P b = true.
Proof. rewrite forallb_forall. intros Hall Hb. apply Hall, list_elem_of_In, elem_of_seqZ. unfold is_byte in Hb. lia. Qed.

Lemma loop_offsets_byte b : is_byte b → loop_offsets 8 b 0 = byte_offsets b.
Proof.
  intros Hb.
  assert (bool_decide (loop_offsets 8 b 0 = byte_offsets b) = true) as E;
    [|by apply bool_decide_eq_true in E].
  refine (byte_cases (λ c, bool_decide (loop_offsets 8 c 0 = byte_offsets c)) b _ Hb).
  vm_compute. reflexivity.
Qed.

Lemma count_ones_byte b : is_byte b → count_ones b = len (byte_offsets b).
Proof.
  intros Hb. apply Z.eqb_eq.
  apply (byte_cases (λ b, count_ones b =? len (byte_offsets b))); [|done].
  vm_compute. reflexivity.
Qed.

Lemma filter_shift (f : Z → bool) k l :
  List.filter f ((λ o, k + o) <$> l) = (λ o, k + o) <$> List.filter (λ o, f (k + o)) l.
Proof. induction l as [|o l IH]; [done|]. rewrite fmap_cons. simpl. rewrite IH. by destruct (f _). Qed.

Lemma set_voxels_snoc buffer b :
  set_voxels (buffer ++ [b]) =
  set_voxels buffer ++ ((λ o, 8 * len buffer + o) <$> byte_offsets b).
Proof.
  unfold set_voxels, byte_offsets. pose proof (len_nonneg buffer) as Hl. rewrite len_app.
  replace (8 * (len buffer + len [b])) with (8 * len buffer + 8) by (unfold len; simpl; lia).
  rewrite seqZ_app, List.filter_app by lia. f_equal.
  - apply List.filter_ext_in. intros i Hi%list_elem_of_In%elem_of_seqZ. unfold voxel_set.
    f_equal. apply lookup_total_app_l. unfold len in *.
    assert (i / 8 < Z.of_nat (length buffer)) by (apply Z.div_lt_upper_bound; lia).
    pose proof (Z.div_pos i 8). lia.
  - rewrite (Z.add_comm 0), <- fmap_add_seqZ, filter_shift.
    apply (f_equal (fmap (λ o, 8 * len buffer + o))), List.filter_ext_in.
    intros o Ho%list_elem_of_In%elem_of_seqZ. unfold voxel_set.
    assert ((8 * len buffer + o) / 8 = len buffer) as ->.
    { symmetry. apply (Z.div_unique _ _ _ o); lia. }
    assert ((8 * len buffer + o) mod 8 = o) as ->.
    { symmetry. apply (Z.mod_unique _ _ (len buffer)); lia. }
    unfold len. rewrite Nat2Z.id, lookup_total_app_r by lia.
    by rewrite Nat.sub_diag.
Qed.

(** The column, row and slice the code computes from a byte index. *)
Lemma voxel_point_byte resolution origin k o :
  0 ≤ k → 0 ≤ o < 8 →
  voxel_point resolution origin (8 * k + o) =
  point resolution origin (k mod BYTES_PER_SLICE mod BYTES_PER_ROW * 8 + o)
    (k mod BYTES_PER_SLICE / BYTES_PER_ROW) (k / BYTES_PER_SLICE).
Proof.
  unfold voxel_point, BYTES_PER_SLICE, BYTES_PER_ROW. intros Hk Ho.
  assert ((8 * k + o) mod 128 = k mod 2048 mod 16 * 8 + o) as ->.
  { Z.to_euclidean_division_equations. lia. }
  assert ((8 * k + o) / 128 mod 128 = k mod 2048 / 16) as ->.
  { Z.to_euclidean_division_equations. lia. }
  assert ((8 * k + o) / 16384 = k / 2048) as ->; [|done].
  Z.to_euclidean_division_equations. lia.
Qed.

Lemma byte_step_spec resolution origin buffer :
  Forall is_byte buffer →
  foldl (byte_step resolution origin) (0, []) buffer =
  (len buffer, set_voxels buffer ≫= voxel_point resolution origin).
Proof.
  induction buffer as [|b buffer IH] using rev_ind; [done|].
  intros [Hbuf Hb]%Forall_app. rewrite Forall_singleton in Hb.
  rewrite foldl_app, IH by done. cbn [foldl byte_step]. rewrite set_voxels_snoc, bind_app.
  rewrite len_app. change (len [b]) with 1.
  destruct (b =? 0) eqn:Hz.
  { assert (b = 0) as -> by lia. change (byte_offsets 0) with (@nil Z). simpl. by rewrite app_nil_r. }
  f_equal. rewrite bit_loop_offsets, loop_offsets_byte by done. f_equal.
  assert (Forall (λ o, 0 ≤ o < 8) (byte_offsets b)) as Ho.
  { apply Forall_forall. intros o Ho. apply list_elem_of_In, List.filter_In in Ho as [Ho _].
    apply list_elem_of_In, elem_of_seqZ in Ho. lia. }
  pose proof (len_nonneg buffer) as Hl. revert Ho Hl. generalize (len buffer). clear.
  intros k. induction 1 as [|o l Ho _ IH]; [done|]. intros Hk. rewrite fmap_cons. cbn [mbind list_bind].
  rewrite voxel_point_byte by done. f_equal. by apply IH.
Qed.

Lemma count_points_spec buffer n :
  Forall is_byte buffer → count_points buffer = Some n → n = len (set_voxels buffer).
Proof.
  revert n. induction buffer as [|b buffer IH] using rev_ind; intros n; [by intros _ [= <-]|].
  intros [Hbuf Hb]%Forall_app. rewrite Forall_singleton in Hb.
  unfold count_points in *. rewrite foldl_app. simpl.
  destruct (foldl _ _ buffer) as [c|]; [|done]. simpl. unfold checked_add.
  destruct (_ <? 2 ^ 64); [|done]. intros [= <-].
  rewrite set_voxels_snoc, len_app, len_map, <- count_ones_byte by done. rewrite (IH c); done.
Qed.

Lemma byte_offsets_le b : is_byte b → 0 ≤ len (byte_offsets b) ≤ 8.
Proof.
  intros _. pose proof (len_nonneg (byte_offsets b)). unfold byte_offsets, len in *.
  pose proof (filter_length_le (λ o, Z.testbit b (7 - o)) (seqZ 0 8)) as Hl.
  change (length (seqZ 0 8)) with 8%nat in Hl. lia.
Qed.

(** No counter of the decoder can overflow on an admitted bitmap. *)
Lemma count_points_total buffer :
  Forall is_byte buffer → len buffer ≤ MAX_BITMAP_BYTES →
  count_points buffer = Some (len (set_voxels buffer)) ∧ len (set_voxels buffer) ≤ 8 * len buffer.
Proof.
  induction buffer as [|b buffer IH] using rev_ind; [done|].
  intros [Hbuf Hb]%Forall_app. rewrite Forall_singleton in Hb.
  rewrite len_app. change (len [b]) with 1. intros Hl.
  destruct IH as [IH Hle]; [done|lia|]. unfold count_points in *. rewrite foldl_app, IH. simpl.
  rewrite set_voxels_snoc, len_app, len_map, <- count_ones_byte by done.
  pose proof (byte_offsets_le b Hb). rewrite <- count_ones_byte in H by done.
  unfold checked_add, MAX_BITMAP_BYTES in *. pose proof (len_nonneg (set_voxels buffer)).
  replace (_ <? 2 ^ 64) with true by lia. split; [done|lia].
Qed.

Lemma bits_to_points_spec buffer origin resolution :
  Forall is_byte buffer →
  bits_to_points_optimized buffer origin resolution =
  (_ ← validate_geometry (len buffer) origin resolution;
   if MAX_POINTS <? len (set_voxels buffer)
   then Err "LiDAR point count exceeds resource budget"
   else Ok (set_voxels buffer ≫= voxel_point (F32.of_f64 resolution)
     (F32.of_f64 origin.1.1, F32.of_f64 origin.1.2, F32.of_f64 origin.2))).
Proof.
  intros Hb. unfold bits_to_points_optimized.
  destruct (validate_geometry (len buffer) origin resolution) as [[]|e] eqn:Hv; [|done].
  assert (len buffer ≤ MAX_BITMAP_BYTES) as Hl.
  { unfold validate_geometry in Hv. destruct (MAX_BITMAP_BYTES <? len buffer) eqn:E; [done|lia]. }
  destruct (count_points_total buffer Hb Hl) as [-> Hle]. simpl.
  destruct (MAX_POINTS <? _) eqn:Hmax; [done|].
  assert (checked_mul 64 (len (set_voxels buffer)) 3 = Some (len (set_voxels buffer) * 3)) as ->.
  { unfold checked_mul, MAX_POINTS in *. by replace (_ <? 2 ^ 64) with true by lia. }
  destruct origin as [[ox oy] oz]. simpl. by rewrite byte_step_spec.
Qed.

(** C32: the optimised decoder accepts exactly the bitmaps whose geometry is
    valid and that have at most a million set bits; its output is, in wire
    order, the three coordinates of each set voxel and nothing else. *)
Theorem bits_to_points_exact buffer origin resolution :
  Forall is_byte buffer →
  bits_to_points_optimized buffer origin resolution =
  (_ ← validate_geometry (len buffer) origin resolution;
   if MAX_POINTS <? len (set_voxels buffer)
   then Err "LiDAR point count exceeds resource budget"
   else Ok (set_voxels buffer ≫= voxel_point (F32.of_f64 resolution)
     (F32.of_f64 origin.1.1, F32.of_f64 origin.1.2, F32.of_f64 origin.2))).
Proof. apply bits_to_points_spec. Qed.

Lemma bits_to_points_exact_witness :
  bits_to_points_optimized [129; 0; 1] (S754_zero false, S754_zero false, S754_zero false)
    (F64.of_Z 1) =
  Ok (F32.of_Z <$> [0; 0; 0; 7; 0; 0; 23; 0; 0]).
Proof.
  rewrite (bits_to_points_exact [129; 0; 1] (S754_zero false, S754_zero false, S754_zero false)
    (F64.of_Z 1) ltac:(repeat (constructor; [unfold is_byte; lia|]); constructor)).
  vm_compute. reflexivity.
Defined.

(** ** service.rs *)
Record LidarMetadata := { origin : origin3; resolution : f64; src_size : Z }.
Record LidarDecodeRequest := {
  lr_generation : Z;
  lr_topic : string;
  lr_payload : value;
  compressed_data : bytes;
  metadata : LidarMetadata;
}.

(** [LidarMetadata::from_json]. *)
Definition from_json (data : value) : option LidarMetadata :=
  data_obj ← as_object data;
  origin_array ← BTree.get "origin" data_obj ≫= as_array;
  if negb (len origin_array =? 3) then None else
  ox ← origin_array !! 0%nat ≫= as_f64;
  oy ← origin_array !! 1%nat ≫= as_f64;
  oz ← origin_array !! 2%nat ≫= as_f64;
  resolution ← get data "resolution" ≫= as_f64;
  src_size ← get data "src_size" ≫= as_u64;
  _ ← ok (validate_geometry src_size (ox, oy, oz) resolution);
  Some {| origin := (ox, oy, oz); resolution := resolution; src_size := src_size |}.

Section pool.
Context {C : Type → Type} `{Chan C} `{Layout} `{Lz4}.

(** [LidarWorkerPool::try_new]: the queue of the pool; starting [worker_count]
    threads is [start], which says whether the [i]-th one could be spawned. *)
Definition try_new (worker_count : Z) (start : Z → bool) : result string (C LidarDecodeRequest) :=
  if negb ((1 <=? worker_count) && (worker_count <=? 32))
  then Err "lidar_workers must be between 1 and 32" else
  if forallb start (seqZ 0 worker_count) then Ok (bounded 4)
  else Err "Failed to start LiDAR worker".

(** [create_worker_pool]'s worker count. *)
Definition default_worker_count (available_parallelism : option Z) : Z :=
  match available_parallelism with Some n => Z.max 2 (Z.min n 4) | None => 2 end.

Definition submit (q : C LidarDecodeRequest) (request : LidarDecodeRequest) :
    result string () * C LidarDecodeRequest :=
  match validate_geometry (src_size (metadata request)) (origin (metadata request))
          (resolution (metadata request)) with
  | Err e => (Err e, q)
  | Ok _ =>
      if MAX_COMPRESSED_BYTES <? len (compressed_data request)
      then (Err "LiDAR compressed size exceeds resource budget", q) else
      match chan_send q request with
      | Ok q' => (Ok (), q')
      | Err (Full _) => (Err "LiDAR worker queue full", q)
      | Err (Disconnected _) => (Err "LiDAR workers disconnected", q)
      end
  end.

Definition decode_lidar (req : LidarDecodeRequest) : result string (list f32) :=
  let m := metadata req in
  _ ← validate_geometry (src_size m) (origin m) (resolution m);
  decompressed ← decompress_lz4 (compressed_data req) (src_size m);
  if negb (len decompressed =? src_size m)
  then Err ("Decompressed size " +:+ pretty (len decompressed) +:+ " != expected "
            +:+ pretty (src_size m))
  else bits_to_points_optimized decompressed (origin m) (resolution m).

(** A worker's locals: the generation of its last request and its three logs. *)
Record WorkerState := {
  w_generation : option Z;
  dropped : RepeatState;
  disconnected : RepeatState;
  failed : RepeatState;
}.
Definition worker_default : WorkerState :=
  {| w_generation := None; dropped := repeat_default; disconnected := repeat_default;
     failed := repeat_default |}.
Definition record_dropped now w :=
  {| w_generation := w_generation w; dropped := (record_at now (dropped w)).2;
     disconnected := disconnected w; failed := failed w |}.
Definition record_disconnected now w :=
  {| w_generation := w_generation w; dropped := dropped w;
     disconnected := (record_at now (disconnected w)).2; failed := failed w |}.
Definition record_failed now w :=
  {| w_generation := w_generation w; dropped := dropped w;
     disconnected := disconnected w; failed := (record_at now (failed w)).2 |}.
Definition start_generation (generation : Z) (w : WorkerState) : WorkerState :=
  if decide (w_generation w = Some generation) then w else
  {| w_generation := Some generation; dropped := (reset (dropped w)).2;
     disconnected := (reset (disconnected w)).2; failed := (reset (failed w)).2 |}.

(** One iteration of a worker: [during] is what other threads do to the event
    channel while it decodes, [now] the clock of the logs. *)
Definition worker_step (req : LidarDecodeRequest) (during : list ev_op) (now : Z)
    (w : WorkerState) (ch : Events C) : WorkerState * Events C :=
  let w := start_generation (lr_generation req) w in
  let sender := {| s_generation := lr_generation req |} in
  if negb (current ch =? lr_generation req) then (record_dropped now w, ch) else
  match decode_lidar req with
  | Ok points =>
      let ch := ev_run during ch in
      match try_send sender (current ch) (LidarCallback (lr_topic req) (lr_payload req) points) ch with
      | (Ok _, ch) => (w, ch)
      | (Err (Full _), ch) => (record_dropped now w, ch)
      | (Err (Disconnected _), ch) => (record_disconnected now w, ch)
      end
  | Err _ => (record_failed now w, ev_run during ch)
  end.

(** ** Bounds *)
Lemma validate_geometry_size size o r : validate_geometry size o r = Ok () → size ≤ MAX_BITMAP_BYTES.
Proof. unfold validate_geometry. destruct (MAX_BITMAP_BYTES <? size) eqn:E; [done|lia]. Qed.

Lemma from_json_valid data m :
  from_json data = Some m → validate_geometry (src_size m) (origin m) (resolution m) = Ok ().
Proof.
  unfold from_json. intros Hf. repeat (case_match || (apply bind_Some in Hf as (? & ? & Hf))); try done.
  simplify_eq. simpl. destruct (validate_geometry _ _ _) as [[]|]; done.
Qed.

Lemma len_voxel_points r o l : len (l ≫= voxel_point r o) = 3 * len l.
Proof.
  induction l as [|i l IH]; [done|]. cbn [mbind list_bind]. rewrite len_app, len_cons, IH.
  destruct o as [[? ?] ?]. unfold len. simpl. lia.
Qed.

(** Decoding never asks LZ4 for more than 1 MiB nor hands it more than the
    compressed bound; when it succeeds, the bitmap has the announced size and
    the output is three coordinates for each of its set bits, at most three
    million values. *)
Theorem decode_lidar_bounded req points :
  (∀ data size out, lz4_decompress data size = Ok out → Forall is_byte out) →
  decode_lidar req = Ok points →
  ∃ bitmap, lz4_decompress (compressed_data req) (src_size (metadata req)) = Ok bitmap ∧
    src_size (metadata req) ≤ MAX_BITMAP_BYTES ∧
    len (compressed_data req) ≤ MAX_COMPRESSED_BYTES ∧
    len bitmap = src_size (metadata req) ∧
    len points = 3 * len (set_voxels bitmap) ∧ len points ≤ 3 * MAX_POINTS.
Proof.
  intros Hlz. unfold decode_lidar.
  intros ([] & Hv & Hr)%result_bind_Ok.
  apply result_bind_Ok in Hr as (bitmap & Hd & Hr).
  unfold decompress_lz4 in Hd. destruct (_ || _) eqn:Hlim; [done|]. bool_hyps.
  destruct (lz4_decompress _ _) as [out|] eqn:Hout; simplify_eq/=.
  destruct (negb _) eqn:Hn; [done|]. bool_hyps.
  rewrite bits_to_points_spec in Hr by eauto. exists bitmap.
  apply result_bind_Ok in Hr as ([] & _ & Hr). destruct (MAX_POINTS <? _) eqn:Hmax; [done|].
  injection Hr as <-. rewrite len_voxel_points. split_and!; done || lia.
Qed.

Lemma decode_lidar_length req points :
  (∀ data size out, lz4_decompress data size = Ok out → Forall is_byte out) →
  decode_lidar req = Ok points → ∃ n, len points = 3 * n.
Proof. intros Hlz Hd. destruct (decode_lidar_bounded req points Hlz Hd) as (b & _ & _ & _ & _ & ? & _). eauto. Qed.

(** Whether the request was decoded, and so sent, is all the channel sees of a
    worker's iteration. *)
Lemma worker_step_channel req during now w ch :
  (worker_step req during now w ch).2 = ch ∨
  (worker_step req during now w ch).2 = ev_run during ch ∨
  ∃ points, decode_lidar req = Ok points ∧ (worker_step req during now w ch).2 =
    (try_send {| s_generation := lr_generation req |} (current (ev_run during ch))
       (LidarCallback (lr_topic req) (lr_payload req) points) (ev_run during ch)).2.
Proof.
  unfold worker_step. destruct (negb _); [by left|].
  destruct (decode_lidar req) as [points|]; [|by right; left].
  right. right. exists points. split; [done|]. by destruct (try_send _ _ _ _) as [[|[]] ch'].
Qed.

(** A worker touches the event channel only to enqueue the points of a
    request whose generation is current when it sends: an invalid or stale
    request leaves the channel to the other threads. *)
Theorem worker_only_current req during now w ch :
  events_inv ch →
  let ch' := (worker_step req during now w ch).2 in
  (current ch ≠ lr_generation req → ch' = ch) ∧
  (current ch = lr_generation req → ch' = ev_run during ch ∨
   ∃ points d, decode_lidar req = Ok points ∧
     d = delivery_of {| s_generation := lr_generation req |}
           (LidarCallback (lr_topic req) (lr_payload req) points) ∧
     current (ev_run during ch) = lr_generation req ∧
     live ch' ≡ₚ d :: live (ev_run during ch)).
Proof.
  intros Hi. simpl. unfold worker_step.
  destruct (current ch =? lr_generation req) eqn:Hc; simpl; (split; [try lia|try lia]); [|done].
  intros _. destruct (decode_lidar req) as [points|]; [|by left].
  assert (events_inv (ev_run during ch)) as Hi' by by apply ev_run_inv.
  revert Hi'. generalize (ev_run during ch). intros ch1 Hi1.
  set (event := LidarCallback _ _ _). set (s := {| s_generation := _ |}).
  destruct (try_send_refines s (current ch1) event ch1 Hi1) as [Hr Hs].
  destruct (try_send s (current ch1) event ch1) as [r ch2]. simpl in Hr. subst r.
  destruct (try_send_spec s (current ch1) event ch1) as [[]|[]] eqn:Hspec;
    simpl in *; [|by left; rewrite Hs..].
  right. exists points, (delivery_of s event). split_and!; [done|done| |by destruct Hs].
  unfold try_send_spec in Hspec. destruct (event_size event).
  destruct (current ch1 =? s_generation s) eqn:E; [simpl in E; lia|done].
Qed.
End pool.

(** ** Instances *)
#[local] Instance ones_lz4 : Lz4 :=
  {| lz4_decompress _ size := Ok (replicate (Z.to_nat size) 1) |}.
Lemma ones_lz4_bytes data size out : lz4_decompress data size = Ok out → Forall is_byte out.
Proof. intros [= <-]. apply Forall_replicate. unfold is_byte. lia. Qed.

Definition demo_request : LidarDecodeRequest :=
  {| lr_generation := 1; lr_topic := "rt/utlidar/voxel_map_compressed"; lr_payload := JNull;
     compressed_data := [];
     metadata := {| origin := (S754_zero false, S754_zero false, S754_zero false);
                    resolution := F64.of_Z 1; src_size := 2 |} |}.

Lemma decode_lidar_bounded_witness :
  ∃ points, decode_lidar demo_request = Ok points ∧ len points ≤ 3 * MAX_POINTS.
Proof.
  eexists. split; [vm_compute; reflexivity|].
  destruct (decode_lidar_bounded demo_request
    [F32.of_Z 7; S754_zero false; S754_zero false; F32.of_Z 15; S754_zero false; S754_zero false]
    ones_lz4_bytes ltac:(vm_compute; reflexivity)) as (bitmap & _ & _ & _ & _ & _ & Hle).
  exact Hle.
Defined.

#[local] Program Instance demo_layout : Layout := {|
  size_of_Value := 32; size_of_CallbackEvent := 96;
  string_capacity := slen; values_capacity := len; points_capacity := len;
  bytes_capacity := len; samples_capacity := len |}.
Solve All Obligations with intros; simpl; lia.

Lemma worker_only_current_witness :
  (worker_step demo_request [] 0 worker_default (set_generation 2 demo_channel)).2 =
  set_generation 2 demo_channel.
Proof.
  apply (proj1 (worker_only_current demo_request [] 0 worker_default
    (set_generation 2 demo_channel) (set_generation_inv 2 _ demo_inv))).
  vm_compute. discriminate.
Defined.
