(* ===== verification/Utf8.v ===== *)
(** * UTF-8

    The parts of [str] the source relies on: validation ([str::from_utf8]), the
    split into [char]s (each kept as its bytes), [str::trim], checked slicing
    at character boundaries and the ASCII predicates of [u8]. *)
From S2P Require Import Prelude.
#[local] Open Scope Z_scope.

Definition between (lo hi b : Z) : bool := (lo <=? b) && (b <=? hi).
Definition is_cont (b : byte) : bool := between 128 191 b.

(** The well-formed byte sequences of the Unicode standard (table 3-7). *)
Fixpoint utf8_valid_loop (fuel : nat) (l : bytes) : bool :=
  match fuel, l with
  | _, [] => true
  | O, _ => false
  | S fuel, b0 :: l1 =>
      if between 0 127 b0 then utf8_valid_loop fuel l1 else
      match l1 with
      | b1 :: l2 =>
          if between 194 223 b0 then is_cont b1 && utf8_valid_loop fuel l2 else
          match l2 with
          | b2 :: l3 =>
              if between 224 239 b0 then
                between (if b0 =? 224 then 160 else 128) (if b0 =? 237 then 159 else 191) b1
                && is_cont b2 && utf8_valid_loop fuel l3
              else
              match l3 with
              | b3 :: l4 =>
                  between 240 244 b0
                  && between (if b0 =? 240 then 144 else 128) (if b0 =? 244 then 143 else 191) b1
                  && is_cont b2 && is_cont b3 && utf8_valid_loop fuel l4
              | [] => false
              end
          | [] => false
          end
      | [] => false
      end
  end.
Definition utf8_valid (l : bytes) : bool := utf8_valid_loop (length l) l.
Definition from_utf8 (l : bytes) : option string :=
  if utf8_valid l then Some (string_of_bytes l) else None.

(** The [char]s of a string: a character starts at each non-continuation byte. *)
Fixpoint chars_of_bytes (l : bytes) : list bytes :=
  match l with
  | [] => []
  | b :: l' =>
      let joins := match l' with b' :: _ => is_cont b' | [] => false end in
      match chars_of_bytes l' with
      | c :: cs => if joins then (b :: c) :: cs else [b] :: c :: cs
      | [] => [[b]]
      end
  end.
Definition chars (s : string) : list bytes := chars_of_bytes (as_bytes s).

(** [char::is_whitespace]. *)
Definition is_whitespace (c : bytes) : bool :=
  match c with
  | [b] => between 9 13 b || (b =? 32)
  | [194; b] => (b =? 133) || (b =? 160)
  | [225; 154; 128] => true
  | [226; 128; b] => between 128 138 b || (b =? 168) || (b =? 169) || (b =? 175)
  | [226; 129; 159] => true
  | [227; 128; 128] => true
  | _ => false
  end.
Fixpoint drop_while {A} (p : A → bool) (l : list A) : list A :=
  match l with x :: l' => if p x then drop_while p l' else l | [] => [] end.
Definition trim (s : string) : string :=
  string_of_bytes (concat (rev (drop_while is_whitespace (rev (drop_while is_whitespace (chars s)))))).

(** [str::is_char_boundary] and [str::get(a..b)]. *)
Definition is_char_boundary (l : bytes) (i : Z) : bool :=
  if i =? len l then true else
  match l !! Z.to_nat i with Some b => negb (is_cont b) | None => false end.
Definition str_get (s : string) (a b : Z) : option string :=
  let l := as_bytes s in
  if is_char_boundary l a && is_char_boundary l b then string_of_bytes <$> get_range l a b else None.

(** [u8::is_ascii_digit], [is_ascii_alphanumeric], [eq_ignore_ascii_case]. *)
Definition is_ascii_digit (b : byte) : bool := between 48 57 b.
Definition is_ascii_alphanumeric (b : byte) : bool :=
  between 48 57 b || between 65 90 b || between 97 122 b.
Definition to_ascii_lowercase (b : byte) : byte := if between 65 90 b then b + 32 else b.
Definition eq_ignore_ascii_case (s t : string) : bool :=
  bool_decide (to_ascii_lowercase <$> as_bytes s = to_ascii_lowercase <$> as_bytes t).

Lemma utf8_valid_bytes l : utf8_valid l = true → Forall is_byte l.
Proof.
  unfold utf8_valid. generalize (length l). intros n. revert l.
  induction n as [n IH] using lt_wf_ind. destruct n as [|n]; intros [|b0 l1]; try done.
  cbn [utf8_valid_loop]. unfold is_cont, between.
  assert (∀ k, utf8_valid_loop n k = true → Forall is_byte k) as IH' by (apply IH; lia).
  unfold is_byte in *.
  repeat first [case_match; try done]; intros; bool_hyps;
    repeat (constructor; [lia|]); auto.
Qed.

Lemma from_utf8_Some l s : from_utf8 l = Some s ↔ utf8_valid l = true ∧ as_bytes s = l.
Proof.
  unfold from_utf8. destruct (utf8_valid l) eqn:Hv.
  - pose proof (utf8_valid_bytes l Hv) as Hb. split.
    + intros [= <-]. split; [done|]. by apply as_string_of_bytes.
    + intros [_ <-]. by rewrite string_of_as_bytes.
  - naive_solver.
Qed.

Lemma from_utf8_as_bytes s : utf8_valid (as_bytes s) = true → from_utf8 (as_bytes s) = Some s.
Proof. intros Hv. by apply from_utf8_Some. Qed.

(** ** Trimming *)

(** The groups [chars_of_bytes] makes. *)
Definition is_char (c : bytes) : Prop := ∃ b t, c = b :: t ∧ Forall (λ b, is_cont b = true) t.
Definition starts_char (c : bytes) : Prop := match c with b :: _ => is_cont b = false | [] => False end.
Definition char_groups (cs : list bytes) : Prop := Forall is_char cs ∧ Forall starts_char (tail cs).

Lemma chars_of_bytes_nil l : chars_of_bytes l = [] → l = [].
Proof. destruct l as [|b l]; [done|]. simpl. by repeat case_match. Qed.
Lemma chars_of_bytes_head b l : ∃ t cs, chars_of_bytes (b :: l) = (b :: t) :: cs.
Proof. simpl. destruct (chars_of_bytes l) as [|c cs]; repeat case_match; eauto. Qed.
Lemma chars_of_bytes_groups l : char_groups (chars_of_bytes l) ∧ concat (chars_of_bytes l) = l.
Proof.
  induction l as [|b l [[IHc IHs] IHl]]; [by repeat constructor|].
  destruct l as [|b' l].
  { split; [|done]. split; [|constructor]. constructor; [|done]. by exists b, []. }
  destruct (chars_of_bytes_head b' l) as (t & cs & Hcs).
  change (chars_of_bytes (b :: b' :: l)) with
    (match chars_of_bytes (b' :: l) with
     | c :: cs => if is_cont b' then (b :: c) :: cs else [b] :: c :: cs
     | [] => [[b]]
     end).
  rewrite Hcs in *. simpl in *. inversion_clear IHc as [|? ? (b0 & t0 & Heq & Ht) Hrest].
  injection Heq as <- <-.
  destruct (is_cont b') eqn:Hb; simpl in *; (split; [split|by rewrite <- IHl]).
  - constructor; [|done]. exists b, (b' :: t). split; [done|]. by constructor.
  - done.
  - constructor; [by exists b, []|]. constructor; [by exists b', t|done].
  - by constructor.
Qed.

Lemma chars_of_concat cs : char_groups cs → chars_of_bytes (concat cs) = cs.
Proof.
  induction cs as [|c cs IH]; [done|]. intros [Hc Hs]. simpl in Hs.
  inversion_clear Hc as [|? ? (b & t & -> & Ht) Hcs].
  assert (chars_of_bytes (concat cs) = cs) as IH'.
  { apply IH. split; [done|]. by destruct Hs. }
  assert (match concat cs with b' :: _ => is_cont b' | [] => false end = false) as Hnext.
  { destruct cs as [|c0 cs]; [done|]. inversion_clear Hs as [|? ? Hst]. by destruct c0. }
  clear IH Hcs Hs. revert b. induction Ht as [|b' t Hb' _ IHt]; intros b; simpl in *.
  - rewrite IH', Hnext. by destruct cs.
  - rewrite IHt, Hb'. done.
Qed.

Lemma drop_while_suffix {A} (p : A → bool) l : ∃ k, l = k ++ drop_while p l ∧ Forall (λ x, p x = true) k.
Proof.
  induction l as [|x l (k & Hk & Hp)]; [by exists []|]. simpl.
  destruct (p x) eqn:Hx; [|by exists []]. exists (x :: k). simpl. rewrite <- Hk. by repeat constructor.
Qed.
Lemma drop_while_head {A} (p : A → bool) l :
  match drop_while p l with x :: _ => p x = false | [] => True end.
Proof. induction l as [|x l IH]; [done|]. simpl. by destruct (p x) eqn:Hx. Qed.
Lemma drop_while_fixed {A} (p : A → bool) l :
  match l with x :: _ => p x = false | [] => True end → drop_while p l = l.
Proof. destruct l as [|x l]; [done|]. simpl. by intros ->. Qed.

(** The characters that remain after a trim. *)
Definition trimmed (cs : list bytes) : list bytes :=
  rev (drop_while is_whitespace (rev (drop_while is_whitespace cs))).
Lemma trimmed_infix cs : ∃ k k', cs = k ++ trimmed cs ++ k'.
Proof.
  destruct (drop_while_suffix is_whitespace cs) as (k & Hk & _).
  destruct (drop_while_suffix is_whitespace (rev (drop_while is_whitespace cs))) as (k' & Hk' & _).
  exists k, (rev k'). rewrite Hk at 1. f_equal. unfold trimmed.
  apply (f_equal (@rev _)) in Hk'. by rewrite rev_involutive, rev_app_distr in Hk'.
Qed.
Lemma trimmed_fixed cs : trimmed (trimmed cs) = trimmed cs.
Proof.
  assert (drop_while is_whitespace (trimmed cs) = trimmed cs) as Hhead.
  { apply drop_while_fixed. pose proof (drop_while_head is_whitespace cs) as Hh. unfold trimmed.
    destruct (drop_while_suffix is_whitespace (rev (drop_while is_whitespace cs))) as (k & Hk & _).
    apply (f_equal (@rev _)) in Hk. rewrite rev_involutive, rev_app_distr in Hk.
    rewrite Hk in Hh. by destruct (rev (drop_while is_whitespace (rev _))). }
  unfold trimmed at 1. rewrite Hhead. unfold trimmed at 1. rewrite rev_involutive.
  rewrite drop_while_fixed; [done|]. apply drop_while_head.
Qed.

(** Trimming twice is trimming once. *)
Lemma trim_idemp s : trim (trim s) = trim s.
Proof.
  unfold trim. fold (trimmed (chars s)).
  destruct (chars_of_bytes_groups (as_bytes s)) as [Hg Hc]. fold (chars s) in Hg, Hc.
  destruct (trimmed_infix (chars s)) as (k & k' & Hk).
  assert (char_groups (trimmed (chars s))) as Hg'.
  { destruct Hg as [Hg1 Hg2]. rewrite Hk in Hg1, Hg2.
    apply Forall_app in Hg1 as [_ [Hg1 _]%Forall_app]. split; [done|].
    destruct k as [|c k]; simpl in Hg2.
    - destruct (trimmed (chars s)) as [|c cs]; [done|]. simpl in *. by apply Forall_app in Hg2 as [? _].
    - apply Forall_app in Hg2 as [_ [Hg2 _]%Forall_app]. destruct (trimmed (chars s)); [done|].
      by inversion_clear Hg2. }
  assert (Forall is_byte (concat (trimmed (chars s)))) as Hb.
  { pose proof (as_bytes_is_byte s) as Hb. rewrite <- Hc, Hk, !concat_app, !Forall_app in Hb. apply Hb. }
  fold (trimmed (chars (string_of_bytes (concat (trimmed (chars s)))))).
  unfold chars at 1. rewrite as_string_of_bytes by done. rewrite chars_of_concat by done.
  by rewrite trimmed_fixed.
Qed.
