(* ===== verification/Security.v ===== *)
(** * Payload cryptography (src/src/infrastructure/security.rs)

    The ciphers, digests and encodings are external ([Crypto]); what is modelled
    is what the source builds from them: key validation, PKCS#7 padding, the ECB
    block loop, the framing of AES-GCM payloads and the chunking of RSA.  The
    theorems: unpadding accepts exactly the padded texts, decryption inverts
    encryption, and a GCM payload is cut at its nonce and tag without overlap. *)
From S2P Require Import Prelude Utf8.
#[local] Open Scope Z_scope.

Definition AES_BLOCK_SIZE : Z := 16.
Definition CON_NOTIFY_KEY : bytes :=
  [232; 86; 130; 189; 22; 84; 155; 0; 142; 4; 166; 104; 43; 179; 235; 227].

(** The external primitives.  [rsa_encrypt_block] takes the position of the
    block: the padding of PKCS#1 v1.5 is random. *)
Class Crypto := {
  md5 : bytes → bytes;
  hex_encode : bytes → string;
  hex_decode : string → result string bytes;
  b64_encode : bytes → string;
  b64_decode : string → result string bytes;
  aes256_encrypt_block : bytes → bytes → bytes;
  aes256_decrypt_block : bytes → bytes → bytes;
  aes128_gcm_decrypt : bytes → bytes → bytes → result string bytes;
  uuid_simple : string;
  RsaPublicKey : Type;
  rsa_size : RsaPublicKey → Z;
  from_public_key_der : bytes → result string RsaPublicKey;
  from_pkcs1_der : bytes → result string RsaPublicKey;
  rsa_encrypt_block : RsaPublicKey → nat → bytes → result string bytes;
}.
(** The documented behaviour of the encodings and of the block cipher. *)
Class CryptoLaws `{Crypto} : Prop := {
  b64_decode_encode l : Forall is_byte l → b64_decode (b64_encode l) = Ok l;
  hex_decode_encode l : Forall is_byte l → hex_decode (hex_encode l) = Ok l;
  md5_length l : len (md5 l) = 16 ∧ Forall is_byte (md5 l);
  aes256_block k b : len k = 32 → len b = 16 → Forall is_byte b →
    len (aes256_encrypt_block k b) = 16 ∧ Forall is_byte (aes256_encrypt_block k b) ∧
    aes256_decrypt_block k (aes256_encrypt_block k b) = b;
}.

(** [chunks] of a slice; with [chunks_exact] the last, shorter one is left out. *)
Fixpoint chunks_loop {A} (fuel : nat) (n : nat) (l : list A) : list (list A) :=
  match fuel, l with
  | S fuel, _ :: _ => take n l :: chunks_loop fuel n (drop n l)
  | _, _ => []
  end.
Definition chunks {A} (n : Z) (l : list A) : list (list A) := chunks_loop (length l) (Z.to_nat n) l.

Section security.
Context `{Crypto}.

Definition md5_hex (input : string) : string := hex_encode (md5 (as_bytes input)).
Definition hex_to_base64 (hex_str : string) : result string string :=
  b ← hex_decode hex_str; Ok (b64_encode b).
Definition encrypt_key (key : string) : result string string :=
  hex_to_base64 (md5_hex ("UnitreeGo2_" +:+ key)).
Definition generate_aes_key : string := uuid_simple.

Definition validate_aes256_key (key : string) : result string bytes :=
  let key_bytes := as_bytes key in
  if negb (len key_bytes =? 32)
  then Err ("AES-256 key must be 32 bytes, got " +:+ pretty (len key_bytes))
  else Ok key_bytes.

Definition pkcs7_pad (data : bytes) : bytes :=
  let padding := AES_BLOCK_SIZE - len data mod AES_BLOCK_SIZE in
  data ++ replicate (Z.to_nat padding) padding.

Definition pkcs7_unpad (data : bytes) : result string bytes :=
  match last data with
  | None => Err "Encrypted payload is empty"
  | Some padding =>
      if (padding =? 0) || (AES_BLOCK_SIZE <? padding) || (len data <? padding)
      then Err "Invalid PKCS7 padding length" else
      if existsb (λ b, negb (b =? padding)) (slice_from data (len data - padding))
      then Err "Invalid PKCS7 padding bytes"
      else Ok (slice_to data (len data - padding))
  end.

Definition aes_ecb_encrypt (plain_text key : string) : result string string :=
  key_bytes ← validate_aes256_key key;
  let padded := pkcs7_pad (as_bytes plain_text) in
  Ok (b64_encode (concat (aes256_encrypt_block key_bytes <$> chunks AES_BLOCK_SIZE padded))).

Definition aes_ecb_decrypt (encoded_cipher_text key : string) : result string string :=
  key_bytes ← validate_aes256_key key;
  encrypted_bytes ← b64_decode encoded_cipher_text;
  if negb (len encrypted_bytes mod AES_BLOCK_SIZE =? 0)
  then Err "AES ECB payload length must be multiple of 16" else
  let decrypted := concat (aes256_decrypt_block key_bytes <$> chunks AES_BLOCK_SIZE encrypted_bytes) in
  plain_bytes ← pkcs7_unpad decrypted;
  ok_or "invalid utf-8" (from_utf8 plain_bytes).

Definition aes_gcm_decrypt_with_key (encoded_cipher_text : string) (key : bytes) :
    result string string :=
  payload ← b64_decode encoded_cipher_text;
  if len payload <? 28 then Err "Decryption failed: input data too short" else
  let ciphertext := slice_to payload (len payload - 28) in
  let nonce := slice_from (slice_to payload (len payload - 16)) (len payload - 28) in
  let tag := slice_from payload (len payload - 16) in
  plain_bytes ← aes128_gcm_decrypt key nonce (ciphertext ++ tag);
  ok_or "invalid utf-8" (from_utf8 plain_bytes).

Definition aes_gcm_decrypt (encoded_cipher_text : string) : result string string :=
  aes_gcm_decrypt_with_key encoded_cipher_text CON_NOTIFY_KEY.

Definition validate_aes128_hex_key (key : string) : result string bytes :=
  let trimmed := trim key in
  if negb (slen trimmed =? 32)
  then Err ("AES-128 key must be 32 hex characters, got " +:+ pretty (slen trimmed)) else
  decoded ← map_err (λ e, "AES-128 key must be valid hex: " +:+ e) (hex_decode trimmed);
  if len decoded =? 16 then Ok decoded
  else Err ("AES-128 key must decode to 16 bytes, got " +:+ pretty (len decoded)).

Definition aes_gcm_decrypt_with_hex_key (encoded_cipher_text aes_128_key : string) :
    result string string :=
  key ← validate_aes128_hex_key aes_128_key;
  aes_gcm_decrypt_with_key encoded_cipher_text key.

Definition decrypt_con_notify_data (encoded_cipher_text : string) : result string string :=
  aes_gcm_decrypt encoded_cipher_text.

Definition decrypt_con_notify_data_with_aes_128_key (encoded_cipher_text aes_128_key : string) :
    result string string :=
  if seqb (trim aes_128_key) ""
  then Err "con_notify data2=3 requires aes_128_key or GO2_DORA_UNITREE_AES_128_KEY" else
  map_err (λ error,
    if starts_with error "AES-128 key" then error
    else "AES-GCM decrypt failed for con_notify data2=3; per-device aes_128_key was rejected or payload is corrupt: "
         +:+ error)
    (aes_gcm_decrypt_with_hex_key encoded_cipher_text aes_128_key).

Definition rsa_load_public_key (encoded_public_key : string) : result string RsaPublicKey :=
  key_bytes ← b64_decode encoded_public_key;
  match from_public_key_der key_bytes with
  | Ok k => Ok k
  | Err _ => from_pkcs1_der key_bytes
  end.

(** The blocks of the message, encrypted in order; the first error wins. *)
Fixpoint rsa_blocks (public_key : RsaPublicKey) (i : nat) (l : list bytes) : result string bytes :=
  match l with
  | [] => Ok []
  | chunk :: l' =>
      block ← rsa_encrypt_block public_key i chunk;
      rest ← rsa_blocks public_key (S i) l';
      Ok (block ++ rest)
  end.
Definition rsa_encrypt (data : string) (public_key : RsaPublicKey) : result string string :=
  let max_chunk_size := saturating_sub (rsa_size public_key) 11 in
  if max_chunk_size =? 0 then Err "RSA public key is too small" else
  encrypted ← rsa_blocks public_key 0 (chunks max_chunk_size (as_bytes data));
  Ok (b64_encode encrypted).
End security.

(** ** Chunks *)
Lemma chunks_loop_app {A} n (b l : list A) fuel :
  (0 < n)%nat → length b = n → chunks_loop (S fuel) n (b ++ l) = b :: chunks_loop fuel n l.
Proof.
  intros Hn Hb. destruct b as [|x b]; [simpl in Hb; lia|].
  change (chunks_loop (S fuel) n ((x :: b) ++ l)) with
    (take n ((x :: b) ++ l) :: chunks_loop fuel n (drop n ((x :: b) ++ l))).
  by rewrite take_app_length', drop_app_length'.
Qed.

Lemma chunks_loop_concat {A} n (bs : list (list A)) fuel :
  (0 < n)%nat → Forall (λ b, length b = n) bs → (length bs ≤ fuel)%nat →
  chunks_loop fuel n (concat bs) = bs.
Proof.
  intros Hn Hbs. revert fuel. induction Hbs as [|b bs Hb _ IH]; intros fuel Hf; simpl.
  - by destruct fuel.
  - destruct fuel as [|fuel]; [simpl in Hf; lia|]. rewrite chunks_loop_app by done.
    f_equal. apply IH. simpl in Hf. lia.
Qed.

Lemma concat_length {A} n (bs : list (list A)) :
  Forall (λ b, length b = n) bs → length (concat bs) = (n * length bs)%nat.
Proof. induction 1 as [|b bs Hb _ IH]; simpl; [lia|]. rewrite length_app, IH, Hb. lia. Qed.

Lemma chunks_concat {A} n (bs : list (list A)) :
  0 < n → Forall (λ b, len b = n) bs → chunks n (concat bs) = bs.
Proof.
  intros Hn Hbs.
  assert (Forall (λ b : list A, length b = Z.to_nat n) bs) as Hbs'.
  { eapply Forall_impl; [exact Hbs|]. unfold len. simpl. lia. }
  apply chunks_loop_concat; [lia|done|]. rewrite (concat_length _ _ Hbs'). nia.
Qed.

(** Every list whose length is a multiple of [n] is the concatenation of blocks. *)
Lemma blocks_exist {A} n (l : list A) k :
  length l = (n * k)%nat → ∃ bs, l = concat bs ∧ Forall (λ b, length b = n) bs.
Proof.
  revert l. induction k as [|k IH]; intros l Hl.
  - exists []. split; [|constructor]. by apply nil_length_inv; lia.
  - destruct (IH (drop n l)) as (bs & Hd & Hf); [rewrite length_drop; lia|].
    exists (take n l :: bs). simpl. rewrite <- Hd, take_drop. split; [done|].
    constructor; [rewrite length_take; lia|done].
Qed.

(** ** Padding *)
Lemma pkcs7_pad_length data :
  len (pkcs7_pad data) mod 16 = 0 ∧ len data < len (pkcs7_pad data) ≤ len data + 16.
Proof.
  unfold pkcs7_pad, AES_BLOCK_SIZE. rewrite len_app, len_replicate.
  pose proof (Z.mod_pos_bound (len data) 16). pose proof (Z.div_mod (len data) 16).
  split; [|lia].
  replace (len data + Z.of_nat (Z.to_nat (16 - len data mod 16))) with
    ((len data / 16 + 1) * 16) by lia. apply Z.mod_mul. lia.
Qed.

Lemma last_app_replicate (p : bytes) n x : (0 < n)%nat → last (p ++ replicate n x) = Some x.
Proof.
  intros Hn. destruct n as [|n]; [lia|]. rewrite replicate_S_end, app_assoc. apply last_snoc.
Qed.

Lemma all_padding (l : bytes) n :
  existsb (λ b, negb (b =? n)) l = false ↔ Forall (n =.) l.
Proof.
  induction l as [|b l IH]; simpl; [done|]. rewrite orb_false_iff, IH, Forall_cons.
  rewrite negb_false_iff, Z.eqb_eq. naive_solver.
Qed.

Lemma pkcs7_unpad_spec data p :
  Forall is_byte data →
  pkcs7_unpad data = Ok p ↔
  ∃ padding, 1 ≤ padding ≤ 16 ∧ data = p ++ replicate (Z.to_nat padding) padding.
Proof.
  intros Hbytes. unfold pkcs7_unpad, AES_BLOCK_SIZE. split.
  - destruct (last data) as [padding|] eqn:Hl; [|done].
    assert (is_byte padding) as Hb.
    { rewrite Forall_forall in Hbytes. apply Hbytes, list_elem_of_In.
      apply last_Some in Hl as [l' ->]. apply in_or_app. right. by left. }
    unfold is_byte in Hb. destruct (_ || _) eqn:Hlim; [done|].
    destruct (existsb _ _) eqn:He; [done|]. intros [= <-]. bool_hyps.
    exists padding. split; [lia|]. rewrite <- (slice_split data (len data - padding)) at 1. f_equal.
    symmetry. apply replicate_as_Forall_2; [|by apply all_padding].
    pose proof (len_slice_from data (len data - padding) ltac:(lia)). unfold len in *. lia.
  - intros (padding & Hp & ->). rewrite last_app_replicate by lia.
    rewrite len_app, len_replicate. pose proof (len_nonneg p).
    destruct (_ || _) eqn:Hlim.
    { exfalso. rewrite !orb_true_iff, Z.eqb_eq, !Z.ltb_lt in Hlim. lia. }
    replace (len p + Z.of_nat (Z.to_nat padding) - padding) with (len p) by lia.
    rewrite slice_from_app, slice_to_app by done.
    by rewrite (proj2 (all_padding _ _) (Forall_replicate_eq _ _)).
Qed.

Lemma pkcs7_pad_bytes data : Forall is_byte data → Forall is_byte (pkcs7_pad data).
Proof.
  intros Hd. apply Forall_app. split; [done|]. apply Forall_replicate.
  unfold is_byte, AES_BLOCK_SIZE. pose proof (Z.mod_pos_bound (len data) 16). lia.
Qed.

Lemma pkcs7_roundtrip data : Forall is_byte data → pkcs7_unpad (pkcs7_pad data) = Ok data.
Proof.
  intros Hd. apply pkcs7_unpad_spec; [by apply pkcs7_pad_bytes|].
  exists (16 - len data mod 16). pose proof (Z.mod_pos_bound (len data) 16). split; [lia|done].
Qed.

(** ** Round trips *)
Section roundtrip.
Context `{CryptoLaws}.

Lemma ecb_blocks key bs :
  len key = 32 → Forall (λ b, len b = 16 ∧ Forall is_byte b) bs →
  Forall (λ b, len b = 16) (aes256_encrypt_block key <$> bs) ∧
  Forall is_byte (concat (aes256_encrypt_block key <$> bs)) ∧
  aes256_decrypt_block key <$> (aes256_encrypt_block key <$> bs) = bs.
Proof.
  intros Hk. induction 1 as [|b bs [Hb Hbb] _ (IH1 & IH2 & IH3)]; [done|].
  destruct (aes256_block key b Hk Hb Hbb) as (Hl & Hbytes & Hd).
  rewrite !fmap_cons, Hd, IH3. simpl. split_and!; [by constructor|by apply Forall_app|done].
Qed.

(** With a 32-byte key, decryption returns the text that was encrypted,
    whatever its length (an empty or block-aligned text included): the padding,
    the block loop and the encoding are inverted exactly. *)
Theorem aes_ecb_roundtrip plain key :
  slen key = 32 → utf8_valid (as_bytes plain) = true →
  ∃ cipher, aes_ecb_encrypt plain key = Ok cipher ∧ aes_ecb_decrypt cipher key = Ok plain.
Proof.
  intros Hk Hu. unfold aes_ecb_encrypt, aes_ecb_decrypt, validate_aes256_key.
  rewrite len_as_bytes, Hk. simpl. eexists. split; [done|].
  pose proof (as_bytes_is_byte plain) as Hb. pose proof (pkcs7_pad_bytes _ Hb) as Hpb.
  destruct (pkcs7_pad_length (as_bytes plain)) as [Hmod _].
  destruct (blocks_exist 16 (pkcs7_pad (as_bytes plain))
    (Z.to_nat (len (pkcs7_pad (as_bytes plain)) / 16))) as (bs & Heq & Hbs).
  { pose proof (Z.div_mod (len (pkcs7_pad (as_bytes plain))) 16).
    pose proof (len_nonneg (pkcs7_pad (as_bytes plain))).
    pose proof (Z.div_pos (len (pkcs7_pad (as_bytes plain))) 16). unfold len in *. lia. }
  assert (Forall (λ b, len b = 16 ∧ Forall is_byte b) bs) as Hbs'.
  { rewrite Heq in Hpb. clear -Hbs Hpb. induction Hbs as [|b bs Hl _ IH]; [done|].
    simpl in Hpb. apply Forall_app in Hpb as [? ?]. constructor; [|by apply IH].
    split; [unfold len; by rewrite Hl|done]. }
  assert (len (as_bytes key) = 32) as Hk' by by rewrite len_as_bytes.
  destruct (ecb_blocks (as_bytes key) bs Hk' Hbs') as (He & Heb & Hd).
  assert (chunks AES_BLOCK_SIZE (pkcs7_pad (as_bytes plain)) = bs) as ->.
  { rewrite Heq. apply chunks_concat; [done|].
    eapply Forall_impl; [exact Hbs'|]. by intros b [? _]. }
  rewrite b64_decode_encode by done. simpl.
  rewrite (chunks_concat AES_BLOCK_SIZE), Hd, <- Heq by done.
  replace (len (concat (aes256_encrypt_block (as_bytes key) <$> bs)) mod AES_BLOCK_SIZE =? 0) with true.
  2:{ symmetry. apply Z.eqb_eq. unfold len. rewrite (concat_length 16).
      - rewrite Nat2Z.inj_mul, Z.mul_comm. by apply Z.mod_mul.
      - eapply Forall_impl; [exact He|]. unfold len. simpl. lia. }
  simpl. rewrite pkcs7_roundtrip by done. simpl. by rewrite from_utf8_as_bytes.
Qed.

(** The key answer of the validation handshake is always produced: it is the
    base64 of the 16-byte MD5 of the prefixed key. *)
Lemma encrypt_key_total key :
  ∃ digest, digest = md5 (as_bytes ("UnitreeGo2_" +:+ key)) ∧ len digest = 16 ∧
    encrypt_key key = Ok (b64_encode digest).
Proof.
  eexists. split; [done|]. destruct (md5_length (as_bytes ("UnitreeGo2_" +:+ key))) as [Hl Hb].
  split; [done|]. unfold encrypt_key, hex_to_base64, md5_hex. by rewrite hex_decode_encode.
Qed.
End roundtrip.

(** A payload of at least 28 bytes is ciphertext, 12-byte nonce, 16-byte tag. *)
Lemma gcm_split (payload : bytes) :
  28 ≤ len payload →
  let ciphertext := slice_to payload (len payload - 28) in
  let nonce := slice_from (slice_to payload (len payload - 16)) (len payload - 28) in
  let tag := slice_from payload (len payload - 16) in
  payload = ciphertext ++ nonce ++ tag ∧ len nonce = 12 ∧ len tag = 16.
Proof.
  intros Hl. simpl. split_and!.
  - rewrite <- (slice_split payload (len payload - 16)) at 1.
    rewrite app_assoc. f_equal.
    rewrite <- (slice_split (slice_to payload (len payload - 16)) (len payload - 28)) at 1. f_equal.
    unfold slice_to. rewrite take_take. f_equal. unfold len. lia.
  - rewrite len_slice_from; rewrite len_slice_to; lia.
  - rewrite len_slice_from; lia.
Qed.

(** AES-GCM decryption reads a payload as ciphertext, 12-byte nonce and
    16-byte tag, in that order and without overlap, and returns exactly the text
    the cipher authenticates for them. *)
Theorem gcm_decrypt_exact `{Crypto} encoded key ciphertext nonce tag plain :
  len nonce = 12 → len tag = 16 →
  b64_decode encoded = Ok (ciphertext ++ nonce ++ tag) →
  aes128_gcm_decrypt key nonce (ciphertext ++ tag) = Ok (as_bytes plain) →
  utf8_valid (as_bytes plain) = true →
  aes_gcm_decrypt_with_key encoded key = Ok plain.
Proof.
  intros Hn Ht Hd Hg Hu. unfold aes_gcm_decrypt_with_key. rewrite Hd. simpl.
  rewrite !len_app, Hn, Ht. pose proof (len_nonneg ciphertext).
  replace (_ <? 28) with false by lia.
  replace (len ciphertext + (12 + 16) - 28) with (len ciphertext) by lia.
  rewrite (slice_to_app ciphertext (nonce ++ tag) (len ciphertext)) by done.
  rewrite (app_assoc ciphertext nonce tag).
  rewrite (slice_to_app (ciphertext ++ nonce) tag) by (rewrite len_app; lia).
  rewrite (slice_from_app ciphertext nonce) by lia.
  rewrite (slice_from_app (ciphertext ++ nonce) tag) by (rewrite len_app; lia).
  rewrite Hg. simpl. by rewrite from_utf8_as_bytes.
Qed.

(** ** Instances: involutive toy ciphers and identity encodings *)
#[local] Instance toy_crypto : Crypto := {|
  md5 _ := replicate 16 0;
  hex_encode := string_of_bytes; hex_decode s := Ok (as_bytes s);
  b64_encode := string_of_bytes; b64_decode s := Ok (as_bytes s);
  aes256_encrypt_block _ l := rev l; aes256_decrypt_block _ l := rev l;
  aes128_gcm_decrypt _ _ l := Ok (slice_to l (len l - 16));
  uuid_simple := "0123456789abcdef0123456789abcdef";
  RsaPublicKey := Z; rsa_size := id;
  from_public_key_der l := Ok (len l); from_pkcs1_der l := Ok (len l);
  rsa_encrypt_block _ _ l := Ok l |}.
#[local] Instance toy_crypto_laws : CryptoLaws.
Proof.
  split; simpl.
  - intros l Hl. by rewrite as_string_of_bytes.
  - intros l Hl. by rewrite as_string_of_bytes.
  - intros _. split; [done|]. apply (Forall_replicate is_byte 16 0). unfold is_byte. lia.
  - intros k b _ Hb Hbytes. unfold len in *. rewrite length_rev. split_and!; [done| |apply rev_involutive].
    by apply Forall_rev.
Qed.

Lemma aes_ecb_roundtrip_witness :
  ∃ cipher, aes_ecb_encrypt "sdp" uuid_simple = Ok cipher ∧
            aes_ecb_decrypt cipher uuid_simple = Ok "sdp".
Proof. apply (aes_ecb_roundtrip "sdp" uuid_simple); vm_compute; reflexivity. Defined.

Lemma gcm_decrypt_exact_witness :
  aes_gcm_decrypt_with_key (string_of_bytes ([104; 105] ++ replicate 12 1 ++ replicate 16 2)) [] =
  Ok "hi".
Proof.
  apply (gcm_decrypt_exact (string_of_bytes ([104; 105] ++ replicate 12 1 ++ replicate 16 2)) []
    [104; 105] (replicate 12 1) (replicate 16 2) "hi"); vm_compute; reflexivity.
Defined.
