(* ===== verification/Signaling.v ===== *)
(** * HTTP signaling (src/src/infrastructure/signaling_http.rs)

    The exchange of the SDP offer with the robot: the legacy endpoint, then the
    encrypted [con_notify] exchange.  reqwest and url are external ([Http],
    [UrlLib]); the parsing of IP addresses is the standard library's and is
    written out.  The theorems: a URL can only name the given address or host,
    and a response is accepted exactly when it is bounded UTF-8 text. *)
From S2P Require Import Prelude Floats Json Utf8 Security.
#[local] Open Scope Z_scope.

Definition SIGNALING_BODY_LIMIT : Z := 1024 * 1024.

(** ** [std::net] parsing: a parser returns its value and the rest. *)
Inductive IpAddr := V4 (octets : list Z) | V6 (segments : list Z).

Definition to_digit (radix : Z) (b : byte) : option Z :=
  let d := if between 48 57 b then b - 48
           else if between 97 102 b then b - 87
           else if between 65 70 b then b - 55 else 36 in
  if d <? radix then Some d else None.
Fixpoint read_digits (radix : Z) (l : bytes) (acc count : Z) : Z * Z * bytes :=
  match l with
  | b :: l' =>
      match to_digit radix b with
      | Some d => read_digits radix l' (acc * radix + d) (count + 1)
      | None => (acc, count, l)
      end
  | [] => (acc, count, l)
  end.
Definition read_number (radix max_digits : Z) (allow_zero_prefix : bool) (max : Z) (l : bytes) :
    option (Z * bytes) :=
  let '(n, count, rest) := read_digits radix l 0 0 in
  if (max_digits <? count) || (count =? 0) then None else
  if negb allow_zero_prefix && bool_decide (head l = Some 48) && (1 <? count) then None else
  if max <? n then None else Some (n, rest).
Definition read_separator {A} (sep : byte) (index : Z) (inner : bytes → option (A * bytes)) (l : bytes) :
    option (A * bytes) :=
  if 0 <? index
  then match l with b :: l' => if b =? sep then inner l' else None | [] => None end
  else inner l.

Fixpoint read_octets (n : nat) (index : Z) (l : bytes) : option (list Z * bytes) :=
  match n with
  | O => Some ([], l)
  | S n =>
      '(o, l) ← read_separator 46 index (read_number 10 3 false 255) l;
      '(os, l) ← read_octets n (index + 1) l;
      Some (o :: os, l)
  end.
Definition read_ipv4_addr (l : bytes) : option (list Z * bytes) := read_octets 4 0 l.

(** [read_groups]: up to [limit] groups, the last two possibly an IPv4 address. *)
Fixpoint read_groups (fuel : nat) (limit i : Z) (groups : list Z) (l : bytes) : list Z * bool * bytes :=
  match fuel with
  | O => (groups, false, l)
  | S fuel =>
      match (if i <? limit - 1 then read_separator 58 i read_ipv4_addr l else None) with
      | Some ([a; b; c; d], l') => (groups ++ [a * 256 + b; c * 256 + d], true, l')
      | _ =>
          match read_separator 58 i (read_number 16 4 true 65535) l with
          | Some (g, l') => read_groups fuel limit (i + 1) (groups ++ [g]) l'
          | None => (groups, false, l)
          end
      end
  end.
Definition read_ipv6_addr (l : bytes) : option (list Z * bytes) :=
  let '(head, head_ipv4, l) := read_groups 8 8 0 [] l in
  if len head =? 8 then Some (head, l) else
  if head_ipv4 then None else
  match l with
  | 58 :: 58 :: l =>
      let limit := 8 - (len head + 1) in
      let '(tail, _, l) := read_groups (Z.to_nat limit) limit 0 [] l in
      Some (head ++ replicate (Z.to_nat (8 - len head - len tail)) 0 ++ tail, l)
  | _ => None
  end.

Definition all_read {A} (r : option (A * bytes)) : option A :=
  '(a, rest) ← r; match rest with [] => Some a | _ => None end.
(** [str::parse::<Ipv6Addr>] and [str::parse::<IpAddr>]. *)
Definition parse_ipv6 (s : string) : option (list Z) := all_read (read_ipv6_addr (as_bytes s)).
Definition parse_ip (s : string) : option IpAddr :=
  all_read match read_ipv4_addr (as_bytes s) with
           | Some (a, rest) => Some (V4 a, rest)
           | None => '(a, rest) ← read_ipv6_addr (as_bytes s); Some (V6 a, rest)
           end.

Example parse_ip_examples :
  parse_ip "192.168.12.1" = Some (V4 [192; 168; 12; 1]) ∧ parse_ip "192.168.012.1" = None ∧
  parse_ip "fe80::1" = Some (V6 [65152; 0; 0; 0; 0; 0; 0; 1]) ∧ parse_ip "1.2.3.4:80" = None ∧
  parse_ipv6 "::ffff:10.0.0.1" = Some [0; 0; 0; 0; 0; 65535; 2560; 1] ∧ parse_ipv6 "1::2::3" = None.
Proof. vm_compute. done. Qed.

(** ** URLs *)
Inductive Host := HIp (ip : IpAddr) | HName (name : string).
Record Url := { u_host : Host; u_port : Z; u_path : string }.

(** The url crate on [http://localhost/]: does [set_ip_host] accept, what
    [host_str] is after [set_host], does [set_port] accept, and [set_path]. *)
Class UrlLib := {
  set_ip_host : IpAddr → bool;
  set_host : string → option string;
  set_port : Z → bool;
  set_path : string → string;
}.

(** [str::split('.')]. *)
Fixpoint split_dots (l : bytes) : list bytes :=
  match l with
  | [] => [[]]
  | b :: l' =>
      if b =? 46 then [] :: split_dots l' else
      match split_dots l' with p :: ps => (b :: p) :: ps | [] => [[b]] end
  end.
Definition label_ok (label : bytes) : bool :=
  match label, last label with
  | first :: _, Some final =>
      (len label <=? 63) && is_ascii_alphanumeric first && is_ascii_alphanumeric final
      && forallb (λ b, is_ascii_alphanumeric b || (b =? 45)) label
  | _, _ => false
  end.
Definition name_ok (name : string) : bool :=
  let l := as_bytes name in
  negb (seqb name "") && (slen name <=? 253)
  && negb (forallb (λ b, is_ascii_digit b || (b =? 46)) l)
  && forallb label_ok (split_dots l).

Definition invalid_host : string :=
  "Invalid signaling host: expected only an IP address or hostname".

Definition host_ip (host : string) : PortResult (option IpAddr) :=
  match strip_prefix "[" host with
  | Some inner =>
      address ← ok_or invalid_host (strip_suffix inner "]");
      ip ← ok_or invalid_host (parse_ipv6 address);
      Ok (Some (V6 ip))
  | None =>
      match parse_ip host with
      | Some ip => Ok (Some ip)
      | None =>
          if name_ok (default host (strip_suffix host ".")) then Ok None else Err invalid_host
      end
  end.

Definition signaling_url `{UrlLib} (host : string) (port : Z) (path : string) : PortResult Url :=
  if seqb host "" || (254 <? slen host) then Err invalid_host else
  ip ← host_ip host;
  h ← match ip with
      | Some ip => if set_ip_host ip then Ok (HIp ip) else Err invalid_host
      | None =>
          parsed ← ok_or invalid_host (set_host host);
          if eq_ignore_ascii_case parsed host then Ok (HName parsed) else Err invalid_host
      end;
  if set_port port then Ok {| u_host := h; u_port := port; u_path := set_path path |}
  else Err invalid_host.

(** ** Responses *)

(** The classification of a [reqwest::Error]. *)
Record ReqwestError := { is_timeout : bool; is_connect : bool; is_body : bool; is_decode : bool }.
Definition signaling_error (prefix : string) (error : ReqwestError) : string :=
  let reason := if is_timeout error then "timeout" else if is_connect error then "connect"
                else if is_body error then "body" else if is_decode error then "decode"
                else "request" in
  prefix +:+ ": " +:+ reason.

(** A response: its body arrives in chunks, one of which may fail. *)
Record Response := {
  status : Z;
  content_length : option Z;
  body : list (result ReqwestError bytes);
}.
Definition is_success (r : Response) : bool := (200 <=? status r) && (status r <? 300).

Definition body_error : string := "Signaling response body exceeds 1 MiB".
Fixpoint read_chunks (l : list (result ReqwestError bytes)) (buf : bytes) : PortResult bytes :=
  match l with
  | [] => Ok buf
  | Err error :: _ => Err (signaling_error "Signaling response read failed" error)
  | Ok chunk :: l =>
      if SIGNALING_BODY_LIMIT - len buf <? len chunk then Err body_error
      else read_chunks l (buf ++ chunk)
  end.
Definition read_response (r : Response) : PortResult string :=
  if match content_length r with Some size => SIGNALING_BODY_LIMIT <? size | None => false end
  then Err body_error else
  b ← read_chunks (body r) [];
  ok_or "Signaling response is not UTF-8" (from_utf8 b).

(** ** con_notify *)
Definition normalize_optional_key (key : option string) : option string :=
  k ← key; if seqb (trim k) "" then None else Some (trim k).

Section exchange.
Context `{UrlLib, Crypto, SerdeJson}.

Definition decode_con_notify_data1 (decoded_json : value) (aes_128_key : option string) :
    PortResult string :=
  data1 ← ok_or "con_notify data1 field missing" (get decoded_json "data1" ≫= as_str);
  data2 ← match get decoded_json "data2" with
          | Some v => ok_or "con_notify data2 must be an integer" (as_i64 v)
          | None => Ok 0
          end;
  match data2 with
  | 0 => Ok data1
  | 2 => decrypt_con_notify_data data1
  | 3 =>
      key ← ok_or "con_notify data2=3 requires aes_128_key or GO2_DORA_UNITREE_AES_128_KEY"
              (normalize_optional_key aes_128_key);
      decrypt_con_notify_data_with_aes_128_key data1 key
  | mode => Err ("unsupported con_notify data2 auth mode: " +:+ pretty mode)
  end.

Definition con_notify_public_key (data1 : string) : PortResult string :=
  if slen data1 <? 20 then Err "con_notify data1 is too short" else
  ok_or "con_notify data1 wrapper has invalid UTF-8 boundaries" (str_get data1 10 (slen data1 - 10)).

(** [symbols.position]: "A" to "J". *)
Definition symbol_index (c : bytes) : option Z :=
  match c with [b] => if between 65 74 b then Some (b - 65) else None | _ => None end.
(** The [chunks(2)] of the last ten characters. *)
Fixpoint path_digits (l : list bytes) : string :=
  match l with
  | _ :: second :: l =>
      match symbol_index second with
      | Some index => pretty index +:+ path_digits l
      | None => path_digits l
      end
  | _ => ""
  end.
Definition calc_local_path_ending (data1 : string) : string :=
  let last_ten := take 10 (rev (chars data1)) in
  if len last_ten <? 10 then "" else path_digits (rev last_ten).

(** [client.post(url).header("Content-Type", ..).body(..).send()], and the
    [Display] of a status. *)
Class Http := {
  post : Url → option string → string → result ReqwestError Response;
  status_display : Z → string;
}.
Context `{Http} (json_from_str : string → option value).

Definition request (url : Url) (content_type : option string) (text what : string) : PortResult string :=
  response ← map_err (signaling_error "Signaling request failed") (post url content_type text);
  if negb (is_success response) then Err (what +:+ status_display (status response)) else
  read_response response.

Definition send_sdp_local_old (ip sdp_json : string) : PortResult string :=
  url ← signaling_url ip 8081 "/offer";
  request url (Some "application/json") sdp_json "Failed to receive SDP answer from old method: ".

Definition send_sdp_local_new_with_aes_key (ip sdp_json : string) (aes_128_key : option string) :
    PortResult string :=
  notify_url ← signaling_url ip 9991 "/con_notify";
  encoded_payload ← request notify_url None "" "Failed to receive con_notify response: ";
  decoded_payload ← map_err (λ _, "Invalid con_notify base64") (b64_decode encoded_payload);
  decoded_text ← ok_or "Invalid con_notify UTF-8" (from_utf8 decoded_payload);
  decoded_json ← ok_or "Invalid con_notify JSON" (json_from_str decoded_text);
  plain ← decode_con_notify_data1 decoded_json aes_128_key;
  let decoded_json := set_key decoded_json "data1" (JString plain) in
  data1 ← ok_or "con_notify data1 field missing" (get decoded_json "data1" ≫= as_str);
  public_key_pem ← con_notify_public_key data1;
  let path_ending := calc_local_path_ending data1 in
  let aes_key := generate_aes_key in
  public_key ← rsa_load_public_key public_key_pem;
  encrypted_offer ← aes_ecb_encrypt sdp_json aes_key;
  encrypted_key ← rsa_encrypt aes_key public_key;
  let text := value_display (obj [("data1", JString encrypted_offer); ("data2", JString encrypted_key)]) in
  ingest_url ← signaling_url ip 9991 ("/con_ing_" +:+ path_ending);
  encrypted_answer ← request ingest_url (Some "application/x-www-form-urlencoded") text
                       "Failed to receive con_ing response: ";
  aes_ecb_decrypt encrypted_answer aes_key.

Definition send_sdp_local_new (ip sdp_json : string) : PortResult string :=
  send_sdp_local_new_with_aes_key ip sdp_json None.

Definition send_sdp_local_with_aes_key (ip sdp_json : string) (aes_128_key : option string) :
    PortResult string :=
  match send_sdp_local_old ip sdp_json with
  | Ok answer => Ok answer
  | Err legacy_error =>
      map_err (λ new_error, "legacy offer failed (" +:+ legacy_error +:+
                 "); con_notify offer failed (" +:+ new_error +:+ ")")
        (send_sdp_local_new_with_aes_key ip sdp_json aes_128_key)
  end.

Definition send_sdp_local (ip sdp_json : string) : PortResult string :=
  send_sdp_local_with_aes_key ip sdp_json None.

Definition send_sdp_remote (serial sdp_json : string) : PortResult string :=
  Err "Remote signaling is not implemented in phase 1".

(** [HttpSignalingClient::new] and [exchange_sdp]. *)
Definition exchange_sdp (aes_128_key : option string) (ip offer : string) : PortResult string :=
  send_sdp_local_with_aes_key ip offer (normalize_optional_key aes_128_key).
End exchange.

(** ** Hosts *)
Definition safe_byte (b : byte) : bool := is_ascii_alphanumeric b || (b =? 45) || (b =? 46).

Lemma elem_of_split_dots l b : b ∈ l → b = 46 ∨ ∃ p, p ∈ split_dots l ∧ b ∈ p.
Proof.
  induction l as [|c l IH]; [by intros ?%elem_of_nil|].
  intros [->|Hb]%elem_of_cons; simpl; destruct (c =? 46) eqn:Hc.
  - left. lia.
  - right. destruct (split_dots l) as [|p ps]; eexists; (split; [by apply elem_of_cons; left|]);
      apply elem_of_cons; by left.
  - destruct (IH Hb) as [?|(p & Hp & Hbp)]; [by left|right]. exists p. by split; [apply elem_of_cons; right|].
  - destruct (IH Hb) as [?|(p & Hp & Hbp)]; [by left|right].
    destruct (split_dots l) as [|q ps]; [by apply elem_of_nil in Hp|].
    apply elem_of_cons in Hp as [->|Hp].
    + exists (c :: q). by split; [apply elem_of_cons; left|apply elem_of_cons; right].
    + exists p. by split; [apply elem_of_cons; right|].
Qed.

Lemma name_ok_safe name : name_ok name = true → Forall (λ b, safe_byte b = true) (as_bytes name).
Proof.
  unfold name_ok. rewrite !andb_true_iff. intros [_ Hlabels]. rewrite forallb_forall in Hlabels.
  apply Forall_forall. intros b Hb. unfold safe_byte.
  destruct (elem_of_split_dots _ _ Hb) as [->|(p & Hp & Hbp)]; [done|].
  apply list_elem_of_In, Hlabels in Hp. unfold label_ok in Hp.
  destruct p as [|c p]; [by apply elem_of_nil in Hbp|]. destruct (last (c :: p)); [|done].
  rewrite !andb_true_iff, forallb_forall in Hp. destruct Hp as [_ Hp].
  apply list_elem_of_In, Hp, orb_true_iff in Hbp as [->| ->]; [done|]. by rewrite orb_true_r.
Qed.

(** What the accepted hosts are. *)
Definition host_named (host : string) (h : Host) : Prop :=
  match h with
  | HIp ip => parse_ip host = Some ip ∨
      ∃ address segments, host = "[" +:+ address +:+ "]" ∧
        parse_ipv6 address = Some segments ∧ ip = V6 segments
  | HName name => eq_ignore_ascii_case name host = true ∧
      Forall (λ b, safe_byte b = true) (as_bytes host)
  end.

Lemma host_ip_Ok host ip :
  host_ip host = Ok ip →
  match ip with
  | Some a => host_named host (HIp a)
  | None => Forall (λ b, safe_byte b = true) (as_bytes host)
  end.
Proof.
  unfold host_ip. destruct (strip_prefix "[" host) as [inner|] eqn:Hpre.
  - intros (address & Hsuf & Hk)%result_bind_Ok. apply result_bind_Ok in Hk as (a & Ha & [= <-]).
    apply ok_or_Ok in Hsuf, Ha. right. exists address, a.
    rewrite (strip_prefix_Some _ _ _ Hpre), (strip_suffix_Some _ _ _ Hsuf). done.
  - destruct (parse_ip host) as [a|] eqn:Ha; [intros [= <-]; by left|].
    destruct (name_ok _) eqn:Hn; [|done]. intros [= <-].
    apply name_ok_safe in Hn. destruct (strip_suffix host ".") as [name|] eqn:Hsuf; simpl in Hn; [|done].
    rewrite (strip_suffix_Some _ _ _ Hsuf), as_bytes_app. apply Forall_app. split; [done|].
    by repeat constructor.
Qed.

(** C40: an accepted signaling URL addresses what the caller named and nothing
    else: its host is the IP address the text parses to, or, up to ASCII case,
    the text itself, which then has only letters, digits, hyphens and dots (so
    no port, path, user info or second authority can ride along); its port and
    path are the given ones. *)
Theorem signaling_url_host `{UrlLib} host port path u :
  signaling_url host port path = Ok u →
  u_port u = port ∧ u_path u = set_path path ∧ 0 < slen host ≤ 254 ∧ host_named host (u_host u).
Proof.
  unfold signaling_url. destruct (seqb host "") eqn:Hempty; [done|]. simpl.
  destruct (254 <? slen host) eqn:Hlen; [done|].
  intros (ip & Hip%host_ip_Ok & Hk)%result_bind_Ok.
  apply result_bind_Ok in Hk as (h & Hh & Hu). destruct (set_port port); [|done].
  injection Hu as <-. simpl. split_and!; try done; [|lia|].
  - destruct host; [done|]. unfold slen. simpl. lia.
  - destruct ip as [a|].
    + destruct (set_ip_host a); [|done]. by injection Hh as <-.
    + apply result_bind_Ok in Hh as (parsed & _ & Hh).
      destruct (eq_ignore_ascii_case parsed host) eqn:He; [|done]. by injection Hh as <-.
Qed.

(** ** Bodies *)
Lemma read_chunks_Ok l : ∀ buf b,
  len buf ≤ SIGNALING_BODY_LIMIT →
  read_chunks l buf = Ok b ↔
  ∃ cs, l = Ok <$> cs ∧ b = buf ++ concat cs ∧ len b ≤ SIGNALING_BODY_LIMIT.
Proof.
  induction l as [|[c|e] l IH]; intros buf b Hbuf; simpl.
  - split.
    + intros [= <-]. exists []. by rewrite app_nil_r.
    + intros ([|] & ? & -> & _); [|done]. by rewrite app_nil_r.
  - destruct (_ <? len c) eqn:Hc.
    + split; [done|]. intros ([|c' cs] & Hl & -> & Hb); [done|]. rewrite fmap_cons in Hl.
      injection Hl as <- _. simpl in Hb. rewrite !len_app in Hb.
      pose proof (len_nonneg (concat cs)). lia.
    + rewrite IH by (rewrite len_app; lia). split.
      * intros (cs & -> & -> & Hb). exists (c :: cs). rewrite <- app_assoc in *. done.
      * intros ([|c' cs] & Hl & -> & Hb); [done|]. rewrite fmap_cons in Hl.
        injection Hl as <- ->. exists cs. simpl in *. by rewrite <- app_assoc.
  - split; [done|]. intros ([|] & Hl & _); done.
Qed.

(** A response is accepted exactly when its declared length and the bytes
    that actually arrive are at most 1 MiB, no chunk fails, and they are UTF-8;
    the text is then all of the bytes, and no more than the limit is buffered. *)
Theorem read_response_exact r text :
  read_response r = Ok text ↔
  (∀ size, content_length r = Some size → size ≤ SIGNALING_BODY_LIMIT) ∧
  ∃ cs, body r = Ok <$> cs ∧ len (concat cs) ≤ SIGNALING_BODY_LIMIT ∧
    from_utf8 (concat cs) = Some text.
Proof.
  unfold read_response.
  assert ((match content_length r with Some size => SIGNALING_BODY_LIMIT <? size | None => false end)
    = false ↔ ∀ size, content_length r = Some size → size ≤ SIGNALING_BODY_LIMIT) as Hsize.
  { destruct (content_length r) as [n|]; [|naive_solver].
    split; [intros ? ? [= <-]; lia|]. intros Hn. specialize (Hn n eq_refl). lia. }
  rewrite <- Hsize. destruct (match content_length r with Some _ => _ | None => _ end); [naive_solver|].
  rewrite result_bind_Ok. setoid_rewrite ok_or_Ok. split.
  - intros (b & (cs & Hl & -> & Hb)%read_chunks_Ok & Ht); [|done]. split; [done|]. by exists cs.
  - intros (_ & cs & Hl & Hb & Ht). exists (concat cs). split; [|done].
    apply read_chunks_Ok; [done|]. by exists cs.
Qed.

(** *** The path of the encrypted exchange *)
Lemma pretty_digit i : 0 ≤ i ≤ 9 → as_bytes (pretty i) = [48 + i].
Proof.
  intros Hi.
  assert (i = 0 ∨ i = 1 ∨ i = 2 ∨ i = 3 ∨ i = 4 ∨ i = 5 ∨ i = 6 ∨ i = 7 ∨ i = 8 ∨ i = 9) as Hc by lia.
  repeat destruct Hc as [->|Hc]; subst; vm_compute; reflexivity.
Qed.
Lemma symbol_index_digit c i : symbol_index c = Some i → 0 ≤ i ≤ 9.
Proof.
  unfold symbol_index, between. destruct c as [|b [|]]; try done.
  destruct ((65 <=? b) && (b <=? 74)) eqn:Hb; [|done]. intros [= <-].
  apply andb_true_iff in Hb. lia.
Qed.
Lemma path_digits_safe n : ∀ l, (length l ≤ 2 * n)%nat →
  Forall (λ b, is_ascii_digit b = true) (as_bytes (path_digits l)) ∧
  slen (path_digits l) ≤ Z.of_nat n.
Proof.
  induction n as [|n IH]; intros l Hl.
  - destruct l; [|simpl in Hl; lia]. split; [apply Forall_nil_2|done].
  - destruct l as [|a [|b l]]; [split; [apply Forall_nil_2|unfold slen; cbn; lia]..|].
    destruct (IH l) as [Hd Hs]; [simpl in Hl; lia|]. cbn [path_digits].
    destruct (symbol_index b) as [i|] eqn:Hi; [|split; [done|lia]].
    apply symbol_index_digit in Hi. pose proof (pretty_digit i Hi) as Hp.
    rewrite <- len_as_bytes, as_bytes_app, Hp. split.
    + constructor; [|done]. unfold is_ascii_digit, between. apply andb_true_iff. lia.
    + rewrite len_app, len_as_bytes. change (len [48 + i]) with 1. lia.
Qed.

(** Whatever a robot answers to [con_notify], the path of the second
    request is [/con_ing_] and at most five digits. *)
Theorem path_ending_safe data1 :
  Forall (λ b, is_ascii_digit b = true) (as_bytes (calc_local_path_ending data1)) ∧
  slen (calc_local_path_ending data1) ≤ 5.
Proof.
  unfold calc_local_path_ending. destruct (_ <? 10); [split; [apply Forall_nil_2|done]|].
  apply (path_digits_safe 5). rewrite length_rev, length_take. lia.
Qed.

(** ** Example *)
#[local] Instance demo_urls : UrlLib := {|
  set_ip_host _ := true; set_host := Some; set_port _ := true; set_path := id |}.
Lemma signaling_url_host_witness :
  signaling_url "go2.local" 8081 "/offer" =
    Ok {| u_host := HName "go2.local"; u_port := 8081; u_path := "/offer" |} ∧
  host_named "go2.local" (HName "go2.local") ∧
  signaling_url "go2.local:80@evil" 8081 "/offer" = Err invalid_host.
Proof.
  split; [vm_compute; reflexivity|]. split; [|vm_compute; reflexivity].
  destruct (signaling_url_host "go2.local" 8081 "/offer"
    {| u_host := HName "go2.local"; u_port := 8081; u_path := "/offer" |}) as (_ & _ & _ & Hh);
    [vm_compute; reflexivity|exact Hh].
Defined.
