(* ===== verification/JsonText.v ===== *)
(** * JSON text

    A concrete reader and writer of JSON text (RFC 8259), as serde_json documents its
    own: the instances of [JsonReader] and [SerdeJson] on which the tests of the
    repository are replayed.  No theorem about the program depends on them. *)
From S2P Require Import Prelude Floats Json Ingress Utf8.
#[local] Open Scope Z_scope.

(** ** Numbers *)

(** The [f64] nearest to [m * 10 ^ e]. *)
Definition decimal_f64 (m e : Z) : f64 :=
  if 0 <=? e then F64.of_Z (m * 10 ^ e) else
  let d := 10 ^ (- e) in
  let s := 64 + Z.log2 d in
  let q := (m * 2 ^ s) / d in
  let sticky := if (m * 2 ^ s) mod d =? 0 then 0 else 1 in
  binary_normalize 53 1024 (2 * q + sticky) (- s - 1) false.

(** [m * 2 ^ e * 10 ^ k], rounded. *)
Definition scaled (m e k : Z) : Z :=
  if 0 <=? e then m * 2 ^ e * 10 ^ k else div_half_even (m * 10 ^ k) (2 ^ (- e)).
Fixpoint pad_left (n : nat) (s : string) : string :=
  match n with O => s | S n => if (String.length s <=? n)%nat then pad_left n ("0" +:+ s) else s end.
(** [n] with [k] digits after the point. *)
Definition pretty_decimal (n : Z) (k : nat) : string :=
  let d := 10 ^ Z.of_nat k in
  pretty (n / d) +:+ "." +:+ pad_left k (pretty (n mod d)).
(** The shortest decimal, with at least [k] digits after the point, that reads back. *)
Fixpoint shortest (fuel k : nat) (m e : Z) : string :=
  let n := scaled m e (Z.of_nat k) in
  match fuel with
  | O => pretty_decimal n k
  | S fuel =>
      if bool_decide (decimal_f64 n (- Z.of_nat k) = binary_normalize 53 1024 m e false)
      then pretty_decimal n k else shortest fuel (S k) m e
  end.
Definition write_f64 (x : f64) : string :=
  match x with
  | S754_zero false => "0.0"
  | S754_zero true => "-0.0"
  | S754_finite s m e => (if s then "-" else "") +:+ shortest 17 1 (Zpos m) e
  | _ => "null"
  end.
Definition write_fixed1 (x : f64) : string :=
  match x with
  | S754_finite s m e => (if s then "-" else "") +:+ pretty_decimal (scaled (Zpos m) e 1) 1
  | _ => "0.0"
  end.

(** ** Writing *)
Definition hex_char (n : Z) : string := string_of_bytes [if n <? 10 then 48 + n else 87 + n].
Definition quote_char : string := string_of_bytes [34].
Definition write_byte (b : byte) : string :=
  if b =? 34 then string_of_bytes [92; 34] else
  if b =? 92 then string_of_bytes [92; 92] else
  if b =? 8 then "\b" else if b =? 9 then "\t" else if b =? 10 then "\n" else
  if b =? 12 then "\f" else if b =? 13 then "\r" else
  if b <? 32 then "\u00" +:+ hex_char (b / 16) +:+ hex_char (b mod 16)
  else string_of_bytes [b].
Definition write_string (s : string) : string :=
  quote_char +:+ foldr (λ b acc, write_byte b +:+ acc) "" (as_bytes s) +:+ quote_char.
Definition write_number (n : number) : string :=
  match n with PosInt n | NegInt n => pretty n | Float x => write_f64 x end.
Fixpoint write_value (v : value) : string :=
  match v with
  | JNull => "null"
  | JBool b => if b then "true" else "false"
  | JNumber n => write_number n
  | JString s => write_string s
  | JArray l => "[" +:+ String.concat "," (write_value <$> l) +:+ "]"
  | JObject m => "{" +:+ String.concat "," ((λ kv, write_string kv.1 +:+ ":" +:+ write_value kv.2) <$> m) +:+ "}"
  end.

(** ** Reading *)
Definition is_space (b : byte) : bool := (b =? 32) || (b =? 9) || (b =? 10) || (b =? 13).
Definition skip (l : bytes) : bytes := drop_while is_space l.
Fixpoint read_word (w : bytes) (l : bytes) : option bytes :=
  match w, l with
  | [], _ => Some l
  | a :: w, b :: l => if a =? b then read_word w l else None
  | _, [] => None
  end.

Definition hex_digit (b : byte) : option Z :=
  if between 48 57 b then Some (b - 48) else
  if between 97 102 b then Some (b - 87) else
  if between 65 70 b then Some (b - 55) else None.
Definition hex4 (a b c d : byte) : option Z :=
  a ← hex_digit a; b ← hex_digit b; c ← hex_digit c; d ← hex_digit d;
  Some (((a * 16 + b) * 16 + c) * 16 + d).
Definition utf8_of (c : Z) : bytes :=
  if c <? 128 then [c] else
  if c <? 2048 then [192 + c / 64; 128 + c mod 64] else
  if c <? 65536 then [224 + c / 4096; 128 + (c / 64) mod 64; 128 + c mod 64]
  else [240 + c / 262144; 128 + (c / 4096) mod 64; 128 + (c / 64) mod 64; 128 + c mod 64].
Definition escaped (b : byte) : option byte :=
  if (b =? 34) || (b =? 92) || (b =? 47) then Some b else
  if b =? 98 then Some 8 else if b =? 102 then Some 12 else if b =? 110 then Some 10 else
  if b =? 114 then Some 13 else if b =? 116 then Some 9 else None.

(** The rest of a string, after its quote: what it holds, and what follows it. *)
Fixpoint read_string (l : bytes) : option (bytes * bytes) :=
  let put (c : bytes) (r : option (bytes * bytes)) := '(s, l) ← r; Some (c ++ s, l) in
  match l with
  | [] => None
  | b :: l =>
      if b =? 34 then Some ([], l) else
      if b <? 32 then None else
      if negb (b =? 92) then put [b] (read_string l) else
      match l with
      | e :: l1 =>
          if negb (e =? 117) then c ← escaped e; put [c] (read_string l1) else
          match l1 with
          | a1 :: a2 :: a3 :: a4 :: l2 =>
              hi ← hex4 a1 a2 a3 a4;
              if between 55296 56319 hi then
                match l2 with
                | s :: u :: b1 :: b2 :: b3 :: b4 :: l3 =>
                    lo ← hex4 b1 b2 b3 b4;
                    if (s =? 92) && (u =? 117) && between 56320 57343 lo
                    then put (utf8_of (65536 + (hi - 55296) * 1024 + (lo - 56320))) (read_string l3)
                    else None
                | _ => None
                end
              else if between 56320 57343 hi then None
              else put (utf8_of hi) (read_string l2)
          | _ => None
          end
      | [] => None
      end
  end.
Definition read_str (l : bytes) : option (string * bytes) :=
  '(s, l) ← read_string l; s ← from_utf8 s; Some (s, l).

Fixpoint take_while (p : byte → bool) (l : bytes) : bytes * bytes :=
  match l with
  | b :: l' => if p b then let '(a, r) := take_while p l' in (b :: a, r) else ([], l)
  | [] => ([], [])
  end.
Definition digits (l : bytes) : bytes * bytes := take_while is_ascii_digit l.
Definition digits_value (l : bytes) : Z := foldl (λ acc b, acc * 10 + (b - 48)) 0 l.
(** Fraction and exponent: the digits of the first, the value of the second. *)
Definition read_fraction (l : bytes) : option (option bytes * bytes) :=
  match l with
  | 46 :: l => match digits l with ([], _) => None | (f, l) => Some (Some f, l) end
  | _ => Some (None, l)
  end.
Definition read_exponent (l : bytes) : option (option Z * bytes) :=
  match l with
  | e :: l' =>
      if negb ((e =? 101) || (e =? 69)) then Some (None, l) else
      let '(sign, l') := match l' with
                         | s :: r => if s =? 45 then (-1, r) else if s =? 43 then (1, r) else (1, l')
                         | [] => (1, l')
                         end in
      match digits l' with ([], _) => None | (f, l') => Some (Some (sign * digits_value f), l') end
  | [] => Some (None, l)
  end.
Definition negate (neg : bool) (x : f64) : f64 := if neg then SFopp x else x.
Definition read_number (neg : bool) (l : bytes) : option (json_doc * bytes) :=
  let '(int, l) := digits l in
  match int with
  | [] => None
  | d :: ds =>
      if (d =? 48) && negb (bool_decide (ds = [])) then None else
      '(frac, l) ← read_fraction l;
      '(exp, l) ← read_exponent l;
      let n := digits_value int in
      match frac, exp with
      | None, None =>
          Some (if neg then if n =? 0 then DF64 (S754_zero true)
                            else if n <=? - i64_min then DI64 (- n) else DF64 (F64.of_Z (- n))
                else if n <=? u64_max then DU64 n else DF64 (F64.of_Z n), l)
      | _, _ =>
          let f := default [] frac in
          Some (DF64 (negate neg (decimal_f64 (digits_value (int ++ f)) (default 0 exp - len f))), l)
      end
  end.

(** The value at the head of the text; the rest of an array, of an object. *)
Fixpoint read_value (fuel : nat) (l : bytes) : option (json_doc * bytes) :=
  match fuel with
  | O => None
  | S fuel =>
      match skip l with
      | [] => None
      | b :: l =>
          if b =? 34 then '(s, l) ← read_str l; Some (DStr s, l) else
          if b =? 91 then
            match skip l with
            | b' :: l' => if b' =? 93 then Some (DSeq [], l') else
                          '(xs, l) ← read_items fuel l; Some (DSeq xs, l)
            | [] => None
            end
          else if b =? 123 then
            match skip l with
            | b' :: l' => if b' =? 125 then Some (DMap [], l') else
                          '(xs, l) ← read_entries fuel l; Some (DMap xs, l)
            | [] => None
            end
          else if b =? 110 then l ← read_word (as_bytes "ull") l; Some (DUnit, l)
          else if b =? 116 then l ← read_word (as_bytes "rue") l; Some (DBool true, l)
          else if b =? 102 then l ← read_word (as_bytes "alse") l; Some (DBool false, l)
          else if b =? 45 then read_number true l
          else read_number false (b :: l)
      end
  end
with read_items (fuel : nat) (l : bytes) : option (list json_doc * bytes) :=
  match fuel with
  | O => None
  | S fuel =>
      '(x, l) ← read_value fuel l;
      match skip l with
      | b :: l => if b =? 93 then Some ([x], l) else
                  if b =? 44 then '(xs, l) ← read_items fuel l; Some (x :: xs, l) else None
      | [] => None
      end
  end
with read_entries (fuel : nat) (l : bytes) : option (list (string * json_doc) * bytes) :=
  match fuel with
  | O => None
  | S fuel =>
      match skip l with
      | q :: l =>
          if negb (q =? 34) then None else
          '(k, l) ← read_str l;
          match skip l with
          | c :: l =>
              if negb (c =? 58) then None else
              '(x, l) ← read_value fuel l;
              match skip l with
              | b :: l => if b =? 125 then Some ([(k, x)], l) else
                          if b =? 44 then '(xs, l) ← read_entries fuel l; Some ((k, x) :: xs, l) else None
              | [] => None
              end
          | [] => None
          end
      | [] => None
      end
  end.
Definition read (l : bytes) : option (json_doc * bytes) := read_value (S (length l)) l.

#[export] Instance text_reader : JsonReader := {|
  document l := match read l with Some (d, _) => d | None => DFail end;
  document_end l := match read l with Some (_, rest) => bool_decide (skip rest = []) | None => false end |}.
#[export] Instance text_writer : SerdeJson := {|
  json_to_string v := Ok (write_value v);
  value_display := write_value;
  f64_to_string := write_f64;
  f64_to_fixed1 := write_fixed1 |}.

(** ** Equality of values *)
#[export] Instance spec_float_eq_dec : EqDecision spec_float.
Proof. solve_decision. Defined.
#[export] Instance number_eq_dec : EqDecision number.
Proof. solve_decision. Defined.
Fixpoint value_eqb (v w : value) : bool :=
  match v, w with
  | JNull, JNull => true
  | JBool a, JBool b => eqb a b
  | JNumber a, JNumber b => bool_decide (a = b)
  | JString a, JString b => seqb a b
  | JArray l, JArray k =>
      (fix go l k := match l, k with
       | [], [] => true
       | x :: l, y :: k => value_eqb x y && go l k
       | _, _ => false
       end) l k
  | JObject l, JObject k =>
      (fix go l k := match l, k with
       | [], [] => true
       | x :: l, y :: k => seqb x.1 y.1 && value_eqb x.2 y.2 && go l k
       | _, _ => false
       end) l k
  | _, _ => false
  end.
Lemma value_eqb_eq v w : value_eqb v w = true ↔ v = w.
Proof.
  revert w. induction v as [|b|n|s|l IH|m IH] using value_ind'; intros []; try (simpl; split; congruence).
  - simpl. rewrite eqb_true_iff. naive_solver.
  - simpl. rewrite bool_decide_eq_true. naive_solver.
  - simpl. unfold seqb. rewrite String.eqb_eq. naive_solver.
  - simpl. revert l0. induction IH as [|x l Hx _ IHl]; intros [|y k]; try (split; congruence).
    rewrite andb_true_iff, Hx, IHl. naive_solver.
  - simpl. revert m0. induction IH as [|[i x] l Hx _ IHl]; intros [|[j y] k]; try (split; congruence).
    simpl in *. unfold seqb in *. rewrite !andb_true_iff, String.eqb_eq, Hx, IHl. naive_solver.
Qed.
#[export] Instance value_eq_dec : EqDecision value.
Proof.
  intros v w. destruct (value_eqb v w) eqn:E; [left; by apply value_eqb_eq|right].
  intros Hv%value_eqb_eq. congruence.
Defined.

(** ** What it reads back *)
Definition sample_value : value :=
  obj [("a", JArray [JNull; JBool true; jint (-1); jint 18446744073709551615]);
       ("position", JArray [JNumber (Float (decimal_f64 981 (-2))); JNumber (Float (decimal_f64 9 (-2)));
                            JNumber (Float (F64.of_Z 1))]);
       ("text", JString (string_of_bytes [34; 92; 10; 1; 235; 161; 156]))].
Example sample_round_trip : parse_json (as_bytes (write_value sample_value)) = Ok sample_value.
Proof. by vm_compute. Qed.
