(* ===== verification/Ports.v ===== *)
(** * Ports (src/src/protocol/ports.rs)

    [DataChannelPort], the interface between the data channel service and its
    transport, as a type class: the operations in state-passing style, and in
    [DataChannelPortSpec] what the service relies on.  The service is verified
    against the classes, the engine is an instance of both. *)
From S2P Require Import Prelude Floats Json.
#[local] Open Scope Z_scope.

Class DataChannelPort (T : Type) := {
  send_text : string → T → PortResult () * T;
  send_binary : bytes → T → PortResult () * T;
  set_ingress_generation : Z → T → PortResult () * T;
  take_transport_error : T → option IngressMessage * T;
  ready_state : T → string;
}.

Class DataChannelPortSpec (T : Type) `{DataChannelPort T} := {
  (** The generation incoming messages are tagged with. *)
  port_generation : T → Z;
  send_text_closed m t : ready_state t ≠ "open" → is_err (send_text m t).1 = true;
  send_text_frame m t :
    ready_state (send_text m t).2 = ready_state t ∧
    port_generation (send_text m t).2 = port_generation t;
  (** A new generation closes the channel and forgets an older fault. *)
  set_generation_spec g t t' :
    set_ingress_generation g t = (Ok (), t') →
    port_generation t' = g ∧ (take_transport_error t').1 = None ∧
    (port_generation t ≠ g → ready_state t' ≠ "open");
}.
