(* ===== verification/Service.v ===== *)
(** * Data channel service (src/src/datachannel/core/service.rs)

    [DataChannelService]: requests waiting for responses, subscriptions, chunked
    responses, validation, heartbeat, throttling and dispatch.  Every method
    that changes state runs under [lifecycle_lock], so an execution is a
    sequence of the operations below ([svc_op]); the state is split into the
    groups the methods touch.  [session_id] is the generation cell of the event
    channel, which the source shares. *)
From S2P Require Import Prelude Floats Json Ingress Framing Diagnostics Constants Channel.
From S2P Require Import Events Lidar Utf8 Security Chunks Ports.
#[local] Open Scope Z_scope.

Definition MAX_PENDING_REQUESTS : Z := 128.

(** ** Data *)
Inductive CoreLog :=
  | LParse | LChunk | LCallback | LBinary | LLidarSubmit | LLidarInvalid | LControlSend.
#[export] Instance CoreLog_eq_dec : EqDecision CoreLog.
Proof. solve_decision. Defined.
Definition CoreDiagnostics : Type := CoreLog → RepeatState.
Definition diagnostics_reset (d : CoreDiagnostics) : CoreDiagnostics :=
  λ l, (Diagnostics.reset (d l)).2.

Record ResponseExpectation := { topics : option (list string); api_id : option Z }.

(** The oneshot of a request is named by its token ([Arc<()>] identity). *)
Record PendingCallback := {
  token : Z;
  expectation : ResponseExpectation;
  pc_session_id : Z;
}.

(** [pending_callbacks] and [chunk_data_storage], with the oneshots that have
    been sent and the next fresh token. *)
Record Requests := {
  pending_callbacks : gmap string PendingCallback;
  chunk_data_storage : ChunkAssembler;
  replies : gmap Z (PortResult value);
  next_token : Z;
}.
Record Link := {
  data_channel_opened : bool;
  heartbeat_last_response : Z;
  heartbeat_running : bool;
  heartbeat_stop_tx : option Z;      (* which heartbeat thread it stops *)
  heartbeat_starts : Z;
  network_probe_running : bool;
  validation_key : string;
}.
Record Routing (C : Type → Type) := {
  subscriptions : gset string;
  last_process_time : gmap string f64;
  decoder_type : string;
  callback_events : Events C;
  lidar_queue : C LidarDecodeRequest;
}.
Arguments subscriptions {C}. Arguments last_process_time {C}. Arguments decoder_type {C}.
Arguments callback_events {C}. Arguments lidar_queue {C}.
Record Service (C : Type → Type) (T : Type) := {
  transport : T;
  requests : Requests;
  link : Link;
  routing : Routing C;
  request_sequence : Z;
  diagnostics : CoreDiagnostics;
}.
Arguments transport {C T}. Arguments requests {C T}. Arguments link {C T}.
Arguments routing {C T}. Arguments request_sequence {C T}. Arguments diagnostics {C T}.

(** What a call reads from the clocks and the generators. *)
Record env := {
  instant : Z;               (* Instant::now *)
  unix_secs : Z;             (* now_secs_u64 *)
  secs_binary : f64;         (* now_secs_f64 in process_binary_payload *)
  secs_dispatch : f64;       (* now_secs_f64 in dispatch_subscription *)
  fresh_uuid : string;
  local_time : string;
}.

(** ** Response expectations *)
Definition any_response : ResponseExpectation := {| topics := None; api_id := None |}.

Definition expected_response_topic (request_topic : string) : string :=
  match strip_suffix request_topic "/request" with
  | Some prefix => prefix +:+ "/response"
  | None => request_topic
  end.

Definition for_api_request (request_topic : string) (id : Z) : ResponseExpectation :=
  let response_topic := expected_response_topic request_topic in
  {| topics := Some (request_topic ::
       (if seqb response_topic request_topic then [] else [response_topic]));
     api_id := Some id |}.

Definition option_debug (o : option Z) : string :=
  match o with Some n => "Some(" +:+ pretty n +:+ ")" | None => "None" end.

Definition validate (e : ResponseExpectation) (message : value) : PortResult () :=
  _ ← match topics e with
      | Some expected_topics =>
          let actual_topic := default "" (get message "topic" ≫= as_str) in
          if existsb (λ t, seqb t actual_topic) expected_topics then Ok ()
          else Err "Response topic mismatch"
      | None => Ok ()
      end;
  match api_id e with
  | Some expected_api_id =>
      let actual_api_id := get_path message ["data"; "header"; "identity"; "api_id"] ≫= as_i64 in
      if decide (actual_api_id = Some expected_api_id) then Ok ()
      else Err ("Response api_id mismatch: expected " +:+ pretty expected_api_id +:+ ", got "
                +:+ option_debug actual_api_id)
  | None => Ok ()
  end.

(** ** Message types: [dc_types] panics on a missing key; none is missing. *)
Definition dc_type (key : string) : string := default "" (BTree.get key data_channel_type).
Module types.
Definition validation := dc_type "VALIDATION".
Definition subscribe := dc_type "SUBSCRIBE".
Definition unsubscribe := dc_type "UNSUBSCRIBE".
Definition msg := dc_type "MSG".
Definition request := dc_type "REQUEST".
Definition vid := dc_type "VID".
Definition aud := dc_type "AUD".
Definition err := dc_type "ERR".
Definition heartbeat := dc_type "HEARTBEAT".
Definition rtc_inner_req := dc_type "RTC_INNER_REQ".
Definition add_error := dc_type "ADD_ERROR".
Definition rm_error := dc_type "RM_ERROR".
Definition errors := dc_type "ERRORS".
End types.

(** [throttle_limits], as the constructor fills it. *)
Definition throttle_interval : f64 := F64.div (F64.of_Z 1) (F64.of_Z 15).
Definition throttle_limits : gmap string f64 :=
  <[types.vid := throttle_interval]>
    (<["rt/utlidar/voxel_map_compressed" := throttle_interval]> ∅).

(** ** Keys *)
Section keys.
Context `{SerdeJson}.

Definition generate_message_key (msg_type topic : string) (identifier : option string) : string :=
  match identifier with Some k => k | None => msg_type +:+ " $ " +:+ topic end.

Definition nested_string (root : value) (keys : list string) : option string :=
  get_path root keys ≫= as_str.

Definition incoming_key (message : value) : string :=
  let msg_type := default "" (get message "type" ≫= as_str) in
  let topic := default "" (get message "topic" ≫= as_str) in
  let identifier :=
    match get message "data" ≫= extract_key with
    | Some k => Some k
    | None =>
        match nested_string message ["info"; "uuid"] with
        | Some k => Some k
        | None => nested_string message ["info"; "req_uuid"]
        end
    end in
  generate_message_key msg_type topic identifier.

Definition outgoing_identifier_from_data (data : value) : option string := extract_key data.
End keys.

(** ** Bytes and JSON *)
Definition element_byte (v : value) : option Z :=
  n ← as_u64 v; if n <? 256 then Some n else None.
Definition value_to_chunk_bytes (v : value) : option bytes :=
  match as_str v with
  | Some text => if slen text <=? MAX_TRANSFER_BYTES then Some (as_bytes text) else None
  | None =>
      l ← as_array v;
      if MAX_TRANSFER_BYTES <? len l then None else mapM element_byte l
  end.
Definition bytes_to_json_array (b : bytes) : value := JArray ((λ x, JNumber (num_of_u64 x)) <$> b).

Definition inject_binary_data (decoded_json : value) (binary_data : bytes) : value :=
  let decoded_json :=
    match get decoded_json "data" ≫= as_object with
    | Some _ => decoded_json
    | None => set_key decoded_json "data" (JObject [])
    end in
  match get decoded_json "data" with
  | Some (JObject m) =>
      set_key decoded_json "data" (JObject (BTree.insert "data" (bytes_to_json_array binary_data) m))
  | _ => decoded_json
  end.

Definition should_emit_error_log (message : value) : bool :=
  match get message "data" with
  | Some (JArray items) => negb (len items =? 0)
  | Some JNull | None => false
  | _ => true
  end.

(** [validated_timeout]: [now] is the [Instant] it is checked against. *)
Definition validated_timeout (seconds : f64) (now : Z) : PortResult Z :=
  let invalid := "Invalid timeout: expected finite nonnegative seconds representable as a deadline" in
  duration ← ok_or invalid (try_from_secs_f64 seconds);
  _ ← ok_or invalid (instant_checked_add now duration);
  Ok duration.

(** ** The methods *)
Section service.
Context {C : Type → Type} `{Chan C} `{Layout} `{JsonReader} `{SerdeJson} `{Crypto}.
Context {T : Type} `{DataChannelPort T}.
Implicit Types (s : Service C T).

Definition session_id s : Z := current (callback_events (routing s)).

(** *** Updates of one group *)
Definition with_transport (t : T) s : Service C T :=
  {| transport := t; requests := requests s; link := link s; routing := routing s;
     request_sequence := request_sequence s; diagnostics := diagnostics s |}.
Definition with_requests (r : Requests) s : Service C T :=
  {| transport := transport s; requests := r; link := link s; routing := routing s;
     request_sequence := request_sequence s; diagnostics := diagnostics s |}.
Definition with_link (k : Link) s : Service C T :=
  {| transport := transport s; requests := requests s; link := k; routing := routing s;
     request_sequence := request_sequence s; diagnostics := diagnostics s |}.
Definition with_routing (r : Routing C) s : Service C T :=
  {| transport := transport s; requests := requests s; link := link s; routing := r;
     request_sequence := request_sequence s; diagnostics := diagnostics s |}.
Definition with_sequence (n : Z) s : Service C T :=
  {| transport := transport s; requests := requests s; link := link s; routing := routing s;
     request_sequence := n; diagnostics := diagnostics s |}.
Definition with_diagnostics (d : CoreDiagnostics) s : Service C T :=
  {| transport := transport s; requests := requests s; link := link s; routing := routing s;
     request_sequence := request_sequence s; diagnostics := d |}.

Definition with_pending (m : gmap string PendingCallback) (r : Requests) : Requests :=
  {| pending_callbacks := m; chunk_data_storage := chunk_data_storage r; replies := replies r;
     next_token := next_token r |}.
Definition with_chunks (a : ChunkAssembler) (r : Requests) : Requests :=
  {| pending_callbacks := pending_callbacks r; chunk_data_storage := a; replies := replies r;
     next_token := next_token r |}.
(** [callback.sender.send(result)]. *)
Definition reply (cb : PendingCallback) (res : PortResult value) (r : Requests) : Requests :=
  {| pending_callbacks := pending_callbacks r; chunk_data_storage := chunk_data_storage r;
     replies := <[token cb := res]> (replies r); next_token := next_token r |}.

Definition with_opened (b : bool) (k : Link) : Link :=
  {| data_channel_opened := b; heartbeat_last_response := heartbeat_last_response k;
     heartbeat_running := heartbeat_running k; heartbeat_stop_tx := heartbeat_stop_tx k;
     heartbeat_starts := heartbeat_starts k; network_probe_running := network_probe_running k;
     validation_key := validation_key k |}.
Definition with_last_response (n : Z) (k : Link) : Link :=
  {| data_channel_opened := data_channel_opened k; heartbeat_last_response := n;
     heartbeat_running := heartbeat_running k; heartbeat_stop_tx := heartbeat_stop_tx k;
     heartbeat_starts := heartbeat_starts k; network_probe_running := network_probe_running k;
     validation_key := validation_key k |}.
Definition with_probe (b : bool) (k : Link) : Link :=
  {| data_channel_opened := data_channel_opened k;
     heartbeat_last_response := heartbeat_last_response k;
     heartbeat_running := heartbeat_running k; heartbeat_stop_tx := heartbeat_stop_tx k;
     heartbeat_starts := heartbeat_starts k; network_probe_running := b;
     validation_key := validation_key k |}.
Definition with_validation_key (key : string) (k : Link) : Link :=
  {| data_channel_opened := data_channel_opened k;
     heartbeat_last_response := heartbeat_last_response k;
     heartbeat_running := heartbeat_running k; heartbeat_stop_tx := heartbeat_stop_tx k;
     heartbeat_starts := heartbeat_starts k; network_probe_running := network_probe_running k;
     validation_key := key |}.
(** [stop_heartbeat]: taking the sender disconnects the thread it belongs to. *)
Definition heartbeat_off (k : Link) : Link :=
  {| data_channel_opened := data_channel_opened k;
     heartbeat_last_response := heartbeat_last_response k;
     heartbeat_running := false; heartbeat_stop_tx := None;
     heartbeat_starts := heartbeat_starts k; network_probe_running := network_probe_running k;
     validation_key := validation_key k |}.
Definition heartbeat_on (k : Link) : Link :=
  {| data_channel_opened := data_channel_opened k;
     heartbeat_last_response := heartbeat_last_response k;
     heartbeat_running := true; heartbeat_stop_tx := Some (heartbeat_starts k);
     heartbeat_starts := heartbeat_starts k + 1; network_probe_running := network_probe_running k;
     validation_key := validation_key k |}.

Definition with_subscriptions (m : gset string) (r : Routing C) : Routing C :=
  {| subscriptions := m; last_process_time := last_process_time r; decoder_type := decoder_type r;
     callback_events := callback_events r; lidar_queue := lidar_queue r |}.
Definition with_last_process_time (m : gmap string f64) (r : Routing C) : Routing C :=
  {| subscriptions := subscriptions r; last_process_time := m; decoder_type := decoder_type r;
     callback_events := callback_events r; lidar_queue := lidar_queue r |}.
Definition with_decoder (d : string) (r : Routing C) : Routing C :=
  {| subscriptions := subscriptions r; last_process_time := last_process_time r; decoder_type := d;
     callback_events := callback_events r; lidar_queue := lidar_queue r |}.
Definition with_events (ch : Events C) (r : Routing C) : Routing C :=
  {| subscriptions := subscriptions r; last_process_time := last_process_time r;
     decoder_type := decoder_type r; callback_events := ch; lidar_queue := lidar_queue r |}.
Definition with_lidar_queue (q : C LidarDecodeRequest) (r : Routing C) : Routing C :=
  {| subscriptions := subscriptions r; last_process_time := last_process_time r;
     decoder_type := decoder_type r; callback_events := callback_events r; lidar_queue := q |}.

Definition log (l : CoreLog) (now : Z) s : Service C T :=
  with_diagnostics (λ l', if decide (l' = l) then (record_at now (diagnostics s l)).2
                          else diagnostics s l') s.
Definition set_session_id (n : Z) s : Service C T :=
  with_routing (with_events (set_generation n (callback_events (routing s))) (routing s)) s.
Definition stop_heartbeat s : Service C T := with_link (heartbeat_off (link s)) s.
Definition set_opened (b : bool) s : Service C T := with_link (with_opened b (link s)) s.
Definition set_last_response (n : Z) s : Service C T := with_link (with_last_response n (link s)) s.
Definition set_probe (b : bool) s : Service C T := with_link (with_probe b (link s)) s.
Definition remove_chunks (key : string) s : Service C T :=
  with_requests (with_chunks (Chunks.remove (chunk_data_storage (requests s)) key) (requests s)) s.
Definition clear_chunks s : Service C T :=
  with_requests (with_chunks (Chunks.clear (chunk_data_storage (requests s))) (requests s)) s.

(** *** Responses *)
Definition fail_pending (key error : string) s : Service C T :=
  let r := requests s in
  match pending_callbacks r !! key with
  | Some cb => with_requests (reply cb (Err error) (with_pending (delete key (pending_callbacks r)) r)) s
  | None => s
  end.

(** Every pending callback is drained and answered. *)
Definition fail_all_pending (reason : string) s : Service C T :=
  let r := requests s in
  let callbacks := (map_to_list (pending_callbacks r)).*2 in
  with_requests (foldr (λ cb r, reply cb (Err reason) r) (with_pending ∅ r) callbacks) s.

Definition resolve_pending_response (key : string) (message : value) s : Service C T :=
  let r := requests s in
  match pending_callbacks r !! key with
  | None => s
  | Some cb =>
      let res :=
        if negb (pc_session_id cb =? session_id s)
        then Err "Response belongs to a stale DataChannel session"
        else _ ← validate (expectation cb) message; Ok message in
      with_requests (reply cb res (with_pending (delete key (pending_callbacks r)) r)) s
  end.

(** The chunk announced by a message: metadata, payload and the path of the payload. *)
Definition chunking_enabled (info : value) : bool :=
  bool_decide (get info "enable_chunking" ≫= as_bool = Some true).
Definition chunk_location (message : value) : option (value * option value * list string) :=
  match get_path message ["data"; "content_info"], get_path message ["info"; "file"] with
  | content, file =>
      match content with
      | Some info => if chunking_enabled info
                     then Some (info, get_path message ["data"; "data"], ["data"; "data"])
                     else match file with
                          | Some info => if chunking_enabled info
                              then Some (info, get info "data", ["info"; "file"; "data"]) else None
                          | None => None
                          end
      | None => match file with
                | Some info => if chunking_enabled info
                    then Some (info, get info "data", ["info"; "file"; "data"]) else None
                | None => None
                end
      end
  end.
Definition path_name (path : list string) : string := foldr (λ k acc, "/" +:+ k +:+ acc) "" path.

Definition insert_chunk (key : string) (metadata : value) (payload : option value)
    (path : list string) (now : Z) s : PortResult (option bytes) * Service C T :=
  match
    (index ← ok_or "Invalid chunk index" (get metadata "chunk_index" ≫= as_u64);
     total ← ok_or "Invalid chunk count" (get metadata "total_chunk_num" ≫= as_u64);
     b ← ok_or "Invalid chunk bytes" (payload ≫= value_to_chunk_bytes);
     Ok (index, total, b))
  with
  | Err e => (Err e, s)
  | Ok (index, total, b) =>
      let '(res, a) := Chunks.insert (chunk_data_storage (requests s)) key (path_name path)
                         index total b now in
      (res, with_requests (with_chunks a (requests s)) s)
  end.

Definition handle_chunked_response (message : value) (e : env) s : bool * Service C T :=
  match chunk_location message with
  | None => (false, s)
  | Some (metadata, payload, path) =>
      let key := incoming_key message in
      match insert_chunk key metadata payload path (instant e) s with
      | (Ok (Some b), s) =>
          if MAX_BINARY_EXPANSION_BYTES <? len b
          then (true, log LChunk (instant e)
                        (fail_pending key "Binary JSON expansion exceeds 1 MiB" s))
          else (true, resolve_pending_response key
                        (set_path message path (bytes_to_json_array b)) s)
      | (Ok None, s) => (true, s)
      | (Err error, s) =>
          (true, log LChunk (instant e) (fail_pending key error (remove_chunks key s)))
      end
  end.

Definition run_resolve (message : value) (e : env) s : Service C T :=
  match get message "type" with
  | None => s
  | Some _ =>
      let '(chunked, s) := handle_chunked_response message e s in
      if chunked then s else resolve_pending_response (incoming_key message) message s
  end.

(** *** Sending *)
Definition send_message_locked (topic : string) (data : option value) (msg_type : string)
    (now : Z) s : PortResult () * Service C T :=
  if negb (seqb (ready_state (transport s)) "open") then (Err "Data channel is not open", s) else
  let message := obj [("type", JString msg_type); ("topic", JString topic)] in
  let message := match data with Some d => set_key message "data" d | None => message end in
  match json_to_string message with
  | Err e => (Err e, s)
  | Ok text =>
      let '(res, t) := send_text text (transport s) in
      let s := with_transport t s in
      (res, if is_err res then log LControlSend now s else s)
  end.
Definition send_message := send_message_locked.

Definition publish_without_callback (topic : string) (data : option value)
    (msg_type : option string) (now : Z) s : PortResult () * Service C T :=
  send_message topic data (default types.msg msg_type) now s.

Definition on_off (switch : bool) : value := JString (if switch then "on" else "off").
Definition switch_video_channel (switch : bool) (now : Z) s : PortResult () * Service C T :=
  publish_without_callback "" (Some (on_off switch)) (Some types.vid) now s.
Definition switch_audio_channel (switch : bool) (now : Z) s : PortResult () * Service C T :=
  publish_without_callback "" (Some (on_off switch)) (Some types.aud) now s.

Definition subscribe (topic : string) (now : Z) s : PortResult () * Service C T :=
  match send_message_locked topic None types.subscribe now s with
  | (Ok _, s) =>
      (Ok (), with_routing (with_subscriptions ({[topic]} ∪ subscriptions (routing s)) (routing s)) s)
  | (Err e, s) => (Err e, s)
  end.
Definition unsubscribe (topic : string) (now : Z) s : PortResult () * Service C T :=
  match send_message_locked topic None types.unsubscribe now s with
  | (Ok _, s) =>
      (Ok (), with_routing (with_subscriptions (subscriptions (routing s) ∖ {[topic]}) (routing s)) s)
  | (Err e, s) => (Err e, s)
  end.

(** *** Requests *)

(** The future of a [publish], suspended on its oneshot. *)
Record PublishCall := { call_key : string; call_token : Z; call_deadline : Z; call_topic : string;
                        call_timeout : f64 }.

(** [PendingRequestGuard::drop]: only the request that is still this one. *)
Definition guard_drop (key : string) (tok : Z) s : Service C T :=
  let r := requests s in
  match pending_callbacks r !! key with
  | Some cb =>
      if token cb =? tok
      then with_requests (with_chunks (Chunks.remove (chunk_data_storage r) key)
                            (with_pending (delete key (pending_callbacks r)) r)) s
      else s
  | None => s
  end.

(** [publish_with_expectation] up to its await. *)
Definition publish_begin (topic : string) (data : option value) (msg_type : option string)
    (timeout_secs : option f64) (exp : ResponseExpectation) (now : Z) s :
    PortResult PublishCall * Service C T :=
  let timeout := default (F64.of_Z 10) timeout_secs in
  match validated_timeout timeout now with
  | Err e => (Err e, s)
  | Ok duration =>
      let effective_type := default types.msg msg_type in
      let key := generate_message_key effective_type topic (data ≫= outgoing_identifier_from_data) in
      if negb (seqb (ready_state (transport s)) "open") then (Err "Data channel is not open", s) else
      let r := requests s in
      let tok := next_token r in
      match pending_callbacks r !! key with
      | Some _ => (Err ("Duplicate in-flight request key: " +:+ key), s)
      | None =>
          if MAX_PENDING_REQUESTS <=? Z.of_nat (size (pending_callbacks r))
          then (Err "DataChannel in-flight request limit reached", s) else
          let cb := {| token := tok; expectation := exp; pc_session_id := session_id s |} in
          let s := with_requests
                     {| pending_callbacks := <[key := cb]> (pending_callbacks r);
                        chunk_data_storage := chunk_data_storage r; replies := replies r;
                        next_token := tok + 1 |} s in
          match send_message_locked topic data effective_type now s with
          | (Ok _, s) => (Ok {| call_key := key; call_token := tok; call_deadline := now + duration;
                                call_topic := topic; call_timeout := timeout |}, s)
          | (Err e, s) => (Err e, guard_drop key tok s)
          end
      end
  end.

(** One poll of the suspended future at [now]: [None] while it waits.  A sender
    that left [pending_callbacks] without an answer was dropped. *)
Definition publish_poll (call : PublishCall) (now : Z) s : option (PortResult value) :=
  match replies (requests s) !! call_token call with
  | Some response => Some response
  | None =>
      let alive := match pending_callbacks (requests s) !! call_key call with
                   | Some cb => token cb =? call_token call
                   | None => false
                   end in
      if negb alive then Some (Err "Response receiver dropped") else
      if call_deadline call <=? now
      then Some (Err ("Publish timeout after " +:+ f64_to_fixed1 (call_timeout call)
                      +:+ "s for topic " +:+ call_topic call))
      else None
  end.
(** The future ends (with a result, or cancelled): its guard is dropped. *)
Definition publish_end (call : PublishCall) s : Service C T :=
  guard_drop (call_key call) (call_token call) s.

Definition generated_identity_id s : Z * Service C T :=
  let next := request_sequence s in
  (next mod i32_max + 1, with_sequence (wrapping_add 64 next 1) s).

(** The payload [publish_request_new] builds. *)
Definition request_payload (options : value) (id api : Z) : value :=
  let parameter :=
    match get options "parameter" with
    | Some (JString t) => JString t
    | Some p => JString (value_display p)
    | None => JString ""
    end in
  let identity := obj [("id", jint id); ("api_id", jint api)] in
  let header := obj [("identity", identity)] in
  let header := match get options "priority" with
                | Some _ => set_key header "policy" (obj [("priority", jint 1)])
                | None => header
                end in
  obj [("header", header); ("parameter", parameter)].

Definition publish_request_new (topic : string) (options : value) (timeout_secs : option f64)
    (now : Z) s : PortResult PublishCall * Service C T :=
  match get options "api_id" ≫= as_i64 with
  | None => (Err "Please provide api_id", s)
  | Some api =>
      let '(id, s) := match get options "id" ≫= as_i64 with
                      | Some id => (id, s)
                      | None => generated_identity_id s
                      end in
      publish_begin topic (Some (request_payload options id api)) (Some types.request)
        timeout_secs (for_api_request topic api) now s
  end.

(** [disable_traffic_saving]: the request and the reading of its response. *)
Definition disable_traffic_saving (switch : bool) (now : Z) s : PortResult PublishCall * Service C T :=
  publish_begin ""
    (Some (obj [("req_type", JString "disable_traffic_saving");
                ("instruction", on_off switch)]))
    (Some types.rtc_inner_req) (Some (F64.of_Z 10)) any_response now s.
Definition execution_ok (response : value) : bool :=
  bool_decide (get_path response ["info"; "execution"] ≫= as_str = Some "ok").

(** *** Session *)
Definition is_open s : bool := seqb (ready_state (transport s)) "open" && data_channel_opened (link s).

(** [wait_datachannel_open]: the clock readings and states of its polls. *)
Fixpoint wait_polls (timeout started_at : Z) (polls : list (Z * Service C T)) :
    option (PortResult ()) :=
  match polls with
  | [] => None
  | (now, s) :: polls =>
      if is_open s then Some (Ok ()) else
      if timeout <? saturating_sub now started_at
      then Some (Err "Data channel did not open in time")
      else wait_polls timeout started_at polls
  end.
Definition wait_datachannel_open (timeout_secs : f64) (started_at : Z)
    (polls : list (Z * Service C T)) : option (PortResult ()) :=
  match validated_timeout timeout_secs started_at with
  | Err e => Some (Err e)
  | Ok timeout => wait_polls timeout started_at polls
  end.

Definition last_heartbeat_age_s (now_secs : Z) s : option Z :=
  let last := heartbeat_last_response (link s) in
  if last =? 0 then None else Some (saturating_sub now_secs last).

(** [fetch_add(1)] of the session and the transport's new generation. *)
Definition next_session s : PortResult () * Service C T :=
  let generation := wrapping_add 64 (session_id s) 1 in
  let '(res, t) := set_ingress_generation generation (transport s) in
  (res, with_transport t (set_session_id generation s)).

Definition start_new_session s : Service C T :=
  let s := with_diagnostics (diagnostics_reset (diagnostics s)) s in
  let s := (next_session s).2 in
  fail_all_pending "DataChannel session reset"
    (clear_chunks (set_last_response 0 (set_opened false (set_probe false (stop_heartbeat s))))).

Definition stop_background_tasks s : Service C T :=
  start_new_session (set_opened false (set_probe false (stop_heartbeat s))).

Definition prepare_ingress s : PortResult () * Service C T :=
  let '(res, t) := set_ingress_generation (session_id s) (transport s) in (res, with_transport t s).

Definition set_decoder (decoder : string) s : PortResult () * Service C T :=
  if seqb decoder "libvoxel"
  then (Err "The 'libvoxel' decoder is not supported in the Rust backend. Use 'native'.", s) else
  if negb (seqb decoder "native") then (Err "Invalid decoder type. Choose 'native'.", s) else
  (Ok (), with_routing (with_decoder decoder (routing s)) s).
Definition decoder_name s : string :=
  if seqb (decoder_type (routing s)) "native" then "NativeDecoder" else "UnsupportedDecoder".

(** *** Dispatch *)
Definition should_process (topic_or_type : string) (now : f64) s : bool * Service C T :=
  match throttle_limits !! topic_or_type with
  | Some limit =>
      let last_map := last_process_time (routing s) in
      let last := default (S754_zero false) (last_map !! topic_or_type) in
      if F64.ge (F64.sub now last) limit
      then (true, with_routing (with_last_process_time (<[topic_or_type := now]> last_map) (routing s)) s)
      else (false, s)
  | None => (true, s)
  end.

Definition dispatch_subscription (message : value) (e : env) s : Service C T :=
  let topic := default "" (get message "topic" ≫= as_str) in
  if seqb topic "" then s else
  let '(process, s) := should_process topic (secs_dispatch e) s in
  if negb process then s else
  if negb (bool_decide (topic ∈ subscriptions (routing s))) then s else
  let ch := callback_events (routing s) in
  let sender := {| s_generation := session_id s |} in
  let '(res, ch) := try_send sender (current ch) (TopicCallback topic message) ch in
  let s := with_routing (with_events ch (routing s)) s in
  if is_err res then log LCallback (instant e) s else s.

(** *** Control messages *)
Definition start_heartbeat_in_session s : Service C T :=
  if heartbeat_running (link s) then s else with_link (heartbeat_on (link s)) s.

Definition request_network_status_once (e : env) s : Service C T :=
  if network_probe_running (link s) then s else
  let s := set_probe true s in
  (send_message_locked ""
     (Some (obj [("req_type", JString "public_network_status"); ("uuid", JString (fresh_uuid e))]))
     types.rtc_inner_req (instant e) s).2.

Definition answer_validation (key : string) (e : env) s : Service C T :=
  match encrypt_key key with
  | Ok encrypted => (send_message_locked "" (Some (JString encrypted)) types.validation (instant e) s).2
  | Err _ => s
  end.

Definition handle_validation (message : value) (e : env) s : Service C T :=
  let data := get message "data" ≫= as_str in
  if decide (data = Some "Validation Ok.") then
    request_network_status_once e
      (start_heartbeat_in_session (set_last_response (unix_secs e) (set_opened true s)))
  else
  match data with
  | Some key => answer_validation key e (with_link (with_validation_key key (link s)) s)
  | None => s
  end.

Definition handle_validation_err (message : value) (e : env) s : Service C T :=
  if decide (get message "info" ≫= as_str = Some "Validation Needed.") then
    let key := validation_key (link s) in
    if seqb key "" then s else answer_validation key e s
  else s.

Definition handle_rtc_inner_req (message : value) (e : env) s : Service C T :=
  match get message "info" with
  | None => s
  | Some info =>
      let s :=
        if decide (get info "req_type" ≫= as_str = Some "rtt_probe_send_from_mechine")
        then (send_message_locked "" (Some info) types.rtc_inner_req (instant e) s).2 else s in
      match get info "status" ≫= as_str with
      | Some status =>
          if seqb status "NetworkStatus.ON_4G_CONNECTED" || seqb status "NetworkStatus.ON_WIFI_CONNECTED"
          then set_probe false s else s
      | None => s
      end
  end.

Definition handle_text_response (message : value) (e : env) s : Service C T :=
  let msg_type := default "" (get message "type" ≫= as_str) in
  if seqb msg_type types.validation then handle_validation message e s else
  if seqb msg_type types.rtc_inner_req then handle_rtc_inner_req message e s else
  if seqb msg_type types.heartbeat then set_last_response (unix_secs e) s else
  if seqb msg_type types.errors || seqb msg_type types.add_error || seqb msg_type types.rm_error
  then s (* handle_error_message only logs *) else
  if seqb msg_type types.err then handle_validation_err message e s else s.

(** *** Binary messages *)
Definition reject_binary_response (message : value) (reason : string) (e : env) s : Service C T :=
  let key := incoming_key message in
  log LLidarInvalid (instant e) (fail_pending key reason (remove_chunks key s)).

Definition topic_or_type (decoded_json : value) : string :=
  match get decoded_json "topic" ≫= as_str with
  | Some t => t
  | None => default "" (get decoded_json "type" ≫= as_str)
  end.
Definition has_key (v : value) (k : string) : bool :=
  match get v k with Some _ => true | None => false end.
Definition lidar_intent (frame : BinaryFrame) (decoded_json : value) : bool :=
  bool_decide (frame = Lidar) || starts_with (topic_or_type decoded_json) "rt/utlidar/"
  || match get decoded_json "data" with
     | Some data => has_key data "src_size" || (has_key data "origin" && has_key data "resolution")
     | None => false
     end.

Definition process_binary_payload (frame : BinaryFrame) (decoded_json : value) (binary_data : bytes)
    (e : env) s : option value * Service C T :=
  let topic := topic_or_type decoded_json in
  match get decoded_json "data" ≫= from_json with
  | None =>
      if lidar_intent frame decoded_json
      then (None, reject_binary_response decoded_json "Invalid LiDAR metadata" e s) else
      if MAX_BINARY_EXPANSION_BYTES <? len binary_data then
        let key := incoming_key decoded_json in
        (None, log LBinary (instant e)
                 (fail_pending key "Binary JSON expansion exceeds 1 MiB" (remove_chunks key s)))
      else
      let '(process, s) := should_process topic (secs_binary e) s in
      if negb process then (None, s)
      else (Some (inject_binary_data decoded_json binary_data), s)
  | Some metadata =>
      if MAX_COMPRESSED_BYTES <? len binary_data
      then (None, reject_binary_response decoded_json
                    "LiDAR compressed size exceeds resource budget" e s) else
      if negb (seqb (decoder_type (routing s)) "native")
      then (None, reject_binary_response decoded_json "Unsupported LiDAR decoder" e s) else
      let '(process, s) := should_process topic (secs_binary e) s in
      if negb process then (None, s) else
      let request := {| lr_generation := session_id s; lr_topic := topic;
                        lr_payload := decoded_json; compressed_data := binary_data;
                        metadata := metadata |} in
      let '(res, q) := submit (lidar_queue (routing s)) request in
      let s := with_routing (with_lidar_queue q (routing s)) s in
      match res with
      | Err error => (None, log LLidarSubmit (instant e) (fail_pending (incoming_key decoded_json) error s))
      | Ok _ => (None, s)
      end
  end.

Definition deal_array_buffer (buffer : bytes) (e : env) s : option value * Service C T :=
  if MAX_BINARY_BYTES <? len buffer then (None, log LBinary (instant e) s) else
  match parse buffer with
  | Ok (frame, header, payload) => process_binary_payload frame header payload e s
  | Err _ => (None, log LBinary (instant e) s)
  end.

(** *** The router thread *)
Definition process_ingress (message : IngressMessage) (e : env) s : Service C T :=
  if negb (im_generation message =? session_id s) then s else
  match im_payload message with
  | TransportFault error =>
      let '(res, s) := next_session s in
      let s := if is_err res then log LControlSend (instant e) s else s in
      fail_all_pending error (clear_chunks (set_probe false (stop_heartbeat (set_opened false s))))
  | Text text =>
      match parse_json (as_bytes text) with
      | Ok parsed =>
          dispatch_subscription parsed e (handle_text_response parsed e (run_resolve parsed e s))
      | Err _ => log LParse (instant e) s
      end
  | Binary binary =>
      match deal_array_buffer binary e s with
      | (Some parsed, s) => dispatch_subscription parsed e (run_resolve parsed e s)
      | (None, s) => s
      end
  end.

Definition expire_chunks (now : Z) s : Service C T :=
  let '(expired, a) := Chunks.expire (chunk_data_storage (requests s)) now in
  foldl (λ s key, fail_pending key "Chunk assembly deadline expired" s)
    (with_requests (with_chunks a (requests s)) s) expired.

(** One iteration of [run_message_loop]; [incoming] is what the queue delivered
    within its 100 ms. *)
Definition router_step (incoming : option IngressMessage) (e : env) s : Service C T :=
  let '(fault, t) := take_transport_error (transport s) in
  let s := with_transport t s in
  let s := match fault with Some f => process_ingress f e s | None => s end in
  let s := expire_chunks (instant e) s in
  match incoming with Some m => process_ingress m e s | None => s end.

(** One iteration of the heartbeat thread started as number [id] in session
    [epoch]; the result says whether it goes on to wait for the next one.
    [owner]: a public clone of the service still exists. *)
Definition heartbeat_step (epoch id : Z) (owner : bool) (e : env) s : bool * Service C T :=
  if negb (heartbeat_running (link s) && (session_id s =? epoch) && owner) then (false, s) else
  let now := unix_secs e in
  let last := heartbeat_last_response (link s) in
  if (0 <? last) && (6 <? saturating_sub now last) then
    (false, clear_chunks (fail_all_pending "Heartbeat timeout" (set_opened false (stop_heartbeat s))))
  else
  let s :=
    if seqb (ready_state (transport s)) "open"
    then (send_message_locked ""
            (Some (obj [("timeInStr", JString (local_time e)); ("timeInNum", JNumber (num_of_u64 now))]))
            types.heartbeat (instant e) s).2
    else s in
  (bool_decide (heartbeat_stop_tx (link s) = Some id), s).

(** [try_new]: [session] is [new_session_id], [sequence] the initial request
    sequence; a rejected generation is only logged. *)
Definition new_service (t : T) (ch : Events C) (q : C LidarDecodeRequest) (session sequence : Z) :
    Service C T :=
  (prepare_ingress
     {| transport := t;
        requests := {| pending_callbacks := ∅; chunk_data_storage := ∅; replies := ∅; next_token := 0 |};
        link := {| data_channel_opened := false; heartbeat_last_response := 0;
                   heartbeat_running := false; heartbeat_stop_tx := None; heartbeat_starts := 0;
                   network_probe_running := false; validation_key := "" |};
        routing := {| subscriptions := ∅; last_process_time := ∅; decoder_type := "native";
                      callback_events := set_generation session ch; lidar_queue := q |};
        request_sequence := sequence;
        diagnostics := λ _, repeat_default |}).2.
End service.
