(* ===== verification/ServiceProps.v ===== *)
(** * Data channel service: refinement and properties

    [req_step] is the abstract protocol of the requests of a session: admit,
    answer, drop, reset.  Every operation of the service is a sequence of such
    steps ([service_refines_requests]), so what holds of the protocol holds of
    every execution: bounded in-flight requests that all belong to the current
    session, at most one answer per request, answers that satisfy what the
    request expects.  The rest states what single operations do. *)
From stdpp Require Import relations.
From S2P Require Import Prelude Floats Json Ingress Framing Diagnostics Constants Channel.
From S2P Require Import Events Lidar Utf8 Security Chunks Ports Service.
#[local] Open Scope Z_scope.

(** ** The request protocol *)
Record Abs := { a_session : Z; a_requests : Requests }.

Definition answer (sess : Z) (cb : PendingCallback) (message : value) : PortResult value :=
  if negb (pc_session_id cb =? sess)
  then Err "Response belongs to a stale DataChannel session"
  else _ ← validate (expectation cb) message; Ok message.

Definition fail_all_requests (reason : string) (r : Requests) : Requests :=
  foldr (λ cb r, reply cb (Err reason) r) (with_pending ∅ r) (map_to_list (pending_callbacks r)).*2.

Inductive req_step : Abs → Abs → Prop :=
  | rs_chunks sess r a :
      req_step {| a_session := sess; a_requests := r |}
               {| a_session := sess; a_requests := with_chunks a r |}
  | rs_answer sess r key cb res :
      pending_callbacks r !! key = Some cb →
      (∃ e, res = Err e) ∨ (∃ message, res = answer sess cb message) →
      req_step {| a_session := sess; a_requests := r |}
               {| a_session := sess;
                  a_requests := reply cb res (with_pending (delete key (pending_callbacks r)) r) |}
  | rs_drop sess r key :
      req_step {| a_session := sess; a_requests := r |}
               {| a_session := sess; a_requests := with_pending (delete key (pending_callbacks r)) r |}
  | rs_admit sess r key cb :
      pending_callbacks r !! key = None →
      Z.of_nat (size (pending_callbacks r)) < MAX_PENDING_REQUESTS →
      token cb = next_token r → pc_session_id cb = sess →
      req_step {| a_session := sess; a_requests := r |}
               {| a_session := sess;
                  a_requests := {| pending_callbacks := <[key := cb]> (pending_callbacks r);
                                   chunk_data_storage := chunk_data_storage r;
                                   replies := replies r; next_token := next_token r + 1 |} |}
  | rs_reset sess sess' r reason :
      req_step {| a_session := sess; a_requests := r |}
               {| a_session := sess'; a_requests := with_chunks ∅ (fail_all_requests reason r) |}.
Abbreviation req_steps := (rtc req_step).

(** ** Invariant of the protocol *)
Record req_inv (x : Abs) : Prop := {
  ri_size : Z.of_nat (size (pending_callbacks (a_requests x))) ≤ MAX_PENDING_REQUESTS;
  ri_pending : ∀ key cb, pending_callbacks (a_requests x) !! key = Some cb →
    pc_session_id cb = a_session x ∧ token cb < next_token (a_requests x) ∧
    replies (a_requests x) !! token cb = None;
  ri_tokens : ∀ k k' cb cb', pending_callbacks (a_requests x) !! k = Some cb →
    pending_callbacks (a_requests x) !! k' = Some cb' → token cb = token cb' → k = k';
  ri_replies : ∀ t r, replies (a_requests x) !! t = Some r → t < next_token (a_requests x);
}.

Lemma fold_reply_fields reason cbs r :
  let r' := foldr (λ cb r, reply cb (Err reason) r) r cbs in
  pending_callbacks r' = pending_callbacks r ∧ next_token r' = next_token r ∧
  chunk_data_storage r' = chunk_data_storage r.
Proof. induction cbs as [|cb cbs IH]; simpl; [done|]. done. Qed.

Lemma fold_reply_lookup reason cbs r t :
  replies (foldr (λ cb r, reply cb (Err reason) r) r cbs) !! t =
  if bool_decide (t ∈ token <$> cbs) then Some (Err reason) else replies r !! t.
Proof.
  induction cbs as [|cb cbs IH]; [done|]. cbn [foldr reply replies]. rewrite fmap_cons.
  destruct (decide (t = token cb)) as [->|Hne].
  - rewrite lookup_insert_eq, bool_decide_true; [done|]. by left.
  - rewrite lookup_insert_ne, IH by done.
    destruct (decide (t ∈ token <$> cbs)).
    + rewrite !bool_decide_true; [done|by right|done].
    + rewrite !bool_decide_false; [done| |done]. by intros [->|?]%elem_of_cons.
Qed.

Lemma pending_tokens (m : gmap string PendingCallback) t :
  t ∈ token <$> (map_to_list m).*2 ↔ ∃ key cb, m !! key = Some cb ∧ token cb = t.
Proof.
  rewrite list_elem_of_fmap. setoid_rewrite list_elem_of_fmap. split.
  - intros (cb & -> & (k & cb') & -> & Hin%elem_of_map_to_list). eauto.
  - intros (key & cb & Hk & <-). exists cb. split; [done|]. exists (key, cb).
    split; [done|]. by apply elem_of_map_to_list.
Qed.

(** What a reset does to the answers. *)
Lemma fail_all_replies_pending reason r key cb :
  pending_callbacks r !! key = Some cb →
  replies (fail_all_requests reason r) !! token cb = Some (Err reason).
Proof.
  intros Hk. unfold fail_all_requests. rewrite fold_reply_lookup, bool_decide_true; [done|].
  apply pending_tokens. eauto.
Qed.

Lemma fail_all_replies_other reason r t :
  (∀ key cb, pending_callbacks r !! key = Some cb → token cb ≠ t) →
  replies (fail_all_requests reason r) !! t = replies r !! t.
Proof.
  intros Hne. unfold fail_all_requests. rewrite fold_reply_lookup, bool_decide_false; [done|].
  intros (key & cb & Hk & Ht)%pending_tokens. by eapply Hne.
Qed.

Lemma fail_all_pending_empty reason r : pending_callbacks (fail_all_requests reason r) = ∅.
Proof. exact (proj1 (fold_reply_fields reason _ (with_pending ∅ r))). Qed.
Lemma fail_all_next_token reason r : next_token (fail_all_requests reason r) = next_token r.
Proof. exact (proj1 (proj2 (fold_reply_fields reason _ (with_pending ∅ r)))). Qed.

Lemma fail_all_replies_bound reason x t res :
  req_inv x → replies (fail_all_requests reason (a_requests x)) !! t = Some res →
  t < next_token (a_requests x).
Proof.
  intros Hi. unfold fail_all_requests. rewrite fold_reply_lookup. case_bool_decide as Ht.
  - apply pending_tokens in Ht as (key & cb & Hk & <-). intros _. by apply (ri_pending x Hi _ _ Hk).
  - apply Hi.
Qed.

Lemma size_delete_le (m : gmap string PendingCallback) key : (size (delete key m) ≤ size m)%nat.
Proof. rewrite map_size_delete. destruct (m !! key); unfold id; lia. Qed.

Lemma req_step_inv x y : req_step x y → req_inv x → req_inv y.
Proof.
  intros Hs Hi. destruct Hs as [sess r a|sess r key cb res Hk Hres|sess r key|sess r key cb Hk Hsz Ht Hses
    |sess sess' r reason]; destruct Hi as [Hsize Hp Htok Hrep]; simpl in *.
  - by split.
  - pose proof (size_delete_le (pending_callbacks r) key) as Hd.
    split; simpl; [lia|..].
    + intros k cb' [Hne Hk']%lookup_delete_Some. destruct (Hp _ _ Hk') as (? & ? & ?).
      split_and!; [done|done|]. rewrite lookup_insert_ne; [done|].
      intros Heq. by pose proof (Htok _ _ _ _ Hk Hk' Heq).
    + intros k k' c c' [_ H1]%lookup_delete_Some [_ H2]%lookup_delete_Some. by apply (Htok _ _ _ _ H1 H2).
    + intros t res' [[<- _]|[_ Hr]]%lookup_insert_Some; [by apply (Hp _ _ Hk)|by eapply Hrep].
  - pose proof (size_delete_le (pending_callbacks r) key) as Hd.
    split; simpl; [lia|..|done].
    + intros k cb' [_ Hk']%lookup_delete_Some. exact (Hp _ _ Hk').
    + intros k k' c c' [_ H1]%lookup_delete_Some [_ H2]%lookup_delete_Some. by apply (Htok _ _ _ _ H1 H2).
  - assert (∀ k c, pending_callbacks r !! k = Some c → token c ≠ token cb) as Hfresh.
    { intros k c Hc. destruct (Hp _ _ Hc) as (_ & ? & _). lia. }
    split; simpl.
    + rewrite map_size_insert_None by done. lia.
    + intros k c [[<- <-]|[_ Hc]]%lookup_insert_Some.
      * split_and!; [done|lia|]. destruct (replies r !! token cb) eqn:E; [|done].
        apply Hrep in E. lia.
      * destruct (Hp _ _ Hc) as (? & ? & ?). split_and!; [done|lia|done].
    + intros k k' c c' [[<- <-]|[_ H1]]%lookup_insert_Some [[<- <-]|[_ H2]]%lookup_insert_Some;
        [done| | |by apply (Htok _ _ _ _ H1 H2)].
      * intros Heq. by destruct (Hfresh _ _ H2).
      * intros Heq. by destruct (Hfresh _ _ H1).
    + intros t res Hr. apply Hrep in Hr. lia.
  - assert (req_inv {| a_session := sess; a_requests := r |}) as Hi by by split.
    split; simpl; rewrite ?fail_all_pending_empty, ?fail_all_next_token; [done|done|done|].
    intros t res Hr. exact (fail_all_replies_bound reason _ t res Hi Hr).
Qed.

Lemma req_steps_inv x y : req_steps x y → req_inv x → req_inv y.
Proof. induction 1; eauto using req_step_inv. Qed.

(** ** Executions of the service *)
Section service.
Context {C : Type → Type} `{Chan C} `{Layout} `{JsonReader} `{SerdeJson} `{Crypto}.
Context {T : Type} `{DataChannelPort T}.
Implicit Types (s : Service C T).

(** Everything that happens to a service: its own methods, the transport's own
    activity, and the other users of the event channel and the worker queue
    (only the service moves the generation).  [ORouter] is a whole iteration of the
    router; its parts, which take the locks one after the other, are steps too (a
    fault that was taken is [OTransport] and then [OIngress]), so that the other
    threads come between them. *)
Inductive svc_op :=
  | OPublish (topic : string) (data : option value) (msg_type : option string)
      (timeout : option f64) (exp : ResponseExpectation) (now : Z)
  | OPublishRequest (topic : string) (options : value) (timeout : option f64) (now : Z)
  | OPublishEnd (call : PublishCall)
  | OSend (topic : string) (data : option value) (msg_type : string) (now : Z)
  | OSubscribe (topic : string) (now : Z)
  | OUnsubscribe (topic : string) (now : Z)
  | ORouter (incoming : option IngressMessage) (e : env)
  | OHeartbeat (epoch id : Z) (owner : bool) (e : env)
  | ONewSession
  | OStop
  | OPrepare
  | OSetDecoder (decoder : string)
  | OTransport (t : T)
  | OEvents (o : ev_op)
  | OLidarQueue (q : C LidarDecodeRequest)
  | OExpire (now : Z)
  | OIngress (m : IngressMessage) (e : env).
Definition svc_step (o : svc_op) s : Service C T :=
  match o with
  | OPublish topic data ty timeout exp now => (publish_begin topic data ty timeout exp now s).2
  | OPublishRequest topic options timeout now => (publish_request_new topic options timeout now s).2
  | OPublishEnd call => publish_end call s
  | OSend topic data ty now => (send_message topic data ty now s).2
  | OSubscribe topic now => (subscribe topic now s).2
  | OUnsubscribe topic now => (unsubscribe topic now s).2
  | ORouter incoming e => router_step incoming e s
  | OHeartbeat epoch id owner e => (heartbeat_step epoch id owner e s).2
  | ONewSession => start_new_session s
  | OStop => stop_background_tasks s
  | OPrepare => (prepare_ingress s).2
  | OSetDecoder d => (set_decoder d s).2
  | OTransport t => with_transport t s
  | OEvents (SetGeneration _) => s
  | OEvents o => with_routing (with_events (ev_step o (callback_events (routing s))) (routing s)) s
  | OLidarQueue q => with_routing (with_lidar_queue q (routing s)) s
  | OExpire now => expire_chunks now s
  | OIngress m e => process_ingress m e s
  end.
Definition svc_run (l : list svc_op) s : Service C T := foldl (λ s o, svc_step o s) s l.

Definition abs s : Abs := {| a_session := session_id s; a_requests := requests s |}.

(** ** What each method does to the requests *)

(** Methods that leave the requests and the session alone. *)
Definition frame s s' : Prop := requests s' = requests s ∧ session_id s' = session_id s.
Lemma frame_refl s : frame s s.
Proof. done. Qed.
Lemma frame_trans s1 s2 s3 : frame s1 s2 → frame s2 s3 → frame s1 s3.
Proof. intros [] []. split; congruence. Qed.
Lemma frame_abs s s' : frame s s' → abs s' = abs s.
Proof. intros [Hr Hs]. unfold abs. by rewrite Hr, Hs. Qed.
Lemma frame_steps s s' : frame s s' → req_steps (abs s) (abs s').
Proof. intros Hf. rewrite (frame_abs _ _ Hf). constructor. Qed.

Lemma send_frame topic data ty now s :
  frame s (send_message_locked topic data ty now s).2 ∧
  routing (send_message_locked topic data ty now s).2 = routing s ∧
  link (send_message_locked topic data ty now s).2 = link s.
Proof.
  unfold send_message_locked. destruct (negb _); [done|].
  destruct (json_to_string _); [|done]. destruct (send_text _ _) as [res t].
  by destruct (is_err res).
Qed.

Lemma try_send_current (snd : EventSender) seen ev (ch : Events C) :
  current (try_send snd seen ev ch).2 = current ch.
Proof.
  unfold try_send. destruct (negb _); [done|]. destruct (event_size ev) as [c n].
  repeat (case_match; try done).
Qed.

Lemma should_process_frame topic now s :
  frame s (should_process topic now s).2 ∧ transport (should_process topic now s).2 = transport s ∧
  link (should_process topic now s).2 = link s ∧
  callback_events (routing (should_process topic now s).2) = callback_events (routing s) ∧
  subscriptions (routing (should_process topic now s).2) = subscriptions (routing s).
Proof. unfold should_process. destruct (throttle_limits !! _); [|done]. by destruct (F64.ge _ _). Qed.

Lemma dispatch_frame message e s : frame s (dispatch_subscription message e s).
Proof.
  unfold dispatch_subscription. destruct (seqb _ ""); [done|].
  pose proof (should_process_frame (default "" (get message "topic" ≫= as_str)) (secs_dispatch e) s)
    as (Hf & _).
  destruct (should_process _ _ s) as [[] s1]; simpl in *; [|done].
  destruct (negb (bool_decide _)); [done|].
  set (ch := callback_events (routing s1)).
  pose proof (try_send_current {| s_generation := session_id s1 |} (current ch)
    (TopicCallback (default "" (get message "topic" ≫= as_str)) message) ch) as Hc.
  destruct (try_send _ _ _ ch) as [res ch']. simpl in Hc.
  eapply frame_trans; [exact Hf|]. destruct (is_err res); split; try done; by unfold session_id.
Qed.

Lemma answer_validation_frame key e s : frame s (answer_validation key e s).
Proof. unfold answer_validation. destruct (encrypt_key key); [apply send_frame|done]. Qed.

Lemma start_heartbeat_frame s : frame s (start_heartbeat_in_session s).
Proof. unfold start_heartbeat_in_session. by destruct (heartbeat_running (link s)). Qed.

Lemma network_status_frame e s : frame s (request_network_status_once e s).
Proof.
  unfold request_network_status_once. destruct (network_probe_running (link s)); [done|].
  eapply (frame_trans _ (set_probe true s)); [done|apply send_frame].
Qed.

Lemma handle_validation_frame message e s : frame s (handle_validation message e s).
Proof.
  unfold handle_validation. destruct (decide _).
  - eapply frame_trans; [|apply network_status_frame].
    eapply (frame_trans _ (set_last_response (unix_secs e) (set_opened true s)));
      [done|apply start_heartbeat_frame].
  - destruct (get message "data" ≫= as_str) as [key|]; [|done].
    eapply (frame_trans _ (with_link _ s)); [done|apply answer_validation_frame].
Qed.

Lemma handle_rtc_inner_req_frame message e s : frame s (handle_rtc_inner_req message e s).
Proof.
  unfold handle_rtc_inner_req. destruct (get message "info") as [info|]; [|done].
  set (s1 := if decide _ then _ else s).
  assert (frame s s1) as Hf by (unfold s1; destruct (decide _); [apply send_frame|done]).
  destruct (get info "status" ≫= as_str) as [st|]; [|done]. by destruct (seqb _ _ || seqb _ _).
Qed.

Lemma handle_text_frame message e s : frame s (handle_text_response message e s).
Proof.
  unfold handle_text_response.
  destruct (seqb _ _); [apply handle_validation_frame|].
  destruct (seqb _ _); [apply handle_rtc_inner_req_frame|].
  destruct (seqb _ _); [done|]. destruct (seqb _ _ || seqb _ _ || seqb _ _); [done|].
  destruct (seqb _ _); [|done]. unfold handle_validation_err. destruct (decide _); [|done].
  destruct (seqb _ _); [done|apply answer_validation_frame].
Qed.

(** *** Methods that move the protocol *)
Lemma fail_pending_steps key error s :
  req_steps (abs s) (abs (fail_pending key error s)).
Proof.
  unfold fail_pending. destruct (pending_callbacks (requests s) !! key) as [cb|] eqn:Hk; [|done].
  apply rtc_once. unfold abs. apply rs_answer; eauto.
Qed.

Lemma resolve_steps key message s :
  req_steps (abs s) (abs (resolve_pending_response key message s)).
Proof.
  unfold resolve_pending_response.
  destruct (pending_callbacks (requests s) !! key) as [cb|] eqn:Hk; [|done].
  apply rtc_once. unfold abs. apply (rs_answer (session_id s)); [done|]. right. by exists message.
Qed.

Lemma with_chunks_steps a s : req_steps (abs s) (abs (with_requests (with_chunks a (requests s)) s)).
Proof. apply rtc_once. unfold abs. apply (rs_chunks (session_id s)). Qed.

Lemma guard_drop_steps key tok s : req_steps (abs s) (abs (guard_drop key tok s)).
Proof.
  unfold guard_drop. destruct (pending_callbacks (requests s) !! key) as [cb|]; [|done].
  destruct (token cb =? tok); [|done].
  etrans; [apply rtc_once, (rs_drop (session_id s) _ key)|].
  apply rtc_once. apply (rs_chunks (session_id s)).
Qed.

Lemma handle_chunked_steps message e s :
  req_steps (abs s) (abs (handle_chunked_response message e s).2).
Proof.
  unfold handle_chunked_response, insert_chunk.
  destruct (chunk_location message) as [[[meta payload] path]|]; [|done].
  match goal with |- context [match ?m with Ok _ => _ | Err _ => _ end] =>
    destruct m as [[[index tot] b]|error] end; simpl.
  - destruct (Chunks.insert _ _ _ _ _ _ _) as [res a].
    etrans; [apply (with_chunks_steps a s)|].
    destruct res as [[b'|]|error]; [|done|].
    + destruct (_ <? len b'); [apply fail_pending_steps|apply resolve_steps].
    + etrans; [|apply fail_pending_steps]. apply with_chunks_steps.
  - etrans; [|apply fail_pending_steps]. apply with_chunks_steps.
Qed.

Lemma run_resolve_steps message e s : req_steps (abs s) (abs (run_resolve message e s)).
Proof.
  unfold run_resolve. destruct (get message "type"); [|done].
  pose proof (handle_chunked_steps message e s) as Hc.
  destruct (handle_chunked_response message e s) as [[] s1]; [done|].
  etrans; [exact Hc|apply resolve_steps].
Qed.

Lemma publish_begin_steps topic data ty timeout exp now s :
  req_steps (abs s) (abs (publish_begin topic data ty timeout exp now s).2).
Proof.
  unfold publish_begin. destruct (validated_timeout _ now); [|done].
  destruct (negb _); [done|]. set (key := generate_message_key _ _ _).
  destruct (pending_callbacks (requests s) !! key) as [cb|] eqn:Hk; [done|].
  destruct (MAX_PENDING_REQUESTS <=? _) eqn:Hsz; [done|].
  set (s1 := with_requests _ s).
  assert (req_steps (abs s) (abs s1)) as Hadm.
  { apply rtc_once. apply (rs_admit (session_id s) _ key _ Hk); [lia|done|done]. }
  pose proof (send_frame topic data (default types.msg ty) now s1) as [Hf _].
  destruct (send_message_locked _ _ _ _ s1) as [[[]|error] s2]; simpl in *.
  - etrans; [exact Hadm|]. by apply frame_steps.
  - etrans; [exact Hadm|].
    etrans; [by apply frame_steps|apply guard_drop_steps].
Qed.

(** A change of session with its failures, as one abstract reset. *)
Lemma reset_steps reason sess s s' :
  session_id s' = sess →
  requests s' = with_chunks ∅ (fail_all_requests reason (requests s)) →
  req_steps (abs s) (abs s').
Proof.
  intros Hs Hr. apply rtc_once. unfold abs. rewrite Hs, Hr. apply rs_reset.
Qed.

Lemma fail_all_with_chunks reason a r :
  fail_all_requests reason (with_chunks a r) = with_chunks a (fail_all_requests reason r).
Proof.
  unfold fail_all_requests. cbn [with_chunks pending_callbacks].
  induction (map_to_list (pending_callbacks r)).*2 as [|cb l IH]; [done|]. simpl. by rewrite IH.
Qed.

Lemma start_new_session_steps s : req_steps (abs s) (abs (start_new_session s)).
Proof.
  unfold start_new_session, next_session.
  destruct (set_ingress_generation _ _) as [res t] eqn:Hg.
  eapply reset_steps; [done|]. exact (fail_all_with_chunks _ ∅ _).
Qed.

Lemma reject_steps message reason e s :
  req_steps (abs s) (abs (reject_binary_response message reason e s)).
Proof.
  unfold reject_binary_response.
  etrans; [|apply fail_pending_steps]. apply with_chunks_steps.
Qed.

Lemma process_binary_steps fr json data e s :
  req_steps (abs s) (abs (process_binary_payload fr json data e s).2).
Proof.
  unfold process_binary_payload.
  pose proof (should_process_frame (topic_or_type json) (secs_binary e) s) as (Hf & _).
  destruct (get json "data" ≫= from_json) as [meta|].
  - destruct (_ <? len data); [apply reject_steps|].
    destruct (negb (seqb _ _)); [apply reject_steps|].
    destruct (should_process _ _ s) as [[] s1]; simpl in *; [|by apply frame_steps].
    destruct (submit _ _) as [[[]|error] q].
    + etrans; [by apply frame_steps|]. by apply frame_steps.
    + etrans; [by apply frame_steps|]. etrans; [|apply fail_pending_steps]. by apply frame_steps.
  - destruct (lidar_intent fr json); [apply reject_steps|]. destruct (_ <? len data).
    + etrans; [|apply fail_pending_steps]. apply with_chunks_steps.
    + destruct (should_process _ _ s) as [[] s1]; by apply frame_steps.
Qed.

Lemma deal_array_buffer_steps data e s : req_steps (abs s) (abs (deal_array_buffer data e s).2).
Proof.
  unfold deal_array_buffer. destruct (_ <? len data); [done|].
  destruct (parse data) as [[[fr h] p]|]; [apply process_binary_steps|done].
Qed.

Lemma process_ingress_steps message e s : req_steps (abs s) (abs (process_ingress message e s)).
Proof.
  unfold process_ingress. destruct (negb _); [done|].
  destruct (im_payload message) as [text|binary|error].
  - destruct (parse_json _) as [parsed|]; [|done].
    etrans; [apply run_resolve_steps|]. etrans; [apply frame_steps, handle_text_frame|].
    apply frame_steps, dispatch_frame.
  - pose proof (deal_array_buffer_steps binary e s) as Hd.
    destruct (deal_array_buffer binary e s) as [[parsed|] s1]; [|done]. simpl in Hd.
    etrans; [exact Hd|]. etrans; [apply run_resolve_steps|]. apply frame_steps, dispatch_frame.
  - unfold next_session. destruct (set_ingress_generation _ _) as [res t].
    destruct (is_err res); (eapply reset_steps; [done|exact (fail_all_with_chunks _ ∅ _)]).
Qed.

Lemma expire_chunks_steps now s : req_steps (abs s) (abs (expire_chunks now s)).
Proof.
  unfold expire_chunks. destruct (Chunks.expire _ _) as [expired a].
  etrans; [apply (with_chunks_steps a)|]. generalize (with_requests (with_chunks a (requests s)) s).
  induction expired as [|key l IH]; intros s'; simpl; [done|].
  etrans; [apply fail_pending_steps|apply IH].
Qed.

Lemma router_steps incoming e s : req_steps (abs s) (abs (router_step incoming e s)).
Proof.
  unfold router_step. destruct (take_transport_error (transport s)) as [fault t].
  etrans; [apply (frame_steps s (with_transport t s)); done|].
  set (s1 := with_transport t s).
  assert (req_steps (abs s1) (abs match fault with Some f => process_ingress f e s1 | None => s1 end))
    as Hf by (destruct fault; [apply process_ingress_steps|done]).
  etrans; [exact Hf|]. etrans; [apply expire_chunks_steps|].
  destruct incoming; [apply process_ingress_steps|done].
Qed.

Lemma heartbeat_steps epoch id owner e s :
  req_steps (abs s) (abs (heartbeat_step epoch id owner e s).2).
Proof.
  unfold heartbeat_step. destruct (negb _); [done|]. destruct (_ && _).
  - by eapply reset_steps.
  - destruct (seqb _ _); [apply frame_steps, send_frame|done].
Qed.

Lemma subscribe_frame topic now s : frame s (subscribe topic now s).2.
Proof.
  unfold subscribe. pose proof (send_frame topic None types.subscribe now s) as [Hf _].
  by destruct (send_message_locked _ _ _ _ s) as [[[]|error] s1].
Qed.
Lemma unsubscribe_frame topic now s : frame s (unsubscribe topic now s).2.
Proof.
  unfold unsubscribe. pose proof (send_frame topic None types.unsubscribe now s) as [Hf _].
  by destruct (send_message_locked _ _ _ _ s) as [[[]|error] s1].
Qed.

Lemma try_delivery_current fuel (ch : Events C) :
  current (try_delivery_loop fuel ch).2 = current ch.
Proof.
  revert ch. induction fuel as [|fuel IH]; intros ch; [done|]. simpl.
  destruct (chan_recv (control ch)) as [[d q]|[]].
  - destruct (is_current _ d); [done|]. by rewrite IH.
  - destruct (chan_recv (media ch)) as [[d q]|[]]; [|done|done].
    destruct (is_current _ d); [done|]. by rewrite IH.
  - destruct (chan_recv (media ch)) as [[d q]|[]]; [|done|done].
    destruct (is_current _ d); [done|]. by rewrite IH.
Qed.

Lemma drop_all_current l (ch : Events C) :
  current (foldl (λ ch d, drop_delivery d ch) ch l) = current ch.
Proof. revert ch. induction l as [|d l IH]; intros ch; [done|]. simpl. by rewrite IH. Qed.

Lemma ev_step_current o (ch : Events C) :
  (∀ g, o ≠ SetGeneration g) → current (ev_step o ch) = current ch.
Proof.
  intros Hne. destruct o as [g|snd seen ev| |i|i|]; simpl.
  - by destruct (Hne g).
  - apply try_send_current.
  - apply try_delivery_current.
  - unfold take_event. by destruct (owned ch !! i).
  - unfold drop_owned. by destruct (owned ch !! i).
  - unfold drop_receiver. simpl. by rewrite drop_all_current.
Qed.

Lemma svc_step_refines o s : req_steps (abs s) (abs (svc_step o s)).
Proof.
  destruct o as [topic data ty timeout exp now|topic options timeout now|call|topic data ty now
    |topic now|topic now|incoming e|epoch id owner e| | | |d|t|o|q|now|m e]; simpl.
  - apply publish_begin_steps.
  - unfold publish_request_new. destruct (get options "api_id" ≫= as_i64); [|done].
    destruct (get options "id" ≫= as_i64); [apply publish_begin_steps|].
    etrans; [|apply publish_begin_steps]. by apply frame_steps.
  - apply guard_drop_steps.
  - apply frame_steps, send_frame.
  - apply frame_steps, subscribe_frame.
  - apply frame_steps, unsubscribe_frame.
  - apply router_steps.
  - apply heartbeat_steps.
  - apply start_new_session_steps.
  - unfold stop_background_tasks. etrans; [|apply start_new_session_steps]. by apply frame_steps.
  - unfold prepare_ingress. destruct (set_ingress_generation _ _). by apply frame_steps.
  - unfold set_decoder. destruct (seqb d "libvoxel"); [done|]. destruct (negb _); [done|].
    by apply frame_steps.
  - by apply frame_steps.
  - apply frame_steps. destruct o; try done; split; try done; unfold session_id;
      apply (ev_step_current); done.
  - by apply frame_steps.
  - apply expire_chunks_steps.
  - apply process_ingress_steps.
Qed.

Lemma svc_run_refines l s : req_steps (abs s) (abs (svc_run l s)).
Proof.
  revert s. induction l as [|o l IH]; intros s; [done|].
  etrans; [apply svc_step_refines|apply IH].
Qed.

Lemma new_service_inv t ch q session sequence :
  req_inv (abs (new_service t ch q session sequence)).
Proof.
  unfold new_service, prepare_ingress. destruct (set_ingress_generation _ _).
  split; simpl; [done|..].
  - by intros key cb ?%lookup_empty_Some.
  - by intros k k' cb cb' ?%lookup_empty_Some.
  - by intros t' r' ?%lookup_empty_Some.
Qed.

(** ** Requests *)

(** C1: the service refines the request protocol: whatever its callers, the
    router, the heartbeat, the transport and the other users of its queues do,
    the requests and the session move only by admitting a request while fewer
    than 128 are in flight, answering one, dropping one, or a reset that answers
    all of them. *)
Theorem service_refines_requests l s : req_steps (abs s) (abs (svc_run l s)).
Proof. apply svc_run_refines. Qed.

(** C4: in every execution at most 128 requests are in flight, each of them
    belongs to the current session and has no answer yet; so the answer for a
    stale session is never given. *)
Theorem inflight_bounded_current t ch q session sequence l key cb :
  let s := svc_run l (new_service t ch q session sequence) in
  Z.of_nat (size (pending_callbacks (requests s))) ≤ 128 ∧
  (pending_callbacks (requests s) !! key = Some cb →
   pc_session_id cb = session_id s ∧ replies (requests s) !! token cb = None).
Proof.
  intros s. assert (req_inv (abs s)) as Hi.
  { eapply req_steps_inv; [apply svc_run_refines|apply new_service_inv]. }
  split; [apply Hi|]. intros Hk. by destruct (ri_pending _ Hi key cb Hk) as (? & _ & ?).
Qed.

(** What is known of the request with token [tok]. *)
Definition expects (tok : Z) (exp : ResponseExpectation) (x : Abs) : Prop :=
  (∀ key cb, pending_callbacks (a_requests x) !! key = Some cb → token cb = tok → expectation cb = exp) ∧
  (∀ m, replies (a_requests x) !! tok = Some (Ok m) → validate exp m = Ok ()) ∧
  tok < next_token (a_requests x).

Lemma req_step_expects tok exp x y : req_step x y → expects tok exp x → expects tok exp y.
Proof.
  intros Hs (Hp & Hr & Ht). unfold expects.
  destruct Hs as [sess r a|sess r key cb res Hk Hres|sess r key|sess r key cb Hk Hsz Htk Hses
    |sess sess' r reason]; simpl in *.
  - done.
  - split_and!; [|intros m|done].
    + intros k c [_ Hc]%lookup_delete_Some. by eapply Hp.
    + intros [[Heq ->]|[_ Hm]]%lookup_insert_Some; [|by apply Hr].
      destruct Hres as [[e [=]]|[message Hans]]. unfold answer in Hans.
      destruct (negb _); [done|]. rewrite (Hp _ _ Hk Heq) in Hans.
      destruct (validate exp message) as [[]|] eqn:Hv; simplify_eq/=. done.
  - split_and!; [|done|done]. intros k c [_ Hc]%lookup_delete_Some. by eapply Hp.
  - split_and!; [|done|lia]. intros k c [[_ <-]|[_ Hc]]%lookup_insert_Some Heq; [lia|by eapply Hp].
  - rewrite fail_all_pending_empty, fail_all_next_token. split_and!; [done| |done].
    intros m. unfold fail_all_requests. rewrite fold_reply_lookup.
    case_bool_decide; [done|by apply Hr].
Qed.

Lemma req_steps_expects tok exp x y : req_steps x y → expects tok exp x → expects tok exp y.
Proof. induction 1; eauto using req_step_expects. Qed.

Lemma publish_begin_Ok topic data ty timeout exp now s call s1 :
  publish_begin topic data ty timeout exp now s = (Ok call, s1) →
  call_token call = next_token (requests s) ∧
  pending_callbacks (requests s) !! call_key call = None ∧
  requests s1 = {| pending_callbacks :=
                     <[call_key call := {| token := next_token (requests s); expectation := exp;
                                           pc_session_id := session_id s |}]>
                       (pending_callbacks (requests s));
                   chunk_data_storage := chunk_data_storage (requests s);
                   replies := replies (requests s); next_token := next_token (requests s) + 1 |}.
Proof.
  unfold publish_begin. destruct (validated_timeout _ now); [|done].
  destruct (negb _); [done|]. set (key := generate_message_key _ _ _).
  destruct (pending_callbacks (requests s) !! key) as [cb|] eqn:Hk; [done|].
  destruct (MAX_PENDING_REQUESTS <=? _); [done|].
  set (s0 := with_requests _ s).
  pose proof (send_frame topic data (default types.msg ty) now s0) as [[Hf _] _].
  destruct (send_message_locked _ _ _ _ s0) as [[[]|error] s2]; [|done].
  intros [= <- <-]. simpl in *. by rewrite Hf.
Qed.

(** What is expected of a request stays so. *)
Lemma request_expected topic data ty timeout exp now s call s1 l :
  req_inv (abs s) →
  publish_begin topic data ty timeout exp now s = (Ok call, s1) →
  expects (call_token call) exp (abs (svc_run l s1)).
Proof.
  intros Hi (Htok & Hfree & Hr)%publish_begin_Ok. rewrite Htok.
  eapply req_steps_expects; [apply svc_run_refines|].
  unfold expects. simpl. rewrite Hr. simpl. split_and!; [|intros m Hm'|lia].
  - intros k c [[_ <-]|[_ Hc]]%lookup_insert_Some Heq; [done|].
    destruct (ri_pending _ Hi _ _ Hc) as (_ & ? & _). simpl in *. lia.
  - pose proof (ri_replies _ Hi _ _ Hm'). simpl in *. lia.
Qed.
(** What [validate] lets through, on the fields of the message. *)
Lemma validate_Ok exp message :
  validate exp message = Ok () →
  (∀ l, topics exp = Some l → default "" (get message "topic" ≫= as_str) ∈ l) ∧
  (∀ a, api_id exp = Some a →
     get_path message ["data"; "header"; "identity"; "api_id"] ≫= as_i64 = Some a).
Proof.
  unfold validate. intros Hv. split.
  - intros l Hl. rewrite Hl in Hv. destruct (existsb _ l) eqn:He; [|done].
    apply existsb_exists in He as (t & Hin & Ht). apply String.eqb_eq in Ht as <-. by apply list_elem_of_In.
  - intros a Ha. rewrite Ha in Hv. revert Hv.
    destruct (match topics exp with Some _ => _ | None => _ end); [|done]. simpl. by destruct (decide _).
Qed.
(** The topics an API response may name. *)
Inductive answers_topic (request_topic : string) : string → Prop :=
  | same_topic : answers_topic request_topic request_topic
  | response_topic prefix : request_topic = prefix +:+ "/request" →
      answers_topic request_topic (prefix +:+ "/response").
Lemma api_topics topic api t :
  (∀ l, topics (for_api_request topic api) = Some l → t ∈ l) → answers_topic topic t.
Proof.
  intros Ht. specialize (Ht _ eq_refl). apply elem_of_cons in Ht as [->|Ht]; [constructor|].
  case_match; [by apply elem_of_nil in Ht|]. apply list_elem_of_singleton in Ht as ->.
  unfold expected_response_topic. destruct (strip_suffix topic "/request") as [prefix|] eqn:Hs; [|constructor].
  apply response_topic. by apply strip_suffix_Some.
Qed.

(** C3: a response handed to the caller of an API request is one to that request,
    however the messages of all requests are interleaved: it names the topic of the
    request, or the topic with [/response] for [/request], and it carries the very
    [api_id] the caller asked for. *)
Theorem response_validated topic options timeout now s call s1 l message :
  req_inv (abs s) →
  publish_request_new topic options timeout now s = (Ok call, s1) →
  replies (requests (svc_run l s1)) !! call_token call = Some (Ok message) →
  answers_topic topic (default "" (get message "topic" ≫= as_str)) ∧
  ∃ api, get options "api_id" ≫= as_i64 = Some api ∧
    get_path message ["data"; "header"; "identity"; "api_id"] ≫= as_i64 = Some api.
Proof.
  intros Hi. unfold publish_request_new. destruct (get options "api_id" ≫= as_i64) as [api|]; [|done].
  set (ids := match get options "id" ≫= as_i64 with Some id => _ | None => _ end).
  assert (abs ids.2 = abs s) as Habs by (subst ids; by destruct (get options "id" ≫= as_i64)).
  destruct ids as [id s0]. simpl in Habs. rewrite <- Habs in Hi. intros Hb Hr.
  destruct (request_expected _ _ _ _ _ _ _ _ _ l Hi Hb) as (_ & Hv & _).
  destruct (validate_Ok _ _ (Hv _ Hr)) as [Ht Ha]. split; [by eapply api_topics|]. exists api. auto.
Qed.

Lemma req_step_stable x y t r :
  req_step x y → req_inv x → replies (a_requests x) !! t = Some r →
  replies (a_requests y) !! t = Some r.
Proof.
  intros Hs Hi Hr. destruct Hs as [sess rq a|sess rq key cb res Hk Hres|sess rq key|sess rq key cb
    Hk Hsz Htk Hses|sess sess' rq reason]; simpl in *; try done.
  - destruct (ri_pending _ Hi _ _ Hk) as (_ & _ & Hn). simpl in Hn.
    rewrite lookup_insert_ne; [done|congruence].
  - rewrite fail_all_replies_other; [done|]. intros key cb Hk <-.
    destruct (ri_pending _ Hi _ _ Hk) as (_ & _ & Hn). simpl in Hn. congruence.
Qed.

Lemma svc_run_stable l s t response :
  req_inv (abs s) → replies (requests s) !! t = Some response →
  replies (requests (svc_run l s)) !! t = Some response.
Proof.
  intros Hi Hr. change (replies (a_requests (abs (svc_run l s))) !! t = Some response).
  change (replies (a_requests (abs s)) !! t = Some response) in Hr.
  revert Hi Hr. induction (svc_run_refines l s) as [x|x y z Hxy _ IH]; [done|].
  intros Hi Hr. apply IH; [by eapply req_step_inv|by eapply req_step_stable].
Qed.
(** A request is answered at most once: an answer, once sent, is what every
    later poll of the request returns. *)
Theorem answered_once l s call now response :
  req_inv (abs s) →
  replies (requests s) !! call_token call = Some response →
  publish_poll call now (svc_run l s) = Some response.
Proof. intros Hi Hr. unfold publish_poll. by rewrite (svc_run_stable l s _ _ Hi Hr). Qed.

(** Ending a call (a response, a timeout or a cancellation) removes its own
    request and partial chunks and nothing else: a later request that reused
    the key keeps its place. *)
Theorem publish_end_only_own call s key cb :
  pending_callbacks (requests s) !! key = Some cb →
  if bool_decide (token cb = call_token call ∧ key = call_key call)
  then pending_callbacks (requests (publish_end call s)) !! key = None ∧
       chunk_data_storage (requests (publish_end call s)) =
         delete key (chunk_data_storage (requests s))
  else pending_callbacks (requests (publish_end call s)) !! key = Some cb.
Proof.
  intros Hk. unfold publish_end, guard_drop.
  destruct (decide (key = call_key call)) as [->|Hne].
  - rewrite Hk. destruct (token cb =? call_token call) eqn:E.
    + rewrite bool_decide_true by (split; [lia|done]). simpl. by rewrite lookup_delete_eq.
    + rewrite bool_decide_false by (intros [? _]; lia). done.
  - rewrite bool_decide_false by naive_solver.
    destruct (pending_callbacks (requests s) !! call_key call); [|done].
    destruct (_ =? _); [|done]. simpl. by rewrite lookup_delete_ne.
Qed.

(** ** Responses *)

(** A text response of the current session that is not a chunk answers the
    request registered under its key, with the message if the request expects
    it and with the mismatch otherwise; no other request changes, and a response
    nobody waits for changes no request. *)
Theorem text_response_correlated message e s text parsed :
  im_generation message = session_id s → im_payload message = Text text →
  parse_json (as_bytes text) = Ok parsed → get parsed "type" ≠ None →
  chunk_location parsed = None →
  let key := incoming_key parsed in
  requests (process_ingress message e s) =
  match pending_callbacks (requests s) !! key with
  | Some cb => reply cb (answer (session_id s) cb parsed)
                 (with_pending (delete key (pending_callbacks (requests s))) (requests s))
  | None => requests s
  end.
Proof.
  intros Hg Hp Hj Hty Hc key. unfold process_ingress. rewrite Hg, Z.eqb_refl. simpl.
  rewrite Hp, Hj.
  destruct (dispatch_frame parsed e (handle_text_response parsed e (run_resolve parsed e s))) as [-> _].
  destruct (handle_text_frame parsed e (run_resolve parsed e s)) as [-> _].
  unfold run_resolve. destruct (get parsed "type"); [|done].
  unfold handle_chunked_response. rewrite Hc. unfold resolve_pending_response. fold key.
  by destruct (pending_callbacks (requests s) !! key) as [cb|].
Qed.

Lemma fail_all_pending_requests reason s :
  requests (fail_all_pending reason s) = fail_all_requests reason (requests s).
Proof. done. Qed.

Lemma next_generation_differs n : in_u 64 n → wrapping_add 64 n 1 ≠ n.
Proof.
  unfold in_u, wrapping_add. intros Hu E. destruct (decide (n + 1 = 2 ^ 64)) as [Hw|Hw].
  - rewrite Hw, Z_mod_same_full in E. lia.
  - rewrite Z.mod_small in E by lia. lia.
Qed.

Lemma closed_refuses s :
  ready_state (transport s) ≠ "open" →
  (∀ topic data ty now,
     send_message topic data ty now s = (Err "Data channel is not open", s)) ∧
  (∀ topic data ty timeout exp now,
     is_err (publish_begin topic data ty timeout exp now s).1 = true ∧
     (publish_begin topic data ty timeout exp now s).2 = s).
Proof.
  intros Hc. apply String.eqb_neq in Hc. split; intros.
  - unfold send_message, send_message_locked. unfold seqb. by rewrite Hc.
  - unfold publish_begin. destruct (validated_timeout _ now); [|done].
    unfold seqb. by rewrite Hc.
Qed.

(** What the laws of the port give: the transport follows the session. *)
Lemma new_session_transport `{!DataChannelPortSpec T} s :
  in_u 64 (session_id s) →
  port_generation (transport s) = session_id s →
  is_err (next_session s).1 = false →
  let s' := start_new_session s in
  port_generation (transport s') = session_id s' ∧ ready_state (transport s') ≠ "open" ∧
  (take_transport_error (transport s')).1 = None.
Proof.
  intros Hu Hp Hok s'. unfold s', start_new_session.
  unfold next_session in *.
  change (session_id (with_diagnostics _ s)) with (session_id s) in *.
  change (transport (with_diagnostics _ s)) with (transport s) in *.
  destruct (set_ingress_generation _ _) as [[[]|] t'] eqn:Hset; [|done]. simpl.
  destruct (set_generation_spec _ _ _ Hset) as (Hg & Hf & Hc).
  split_and!; [exact Hg|apply Hc|exact Hf].
  rewrite Hp. intros E. by apply (next_generation_differs _ Hu).
Qed.

(** A new session answers every waiting request with the reset error,
    forgets all partial chunks, closes the channel and stops the heartbeat, and
    from then on a message of the old session has no effect.  On any transport
    that keeps the laws of the port and follows the session, the transport is
    moved to the new session without a fault of the old one, and until it opens
    again every message and every request is refused and changes nothing. *)
Theorem new_session_resets `{!DataChannelPortSpec T} s key cb message e :
  in_u 64 (session_id s) →
  pending_callbacks (requests s) !! key = Some cb →
  im_generation message = session_id s →
  port_generation (transport s) = session_id s →
  is_err (next_session s).1 = false →
  let s' := start_new_session s in
  (replies (requests s') !! token cb = Some (Err "DataChannel session reset") ∧
   pending_callbacks (requests s') = ∅ ∧ chunk_data_storage (requests s') = ∅ ∧
   is_open s' = false ∧ heartbeat_running (link s') = false ∧ heartbeat_stop_tx (link s') = None ∧
   session_id s' = wrapping_add 64 (session_id s) 1 ∧ process_ingress message e s' = s') ∧
  (port_generation (transport s') = session_id s' ∧
   (take_transport_error (transport s')).1 = None ∧
   (∀ topic data ty now,
      send_message topic data ty now s' = (Err "Data channel is not open", s')) ∧
   (∀ topic data ty timeout exp now,
      is_err (publish_begin topic data ty timeout exp now s').1 = true ∧
      (publish_begin topic data ty timeout exp now s').2 = s')).
Proof.
  intros Hu Hk Hg Hport Hok s'.
  destruct (new_session_transport s Hu Hport Hok) as (Hp & Hc & Hf).
  split; [|split; [exact Hp|split; [exact Hf|exact (closed_refuses _ Hc)]]].
  assert (requests s' = with_chunks ∅ (fail_all_requests "DataChannel session reset" (requests s)))
    as Hr.
  { unfold s', start_new_session, next_session. destruct (set_ingress_generation _ _) as [res t].
    exact (fail_all_with_chunks _ ∅ _). }
  assert (session_id s' = wrapping_add 64 (session_id s) 1 ∧
          link s' = with_last_response 0 (with_opened false (with_probe false (heartbeat_off (link s)))))
    as [Hs Hl].
  { unfold s', start_new_session, next_session. by destruct (set_ingress_generation _ _) as [res t]. }
  rewrite Hr. simpl. rewrite fail_all_pending_empty, (fail_all_replies_pending _ _ _ _ Hk).
  unfold is_open. rewrite Hl. simpl. split_and!; try done; [apply andb_false_r|].
  unfold process_ingress. rewrite Hg, Hs.
  pose proof (next_generation_differs _ Hu).
  by replace (session_id s =? wrapping_add 64 (session_id s) 1) with false by lia.
Qed.

(** ** Opening *)
Definition opened s : bool := data_channel_opened (link s).

(** Methods that cannot open the channel. *)
Definition opens_not s s' : Prop := opened s' = true → opened s = true.

Lemma fail_pending_link key error s : link (fail_pending key error s) = link s.
Proof. unfold fail_pending. by destruct (_ !! key). Qed.
Lemma resolve_link key message s : link (resolve_pending_response key message s) = link s.
Proof. unfold resolve_pending_response. by destruct (_ !! key). Qed.
Lemma guard_drop_link key tok s : link (guard_drop key tok s) = link s.
Proof. unfold guard_drop. destruct (_ !! key); [|done]. by destruct (_ =? _). Qed.

Lemma run_resolve_link message e s : link (run_resolve message e s) = link s.
Proof.
  unfold run_resolve, handle_chunked_response, insert_chunk. destruct (get message "type"); [|done].
  destruct (chunk_location message) as [[[meta payload] path]|]; [|apply resolve_link].
  match goal with |- context [match ?m with Ok _ => _ | Err _ => _ end] =>
    destruct m as [[[index tot] b]|error] end; simpl.
  - destruct (Chunks.insert _ _ _ _ _ _ _) as [[[b'|]|error] a]; simpl; [|done|].
    + destruct (_ <? len b'); simpl; [by rewrite fail_pending_link|by rewrite resolve_link].
    + by rewrite fail_pending_link.
  - by rewrite fail_pending_link.
Qed.

Lemma dispatch_link message e s : link (dispatch_subscription message e s) = link s.
Proof.
  unfold dispatch_subscription. destruct (seqb _ ""); [done|].
  pose proof (should_process_frame (default "" (get message "topic" ≫= as_str)) (secs_dispatch e) s)
    as (_ & _ & Hl & _).
  destruct (should_process _ _ s) as [[] s1]; simpl in *; [|done].
  destruct (negb (bool_decide _)); [done|]. destruct (try_send _ _ _ _) as [res ch'].
  by destruct (is_err res).
Qed.

Lemma answer_validation_link key e s : link (answer_validation key e s) = link s.
Proof. unfold answer_validation. destruct (encrypt_key key); [apply send_frame|done]. Qed.

Lemma handle_text_opened message e s :
  opened s = false → opened (handle_text_response message e s) = true →
  get message "type" ≫= as_str = Some types.validation ∧
  get message "data" ≫= as_str = Some "Validation Ok.".
Proof.
  intros Hc. unfold handle_text_response.
  set (ty := default "" (get message "type" ≫= as_str)).
  assert (Hlink : ∀ s', link s' = link s → opened s' = true → False).
  { unfold opened. intros s' -> ?. unfold opened in Hc. congruence. }
  destruct (seqb ty types.validation) eqn:Ety.
  - unfold handle_validation. destruct (decide _) as [Hd|Hd].
    + intros _. split; [|done]. unfold ty in Ety. apply String.eqb_eq in Ety.
      destruct (get message "type" ≫= as_str); simpl in Ety; [by rewrite Ety|].
      by vm_compute in Ety.
    + intros Ho. exfalso. revert Ho. destruct (get message "data" ≫= as_str); [|by apply Hlink].
      unfold opened. rewrite answer_validation_link. simpl. unfold opened in Hc. congruence.
  - intros Ho. exfalso. revert Ho.
    destruct (seqb ty types.rtc_inner_req).
    { unfold handle_rtc_inner_req. destruct (get message "info") as [info|]; [|by apply Hlink].
      set (s1 := if decide _ then _ else s).
      assert (link s1 = link s) as Hl by (unfold s1; destruct (decide _); [apply send_frame|done]).
      destruct (get info "status" ≫= as_str); [|by apply Hlink].
      destruct (seqb _ _ || seqb _ _); [|by apply Hlink]. unfold opened, set_probe. simpl.
      rewrite Hl. unfold opened in Hc. congruence. }
    destruct (seqb ty types.heartbeat).
    { unfold opened in *. simpl. congruence. }
    destruct (seqb _ _ || seqb _ _ || seqb _ _); [by apply Hlink|].
    destruct (seqb ty types.err); [|by apply Hlink].
    unfold handle_validation_err. destruct (decide _); [|by apply Hlink].
    destruct (seqb (validation_key (link s)) ""); [by apply Hlink|].
    apply Hlink, answer_validation_link.
Qed.

Definition validation_ok (message : IngressMessage) (sess : Z) : Prop :=
  im_generation message = sess ∧ ∃ text parsed,
    im_payload message = Text text ∧ parse_json (as_bytes text) = Ok parsed ∧
    get parsed "type" ≫= as_str = Some types.validation ∧
    get parsed "data" ≫= as_str = Some "Validation Ok.".

Lemma process_binary_link fr json data e s :
  link (process_binary_payload fr json data e s).2 = link s.
Proof.
  unfold process_binary_payload, reject_binary_response.
  pose proof (should_process_frame (topic_or_type json) (secs_binary e) s) as (_ & _ & Hl & _).
  destruct (get json "data" ≫= from_json) as [meta|].
  - destruct (_ <? len data); [by simpl; rewrite fail_pending_link|].
    destruct (negb (seqb _ _)); [by simpl; rewrite fail_pending_link|].
    destruct (should_process _ _ s) as [[] s1]; simpl in *; [|done].
    destruct (submit _ _) as [[[]|error] q]; simpl; [done|by rewrite fail_pending_link].
  - destruct (lidar_intent fr json); [by simpl; rewrite fail_pending_link|].
    destruct (_ <? len data); [by simpl; rewrite fail_pending_link|].
    by destruct (should_process _ _ s) as [[] s1].
Qed.

Lemma process_ingress_opened message e s :
  opened s = false → opened (process_ingress message e s) = true →
  validation_ok message (session_id s).
Proof.
  intros Hc. unfold process_ingress.
  destruct (im_generation message =? session_id s) eqn:Hg; simpl; [|congruence].
  destruct (im_payload message) as [text|binary|error] eqn:Hp.
  - destruct (parse_json _) as [parsed|] eqn:Hj; [|unfold opened in *; simpl; congruence].
    unfold opened at 1. rewrite dispatch_link. intros Ho.
    apply handle_text_opened in Ho as [Hty Hd];
      [|unfold opened in *; by rewrite run_resolve_link].
    split; [lia|]. eauto 10.
  - intros Ho. exfalso. revert Ho. unfold deal_array_buffer.
    assert (Hsame : ∀ s', link s' = link s → opened s' ≠ true).
    { unfold opened in *. intros s' ->. congruence. }
    destruct (_ <? len binary); [by apply Hsame|].
    destruct (parse binary) as [[[fr h] p]|]; [|by apply Hsame].
    pose proof (process_binary_link fr h p e s) as Hl.
    destruct (process_binary_payload fr h p e s) as [[parsed|] s1]; simpl in *; [|by apply Hsame].
    apply Hsame. by rewrite dispatch_link, run_resolve_link.
  - unfold next_session. destruct (set_ingress_generation _ _) as [res t].
    unfold opened. by destruct (is_err res).
Qed.

Lemma expire_link now s : link (expire_chunks now s) = link s.
Proof.
  unfold expire_chunks. destruct (Chunks.expire _ _) as [expired a].
  assert (∀ s', link (foldl (λ s key, fail_pending key "Chunk assembly deadline expired" s) s' expired)
    = link s') as Hl; [|by rewrite Hl].
  induction expired as [|key l IH]; intros s'; [done|]. simpl. by rewrite IH, fail_pending_link.
Qed.

Lemma publish_begin_link topic data ty timeout exp now s :
  link (publish_begin topic data ty timeout exp now s).2 = link s.
Proof.
  unfold publish_begin. destruct (validated_timeout _ now); [|done].
  destruct (negb _); [done|]. destruct (pending_callbacks _ !! _); [done|].
  destruct (MAX_PENDING_REQUESTS <=? _); [done|]. set (s0 := with_requests _ s).
  pose proof (send_frame topic data (default types.msg ty) now s0) as (_ & _ & Hl).
  destruct (send_message_locked _ _ _ _ s0) as [[[]|error] s2]; [done|].
  simpl in *. by rewrite guard_drop_link.
Qed.

Lemma router_step_opened incoming e s :
  opened s = false → opened (router_step incoming e s) = true →
  ∃ message sess, validation_ok message sess ∧
    (incoming = Some message ∨ (take_transport_error (transport s)).1 = Some message).
Proof.
  unfold router_step. intros Hc Ho. destruct (take_transport_error (transport s)) as [fault t] eqn:Hf.
  set (s1 := with_transport t s) in *.
  destruct incoming as [m|]; [destruct (opened (expire_chunks (instant e)
    match fault with Some f => process_ingress f e s1 | None => s1 end)) eqn:Hx|].
  - destruct fault as [f|]; unfold opened in Hx; rewrite expire_link in Hx.
    + apply process_ingress_opened in Hx; [|done].
      exists f, (session_id s1). by split; [|right].
    + unfold opened in Hc. simpl in Hx. congruence.
  - apply process_ingress_opened in Ho; [|done].
    exists m. eexists. by split; [exact Ho|left].
  - destruct fault as [f|]; unfold opened in Ho; rewrite expire_link in Ho.
    + apply process_ingress_opened in Ho; [|done].
      exists f, (session_id s1). by split; [|right].
    + unfold opened in Hc. simpl in Ho. congruence.
Qed.

(** The channel opens only on a message of the current session whose type
    is the validation type and whose data is the robot's acknowledgement; no
    other message, call, thread or transport activity opens it. *)
Theorem opened_only_by_validation o s :
  opened s = false → opened (svc_step o s) = true →
  ∃ message sess, validation_ok message sess ∧
    ((∃ incoming e, o = ORouter incoming e ∧
        (incoming = Some message ∨ (take_transport_error (transport s)).1 = Some message)) ∨
     ∃ e, o = OIngress message e).
Proof.
  intros Hc. assert (Hsame : ∀ s', link s' = link s → opened s' ≠ true).
  { unfold opened in *. intros s' ->. congruence. }
  destruct o as [topic data ty timeout exp now|topic options timeout now|call|topic data ty now
    |topic now|topic now|incoming e|epoch id owner e| | | |d|t|o|q|now|m e]; simpl; intros Ho.
  7: { destruct (router_step_opened incoming e s Hc Ho) as (m & sess & Hm & Hor).
    exists m, sess. split; [done|]. left. eauto. }
  16: { apply process_ingress_opened in Ho; [|done]. exists m. eexists. split; [exact Ho|]. right. eauto. }
  all: exfalso; revert Ho.
  - apply Hsame, publish_begin_link.
  - apply Hsame. unfold publish_request_new, generated_identity_id.
    destruct (get options "api_id" ≫= as_i64); [|done].
    destruct (get options "id" ≫= as_i64); cbv beta iota zeta; by rewrite publish_begin_link.
  - apply Hsame, guard_drop_link.
  - apply Hsame, send_frame.
  - apply Hsame. unfold subscribe. pose proof (send_frame topic None types.subscribe now s) as (_ & _ & Hl).
    by destruct (send_message_locked _ _ _ _ s) as [[[]|error] s1].
  - apply Hsame. unfold unsubscribe.
    pose proof (send_frame topic None types.unsubscribe now s) as (_ & _ & Hl).
    by destruct (send_message_locked _ _ _ _ s) as [[[]|error] s1].
  - unfold heartbeat_step. destruct (negb _); [by apply Hsame|]. destruct (_ && _); [done|].
    destruct (seqb _ _); [apply Hsame, send_frame|by apply Hsame].
  - unfold start_new_session, next_session. by destruct (set_ingress_generation _ _).
  - unfold stop_background_tasks, start_new_session, next_session.
    by destruct (set_ingress_generation _ _).
  - apply Hsame. unfold prepare_ingress. by destruct (set_ingress_generation _ _).
  - apply Hsame. unfold set_decoder. destruct (seqb d "libvoxel"); [done|]. by destruct (negb _).
  - by apply Hsame.
  - apply Hsame. by destruct o.
  - by apply Hsame.
  - apply Hsame, expire_link.
Qed.

(** ** Dispatch and throttling *)

(** A message reaches the callbacks only when its topic is subscribed and
    its throttle admits it, as one attempt to enqueue it for the current
    session; otherwise the event channel is untouched. *)
Theorem dispatch_only_subscribed message e s :
  let topic := default "" (get message "topic" ≫= as_str) in
  let ch := callback_events (routing s) in
  callback_events (routing (dispatch_subscription message e s)) =
  if bool_decide (topic ≠ "" ∧ (should_process topic (secs_dispatch e) s).1 = true ∧
                  topic ∈ subscriptions (routing s))
  then (try_send {| s_generation := session_id s |} (session_id s) (TopicCallback topic message) ch).2
  else ch.
Proof.
  intros topic ch. unfold dispatch_subscription. fold topic.
  destruct (seqb topic "") eqn:Ht.
  { apply String.eqb_eq in Ht. rewrite bool_decide_false by naive_solver. done. }
  assert (topic ≠ "") as Hne by (intros ->; done).
  pose proof (should_process_frame topic (secs_dispatch e) s) as ((_ & Hsess) & _ & _ & Hev & Hsub).
  destruct (should_process topic (secs_dispatch e) s) as [[] s1]; simpl in *.
  2:{ rewrite bool_decide_false by naive_solver. by rewrite Hev. }
  rewrite Hsub, Hev. destruct (bool_decide (topic ∈ subscriptions (routing s))) eqn:Hb; simpl.
  - apply bool_decide_eq_true in Hb. rewrite bool_decide_true by done.
    unfold session_id in *. rewrite Hev. fold ch.
    destruct (try_send _ _ _ ch) as [res ch']. by destruct (is_err res).
  - apply bool_decide_eq_false in Hb. rewrite bool_decide_false by naive_solver. by rewrite Hev.
Qed.

(** A run of throttle decisions on one topic, at the given clock readings, and
    the readings that were admitted. *)
Fixpoint throttle_run (topic : string) (times : list f64) s : list f64 :=
  match times with
  | [] => []
  | now :: times =>
      let '(ok, s) := should_process topic now s in
      if ok then now :: throttle_run topic times s else throttle_run topic times s
  end.
Fixpoint spaced_by (limit : f64) (prev : f64) (l : list f64) : Prop :=
  match l with
  | [] => True
  | now :: l => F64.ge (F64.sub now prev) limit = true ∧ spaced_by limit now l
  end.

(** On a throttled topic any two successive admissions are at least the
    limit apart (the first one from the time of the last admission before),
    whatever the clock readings; other topics are never throttled. *)
Theorem throttle_spacing topic times s :
  match throttle_limits !! topic with
  | Some limit =>
      spaced_by limit (default (S754_zero false) (last_process_time (routing s) !! topic))
        (throttle_run topic times s)
  | None => throttle_run topic times s = times
  end.
Proof.
  destruct (throttle_limits !! topic) as [limit|] eqn:Hl.
  - revert s. induction times as [|now times IH]; intros s; [done|].
    cbn [throttle_run]. unfold should_process. rewrite Hl.
    destruct (F64.ge _ limit) eqn:Hge; [|apply IH]. split; [done|].
    set (s1 := with_routing _ s). specialize (IH s1).
    unfold s1 in IH at 1. simpl in IH. by rewrite lookup_insert_eq in IH.
  - revert s. induction times as [|now times IH]; intros s; [done|].
    cbn [throttle_run]. unfold should_process. rewrite Hl. by rewrite IH.
Qed.

Lemma get_inject_topic json data k :
  k ≠ "data" → get (inject_binary_data json data) k = get json k ∨ is_object json = false.
Proof.
  intros Hne. unfold inject_binary_data. destruct (is_object json) eqn:Ho; [left|by right].
  assert (∃ v, is_object v = true ∧ get v k = get json k ∧
    v = match get json "data" ≫= as_object with
        | Some _ => json | None => set_key json "data" (JObject []) end) as (v & Hv & Hk & <-).
  { eexists. split_and!; [| |done].
    - destruct (get json "data" ≫= as_object); [done|]. by apply is_object_set_key.
    - destruct (get json "data" ≫= as_object); [done|]. by apply get_set_key_ne. }
  destruct (get v "data") as [[]|]; try done. by rewrite get_set_key_ne.
Qed.

Lemma run_resolve_routing message e s : routing (run_resolve message e s) = routing s.
Proof.
  assert (Hf : ∀ key err s, routing (fail_pending key err s) = routing s).
  { intros key err s'. unfold fail_pending. by destruct (_ !! key). }
  assert (Hr : ∀ key m s, routing (resolve_pending_response key m s) = routing s).
  { intros key m s'. unfold resolve_pending_response. by destruct (_ !! key). }
  unfold run_resolve, handle_chunked_response, insert_chunk. destruct (get message "type"); [|done].
  destruct (chunk_location message) as [[[meta payload] path]|]; [|apply Hr].
  match goal with |- context [match ?m with Ok _ => _ | Err _ => _ end] =>
    destruct m as [[[index tot] b]|error] end; simpl.
  - destruct (Chunks.insert _ _ _ _ _ _ _) as [[[b'|]|error] a]; simpl; [|done|].
    + destruct (_ <? len b'); simpl; [by rewrite Hf|by rewrite Hr].
    + by rewrite Hf.
  - by rewrite Hf.
Qed.

(** A binary message on a throttled topic passes the throttle twice, once
    when it is decoded and once when it is dispatched: it never reaches the
    callbacks unless the two clock readings are a whole limit apart. *)
Theorem binary_throttled_twice message e s binary h p topic limit :
  im_generation message = session_id s → im_payload message = Binary binary →
  len binary ≤ MAX_BINARY_BYTES → parse binary = Ok (Normal, h, p) →
  is_object h = true → get h "topic" = Some (JString topic) → topic ≠ "" →
  get h "data" ≫= from_json = None →
  throttle_limits !! topic = Some limit →
  F64.ge (F64.sub (secs_dispatch e) (secs_binary e)) limit = false →
  callback_events (routing (process_ingress message e s)) = callback_events (routing s).
Proof.
  intros Hg Hp Hlen Hparse Hobj Htop Hne Hd Hlim Hge.
  unfold process_ingress. rewrite Hg, Z.eqb_refl. simpl. rewrite Hp.
  unfold deal_array_buffer. replace (_ <? len binary) with false by lia. rewrite Hparse.
  assert (Hf : ∀ key err s, routing (fail_pending key err s) = routing s).
  { intros key err s'. unfold fail_pending. by destruct (_ !! key). }
  unfold process_binary_payload, reject_binary_response. rewrite Hd.
  destruct (lidar_intent Normal h); [simpl; by rewrite Hf|].
  destruct (_ <? len p); [simpl; by rewrite Hf|].
  assert (topic_or_type h = topic) as -> by (unfold topic_or_type; by rewrite Htop).
  destruct (should_process topic (secs_binary e) s) as [[] s1] eqn:Hsp; simpl;
    pose proof (should_process_frame topic (secs_binary e) s) as (_ & _ & _ & Hev & _);
    rewrite Hsp in Hev; simpl in Hev; [|done].
  unfold dispatch_subscription.
  destruct (get_inject_topic h p "topic") as [->|]; [done| |congruence].
  rewrite Htop. simpl. destruct (seqb topic "") eqn:Hq; [by apply String.eqb_eq in Hq|].
  unfold should_process at 1. rewrite Hlim, run_resolve_routing.
  unfold should_process in Hsp. rewrite Hlim in Hsp.
  destruct (F64.ge _ limit) in Hsp; [|done]. injection Hsp as <-. simpl.
  rewrite lookup_insert_eq. simpl. rewrite Hge. simpl. by rewrite run_resolve_routing.
Qed.

(** ** Identities *)
Fixpoint generate_ids (n : nat) s : list Z :=
  match n with
  | O => []
  | S n => let '(id, s) := generated_identity_id s in id :: generate_ids n s
  end.

Lemma generate_ids_lookup n s i id :
  0 ≤ request_sequence s → request_sequence s + Z.of_nat n ≤ 2 ^ 64 →
  generate_ids n s !! i = Some id → id = (request_sequence s + Z.of_nat i) mod i32_max + 1.
Proof.
  revert s i. induction n as [|n IH]; intros s i Hs0 Hmax; [done|]. simpl.
  destruct i as [|i]; simpl; [intros [= <-]; by rewrite Z.add_0_r|].
  intros Hi. destruct n as [|n]; [done|].
  assert (wrapping_add 64 (request_sequence s) 1 = request_sequence s + 1) as Hw.
  { unfold wrapping_add. apply Z.mod_small. lia. }
  assert (request_sequence (with_sequence (wrapping_add 64 (request_sequence s) 1) s) =
    request_sequence s + 1) as Hq by exact Hw.
  apply IH in Hi; rewrite ?Hq in *; [|lia|lia].
  rewrite Hi. f_equal. f_equal. lia.
Qed.

(** Generated identities are positive [i32] values, and any 2^31 - 1
    consecutive ones are distinct (as long as the 64-bit sequence does not wrap). *)
Theorem generated_ids_unique n s :
  0 ≤ request_sequence s → request_sequence s + Z.of_nat n ≤ 2 ^ 64 → Z.of_nat n ≤ i32_max →
  NoDup (generate_ids n s) ∧ Forall (λ id, 1 ≤ id ≤ i32_max) (generate_ids n s).
Proof.
  intros Hs0 Hmax Hn. unfold i32_max in *. split.
  - apply NoDup_alt. intros i j id Hi Hj.
    assert (i < n ∧ j < n)%nat as [Hin Hjn].
    { assert (length (generate_ids n s) = n) as Hl.
      { clear. revert s. induction n as [|n IH]; intros s; [done|]. simpl. by rewrite IH. }
      apply lookup_lt_Some in Hi, Hj. lia. }
    apply generate_ids_lookup in Hi; [|done|done]. apply generate_ids_lookup in Hj; [|done|done].
    rewrite Hi in Hj. unfold i32_max in Hj. revert Hj. Z.to_euclidean_division_equations. nia.
  - apply Forall_lookup. intros i id Hi. apply generate_ids_lookup in Hi; [|done|done]. subst id.
    unfold i32_max. pose proof (Z.mod_pos_bound (request_sequence s + Z.of_nat i) 2147483647). lia.
Qed.
End service.

(** ** Instances: a recording transport, a four-document reader *)
Record toy_port := { tp_open : bool; tp_generation : Z; tp_sent : list string }.
#[local] Instance toy_data_channel : DataChannelPort toy_port := {|
  send_text m t :=
    if tp_open t
    then (Ok (), {| tp_open := true; tp_generation := tp_generation t; tp_sent := tp_sent t ++ [m] |})
    else (Err "closed", t);
  send_binary _ t := (Ok (), t);
  set_ingress_generation g t :=
    (Ok (), {| tp_open := tp_open t && (tp_generation t =? g); tp_generation := g;
               tp_sent := tp_sent t |});
  take_transport_error t := (None, t);
  ready_state t := if tp_open t then "open" else "closed" |}.
#[local] Program Instance toy_port_spec : DataChannelPortSpec toy_port := {|
  port_generation := tp_generation |}.
Next Obligation. intros m t. simpl. by destruct (tp_open t). Qed.
Next Obligation. intros m t. simpl. by destruct (tp_open t) eqn:E; simpl; rewrite ?E. Qed.
Next Obligation.
  intros g t t' [= <-]. simpl. split_and!; [done..|]. intros Hne.
  replace (tp_generation t =? g) with false by lia. by rewrite andb_false_r.
Qed.
#[local] Instance toy_json : SerdeJson := {|
  json_to_string _ := Ok "{}"; value_display _ := "";
  f64_to_string _ := "0"; f64_to_fixed1 _ := "0.0" |}.
#[local] Instance toy_reader : JsonReader := {|
  document l := match l with
                | [111] => DMap [("type", DStr "validation"); ("data", DStr "Validation Ok.")]
                | [118] => DMap [("topic", DStr "vid")]
                | [97] => DMap [("type", DStr "res"); ("topic", DStr "rt/x/response");
                    ("data", DMap [("header", DMap [("identity", DMap [("id", DI64 5); ("api_id", DI64 1034)])])])]
                | _ => DMap [("type", DStr "msg"); ("topic", DStr "rt/x")]
                end;
  document_end _ := true |}.
#[local] Instance toy_cipher : Crypto := {|
  md5 _ := replicate 16 0;
  hex_encode := string_of_bytes; hex_decode s := Ok (as_bytes s);
  b64_encode := string_of_bytes; b64_decode s := Ok (as_bytes s);
  aes256_encrypt_block _ l := l; aes256_decrypt_block _ l := l;
  aes128_gcm_decrypt _ _ l := Ok l; uuid_simple := "";
  RsaPublicKey := Z; rsa_size := id;
  from_public_key_der l := Ok (len l); from_pkcs1_der l := Ok (len l);
  rsa_encrypt_block _ _ l := Ok l |}.
#[local] Program Instance toy_layout : Layout := {|
  size_of_Value := 32; size_of_CallbackEvent := 96;
  string_capacity := slen; values_capacity := len; points_capacity := len;
  bytes_capacity := len; samples_capacity := len |}.
Solve All Obligations with intros; simpl; lia.

Definition toy_env : env := {|
  instant := 5; unix_secs := 1000; secs_binary := F64.of_Z 1000; secs_dispatch := F64.of_Z 1000;
  fresh_uuid := "u"; local_time := "t" |}.
Definition toy_start : Service vec_chan toy_port :=
  new_service {| tp_open := true; tp_generation := 7; tp_sent := [] |}
    (set_generation 0 demo_channel) (bounded 4) 7 1.
Lemma toy_start_inv : req_inv (abs toy_start).
Proof. apply new_service_inv. Qed.
Definition toy_publish : PortResult PublishCall * Service vec_chan toy_port :=
  publish_begin "rt/x" None None None any_response 0 toy_start.
Definition toy_call : PublishCall :=
  {| call_key := "msg $ rt/x"; call_token := 0; call_deadline := 10000000000;
     call_topic := "rt/x"; call_timeout := F64.of_Z 10 |}.
Definition toy_callback : PendingCallback :=
  {| token := 0; expectation := any_response; pc_session_id := 7 |}.
Definition toy_text (text : string) : IngressMessage := Json.for_generation (Text text) 7.
Definition toy_message : value := obj [("type", JString "msg"); ("topic", JString "rt/x")].

Lemma inflight_bounded_current_witness :
  pc_session_id toy_callback =
  session_id (svc_run [OPublish "rt/x" None None None any_response 0] toy_start).
Proof.
  destruct (inflight_bounded_current (C:=vec_chan)
    {| tp_open := true; tp_generation := 7; tp_sent := [] |}
    (set_generation 0 demo_channel) (bounded 4) 7 1
    [OPublish "rt/x" None None None any_response 0] "msg $ rt/x" toy_callback) as [_ Hk].
  destruct Hk as [Hs _]; [vm_compute; reflexivity|exact Hs].
Defined.

Definition toy_options : value := obj [("api_id", jint 1034); ("id", jint 5)].
Definition toy_request : PortResult PublishCall * Service vec_chan toy_port :=
  publish_request_new "rt/x/request" toy_options None 0 toy_start.
Definition toy_request_call : PublishCall :=
  {| call_key := "5"; call_token := 0; call_deadline := 10000000000;
     call_topic := "rt/x/request"; call_timeout := F64.of_Z 10 |}.
Definition toy_response : value :=
  obj [("type", JString "res"); ("topic", JString "rt/x/response");
       ("data", obj [("header", obj [("identity", obj [("id", jint 5); ("api_id", jint 1034)])])])].
Lemma response_validated_witness :
  answers_topic "rt/x/request" "rt/x/response" ∧ ∃ api, get toy_options "api_id" ≫= as_i64 = Some api ∧
    get_path toy_response ["data"; "header"; "identity"; "api_id"] ≫= as_i64 = Some api.
Proof.
  apply (response_validated "rt/x/request" toy_options None 0 toy_start toy_request_call toy_request.2
    [ORouter (Some (toy_text "a")) toy_env] toy_response toy_start_inv);
    vm_compute; reflexivity.
Defined.

Lemma answered_once_witness :
  publish_poll toy_call 0
    (svc_run [ONewSession] (svc_run [ORouter (Some (toy_text "m")) toy_env] toy_publish.2)) =
  Some (Ok toy_message).
Proof.
  apply (answered_once [ONewSession]
    (svc_run [ORouter (Some (toy_text "m")) toy_env] toy_publish.2)
    toy_call 0 (Ok toy_message)); [|vm_compute; reflexivity].
  eapply req_steps_inv; [apply svc_run_refines|].
  eapply req_steps_inv; [apply publish_begin_steps|apply toy_start_inv].
Defined.

Lemma publish_end_only_own_witness :
  if bool_decide (token toy_callback = call_token toy_call ∧ "msg $ rt/x" = call_key toy_call)
  then pending_callbacks (requests (publish_end toy_call toy_publish.2)) !! "msg $ rt/x" = None ∧
       chunk_data_storage (requests (publish_end toy_call toy_publish.2)) =
         delete "msg $ rt/x" (chunk_data_storage (requests toy_publish.2))
  else pending_callbacks (requests (publish_end toy_call toy_publish.2)) !! "msg $ rt/x" =
         Some toy_callback.
Proof.
  apply (publish_end_only_own toy_call toy_publish.2 "msg $ rt/x" toy_callback).
  vm_compute. reflexivity.
Defined.

Lemma text_response_correlated_witness :
  replies (requests (process_ingress (toy_text "m") toy_env toy_publish.2)) !! 0 =
  Some (Ok toy_message).
Proof.
  rewrite (text_response_correlated (toy_text "m") toy_env toy_publish.2 "m" toy_message);
    vm_compute; try reflexivity. discriminate.
Defined.

Lemma new_session_resets_witness :
  replies (requests (start_new_session toy_publish.2)) !! 0 =
    Some (Err "DataChannel session reset") ∧
  send_message "rt/x" None "msg" 0 (start_new_session toy_publish.2) =
    (Err "Data channel is not open", start_new_session toy_publish.2).
Proof.
  destruct (new_session_resets toy_publish.2 "msg $ rt/x" toy_callback (toy_text "m") toy_env)
    as [[Hr _] (_ & _ & Hm & _)];
    [vm_compute; split; [discriminate|reflexivity]|vm_compute; reflexivity..|].
  split; [exact Hr|apply Hm].
Defined.

Lemma opened_only_by_validation_witness :
  opened (svc_step (ORouter (Some (toy_text "o")) toy_env) toy_start) = true ∧
  ∃ message sess, validation_ok message sess.
Proof.
  split; [vm_compute; reflexivity|].
  destruct (opened_only_by_validation (ORouter (Some (toy_text "o")) toy_env) toy_start)
    as (message & sess & Hv & _); [vm_compute; reflexivity..|]. eauto.
Defined.

Lemma binary_throttled_twice_witness :
  callback_events (routing (process_ingress (Json.for_generation (Binary [1; 0; 9; 9; 118; 5]) 7) toy_env
    toy_start)) = callback_events (routing toy_start).
Proof.
  apply (binary_throttled_twice (Json.for_generation (Binary [1; 0; 9; 9; 118; 5]) 7) toy_env toy_start
    [1; 0; 9; 9; 118; 5] (obj [("topic", JString "vid")]) [5] "vid" throttle_interval);
    vm_compute; try reflexivity; discriminate.
Defined.

Lemma generated_ids_unique_witness : NoDup (generate_ids 3 toy_start).
Proof. apply (generated_ids_unique 3 toy_start); vm_compute; discriminate. Defined.
