(* ===== verification/Engine.v ===== *)
(** * RTC engine (src/src/infrastructure/rtc_engine/)

    state.rs: the ready state of a peer, a cell each peer captures for its
    lifetime and that [ReadyStateHolder::reset] replaces; handlers.rs: what the
    data channel and peer connection callbacks do; engine.rs: the command queue
    and its sending task, transport faults, generations, preparing and closing;
    sdp.rs and the codec filter of setup.rs.  The webrtc stack itself is
    external: its callbacks and results are the arguments of the operations.

    Cells and peers are referred to by number, so that the aliasing of
    [Arc<AtomicU8>] is explicit.  The theorems: a peer that has been replaced
    can no longer affect the engine, commands reach the wire in the order they
    were accepted, and the engine implements [DataChannelPort]. *)
From S2P Require Import Prelude Floats Json Ingress Channel Utf8 Ports.
#[local] Open Scope Z_scope.

Definition COMMAND_QUEUE_CAPACITY : Z := 128.
Definition MAX_COMMAND_BYTES : Z := 1024 * 1024.

(** ** state.rs *)
Inductive RtcReadyState := Closed | Connecting | Open | Disconnected_ | Failed.
#[export] Instance RtcReadyState_eq_dec : EqDecision RtcReadyState.
Proof. solve_decision. Defined.
(** [state as u8] and [from_u8]. *)
Definition as_u8 (s : RtcReadyState) : Z :=
  match s with Closed => 0 | Connecting => 1 | Open => 2 | Disconnected_ => 3 | Failed => 4 end.
Definition from_u8 (v : Z) : RtcReadyState :=
  match v with 1 => Connecting | 2 => Open | 3 => Disconnected_ | 4 => Failed | _ => Closed end.
Definition state_str (s : RtcReadyState) : string :=
  match s with
  | Closed => "closed" | Connecting => "connecting" | Open => "open"
  | Disconnected_ => "disconnected" | Failed => "failed"
  end.

Inductive RtcStateEvent :=
  | ChannelOpened | ChannelClosed | PeerConnected | PeerDisconnected | PeerFailed | PeerClosed.

(** The [fetch_update] of [apply_event], on the value of one cell. *)
Definition apply_event (v : Z) (event : RtcStateEvent) : Z :=
  let current := from_u8 v in
  match current with
  | Closed | Failed => v
  | _ =>
      as_u8 match event with
            | ChannelClosed | PeerClosed => Closed
            | PeerFailed => Failed
            | ChannelOpened => match current with Connecting => Open | _ => current end
            | PeerDisconnected => match current with Open => Disconnected_ | _ => current end
            | PeerConnected => match current with Disconnected_ => Open | _ => current end
            end
  end.

(** ** The engine *)
Inductive EngineCommand := CText (s : string) | CBinary (b : bytes).

(** One prepared peer: what its handlers and its sending task captured, its
    command queue, the command its task is sending, and the commands it has
    handed to the data channel. *)
Record Peer (C : Type → Type) := {
  p_generation : Z;
  p_cell : nat;
  p_commands : C EngineCommand;
  p_sending : bool;
  p_inflight : option EngineCommand;
  p_wire : list EngineCommand;
}.
Arguments p_generation {C}. Arguments p_cell {C}. Arguments p_commands {C}.
Arguments p_sending {C}. Arguments p_inflight {C}. Arguments p_wire {C}.

Record RtcEngine (C : Type → Type) := {
  incoming : C IngressMessage;
  ingress_generation : Z;
  cells : list Z;                  (* the AtomicU8 cells *)
  holder : nat;                    (* the one ReadyStateHolder points to *)
  peers : list (Peer C);
  command_tx : option nat;         (* the peer whose queue commands enter *)
  command_task : option nat;       (* the peer whose task is running *)
  transport_error : option IngressMessage;
}.
Arguments incoming {C}. Arguments ingress_generation {C}. Arguments cells {C}.
Arguments holder {C}. Arguments peers {C}. Arguments command_tx {C}.
Arguments command_task {C}. Arguments transport_error {C}.

Definition message_size_allowed (is_string : bool) (size : Z) : bool :=
  size <=? (if is_string then MAX_TEXT_BYTES else MAX_BINARY_BYTES).
Definition decode_text_message (data : bytes) : option string :=
  if MAX_TEXT_BYTES <? len data then None else from_utf8 data.

(** What [on_message] does with a message; the last four are logged. *)
Inductive MessageOutcome := Ignored | Enqueued | Oversized | InvalidUtf8 | QueueFull | QueueClosed.

Section engine.
Context {C : Type → Type} `{Chan C}.
Implicit Types (e : RtcEngine C) (p : Peer C).

Definition with_cells (l : list Z) e : RtcEngine C :=
  {| incoming := incoming e; ingress_generation := ingress_generation e; cells := l;
     holder := holder e; peers := peers e; command_tx := command_tx e;
     command_task := command_task e; transport_error := transport_error e |}.
Definition with_incoming (q : C IngressMessage) e : RtcEngine C :=
  {| incoming := q; ingress_generation := ingress_generation e; cells := cells e;
     holder := holder e; peers := peers e; command_tx := command_tx e;
     command_task := command_task e; transport_error := transport_error e |}.
Definition with_peers (l : list (Peer C)) e : RtcEngine C :=
  {| incoming := incoming e; ingress_generation := ingress_generation e; cells := cells e;
     holder := holder e; peers := l; command_tx := command_tx e;
     command_task := command_task e; transport_error := transport_error e |}.
Definition with_fault (f : option IngressMessage) e : RtcEngine C :=
  {| incoming := incoming e; ingress_generation := ingress_generation e; cells := cells e;
     holder := holder e; peers := peers e; command_tx := command_tx e;
     command_task := command_task e; transport_error := f |}.
Definition with_generation (g : Z) e : RtcEngine C :=
  {| incoming := incoming e; ingress_generation := g; cells := cells e;
     holder := holder e; peers := peers e; command_tx := command_tx e;
     command_task := command_task e; transport_error := transport_error e |}.
Definition with_command (tx task : option nat) e : RtcEngine C :=
  {| incoming := incoming e; ingress_generation := ingress_generation e; cells := cells e;
     holder := holder e; peers := peers e; command_tx := tx; command_task := task;
     transport_error := transport_error e |}.

Definition p_with_commands (q : C EngineCommand) p : Peer C :=
  {| p_generation := p_generation p; p_cell := p_cell p; p_commands := q;
     p_sending := p_sending p; p_inflight := p_inflight p; p_wire := p_wire p |}.
Definition p_handed (c : EngineCommand) p : Peer C :=
  {| p_generation := p_generation p; p_cell := p_cell p; p_commands := p_commands p;
     p_sending := p_sending p; p_inflight := Some c; p_wire := p_wire p ++ [c] |}.
Definition p_sent p : Peer C :=
  {| p_generation := p_generation p; p_cell := p_cell p; p_commands := p_commands p;
     p_sending := p_sending p; p_inflight := None; p_wire := p_wire p |}.
(** The sending task has ended: its receiver is gone. *)
Definition p_stopped p : Peer C :=
  {| p_generation := p_generation p; p_cell := p_cell p; p_commands := close_rx (p_commands p);
     p_sending := false; p_inflight := None; p_wire := p_wire p |}.

(** *** ReadyStateHolder *)
Definition cell_value (i : nat) e : RtcReadyState := from_u8 (default 0 (cells e !! i)).
Definition current_ready_state e : RtcReadyState := cell_value (holder e) e.
Definition store_cell (i : nat) (s : RtcReadyState) e : RtcEngine C :=
  with_cells (<[i := as_u8 s]> (cells e)) e.
Definition set_ready_state (s : RtcReadyState) e : RtcEngine C := store_cell (holder e) s e.
(** [reset] points the holder to a fresh cell; old captures keep theirs. *)
Definition reset_ready_state e : RtcEngine C :=
  {| incoming := incoming e; ingress_generation := ingress_generation e;
     cells := cells e ++ [as_u8 Closed]; holder := length (cells e);
     peers := peers e; command_tx := command_tx e;
     command_task := command_task e; transport_error := transport_error e |}.

(** *** Construction and lifetime *)
Definition new_engine (q : C IngressMessage) : RtcEngine C :=
  {| incoming := q; ingress_generation := 0; cells := [as_u8 Closed]; holder := 0; peers := [];
     command_tx := None; command_task := None; transport_error := None |}.

(** [close_inner]: closed, the command sender dropped, the sending task aborted,
    which does nothing to one that has ended. *)
Definition p_aborted p : Peer C := if p_sending p then p_stopped p else p.
Definition close_inner e : RtcEngine C :=
  let e := set_ready_state Closed e in
  let l := match command_tx e with
           | Some i => alter (λ p, p_with_commands (close_tx (p_commands p)) p) i (peers e)
           | None => peers e
           end in
  let l := match command_task e with Some i => alter p_aborted i l | None => l end in
  set_ready_state Closed (with_command None None (with_peers l e)).

(** [prepare_offer]: [created], [setup] and [offer] are the outcomes of the webrtc
    calls before the peer is registered, before the command task starts and after.
    A failing call ends in a close. *)
Definition unstarted_peer e : Peer C :=
  {| p_generation := ingress_generation e; p_cell := holder e;
     p_commands := bounded COMMAND_QUEUE_CAPACITY; p_sending := false; p_inflight := None;
     p_wire := [] |}.
Definition new_peer e : Peer C :=
  {| p_generation := ingress_generation e; p_cell := holder e;
     p_commands := bounded COMMAND_QUEUE_CAPACITY; p_sending := true; p_inflight := None;
     p_wire := [] |}.
Definition prepare_offer (created setup : PortResult ()) (offer : PortResult string) e :
    PortResult string * RtcEngine C :=
  let e := set_ready_state Connecting (reset_ready_state (close_inner e)) in
  let i := length (peers e) in
  match created with
  | Err error => (Err error, close_inner e)
  | Ok _ =>
      match setup with
      | Err error => (Err error, close_inner (with_peers (peers e ++ [unstarted_peer e]) e))
      | Ok _ =>
          let e := with_command (Some i) (Some i) (with_peers (peers e ++ [new_peer e]) e) in
          match offer with
          | Err error => (Err error, close_inner e)
          | Ok sdp => (Ok sdp, e)
          end
      end
  end.

(** *** Sending *)
Definition try_command (size : Z) (c : EngineCommand) e : PortResult () * RtcEngine C :=
  if MAX_COMMAND_BYTES <? size then (Err "DataChannel command exceeds byte limit", e) else
  if negb (bool_decide (current_ready_state e = Open)) then (Err "DataChannel is not open", e) else
  match command_tx e with
  | None => (Err "DataChannel command sender is not initialized", e)
  | Some i =>
      match peers e !! i with
      | None => (Err "DataChannel command sender is not initialized", e)
      | Some p =>
          match chan_send (p_commands p) c with
          | Ok q => (Ok (), with_peers (<[i := p_with_commands q p]> (peers e)) e)
          | Err (Full _) => (Err "no available capacity", e)
          | Err (Disconnected _) => (Err "channel closed", e)
          end
      end
  end.
Definition send_text (message : string) e : PortResult () * RtcEngine C :=
  try_command (slen message) (CText message) e.
Definition send_binary (b : bytes) e : PortResult () * RtcEngine C :=
  try_command (len b) (CBinary b) e.

(** [record_transport_fault], by a task of generation [g] with cell [i]. *)
Definition record_transport_fault (g : Z) (i : nat) e : RtcEngine C :=
  if negb (g =? ingress_generation e) then e else
  let e := store_cell i Closed e in
  let message := for_generation (TransportFault "DataChannel send failed") g in
  let e := with_fault (Some message) e in
  match chan_send (incoming e) message with
  | Ok q => with_incoming q e
  | Err _ => e
  end.

(** [send_commands] of peer [i], up to its await on the data channel. *)
Definition send_begin (i : nat) e : RtcEngine C :=
  match peers e !! i with
  | None => e
  | Some p =>
      if negb (p_sending p) then e else
      match p_inflight p with
      | Some _ => e
      | None =>
          match chan_recv (p_commands p) with
          | Err Empty => e
          | Err RecvDisconnected => with_peers (<[i := p_stopped p]> (peers e)) e
          | Ok (c, q) =>
              let p := p_with_commands q p in
              if negb (p_generation p =? ingress_generation e)
              then with_peers (<[i := p_stopped p]> (peers e)) e else
              if negb (bool_decide (cell_value (p_cell p) e = Open))
              then record_transport_fault (p_generation p) (p_cell p)
                     (with_peers (<[i := p_stopped p]> (peers e)) e)
              else with_peers (<[i := p_handed c p]> (peers e)) e
          end
      end
  end.
(** The await returns [outcome]. *)
Definition send_end (i : nat) (outcome : PortResult ()) e : RtcEngine C :=
  match peers e !! i with
  | None => e
  | Some p =>
      if negb (p_sending p) then e else
      match p_inflight p with
      | None => e
      | Some _ =>
          match outcome with
          | Ok _ => with_peers (<[i := p_sent p]> (peers e)) e
          | Err _ => record_transport_fault (p_generation p) (p_cell p)
                       (with_peers (<[i := p_stopped p]> (peers e)) e)
          end
      end
  end.

(** *** handlers.rs: the callbacks of peer [i] *)
Definition channel_event (i : nat) (event : RtcStateEvent) e : RtcEngine C :=
  match peers e !! i with
  | None => e
  | Some p =>
      if negb (p_generation p =? ingress_generation e) then e
      else with_cells (alter (λ v, apply_event v event) (p_cell p) (cells e)) e
  end.
Definition on_open (i : nat) := channel_event i ChannelOpened.
Definition on_close (i : nat) := channel_event i ChannelClosed.

Inductive RTCPeerConnectionState :=
  | PcUnspecified | PcNew | PcConnecting | PcConnected | PcDisconnected | PcFailed | PcClosed.
Definition on_peer_connection_state_change (i : nat) (state : RTCPeerConnectionState) e : RtcEngine C :=
  match state with
  | PcConnected => channel_event i PeerConnected e
  | PcDisconnected => channel_event i PeerDisconnected e
  | PcFailed => channel_event i PeerFailed e
  | PcClosed => channel_event i PeerClosed e
  | _ => e
  end.

Definition enqueue_current (generation : Z) (payload : DcMessage) e : MessageOutcome * RtcEngine C :=
  if negb (generation =? ingress_generation e) then (Ignored, e) else
  match chan_send (incoming e) (for_generation payload generation) with
  | Ok q => (Enqueued, with_incoming q e)
  | Err (Full _) => (QueueFull, e)
  | Err (Disconnected _) => (QueueClosed, e)
  end.
Definition on_message (i : nat) (is_string : bool) (data : bytes) e : MessageOutcome * RtcEngine C :=
  match peers e !! i with
  | None => (Ignored, e)
  | Some p =>
      match cell_value (p_cell p) e with
      | Closed | Failed => (Ignored, e)
      | _ =>
          if negb (p_generation p =? ingress_generation e) then (Ignored, e) else
          if negb (message_size_allowed is_string (len data)) then (Oversized, e) else
          if is_string then
            match decode_text_message data with
            | Some text => enqueue_current (p_generation p) (Text text) e
            | None => (InvalidUtf8, e)
            end
          else enqueue_current (p_generation p) (Binary data) e
      end
  end.

(** *** Ingress *)
Definition route_text_message (payload : string) e : PortResult () * RtcEngine C :=
  match chan_send (incoming e) (for_generation (Text payload) (ingress_generation e)) with
  | Ok q => (Ok (), with_incoming q e)
  | Err (Full _) => (Err "sending on a full channel", e)
  | Err (Disconnected _) => (Err "sending on a disconnected channel", e)
  end.
Definition route_binary_message (payload : bytes) e : PortResult () * RtcEngine C :=
  match chan_send (incoming e) (for_generation (Binary payload) (ingress_generation e)) with
  | Ok q => (Ok (), with_incoming q e)
  | Err (Full _) =>
      (Err "Failed to send binary message to incoming queue: sending on a full channel", e)
  | Err (Disconnected _) =>
      (Err "Failed to send binary message to incoming queue: sending on a disconnected channel", e)
  end.

Definition set_ingress_generation (generation : Z) e : PortResult () * RtcEngine C :=
  let e := with_fault None e in
  let previous := ingress_generation e in
  let e := with_generation generation e in
  (Ok (), if negb (previous =? generation) then set_ready_state Closed e else e).
Definition take_transport_error e : option IngressMessage * RtcEngine C :=
  (transport_error e, with_fault None e).
Definition ready_state e : string := state_str (current_ready_state e).

(** *** apply_answer: its polls of the ready state. *)

(** The states of the transports of a peer, as the webrtc crate displays them. *)
Record TransportStates := { st_peer : string; st_ice : string; st_dtls : string; st_sctp : string }.
Definition channel_open_timeout_error (st : TransportStates) (channel : RtcReadyState) : string :=
  "Data channel did not open in time: peer=" +:+ st_peer st +:+ ", ice=" +:+ st_ice st +:+
  ", dtls=" +:+ st_dtls st +:+ ", sctp=" +:+ st_sctp st +:+ ", channel=" +:+ state_str channel.
(** One turn of the loop: the ready state, the elapsed time, and for the timeout the
    transports and the ready state again. *)
Record open_poll := {
  op_state : RtcReadyState;
  op_elapsed : Z;
  op_transports : TransportStates;
  op_channel : RtcReadyState;
}.
Fixpoint await_open (polls : list open_poll) : option (PortResult ()) :=
  match polls with
  | [] => None
  | v :: polls =>
      match op_state v with
      | Open => Some (Ok ())
      | Closed | Failed => Some (Err "Data channel closed or failed before opening")
      | Connecting | Disconnected_ =>
         if from_secs 30 <? op_elapsed v
         then Some (Err (channel_open_timeout_error (op_transports v) (op_channel v)))
         else await_open polls
      end
  end.
(** [timeout_diagnostic]: [peer_connection] is [None] when its lock is taken, [channel]
    when [try_get] fails. *)
Definition timeout_diagnostic (peer_connection : option (option TransportStates))
    (channel : option RtcReadyState) : option string :=
  match peer_connection with
  | Some (Some st) => channel_open_timeout_error st <$> channel
  | _ => None
  end.

(** Everything that happens to an engine: callers, its tasks and callbacks, and
    the router taking messages. *)
Inductive eng_op :=
  | EPrepare (created setup : PortResult ()) (offer : PortResult string)
  | EClose
  | ESendText (m : string)
  | ESendBinary (b : bytes)
  | ESendBegin (i : nat)
  | ESendEnd (i : nat) (outcome : PortResult ())
  | EChannel (i : nat) (event : RtcStateEvent)
  | EPeerState (i : nat) (state : RTCPeerConnectionState)
  | EMessage (i : nat) (is_string : bool) (data : bytes)
  | ESetGeneration (g : Z)
  | ETakeFault
  | ERouted (q : C IngressMessage).
Definition eng_step (o : eng_op) e : RtcEngine C :=
  match o with
  | EPrepare created setup offer => (prepare_offer created setup offer e).2
  | EClose => close_inner e
  | ESendText m => (send_text m e).2
  | ESendBinary b => (send_binary b e).2
  | ESendBegin i => send_begin i e
  | ESendEnd i outcome => send_end i outcome e
  | EChannel i event => channel_event i event e
  | EPeerState i state => on_peer_connection_state_change i state e
  | EMessage i is_string data => (on_message i is_string data e).2
  | ESetGeneration g => (set_ingress_generation g e).2
  | ETakeFault => (take_transport_error e).2
  | ERouted q => with_incoming q e
  end.
Definition eng_run (l : list eng_op) e : RtcEngine C := foldl (λ e o, eng_step o e) e l.
End engine.

(** ** sdp.rs *)

(** serde_json's plain parser and the session descriptions of webrtc. *)
Class SdpParser := {
  SessionDescription : Type;
  json_from_str : string → option value;
  description_from_value : value → option SessionDescription;
  description_answer : string → result string SessionDescription;
}.
Definition parse_answer_payload `{SdpParser} (answer_payload : string) :
    PortResult SessionDescription :=
  match json_from_str answer_payload with
  | Some v =>
      if decide (get v "sdp" ≫= as_str = Some "reject")
      then Err "Go2 is connected by another WebRTC client. Close your mobile APP and try again." else
      match description_from_value v with
      | Some answer => Ok answer
      | None =>
          match get v "sdp" ≫= as_str with
          | Some sdp => description_answer sdp
          | None => description_answer answer_payload
          end
      end
  | None => description_answer answer_payload
  end.

(** *** apply_answer *)
Definition apply_answer `{SdpParser} (peer_connected : bool) (answer_payload : string)
    (set_remote_description : SessionDescription → PortResult ()) (polls : list open_poll) :
    option (PortResult ()) :=
  if negb peer_connected then Some (Err "Peer connection is not initialized") else
  match parse_answer_payload answer_payload with
  | Err e => Some (Err e)
  | Ok answer =>
      match set_remote_description answer with
      | Err e => Some (Err e)
      | Ok _ => await_open polls
      end
  end.

(** ** setup.rs *)
Inductive RTPCodecType := CodecUnspecified | Audio | Video.
Record RTCRtpCodecCapability := { mime_type : string; clock_rate : Z; channels : Z }.
Definition supported_codec (kind : RTPCodecType) (codec : RTCRtpCodecCapability) : bool :=
  match kind with
  | Video => eq_ignore_ascii_case (mime_type codec) "video/h264" && (clock_rate codec =? 90000)
  | Audio => eq_ignore_ascii_case (mime_type codec) "audio/opus" && (clock_rate codec =? 48000)
             && (channels codec =? 2)
  | CodecUnspecified => false
  end.
(** The codecs of a transceiver that are kept; none is an error. *)
Definition keep_supported (kind : RTPCodecType) (l : list RTCRtpCodecCapability) :
    PortResult (list RTCRtpCodecCapability) :=
  match List.filter (supported_codec kind) l with
  | [] => Err "No implemented media codec available"
  | codecs => Ok codecs
  end.
