(* ===== verification/EngineProps.v ===== *)
(** * RTC engine: properties

    [eng_inv] relates the peers, the cells and the running task in every
    reachable state; on it rest the isolation of replaced peers and the order of
    commands.  The engine is an instance of [DataChannelPort]. *)
From S2P Require Import Prelude Floats Json Ingress Channel Utf8 Ports Engine.
#[local] Open Scope Z_scope.

Section props.
Context {C : Type → Type} `{Chan C}.
Implicit Types (e : RtcEngine C) (p : Peer C).

(** A peer whose cell is not the current one is closed and does not send. *)
Record eng_inv e : Prop := {
  ei_holder : (holder e < length (cells e))%nat;
  ei_cell : ∀ i p, peers e !! i = Some p → (p_cell p ≤ holder e)%nat;
  ei_old : ∀ i p, peers e !! i = Some p → p_cell p ≠ holder e →
    cells e !! p_cell p = Some 0 ∧ p_sending p = false;
  ei_task : ∀ i p, peers e !! i = Some p → p_sending p = true → command_task e = Some i;
  ei_queue : ∀ i p, peers e !! i = Some p →
    chan_capacity (p_commands p) = COMMAND_QUEUE_CAPACITY ∧
    len (contents (p_commands p)) ≤ COMMAND_QUEUE_CAPACITY;
}.

Lemma new_engine_inv q : eng_inv (new_engine q).
Proof. split; simpl; [lia|intros i p Hp; by rewrite lookup_nil in Hp..]. Qed.

(** Changing the peers at one index, without its cell. *)
Definition similar p p' : Prop :=
  p_cell p' = p_cell p ∧ (p_sending p' = true → p_sending p = true) ∧
  chan_capacity (p_commands p') = chan_capacity (p_commands p) ∧
  len (contents (p_commands p')) ≤ COMMAND_QUEUE_CAPACITY.

Lemma with_peers_inv i p p' e :
  eng_inv e → peers e !! i = Some p → similar p p' → eng_inv (with_peers (<[i := p']> (peers e)) e).
Proof.
  intros [Hh Hc Ho Ht Hq] Hp (Hcell & Hs & Hcap & Hlen).
  split; simpl; [done|..]; intros j pj; intros Hj;
    apply list_lookup_insert_Some in Hj as [(-> & <- & _)|[Hne Hj]]; eauto.
  - rewrite Hcell. eauto.
  - intros Hn. rewrite Hcell in *. destruct (Ho _ _ Hp Hn) as [? Hf]. split; [done|].
    destruct (p_sending p'); [|done]. by rewrite Hs in Hf.
  - split; [|done]. rewrite Hcap. by apply (Hq _ _ Hp).
Qed.

Lemma similar_stopped p : len (contents (p_commands p)) ≤ COMMAND_QUEUE_CAPACITY → similar p (p_stopped p).
Proof.
  intros Hlen. destruct (close_rx_spec _ (p_commands p)) as (_ & Hk & _).
  pose proof (close_rx_len (p_commands p)). split_and!; simpl; done || lia.
Qed.

(** Storing [Closed] in a cell, or any state in the current one. *)
Lemma store_cell_inv i s e :
  eng_inv e → s = Closed ∨ i = holder e → eng_inv (store_cell i s e).
Proof.
  intros [Hh Hc Ho Ht Hq] Hs. split; simpl; [by rewrite length_insert|done| |done|done].
  intros j p Hj Hn. destruct (Ho _ _ Hj Hn) as [Hv Hf]. split; [|done].
  destruct (decide (i = p_cell p)) as [->|Hne].
  - destruct Hs as [->|?]; [|done]. apply list_lookup_insert_eq. by eapply lookup_lt_Some.
  - by rewrite list_lookup_insert_ne.
Qed.

Lemma store_closed_open i e :
  current_ready_state (store_cell i Closed e) = Open → current_ready_state e = Open.
Proof.
  unfold current_ready_state, cell_value. simpl. destruct (decide (i = holder e)) as [->|Hne].
  - destruct (decide (holder e < length (cells e))%nat) as [Hlt|Hge].
    + by rewrite list_lookup_insert_eq.
    + by rewrite list_insert_ge by lia.
  - by rewrite list_lookup_insert_ne.
Qed.

Lemma fields_inv e e' :
  eng_inv e → cells e' = cells e → holder e' = holder e → peers e' = peers e →
  command_task e' = command_task e → eng_inv e'.
Proof. intros [] Hc Hh Hp Ht. split; rewrite ?Hc, ?Hh, ?Hp, ?Ht; done. Qed.

Lemma record_fault_inv g i e : eng_inv e → eng_inv (record_transport_fault g i e).
Proof.
  intros Hi. unfold record_transport_fault. destruct (negb _); [done|].
  pose proof (store_cell_inv i Closed e Hi (or_introl eq_refl)) as Hs.
  destruct (chan_send _ _); by eapply fields_inv.
Qed.

Lemma lookup_alter_Some {A} (f : A → A) i j (l : list A) x :
  alter f i l !! j = Some x →
  (i = j ∧ ∃ y, l !! j = Some y ∧ x = f y) ∨ (i ≠ j ∧ l !! j = Some x).
Proof.
  destruct (decide (i = j)) as [->|Hne].
  - rewrite list_lookup_alter_eq. destruct (l !! j) as [y|]; [|done]. intros [= <-]. eauto.
  - rewrite list_lookup_alter_ne by done. auto.
Qed.

Lemma aborted_spec p :
  p_cell (p_aborted p) = p_cell p ∧ p_sending (p_aborted p) = false ∧
  chan_capacity (p_commands (p_aborted p)) = chan_capacity (p_commands p) ∧
  len (contents (p_commands (p_aborted p))) ≤ len (contents (p_commands p)) ∧
  p_wire (p_aborted p) = p_wire p.
Proof.
  unfold p_aborted. destruct (p_sending p) eqn:Hs; [|by split_and!].
  destruct (close_rx_spec _ (p_commands p)) as (_ & Hk & _).
  pose proof (close_rx_len (p_commands p)). by split_and!.
Qed.

(** After [close_inner] nothing sends and every peer's cell is closed. *)
Definition all_closed e : Prop :=
  ∀ i p, peers e !! i = Some p → cells e !! p_cell p = Some 0 ∧ p_sending p = false.

Lemma close_inner_inv e :
  eng_inv e → eng_inv (close_inner e) ∧ all_closed (close_inner e) ∧
  length (peers (close_inner e)) = length (peers e) ∧ holder (close_inner e) = holder e ∧
  ∀ i p, peers (close_inner e) !! i = Some p →
    ∃ p0, peers e !! i = Some p0 ∧ p_cell p = p_cell p0 ∧ p_wire p = p_wire p0.
Proof.
  intros [Hh Hc Ho Ht Hq]. set (e' := close_inner e).
  assert (Hpeer : ∀ i p, peers e' !! i = Some p → ∃ p0, peers e !! i = Some p0 ∧
    p_cell p = p_cell p0 ∧ (p_sending p = true → p_sending p0 = true ∧ command_task e ≠ Some i) ∧
    chan_capacity (p_commands p) = chan_capacity (p_commands p0) ∧
    len (contents (p_commands p)) ≤ len (contents (p_commands p0)) ∧ p_wire p = p_wire p0).
  { intros i p Hp. unfold e', close_inner in Hp. simpl in Hp.
    set (l := match command_tx e with Some j => _ | None => _ end) in Hp.
    assert (Hl : ∀ p1, l !! i = Some p1 → ∃ p0, peers e !! i = Some p0 ∧ p_cell p1 = p_cell p0 ∧
      p_sending p1 = p_sending p0 ∧ chan_capacity (p_commands p1) = chan_capacity (p_commands p0) ∧
      len (contents (p_commands p1)) ≤ len (contents (p_commands p0)) ∧ p_wire p1 = p_wire p0).
    { intros p1. unfold l. destruct (command_tx e) as [j|];
        [|intros Hy; exists p1; by split_and!].
      intros [(-> & y & Hy & ->)|[_ Hy]]%lookup_alter_Some; [|exists p1; by split_and!].
      destruct (close_tx_spec _ (p_commands y)) as (Hct & ? & _). exists y. simpl. rewrite Hct. by split_and!. }
    destruct (command_task e) as [j|] eqn:Hj.
    - apply lookup_alter_Some in Hp as [(-> & y & Hy & ->)|[Hne Hy]];
        destruct (Hl _ Hy) as (p0 & Hp0 & Hcell & Hs & Hk & Hco & Hw); exists p0;
        [|split_and!; try done; intros Hs'; split; [congruence|]; by intros [= ->]].
      destruct (aborted_spec y) as (-> & -> & -> & ? & ->). split_and!; done || lia.
    - destruct (Hl _ Hp) as (p0 & Hp0 & Hcell & Hs & Hk & Hco & Hw). exists p0. split_and!; try done.
      intros Hs'. split; [congruence|done]. }
  assert (Hcells : cells e' = <[holder e := 0]> (cells e)).
  { unfold e', close_inner. simpl. apply list_insert_insert_eq. }
  assert (Hclosed : all_closed e').
  { intros i p Hp. destruct (Hpeer _ _ Hp) as (p0 & Hp0 & Hcell & Hs & _).
    rewrite Hcells, Hcell. split.
    - destruct (decide (p_cell p0 = holder e)) as [->|Hn]; [by apply list_lookup_insert_eq|].
      rewrite list_lookup_insert_ne by done. by destruct (Ho _ _ Hp0 Hn).
    - destruct (p_sending p); [|done]. destruct Hs as [Hs Hne]; [done|].
      by destruct Hne; eapply Ht. }
  split_and!; [|done| |done|].
  - split.
    + rewrite Hcells, length_insert. done.
    + intros i p Hp. destruct (Hpeer _ _ Hp) as (p0 & Hp0 & -> & _). by eapply Hc.
    + intros i p Hp _. by apply (Hclosed i).
    + intros i p Hp Hs. destruct (Hclosed _ _ Hp) as [_ Hf]. by rewrite Hf in Hs.
    + intros i p Hp. destruct (Hpeer _ _ Hp) as (p0 & Hp0 & _ & _ & -> & Hlen & _).
      destruct (Hq _ _ Hp0). split; [done|lia].
  - unfold e', close_inner. simpl.
    destruct (command_tx e), (command_task e); by rewrite ?length_alter.
  - intros i p Hp. destruct (Hpeer _ _ Hp) as (p0 & Hp0 & ? & _ & _ & _ & ?). eauto.
Qed.

(** A step keeps the older peers: their cells stay, the current cell only moves
    to fresh numbers. *)
Definition extends e e' : Prop :=
  (holder e ≤ holder e')%nat ∧ (length (peers e) ≤ length (peers e'))%nat ∧
  ∀ i p', peers e' !! i = Some p' → (i < length (peers e))%nat →
    ∃ p, peers e !! i = Some p ∧ p_cell p' = p_cell p.

Lemma extends_refl e : extends e e.
Proof. split_and!; [lia|lia|]. eauto. Qed.
Lemma extends_trans e1 e2 e3 : extends e1 e2 → extends e2 e3 → extends e1 e3.
Proof.
  intros (? & ? & Hx1) (? & ? & Hx2). split_and!; [lia|lia|]. intros i p Hp Hi.
  destruct (Hx2 _ _ Hp) as (p2 & Hp2 & ->); [lia|]. by apply Hx1.
Qed.
Lemma extends_same e e' : holder e' = holder e → peers e' = peers e → extends e e'.
Proof. intros Hh Hp. unfold extends. rewrite Hh, Hp. split_and!; eauto. Qed.
Lemma extends_insert e i p p' :
  peers e !! i = Some p → p_cell p' = p_cell p → extends e (with_peers (<[i := p']> (peers e)) e).
Proof.
  intros Hp Hc. split_and!; simpl; [lia|by rewrite length_insert|].
  intros j pj [(-> & <- & _)|[_ Hj]]%list_lookup_insert_Some _; eauto.
Qed.
Lemma extends_record g i e : extends e (record_transport_fault g i e).
Proof.
  unfold record_transport_fault. destruct (negb _); [apply extends_refl|].
  destruct (chan_send _ _); by apply extends_same.
Qed.
Lemma extends_close e : eng_inv e → extends e (close_inner e).
Proof.
  intros (_ & _ & Hl & Hh & Hp)%close_inner_inv. split_and!; [lia|lia|]. intros i p Hi _.
  destruct (Hp _ _ Hi) as (p0 & ? & ? & _). eauto.
Qed.

(** The state [prepare_offer] works from: closed, a fresh cell, connecting. *)
Definition fresh e : RtcEngine C :=
  set_ready_state Connecting (reset_ready_state (close_inner e)).

Lemma fresh_inv e :
  eng_inv e →
  eng_inv (fresh e) ∧ extends e (fresh e) ∧ command_task (fresh e) = None ∧
  length (peers (fresh e)) = length (peers e) ∧
  (∀ i p, peers (fresh e) !! i = Some p → (p_cell p < holder (fresh e))%nat ∧ p_sending p = false).
Proof.
  intros Hi. destruct (close_inner_inv e Hi) as ([Hh Hc Ho Ht Hq] & Hcl & Hlen & Hhold & _).
  assert (Hcells : ∀ k, (k < length (cells (close_inner e)))%nat →
    cells (fresh e) !! k = cells (close_inner e) !! k).
  { intros k Hk. change (cells (fresh e)) with
      (<[length (cells (close_inner e)) := 1]> (cells (close_inner e) ++ [0])).
    rewrite list_lookup_insert_ne by lia. by apply lookup_app_l. }
  assert (Hlt : ∀ i p, peers (fresh e) !! i = Some p → (p_cell p < holder (fresh e))%nat).
  { intros i p Hp. destruct (Hcl i p Hp) as [Hv _]. by apply lookup_lt_Some in Hv. }
  split_and!; [| |done|done|].
  - split.
    + change (length (cells (close_inner e)) <
        length (<[length (cells (close_inner e)) := 1%Z]> (cells (close_inner e) ++ [0%Z])))%nat.
      rewrite length_insert, length_app. simpl. lia.
    + intros i p Hp. specialize (Hlt _ _ Hp). lia.
    + intros i p Hp _. destruct (Hcl i p Hp) as [Hv Hs]. split; [|done].
      rewrite Hcells; [done|]. by eapply lookup_lt_Some.
    + intros i p Hp Hs. destruct (Hcl i p Hp) as [_ Hf]. by rewrite Hf in Hs.
    + exact Hq.
  - eapply extends_trans; [by apply extends_close|].
    unfold extends. change (holder (fresh e)) with (length (cells (close_inner e))).
    split_and!; [lia|done|]. intros i p Hp _. by exists p.
  - intros i p Hp. split; [by eapply Hlt|]. by destruct (Hcl i p Hp).
Qed.

Lemma add_peer_inv e p task :
  eng_inv e → p_cell p = holder e → (∀ i q, peers e !! i = Some q → p_sending q = false) →
  (p_sending p = true → task = Some (length (peers e))) →
  chan_capacity (p_commands p) = COMMAND_QUEUE_CAPACITY → contents (p_commands p) = [] →
  eng_inv (with_command (command_tx e) task (with_peers (peers e ++ [p]) e)) .
Proof.
  intros [Hh Hc Ho Ht Hq] Hcell Hold Htask Hcap Hempty.
  assert (Hnew : ∀ i q, (peers e ++ [p]) !! i = Some q →
    peers e !! i = Some q ∨ (i = length (peers e) ∧ q = p)).
  { intros i q [?|[? Hq']]%lookup_app_Some; [by left|right].
    destruct (i - length (peers e))%nat eqn:Ei; simplify_eq/=.
    split; [lia|done]. }
  split; simpl; [done|..]; intros i q [Hq'|[-> ->]]%Hnew; eauto.
  - lia.
  - done.
  - intros Hs. by rewrite (Hold _ _ Hq') in Hs.
  - split; [done|]. rewrite Hempty. done.
Qed.

Lemma new_peer_queue e :
  chan_capacity (p_commands (new_peer e)) = COMMAND_QUEUE_CAPACITY ∧
  contents (p_commands (new_peer e)) = [].
Proof.
  destruct (bounded_spec EngineCommand COMMAND_QUEUE_CAPACITY) as (? & ? & _); [done|]. done.
Qed.

Lemma extends_add e p tx task :
  extends e (with_command tx task (with_peers (peers e ++ [p]) e)).
Proof.
  split_and!; simpl; [lia|rewrite length_app; lia|]. intros i q Hq Hi. exists q.
  by rewrite lookup_app_l in Hq.
Qed.

(** The engine with its new peer, and with one whose creation failed. *)
Lemma prepared_inv e :
  eng_inv e →
  let i := length (peers (fresh e)) in
  eng_inv (with_command (Some i) (Some i)
             (with_peers (peers (fresh e) ++ [new_peer (fresh e)]) (fresh e))).
Proof.
  intros Hi. destruct (fresh_inv e Hi) as (Hf & _ & _ & _ & Hold).
  destruct (new_peer_queue (fresh e)) as [Hcap Hempty].
  eapply fields_inv; [apply (add_peer_inv (fresh e) (new_peer (fresh e))
    (Some (length (peers (fresh e))))); try done|done..].
  intros i q Hq. by destruct (Hold _ _ Hq).
Qed.
Lemma unprepared_inv e :
  eng_inv e →
  eng_inv (with_peers (peers (fresh e) ++ [unstarted_peer (fresh e)]) (fresh e)).
Proof.
  intros Hi. destruct (fresh_inv e Hi) as (Hf & _ & _ & _ & Hold).
  destruct (new_peer_queue (fresh e)) as [Hcap Hempty].
  eapply fields_inv; [apply (add_peer_inv (fresh e) (unstarted_peer (fresh e)) None);
    try done|done..]. intros i q Hq. by destruct (Hold _ _ Hq).
Qed.

Lemma prepare_offer_inv created setup offer e :
  eng_inv e →
  eng_inv (prepare_offer created setup offer e).2 ∧ extends e (prepare_offer created setup offer e).2 ∧
  ∀ i p, peers (prepare_offer created setup offer e).2 !! i = Some p → (i < length (peers e))%nat →
    (p_cell p < holder (prepare_offer created setup offer e).2)%nat.
Proof.
  intros Hi. unfold prepare_offer. fold (fresh e).
  destruct (fresh_inv e Hi) as (Hf & He & Ht & Hl & Hold).
  destruct (new_peer_queue (fresh e)) as [Hcap Hempty].
  assert (Hless : ∀ e', eng_inv e' → extends (fresh e) e' →
    ∀ i p, peers e' !! i = Some p → (i < length (peers e))%nat → (p_cell p < holder e')%nat).
  { intros e' _ (Hh & _ & Hx) i p Hp Hlt. rewrite <- Hl in Hlt.
    destruct (Hx _ _ Hp Hlt) as (p0 & Hp0 & ->). destruct (Hold _ _ Hp0). lia. }
  assert (Hgoal : ∀ e', eng_inv e' → extends (fresh e) e' →
    eng_inv e' ∧ extends e e' ∧ ∀ i p, peers e' !! i = Some p → (i < length (peers e))%nat →
      (p_cell p < holder e')%nat).
  { intros e' Hx1 Hx2. split_and!; [done|by eapply extends_trans|by apply Hless]. }
  assert (Hclose : ∀ e1, eng_inv e1 → extends (fresh e) e1 →
    eng_inv (close_inner e1) ∧ extends e (close_inner e1) ∧
    ∀ i p, peers (close_inner e1) !! i = Some p → (i < length (peers e))%nat →
      (p_cell p < holder (close_inner e1))%nat).
  { intros e1 Hx1 Hx2. apply Hgoal; [by apply close_inner_inv|].
    eapply extends_trans; [exact Hx2|by apply extends_close]. }
  destruct created as [[]|error]; cbv zeta; [destruct setup as [[]|error]|].
  - set (e1 := with_command _ _ _).
    assert (eng_inv e1) as Hx1 by by apply prepared_inv.
    assert (extends (fresh e) e1) as Hx2 by apply extends_add.
    destruct offer as [sdp|error]; simpl; [by apply Hgoal|by apply Hclose].
  - set (e1 := with_peers _ _). apply Hclose; [by apply unprepared_inv|].
    eapply (extends_trans _ (with_command None None e1)); [apply extends_add|by apply extends_same].
  - apply Hclose; [done|apply extends_refl].
Qed.

(** ** Every step *)
Lemma apply_event_closed event : apply_event 0 event = 0.
Proof. done. Qed.

Lemma channel_event_inv i event e :
  eng_inv e → eng_inv (channel_event i event e) ∧ extends e (channel_event i event e).
Proof.
  intros Hi. unfold channel_event. destruct (peers e !! i) as [p|]; [|by split; [|apply extends_refl]].
  destruct (negb _); [by split; [|apply extends_refl]|]. split; [|by apply extends_same].
  destruct Hi as [Hh Hc Ho Ht Hq]. split; simpl; [by rewrite length_alter|done| |done|done].
  intros j q Hj Hn. destruct (Ho _ _ Hj Hn) as [Hv Hf]. split; [|done].
  destruct (decide (p_cell p = p_cell q)) as [->|Hne].
  - rewrite list_lookup_alter_eq, Hv. simpl. by rewrite apply_event_closed.
  - by rewrite list_lookup_alter_ne.
Qed.

Lemma enqueue_frame g payload e :
  let e' := (enqueue_current g payload e).2 in
  cells e' = cells e ∧ holder e' = holder e ∧ peers e' = peers e ∧ command_task e' = command_task e.
Proof. unfold enqueue_current. destruct (negb _); [done|]. by destruct (chan_send _ _) as [|[]]. Qed.

Lemma on_message_frame i is_string data e :
  let e' := (on_message i is_string data e).2 in
  cells e' = cells e ∧ holder e' = holder e ∧ peers e' = peers e ∧ command_task e' = command_task e.
Proof.
  unfold on_message. destruct (peers e !! i) as [p|]; [|done].
  destruct (cell_value _ _); try done;
    (destruct (negb _); [done|]; destruct (negb _); [done|]; destruct is_string;
     [destruct (decode_text_message data); [apply enqueue_frame|done]|apply enqueue_frame]).
Qed.

Lemma try_command_step size c e :
  (try_command size c e).2 = e ∨ ∃ i p q,
    (try_command size c e).2 = with_peers (<[i := p_with_commands q p]> (peers e)) e ∧
    peers e !! i = Some p ∧ chan_send (p_commands p) c = Ok q.
Proof.
  unfold try_command. destruct (_ <? size); [by left|]. destruct (negb _); [by left|].
  destruct (command_tx e) as [i|]; [|by left]. destruct (peers e !! i) as [p|] eqn:Hp; [|by left].
  destruct (chan_send _ c) as [q|[]] eqn:Hs; [|by left..]. right. eauto 10.
Qed.

Lemma send_ok_similar p q c :
  chan_capacity (p_commands p) = COMMAND_QUEUE_CAPACITY → chan_send (p_commands p) c = Ok q →
  similar p (p_with_commands q p) ∧ contents q = contents (p_commands p) ++ [c].
Proof.
  intros Hcap Hs. destruct (chan_send_cases (p_commands p) c) as
    [(q' & Hq & Hc & Hk & _ & _ & _ & Hlt)|[[Hq _]|[Hq _]]]; rewrite Hq in Hs; [|done..].
  injection Hs as <-. split; [|done]. split_and!; [done|done|done|]. simpl.
  rewrite Hc, len_app. change (len [c]) with 1. lia.
Qed.

Lemma try_command_inv size c e :
  eng_inv e → eng_inv (try_command size c e).2 ∧ extends e (try_command size c e).2.
Proof.
  intros Hi. destruct (try_command_step size c e) as [->|(i & p & q & -> & Hp & Hs)];
    [by split; [|apply extends_refl]|].
  destruct (ei_queue _ Hi _ _ Hp) as [Hcap _].
  destruct (send_ok_similar _ _ _ Hcap Hs) as [Hsim _].
  split; [by eapply with_peers_inv|by eapply extends_insert].
Qed.

Lemma send_begin_inv i e : eng_inv e → eng_inv (send_begin i e) ∧ extends e (send_begin i e).
Proof.
  intros Hi. unfold send_begin.
  destruct (peers e !! i) as [p|] eqn:Hp; [|by split; [|apply extends_refl]].
  destruct (p_sending p) eqn:Hs; [|by split; [|apply extends_refl]]. simpl.
  destruct (p_inflight p); [by split; [|apply extends_refl]|].
  destruct (ei_queue _ Hi _ _ Hp) as [Hcap Hlen].
  destruct (chan_recv (p_commands p)) as [[c q]|[]] eqn:Hr; [|by split; [|apply extends_refl]|].
  - apply chan_recv_Ok in Hr as (Hc & Hk & _). rewrite Hc, len_cons in Hlen.
    assert (Hstop : similar p (p_stopped (p_with_commands q p))).
    { destruct (similar_stopped (p_with_commands q p)) as (? & ? & Hkq & ?); [simpl; lia|].
      split_and!; simpl in *; done || congruence. }
    destruct (negb _); [split; [by eapply with_peers_inv|by eapply extends_insert]|].
    destruct (negb _).
    + split; [by apply record_fault_inv; eapply with_peers_inv|].
      eapply extends_trans; [|apply extends_record]. by eapply extends_insert.
    + split; [|by eapply extends_insert]. eapply with_peers_inv; [done|done|].
      split_and!; simpl; done || lia.
  - split; [|by eapply extends_insert]. by eapply with_peers_inv, similar_stopped.
Qed.

Lemma send_end_inv i outcome e : eng_inv e → eng_inv (send_end i outcome e) ∧ extends e (send_end i outcome e).
Proof.
  intros Hi. unfold send_end.
  destruct (peers e !! i) as [p|] eqn:Hp; [|by split; [|apply extends_refl]].
  destruct (p_sending p); [|by split; [|apply extends_refl]]. simpl.
  destruct (p_inflight p); [|by split; [|apply extends_refl]].
  destruct (ei_queue _ Hi _ _ Hp) as [_ Hlen]. destruct outcome.
  - split; [by eapply with_peers_inv|by eapply extends_insert].
  - split; [by apply record_fault_inv; eapply with_peers_inv, similar_stopped|].
    eapply extends_trans; [|apply extends_record]. by eapply extends_insert.
Qed.

Lemma eng_step_inv o e : eng_inv e → eng_inv (eng_step o e) ∧ extends e (eng_step o e).
Proof.
  intros Hi. destruct o as [created setup offer| |m|b|i|i outcome|i event|i state|i is_string data|g| |q]; simpl.
  - by destruct (prepare_offer_inv created setup offer e Hi) as (? & ? & _).
  - split; [by apply close_inner_inv|by apply extends_close].
  - by apply try_command_inv.
  - by apply try_command_inv.
  - by apply send_begin_inv.
  - by apply send_end_inv.
  - by apply channel_event_inv.
  - destruct state; simpl; (by apply channel_event_inv) || (by split; [|apply extends_refl]).
  - destruct (on_message_frame i is_string data e) as (? & ? & ? & ?).
    split; [by eapply fields_inv|by apply extends_same].
  - destruct (negb _); [|split; [by eapply fields_inv|by apply extends_same]].
    split; [|by apply extends_same]. apply store_cell_inv; [by eapply fields_inv|by right].
  - split; [by eapply fields_inv|by apply extends_same].
  - split; [by eapply fields_inv|by apply extends_same].
Qed.

Lemma eng_run_inv l e : eng_inv e → eng_inv (eng_run l e) ∧ extends e (eng_run l e).
Proof.
  revert e. induction l as [|o l IH]; intros e Hi; [by split; [|apply extends_refl]|].
  destruct (eng_step_inv o e Hi) as [Hi' He]. destruct (IH _ Hi') as [Hr Hx].
  split; [done|]. by eapply extends_trans.
Qed.

(** ** Isolation of replaced peers *)
Definition peer_op (i : nat) (o : @eng_op C) : Prop :=
  match o with
  | ESendBegin j | ESendEnd j _ | EChannel j _ | EPeerState j _ | EMessage j _ _ => j = i
  | _ => False
  end.

Lemma with_cells_same e : with_cells (cells e) e = e.
Proof. by destruct e. Qed.

Lemma closed_peer_inert i p o e :
  peers e !! i = Some p → cells e !! p_cell p = Some 0 → p_sending p = false →
  peer_op i o → eng_step o e = e.
Proof.
  intros Hp Hc Hs Ho.
  assert (Hch : ∀ event, channel_event i event e = e).
  { intros event. unfold channel_event. rewrite Hp. destruct (negb _); [done|].
    rewrite <- (with_cells_same e) at 3. f_equal. apply list_eq. intros k.
    destruct (decide (p_cell p = k)) as [<-|Hne].
    - by rewrite list_lookup_alter_eq, Hc.
    - by rewrite list_lookup_alter_ne. }
  destruct o as [| | | |j|j outcome|j event|j state|j is_string data| | |]; simpl in Ho; try done;
    subst j; simpl.
  - unfold send_begin. by rewrite Hp, Hs.
  - unfold send_end. by rewrite Hp, Hs.
  - apply Hch.
  - by destruct state; simpl; rewrite ?Hch.
  - unfold on_message, cell_value. by rewrite Hp, Hc.
Qed.

(** Once a new offer is being prepared, no callback and no sending task of
    an earlier peer has any effect on the engine again: not on the ready state,
    the queues, the retained fault or the commands, whatever happens later. *)
Theorem atomic_replaced_peer_inert q l created setup offer l' i o :
  let e := eng_run l (new_engine q) in
  let e' := eng_run l' (eng_step (EPrepare created setup offer) e) in
  (i < length (peers e))%nat → peer_op i o → eng_step o e' = e'.
Proof.
  intros e e' Hi Ho. destruct (eng_run_inv l _ (new_engine_inv q)) as [Hinv _]. fold e in Hinv.
  destruct (prepare_offer_inv created setup offer e Hinv) as (Hinv1 & Hext1 & Hless).
  destruct (eng_run_inv l' _ Hinv1) as [Hinv2 (Hh & Hlen & Hold)].
  change (eng_run l' (prepare_offer created setup offer e).2) with e' in *.
  destruct (peers e' !! i) as [p|] eqn:Hp.
  2:{ destruct o; simpl in Ho; try done; subst; simpl;
      unfold send_begin, send_end, channel_event, on_message; rewrite ?Hp; try done.
      by destruct state; simpl; unfold channel_event; rewrite ?Hp. }
  destruct (Hold _ _ Hp) as (p1 & Hp1 & Hcell).
  { destruct Hext1 as (_ & ? & _). simpl in *. lia. }
  specialize (Hless _ _ Hp1 Hi).
  destruct (ei_old _ Hinv2 _ _ Hp) as [Hc Hs]; [simpl in *; lia|].
  by eapply closed_peer_inert.
Qed.

(** ** The order of commands *)

(** The old peers of a closed engine: their wire is final. *)
Definition retired e e' : Prop :=
  ∀ i p p', peers e !! i = Some p → peers e' !! i = Some p' →
    p_wire p' = p_wire p ∧ p_sending p' = false.

Lemma retired_close e : eng_inv e → retired e (close_inner e).
Proof.
  intros (_ & Hcl & _ & _ & Hp)%close_inner_inv i p p' Hi Hi'.
  destruct (Hp _ _ Hi') as (p0 & Hp0 & _ & ->). destruct (Hcl _ _ Hi'). by simplify_eq.
Qed.

Lemma retired_prepare created setup offer e : eng_inv e → retired e (prepare_offer created setup offer e).2.
Proof.
  intros Hi. pose proof (retired_close e Hi) as Hr. unfold prepare_offer. fold (fresh e).
  destruct (fresh_inv e Hi) as (Hf & He & Ht & Hl & Hold).
  change (peers (fresh e)) with (peers (close_inner e)) in *.
  destruct (new_peer_queue (fresh e)) as [Hcap Hempty].
  assert (Hadd : ∀ p e1, peers e1 = peers (close_inner e) ++ [p] → retired e e1).
  { intros p e1 Hp i q q' Hq Hq'. rewrite Hp, lookup_app_l in Hq'; [by eapply Hr|].
    rewrite Hl. by eapply lookup_lt_Some. }
  assert (Hthen : ∀ e1, eng_inv e1 → retired e e1 → (length (peers e) ≤ length (peers e1))%nat →
    retired e (close_inner e1)).
  { intros e1 Hi1 Hr1 Hlen i q q' Hq Hq'.
    destruct (lookup_lt_is_Some_2 (peers e1) i) as [q1 Hq1].
    { apply lookup_lt_Some in Hq. lia. }
    destruct (Hr1 _ _ _ Hq Hq1) as [<- _]. by eapply (retired_close e1). }
  destruct created as [[]|error]; cbv zeta; [destruct setup as [[]|error]|].
  - destruct offer as [sdp|error]; [by eapply Hadd|].
    apply Hthen; [by apply prepared_inv|by eapply Hadd|].
    simpl. rewrite length_app. change (peers (close_inner e)) with (peers (fresh e)). simpl in *. lia.
  - apply Hthen; [by apply unprepared_inv|by eapply Hadd|].
    simpl. rewrite length_app. simpl in *. lia.
  - apply Hthen; [done|exact Hr|]. change (peers (fresh e)) with (peers (close_inner e)).
    simpl in *. lia.
Qed.

(** The commands of a peer that are on the wire or still queued. *)
Definition outbox p : list EngineCommand := p_wire p ++ contents (p_commands p).
Definition accepts (o : @eng_op C) (c : EngineCommand) : Prop :=
  (∃ m, o = ESendText m ∧ c = CText m) ∨ (∃ b, o = ESendBinary b ∧ c = CBinary b).

Definition ordered_step (o : @eng_op C) (i : nat) e p p' : Prop :=
  (p_wire p' = p_wire p ∨
   ∃ c, p_wire p' = p_wire p ++ [c] ∧ o = ESendBegin i ∧ cell_value (p_cell p) e = Open ∧
        p_generation p = ingress_generation e) ∧
  (p_sending p' = true →
   outbox p' = outbox p ∨ ∃ c, outbox p' = outbox p ++ [c] ∧ accepts o c).

Lemma ordered_same o i e p : ordered_step o i e p p.
Proof. split; by left. Qed.
Lemma ordered_stopped o i e p p' :
  p_wire p' = p_wire p → p_sending p' = false → ordered_step o i e p p'.
Proof. intros Hw Hs. split; [by left|]. by rewrite Hs. Qed.

Lemma ordered_insert o i j e p p' pj :
  peers e !! i = Some p → <[j := pj]> (peers e) !! i = Some p' →
  (j = i → ordered_step o i e p pj) → ordered_step o i e p p'.
Proof.
  intros Hp [(-> & <- & _)|[_ Hp']]%list_lookup_insert_Some Hj; [by apply Hj|].
  rewrite Hp in Hp'. injection Hp' as <-. apply ordered_same.
Qed.

Lemma record_fault_peers g c e : peers (record_transport_fault g c e) = peers e.
Proof. unfold record_transport_fault. destruct (negb _); [done|]. by destruct (chan_send _ _). Qed.

Lemma ordered_command o i size c e p p' :
  eng_inv e → accepts o c → peers e !! i = Some p →
  peers (try_command size c e).2 !! i = Some p' → ordered_step o i e p p'.
Proof.
  intros Hi Hacc Hp Hp'.
  destruct (try_command_step size c e) as [Hs|(j & pj & q & Hs & Hpj & Hsend)];
    rewrite Hs in Hp'; [rewrite Hp in Hp'; injection Hp' as <-; apply ordered_same|].
  eapply ordered_insert; [exact Hp|exact Hp'|]. intros ->. rewrite Hp in Hpj. injection Hpj as <-.
  destruct (ei_queue _ Hi _ _ Hp) as [Hcap _].
  destruct (send_ok_similar _ _ _ Hcap Hsend) as [_ Hc].
  split; [by left|]. intros _. right. exists c. split; [|done]. unfold outbox. simpl.
  by rewrite Hc, app_assoc.
Qed.

Lemma ordered_send_begin i j e p p' :
  peers e !! i = Some p → peers (send_begin j e) !! i = Some p' →
  ordered_step (ESendBegin j) i e p p'.
Proof.
  intros Hp. unfold send_begin.
  assert (Hsame : peers e !! i = Some p' → ordered_step (ESendBegin j) i e p p').
  { intros Hp'. rewrite Hp in Hp'. injection Hp' as <-. apply ordered_same. }
  destruct (peers e !! j) as [pj|] eqn:Hpj; [|done]. destruct (negb _); [done|].
  destruct (p_inflight pj); [done|]. destruct (chan_recv (p_commands pj)) as [[c q]|[]] eqn:Hr; [|done|].
  - apply chan_recv_Ok in Hr as (Hc & _).
    destruct (negb (_ =? _)) eqn:Hg.
    { intros Hp'. eapply ordered_insert; [done|exact Hp'|]. intros ->. simplify_eq.
      by apply ordered_stopped. }
    destruct (negb (bool_decide _)) eqn:Ho.
    { rewrite record_fault_peers. intros Hp'. eapply ordered_insert; [done|exact Hp'|].
      intros ->. simplify_eq. by apply ordered_stopped. }
    intros Hp'. eapply ordered_insert; [done|exact Hp'|]. intros ->. simplify_eq. bool_hyps.
    apply bool_decide_eq_true in Ho. simpl in *. split.
    + right. exists c. split_and!; [done|done|done|lia].
    + intros _. left. unfold outbox. simpl. rewrite Hc, <- app_assoc. done.
  - intros Hp'. eapply ordered_insert; [done|exact Hp'|]. intros ->. simplify_eq.
    by apply ordered_stopped.
Qed.

Lemma ordered_send_end i j outcome e p p' :
  peers e !! i = Some p → peers (send_end j outcome e) !! i = Some p' →
  ordered_step (ESendEnd j outcome) i e p p'.
Proof.
  intros Hp. unfold send_end.
  assert (Hsame : peers e !! i = Some p' → ordered_step (ESendEnd j outcome) i e p p').
  { intros Hp'. rewrite Hp in Hp'. injection Hp' as <-. apply ordered_same. }
  destruct (peers e !! j) as [pj|] eqn:Hpj; [|done]. destruct (negb _); [done|].
  destruct (p_inflight pj); [|done]. destruct outcome; rewrite ?record_fault_peers;
    intros Hp'; (eapply ordered_insert; [done|exact Hp'|]); intros ->; simplify_eq.
  - split; [by left|]. intros _. by left.
  - by apply ordered_stopped.
Qed.

(** C21: the commands of a peer reach the data channel in the order they were
    accepted: a step either extends the outbox (sent plus queued) by the command
    it accepts or keeps it, and puts on the wire only the oldest queued command,
    while the peer is open and its generation current; at most 128 are queued. *)
Theorem commands_in_order o i e p p' :
  eng_inv e → peers e !! i = Some p → peers (eng_step o e) !! i = Some p' →
  ordered_step o i e p p' ∧ len (contents (p_commands p')) ≤ COMMAND_QUEUE_CAPACITY.
Proof.
  intros Hi Hp Hp'. split; [|by apply (ei_queue _ (proj1 (eng_step_inv o e Hi)) _ _ Hp')].
  assert (Hsame : peers e !! i = Some p' → ordered_step o i e p p').
  { intros Hq. rewrite Hp in Hq. injection Hq as <-. apply ordered_same. }
  destruct o as [created setup offer| |m|b|j|j outcome|j event|j state|j is_string data|g| |q]; simpl in Hp'.
  - destruct (retired_prepare created setup offer e Hi i p p' Hp Hp'). by apply ordered_stopped.
  - destruct (retired_close e Hi i p p' Hp Hp'). by apply ordered_stopped.
  - eapply ordered_command; [done|left; by exists m|done|exact Hp'].
  - eapply ordered_command; [done|right; by exists b|done|exact Hp'].
  - by apply ordered_send_begin.
  - by apply ordered_send_end.
  - apply Hsame. revert Hp'. unfold channel_event.
    destruct (peers e !! j); [|done]. by destruct (negb _).
  - apply Hsame. revert Hp'. destruct state; simpl; try done; unfold channel_event;
      (destruct (peers e !! j); [|done]); by destruct (negb _).
  - destruct (on_message_frame j is_string data e) as (_ & _ & Hq & _). rewrite Hq in Hp'. auto.
  - apply Hsame. revert Hp'. by destruct (negb _).
  - auto.
  - auto.
Qed.

(** ** The port *)
#[export] Instance engine_port : DataChannelPort (RtcEngine C) := {|
  Ports.send_text := Engine.send_text;
  Ports.send_binary := Engine.send_binary;
  Ports.set_ingress_generation := Engine.set_ingress_generation;
  Ports.take_transport_error := Engine.take_transport_error;
  Ports.ready_state := Engine.ready_state;
|}.

Lemma state_str_open v : state_str (from_u8 v) = "open" → from_u8 v = Open.
Proof. by destruct (from_u8 v). Qed.

Lemma try_command_cells size c e :
  let e' := (try_command size c e).2 in
  cells e' = cells e ∧ holder e' = holder e ∧ ingress_generation e' = ingress_generation e.
Proof. destruct (try_command_step size c e) as [->|(i & p & q & -> & _ & _)]; done. Qed.

Lemma set_generation_closed g e :
  ingress_generation e ≠ g → current_ready_state (Engine.set_ingress_generation g e).2 = Closed.
Proof.
  intros Hne. unfold Engine.set_ingress_generation. simpl.
  replace (ingress_generation e =? g) with false by lia. simpl.
  unfold current_ready_state, cell_value. simpl.
  destruct (decide (holder e < length (cells e))%nat) as [Hlt|Hge].
  - by rewrite list_lookup_insert_eq.
  - rewrite list_insert_ge by lia. by rewrite (lookup_ge_None_2 (cells e)) by lia.
Qed.

#[export] Program Instance engine_port_spec : DataChannelPortSpec (RtcEngine C) := {|
  port_generation := ingress_generation
|}.
Next Obligation.
  intros m e Hr. simpl in *. unfold send_text, try_command.
  destruct (_ <? slen m); [done|]. rewrite bool_decide_false; [done|].
  intros Ho. apply Hr. unfold ready_state. by rewrite Ho.
Qed.
Next Obligation.
  intros m e. simpl. destruct (try_command_cells (slen m) (CText m) e) as (Hc & Hh & Hg).
  unfold send_text, ready_state, current_ready_state, cell_value. by rewrite Hc, Hh, Hg.
Qed.
Next Obligation.
  intros g e e' [= <-]. simpl. split_and!; [by destruct (negb _)|by destruct (negb _)|].
  intros Hne Ho. apply state_str_open in Ho.
  pose proof (set_generation_closed g e Hne) as Hc. simpl in Hc. unfold current_ready_state, cell_value in Hc.
  by rewrite Hc in Ho.
Qed.

(** A command is accepted exactly when it is at most 1 MiB, the current peer
    is open and its queue has room; it then enters that queue, and a refused
    command changes nothing.  A new generation leaves the channel closed and no
    older fault to be taken. *)
Theorem send_text_exact m e i p :
  eng_inv e → command_tx e = Some i → peers e !! i = Some p → rx_open (p_commands p) = true →
  (send_text m e).1 =
    (if MAX_COMMAND_BYTES <? slen m then Err "DataChannel command exceeds byte limit" else
     if decide (current_ready_state e = Open) then
       if len (contents (p_commands p)) <? COMMAND_QUEUE_CAPACITY then Ok ()
       else Err "no available capacity"
     else Err "DataChannel is not open") ∧
  (is_err (send_text m e).1 = true → (send_text m e).2 = e) ∧
  (∀ g, g ≠ ingress_generation e →
     ready_state (Engine.set_ingress_generation g e).2 = "closed" ∧
     (Engine.take_transport_error (Engine.set_ingress_generation g e).2).1 = None).
Proof.
  intros Hi Htx Hp Hrx. destruct (ei_queue _ Hi _ _ Hp) as [Hcap _].
  split_and!.
  - unfold send_text, try_command. destruct (_ <? slen m); [done|].
    destruct (decide (current_ready_state e = Open)) as [Ho|Ho].
    + rewrite bool_decide_true by done. simpl. rewrite Htx, Hp.
      destruct (chan_send_cases (p_commands p) (CText m)) as
        [(q & -> & _ & _ & _ & _ & _ & Hlt)|[[-> [_ Hge]]|[_ ?]]]; [| |congruence].
      * by replace (_ <? COMMAND_QUEUE_CAPACITY) with true by lia.
      * by replace (_ <? COMMAND_QUEUE_CAPACITY) with false by lia.
    + by rewrite bool_decide_false.
  - unfold send_text, try_command. destruct (_ <? slen m); [done|].
    destruct (negb _); [done|]. rewrite Htx, Hp. by destruct (chan_send _ _) as [|[]].
  - intros g Hg. unfold ready_state. rewrite set_generation_closed by done. split; [done|].
    simpl. by destruct (negb _).
Qed.
End props.

(** ** The wait for an answer *)
Section answer.
Context `{SdpParser}.

(** A turn of the loop that goes round again. *)
Definition waits (v : open_poll) : bool :=
  match op_state v with Connecting | Disconnected_ => op_elapsed v <=? from_secs 30 | _ => false end.
Definition poll_result (v : open_poll) : PortResult () :=
  match op_state v with
  | Open => Ok ()
  | Closed | Failed => Err "Data channel closed or failed before opening"
  | _ => Err (channel_open_timeout_error (op_transports v) (op_channel v))
  end.
Lemma await_open_cons v polls :
  await_open (v :: polls) = if waits v then await_open polls else Some (poll_result v).
Proof.
  unfold waits, poll_result. rewrite Z.leb_antisym. cbn [await_open]. generalize (from_secs 30). intros limit.
  by destruct (op_state v), (limit <? op_elapsed v).
Qed.
Lemma await_open_app pre polls : forallb waits pre = true → await_open (pre ++ polls) = await_open polls.
Proof.
  induction pre as [|v pre IH]; [done|]. intros [Hv Hp]%andb_true_iff.
  simpl app. rewrite await_open_cons, Hv. by apply IH.
Qed.
Lemma await_open_split polls r :
  await_open polls = Some r →
  ∃ pre v post, polls = pre ++ v :: post ∧ forallb waits pre = true ∧ waits v = false ∧ r = poll_result v.
Proof.
  induction polls as [|v polls IH]; [done|]. rewrite await_open_cons. destruct (waits v) eqn:Hv.
  - intros Hr. destruct (IH Hr) as (pre & w & post & -> & Hpre & Hw & Hres).
    exists (v :: pre), w, post. split_and!; try done. simpl. by rewrite Hv.
  - intros [= <-]. by exists [], v, polls.
Qed.

(** C22: [apply_answer] succeeds exactly if there is a peer, the answer parses and is
    accepted, and the channel was seen open after turns that all saw it connecting
    within the 30 seconds; a robot that is taken by another client is an error before
    the peer is touched; and a turn later than the 30 seconds always ends it. *)
Theorem apply_answer_exact peer_connected answer_payload set_remote_description polls :
  let r := apply_answer peer_connected answer_payload set_remote_description polls in
  (r = Some (Ok ()) ↔
     peer_connected = true ∧
     (∃ answer, parse_answer_payload answer_payload = Ok answer ∧ set_remote_description answer = Ok ()) ∧
     ∃ pre v post, polls = pre ++ v :: post ∧ forallb waits pre = true ∧ op_state v = Open) ∧
  (∀ v, json_from_str answer_payload = Some v → get v "sdp" ≫= as_str = Some "reject" → is_err (default (Ok ()) r) = true) ∧
  ((∃ v, v ∈ polls ∧ from_secs 30 < op_elapsed v) → is_Some r).
Proof.
  intros r. unfold r, apply_answer. split_and!.
  - split.
    + destruct peer_connected; [|done]. simpl. destruct (parse_answer_payload answer_payload) as [answer|] eqn:Hp; [|done].
      destruct (set_remote_description answer) as [[]|] eqn:Hs; [|done]. intros Hr.
      destruct (await_open_split _ _ Hr) as (pre & v & post & -> & Hpre & _ & Hres).
      split_and!; [done|by exists answer|]. exists pre, v, post. split_and!; [done|done|].
      unfold poll_result in Hres. by destruct (op_state v).
    + intros (-> & (answer & -> & ->) & pre & v & post & -> & Hpre & Hv). simpl.
      rewrite await_open_app by done. simpl. by rewrite Hv.
  - intros v Hj Hr. destruct peer_connected; [|done]. simpl. unfold parse_answer_payload.
    by rewrite Hj, decide_True by done.
  - intros (v & Hv & Hlate). destruct peer_connected; [|by eexists]. simpl.
    destruct (parse_answer_payload answer_payload) as [answer|]; [|by eexists].
    destruct (set_remote_description answer) as [[]|]; [|by eexists].
    apply list_elem_of_split in Hv as (pre & post & ->).
    assert (waits v = false) as Hw.
    { unfold waits. rewrite Z.leb_antisym, (proj2 (Z.ltb_lt _ _)) by done. by destruct (op_state v). }
    induction pre as [|w pre IH]; simpl app; rewrite await_open_cons; [rewrite Hw; by eexists|].
    destruct (waits w); [done|by eexists].
Qed.
End answer.

(** ** A run: two offers, one command *)
Definition demo_engine : RtcEngine vec_chan :=
  eng_run [ESetGeneration 1; EPrepare (Ok ()) (Ok ()) (Ok "v=0"); EChannel 0 ChannelOpened]
    (new_engine (bounded 8)).
Lemma demo_engine_inv : eng_inv demo_engine.
Proof. by apply eng_run_inv, new_engine_inv. Qed.

Lemma atomic_replaced_peer_inert_witness :
  let e' := eng_step (EPrepare (Ok ()) (Ok ()) (Ok "v=0")) demo_engine in
  eng_step (EChannel 0 ChannelOpened) e' = e'.
Proof.
  refine (atomic_replaced_peer_inert (bounded 8)
    [ESetGeneration 1; EPrepare (Ok ()) (Ok ()) (Ok "v=0"); EChannel 0 ChannelOpened]
    (Ok ()) (Ok ()) (Ok "v=0") [] 0 (EChannel 0 ChannelOpened) _ eq_refl).
  vm_compute. lia.
Defined.

Definition demo_peer : Peer vec_chan :=
  {| p_generation := 1; p_cell := 1; p_commands := bounded 128; p_sending := true;
     p_inflight := None; p_wire := [] |}.
Definition demo_peer' : Peer vec_chan :=
  {| p_generation := 1; p_cell := 1;
     p_commands := {| vc_items := [CText "hi"]; vc_cap := 128; vc_rx := true; vc_tx := true |};
     p_sending := true; p_inflight := None; p_wire := [] |}.
Lemma commands_in_order_witness :
  ordered_step (ESendText "hi") 0 demo_engine demo_peer demo_peer' ∧
  len (contents (p_commands demo_peer')) ≤ COMMAND_QUEUE_CAPACITY.
Proof.
  apply (commands_in_order (ESendText "hi") 0 demo_engine demo_peer demo_peer' demo_engine_inv);
    vm_compute; reflexivity.
Defined.

Lemma send_text_exact_witness : (send_text "hi" demo_engine).1 = Ok ().
Proof.
  destruct (send_text_exact "hi" demo_engine 0 demo_peer demo_engine_inv) as [Hr _];
    [vm_compute; reflexivity..|]. rewrite Hr. vm_compute. reflexivity.
Defined.
