(* ===== verification/Connection.v ===== *)
(** * Connection attempts (src/src/connection/service.rs, lifecycle.rs)

    [ConnectionService] and the validated-session wrappers around it.  Its
    futures run concurrently, may be dropped at an await, and exclude each
    other by [session_gate]; an execution is a sequence of the atomic steps
    below ([conn_op]), each the code of one task between two awaits.  The calls
    into the engine, the data channel service and the audio playback are
    logged in order; their outcomes are inputs of the steps.  Any waiter may
    take a free gate, a superset of tokio's FIFO order.  The theorems are in
    ConnectionProps. *)
From S2P Require Import Prelude Floats Json Constants.
#[local] Open Scope Z_scope.

(** ** Data *)
Inductive SessionConnect := Connect | Reconnect | Retry.

(** The operations that take the gate: [ConnectionService::connect] and
    [reconnect], an iteration of [ConnectionService::auto_reconnect],
    [connect_validated_session], [ConnectionService::disconnect] and
    [disconnect_session]. *)
Inductive kind :=
  | KService (reconnect : bool)
  | KAuto
  | KSession (mode : SessionConnect)
  | KDisconnect
  | KDisconnectSession.

Inductive Call :=
  | StopAudio | StopBackground | PrepareIngress
  | PrepareOffer | ExchangeSdp (ip offer : string) | ApplyAnswer (answer : string)
  | WaitOpen | Close.

(** The await an attempt's operation is at; [AtStart]: not polled yet. *)
Inductive stage :=
  | AtStart | AtAudio | AtIngress | AtClose | AtOffer | AtExchange | AtAnswer | AtOpen.

(** [Running polled st]: inside [ConnectionAttempt::run], [polled] while the
    biased [select!] has seen no cancellation and is polling the operation.
    [Stopping] and [RollingBack] await [stop_audio_sender] and [engine.close]
    of the cleanup that ends with the given result; the [Drop] states belong to
    the tasks the destructors spawn. *)
Inductive pc :=
  | Waiting | Holding | Ready
  | Running (polled : bool) (st : stage)
  | Stopping (r : PortResult ()) | RollingBack (r : PortResult ()) | Done (r : PortResult ())
  | DropAudio | DropWait | DropClose | DropClosing | Gone.

(** [t_seen]: the version of the cancellation channel the task subscribed at;
    a disconnect subscribes after its own request. *)
Record Task := { t_kind : kind; t_seen : Z; t_pc : pc }.

(** [cancellation] is the [u64] the watch channel holds and [version] the
    channel's count of its modifications, which [has_changed] compares. *)
Record ConnectionService := {
  is_connected : bool;
  intentional_disconnect : bool;
  cancellation : Z;
  version : Z;
  session_gate : option nat;
  tasks : list Task;
  calls : list (nat * Call);
}.

Definition disconnecting (k : kind) : bool :=
  match k with KDisconnect | KDisconnectSession => true | _ => false end.
Definition validated (k : kind) : bool := match k with KSession _ => true | _ => false end.
(** The attempts that close the engine before they connect. *)
Definition reconnects (k : kind) : bool :=
  match k with
  | KService r => r
  | KAuto => true
  | KSession Connect => false
  | KSession _ => true
  | _ => false
  end.
(** The attempts that first look at the intentional-disconnect flag. *)
Definition retries (k : kind) : bool :=
  match k with KAuto | KSession Retry => true | _ => false end.

(** ** Steps *)
Section connection.
Context (method : WebRTCConnectionMethod) (ip : option string) `{SerdeJson}.
Implicit Types (s : ConnectionService) (t : Task).

Definition new : ConnectionService :=
  {| is_connected := false; intentional_disconnect := false; cancellation := 0; version := 0;
     session_gate := None; tasks := []; calls := [] |}.

Definition set_connected (b : bool) s : ConnectionService :=
  {| is_connected := b; intentional_disconnect := intentional_disconnect s;
     cancellation := cancellation s; version := version s; session_gate := session_gate s;
     tasks := tasks s; calls := calls s |}.
Definition set_intentional (b : bool) s : ConnectionService :=
  {| is_connected := is_connected s; intentional_disconnect := b;
     cancellation := cancellation s; version := version s; session_gate := session_gate s;
     tasks := tasks s; calls := calls s |}.
Definition set_gate (g : option nat) s : ConnectionService :=
  {| is_connected := is_connected s; intentional_disconnect := intentional_disconnect s;
     cancellation := cancellation s; version := version s; session_gate := g;
     tasks := tasks s; calls := calls s |}.
Definition set_tasks (l : list Task) s : ConnectionService :=
  {| is_connected := is_connected s; intentional_disconnect := intentional_disconnect s;
     cancellation := cancellation s; version := version s; session_gate := session_gate s;
     tasks := l; calls := calls s |}.
Definition call (i : nat) (c : Call) s : ConnectionService :=
  {| is_connected := is_connected s; intentional_disconnect := intentional_disconnect s;
     cancellation := cancellation s; version := version s; session_gate := session_gate s;
     tasks := tasks s; calls := calls s ++ [(i, c)] |}.
Definition goto (i : nat) (p : pc) s : ConnectionService :=
  set_tasks (alter (λ t, {| t_kind := t_kind t; t_seen := t_seen t; t_pc := p |}) i (tasks s)) s.

Definition request_disconnect s : ConnectionService :=
  {| is_connected := is_connected s; intentional_disconnect := true;
     cancellation := wrapping_add 64 (cancellation s) 1; version := version s + 1;
     session_gate := session_gate s; tasks := tasks s; calls := calls s |}.

(** A call of an operation, up to its wait for the gate. *)
Definition begin_attempt (k : kind) s : ConnectionService :=
  let s := if disconnecting k then request_disconnect s else s in
  set_tasks (tasks s ++ [{| t_kind := k; t_seen := version s; t_pc := Waiting |}]) s.

(** [finish]: the gate is released, the result returned. *)
Definition finish (i : nat) (r : PortResult ()) s : ConnectionService :=
  set_gate None (goto i (Done r) s).

(** [rollback_connection], up to the await on the engine. *)
Definition rollback_connection (i : nat) (r : PortResult ()) s : ConnectionService :=
  goto i (RollingBack r) (call i Close (set_connected false s)).

(** The cleanup after the operation of an attempt failed. *)
Definition fail (i : nat) (k : kind) (e : string) s : ConnectionService :=
  if validated k then goto i (Stopping (Err e)) (call i StopAudio s)
  else rollback_connection i (Err e) s.

Definition cancelled : string := "Connection attempt cancelled by disconnect".

Definition target_ip : PortResult string :=
  match method with
  | LocalSTA => ok_or "LocalSTA connection requires ip" ip
  | LocalAP => Ok "192.168.12.1"
  | Remote => Err "Remote connection is not implemented in phase 1"
  end.
Definition offer_payload (sdp : string) : string :=
  value_display (obj
    [("id", JString (if decide (method = LocalSTA) then "STA_localNetwork" else ""));
     ("sdp", JString sdp); ("type", JString "offer"); ("token", JString "")]).

(** [connect_inner] up to its first await. *)
Definition connect_inner (i : nat) (k : kind) s : ConnectionService :=
  match target_ip with
  | Err e => fail i k e s
  | Ok _ => goto i (Running true AtOffer) (call i PrepareOffer s)
  end.
Definition connect_in_attempt (i : nat) (k : kind) s : ConnectionService :=
  let s := set_connected false s in
  if reconnects k then goto i (Running true AtClose) (call i Close (set_connected false s))
  else connect_inner i k s.

(** The awaited call of the polled operation returned [out]; the code runs on
    to its next await. *)
Definition advance (i : nat) (k : kind) (st : stage) (out : PortResult string) s : ConnectionService :=
  match st, out with
  | AtStart, _ =>
      if validated k then goto i (Running true AtAudio) (call i StopAudio s)
      else connect_in_attempt i k s
  | AtAudio, Ok _ =>
      goto i (Running true AtIngress) (call i PrepareIngress (call i StopBackground s))
  | AtIngress, Ok _ => connect_in_attempt i k s
  | AtClose, _ => connect_inner i k s
  | AtOffer, Ok sdp =>
      match target_ip with
      | Ok target => goto i (Running true AtExchange) (call i (ExchangeSdp target (offer_payload sdp)) s)
      | Err e => fail i k e s
      end
  | AtExchange, Ok answer => goto i (Running true AtAnswer) (call i (ApplyAnswer answer) s)
  | AtAnswer, Ok _ =>
      let s := set_connected true s in
      if validated k then goto i (Running true AtOpen) (call i WaitOpen s) else finish i (Ok ()) s
  | AtOpen, Ok _ => finish i (Ok ()) s
  | _, Err e => fail i k e s
  end.

(** [connect_inner] is under the 15 s timeout. *)
Definition timed (st : stage) : bool :=
  match st with AtOffer | AtExchange | AtAnswer => true | _ => false end.
Definition timeout_error (diagnostic : option string) : string :=
  match diagnostic with
  | Some detail => "Connection attempt timed out: " +:+ detail
  | None => "Connection attempt timed out"
  end.

(** [ConnectionAttempt::run] up to its first poll, and the start of the
    disconnects. *)
Definition run (i : nat) (t : Task) s : ConnectionService :=
  match t_kind t with
  | KDisconnect => rollback_connection i (Ok ()) s
  | KDisconnectSession => goto i (Stopping (Ok ())) (call i StopAudio s)
  | k =>
      if negb (t_seen t =? version s) then fail i k cancelled s
      else goto i (Running false AtStart) (set_intentional false s)
  end.

(** The destructors of [ConnectionAttempt] and [SessionAttempt]. *)
Definition drop_attempt (i : nat) (k : kind) s : ConnectionService :=
  match k with
  | KSession _ | KDisconnectSession => goto i DropAudio (call i StopBackground s)
  | _ => goto i DropClose (set_connected false s)
  end.

Inductive conn_op :=
  | Spawn (k : kind)                        (* an operation is called *)
  | Acquire (i : nat)                       (* a waiting task gets the gate *)
  | Continue (i : nat)                      (* synchronous code and cleanup awaits that return *)
  | Poll (i : nat)                          (* the executor polls the [select!] *)
  | Yield (i : nat)                         (* ... and the operation is pending *)
  | Return_ (i : nat) (out : PortResult string)   (* the awaited call returns, in a poll *)
  | Timeout_ (i : nat) (diagnostic : option string)
  | DropFuture (i : nat).

Definition task_step (o : conn_op) (i : nat) (t : Task) s : ConnectionService :=
  match o, t_pc t with
  | Acquire _, Waiting =>
      match session_gate s with
      | Some _ => s
      | None => set_gate (Some i) (goto i (if retries (t_kind t) then Holding else Ready) s)
      end
  | Continue _, Holding =>
      if intentional_disconnect s
      then finish i (Err "Reconnect cancelled by intentional disconnect") s
      else goto i Ready s
  | Continue _, Ready => run i t s
  | Continue _, Stopping r => rollback_connection i r (call i StopBackground s)
  | Continue _, RollingBack r => finish i r s
  | Continue _, DropAudio => goto i DropWait (call i StopAudio s)
  | Continue _, DropWait => goto i DropClose (set_connected false s)
  | Continue _, DropClose => goto i DropClosing (call i Close s)
  | Continue _, DropClosing => set_gate None (goto i Gone s)
  | Poll _, Running false st =>
      if negb (t_seen t =? version s) then fail i (t_kind t) cancelled s
      else goto i (Running true st) s
  | Yield _, Running true (AtStart | AtIngress) => s
  | Yield _, Running true st => goto i (Running false st) s
  | Return_ _ out, Running true st => advance i (t_kind t) st out s
  | Timeout_ _ diagnostic, Running true st =>
      if timed st then fail i (t_kind t) (timeout_error diagnostic) s else s
  | DropFuture _, Waiting => goto i Gone s
  | DropFuture _, Running false AtStart => s
  | DropFuture _, (Running false _ | Stopping _ | RollingBack _) => drop_attempt i (t_kind t) s
  | _, _ => s
  end.
Definition conn_step (o : conn_op) s : ConnectionService :=
  match o with
  | Spawn k => begin_attempt k s
  | Acquire i | Continue i | Poll i | Yield i | Return_ i _ | Timeout_ i _ | DropFuture i =>
      match tasks s !! i with Some t => task_step o i t s | None => s end
  end.
Definition conn_run (l : list conn_op) s : ConnectionService := foldl (λ s o, conn_step o s) s l.
End connection.
