(* ===== verification/ConnectionProps.v ===== *)
(** * Properties of the connection attempts

    One invariant ([conn_inv]) of all interleavings of attempts, disconnects,
    cancellations, timeouts and dropped futures, and what follows from it: the
    gate serialises the attempts, a completed disconnect is final, no transport
    is left open by an attempt that failed, and a successful validated attempt
    made exactly the calls of its script. *)
From S2P Require Import Prelude Floats Json Constants Connection.
#[local] Open Scope Z_scope.

(** ** Specification *)
Definition holds_gate (p : pc) : bool :=
  match p with Waiting | Done _ | Gone => false | _ => true end.

(** The calls of one task. *)
Definition calls_of (i : nat) (l : list (nat * Call)) : list Call :=
  (filter (λ c, c.1 = i) l).*2.

(** The tasks that made the calls, one entry per uninterrupted block. *)
Definition push_owner (o : list nat) (i : nat) : list nat :=
  match last o with Some j => if decide (i = j) then o else o ++ [i] | None => [i] end.
Definition owners (l : list (nat * Call)) : list nat := foldl push_owner [] l.*1.

(** The transport after the calls: prepared and not closed since. *)
Definition transport_step (o : bool) (c : Call) : bool :=
  match c with PrepareOffer => true | Close => false | _ => o end.
Definition open_transport (l : list (nat * Call)) : bool := foldl transport_step false l.*2.

Section props.
Context (method : WebRTCConnectionMethod) (ip : option string) `{SerdeJson}.
Implicit Types (s : ConnectionService) (t : Task).

Definition target : string := default "" (ok (target_ip method ip)).
Definition prelude_calls (k : kind) : list Call :=
  if validated k then [StopAudio; StopBackground; PrepareIngress] else [].
Definition close_calls (k : kind) : list Call := if reconnects k then [Close] else [].
(** What a successful attempt calls, in order. *)
Definition script (k : kind) (sdp answer : string) : list Call :=
  prelude_calls k ++ close_calls k ++
  [PrepareOffer; ExchangeSdp target (offer_payload method sdp); ApplyAnswer answer] ++
  (if validated k then [WaitOpen] else []).

(** The calls made when the operation is at a stage. *)
Definition position (k : kind) (st : stage) : nat :=
  let n := length (prelude_calls k) in
  let m := (n + length (close_calls k))%nat in
  match st with
  | AtStart => 0 | AtAudio => 1 | AtIngress => 3 | AtClose => n + 1
  | AtOffer => m + 1 | AtExchange => m + 2 | AtAnswer => m + 3 | AtOpen => m + 4
  end%nat.
Definition stage_ok (k : kind) (st : stage) : Prop :=
  match st with
  | AtAudio | AtIngress | AtOpen => validated k = true
  | AtClose => reconnects k = true
  | _ => True
  end.

Definition disconnect_script (k : kind) : list Call :=
  match k with KDisconnectSession => [StopAudio; StopBackground; Close] | _ => [Close] end.

Definition task_ok (t : Task) (l : list Call) : Prop :=
  let k := t_kind t in
  match t_pc t with
  | Waiting | Ready => l = []
  | Holding => retries k = true ∧ l = []
  | Running _ st => disconnecting k = false ∧ stage_ok k st ∧
      ∃ sdp answer, l = take (position k st) (script k sdp answer)
  | Stopping (Ok _) => k = KDisconnectSession ∧ l = [StopAudio]
  | RollingBack (Ok _) => disconnecting k = true ∧ l = disconnect_script k
  | Done (Ok _) =>
      if disconnecting k then l = disconnect_script k
      else ∃ sdp answer, l = script k sdp answer
  | _ => True
  end.

(** What the holder of the gate knows of the transport. *)
Definition phase (i : nat) (p : pc) (l : list (nat * Call)) (b : bool) : Prop :=
  match p with
  | Holding | Ready => open_transport l = b
  | Running _ (AtOffer | AtExchange) => open_transport l = true
  | Running _ AtAnswer => open_transport l = true ∧ ∃ a, last l = Some (i, ApplyAnswer a)
  | Running _ AtOpen => open_transport l = true ∧ b = true
  | RollingBack _ | DropClosing => open_transport l = false ∧ b = false
  | DropClose | Running _ AtClose => b = false
  | _ => True
  end.

(** The attempt [i] that connected: no disconnect that completed is newer than
    it, and the engine has not been touched since its answer. *)
Definition disconnected_before (n : Z) s : Prop :=
  ∀ d td, tasks s !! d = Some td → disconnecting (t_kind td) = true →
    t_pc td = Done (Ok tt) → t_seen td ≤ n.
Definition touches (c : Call) : Prop := c = Close ∨ c = PrepareOffer.
Definition connected_by (i : nat) s : Prop :=
  ∃ t pre answer post, tasks s !! i = Some t ∧ disconnecting (t_kind t) = false ∧
    disconnected_before (t_seen t) s ∧
    calls s = pre ++ (i, ApplyAnswer answer) :: post ∧ Forall (λ c, ¬ touches c.2) post.

Record conn_inv s : Prop := {
  ci_gate i t : tasks s !! i = Some t → holds_gate (t_pc t) = true ↔ session_gate s = Some i;
  ci_holder i : session_gate s = Some i → is_Some (tasks s !! i);
  ci_seen i t : tasks s !! i = Some t → t_seen t ≤ version s;
  ci_task i t : tasks s !! i = Some t → task_ok t (calls_of i (calls s));
  ci_known : Forall (λ c, is_Some (tasks s !! c.1)) (calls s);
  ci_serial : NoDup (owners (calls s));
  ci_last i : session_gate s = Some i → i ∈ (calls s).*1 → last (owners (calls s)) = Some i;
  ci_conn : is_connected s = true → ∃ i, connected_by i s;
  ci_passed i t b st : tasks s !! i = Some t → t_pc t = Running b st →
    disconnected_before (t_seen t) s;
  ci_phase i t : session_gate s = Some i → tasks s !! i = Some t →
    phase i (t_pc t) (calls s) (is_connected s);
  ci_idle : session_gate s = None → open_transport (calls s) = is_connected s;
}.

(** ** Lists of calls *)
Lemma calls_of_app i l l' : calls_of i (l ++ l') = calls_of i l ++ calls_of i l'.
Proof. unfold calls_of. by rewrite filter_app, fmap_app. Qed.
Lemma calls_of_own i (cs : list Call) : calls_of i (pair i <$> cs) = cs.
Proof.
  induction cs as [|c cs IH]; [done|]. unfold calls_of in *. rewrite fmap_cons, filter_cons.
  destruct (decide _); [|done]. by rewrite fmap_cons, IH.
Qed.
Lemma calls_of_other i j (cs : list Call) : i ≠ j → calls_of i (pair j <$> cs) = [].
Proof.
  intros Hne. induction cs as [|c cs IH]; [done|]. unfold calls_of in *.
  rewrite fmap_cons, filter_cons. by destruct (decide _).
Qed.
Lemma calls_of_nil i l : calls_of i l = [] → i ∉ l.*1.
Proof.
  intros Hl [[j c] [-> Hin]]%list_elem_of_fmap. simpl in *.
  assert (c ∈ calls_of j l) as Hc; [|rewrite Hl in Hc; by apply elem_of_nil in Hc].
  apply list_elem_of_fmap. exists (j, c). split; [done|]. by apply list_elem_of_filter.
Qed.

Lemma owners_snoc l i c : owners (l ++ [(i, c)]) = push_owner (owners l) i.
Proof. unfold owners. by rewrite fmap_app, foldl_app. Qed.
Lemma elem_of_push_owner o i j : j ∈ push_owner o i ↔ j ∈ o ∨ j = i.
Proof.
  unfold push_owner. destruct (last o) as [k|] eqn:Hk.
  - destruct (decide (i = k)) as [<-|]; [|set_solver].
    apply last_Some_elem_of in Hk. set_solver.
  - apply last_None in Hk as ->. set_solver.
Qed.
Lemma elem_of_owners l i : i ∈ owners l ↔ i ∈ l.*1.
Proof.
  induction l as [|[j c] l IH] using rev_ind; [done|].
  rewrite owners_snoc, elem_of_push_owner, IH, fmap_app. set_solver.
Qed.
Lemma last_push_owner o i : last (push_owner o i) = Some i.
Proof.
  unfold push_owner. destruct (last o) as [k|] eqn:Hk; [|done].
  destruct (decide (i = k)) as [<-|]; [done|]. by rewrite last_snoc.
Qed.

(** The owner of the last block may go on; a newcomer starts a block. *)
Lemma owners_extend i cs : ∀ l,
  NoDup (owners l) → (i ∈ l.*1 → last (owners l) = Some i) →
  NoDup (owners (l ++ (pair i <$> cs))) ∧
  (i ∈ (l ++ (pair i <$> cs)).*1 → last (owners (l ++ (pair i <$> cs))) = Some i).
Proof.
  induction cs as [|c cs IH]; intros l Hnd Hlast; [by rewrite app_nil_r|].
  rewrite fmap_cons, cons_middle, app_assoc. apply IH.
  - rewrite owners_snoc. unfold push_owner. destruct (last (owners l)) as [j|] eqn:Hj.
    + destruct (decide (i = j)) as [|Hne]; [done|]. apply NoDup_app. split; [done|].
      split; [|apply NoDup_singleton]. intros x Hx ->%list_elem_of_singleton.
      apply elem_of_owners in Hx. specialize (Hlast Hx). congruence.
    + apply NoDup_singleton.
  - intros _. rewrite owners_snoc. apply last_push_owner.
Qed.

Lemma open_transport_app l l' :
  open_transport (l ++ l') = foldl transport_step (open_transport l) l'.*2.
Proof. unfold open_transport. by rewrite fmap_app, foldl_app. Qed.

(** ** Moves

    Every step of a task is a move: it changes its own program counter, the
    flags, and appends calls of its own. *)
Definition with_pc (p : pc) t : Task := {| t_kind := t_kind t; t_seen := t_seen t; t_pc := p |}.
Definition move (i : nat) (b b' : bool) (g : option nat) (p : pc) (cs : list Call) s :
    ConnectionService :=
  {| is_connected := b; intentional_disconnect := b'; cancellation := cancellation s;
     version := version s; session_gate := g; tasks := alter (with_pc p) i (tasks s);
     calls := calls s ++ (pair i <$> cs) |}.

Lemma move_nil i b b' g p s :
  move i b b' g p [] s = set_gate g (goto i p (set_intentional b' (set_connected b s))).
Proof. unfold move. simpl. by rewrite app_nil_r. Qed.

(** When a move of a task keeps the invariant. *)
Record good_move (i : nat) (t : Task) (b : bool) (g : option nat) (p : pc) (cs : list Call) s :
    Prop := {
  gm_gate :
    (session_gate s = Some i ∧ g = if holds_gate p then Some i else None) ∨
    (session_gate s = None ∧ t_pc t = Waiting ∧ cs = [] ∧ b = is_connected s ∧ g = Some i ∧
     holds_gate p = true) ∨
    (t_pc t = Waiting ∧ p = Gone ∧ cs = [] ∧ b = is_connected s ∧ g = session_gate s);
  gm_task : task_ok (with_pc p t) (calls_of i (calls s) ++ cs);
  gm_passed bb st : p = Running bb st →
    (∃ b st, t_pc t = Running b st) ∨ t_seen t = version s;
  gm_conn : b = true →
    Forall (λ c, ¬ touches c) cs ∧
    (is_connected s = true ∨ ∃ bb, t_pc t = Running bb AtAnswer);
  gm_disconnect : disconnecting (t_kind t) = true → p = Done (Ok tt) → b = false;
  gm_phase : g = Some i → phase i p (calls s ++ (pair i <$> cs)) b;
  gm_idle : g = None → open_transport (calls s ++ (pair i <$> cs)) = b;
}.

Lemma move_lookup i b b' g p cs s t j tj :
  tasks s !! i = Some t → tasks (move i b b' g p cs s) !! j = Some tj →
  (j = i ∧ tj = with_pc p t) ∨ (j ≠ i ∧ tasks s !! j = Some tj).
Proof.
  intros Ht. simpl. destruct (decide (j = i)) as [->|].
  - rewrite list_lookup_alter_eq, Ht. simpl. intros [= <-]. by left.
  - rewrite list_lookup_alter_ne by done. intros Hj. right. by split.
Qed.
Lemma move_is_Some i b b' g p cs s j :
  is_Some (tasks (move i b b' g p cs s) !! j) ↔ is_Some (tasks s !! j).
Proof.
  simpl. destruct (decide (j = i)) as [->|].
  - rewrite list_lookup_alter_eq. apply fmap_is_Some.
  - by rewrite list_lookup_alter_ne by done.
Qed.

Lemma before_move n i t b b' g p cs s :
  tasks s !! i = Some t → disconnected_before n s →
  (disconnecting (t_kind t) = true → p = Done (Ok tt) → t_seen t ≤ n) →
  disconnected_before n (move i b b' g p cs s).
Proof.
  intros Ht Hb Hi d td Hd Hk Hp.
  destruct (move_lookup _ _ _ _ _ _ _ _ _ _ Ht Hd) as [[-> ->]|[_ Hd']]; [by apply Hi|by eapply Hb].
Qed.

Section move_inv.
Context (s : ConnectionService) (i : nat) (t : Task) (b b' : bool) (g : option nat) (p : pc)
  (cs : list Call).
Hypothesis (Hinv : conn_inv s) (Ht : tasks s !! i = Some t) (Hgm : good_move i t b g p cs s).
Local Abbreviation s' := (move i b b' g p cs s).

Lemma waiting_no_calls : t_pc t = Waiting → i ∉ (calls s).*1 ∧ session_gate s ≠ Some i.
Proof.
  intros Hw. split.
  - apply calls_of_nil. pose proof (ci_task s Hinv i t Ht) as Hok.
    unfold task_ok in Hok. by rewrite Hw in Hok.
  - rewrite <- (ci_gate s Hinv i t Ht), Hw. done.
Qed.

Lemma move_gate j tj : tasks s' !! j = Some tj → holds_gate (t_pc tj) = true ↔ g = Some j.
Proof.
  intros Hj. pose proof (ci_gate s Hinv) as Hg.
  destruct (gm_gate _ _ _ _ _ _ _ Hgm) as [[Hs ->]|[(Hs & Hw & _ & _ & -> & Hp)|(Hw & -> & _ & _ & ->)]];
    destruct (move_lookup _ _ _ _ _ _ _ _ _ _ Ht Hj) as [[-> ->]|[Hne Hj']]; simpl.
  - destruct (holds_gate p); naive_solver.
  - rewrite (Hg j tj Hj'), Hs. destruct (holds_gate p); naive_solver.
  - by rewrite Hp.
  - rewrite (Hg j tj Hj'), Hs. naive_solver.
  - destruct (waiting_no_calls Hw). naive_solver.
  - by apply Hg.
Qed.

Lemma move_serial :
  NoDup (owners (calls s')) ∧ (g = Some i → i ∈ (calls s').*1 → last (owners (calls s')) = Some i).
Proof.
  assert (t_pc t = Waiting ∨ session_gate s = Some i) as Hcase
    by (destruct (gm_gate _ _ _ _ _ _ _ Hgm); naive_solver).
  destruct (owners_extend i cs (calls s)) as [Hnd Hlast]; [apply Hinv| |by split].
  destruct Hcase as [Hw|Hs]; [by destruct (waiting_no_calls Hw)|by apply Hinv].
Qed.

Lemma move_conn : b = true → ∃ j, connected_by j s'.
Proof.
  intros Hb. destruct (gm_conn _ _ _ _ _ _ _ Hgm Hb) as [Hcs Hor].
  assert (Forall (λ c, ¬ touches c.2) (pair i <$> cs)) as Hcs' by by apply Forall_fmap.
  assert (∀ n, disconnected_before n s → disconnected_before n s') as Hbefore.
  { intros n Hn. apply (before_move _ _ t); [done|done|]. intros Hk Hp.
    pose proof (gm_disconnect _ _ _ _ _ _ _ Hgm Hk Hp). congruence. }
  destruct Hor as [Hconn|[bb Hpc]].
  - destruct (ci_conn s Hinv Hconn) as (j & tj & pre & a & post & Hj & Hk & Hd & Hc & Hpost).
    exists j. destruct (decide (j = i)) as [->|Hne].
    + replace tj with t in * by congruence.
      exists (with_pc p t), pre, a, (post ++ (pair i <$> cs)). simpl.
      rewrite list_lookup_alter_eq, Ht, Hc, <- app_assoc, Forall_app. naive_solver.
    + exists tj, pre, a, (post ++ (pair i <$> cs)). simpl.
      rewrite list_lookup_alter_ne, Hj, Hc, <- app_assoc, Forall_app by done. naive_solver.
  - assert (session_gate s = Some i) as Hs
      by (rewrite <- (ci_gate s Hinv i t Ht), Hpc; done).
    pose proof (ci_phase s Hinv i t Hs Ht) as Hph. rewrite Hpc in Hph. destruct Hph as [_ [a Ha]].
    apply last_Some in Ha as [pre Hpre].
    pose proof (ci_task s Hinv i t Ht) as Hok. unfold task_ok in Hok. rewrite Hpc in Hok.
    exists i, (with_pc p t), pre, a, (pair i <$> cs). simpl.
    rewrite list_lookup_alter_eq, Ht, Hpre, <- app_assoc.
    pose proof (ci_passed s Hinv i t bb AtAnswer Ht Hpc). naive_solver.
Qed.

Lemma move_passed j tj bb st :
  tasks s' !! j = Some tj → t_pc tj = Running bb st → disconnected_before (t_seen tj) s'.
Proof.
  intros Hj Hpc.
  destruct (move_lookup _ _ _ _ _ _ _ _ _ _ Ht Hj) as [[-> ->]|[Hne Hj']].
  - simpl in *. apply (before_move _ _ t); [done| |by rewrite Hpc].
    destruct (gm_passed _ _ _ _ _ _ _ Hgm bb st Hpc) as [(b1 & st1 & Hr)|Hv].
    + by eapply (ci_passed s Hinv).
    + intros d td Hd _ _. rewrite Hv. by eapply (ci_seen s Hinv).
  - apply (before_move _ _ t); [done|by eapply (ci_passed s Hinv)|].
    assert (session_gate s = Some j) as Hs by (rewrite <- (ci_gate s Hinv j tj Hj'), Hpc; done).
    destruct (gm_gate _ _ _ _ _ _ _ Hgm); naive_solver.
Qed.

Lemma move_calls_of j : j ≠ i → calls_of j (calls s') = calls_of j (calls s).
Proof. intros Hne. simpl. rewrite calls_of_app, calls_of_other by done. by rewrite app_nil_r. Qed.

Lemma move_inv : conn_inv s'.
Proof.
  split.
  - apply move_gate.
  - intros j Hj. rewrite move_is_Some. simpl in Hj.
    destruct (gm_gate _ _ _ _ _ _ _ Hgm) as [[Hs ->]|[(?&?&?&?&->&?)|(_&_&_&_&->)]];
      [destruct (holds_gate p)| |by apply Hinv]; naive_solver.
  - intros j tj Hj. destruct (move_lookup _ _ _ _ _ _ _ _ _ _ Ht Hj) as [[-> ->]|[_ Hj']];
      [exact (ci_seen s Hinv i t Ht)|exact (ci_seen s Hinv j tj Hj')].
  - intros j tj Hj. destruct (move_lookup _ _ _ _ _ _ _ _ _ _ Ht Hj) as [[-> ->]|[Hne Hj']].
    + simpl. rewrite calls_of_app, calls_of_own. apply Hgm.
    + rewrite move_calls_of by done. by apply Hinv.
  - apply Forall_app. split.
    + eapply Forall_impl; [apply (ci_known s Hinv)|]. intros c Hc. by rewrite move_is_Some.
    + apply Forall_fmap, Forall_true. intros c. simpl. rewrite list_lookup_alter_eq, Ht. by eexists.
  - apply move_serial.
  - intros j Hj. assert (j = i ∨ j ≠ i ∧ session_gate s = Some j ∧ cs = []) as [->|(Hne & Hs & ->)].
    { simpl in Hj. destruct (gm_gate _ _ _ _ _ _ _ Hgm) as [[Hs ->]|[(?&?&?&?&->&?)|(_&_&?&_&->)]];
        [destruct (holds_gate p)| |destruct (decide (j = i))]; naive_solver. }
    + by apply move_serial.
    + simpl. rewrite app_nil_r. by apply Hinv.
  - apply move_conn.
  - apply move_passed.
  - intros j tj Hg Hj. destruct (move_lookup _ _ _ _ _ _ _ _ _ _ Ht Hj) as [[-> ->]|[Hne Hj']];
      [by apply Hgm|]. simpl in Hg.
    destruct (gm_gate _ _ _ _ _ _ _ Hgm) as [[Hs ->]|[(?&?&?&?&->&?)|(_&_&Hcs&Hb&->)]];
      [destruct (holds_gate p); naive_solver|naive_solver|].
    simpl. rewrite Hcs, Hb, app_nil_r. by apply Hinv.
  - intros Hg. by apply Hgm.
Qed.
End move_inv.

(** ** The steps are good moves *)
Definition is_move (i : nat) t s (s' : ConnectionService) : Prop :=
  ∃ b b' g p cs, s' = move i b b' g p cs s ∧ good_move i t b g p cs s.

Lemma is_move_inv i t s s' : conn_inv s → tasks s !! i = Some t → is_move i t s s' → conn_inv s'.
Proof. intros Hinv Ht (b & b' & g & p & cs & -> & Hgm). by eapply move_inv. Qed.

Lemma set_connected_same s : set_connected (is_connected s) s = s.
Proof. by destruct s. Qed.

(** A step of the holder of the gate. *)
Lemma holder_move i t s b b' p cs :
  session_gate s = Some i →
  task_ok (with_pc p t) (calls_of i (calls s) ++ cs) →
  (∀ bb st, p = Running bb st → (∃ b st, t_pc t = Running b st) ∨ t_seen t = version s) →
  (b = true → Forall (λ c, ¬ touches c) cs ∧
     (is_connected s = true ∨ ∃ bb, t_pc t = Running bb AtAnswer)) →
  (disconnecting (t_kind t) = true → p = Done (Ok tt) → b = false) →
  (if holds_gate p then phase i p (calls s ++ (pair i <$> cs)) b
   else open_transport (calls s ++ (pair i <$> cs)) = b) →
  is_move i t s (move i b b' (if holds_gate p then Some i else None) p cs s).
Proof.
  intros Hs Hok Hrun Hb Hd Hph. do 5 eexists. split; [reflexivity|].
  split; [by left|done|done|done|done|..]; destruct (holds_gate p); done.
Qed.

Ltac no_touch := repeat (constructor; [by intros [|]|]); constructor.

Lemma fail_move i t s b e :
  session_gate s = Some i → (b = true → is_connected s = true) →
  is_move i t s (fail i (t_kind t) e (set_connected b s)).
Proof.
  intros Hs Hb. unfold fail. destruct (validated (t_kind t)).
  - pose proof (holder_move i t s b (intentional_disconnect s) (Stopping (Err e)) [StopAudio] Hs) as Hm.
    simpl in Hm. rewrite <- Hs in Hm. apply Hm; try done. intros Hbt. split; [no_touch|]. auto.
  - pose proof (holder_move i t s false (intentional_disconnect s) (RollingBack (Err e)) [Close] Hs) as Hm.
    simpl in Hm. rewrite <- Hs in Hm. apply Hm; try done. by rewrite open_transport_app.
Qed.

Lemma script_m k sdp answer :
  take (length (prelude_calls k) + length (close_calls k)) (script k sdp answer) =
  prelude_calls k ++ close_calls k.
Proof. unfold script. by rewrite app_assoc, take_app_length' by (by rewrite length_app). Qed.

Lemma script_take k sdp answer l n :
  l = prelude_calls k ++ close_calls k →
  take (length (prelude_calls k) + length (close_calls k) + n) (script k sdp answer) =
  l ++ take n ([PrepareOffer; ExchangeSdp target (offer_payload method sdp); ApplyAnswer answer] ++
               (if validated k then [WaitOpen] else [])).
Proof.
  intros ->. unfold script. rewrite app_assoc, take_app_add'; [done|]. by rewrite length_app.
Qed.

Section running.
Context (s : ConnectionService) (i : nat) (t : Task) (bb : bool) (st : stage).
Hypothesis (Hinv : conn_inv s) (Ht : tasks s !! i = Some t) (Hpc : t_pc t = Running bb st).

Lemma running_facts :
  session_gate s = Some i ∧ disconnecting (t_kind t) = false ∧ stage_ok (t_kind t) st ∧
  (∃ sdp answer, calls_of i (calls s) = take (position (t_kind t) st) (script (t_kind t) sdp answer)) ∧
  phase i (t_pc t) (calls s) (is_connected s).
Proof.
  assert (session_gate s = Some i) as Hs by (rewrite <- (ci_gate s Hinv i t Ht), Hpc; done).
  pose proof (ci_task s Hinv i t Ht) as Hok. unfold task_ok in Hok. rewrite Hpc in Hok.
  split; [done|]. pose proof (ci_phase s Hinv i t Hs Ht). naive_solver.
Qed.

(** An operation goes on to a further await. *)
Lemma running_move b b' bb' st' cs :
  stage_ok (t_kind t) st' →
  (∃ sdp answer, calls_of i (calls s) ++ cs =
     take (position (t_kind t) st') (script (t_kind t) sdp answer)) →
  (b = true → Forall (λ c, ¬ touches c) cs ∧ (is_connected s = true ∨ st = AtAnswer)) →
  phase i (Running bb' st') (calls s ++ (pair i <$> cs)) b →
  is_move i t s (move i b b' (Some i) (Running bb' st') cs s).
Proof.
  intros Hst Hcs Hb Hph. destruct running_facts as (Hs & Hd & _).
  apply (holder_move i t s b b' (Running bb' st') cs Hs); try done.
  - eauto.
  - intros Hbt. destruct (Hb Hbt) as [? [?| ->]]; eauto.
Qed.

Lemma running_fail e : is_move i t s (fail i (t_kind t) e s).
Proof.
  rewrite <- (set_connected_same s) at 2. apply fail_move; [|done]. apply running_facts.
Qed.

Lemma running_inner :
  calls_of i (calls s) = prelude_calls (t_kind t) ++ close_calls (t_kind t) →
  is_move i t s (connect_inner method ip i (t_kind t) (set_connected false s)).
Proof.
  intros Hl. destruct running_facts as (Hs & _). unfold connect_inner.
  destruct (target_ip method ip) as [tgt|e].
  - pose proof (running_move false (intentional_disconnect s) true AtOffer [PrepareOffer] I) as Hm.
    rewrite <- Hs in Hm. apply Hm; [|done|simpl; by rewrite open_transport_app].
    exists "", "". simpl position. by rewrite (script_take _ _ _ _ 1 Hl).
  - by apply fail_move.
Qed.

Lemma running_connect :
  calls_of i (calls s) = prelude_calls (t_kind t) →
  is_move i t s (connect_in_attempt method ip i (t_kind t) s).
Proof.
  intros Hl. destruct running_facts as (Hs & _). unfold connect_in_attempt.
  destruct (reconnects (t_kind t)) eqn:Hr.
  - pose proof (running_move false (intentional_disconnect s) true AtClose [Close] Hr) as Hm.
    rewrite <- Hs in Hm. apply Hm; [|done|done].
    exists "", "". rewrite Hl. unfold script, position, close_calls. rewrite Hr.
    by rewrite app_assoc, take_app_length' by (rewrite length_app; simpl; lia).
  - apply running_inner. unfold close_calls. by rewrite Hr, app_nil_r.
Qed.

Lemma running_ok :
  (∃ sdp answer, calls_of i (calls s) = script (t_kind t) sdp answer) →
  st = AtAnswer ∨ is_connected s = true → open_transport (calls s) = true →
  is_move i t s (finish i (Ok ()) (set_connected true s)).
Proof.
  intros Hcs Hst Hopen. destruct running_facts as (Hs & Hd & _).
  pose proof (holder_move i t s true (intentional_disconnect s) (Done (Ok ())) [] Hs) as Hm.
  rewrite move_nil in Hm. apply Hm; rewrite ?app_nil_r; try done.
  - unfold task_ok. simpl. by rewrite Hd.
  - intros _. split; [by constructor|]. destruct Hst as [->|?]; eauto.
  - congruence.
Qed.

(** A call that leaves the transport alone, to the next await. *)
Lemma running_call st' c :
  stage_ok (t_kind t) st' →
  (∃ sdp answer, calls_of i (calls s) ++ [c] =
     take (position (t_kind t) st') (script (t_kind t) sdp answer)) →
  ¬ touches c → phase i (Running true st') (calls s ++ [(i, c)]) (is_connected s) →
  is_move i t s (goto i (Running true st') (call i c s)).
Proof.
  intros Hst Hcs Hc Hph. destruct running_facts as (Hs & _).
  pose proof (running_move (is_connected s) (intentional_disconnect s) true st' [c] Hst Hcs) as Hm.
  rewrite <- Hs in Hm. apply Hm; [|done]. intros Hb. split; [by constructor|by left].
Qed.

(** The old tasks are stopped and the ingress prepared. *)
Lemma running_prepare :
  validated (t_kind t) = true → calls_of i (calls s) = [StopAudio] →
  is_move i t s (goto i (Running true AtIngress) (call i PrepareIngress (call i StopBackground s))).
Proof.
  intros Hv Hcs. destruct running_facts as (Hs & _).
  pose proof (running_move (is_connected s) (intentional_disconnect s) true AtIngress
    [StopBackground; PrepareIngress] Hv) as Hm.
  rewrite <- Hs in Hm. unfold call, goto, set_tasks. simpl. rewrite <- app_assoc.
  apply Hm; [|intros; split; [no_touch|by left]|done].
  exists "", "". rewrite Hcs. unfold script, prelude_calls. by rewrite Hv.
Qed.

(** The old transport is closed. *)
Lemma running_closed sdp answer :
  reconnects (t_kind t) = true → is_connected s = false →
  calls_of i (calls s) = take (position (t_kind t) AtClose) (script (t_kind t) sdp answer) →
  is_move i t s (connect_inner method ip i (t_kind t) s).
Proof.
  intros Hr Hconn Hcs. rewrite <- (set_connected_same s) at 2. rewrite Hconn. apply running_inner.
  rewrite Hcs, <- (script_m _ sdp answer). unfold position, close_calls. by rewrite Hr.
Qed.
End running.

(** The calls at stage position [m] are extended to position [n]. *)
Ltac script_at n m Hcs :=
  unfold position; rewrite (script_take _ _ _ _ n eq_refl), Hcs; unfold position;
  rewrite (script_take _ _ _ _ m eq_refl), <- !app_assoc.

(** The answer is applied: connected, or validation is awaited. *)
Lemma running_answered s i t bb (Hinv : conn_inv s) (Ht : tasks s !! i = Some t)
    (Hpc : t_pc t = Running bb AtAnswer) sdp answer :
  calls_of i (calls s) = take (position (t_kind t) AtAnswer) (script (t_kind t) sdp answer) →
  open_transport (calls s) = true ∧ (∃ a, last (calls s) = Some (i, ApplyAnswer a)) →
  is_move i t s
    (if validated (t_kind t) then goto i (Running true AtOpen) (call i WaitOpen (set_connected true s))
     else finish i (Ok ()) (set_connected true s)).
Proof.
  intros Hcs [Hopen _]. destruct (running_facts s i t _ _ Hinv Ht Hpc) as (Hs & _).
  destruct (validated (t_kind t)) eqn:Hv.
  - pose proof (running_move s i t _ _ Hinv Ht Hpc true (intentional_disconnect s) true AtOpen
      [WaitOpen] Hv) as Hm.
    rewrite <- Hs in Hm. apply Hm; [|intros; split; [no_touch|by right]|].
    + exists sdp, answer. script_at 4%nat 3%nat Hcs. by rewrite Hv.
    + simpl. by rewrite open_transport_app.
  - apply (running_ok s i t _ _ Hinv Ht Hpc); [|by left|done]. exists sdp, answer.
    rewrite Hcs. unfold position. rewrite (script_take _ _ _ _ 3 eq_refl).
    unfold script. rewrite Hv. by rewrite <- !app_assoc.
Qed.

(** Every outcome of every await is a good move. *)
Lemma advance_move s i t st out :
  conn_inv s → tasks s !! i = Some t → t_pc t = Running true st →
  is_move i t s (advance method ip i (t_kind t) st out s).
Proof.
  intros Hinv Ht Hpc.
  destruct (running_facts s i t _ _ Hinv Ht Hpc) as (Hs & Hd & Hst & (sdp & answer & Hcs) & Hph).
  rewrite Hpc in Hph.
  pose proof (running_fail s i t _ _ Hinv Ht Hpc) as Hfail.
  pose proof (running_call s i t _ _ Hinv Ht Hpc) as Hcall.
  unfold advance. destruct st; simpl in Hst; [|destruct out as [x|e]; try done..].
  - unfold position in Hcs. destruct (validated (t_kind t)) eqn:Hv.
    + apply Hcall; [done| |by intros [|]|done]. exists "", "".
      rewrite Hcs. unfold script, prelude_calls. by rewrite Hv.
    + apply (running_connect s i t _ _ Hinv Ht Hpc). rewrite Hcs. unfold prelude_calls. by rewrite Hv.
  - apply (running_prepare s i t _ _ Hinv Ht Hpc Hst).
    rewrite Hcs. unfold script, prelude_calls. by rewrite Hst.
  - apply (running_connect s i t _ _ Hinv Ht Hpc).
    rewrite Hcs. unfold script, prelude_calls. by rewrite Hst.
  - by apply (running_closed s i t _ _ Hinv Ht Hpc sdp answer).
  - by apply (running_closed s i t _ _ Hinv Ht Hpc sdp answer).
  - destruct (target_ip method ip) as [tgt|e] eqn:Htgt; [|done].
    apply Hcall; [done| |by intros [|]|by simpl; rewrite open_transport_app].
    exists x, "". script_at 2%nat 1%nat Hcs. simpl. unfold target. by rewrite Htgt.
  - apply Hcall; [done| |by intros [|]|].
    + exists sdp, x. by script_at 3%nat 2%nat Hcs.
    + simpl. rewrite open_transport_app. split; [done|]. exists x. by rewrite last_snoc.
  - by apply (running_answered s i t _ Hinv Ht Hpc sdp answer).
  - destruct Hph as [Hopen Hconn]. rewrite <- (set_connected_same s) at 2. rewrite Hconn.
    apply (running_ok s i t _ _ Hinv Ht Hpc); [|by right|done]. exists sdp, answer.
    rewrite Hcs. unfold position. rewrite (script_take _ _ _ _ 4 eq_refl).
    unfold script. rewrite Hst. by rewrite <- !app_assoc.
Qed.

(** The remaining steps of the holder. *)
Section holding.
Context (s : ConnectionService) (i : nat) (t : Task).
Hypothesis (Hinv : conn_inv s) (Ht : tasks s !! i = Some t).

Lemma holder_facts :
  holds_gate (t_pc t) = true →
  session_gate s = Some i ∧ task_ok t (calls_of i (calls s)) ∧
  phase i (t_pc t) (calls s) (is_connected s).
Proof.
  intros Hh. assert (session_gate s = Some i) as Hs by (by rewrite <- (ci_gate s Hinv i t Ht)).
  split; [done|]. split; [by apply Hinv|by apply Hinv].
Qed.

(** A step that calls nothing. *)
Lemma silent_move b b' p :
  holds_gate (t_pc t) = true →
  task_ok (with_pc p t) (calls_of i (calls s)) →
  (∀ bb st, p = Running bb st → (∃ b st, t_pc t = Running b st) ∨ t_seen t = version s) →
  (b = true → is_connected s = true) →
  (disconnecting (t_kind t) = true → p = Done (Ok tt) → b = false) →
  (if holds_gate p then phase i p (calls s) b else open_transport (calls s) = b) →
  is_move i t s (set_gate (if holds_gate p then Some i else None)
                   (goto i p (set_intentional b' (set_connected b s)))).
Proof.
  intros Hh Hok Hrun Hb Hd Hph. rewrite <- move_nil. destruct (holder_facts Hh) as (Hs & _).
  apply (holder_move i t s b b' p [] Hs); rewrite ?app_nil_r; try done.
  intros Hbt. split; [by constructor|auto].
Qed.

Lemma rollback_move r cs :
  holds_gate (t_pc t) = true →
  task_ok (with_pc (RollingBack r) t) (calls_of i (calls s) ++ cs ++ [Close]) →
  is_move i t s (rollback_connection i r
    {| is_connected := is_connected s; intentional_disconnect := intentional_disconnect s;
       cancellation := cancellation s; version := version s; session_gate := session_gate s;
       tasks := tasks s; calls := calls s ++ (pair i <$> cs) |}).
Proof.
  intros Hh Hok. destruct (holder_facts Hh) as (Hs & _).
  pose proof (holder_move i t s false (intentional_disconnect s) (RollingBack r) (cs ++ [Close]) Hs) as Hm.
  simpl in Hm. rewrite <- Hs in Hm. unfold rollback_connection, call, goto, set_tasks, set_connected.
  simpl. rewrite <- app_assoc. unfold move in Hm. rewrite fmap_app in Hm.
  apply Hm; try done. rewrite app_assoc, open_transport_app. by split.
Qed.

Lemma continue_Stopping r :
  t_pc t = Stopping r → is_move i t s (rollback_connection i r (call i StopBackground s)).
Proof.
  intros Hpc. destruct holder_facts as (Hs & Hok & _); [by rewrite Hpc|].
  apply (rollback_move r [StopBackground]); [by rewrite Hpc|].
  unfold task_ok in *. rewrite Hpc in Hok. simpl. destruct r as [[]|e]; [|done].
  by destruct Hok as [-> ->].
Qed.

(** The same without a change of the flags. *)
Lemma quiet_move p :
  holds_gate (t_pc t) = true →
  task_ok (with_pc p t) (calls_of i (calls s)) →
  (∀ bb st, p = Running bb st → ∃ b st, t_pc t = Running b st) →
  (disconnecting (t_kind t) = true → p = Done (Ok tt) → is_connected s = false) →
  (if holds_gate p then phase i p (calls s) (is_connected s)
   else open_transport (calls s) = is_connected s) →
  is_move i t s (set_gate (if holds_gate p then Some i else None) (goto i p s)).
Proof.
  intros Hh Hok Hrun Hd Hph.
  assert (set_intentional (intentional_disconnect s) (set_connected (is_connected s) s) = s) as Es
    by (by destruct s).
  rewrite <- Es at 2. apply silent_move; try done. intros bb st Hp. left. by eapply Hrun.
Qed.
Lemma quiet_goto p :
  holds_gate (t_pc t) = true → holds_gate p = true →
  task_ok (with_pc p t) (calls_of i (calls s)) →
  (∀ bb st, p = Running bb st → ∃ b st, t_pc t = Running b st) →
  phase i p (calls s) (is_connected s) →
  is_move i t s (goto i p s).
Proof.
  intros Hh Hp Hok Hrun Hph. destruct (holder_facts Hh) as (Hs & _).
  pose proof (quiet_move p Hh Hok Hrun) as Hm. rewrite Hp, <- Hs in Hm.
  apply Hm; [|done]. intros _ ->. done.
Qed.
(** One call that does not touch the transport, to a cleanup state. *)
Lemma call_move p c :
  holds_gate (t_pc t) = true → holds_gate p = true →
  task_ok (with_pc p t) (calls_of i (calls s) ++ [c]) →
  (∀ bb st, p ≠ Running bb st) → ¬ touches c →
  phase i p (calls s ++ [(i, c)]) (is_connected s) →
  is_move i t s (goto i p (call i c s)).
Proof.
  intros Hh Hp Hok Hrun Hc Hph. destruct (holder_facts Hh) as (Hs & _).
  pose proof (holder_move i t s (is_connected s) (intentional_disconnect s) p [c] Hs) as Hm.
  rewrite Hp, <- Hs in Hm. apply Hm; try done.
  - intros bb st ->. by destruct (Hrun bb st).
  - intros Hb. split; [by constructor|by left].
  - intros _ ->. done.
Qed.

Lemma continue_RollingBack r : t_pc t = RollingBack r → is_move i t s (finish i r s).
Proof.
  intros Hpc. destruct holder_facts as (Hs & Hok & Hph); [by rewrite Hpc|].
  rewrite Hpc in Hph. destruct Hph as [Hopen Hconn].
  apply (quiet_move (Done r)); try done; [by rewrite Hpc| |simpl; congruence].
  unfold task_ok in *. rewrite Hpc in Hok. simpl in *. destruct r as [[]|e]; [|done].
  by destruct Hok as [-> ->].
Qed.

Lemma continue_Holding :
  t_pc t = Holding →
  is_move i t s
    (if intentional_disconnect s
     then finish i (Err "Reconnect cancelled by intentional disconnect") s else goto i Ready s).
Proof.
  intros Hpc. destruct holder_facts as (Hs & Hok & Hph); [by rewrite Hpc|].
  rewrite Hpc in Hph. unfold task_ok in Hok. rewrite Hpc in Hok. destruct Hok as [_ Hok].
  destruct (intentional_disconnect s).
  - apply (quiet_move (Done (Err _))); try done. by rewrite Hpc.
  - apply quiet_goto; try done. by rewrite Hpc.
Qed.

Lemma continue_Ready : t_pc t = Ready → is_move i t s (run i t s).
Proof.
  intros Hpc. destruct holder_facts as (Hs & Hok & Hph); [by rewrite Hpc|].
  unfold task_ok in Hok. rewrite Hpc in Hok.
  assert (disconnecting (t_kind t) = false → is_move i t s
    (if negb (t_seen t =? version s) then fail i (t_kind t) cancelled s
     else goto i (Running false AtStart) (set_intentional false s))) as Hrun.
  { intros Hk. destruct (t_seen t =? version s) eqn:Hv; simpl.
    - apply Z.eqb_eq in Hv.
      pose proof (silent_move (is_connected s) false (Running false AtStart)) as Hm.
      simpl in Hm. rewrite <- Hs, set_connected_same in Hm.
      apply Hm; try done; [by rewrite Hpc| |by intros; right].
      unfold task_ok. simpl. rewrite Hok. split_and!; [done|done|]. by exists "", "".
    - rewrite <- (set_connected_same s) at 2. by apply fail_move. }
  unfold run. destruct (t_kind t) eqn:Hk; try (by apply Hrun).
  - pose proof (rollback_move (Ok tt) []) as Hm. simpl in Hm. rewrite app_nil_r in Hm.
    assert (task_ok (with_pc (RollingBack (Ok tt)) t) (calls_of i (calls s) ++ [Close])) as Hgo.
    { unfold task_ok. simpl. by rewrite Hk, Hok. }
    rewrite Hpc in Hm. specialize (Hm eq_refl Hgo). by destruct s.
  - apply call_move; try done; [by rewrite Hpc| |by intros [|]].
    unfold task_ok. simpl. by rewrite Hk, Hok.
Qed.

Lemma continue_Drop :
  match t_pc t with
  | DropAudio => is_move i t s (goto i DropWait (call i StopAudio s))
  | DropWait => is_move i t s (goto i DropClose (set_connected false s))
  | DropClose => is_move i t s (goto i DropClosing (call i Close s))
  | DropClosing => is_move i t s (set_gate None (goto i Gone s))
  | _ => True
  end.
Proof.
  destruct (t_pc t) eqn:Hpc; try done;
    (destruct holder_facts as (Hs & _ & Hph); [by rewrite Hpc|]); rewrite Hpc in Hph.
  - apply call_move; try done; [by rewrite Hpc|by intros [|]].
  - pose proof (silent_move false (intentional_disconnect s) DropClose) as Hm.
    simpl in Hm. rewrite <- Hs in Hm. apply Hm; try done. by rewrite Hpc.
  - pose proof (holder_move i t s (is_connected s) (intentional_disconnect s) DropClosing [Close] Hs) as Hm.
    simpl in Hm, Hph. rewrite <- Hs in Hm. apply Hm; try done; [by rewrite Hph|].
    rewrite open_transport_app. by split.
  - destruct Hph as [Hopen Hconn].
    apply (quiet_move Gone); try done; [by rewrite Hpc|simpl; congruence].
Qed.

Lemma drop_move : holds_gate (t_pc t) = true → is_move i t s (drop_attempt i (t_kind t) s).
Proof.
  intros Hh. destruct holder_facts as (Hs & _); [done|].
  assert (is_move i t s (goto i DropAudio (call i StopBackground s))) as Haudio
    by (apply call_move; try done; by intros [|]).
  assert (is_move i t s (goto i DropClose (set_connected false s))) as Hclose.
  { pose proof (silent_move false (intentional_disconnect s) DropClose Hh) as Hm.
    simpl in Hm. rewrite <- Hs in Hm. by apply Hm. }
  unfold drop_attempt. by destruct (t_kind t).
Qed.
End holding.

Lemma acquire_move s i t :
  conn_inv s → tasks s !! i = Some t → t_pc t = Waiting → session_gate s = None →
  is_move i t s (set_gate (Some i) (goto i (if retries (t_kind t) then Holding else Ready) s)).
Proof.
  intros Hinv Ht Hpc Hs. set (p := if retries (t_kind t) then Holding else Ready).
  assert (holds_gate p = true ∧ ∀ bb st, p ≠ Running bb st) as [Hp Hrun]
    by (unfold p; by destruct (retries _)).
  pose proof (ci_task s Hinv i t Ht) as Hok. unfold task_ok in Hok. rewrite Hpc in Hok.
  pose proof (ci_idle s Hinv Hs) as Hopen.
  exists (is_connected s), (intentional_disconnect s), (Some i), p, []. split.
  { rewrite move_nil. by destruct s. }
  split; rewrite ?app_nil_r; simpl; try done.
  - right. left. by split_and!.
  - unfold task_ok, p. simpl. by destruct (retries _) eqn:Hr; rewrite ?Hr.
  - intros bb st Hb. by destruct (Hrun bb st).
  - intros Hb. split; [by constructor|by left].
  - intros _ Hb. by rewrite Hb in Hp.
  - intros _. unfold p. by destruct (retries _).
Qed.
Lemma abandon_move s i t :
  conn_inv s → tasks s !! i = Some t → t_pc t = Waiting → is_move i t s (goto i Gone s).
Proof.
  intros Hinv Ht Hpc.
  assert (session_gate s ≠ Some i) as Hs by (rewrite <- (ci_gate s Hinv i t Ht), Hpc; done).
  exists (is_connected s), (intentional_disconnect s), (session_gate s), Gone, []. split.
  { rewrite move_nil. by destruct s. }
  split; rewrite ?app_nil_r; simpl; try done.
  - right. right. by split_and!.
  - intros Hb. split; [by constructor|by left].
  - apply Hinv.
Qed.

Lemma task_step_move o i t s :
  conn_inv s → tasks s !! i = Some t →
  task_step method ip o i t s = s ∨ is_move i t s (task_step method ip o i t s).
Proof.
  intros Hinv Ht. pose proof (continue_Drop s i t Hinv Ht) as Hdrop.
  pose proof (drop_move s i t Hinv Ht) as Hdropped.
  assert (∀ b st, t_pc t = Running b st → ∀ e, is_move i t s (fail i (t_kind t) e s)) as Hfail
    by (intros b st Hpc e; exact (running_fail s i t b st Hinv Ht Hpc e)).
  unfold task_step. destruct (t_pc t) as [| | |polled st|r|r|r| | | | |] eqn:Hpc.
  - destruct o; try by left.
    + destruct (session_gate s) eqn:Hs; [by left|]. right. by apply acquire_move.
    + right. by apply abandon_move.
  - destruct o; try by left. right. by apply continue_Holding.
  - destruct o; try by left. right. by apply continue_Ready.
  - destruct (running_facts s i t _ _ Hinv Ht Hpc) as (Hs & Hd & Hst & (sdp & answer & Hcs) & Hph).
    rewrite Hpc in Hph.
    assert (∀ b, is_move i t s (goto i (Running b st) s)) as Hgo.
    { intros b. apply quiet_goto; try done; [by rewrite Hpc| |by eauto].
      unfold task_ok. simpl. eauto. }
    destruct o, polled; try by left.
    + right. destruct (t_seen t =? version s); simpl; [apply Hgo|by eapply Hfail].
    + destruct st; try (by left); right; apply Hgo.
    + right. by apply advance_move.
    + destruct (timed st); [right|by left]. by eapply Hfail.
    + destruct st; try (by left); right; by apply Hdropped.
  - destruct o; try (by left); right; [by apply continue_Stopping|by apply Hdropped].
  - destruct o; try (by left); right; [by apply continue_RollingBack|by apply Hdropped].
  - destruct o; by left.
  - destruct o; try (by left); by right.
  - destruct o; try (by left); by right.
  - destruct o; try (by left); by right.
  - destruct o; try (by left); by right.
  - destruct o; by left.
Qed.

(** ** The invariant holds in every execution *)
Lemma new_inv : conn_inv new.
Proof. split; try done. constructor. Qed.

Lemma spawn_inv k s : conn_inv s → conn_inv (begin_attempt k s).
Proof.
  intros Hinv. set (t0 := {| t_kind := k; t_seen := version (begin_attempt k s); t_pc := Waiting |}).
  assert (tasks (begin_attempt k s) = tasks s ++ [t0]) as Htasks
    by (unfold t0, begin_attempt; by destruct (disconnecting k)).
  assert (calls (begin_attempt k s) = calls s ∧ session_gate (begin_attempt k s) = session_gate s ∧
    is_connected (begin_attempt k s) = is_connected s ∧ version s ≤ version (begin_attempt k s))
    as (Hcalls & Hgate & Hconn & Hver).
  { unfold begin_attempt, request_disconnect. destruct (disconnecting k); simpl; split_and!; try done; lia. }
  assert (∀ j tj, tasks (begin_attempt k s) !! j = Some tj →
    tasks s !! j = Some tj ∨ (tasks s !! j = None ∧ tj = t0)) as Hcase.
  { intros j tj. rewrite Htasks, lookup_app_Some. intros [?|[Hl Hj]]; [by left|right].
    apply list_lookup_singleton_Some in Hj as [? <-]. split; [by apply lookup_ge_None|done]. }
  assert (∀ n, disconnected_before n s → disconnected_before n (begin_attempt k s)) as Hbefore.
  { intros n Hn d td Hd. destruct (Hcase d td Hd) as [Hd'|[_ ->]]; [by eapply Hn|done]. }
  assert (∀ j, is_Some (tasks s !! j) → is_Some (tasks (begin_attempt k s) !! j)) as Hsome.
  { intros j Hj. rewrite Htasks, lookup_app_l; [done|]. by apply lookup_lt_is_Some. }
  split; rewrite ?Hcalls, ?Hgate, ?Hconn.
  - intros j tj Hj. destruct (Hcase j tj Hj) as [Hj'|[Hn ->]]; [by apply Hinv|].
    split; [done|]. intros Hs. destruct (ci_holder s Hinv j Hs). congruence.
  - intros j Hj. apply Hsome. by apply Hinv.
  - intros j tj Hj. destruct (Hcase j tj Hj) as [Hj'|[_ ->]]; [|done].
    pose proof (ci_seen s Hinv j tj Hj'). lia.
  - intros j tj Hj. destruct (Hcase j tj Hj) as [Hj'|[Hn ->]]; [by apply Hinv|].
    unfold task_ok. simpl. unfold calls_of.
    pose proof (ci_known s Hinv) as Hk. clear -Hk Hn.
    induction (calls s) as [|c l IH]; [done|]. apply Forall_cons in Hk as [Hc Hk].
    rewrite filter_cons_False; [by apply IH|]. intros <-. destruct Hc. congruence.
  - eapply Forall_impl; [apply (ci_known s Hinv)|]. intros c. apply Hsome.
  - apply Hinv.
  - apply Hinv.
  - intros Hc. destruct (ci_conn s Hinv Hc) as (i & t & pre & a & post & Ht & Hk & Hd & Hcs & Hp).
    exists i, t, pre, a, post. rewrite Hcalls, Htasks. split_and!; try done; [|by apply Hbefore].
    by apply lookup_app_l_Some.
  - intros j tj bb st Hj Hpc. destruct (Hcase j tj Hj) as [Hj'|[_ ->]]; [|done].
    apply Hbefore. by eapply (ci_passed s Hinv).
  - intros j tj Hs Hj. destruct (Hcase j tj Hj) as [Hj'|[Hn ->]]; [by apply Hinv|done].
  - apply Hinv.
Qed.

Lemma conn_step_inv o s : conn_inv s → conn_inv (conn_step method ip o s).
Proof.
  intros Hinv. unfold conn_step. destruct o as [k|i|i|i|i|i out|i d|i]; [by apply spawn_inv|..];
    (destruct (tasks s !! i) as [t|] eqn:Ht; [|done]);
    match goal with |- conn_inv (task_step _ _ ?o _ _ _) =>
      destruct (task_step_move o i t s Hinv Ht) as [->|Hm]; [done|] end;
    by eapply is_move_inv.
Qed.

Lemma conn_run_inv l : conn_inv (conn_run method ip l new).
Proof.
  induction l as [|o l IH] using rev_ind; [apply new_inv|].
  unfold conn_run in *. rewrite foldl_app. by apply conn_step_inv.
Qed.

(** C6: sessions are serialised: in every interleaving at most one task is past
    the gate, and the calls of each attempt, disconnect or cleanup into the
    engine, the data channel and the audio playback are one uninterrupted
    block of all calls made. *)
Theorem sessions_serialised l :
  let s := conn_run method ip l new in
  NoDup (owners (calls s)) ∧
  ∀ i j ti tj, tasks s !! i = Some ti → tasks s !! j = Some tj →
    holds_gate (t_pc ti) = true → holds_gate (t_pc tj) = true → i = j.
Proof.
  pose proof (conn_run_inv l) as Hinv. split; [apply Hinv|].
  intros i j ti tj Hi Hj. rewrite (ci_gate _ Hinv i ti Hi), (ci_gate _ Hinv j tj Hj). congruence.
Qed.

(** C5: a disconnect is final: whenever the service is connected, it is by an
    attempt that handed its answer to the engine, with no close or new offer since,
    and which began after the request of every disconnect that has completed; an
    older attempt, running or queued, can never leave it connected. *)
Theorem disconnect_final l :
  let s := conn_run method ip l new in
  is_connected s = true → ∃ i, connected_by i s.
Proof. intros s. apply conn_run_inv. Qed.

(** C7: no attempt leaks a transport: whenever no task holds the gate, the
    engine has an open peer (an offer prepared and not closed since) exactly
    if the service is connected. *)
Theorem idle_transport l :
  let s := conn_run method ip l new in
  session_gate s = None → open_transport (calls s) = is_connected s.
Proof. intros s. apply conn_run_inv. Qed.

(** An attempt that succeeded made exactly the calls of its script; for a
    validated session this is a fresh ingress generation after the old tasks
    are stopped, the old transport closed if it reconnects, the offer, its
    exchange with the right address, the answer, and the wait for validation. *)
Theorem attempt_script l i t :
  let s := conn_run method ip l new in
  tasks s !! i = Some t → disconnecting (t_kind t) = false → t_pc t = Done (Ok tt) →
  ∃ sdp answer, calls_of i (calls s) = script (t_kind t) sdp answer.
Proof.
  intros s Ht Hk Hpc. pose proof (ci_task _ (conn_run_inv l) i t Ht) as Hok.
  unfold task_ok in Hok. by rewrite Hpc, Hk in Hok.
Qed.

(** ** Termination

    [drive]: the executor runs task [i], the [n]-th awaited call returning
    [out n]. *)
Definition drive_op (i : nat) (out : PortResult string) (t : Task) : conn_op :=
  match t_pc t with
  | Running false _ => Poll i
  | Running true _ => Return_ i out
  | _ => Continue i
  end.
Fixpoint drive (n : nat) (i : nat) (out : nat → PortResult string) s : ConnectionService :=
  match n with
  | O => s
  | S n =>
      match tasks s !! i with
      | Some t => drive n i out (conn_step method ip (drive_op i (out n) t) s)
      | None => s
      end
  end.

Definition stage_rank (st : stage) : nat :=
  match st with
  | AtStart => 16 | AtAudio => 14 | AtIngress => 12 | AtClose => 10
  | AtOffer => 8 | AtExchange => 6 | AtAnswer => 4 | AtOpen => 2
  end.
Definition pc_rank (p : pc) : nat :=
  match p with
  | Waiting | Done _ | Gone => 0
  | RollingBack _ | DropClosing => 1
  | Stopping _ | DropClose => 2
  | DropWait => 3 | DropAudio => 4
  | Running true st => 2 + stage_rank st
  | Running false st => 3 + stage_rank st
  | Ready => 20 | Holding => 21
  end.

(** Task [i] is at [p] in [s], with the gate if [p] holds it. *)
Definition at_pc (i : nat) (t : Task) (p : pc) s : Prop :=
  tasks s !! i = Some (with_pc p t) ∧ (holds_gate p = true ∨ session_gate s = None).
Lemma at_goto i t p s :
  tasks s !! i = Some t → holds_gate p = true → at_pc i t p (goto i p s).
Proof. intros Ht Hp. split; [|by left]. simpl. by rewrite list_lookup_alter_eq, Ht. Qed.
Lemma at_release i t p s :
  tasks s !! i = Some t → at_pc i t p (set_gate None (goto i p s)).
Proof. intros Ht. split; [|by right]. simpl. by rewrite list_lookup_alter_eq, Ht. Qed.

Definition lowers (i : nat) (t : Task) (s' : ConnectionService) : Prop :=
  ∃ p, at_pc i t p s' ∧ (pc_rank p < pc_rank (t_pc t))%nat.
Lemma lowers_fail i t k e s : tasks s !! i = Some t →
  (2 < pc_rank (t_pc t))%nat → lowers i t (fail i k e s).
Proof.
  intros Ht Hr. unfold fail, lowers, rollback_connection. destruct (validated k).
  - exists (Stopping (Err e)). split; [by apply at_goto|done].
  - exists (RollingBack (Err e)). split; [by apply at_goto|simpl; lia].
Qed.
Lemma lowers_goto i t p s : tasks s !! i = Some t → holds_gate p = true →
  (pc_rank p < pc_rank (t_pc t))%nat → lowers i t (goto i p s).
Proof. intros. exists p. split; [by apply at_goto|done]. Qed.
Lemma lowers_release i t p s : tasks s !! i = Some t →
  (pc_rank p < pc_rank (t_pc t))%nat → lowers i t (set_gate None (goto i p s)).
Proof. intros. exists p. split; [by apply at_release|done]. Qed.

Lemma lowers_inner i t k s : tasks s !! i = Some t →
  (10 < pc_rank (t_pc t))%nat → lowers i t (connect_inner method ip i k s).
Proof.
  intros Ht Hr. unfold connect_inner. destruct (target_ip method ip).
  - by apply lowers_goto.
  - apply lowers_fail; [done|lia].
Qed.
Lemma lowers_connect i t k s : tasks s !! i = Some t →
  (12 < pc_rank (t_pc t))%nat → lowers i t (connect_in_attempt method ip i k s).
Proof.
  intros Ht Hr. unfold connect_in_attempt. destruct (reconnects k).
  - by apply lowers_goto.
  - apply lowers_inner; [done|lia].
Qed.

Lemma drive_lowers i t s out :
  tasks s !! i = Some t → holds_gate (t_pc t) = true →
  lowers i t (conn_step method ip (drive_op i out t) s).
Proof.
  intros Ht Hh. unfold drive_op, conn_step.
  destruct (t_pc t) as [| | |[|] st|r|r|r| | | | |] eqn:Hpc; try done;
    rewrite Ht; unfold task_step; rewrite Hpc.
  - destruct (intentional_disconnect s); [apply lowers_release|apply lowers_goto]; try done;
      rewrite Hpc; simpl; lia.
  - unfold run. assert (∀ s', tasks s' !! i = Some t →
      lowers i t (if negb (t_seen t =? version s) then fail i (t_kind t) cancelled s
                  else goto i (Running false AtStart) s')) as Hrun.
    { intros s' Hs'. destruct (negb _); [apply lowers_fail|apply lowers_goto]; try done;
        rewrite Hpc; simpl; lia. }
    destruct (t_kind t); try (by apply Hrun); apply lowers_goto; try done; rewrite Hpc; simpl; lia.
  - unfold advance. destruct st, out;
      repeat first [apply lowers_goto|apply lowers_fail|apply lowers_connect|apply lowers_inner
                   |apply lowers_release|case_match]; try done; rewrite Hpc; simpl; lia.
  - destruct (negb _); [apply lowers_fail|apply lowers_goto]; try done; rewrite Hpc; simpl; lia.
  - apply lowers_goto; try done. rewrite Hpc. simpl. lia.
  - apply lowers_release; try done. rewrite Hpc. simpl. lia.
  - apply lowers_goto; try done. rewrite Hpc. simpl. lia.
  - apply lowers_goto; try done. rewrite Hpc. simpl. lia.
  - apply lowers_goto; try done. rewrite Hpc. simpl. lia.
  - apply lowers_release; try done. rewrite Hpc. simpl. lia.
Qed.

Lemma drive_idle n i out s t :
  tasks s !! i = Some t → holds_gate (t_pc t) = false → session_gate s = None →
  session_gate (drive n i out s) = None.
Proof.
  intros Ht Hh Hs. induction n as [|n IH]; [done|]. simpl. rewrite Ht.
  assert (conn_step method ip (drive_op i (out n) t) s = s) as ->; [|done].
  unfold drive_op, conn_step. destruct (t_pc t) eqn:Hpc; try done; rewrite Ht; unfold task_step;
    by rewrite Hpc.
Qed.

Lemma drive_releases out : ∀ n i t s,
  tasks s !! i = Some t → holds_gate (t_pc t) = true → (pc_rank (t_pc t) ≤ n)%nat →
  session_gate (drive n i out s) = None.
Proof.
  induction n as [|n IH]; intros i t s Ht Hh Hr.
  { exfalso. destruct (t_pc t) as [| | |[] []| | | | | | | |]; simpl in *; done || lia. }
  simpl. rewrite Ht. destruct (drive_lowers i t s (out n) Ht Hh) as (p & [Hp Hor] & Hlt).
  destruct (holds_gate p) eqn:Hhp.
  - apply (IH i (with_pc p t)); [done|done|]. simpl. lia.
  - apply (drive_idle _ _ _ _ (with_pc p t)); [done|done|]. by destruct Hor.
Qed.

(** Whoever holds the gate gives it back: in any reachable state,
    cancelled or not, driving its task releases the gate after at most 21
    steps, whatever the engine, the signaling, the audio playback and the data
    channel return; so no attempt blocks a later connect or disconnect. *)
Theorem gate_released l i out :
  let s := conn_run method ip l new in
  session_gate s = Some i → session_gate (drive 21 i out s) = None.
Proof.
  intros s Hs. pose proof (conn_run_inv l) as Hinv. fold s in Hinv.
  destruct (ci_holder s Hinv i Hs) as [t Ht].
  assert (holds_gate (t_pc t) = true) as Hh by (by apply (ci_gate s Hinv i t Ht)).
  apply (drive_releases out 21 i t s Ht Hh).
  destruct (t_pc t) as [| | |[] []| | | | | | | |]; simpl; lia.
Qed.
End props.

(** ** An execution

    A validated session on the access point connects while a reconnect waits;
    a disconnect cancels the reconnect and closes the session. *)
#[local] Instance demo_json : SerdeJson := {|
  json_to_string _ := Ok ""; value_display _ := "offer-json"; f64_to_string _ := "";
  f64_to_fixed1 _ := "" |}.
Definition demo_connect : list conn_op :=
  [Spawn (KSession Connect); Spawn (KService true); Acquire 0; Continue 0; Poll 0;
   Return_ 0 (Ok ""); Return_ 0 (Ok ""); Return_ 0 (Ok ""); Return_ 0 (Ok "sdp"); Yield 0; Poll 0;
   Return_ 0 (Ok "answer"); Return_ 0 (Ok ""); Return_ 0 (Ok "")].
Definition demo_disconnect : list conn_op :=
  demo_connect ++ [Spawn KDisconnectSession; Acquire 1; Continue 1].
Local Abbreviation demo l := (conn_run LocalAP None l new).

Example demo_connected :
  is_connected (demo demo_connect) = true ∧ session_gate (demo demo_connect) = None ∧
  (calls (demo demo_connect)).*1 = replicate 7 0%nat.
Proof. vm_compute. done. Qed.

Lemma disconnect_final_witness : ∃ i, connected_by i (demo demo_connect).
Proof. apply (disconnect_final LocalAP None demo_connect). vm_compute. reflexivity. Defined.

Lemma idle_transport_witness : open_transport (calls (demo demo_connect)) = true.
Proof.
  rewrite (idle_transport LocalAP None demo_connect ltac:(vm_compute; reflexivity)).
  vm_compute. reflexivity.
Defined.

Lemma attempt_script_witness :
  ∃ sdp answer, calls_of 0 (calls (demo demo_connect)) =
    script LocalAP None (KSession Connect) sdp answer.
Proof.
  apply (attempt_script LocalAP None demo_connect 0
    {| t_kind := KSession Connect; t_seen := 0; t_pc := Done (Ok tt) |}); vm_compute; reflexivity.
Defined.

Lemma gate_released_witness :
  session_gate (drive LocalAP None 21 1 (λ _, Err "unused") (demo demo_disconnect)) = None.
Proof. apply (gate_released LocalAP None demo_disconnect). vm_compute. reflexivity. Defined.
