(* ===== verification/Session.v ===== *)
(** * Sessions (src/src/connection/session.rs and the retry loops)

    [SessionOptions] and its validation, the assembly of a [UnitreeSession]
    from its components, and the two [auto_reconnect] loops.  The theorems: the
    assembly succeeds exactly for options within the resource ceilings, and a
    retry loop ends at the first success or intentional disconnect with the
    backoffs of its failures. *)
From S2P Require Import Prelude Floats Json Constants Channel Engine EngineProps Events Lidar.
From S2P Require Import Security Ports Service Connection.
#[local] Open Scope Z_scope.

Definition MAX_INCOMING_CAPACITY : Z := 4096.
Definition MAX_EVENT_CAPACITY : Z := 256.
Definition MAX_LIDAR_WORKERS : Z := 32.

Record SessionOptions := {
  connection_method : WebRTCConnectionMethod;
  so_ip : option string;
  validation_timeout : Z;
  incoming_capacity : Z;
  event_capacity : Z;
  lidar_workers : Z;
}.

(** [SessionOptions::new]. *)
Definition new_options (method : WebRTCConnectionMethod) (ip : option string)
    (available_parallelism : option Z) : SessionOptions :=
  let '(incoming, event) := match method with Remote => (512, 128) | _ => (256, 64) end in
  {| connection_method := method; so_ip := ip; validation_timeout := from_secs 5;
     incoming_capacity := incoming; event_capacity := event;
     lidar_workers := default_worker_count available_parallelism |}.

(** [SessionOptions::validate] at [Instant::now() = now]. *)
Definition validate_ceiling (c : string * Z * Z) : PortResult () :=
  let '(name, value, maximum) := c in
  if (value =? 0) || (maximum <? value)
  then Err (name +:+ " must be between 1 and " +:+ pretty maximum) else Ok ().
Fixpoint validate_ceilings (l : list (string * Z * Z)) : PortResult () :=
  match l with [] => Ok () | c :: l => _ ← validate_ceiling c; validate_ceilings l end.
Definition validate_options (o : SessionOptions) (now : Z) : PortResult () :=
  _ ← validate_ceilings
        [("incoming_capacity", incoming_capacity o, MAX_INCOMING_CAPACITY);
         ("event_capacity", event_capacity o, MAX_EVENT_CAPACITY);
         ("lidar_workers", lidar_workers o, MAX_LIDAR_WORKERS)];
  if (validation_timeout o =? 0)
     || match instant_checked_add now (validation_timeout o) with None => true | Some _ => false end
  then Err "validation_timeout must be positive and within the monotonic clock range"
  else Ok ().

(** ** Assembly *)
Record UnitreeSession (C : Type → Type) (T : Type) := {
  us_service : ConnectionService;
  us_datachannel : Service C T;
  us_validation_timeout : Z;
}.
Arguments us_service {C T}. Arguments us_datachannel {C T}. Arguments us_validation_timeout {C T}.

Section session.
Context {C : Type → Type} `{Chan C} `{Layout} `{Crypto} {T : Type} `{DataChannelPort T}.

(** [with_adapters_and_spawner]: [start] says which LiDAR workers the spawner
    starts and [router] whether it starts the router. *)
Definition with_adapters (o : SessionOptions) (now : Z)
    (create_engine : C IngressMessage → EventSender → T) (start : Z → bool) (router : bool)
    (session_id sequence : Z) : PortResult (UnitreeSession C T) :=
  _ ← validate_options o now;
  '(events_tx, ch) ← event_channel (event_capacity o);
  let engine := create_engine (bounded (incoming_capacity o)) events_tx in
  workers ← try_new (lidar_workers o) start;
  if router then
    Ok {| us_service := Connection.new;
          us_datachannel := new_service engine ch workers session_id sequence;
          us_validation_timeout := validation_timeout o |}
  else Err "Failed to start datachannel router".

(** The resource ceilings. *)
Definition options_ok (o : SessionOptions) (now : Z) : bool :=
  (1 <=? incoming_capacity o) && (incoming_capacity o <=? 4096) &&
  (1 <=? event_capacity o) && (event_capacity o <=? 256) &&
  (1 <=? lidar_workers o) && (lidar_workers o <=? 32) &&
  (0 <? validation_timeout o) && (now + validation_timeout o <=? instant_max).

Lemma validate_ceiling_Ok name value maximum :
  0 ≤ value → is_ok (validate_ceiling (name, value, maximum)) = (1 <=? value) && (value <=? maximum).
Proof.
  intros Hv. unfold validate_ceiling. destruct (value =? 0) eqn:Hz; simpl.
  - symmetry. apply andb_false_iff. left. lia.
  - destruct (maximum <? value) eqn:Hm; simpl; symmetry.
    + apply andb_false_iff. right. lia.
    + apply andb_true_iff. lia.
Qed.
Lemma is_ok_bind {E A B} (m : result E A) (f : A → result E B) :
  is_ok (m ≫= f) = match m with Ok a => is_ok (f a) | Err _ => false end.
Proof. by destruct m. Qed.
Lemma is_ok_then {E A B} (m : result E A) (k : result E B) :
  is_ok (_ ← m; k) = is_ok m && is_ok k.
Proof. by destruct m. Qed.

Lemma validate_options_ok o now :
  0 ≤ incoming_capacity o → 0 ≤ event_capacity o → 0 ≤ lidar_workers o → 0 ≤ validation_timeout o →
  is_ok (validate_options o now) = options_ok o now.
Proof.
  intros Hi He Hl Ht. unfold validate_options, options_ok, MAX_INCOMING_CAPACITY,
    MAX_EVENT_CAPACITY, MAX_LIDAR_WORKERS. unfold validate_ceilings.
  rewrite !is_ok_then, !validate_ceiling_Ok by done. simpl. rewrite andb_true_r.
  rewrite <- !andb_assoc. do 6 f_equal. unfold instant_checked_add.
  destruct (validation_timeout o =? 0) eqn:Hz; simpl.
  - symmetry. apply andb_false_iff. left. lia.
  - destruct (_ <=? instant_max); simpl; symmetry; apply andb_true_iff || apply andb_false_iff; lia.
Qed.

(** A session is assembled exactly when every option is within its ceiling
    (incoming queue 1–4096, events 1–256, LiDAR workers 1–32, a positive
    timeout within the clock) and its threads start; no accepted option is
    refused by the component it configures, and the session starts out
    disconnected, closed and without requests, its queues bounded as asked. *)
Theorem with_adapters_exact o now create start router sid seq :
  0 ≤ incoming_capacity o → 0 ≤ event_capacity o → 0 ≤ lidar_workers o → 0 ≤ validation_timeout o →
  match with_adapters o now create start router sid seq with
  | Ok u =>
      options_ok o now = true ∧ forallb start (seqZ 0 (lidar_workers o)) = true ∧ router = true ∧
      is_connected (us_service u) = false ∧ is_open (us_datachannel u) = false ∧
      pending_callbacks (requests (us_datachannel u)) = ∅ ∧
      bcapacity (budget (callback_events (routing (us_datachannel u)))) = event_capacity o ∧
      chan_capacity (lidar_queue (routing (us_datachannel u))) = 4
  | Err e => options_ok o now = false ∨ forallb start (seqZ 0 (lidar_workers o)) = false ∨ router = false
  end.
Proof.
  intros Hi He Hl Ht. pose proof (validate_options_ok o now Hi He Hl Ht) as Hv.
  unfold with_adapters. destruct (validate_options o now) as [[]|e]; [|by left].
  simpl in Hv. pose proof (eq_sym Hv) as Hok. unfold options_ok in Hok.
  rewrite !andb_true_iff, !Z.leb_le, Z.ltb_lt in Hok.
  destruct Hok as [[[[[[[? ?] ?] ?] ?] ?] ?] ?].
  simpl. unfold event_channel, try_new.
  replace (negb ((1 <=? event_capacity o) && (event_capacity o <=? 256))) with false by
    (symmetry; apply negb_false_iff, andb_true_iff; lia).
  replace (negb ((1 <=? lidar_workers o) && (lidar_workers o <=? 32))) with false by
    (symmetry; apply negb_false_iff, andb_true_iff; lia).
  simpl. destruct (forallb start _) eqn:Hs; [|by right; left]. simpl.
  destruct router; [|by right; right].
  unfold new_service, prepare_ingress.
  destruct (set_ingress_generation _ _) as [r t]. simpl. unfold is_open. simpl.
  rewrite andb_false_r. split_and!; try done. by apply bounded_spec.
Qed.
End session.

(** The default options, with the real engine. *)
Lemma with_adapters_exact_witness :
  match with_adapters (C:=vec_chan) (new_options LocalSTA (Some "10.0.0.1") (Some 8)) 0
          (λ q _, new_engine q) (λ _, true) true 7 0 with
  | Ok u => chan_capacity (lidar_queue (routing (us_datachannel u))) = 4
  | Err _ => False
  end.
Proof.
  pose proof (with_adapters_exact (C:=vec_chan) (new_options LocalSTA (Some "10.0.0.1") (Some 8)) 0
    (λ q _, new_engine q) (λ _, true) true 7 0) as Hw.
  destruct (with_adapters _ _ _ _ _ _ _) as [u|e] eqn:Hu.
  - apply Hw; vm_compute; discriminate.
  - vm_compute in Hu. discriminate.
Defined.

(** ** Retries

    What an iteration of [auto_reconnect] sees: the intentional-disconnect flag
    before the attempt and, for [ConnectionService], again with the gate held;
    then the outcome of the attempt. *)
Record retry_view := {
  flag_before : bool;
  flag_gated : bool;
  retry_outcome : PortResult ();
}.

(** In milliseconds. *)
Definition backoff (attempt : Z) : Z :=
  saturating_mul 64 200 (Z.shiftl 1 (Z.min attempt 8)).

(** [ConnectionService::auto_reconnect] on the views of its iterations, with
    the sleeps it makes; [None]: the listed views did not end it. *)
Fixpoint service_retries (more : nat) (attempt : Z) (l : list retry_view) : option bool * list Z :=
  match more, l with
  | O, _ => (Some false, [])
  | S _, [] => (None, [])
  | S more, v :: l =>
      if flag_before v then (Some false, []) else
      if flag_gated v then (Some false, []) else
      match retry_outcome v with
      | Ok _ => (Some true, [])
      | Err _ =>
          let '(r, sleeps) := service_retries more (attempt + 1) l in (r, backoff attempt :: sleeps)
      end
  end.
Definition service_auto_reconnect (intentional : bool) (max_retries : Z) (l : list retry_view) :
    option bool * list Z :=
  if intentional then (Some false, []) else service_retries (Z.to_nat max_retries) 0 l.

(** [UnitreeSession::auto_reconnect]: the flag is looked at again inside the
    attempt ([KSession Retry]), and there is no sleep after the last one. *)
Fixpoint session_retries (max_retries : Z) (more : nat) (attempt : Z) (l : list retry_view) :
    option bool * list Z :=
  match more, l with
  | O, _ => (Some false, [])
  | S _, [] => (None, [])
  | S more, v :: l =>
      if flag_before v then (Some false, []) else
      match retry_outcome v with
      | Ok _ => (Some true, [])
      | Err _ =>
          let '(r, sleeps) := session_retries max_retries more (attempt + 1) l in
          (r, if attempt + 1 <? max_retries then backoff attempt :: sleeps else sleeps)
      end
  end.
Definition session_auto_reconnect (max_retries : Z) (l : list retry_view) : option bool * list Z :=
  session_retries max_retries (Z.to_nat max_retries) 0 l.

(** Every sleep is between 200 ms and 51.2 s, and the product cannot overflow. *)
Lemma backoff_spec attempt :
  0 ≤ attempt → backoff attempt = 200 * 2 ^ Z.min attempt 8 ∧ 200 ≤ backoff attempt ≤ 51200.
Proof.
  intros Ha. unfold backoff. rewrite Z.shiftl_mul_pow2, Z.mul_1_l by lia.
  assert (1 ≤ 2 ^ Z.min attempt 8 ≤ 2 ^ 8) as Hp.
  { split; [|apply Z.pow_le_mono_r; lia].
    change 1 with (2 ^ 0). apply Z.pow_le_mono_r; lia. }
  unfold saturating_mul. change (2 ^ 8) with 256 in Hp.
  replace (Z.min (200 * 2 ^ Z.min attempt 8) (2 ^ 64 - 1)) with (200 * 2 ^ Z.min attempt 8)
    by (symmetry; apply Z.min_l; change (2 ^ 64 - 1) with 18446744073709551615; lia).
  lia.
Qed.

(** The number of failed attempts before a retry loop ends. *)
Definition fails (v : retry_view) : Prop := flag_before v = false ∧ is_err (retry_outcome v) = true.
Definition ends_with (v : retry_view) (r : bool) : Prop :=
  (flag_before v = true ∧ r = false) ∨
  (flag_before v = false ∧ is_ok (retry_outcome v) = true ∧ r = true).

Lemma session_retries_spec max_retries more : ∀ attempt l,
  0 ≤ attempt → attempt + Z.of_nat more = max_retries → (more ≤ length l)%nat →
  ∃ n r, session_retries max_retries more attempt l =
      (Some r, backoff <$> seqZ attempt (Z.min (Z.of_nat n) (max_retries - 1 - attempt))) ∧
    (n ≤ more)%nat ∧ Forall fails (take n l) ∧
    ((n = more ∧ r = false) ∨ (n < more)%nat ∧ ∃ v, l !! n = Some v ∧ ends_with v r).
Proof.
  induction more as [|more IH]; intros attempt l Ha Hm Hl; simpl.
  { exists 0%nat, false. rewrite seqZ_nil by lia. split_and!; [done|lia|done|by left]. }
  destruct l as [|v l]; simpl in Hl; [lia|].
  assert (∀ r, ends_with v r → ∃ n r', (Some r, []) =
      (Some r', backoff <$> seqZ attempt (Z.min (Z.of_nat n) (max_retries - 1 - attempt))) ∧
    (n ≤ S more)%nat ∧ Forall fails (take n (v :: l)) ∧
    ((n = S more ∧ r' = false) ∨ (n < S more)%nat ∧ ∃ w, (v :: l) !! n = Some w ∧ ends_with w r'))
    as Hend.
  { intros r Hr. exists 0%nat, r. rewrite seqZ_nil by lia.
    split_and!; [done|lia|done|]. right. split; [lia|eauto]. }
  destruct (flag_before v) eqn:Hf; [by apply Hend; left|].
  destruct (retry_outcome v) as [[]|e] eqn:Ho.
  { apply Hend. right. by rewrite Ho. }
  destruct (IH (attempt + 1) l) as (n & r & -> & Hn & Hfails & Hor); [lia..|].
  exists (S n), r. split_and!.
  - f_equal. destruct (attempt + 1 <? max_retries) eqn:Hlt.
    + rewrite (seqZ_cons attempt) by lia. rewrite fmap_cons. do 3 f_equal; lia.
    + rewrite !seqZ_nil by lia. done.
  - lia.
  - constructor; [|done]. split; [done|by rewrite Ho].
  - destruct Hor as [[-> ->]|[Hlt Hv]]; [by left|right]. split; [lia|done].
Qed.

(** A session's retry loop always ends: after [n] failures it either has
    used its retries and reports failure, or its next iteration saw an
    intentional disconnect (failure) or a validated connection (success); it
    slept once between attempts, doubling from 200 ms and never above 51.2 s. *)
Theorem auto_reconnect_exact max_retries l :
  0 ≤ max_retries ≤ len l →
  ∃ n r, session_auto_reconnect max_retries l =
      (Some r, backoff <$> seqZ 0 (Z.min n (max_retries - 1))) ∧
    0 ≤ n ≤ max_retries ∧ Forall fails (take (Z.to_nat n) l) ∧
    ((n = max_retries ∧ r = false) ∨
     n < max_retries ∧ ∃ v, l !! Z.to_nat n = Some v ∧ ends_with v r) ∧
    Forall (λ ms, 200 ≤ ms ≤ 51200) (session_auto_reconnect max_retries l).2.
Proof.
  intros Hm. unfold len in Hm.
  destruct (session_retries_spec max_retries (Z.to_nat max_retries) 0 l)
    as (n & r & Hs & Hn & Hf & Hor); [lia..|].
  exists (Z.of_nat n), r. unfold session_auto_reconnect. rewrite Hs, Nat2Z.id.
  split_and!; [by rewrite Z.sub_0_r|lia|lia|done| |].
  - destruct Hor as [[-> ->]|[Hlt Hv]]; [left|right]; (split; [lia|done]).
  - simpl. apply Forall_fmap, Forall_forall. intros k [Hk _]%elem_of_seqZ.
    by destruct (backoff_spec k Hk).
Qed.

Definition demo_fail : retry_view :=
  {| flag_before := false; flag_gated := false; retry_outcome := Err "refused" |}.
Definition demo_views : list retry_view :=
  [demo_fail; demo_fail; {| flag_before := false; flag_gated := false; retry_outcome := Ok tt |}].

Lemma auto_reconnect_exact_witness :
  session_auto_reconnect 3 demo_views = (Some true, [200; 400]) ∧
  Forall (λ ms, 200 ≤ ms ≤ 51200) (session_auto_reconnect 3 demo_views).2.
Proof.
  split; [vm_compute; reflexivity|].
  destruct (auto_reconnect_exact 3 demo_views) as (n & r & _ & _ & _ & _ & Hms); [|exact Hms].
  vm_compute. split; discriminate.
Defined.
