(* ===== verification/PyJson.v ===== *)
(** * Python values (src/src/interface/utils.rs)

    [py_any_to_json_value] reads a Python object as a JSON value and
    [json_value_to_py] builds one.  Python objects live in a store: a list or a
    dict refers to its items, so containers may be shared or cyclic; CPython and
    the extractions of PyO3 are external, [PyObj] is what the source asks them.
    The theorems: an object is accepted exactly when it unfolds to a finite tree
    within the budgets, and the two conversions are inverse. *)
From S2P Require Import Prelude Floats Json Channel Events.
#[local] Open Scope Z_scope.

(** ** Objects *)

(** An object: [PyStr None] is a [str] with lone surrogates, which has no UTF-8;
    [PyOther] is any other type, seen through [extract::<bool>], [__index__] and
    [__float__] (a subclass of [list] or [dict] is such an object). *)
Inductive PyObj :=
  | PyNone
  | PyBool (b : bool)
  | PyInt (n : Z)
  | PyFloat (x : f64)
  | PyStr (text : option string)
  | PyList (items : list nat)
  | PyDict (items : list (nat * nat))
  | PyOther (boolean : option bool) (index : option Z) (real : option f64).
Abbreviation Store := (list PyObj).

(** The exceptions the source raises. *)
Inductive PyErr :=
  | PyValueError (message : string)
  | PyTypeError (message : string)
  | PyRuntimeError (message : string)
  | PyNotImplementedError (message : string)
  | PyOverflowError
  | PyUnicodeError.

Definition deref (h : Store) (l : nat) : PyObj := default (PyOther None None None) (h !! l).

Definition extract_bool (o : PyObj) : option bool :=
  match o with PyBool b => Some b | PyOther b _ _ => b | _ => None end.
Definition py_index (o : PyObj) : option Z :=
  match o with PyInt n => Some n | PyOther _ n _ => n | _ => None end.
Definition extract_i64 (o : PyObj) : option Z :=
  n ← py_index o; if (i64_min <=? n) && (n <=? i64_max) then Some n else None.
Definition extract_u64 (o : PyObj) : option Z :=
  n ← py_index o; if (0 <=? n) && (n <=? u64_max) then Some n else None.
Definition is_PyInt (o : PyObj) : bool := match o with PyInt _ => true | _ => false end.
Definition is_PyString (o : PyObj) : bool := match o with PyStr _ => true | _ => false end.
Definition extract_f64 (o : PyObj) : option f64 :=
  match o with PyFloat x => Some x | PyOther _ _ x => x | _ => None end.
(** [Number::from_f64]. *)
Definition num_from_f64 (x : f64) : option number := if is_finite x then Some (Float x) else None.

(** ** Reading *)
Definition MAX_JSON_DEPTH : nat := 64.
Definition MAX_JSON_NODES : Z := 16384.
Definition MAX_JSON_BYTES : Z := 1024 * 1024.
(** Pointer, capacity and length, of eight bytes each. *)
Definition size_of_String : Z := 24.

Record JsonBudget := { remaining_nodes : Z; remaining_bytes : Z }.

Abbreviation Conversion A := (result PyErr (A * gset nat * JsonBudget)).

Section reading.
Context `{Layout}.

Definition charge_bytes (n : Z) (b : JsonBudget) : result PyErr JsonBudget :=
  rest ← ok_or (PyValueError "JSON byte budget exceeded") (checked_sub (remaining_bytes b) n);
  Ok {| remaining_nodes := remaining_nodes b; remaining_bytes := rest |}.
Definition charge_node (b : JsonBudget) : result PyErr JsonBudget :=
  rest ← ok_or (PyValueError "JSON node budget exceeded") (checked_sub (remaining_nodes b) 1);
  charge_bytes size_of_Value {| remaining_nodes := rest; remaining_bytes := remaining_bytes b |}.
Definition check_children (count : Z) (b : JsonBudget) : result PyErr () :=
  if remaining_nodes b <? count then Err (PyValueError "JSON node budget exceeded") else
  if remaining_bytes b / size_of_Value <? count then Err (PyValueError "JSON byte budget exceeded")
  else Ok ().
Definition copy_string (o : PyObj) (b : JsonBudget) : result PyErr (string * JsonBudget) :=
  match o with
  | PyStr (Some text) => b ← charge_bytes (slen text) b; Ok (text, b)
  | PyStr None => Err PyUnicodeError
  | _ => Err (PyTypeError "'str' expected")
  end.

(** The values before the containers: [None] when the object may be one. *)
Definition convert_scalar (o : PyObj) (b : JsonBudget) : option (result PyErr (value * JsonBudget)) :=
  match o with PyNone => Some (Ok (JNull, b)) | _ =>
  match extract_bool o with Some v => Some (Ok (JBool v, b)) | None =>
  match extract_i64 o with Some v => Some (Ok (JNumber (num_of_i64 v), b)) | None =>
  match extract_u64 o with Some v => Some (Ok (JNumber (num_of_u64 v), b)) | None =>
  if is_PyInt o
  then Some (Err (PyValueError "JSON integer must fit signed or unsigned 64-bit range")) else
  match extract_f64 o with
  | Some x =>
      Some (n ← ok_or (PyValueError "JSON numbers must be finite") (num_from_f64 x);
            Ok (JNumber n, b))
  | None =>
  if is_PyString o then Some (p ← copy_string o b; Ok (JString p.1, p.2)) else None
  end end end end end.

(** The loops over the items of a list and of a dict. *)
Fixpoint convert_list (convert : nat → gset nat → JsonBudget → Conversion value)
    (items : list nat) (values : list value) (active : gset nat) (budget : JsonBudget) :
    Conversion (list value) :=
  match items with
  | [] => Ok (values, active, budget)
  | item :: items =>
      p ← convert item active budget;
      let '(v, active, budget) := p in
      convert_list convert items (values ++ [v]) active budget
  end.
Fixpoint convert_dict (h : Store) (convert : nat → gset nat → JsonBudget → Conversion value)
    (items : list (nat * nat)) (values : list (string * value)) (active : gset nat)
    (budget : JsonBudget) : Conversion (list (string * value)) :=
  match items with
  | [] => Ok (values, active, budget)
  | (key, item) :: items =>
      budget ← charge_bytes size_of_String budget;
      p ← copy_string (deref h key) budget;
      let '(key, budget) := p in
      p ← convert item active budget;
      let '(v, active, budget) := p in
      convert_dict h convert items (BTree.insert key v values) active budget
  end.

(** [convert_json] at depth [MAX_JSON_DEPTH - levels]: [levels] containers may
    still be opened. *)
Fixpoint convert_json (h : Store) (levels : nat) (object : nat) (active_containers : gset nat)
    (budget : JsonBudget) : Conversion value :=
  budget ← charge_node budget;
  let o := deref h object in
  match convert_scalar o budget with
  | Some r => p ← r; Ok (p.1, active_containers, p.2)
  | None =>
      match o with
      | PyList _ | PyDict _ =>
          match levels with
          | O => Err (PyValueError "JSON container depth exceeds 64")
          | S levels =>
              if bool_decide (object ∈ active_containers)
              then Err (PyValueError "Cyclic JSON container") else
              let active := {[object]} ∪ active_containers in
              p ← match o with
                  | PyList items =>
                      _ ← check_children (len items) budget;
                      p ← convert_list (convert_json h levels) items [] active budget;
                      Ok (JArray p.1.1, p.1.2, p.2)
                  | PyDict items =>
                      _ ← check_children (len items) budget;
                      p ← convert_dict h (convert_json h levels) items [] active budget;
                      Ok (JObject p.1.1, p.1.2, p.2)
                  | _ => Err (PyTypeError "Unsupported type for JSON conversion")
                  end;
              let '(v, active, budget) := p in Ok (v, active ∖ {[object]}, budget)
          end
      | _ => Err (PyTypeError "Unsupported type for JSON conversion")
      end
  end.

Definition py_any_to_json_value (h : Store) (object : nat) : result PyErr value :=
  p ← convert_json h MAX_JSON_DEPTH object ∅
        {| remaining_nodes := MAX_JSON_NODES; remaining_bytes := MAX_JSON_BYTES |};
  Ok p.1.1.
End reading.

(** ** Building *)
Definition alloc (o : PyObj) (h : Store) : nat * Store := (length h, h ++ [o]).
Definition list_append (l item : nat) (h : Store) : Store :=
  alter (λ o, match o with PyList items => PyList (items ++ [item]) | _ => o end) l h.
Definition same_text (a b : PyObj) : bool :=
  match a, b with PyStr (Some s), PyStr (Some s') => seqb s s' | _, _ => false end.
(** [set_item] keeps the key of an entry it replaces. *)
Fixpoint dict_put (h : Store) (key item : nat) (items : list (nat * nat)) : list (nat * nat) :=
  match items with
  | [] => [(key, item)]
  | (k, i) :: items =>
      if same_text (deref h k) (deref h key) then (k, item) :: items
      else (k, i) :: dict_put h key item items
  end.
Definition dict_set_item (l key item : nat) (h : Store) : Store :=
  alter (λ o, match o with PyDict items => PyDict (dict_put h key item items) | _ => o end) l h.

(** The object and the store with the new objects; [None], the booleans and
    small integers are shared by CPython, which nothing here observes. *)
Fixpoint json_value_to_py (v : value) (h : Store) : nat * Store :=
  match v with
  | JNull => alloc PyNone h
  | JBool b => alloc (PyBool b) h
  | JNumber _ =>
      match as_i64 v with Some i => alloc (PyInt i) h | None =>
      match as_u64 v with Some u => alloc (PyInt u) h | None =>
      match as_f64 v with Some f => alloc (PyFloat f) h | None => alloc PyNone h
      end end end
  | JString s => alloc (PyStr (Some s)) h
  | JArray arr =>
      let '(l, h) := alloc (PyList []) h in
      (l, foldl (λ h item, let '(py_item, h) := json_value_to_py item h in list_append l py_item h)
            h arr)
  | JObject obj =>
      let '(l, h) := alloc (PyDict []) h in
      (l, foldl (λ h kv, let '(py_value, h) := json_value_to_py kv.2 h in
                         let '(key, h) := alloc (PyStr (Some kv.1)) h in
                         dict_set_item l key py_value h) h obj)
  end.

(** [to_py_error]. *)
Fixpoint contains (s sub : string) : bool :=
  starts_with s sub || match s with EmptyString => false | String _ s => contains s sub end.
Definition to_py_error (error : string) : PyErr :=
  if contains error "not implemented" then PyNotImplementedError error else PyRuntimeError error.

(** ** What an object denotes *)

(** The value of an object that is not a container. *)
Definition leaf (o : PyObj) : option value :=
  let int n := if (i64_min <=? n) && (n <=? u64_max) then Some (jint n) else None in
  let real x := if is_finite x then Some (JNumber (Float x)) else None in
  match o with
  | PyNone => Some JNull
  | PyBool b => Some (JBool b)
  | PyInt n => int n
  | PyFloat x => real x
  | PyStr text => JString <$> text
  | PyOther (Some b) _ _ => Some (JBool b)
  | PyOther None n x =>
      match n ≫= int with Some v => Some v | None => x ≫= real end
  | PyList _ | PyDict _ => None
  end.

(** An object unfolded: shared items are repeated, a cycle has no unfolding. *)
Inductive tree :=
  | TLeaf (v : value)
  | TList (l : list tree)
  | TDict (l : list (string * tree)).

Fixpoint tree_ind' (P : tree → Prop) (HLeaf : ∀ v, P (TLeaf v))
    (HList : ∀ l, Forall P l → P (TList l))
    (HDict : ∀ l, Forall (λ kt, P kt.2) l → P (TDict l)) (t : tree) : P t :=
  let rec := tree_ind' P HLeaf HList HDict in
  match t with
  | TLeaf v => HLeaf v
  | TList l => HList l ((fix go l : Forall P l :=
      match l with [] => Forall_nil_2 _ | x :: l => Forall_cons_2 _ _ _ (rec x) (go l) end) l)
  | TDict l => HDict l ((fix go l : Forall (λ kt, P kt.2) l :=
      match l with
      | [] => Forall_nil_2 _
      | kt :: l => Forall_cons_2 _ _ _ (rec kt.2) (go l)
      end) l)
  end.

Inductive unfolds (h : Store) : nat → tree → Prop :=
  | unfolds_leaf l v : leaf (deref h l) = Some v → unfolds h l (TLeaf v)
  | unfolds_list l items ts :
      deref h l = PyList items → Forall2 (unfolds h) items ts → unfolds h l (TList ts)
  | unfolds_dict l items ts :
      deref h l = PyDict items →
      Forall2 (λ kv kt, deref h kv.1 = PyStr (Some kt.1) ∧ unfolds h kv.2 kt.2) items ts →
      unfolds h l (TDict ts).

Fixpoint tree_value (t : tree) : value :=
  match t with
  | TLeaf v => v
  | TList l => JArray (tree_value <$> l)
  | TDict l => JObject (BTree.of_list ((λ kt, (kt.1, tree_value kt.2)) <$> l))
  end.
Fixpoint tree_nodes (t : tree) : Z :=
  1 + match t with
      | TLeaf _ => 0
      | TList l => foldr (λ t n, tree_nodes t + n) 0 l
      | TDict l => foldr (λ kt n, tree_nodes kt.2 + n) 0 l
      end.
Fixpoint tree_depth (t : tree) : nat :=
  match t with
  | TLeaf _ => 0
  | TList l => S (foldr (λ t n, tree_depth t `max` n) 0 l)%nat
  | TDict l => S (foldr (λ kt n, tree_depth kt.2 `max` n) 0 l)%nat
  end.
Definition leaf_bytes (v : value) : Z := match v with JString s => slen s | _ => 0 end.

Section exact.
Context `{Layout}.

Fixpoint tree_bytes (t : tree) : Z :=
  size_of_Value +
  match t with
  | TLeaf v => leaf_bytes v
  | TList l => foldr (λ t n, tree_bytes t + n) 0 l
  | TDict l => foldr (λ kt n, size_of_String + slen kt.1 + tree_bytes kt.2 + n) 0 l
  end.
Definition list_bytes (l : list tree) : Z := foldr (λ t n, tree_bytes t + n) 0 l.
Definition dict_bytes (l : list (string * tree)) : Z :=
  foldr (λ kt n, size_of_String + slen kt.1 + tree_bytes kt.2 + n) 0 l.
Definition list_nodes (l : list tree) : Z := foldr (λ t n, tree_nodes t + n) 0 l.
Definition dict_nodes (l : list (string * tree)) : Z := foldr (λ kt n, tree_nodes kt.2 + n) 0 l.

(** The budget after a tree. *)
Definition spend (nodes bytes : Z) (b : JsonBudget) : JsonBudget :=
  {| remaining_nodes := remaining_nodes b - nodes; remaining_bytes := remaining_bytes b - bytes |}.
Definition affords (nodes bytes : Z) (b : JsonBudget) : Prop :=
  nodes ≤ remaining_nodes b ∧ bytes ≤ remaining_bytes b.

Lemma tree_nodes_pos t : 1 ≤ tree_nodes t.
Proof.
  induction t as [v|l IH|l IH] using tree_ind'; simpl; [lia|..].
  - assert (0 ≤ list_nodes l); [|unfold list_nodes in *; lia].
    induction IH; simpl; [lia|]. unfold list_nodes in *. simpl. lia.
  - assert (0 ≤ dict_nodes l); [|unfold dict_nodes in *; lia].
    induction IH as [|[k t] l]; simpl; [lia|]. unfold dict_nodes in *. simpl in *. lia.
Qed.

Lemma slen_nonneg s : 0 ≤ slen s.
Proof. unfold slen. lia. Qed.

Lemma tree_bytes_pos t : size_of_Value ≤ tree_bytes t.
Proof.
  pose proof size_of_Value_pos.
  induction t as [v|l IH|l IH] using tree_ind'; simpl.
  - destruct v; simpl; try lia. pose proof (slen_nonneg s). lia.
  - assert (0 ≤ list_bytes l); [|unfold list_bytes in *; lia].
    induction IH; simpl; [lia|]. unfold list_bytes in *. simpl. lia.
  - assert (0 ≤ dict_bytes l); [|unfold dict_bytes in *; lia].
    induction IH as [|[k t] l]; simpl; [lia|]. pose proof (slen_nonneg k).
    unfold dict_bytes, size_of_String in *. simpl in *. lia.
Qed.

Lemma list_costs l : len l ≤ list_nodes l ∧ len l * size_of_Value ≤ list_bytes l.
Proof.
  induction l as [|t l IH]; [done|]. rewrite len_cons.
  pose proof (tree_nodes_pos t). pose proof (tree_bytes_pos t). pose proof size_of_Value_pos.
  change (list_nodes (t :: l)) with (tree_nodes t + list_nodes l).
  change (list_bytes (t :: l)) with (tree_bytes t + list_bytes l). nia.
Qed.
Lemma dict_costs l : len l ≤ dict_nodes l ∧ len l * size_of_Value ≤ dict_bytes l.
Proof.
  induction l as [|[k t] l IH]; [done|]. rewrite len_cons.
  pose proof (tree_nodes_pos t). pose proof (tree_bytes_pos t). pose proof size_of_Value_pos.
  pose proof (slen_nonneg k).
  change (dict_nodes ((k, t) :: l)) with (tree_nodes t + dict_nodes l).
  change (dict_bytes ((k, t) :: l))
    with (size_of_String + slen k + tree_bytes t + dict_bytes l). unfold size_of_String. nia.
Qed.

Lemma spend_spend n m n' m' b : spend n' m' (spend n m b) = spend (n + n') (m + m') b.
Proof. unfold spend. simpl. f_equal; lia. Qed.

Lemma charge_bytes_Ok n b b' :
  charge_bytes n b = Ok b' ↔ n ≤ remaining_bytes b ∧ b' = spend 0 n b.
Proof.
  unfold charge_bytes, checked_sub, spend. rewrite Z.sub_0_r.
  destruct (n <=? remaining_bytes b) eqn:E; simpl.
  - split; [intros [= <-]; split; [lia|done]|by intros [_ ->]].
  - split; [done|lia].
Qed.
Lemma charge_node_Ok b b' :
  charge_node b = Ok b' ↔ affords 1 size_of_Value b ∧ b' = spend 1 size_of_Value b.
Proof.
  unfold charge_node, affords, checked_sub at 1. destruct (1 <=? remaining_nodes b) eqn:E; simpl.
  - rewrite charge_bytes_Ok. unfold spend. simpl. rewrite Z.sub_0_r. intuition lia.
  - split; [done|]. lia.
Qed.
Lemma check_children_Ok n b :
  check_children n b = Ok () ↔ n ≤ remaining_nodes b ∧ n * size_of_Value ≤ remaining_bytes b.
Proof.
  unfold check_children. pose proof size_of_Value_pos.
  pose proof (Z.mul_div_le (remaining_bytes b) size_of_Value).
  pose proof (Z.mul_succ_div_gt (remaining_bytes b) size_of_Value).
  destruct (remaining_nodes b <? n) eqn:E1; [split; [done|lia]|].
  destruct (_ / _ <? n) eqn:E2.
  - split; [done|]. nia.
  - split; [|done]. intros _. nia.
Qed.
Lemma copy_string_Ok o b s b' :
  copy_string o b = Ok (s, b') ↔
  o = PyStr (Some s) ∧ slen s ≤ remaining_bytes b ∧ b' = spend 0 (slen s) b.
Proof.
  destruct o as [| | | |[text|]| | |]; simpl; try (split; [done|by intros [? _]]).
  rewrite result_bind_Ok. split.
  - intros (b1 & Hc%charge_bytes_Ok & [= <- <-]). destruct Hc. done.
  - intros ([= <-] & ? & ->). exists (spend 0 (slen text) b). split; [|done]. by apply charge_bytes_Ok.
Qed.

Lemma spend_0 b : spend 0 0 b = b.
Proof. destruct b. unfold spend. simpl. f_equal; lia. Qed.

(** An integer is read as [i64] or else as [u64]. *)
Lemma convert_int n (o : PyObj) (b : JsonBudget) (r : option (result PyErr (value * JsonBudget))) :
  py_index o = Some n →
  match extract_i64 o with
  | Some v => Some (Ok (JNumber (num_of_i64 v), b))
  | None => match extract_u64 o with
            | Some v => Some (Ok (JNumber (num_of_u64 v), b))
            | None => r
            end
  end = if (i64_min <=? n) && (n <=? u64_max) then Some (Ok (jint n, b)) else r.
Proof.
  intros Hi. unfold extract_i64, extract_u64, jint, num_of_i64, num_of_u64. rewrite Hi. simpl.
  unfold i64_min, i64_max, u64_max.
  destruct (_ <=? n) eqn:E1, (n <=? 9223372036854775807) eqn:E2; simpl;
    destruct (0 <=? n) eqn:E3, (n <=? 18446744073709551615) eqn:E4; simpl; try done; lia.
Qed.

Lemma convert_plain v v' b b' :
  0 ≤ remaining_bytes b → leaf_bytes v = 0 →
  (Some (Ok (v, b)) : option (result PyErr _)) = Some (Ok (v', b')) ↔
  Some v = Some v' ∧ leaf_bytes v' ≤ remaining_bytes b ∧ b' = spend 0 (leaf_bytes v') b.
Proof.
  intros Hb Hv. split.
  - intros [= <- <-]. rewrite Hv, spend_0. done.
  - intros ([= <-] & _ & ->). by rewrite Hv, spend_0.
Qed.

Lemma convert_scalar_Ok o b v b' :
  0 ≤ remaining_bytes b →
  convert_scalar o b = Some (Ok (v, b')) ↔
  leaf o = Some v ∧ leaf_bytes v ≤ remaining_bytes b ∧ b' = spend 0 (leaf_bytes v) b.
Proof.
  intros Hb. destruct o as [|y|n|x|text|items|items|y n x]; simpl.
  - by apply convert_plain.
  - by apply convert_plain.
  - rewrite (convert_int n (PyInt n)) by done.
    destruct (_ && _); [by apply convert_plain|naive_solver].
  - unfold num_from_f64. destruct (is_finite x); [by apply convert_plain|naive_solver].
  - destruct text as [s|]; simpl; [|naive_solver].
    destruct (charge_bytes (slen s) b) as [b1|e] eqn:E; simpl.
    + apply charge_bytes_Ok in E as [Hle ->]. naive_solver.
    + assert (¬ slen s ≤ remaining_bytes b); [|naive_solver].
      intros Hle. by rewrite (proj2 (charge_bytes_Ok _ _ _) (conj Hle eq_refl)) in E.
  - naive_solver.
  - naive_solver.
  - destruct y as [y|]; [by apply convert_plain|]. destruct n as [n|]; simpl.
    + rewrite (convert_int n (PyOther None (Some n) x)) by done.
      destruct (_ && _); [by apply convert_plain|].
      destruct x as [x|]; simpl; [|naive_solver].
      unfold num_from_f64. destruct (is_finite x); [by apply convert_plain|naive_solver].
    + destruct x as [x|]; simpl; [|naive_solver].
      unfold num_from_f64. destruct (is_finite x); [by apply convert_plain|naive_solver].
Qed.

(** What a conversion of [t] that started with [active] and [b] returns. *)
Definition outcome (t : tree) (active : gset nat) (b : JsonBudget) : value * gset nat * JsonBudget :=
  (tree_value t, active, spend (tree_nodes t) (tree_bytes t) b).
Definition solvent (b : JsonBudget) : Prop := 0 ≤ remaining_nodes b ∧ 0 ≤ remaining_bytes b.
(** A conversion that only returns outcomes of unfoldings within the budget. *)
Definition sound_at (h : Store) (levels : nat)
    (convert : nat → gset nat → JsonBudget → Conversion value) : Prop :=
  ∀ l active b r, solvent b → convert l active b = Ok r →
    ∃ t, unfolds h l t ∧ (tree_depth t ≤ levels)%nat ∧
         affords (tree_nodes t) (tree_bytes t) b ∧ r = outcome t active b.

Lemma affords_solvent n m b : affords n m b → solvent (spend n m b).
Proof. unfold affords, solvent, spend. simpl. lia. Qed.

Definition list_depth (l : list tree) : nat := foldr (λ t n, tree_depth t `max` n)%nat 0%nat l.
Definition dict_depth (l : list (string * tree)) : nat :=
  foldr (λ kt n, tree_depth kt.2 `max` n)%nat 0%nat l.

Lemma convert_list_sound h levels convert items : sound_at h levels convert →
  ∀ values active b r, solvent b → convert_list convert items values active b = Ok r →
  ∃ ts, Forall2 (unfolds h) items ts ∧ (list_depth ts ≤ levels)%nat ∧
        affords (list_nodes ts) (list_bytes ts) b ∧
        r = (values ++ (tree_value <$> ts), active, spend (list_nodes ts) (list_bytes ts) b).
Proof.
  intros Hc. induction items as [|item items IH]; intros values active b r Hb; simpl.
  - intros [= <-]. exists []. rewrite app_nil_r, spend_0. split_and!; [constructor|simpl; lia|done|done].
  - rewrite result_bind_Ok. intros ([[v active'] b'] & Hv & Hr).
    destruct (Hc _ _ _ _ Hb Hv) as (t & Ht & Hd & Ha & [= -> -> ->]).
    destruct (IH _ _ _ _ (affords_solvent _ _ _ Ha) Hr) as (ts & Hts & Hds & Has & ->).
    exists (t :: ts). split_and!; [by constructor|simpl; unfold list_depth in *; lia| |].
    + unfold affords, spend, list_nodes, list_bytes in *. simpl in *. lia.
    + rewrite spend_spend, <- app_assoc. done.
Qed.

Lemma convert_dict_sound h levels convert items : sound_at h levels convert →
  ∀ values active b r, solvent b → convert_dict h convert items values active b = Ok r →
  ∃ ts, Forall2 (λ kv kt, deref h kv.1 = PyStr (Some kt.1) ∧ unfolds h kv.2 kt.2) items ts ∧
        (dict_depth ts ≤ levels)%nat ∧ affords (dict_nodes ts) (dict_bytes ts) b ∧
        r = (foldl (λ m kv, BTree.insert kv.1 kv.2 m) values
               ((λ kt, (kt.1, tree_value kt.2)) <$> ts), active,
             spend (dict_nodes ts) (dict_bytes ts) b).
Proof.
  intros Hc. induction items as [|[key item] items IH]; intros values active b r Hb; simpl.
  - intros [= <-]. exists []. rewrite spend_0. split_and!; [constructor|simpl; lia|done|done].
  - rewrite result_bind_Ok. intros (b1 & [H1 ->]%charge_bytes_Ok & Hr).
    apply result_bind_Ok in Hr as ([k b2] & (Hk & H2 & ->)%copy_string_Ok & Hr).
    apply result_bind_Ok in Hr as ([[v active'] b3] & Hv & Hr).
    rewrite spend_spend in Hv. simpl in H2.
    assert (solvent (spend (0 + 0) (size_of_String + slen k) b)) as Hb'
      by (unfold solvent, spend in *; simpl in *; lia).
    destruct (Hc _ _ _ _ Hb' Hv) as (t & Ht & Hd & Ha & [= -> -> ->]).
    destruct (IH _ _ _ _ (affords_solvent _ _ _ Ha) Hr) as (ts & Hts & Hds & Has & ->).
    exists ((k, t) :: ts). split_and!.
    + by constructor.
    + simpl. unfold dict_depth in *. lia.
    + unfold affords, spend, dict_nodes, dict_bytes in *. simpl in *. lia.
    + rewrite !spend_spend. simpl. do 2 f_equal. unfold dict_bytes. simpl. lia.
Qed.

Lemma insert_remove (l : nat) (active : gset nat) :
  l ∉ active → ({[l]} ∪ active) ∖ {[l]} = active.
Proof. intros. set_solver. Qed.

Lemma convert_json_sound h levels : sound_at h levels (convert_json h levels).
Proof.
  induction levels as [|levels IH]; intros l active b r Hb; simpl;
    rewrite result_bind_Ok; intros (b1 & [Ha ->]%charge_node_Ok & Hr);
    pose proof (affords_solvent _ _ _ Ha) as Hb1;
    destruct (convert_scalar (deref h l) _) as [[[v b2]|e]|] eqn:Hs in Hr; simplify_eq/=.
  1,3: apply convert_scalar_Ok in Hs as (Hl & Hle & ->); [|apply Hb1];
    exists (TLeaf v); split_and!; [by constructor|simpl; lia| |unfold outcome; by rewrite spend_spend];
    unfold affords, spend in *; simpl in *; lia.
  { destruct (deref h l); done. }
  destruct (deref h l) as [| | | | |items|items|] eqn:Ho; try done;
    destruct (bool_decide (l ∈ active)) eqn:Hact; try done; apply bool_decide_eq_false in Hact;
    apply result_bind_Ok in Hr as ([[v active'] b'] & Hr & [= <-]);
    apply result_bind_Ok in Hr as ([] & _ & Hr);
    apply result_bind_Ok in Hr as (p & Hp & [= <- <- <-]).
  - destruct (convert_list_sound _ _ _ _ IH _ _ _ _ Hb1 Hp) as (ts & Hts & Hd & Hc & ->).
    exists (TList ts). split_and!; [by econstructor|simpl; unfold list_depth in *; lia| |].
    + unfold affords, spend, list_nodes, list_bytes in *. simpl in *. lia.
    + unfold outcome. simpl. by rewrite spend_spend, insert_remove.
  - destruct (convert_dict_sound _ _ _ _ IH _ _ _ _ Hb1 Hp) as (ts & Hts & Hd & Hc & ->).
    exists (TDict ts). split_and!; [by econstructor|simpl; unfold dict_depth in *; lia| |].
    + unfold affords, spend, dict_nodes, dict_bytes in *. simpl in *. lia.
    + unfold outcome. simpl. by rewrite spend_spend, insert_remove.
Qed.

Lemma unfolds_functional h t : ∀ l t', unfolds h l t → unfolds h l t' → t = t'.
Proof.
  induction t as [v|ts IH|ts IH] using tree_ind'; intros l t'.
  - inversion_clear 1 as [? ? Hv| |].
    inversion_clear 1 as [? ? Hv'|? ? ? Ho|? ? ? Ho]; [congruence|by rewrite Ho in Hv..].
  - inversion_clear 1 as [|? items ? Ho Hf|].
    inversion_clear 1 as [? ? Hv|? ? ? Ho' Hf'|? ? ? Ho' _]; rewrite Ho in *; simplify_eq/=.
    f_equal. by eapply Forall2_functional.
  - inversion_clear 1 as [| |? items ? Ho Hf].
    inversion_clear 1 as [? ? Hv|? ? ? Ho' _|? ? ? Ho' Hf']; rewrite Ho in *; simplify_eq/=.
    f_equal. eapply Forall2_functional; [|done..]. eapply Forall_impl; [exact IH|].
    intros [k1 t1] Ht [a i] [k2 t2] [Hk Hi] [Hk' Hi']; simpl in *.
    f_equal; [congruence|by eapply Ht].
Qed.

(** The containers on the path are ancestors, so they unfold to larger trees. *)
Definition ancestors (h : Store) (n : Z) (active : gset nat) : Prop :=
  ∀ a, a ∈ active → ∃ ta, unfolds h a ta ∧ n < tree_nodes ta.
Definition complete_at (h : Store) (t : tree) : Prop :=
  ∀ l levels active b, unfolds h l t → (tree_depth t ≤ levels)%nat →
    affords (tree_nodes t) (tree_bytes t) b → ancestors h (tree_nodes t) active →
    convert_json h levels l active b = Ok (outcome t active b).

Lemma ancestors_le h n m active : n ≤ m → ancestors h m active → ancestors h n active.
Proof. intros Hle Ha a Hin. destruct (Ha a Hin) as (ta & ? & ?). exists ta. split; [done|lia]. Qed.

Lemma ancestors_self h l t n active :
  unfolds h l t → n < tree_nodes t → ancestors h (tree_nodes t) active →
  ancestors h n ({[l]} ∪ active).
Proof.
  intros Ht Hn Ha a [->%elem_of_singleton|Hin]%elem_of_union; [by exists t|].
  destruct (Ha a Hin) as (ta & ? & ?). exists ta. split; [done|lia].
Qed.

Lemma ancestors_fresh h l t active :
  unfolds h l t → ancestors h (tree_nodes t) active → l ∉ active.
Proof.
  intros Ht Ha Hin. destruct (Ha l Hin) as (ta & Hta & ?).
  rewrite (unfolds_functional _ _ _ _ Hta Ht) in *. lia.
Qed.

Lemma convert_list_complete h levels items ts active :
  Forall (complete_at h) ts → Forall2 (unfolds h) items ts → (list_depth ts ≤ levels)%nat →
  ancestors h (list_nodes ts) active → ∀ values b, affords (list_nodes ts) (list_bytes ts) b →
  convert_list (convert_json h levels) items values active b =
  Ok (values ++ (tree_value <$> ts), active, spend (list_nodes ts) (list_bytes ts) b).
Proof.
  intros Hc Hf. induction Hf as [|item t items ts Ht Hf IH]; intros Hd Ha values b Hb; simpl.
  - by rewrite app_nil_r, spend_0.
  - inversion_clear Hc as [|? ? Hct Hcts].
    unfold affords, list_depth, list_nodes, list_bytes in *. simpl in *.
    destruct (list_costs ts) as [? ?]. pose proof (len_nonneg ts). pose proof (tree_nodes_pos t).
    pose proof (tree_bytes_pos t). pose proof size_of_Value_pos.
    unfold list_nodes, list_bytes in *.
    rewrite Hct; [|done|lia|unfold affords; nia|eapply ancestors_le; [|done]; lia].
    simpl. rewrite IH; [|done|lia|eapply ancestors_le; [|done]; lia|unfold spend; simpl; lia].
    by rewrite spend_spend, <- app_assoc.
Qed.

Lemma convert_dict_complete h levels items ts active :
  Forall (λ kt, complete_at h kt.2) ts →
  Forall2 (λ kv kt, deref h kv.1 = PyStr (Some kt.1) ∧ unfolds h kv.2 kt.2) items ts →
  (dict_depth ts ≤ levels)%nat → ancestors h (dict_nodes ts) active →
  ∀ values b, affords (dict_nodes ts) (dict_bytes ts) b →
  convert_dict h (convert_json h levels) items values active b =
  Ok (foldl (λ m kv, BTree.insert kv.1 kv.2 m) values ((λ kt, (kt.1, tree_value kt.2)) <$> ts),
      active, spend (dict_nodes ts) (dict_bytes ts) b).
Proof.
  intros Hc Hf. induction Hf as [|[key item] [k t] items ts [Hk Ht] Hf IH];
    intros Hd Ha values b Hb; simpl; [by rewrite spend_0|].
  inversion_clear Hc as [|? ? Hct Hcts]. simpl in *.
  unfold affords, dict_depth, dict_nodes, dict_bytes in *. simpl in *.
  destruct (dict_costs ts) as [? ?]. pose proof (len_nonneg ts). pose proof (tree_nodes_pos t).
  pose proof (tree_bytes_pos t). pose proof size_of_Value_pos. pose proof (slen_nonneg k).
  unfold dict_nodes, dict_bytes, size_of_String in *.
  rewrite (proj2 (charge_bytes_Ok 24 b _)) by (split; [nia|done]). simpl.
  rewrite (proj2 (copy_string_Ok _ _ k _)) by (split_and!; [done|simpl; nia|done]). simpl.
  rewrite Hct; [|done|lia|unfold affords, spend; simpl; nia|eapply ancestors_le; [|done]; lia].
  simpl. rewrite IH; [|done|lia|eapply ancestors_le; [|done]; lia|unfold spend; simpl; lia].
  rewrite !spend_spend. do 3 f_equal; lia.
Qed.

Lemma charge_tree t b :
  affords (tree_nodes t) (tree_bytes t) b → charge_node b = Ok (spend 1 size_of_Value b).
Proof.
  intros Hb. pose proof (tree_nodes_pos t). pose proof (tree_bytes_pos t).
  apply charge_node_Ok. unfold affords in *. split; [lia|done].
Qed.

Lemma convert_json_complete h t : complete_at h t.
Proof.
  induction t as [v|ts IH|ts IH] using tree_ind'; intros l levels active b Ht Hd Hb Ha.
  - inversion Ht as [? ? Hl| |]; subst. pose proof size_of_Value_pos.
    destruct levels as [|levels]; cbn [convert_json]; rewrite (charge_tree _ _ Hb); cbn [mbind result_bind];
      rewrite (proj2 (convert_scalar_Ok (deref h l) (spend 1 size_of_Value b) v
        (spend 0 (leaf_bytes v) (spend 1 size_of_Value b))
        ltac:(unfold affords, spend in *; simpl in *; destruct v; simpl in *; unfold slen in *; lia)));
      try (split_and!; [done|unfold affords, spend in *; simpl in *; lia|done]);
      simpl; rewrite spend_spend; done.
  - destruct levels as [|levels]; [simpl in Hd; lia|].
    inversion Ht as [|? items ? Ho Hf|]; subst. destruct (list_costs ts) as [Hn1 Hn2].
    pose proof (Forall2_length _ _ _ Hf) as Hlen. pose proof size_of_Value_pos.
    cbn [convert_json]. rewrite (charge_tree _ _ Hb). cbn [mbind result_bind]. rewrite Ho. simpl.
    rewrite bool_decide_false by (by eapply ancestors_fresh).
    unfold affords, list_nodes, list_bytes in *. simpl in *.
    rewrite (proj2 (check_children_Ok _ _)) by (unfold spend, len in *; simpl; rewrite Hlen; lia).
    simpl. rewrite (convert_list_complete h levels items ts); [|done|done|unfold list_depth; lia|
      eapply ancestors_self; [done|simpl; unfold list_nodes; lia|done]|
      unfold affords, list_nodes, list_bytes, spend; simpl; lia].
    simpl. rewrite insert_remove by (by eapply ancestors_fresh). by rewrite spend_spend.
  - destruct levels as [|levels]; [simpl in Hd; lia|].
    inversion Ht as [| |? items ? Ho Hf]; subst. destruct (dict_costs ts) as [Hn1 Hn2].
    pose proof (Forall2_length _ _ _ Hf) as Hlen. pose proof size_of_Value_pos.
    cbn [convert_json]. rewrite (charge_tree _ _ Hb). cbn [mbind result_bind]. rewrite Ho. simpl.
    rewrite bool_decide_false by (by eapply ancestors_fresh).
    unfold affords, dict_nodes, dict_bytes in *. simpl in *.
    rewrite (proj2 (check_children_Ok _ _)) by (unfold spend, len in *; simpl; rewrite Hlen; lia).
    simpl. rewrite (convert_dict_complete h levels items ts); [|done|done|unfold dict_depth; lia|
      eapply ancestors_self; [done|simpl; unfold dict_nodes; lia|done]|
      unfold affords, dict_nodes, dict_bytes, spend; simpl; lia].
    simpl. rewrite insert_remove by (by eapply ancestors_fresh). by rewrite spend_spend.
Qed.

Lemma reads_exactly h object v :
  py_any_to_json_value h object = Ok v ↔
  ∃ t, unfolds h object t ∧ tree_value t = v ∧ (tree_depth t ≤ 64)%nat ∧
       tree_nodes t ≤ 16384 ∧ tree_bytes t ≤ 1024 * 1024.
Proof.
  unfold py_any_to_json_value. rewrite result_bind_Ok. split.
  - intros (r & Hr & [= <-]). apply convert_json_sound in Hr as (t & Ht & Hd & [Hn Hb] & ->); [|by split].
    by exists t.
  - intros (t & Ht & <- & Hd & Hn & Hb). eexists (outcome t ∅ _). split; [|done].
    apply (convert_json_complete h t); [done|done|done|]. intros a []%elem_of_empty.
Qed.
(** C35: a Python object is accepted exactly when it unfolds to a finite tree
    (so no container is its own ancestor; shared containers are repeated) of at
    most 64 nested containers, 16,384 values and 1 MiB of expanded size; the
    result is the JSON value of the tree. *)
Theorem py_any_to_json_value_exact h object v :
  py_any_to_json_value h object = Ok v ↔
  ∃ t, unfolds h object t ∧ tree_value t = v ∧ (tree_depth t ≤ 64)%nat ∧
       tree_nodes t ≤ 16384 ∧ tree_bytes t ≤ 1024 * 1024.
Proof. apply reads_exactly. Qed.

(** ** Round trip *)
Fixpoint tree_of (v : value) : tree :=
  match v with
  | JArray l => TList (tree_of <$> l)
  | JObject m => TDict ((λ kv, (kv.1, tree_of kv.2)) <$> m)
  | v => TLeaf v
  end.

(** [l] was built from [h] to [h']: it unfolds to [t] in every store that has
    the new objects, and the old ones are untouched. *)
Definition agree (lo hi : nat) (h k : Store) : Prop := ∀ i, (lo ≤ i < hi)%nat → k !! i = h !! i.
Definition built (h h' : Store) (l : nat) (t : tree) : Prop :=
  (length h ≤ length h')%nat ∧ agree 0 (length h) h h' ∧
  ∀ k, agree (length h) (length h') h' k → unfolds k l t.

Lemma tree_value_of v : value_wf v → tree_value (tree_of v) = v.
Proof.
  induction v as [| | | |l IH|m IH] using value_ind'; try done.
  - rewrite value_wf_array. intros Hl. simpl. f_equal.
    induction IH as [|v l Hv _ IHl]; [done|]. inversion_clear Hl. simpl. f_equal; auto.
  - rewrite value_wf_object. intros [Hs Hm]. simpl. rewrite <- (BTree.of_list_sorted m Hs) at 2.
    do 2 f_equal. clear Hs. induction IH as [|[k v] m Hv _ IHm]; [done|]. inversion_clear Hm.
    simpl in *. do 2 f_equal; auto.
Qed.

Lemma agree_le lo lo' hi hi' h k :
  (lo ≤ lo')%nat → (hi' ≤ hi)%nat → agree lo hi h k → agree lo' hi' h k.
Proof. intros ? ? Ha i Hi. apply Ha. lia. Qed.
Lemma agree_trans lo hi h k m : agree lo hi h k → agree lo hi k m → agree lo hi h m.
Proof. intros H1 H2 i Hi. by rewrite H2, H1. Qed.

Lemma agree_alloc h o : agree 0 (length h) h (h ++ [o]).
Proof. intros i Hi. rewrite lookup_app_l; [done|lia]. Qed.

Lemma alloc_built o h v :
  leaf o = Some v → built h (h ++ [o]) (length h) (TLeaf v).
Proof.
  intros Hl. split_and!; [rewrite length_app; lia|apply agree_alloc|].
  intros k Hk. constructor. unfold deref. rewrite Hk by (rewrite length_app; simpl; lia).
  by rewrite lookup_app_r, Nat.sub_diag by lia.
Qed.

Lemma number_built n h :
  number_wf n → let '(l, h') := json_value_to_py (JNumber n) h in built h h' l (TLeaf (JNumber n)).
Proof.
  intros Hn.
  assert (∀ z, i64_min ≤ z ≤ u64_max → JNumber n = jint z →
    built h (h ++ [PyInt z]) (length h) (TLeaf (JNumber n))) as Hint.
  { intros z Hz ->. apply alloc_built. simpl.
    by replace ((i64_min <=? z) && (z <=? u64_max)) with true by lia. }
  unfold i64_min, u64_max, jint, num_of_i64 in *.
  destruct n as [z|z|x]; simpl in *; unfold i64_min, u64_max, i64_max in *.
  - assert (built h (h ++ [PyInt z]) (length h) (TLeaf (JNumber (PosInt z)))).
    { apply Hint; [lia|]. by replace (0 <=? z) with true by lia. }
    by destruct (z <=? _).
  - apply Hint; [lia|]. by replace (0 <=? z) with false by lia.
  - apply alloc_built. simpl. by rewrite Hn.
Qed.

(** The container at [l] while it is filled: it is object [o], and what was
    built after it satisfies [Q] in every store that has it. *)
Definition filling (h : Store) (o : PyObj) (Q : Store → Prop) (hc : Store) : Prop :=
  (length h < length hc)%nat ∧ agree 0 (length h) h hc ∧ hc !! length h = Some o ∧
  ∀ k, agree (S (length h)) (length hc) hc k → Q k.

Lemma filling_grow h o (Q : Store → Prop) hc hn l t :
  filling h o Q hc → built hc hn l t → filling h o (λ k, Q k ∧ unfolds k l t) hn.
Proof.
  intros (Hlt & Hold & Ho & Hq) (Hle & Hag & Hl). split_and!.
  - lia.
  - eapply agree_trans; [done|]. eapply agree_le; [| |exact Hag]; lia.
  - rewrite Hag by lia. done.
  - intros k Hk. split.
    + apply Hq. intros i Hi. rewrite Hk by lia. apply Hag. lia.
    + apply Hl. eapply agree_le; [| |exact Hk]; lia.
Qed.

Lemma filling_set h o Q hc f :
  filling h o Q hc → filling h (f o) Q (alter f (length h) hc).
Proof.
  intros (Hlt & Hold & Ho & Hq).
  assert (∀ i, i ≠ length h → alter f (length h) hc !! i = hc !! i) as Hne.
  { intros i Hi. by rewrite list_lookup_alter_ne. }
  split_and!.
  - by rewrite length_alter.
  - intros i Hi. rewrite Hne by lia. apply Hold. lia.
  - by rewrite list_lookup_alter_eq, Ho.
  - intros k Hk. rewrite length_alter in Hk. apply Hq. intros i Hi. rewrite Hk by lia. apply Hne. lia.
Qed.

Lemma filling_impl h o (Q Q' : Store → Prop) hc :
  (∀ k, Q k → Q' k) → filling h o Q hc → filling h o Q' hc.
Proof. intros HQ (? & ? & ? & ?). split_and!; auto. Qed.

Lemma filling_start h o : filling h o (λ _, True) (h ++ [o]).
Proof.
  split_and!; [rewrite length_app; simpl; lia|apply agree_alloc| |done].
  by rewrite lookup_app_r, Nat.sub_diag by lia.
Qed.

(** A filled container is built. *)
Lemma filling_built h o (Q : Store → Prop) hc t :
  filling h o Q hc → (∀ k, deref k (length h) = o → Q k → unfolds k (length h) t) →
  built h hc (length h) t.
Proof.
  intros (Hlt & Hold & Ho & Hq) HQ. split_and!; [lia|done|]. intros k Hk. apply HQ.
  - unfold deref. rewrite Hk by lia. by rewrite Ho.
  - apply Hq. eapply agree_le; [| |exact Hk]; lia.
Qed.

Definition builds (v : value) : Prop :=
  ∀ h, let '(l, h') := json_value_to_py v h in built h h' l (tree_of v).

Lemma list_built h vs : Forall builds vs → ∀ items ts hc,
  filling h (PyList items) (λ k, Forall2 (unfolds k) items ts) hc →
  ∃ items', filling h (PyList items') (λ k, Forall2 (unfolds k) items' (ts ++ (tree_of <$> vs)))
    (foldl (λ h' item, let '(py_item, h') := json_value_to_py item h' in
              list_append (length h) py_item h') hc vs).
Proof.
  induction 1 as [|v vs Hv _ IH]; intros items ts hc Hf; simpl.
  - exists items. by rewrite app_nil_r.
  - specialize (Hv hc). destruct (json_value_to_py v hc) as [l hn].
    pose proof (filling_set _ _ _ _ (λ o, match o with PyList items => PyList (items ++ [l]) | _ => o end)
      (filling_grow _ _ _ _ _ _ _ Hf Hv)) as Hf'.
    destruct (IH (items ++ [l]) (ts ++ [tree_of v]) (list_append (length h) l hn)) as [items' Hi'].
    { eapply filling_impl; [|exact Hf']. intros k [Hi Hl]. apply Forall2_app; [done|by constructor]. }
    exists items'. rewrite <- app_assoc in Hi'. exact Hi'.
Qed.

Definition entries (k : Store) (items : list (nat * nat)) (ts : list (string * tree)) : Prop :=
  Forall2 (λ kv kt, deref k kv.1 = PyStr (Some kt.1) ∧ unfolds k kv.2 kt.2) items ts.

Lemma dict_put_fresh h key item items ts name :
  entries h items ts → deref h key = PyStr (Some name) → name ∉ ts.*1 →
  dict_put h key item items = items ++ [(key, item)].
Proof.
  intros He Hk. induction He as [|[a i] [n t] items ts [Ha _] _ IH]; simpl; [done|].
  intros [Hne Hni]%not_elem_of_cons. simpl in *. rewrite Ha, Hk. simpl.
  assert (seqb n name = false) as -> by (by apply String.eqb_neq).
  by rewrite IH.
Qed.

Lemma leaf_string o s : leaf o = Some (JString s) → o = PyStr (Some s).
Proof.
  unfold leaf, jint.
  destruct o as [| | | |[]| | |[] [] []]; simpl; intros; repeat case_match; by simplify_eq/=.
Qed.

Lemma dict_step h items ts hc name l hn t :
  filling h (PyDict items) (λ k, entries k items ts) hc → name ∉ ts.*1 → built hc hn l t →
  ∃ items', filling h (PyDict items') (λ k, entries k items' (ts ++ [(name, t)]))
    (dict_set_item (length h) (length hn) l (hn ++ [PyStr (Some name)])).
Proof.
  intros Hf Hni Hb.
  pose proof (filling_grow _ _ _ _ _ _ _ Hf Hb) as Hf1.
  pose proof (filling_grow _ _ _ _ _ _ _ Hf1 (alloc_built (PyStr (Some name)) hn _ eq_refl)) as Hf2.
  set (hk := hn ++ [PyStr (Some name)]) in *.
  assert (∀ k, unfolds k (length hn) (TLeaf (JString name)) → deref k (length hn) = PyStr (Some name))
    as Hkey by (intros k Hu; inversion Hu; by apply leaf_string).
  destruct Hf2 as (? & ? & ? & HQ2). destruct (HQ2 hk) as [[He _] Hu]; [done|].
  exists (items ++ [(length hn, l)]).
  rewrite <- (dict_put_fresh hk (length hn) l items ts name He (Hkey _ Hu) Hni) at 1.
  apply (filling_set h (PyDict items) _ hk (λ o, match o with
    PyDict items => PyDict (dict_put hk (length hn) l items) | _ => o end)).
  split_and!; [done..|]. intros k Hk. destruct (HQ2 k Hk) as [[He' Hl'] Hu'].
  apply Forall2_app; [done|]. constructor; [|constructor]. auto.
Qed.

Lemma dict_built h m : Forall (λ kv, builds kv.2) m → ∀ items ts hc,
  NoDup (ts.*1 ++ m.*1) →
  filling h (PyDict items) (λ k, entries k items ts) hc →
  ∃ items', filling h (PyDict items')
    (λ k, entries k items' (ts ++ ((λ kv, (kv.1, tree_of kv.2)) <$> m)))
    (foldl (λ h' kv, let '(py_value, h') := json_value_to_py kv.2 h' in
                     let '(key, h') := alloc (PyStr (Some kv.1)) h' in
                     dict_set_item (length h) key py_value h') hc m).
Proof.
  induction 1 as [|[name v] m Hv _ IH]; intros items ts hc Hnd Hf; simpl.
  - exists items. by rewrite app_nil_r.
  - specialize (Hv hc). simpl in Hv. destruct (json_value_to_py v hc) as [l hn].
    rewrite fmap_cons in Hnd. simpl in Hnd.
    assert (name ∉ ts.*1) as Hni.
    { apply NoDup_app in Hnd as (_ & Hd & _). intros Hin. apply (Hd _ Hin). left. }
    destruct (dict_step _ _ _ _ name _ _ _ Hf Hni Hv) as [items1 Hf1].
    apply (IH items1 (ts ++ [(name, tree_of v)])) in Hf1 as [items' Hi];
      [|by rewrite fmap_app, <- app_assoc].
    exists items'. rewrite <- app_assoc in Hi. exact Hi.
Qed.

Lemma json_value_to_py_builds v : value_wf v → builds v.
Proof.
  induction v as [|b|n|s|vs IH|m IH] using value_ind'; intros Hwf h.
  - by apply alloc_built.
  - by apply alloc_built.
  - by apply number_built.
  - by apply alloc_built.
  - apply value_wf_array in Hwf. simpl.
    destruct (list_built h vs) with (items := @nil nat) (ts := @nil tree) (hc := h ++ [PyList []])
      as [items Hf].
    { apply Forall_forall. intros v Hv. rewrite Forall_forall in IH, Hwf. auto. }
    { eapply filling_impl; [|apply filling_start]. intros; constructor. }
    eapply filling_built; [exact Hf|]. intros k Ho Hk. by econstructor.
  - apply value_wf_object in Hwf as [Hs Hwf]. simpl.
    destruct (dict_built h m) with (items := @nil (nat * nat)) (ts := @nil (string * tree))
      (hc := h ++ [PyDict []]) as [items Hf].
    { apply Forall_forall. intros v Hv. rewrite Forall_forall in IH, Hwf. auto. }
    { by apply BTree.sorted_NoDup_keys. }
    { eapply filling_impl; [|apply filling_start]. intros; constructor. }
    eapply filling_built; [exact Hf|]. intros k Ho Hk. by econstructor.
Qed.

Definition fits (v : value) : Prop :=
  (tree_depth (tree_of v) ≤ 64)%nat ∧ tree_nodes (tree_of v) ≤ 16384 ∧
  tree_bytes (tree_of v) ≤ 1024 * 1024.

(** [object] of [h'], made from [h], reads back as [v]. *)
Definition reads_back (v : value) (h : Store) (object : nat) (h' : Store) : Prop :=
  (∀ i, (i < length h)%nat → h' !! i = h !! i) ∧
  ∀ w, py_any_to_json_value h' object = Ok w ↔ w = v ∧ fits v.
Lemma json_reads_back v h :
  value_wf v → reads_back v h (json_value_to_py v h).1 (json_value_to_py v h).2.
Proof.
  intros Hwf. pose proof (json_value_to_py_builds v Hwf h) as Hb.
  destruct (json_value_to_py v h) as [l h']. destruct Hb as (_ & Hold & Hu).
  specialize (Hu h' (λ _ _, eq_refl)). split; [intros i Hi; apply Hold; lia|].
  intros w. rewrite reads_exactly. split.
  - intros (t & Ht & <- & Hf). rewrite (unfolds_functional _ _ _ _ Ht Hu) in *.
    by rewrite tree_value_of.
  - intros [-> Hf]. exists (tree_of v). split_and!; [done|by apply tree_value_of|apply Hf..].
Qed.

(** A JSON value turned into Python objects reads back as itself, whatever
    other objects there are (they are untouched): integers up to the extremes
    of [i64] and [u64], floats, strings and nested containers are exact; it is
    refused only when it exceeds the budgets of the reader. *)
Theorem python_roundtrip v h :
  value_wf v →
  let '(object, h') := json_value_to_py v h in
  (∀ i, (i < length h)%nat → h' !! i = h !! i) ∧
  ∀ w, py_any_to_json_value h' object = Ok w ↔ w = v ∧ fits v.
Proof.
  intros Hwf. pose proof (json_reads_back v h Hwf) as Hr. by destruct (json_value_to_py v h).
Qed.
End exact.

(** ** Instances *)
#[local] Existing Instance exact_layout.

(** A shared list is read twice; a list and a dict that contain themselves, a
    tuple-like object, a too wide integer and a lone surrogate are refused. *)
Example sharing_and_cycles :
  let h := [PyInt 7; PyList [0]; PyList [1; 1]; PyStr (Some "self"); PyList [4]; PyDict [(3, 5)];
            PyOther None None None; PyInt (2 ^ 64); PyStr None]%nat in
  py_any_to_json_value h 2 = Ok (JArray [JArray [jint 7]; JArray [jint 7]]) ∧
  py_any_to_json_value h 4 = Err (PyValueError "Cyclic JSON container") ∧
  py_any_to_json_value h 5 = Err (PyValueError "Cyclic JSON container") ∧
  py_any_to_json_value h 6 = Err (PyTypeError "Unsupported type for JSON conversion") ∧
  py_any_to_json_value h 7 =
    Err (PyValueError "JSON integer must fit signed or unsigned 64-bit range") ∧
  py_any_to_json_value h 8 = Err PyUnicodeError.
Proof. by vm_compute. Qed.

Definition demo_value : value :=
  obj [("extremes", JArray [jint i64_min; JNumber (PosInt u64_max); JNumber (Float (F64.of_Z (-3)))]);
       ("nested", obj [("text", JString "a"); ("flag", JBool true); ("none", JNull)])].

Lemma python_roundtrip_witness :
  let '(object, h) := json_value_to_py demo_value [PyNone; PyList [0%nat; 1%nat]] in
  py_any_to_json_value h object = Ok demo_value.
Proof.
  apply (proj2 (python_roundtrip demo_value [PyNone; PyList [0%nat; 1%nat]]
    ltac:(vm_compute; repeat split; try discriminate; repeat constructor)) demo_value).
  split; [done|]. split; [vm_compute; lia|]. by split; vm_compute.
Defined.
