(* ===== verification/Video.v ===== *)
(** * Video (src/src/video/codec.rs, service.rs)

    [H264Decoder]: admission of encoded NALs to a GStreamer pipeline and the
    frames it delivers; [packed_bgr_frame]: the repacking of a mapped frame;
    [spawn_video_handler]: the task that reads RTP packets, reassembles NALs,
    decodes them and enqueues the frames.  GStreamer is external: its appsrc is
    a queue, its streaming thread moves buffers out of it and calls back, its
    bus reports failures; what it returns are arguments.  The theorems: the
    repacked frame is the picture and nothing else, the encoded queue is bounded
    and its count exact, an error is final, and until then no NAL is lost. *)
From S2P Require Import Prelude Json Channel Events Utf8.
From S2P Require H264.
#[local] Open Scope Z_scope.

(** ** codec.rs: the choice of the decoder *)

(** [requested] is the environment variable, the flags are the registry's. *)
Definition lowercase (s : string) : string := string_of_bytes (to_ascii_lowercase <$> as_bytes s).
Definition detect_h264_decoder (env_var : option string) (has_nvv4l2 has_avdec : bool) :
    PortResult string :=
  let requested := lowercase (trim (default "auto" env_var)) in
  let auto :=
    if has_nvv4l2 then Ok "nvv4l2decoder" else
    if has_avdec then Ok "avdec_h264" else
    Err ("No H264 decoder plugin found in GStreamer. Install the GStreamer libav plugin "
         +:+ "(avdec_h264) or run on Jetson (nvv4l2decoder).") in
  if seqb requested "" || seqb requested "auto" then auto else
  if seqb requested "nvv4l2decoder" then
    if has_nvv4l2 then Ok "nvv4l2decoder" else
    Err "UNITREE_WEBRTC_H264_DECODER=nvv4l2decoder was requested, but the plugin is not available."
  else if seqb requested "avdec_h264" then
    if has_avdec then Ok "avdec_h264" else
    Err "UNITREE_WEBRTC_H264_DECODER=avdec_h264 was requested, but the plugin is not available."
  else Err ("Unsupported UNITREE_WEBRTC_H264_DECODER='" +:+ requested
            +:+ "'. Use auto, nvv4l2decoder, or avdec_h264.").

(** gstreamer_util.rs: [GST_INIT] runs [gstreamer::init] once; [st] is its outcome
    when it has run, [init] what it returns if it runs now. *)
Definition ensure_gst_init (init : bool) (st : option bool) : PortResult () * option bool :=
  let ok := default init st in
  (if ok then Ok () else Err "GStreamer initialization failed. Is GStreamer installed?", Some ok).
Lemma ensure_gst_init_once init init' st :
  let '(r, st') := ensure_gst_init init st in ensure_gst_init init' st' = (r, st').
Proof. done. Qed.

(** ** codec.rs: frames *)
Definition MAX_VIDEO_BUFFER_BYTES : Z := 64 * 1024 * 1024.
Record DecodedFrame := { df_data : bytes; df_width : Z; df_height : Z }.

Definition bgr_output_size (width height : Z) : option (Z * Z) :=
  row_bytes ← checked_mul 64 width 3;
  output_bytes ← checked_mul 64 row_bytes height;
  if (row_bytes =? 0) || (height =? 0) || (MAX_VIDEO_BUFFER_BYTES <? output_bytes)
  then None else Some (row_bytes, output_bytes).

(** A mapped [VideoFrameRef]: its size, the [i32] stride, the offset and the
    data of plane 0. *)
Record VideoFrameRef := {
  vf_width : Z; vf_height : Z; vf_stride : Z; vf_offset : Z; vf_plane : option bytes }.
(** A sample: the negotiated format and size, the mapping and the buffer size. *)
Record Sample := {
  s_is_bgr : bool; s_width : Z; s_height : Z; s_mapped : option VideoFrameRef; s_size : Z }.

(** [chunks_exact]. *)
Fixpoint chunks_loop {A} (fuel : nat) (n : Z) (l : list A) : list (list A) :=
  match fuel with
  | O => []
  | S fuel => if len l <? n then [] else slice_to l n :: chunks_loop fuel n (slice_from l n)
  end.
Definition chunks_exact {A} (n : Z) (l : list A) : list (list A) := chunks_loop (length l) n l.

Definition packed_bgr_frame (s : Sample) : option DecodedFrame :=
  if negb (s_is_bgr s) then None else
  _ ← bgr_output_size (s_width s) (s_height s);
  frame ← s_mapped s;
  size ← bgr_output_size (vf_width frame) (vf_height frame);
  let '(row_bytes, output_bytes) := size in
  stride ← (if vf_stride frame <? 0 then None else Some (vf_stride frame));
  plane_bytes ← checked_mul 64 stride (vf_height frame);
  if (stride <? row_bytes) || (MAX_VIDEO_BUFFER_BYTES <? plane_bytes)
     || match checked_add 64 (vf_offset frame) plane_bytes with
        | Some end_ => s_size s <? end_
        | None => true
        end
  then None else
  plane ← vf_plane frame;
  if len plane <? plane_bytes then None else
  Some {| df_data := concat ((λ row, slice_to row row_bytes) <$>
                             take (Z.to_nat (vf_height frame)) (chunks_exact stride plane));
          df_width := vf_width frame; df_height := vf_height frame |}.

(** What the decoder promises of its frames: three bytes per pixel. *)
Definition frame_ok (f : DecodedFrame) : Prop :=
  0 < df_width f ∧ 0 < df_height f ∧ len (df_data f) = df_height f * (df_width f * 3) ∧
  len (df_data f) ≤ MAX_VIDEO_BUFFER_BYTES.

Lemma bgr_output_size_Some w h row out :
  0 ≤ w → 0 ≤ h →
  bgr_output_size w h = Some (row, out) ↔
  row = w * 3 ∧ out = w * 3 * h ∧ 0 < w ∧ 0 < h ∧ w * 3 * h ≤ MAX_VIDEO_BUFFER_BYTES.
Proof.
  intros Hw Hh. unfold bgr_output_size, checked_mul, MAX_VIDEO_BUFFER_BYTES.
  destruct (w * 3 <? 2 ^ 64) eqn:E1; simpl; [|split; [done|nia]].
  destruct (w * 3 * h <? 2 ^ 64) eqn:E2; simpl; [|split; [done|nia]].
  destruct (_ || _) eqn:E3; simpl.
  - split; [done|]. intros (-> & -> & ? & ? & ?).
    apply orb_prop in E3 as [[?|?]%orb_prop|?]; nia.
  - bool_hyps. split; [intros [= <- <-]; split_and!; nia|]. by intros (-> & -> & _).
Qed.

Lemma chunks_loop_spec {A} fuel n (l : list A) k :
  0 < n → (length l ≤ fuel)%nat → Z.of_nat k * n ≤ len l →
  take k (chunks_loop fuel n l) =
  (λ i, slice_to (slice_from l (Z.of_nat i * n)) n) <$> seq 0 k.
Proof.
  intros Hn. revert l k. induction fuel as [|fuel IH]; intros l k Hf Hk.
  - destruct k as [|k]; [done|]. unfold len in Hk. nia.
  - destruct k as [|k]; [done|]. simpl. replace (len l <? n) with false by nia.
    rewrite firstn_cons. f_equal. change (list_fmap _ _ ?f ?l') with (f <$> l').
    rewrite <- fmap_S_seq, <- list_fmap_compose, IH.
    + apply list_fmap_ext. intros ? i _. simpl. f_equal. unfold slice_from.
      rewrite drop_drop. f_equal. lia.
    + unfold slice_from. rewrite length_drop. unfold len in *. lia.
    + rewrite len_slice_from by nia. lia.
Qed.

Lemma concat_rows {A} (row : nat → list A) (n : Z) k :
  (∀ i, (i < k)%nat → len (row i) = n) →
  len (concat (row <$> seq 0 k)) = Z.of_nat k * n ∧
  ∀ i j, (i < k)%nat → 0 ≤ j < n →
    concat (row <$> seq 0 k) !! Z.to_nat (Z.of_nat i * n + j) = row i !! Z.to_nat j.
Proof.
  induction k as [|k IH]; intros Hr; [split; [done|lia]|].
  rewrite seq_S, fmap_app, concat_app. simpl. rewrite app_nil_r.
  destruct IH as [Hlen Hat]; [auto|].
  rewrite len_app, Hlen, Hr by lia. split; [lia|]. intros i j Hi Hj.
  destruct (decide (i = k)) as [->|Hne].
  - rewrite lookup_app_r by (unfold len in Hlen; lia). f_equal. unfold len in Hlen. lia.
  - rewrite lookup_app_l; [apply Hat; lia|]. unfold len in Hlen. nia.
Qed.

(** The values have the types of the source. *)
Definition frame_typed (m : VideoFrameRef) : Prop :=
  0 ≤ vf_width m ∧ 0 ≤ vf_height m ∧ vf_stride m < 2 ^ 31 ∧ 0 ≤ vf_offset m.
Definition sample_typed (s : Sample) : Prop :=
  0 ≤ s_width s ∧ 0 ≤ s_height s ∧ 0 ≤ s_size s < 2 ^ 64 ∧ ∀ m, s_mapped s = Some m → frame_typed m.
(** A size the policy allows. *)
Definition size_ok (w h : Z) : Prop := 0 < w ∧ 0 < h ∧ w * 3 * h ≤ MAX_VIDEO_BUFFER_BYTES.
(** The rows fit into the plane, and the plane into the buffer. *)
Definition layout_ok (s : Sample) (m : VideoFrameRef) (plane : bytes) : Prop :=
  vf_width m * 3 ≤ vf_stride m ∧ vf_stride m * vf_height m ≤ MAX_VIDEO_BUFFER_BYTES ∧
  vf_offset m + vf_stride m * vf_height m ≤ s_size s ∧ vf_stride m * vf_height m ≤ len plane.
(** [data] is the picture of [plane]: its rows without their padding. *)
Definition picture (m : VideoFrameRef) (plane data : bytes) : Prop :=
  len data = vf_height m * (vf_width m * 3) ∧
  ∀ r c, 0 ≤ r < vf_height m → 0 ≤ c < vf_width m * 3 →
    data !! Z.to_nat (r * (vf_width m * 3) + c) = plane !! Z.to_nat (r * vf_stride m + c).

Lemma picture_unique m plane data data' :
  0 < vf_width m → picture m plane data → picture m plane data' → data = data'.
Proof.
  intros Hw [Hl Hd] [Hl' Hd']. apply list_eq. intros i.
  destruct (decide (i < length data)%nat) as [Hi|Hi].
  - assert (0 < vf_width m * 3) as Hn by lia. set (n := vf_width m * 3) in *.
    pose proof (Z.div_mod (Z.of_nat i) n). pose proof (Z.mod_pos_bound (Z.of_nat i) n).
    assert (i = Z.to_nat (Z.of_nat i / n * n + Z.of_nat i mod n)) as -> by lia.
    assert (0 ≤ Z.of_nat i / n < vf_height m).
    { split; [apply Z.div_pos; lia|]. apply Z.div_lt_upper_bound; [lia|]. unfold len in Hl. lia. }
    rewrite Hd, Hd' by lia. done.
  - rewrite !lookup_ge_None_2; [done|unfold len in *; lia|lia].
Qed.

Lemma rows_picture m plane :
  frame_typed m → 0 < vf_width m → vf_width m * 3 ≤ vf_stride m →
  vf_stride m * vf_height m ≤ len plane →
  picture m plane (concat ((λ row, slice_to row (vf_width m * 3)) <$>
    take (Z.to_nat (vf_height m)) (chunks_exact (vf_stride m) plane))).
Proof.
  intros (? & ? & ? & ?) Hw Hs Hp. unfold chunks_exact.
  rewrite chunks_loop_spec; [|lia|lia|rewrite Z2Nat.id by lia; lia].
  rewrite <- list_fmap_compose.
  set (row := (_ ∘ _)).
  assert (∀ i, (i < Z.to_nat (vf_height m))%nat → len (row i) = vf_width m * 3 ∧
    ∀ j, 0 ≤ j < vf_width m * 3 →
      row i !! Z.to_nat j = plane !! Z.to_nat (Z.of_nat i * vf_stride m + j)) as Hrow.
  { intros i Hi. unfold row. simpl.
    assert (len (slice_from plane (Z.of_nat i * vf_stride m)) =
            len plane - Z.of_nat i * vf_stride m) as Hlen by (apply len_slice_from; nia).
    assert (len (slice_to (slice_from plane (Z.of_nat i * vf_stride m)) (vf_stride m)) = vf_stride m)
      as Hlen' by (apply len_slice_to; nia).
    split; [apply len_slice_to; lia|]. intros j Hj. unfold slice_to, slice_from.
    rewrite !lookup_take_lt by lia. rewrite lookup_drop. f_equal. nia. }
  destruct (concat_rows row (vf_width m * 3) (Z.to_nat (vf_height m))) as [Hl Hat].
  { intros i Hi. by apply Hrow. }
  split; [rewrite Hl; lia|]. intros r c Hr Hc.
  specialize (Hat (Z.to_nat r) c ltac:(lia) Hc). rewrite Z2Nat.id in Hat by lia. rewrite Hat.
  destruct (Hrow (Z.to_nat r) ltac:(lia)) as [_ Hj]. rewrite Hj by lia. by rewrite Z2Nat.id by lia.
Qed.

(** A sample becomes a frame exactly when it is BGR, its sizes are within
    the policy and its rows lie inside the mapped plane and the buffer; the
    frame has the mapped size and, byte for byte, the pixels of the picture: the
    row padding is dropped and nothing outside the rows is read. *)
Theorem packed_bgr_exact s f :
  sample_typed s →
  packed_bgr_frame s = Some f ↔
  s_is_bgr s = true ∧ size_ok (s_width s) (s_height s) ∧
  ∃ m plane, s_mapped s = Some m ∧ vf_plane m = Some plane ∧ size_ok (vf_width m) (vf_height m) ∧
    layout_ok s m plane ∧ df_width f = vf_width m ∧ df_height f = vf_height m ∧
    picture m plane (df_data f).
Proof.
  intros (Hsw & Hsh & Hss & Hm). unfold packed_bgr_frame. split.
  - destruct (s_is_bgr s); [|done]. simpl. intros ([row0 out0] & Hinfo & Hf)%bind_Some.
    apply bgr_output_size_Some in Hinfo as (_ & _ & Hinfo); [|done..].
    apply bind_Some in Hf as (m & Hmap & Hf). destruct (Hm m Hmap) as (? & ? & ? & ?).
    apply bind_Some in Hf as ([row out] & Hsize & Hf).
    apply bgr_output_size_Some in Hsize as (-> & -> & Hsize); [|done..].
    destruct (vf_stride m <? 0) eqn:Hneg; [done|]. simpl in Hf.
    apply bind_Some in Hf as (pb & Hpb & Hf). unfold checked_mul in Hpb.
    destruct (_ <? 2 ^ 64) in Hpb; [|done]. injection Hpb as <-.
    destruct (_ || _) eqn:Htest in Hf; [done|]. bool_hyps.
    destruct (checked_add _ _ _) as [end_|] eqn:Hadd; [|done]. unfold checked_add in Hadd.
    destruct (_ <? 2 ^ 64) in Hadd; [|done]. injection Hadd as <-.
    apply bind_Some in Hf as (plane & Hplane & Hf).
    destruct (len plane <? _) eqn:Hlen; [done|]. injection Hf as <-.
    split; [done|]. split; [exact Hinfo|]. exists m, plane.
    split_and!; [done|done|apply Hsize..|unfold layout_ok; lia|done|done|].
    simpl. apply rows_picture; unfold frame_typed; lia.
  - intros (-> & Hinfo & m & plane & Hmap & Hplane & Hsize & (Hs1 & Hs2 & Hs3 & Hs4) & Hw & Hh & Hpic).
    destruct (Hm m Hmap) as (? & ? & ? & ?). simpl.
    rewrite (proj2 (bgr_output_size_Some (s_width s) (s_height s) _ _ Hsw Hsh)
      (conj eq_refl (conj eq_refl Hinfo))). simpl. rewrite Hmap. simpl.
    rewrite (proj2 (bgr_output_size_Some (vf_width m) (vf_height m) _ _ ltac:(done) ltac:(done))
      (conj eq_refl (conj eq_refl Hsize))). simpl. destruct Hsize as (? & ? & ?).
    replace (vf_stride m <? 0) with false by lia. simpl.
    unfold checked_mul, checked_add, MAX_VIDEO_BUFFER_BYTES in *.
    replace (_ <? 2 ^ 64) with true by lia. simpl. replace (_ + _ <? 2 ^ 64) with true by lia.
    replace (_ || _) with false by lia. rewrite Hplane. simpl. replace (_ <? _) with false by lia.
    f_equal. destruct f as [data w h]. simpl in *. subst w h. f_equal.
    eapply picture_unique; [done| |exact Hpic]. apply rows_picture; unfold frame_typed; lia.
Qed.

Lemma packed_bgr_frame_ok s f : sample_typed s → packed_bgr_frame s = Some f → frame_ok f.
Proof.
  intros Hs (_ & _ & m & plane & Hmap & _ & (? & ? & ?) & _ & Hw & Hh & Hp & _)%packed_bgr_exact;
    [|done].
  unfold frame_ok. rewrite Hw, Hh, Hp. split_and!; [done|done|done|]. lia.
Qed.

(** ** codec.rs: the decoder *)
Definition MAX_ENCODED_BUFFERS : Z := 64.
Definition MAX_ENCODED_BYTES : Z := 8 * 1024 * 1024.
Inductive H264DecodeError :=
  | EncodedQueueOverflow | PipelineFailed | EndOfStream | BufferAllocationFailed
  | BufferMappingFailed | PushFailed | FrameChannelClosed.
Inductive BusMessage := BusError | BusEos.

(** The decoder with its pipeline: [appsrc] holds the pushed buffers, its thread
    takes one ([releasing]) and hands it past the source pad ([parsed]); [bus]
    has the error and end-of-stream messages. *)
Record H264Decoder (C : Type → Type) := {
  frame_rx : C DecodedFrame;
  queued_buffers : Z;
  terminal_error : option H264DecodeError;
  appsrc : list bytes;
  releasing : option bytes;
  parsed : list bytes;
  bus : list BusMessage;
}.
Arguments frame_rx {C}. Arguments queued_buffers {C}. Arguments terminal_error {C}.
Arguments appsrc {C}. Arguments releasing {C}. Arguments parsed {C}. Arguments bus {C}.

Definition total_bytes (l : list bytes) : Z := zsum (len <$> l).

(** What the threads of the pipeline do: take a buffer from appsrc, pass it (the
    pad probe), post a bus message, call back with a sample ([None]: it cannot
    be pulled), go away with the callbacks. *)
Inductive stream_op :=
  | Take | Probe | Post (m : BusMessage) | NewSample (s : option Sample) | SinkDropped.

(** What else happens in a call of [decode]: the threads before the push, and
    between the push and the last look at the frames; the outcomes of the
    buffer's allocation and mapping and of the push. *)
Record Interference := {
  before_push : list stream_op;
  allocation : option H264DecodeError;
  pushes : bool;
  after_push : list stream_op;
  before_recv : list stream_op;
}.

Section decoder.
Context {C : Type → Type} `{Chan C}.
Implicit Types (d : H264Decoder C).

Definition with_frames (q : C DecodedFrame) d : H264Decoder C :=
  {| frame_rx := q; queued_buffers := queued_buffers d; terminal_error := terminal_error d;
     appsrc := appsrc d; releasing := releasing d; parsed := parsed d; bus := bus d |}.
Definition with_terminal (e : H264DecodeError) d : H264Decoder C :=
  {| frame_rx := frame_rx d; queued_buffers := queued_buffers d; terminal_error := Some e;
     appsrc := appsrc d; releasing := releasing d; parsed := parsed d; bus := bus d |}.
Definition with_bus (l : list BusMessage) d : H264Decoder C :=
  {| frame_rx := frame_rx d; queued_buffers := queued_buffers d; terminal_error := terminal_error d;
     appsrc := appsrc d; releasing := releasing d; parsed := parsed d; bus := l |}.
(** The count and the places of the buffers. *)
Definition with_buffers (n : Z) (q : list bytes) (r : option bytes) (p : list bytes) d :
    H264Decoder C :=
  {| frame_rx := frame_rx d; queued_buffers := n; terminal_error := terminal_error d;
     appsrc := q; releasing := r; parsed := p; bus := bus d |}.

(** The part of [new] that is state. *)
Definition new_decoder : H264Decoder C :=
  {| frame_rx := bounded 4; queued_buffers := 0; terminal_error := None;
     appsrc := []; releasing := None; parsed := []; bus := [] |}.

Definition stream_step (o : stream_op) d : H264Decoder C :=
  match o with
  | Take =>
      match releasing d, appsrc d with
      | None, b :: q => with_buffers (queued_buffers d) q (Some b) (parsed d) d
      | _, _ => d
      end
  | Probe =>
      match releasing d with
      | Some b => with_buffers (wrapping_sub 64 (queued_buffers d) 1) (appsrc d) None
                    (parsed d ++ [b]) d
      | None => d
      end
  | Post m => with_bus (bus d ++ [m]) d
  | NewSample (Some s) =>
      match packed_bgr_frame s with
      | Some frame =>
          match chan_send (frame_rx d) frame with Ok q => with_frames q d | Err _ => d end
      | None => d
      end
  | NewSample None => d
  | SinkDropped => with_frames (close_tx (frame_rx d)) d
  end.
Definition stream_run (l : list stream_op) d : H264Decoder C := foldl (λ d o, stream_step o d) d l.

Definition check_health d : result H264DecodeError () * H264Decoder C :=
  match terminal_error d with
  | Some error => (Err error, d)
  | None =>
      match bus d with
      | m :: rest =>
          let error := match m with BusEos => EndOfStream | BusError => PipelineFailed end in
          (Err error, with_terminal error (with_bus rest d))
      | [] => (Ok (), d)
      end
  end.

Definition annex_b (nal_data : bytes) : bytes := [0; 0; 0; 1] ++ nal_data.

Definition decode_inner (nal_data : bytes) (i : Interference) d :
    result H264DecodeError (option DecodedFrame) * H264Decoder C :=
  match check_health d with
  | (Err e, d) => (Err e, d)
  | (Ok _, d) =>
      if len nal_data =? 0 then (Ok None, d) else
      let encoded_bytes := len nal_data + 4 in
      if MAX_ENCODED_BYTES <? encoded_bytes then (Err EncodedQueueOverflow, d) else
      if (MAX_ENCODED_BUFFERS <=? queued_buffers d)
         || (MAX_ENCODED_BYTES - encoded_bytes <? total_bytes (appsrc d))
      then (Err EncodedQueueOverflow, d) else
      let d := stream_run (before_push i) d in
      match allocation i with
      | Some e => (Err e, d)
      | None =>
          let n := wrapping_add 64 (queued_buffers d) 1 in
          if negb (pushes i)
          then (Err PushFailed, with_buffers n (appsrc d) (releasing d) (parsed d) d) else
          let d := with_buffers n (appsrc d ++ [annex_b nal_data]) (releasing d) (parsed d) d in
          let d := stream_run (after_push i) d in
          match check_health d with
          | (Err e, d) => (Err e, d)
          | (Ok _, d) =>
              let d := stream_run (before_recv i) d in
              match chan_recv (frame_rx d) with
              | Ok (frame, q) => (Ok (Some frame), with_frames q d)
              | Err Empty => (Ok None, d)
              | Err RecvDisconnected => (Err FrameChannelClosed, d)
              end
          end
      end
  end.
Definition decode (nal_data : bytes) (i : Interference) d :
    result H264DecodeError (option DecodedFrame) * H264Decoder C :=
  let '(result, d) := decode_inner nal_data i d in
  (result, match result with Err error => with_terminal error d | Ok _ => d end).

(** Everything that happens to a decoder. *)
Inductive decoder_op :=
  | Decode (nal_data : bytes) (i : Interference)
  | CheckHealth
  | Stream (o : stream_op).
Definition decoder_step (o : decoder_op) d : H264Decoder C :=
  match o with
  | Decode nal i => (decode nal i d).2
  | CheckHealth => (check_health d).2
  | Stream o => stream_step o d
  end.
Definition decoder_run (l : list decoder_op) d : H264Decoder C :=
  foldl (λ d o, decoder_step o d) d l.

(** *** The encoded queue *)
Definition in_pipeline d : Z := len (appsrc d) + match releasing d with Some _ => 1 | None => 0 end.
(** Every buffer that was pushed, in order. *)
Definition pushed d : list bytes := parsed d ++ option_list (releasing d) ++ appsrc d.

Record dec_inv d : Prop := {
  di_count : in_pipeline d ≤ queued_buffers d ≤ MAX_ENCODED_BUFFERS;
  di_exact : terminal_error d = None → queued_buffers d = in_pipeline d;
  di_bytes : total_bytes (appsrc d) ≤ MAX_ENCODED_BYTES;
}.

Lemma total_bytes_app l k : total_bytes (l ++ k) = total_bytes l + total_bytes k.
Proof. unfold total_bytes. by rewrite fmap_app, zsum_app. Qed.
Lemma len_annex_b nal : len (annex_b nal) = len nal + 4.
Proof. unfold annex_b. rewrite len_app, !len_cons, len_nil. lia. Qed.

Lemma new_decoder_inv : dec_inv new_decoder.
Proof. by split. Qed.

(** The threads of the pipeline only drain it. *)
Record drained d d' : Prop := {
  dr_inv : dec_inv d';
  dr_pushed : pushed d' = pushed d;
  dr_terminal : terminal_error d' = terminal_error d;
  dr_count : queued_buffers d' - in_pipeline d' = queued_buffers d - in_pipeline d;
  dr_buffers : queued_buffers d' ≤ queued_buffers d;
  dr_bytes : total_bytes (appsrc d') ≤ total_bytes (appsrc d);
}.

Lemma drained_refl d : dec_inv d → drained d d.
Proof. by split. Qed.
Lemma drained_trans d1 d2 d3 : drained d1 d2 → drained d2 d3 → drained d1 d3.
Proof. intros [] []. split; congruence || lia || done. Qed.

Lemma stream_step_drained o d : dec_inv d → drained d (stream_step o d).
Proof.
  intros Hd. pose proof Hd as [Hc Hx Hb]. unfold MAX_ENCODED_BUFFERS, MAX_ENCODED_BYTES in *.
  destruct o as [| |m|[s|]|]; simpl; try by (split; [split|..]).
  - destruct (releasing d) as [b|] eqn:Hr; [by apply drained_refl|].
    destruct (appsrc d) as [|b q] eqn:Hq; [by apply drained_refl|].
    assert (total_bytes (b :: q) = len b + total_bytes q) as Hbq by done.
    unfold in_pipeline, pushed in *. rewrite Hr, Hq in *. rewrite len_cons in *.
    pose proof (len_nonneg b).
    split; [split|..]; unfold in_pipeline, pushed; simpl; rewrite ?Hr, ?Hq; simpl;
      rewrite ?len_cons; intros; unfold MAX_ENCODED_BUFFERS, MAX_ENCODED_BYTES in *;
      try specialize (Hx ltac:(done)); try done; lia.
  - destruct (releasing d) as [b|] eqn:Hr; [|by apply drained_refl].
    assert (wrapping_sub 64 (queued_buffers d) 1 = queued_buffers d - 1) as Hw.
    { unfold wrapping_sub. apply Z.mod_small. unfold in_pipeline in Hc. rewrite Hr in Hc.
      pose proof (len_nonneg (appsrc d)). lia. }
    unfold in_pipeline, pushed in *. rewrite Hr in *.
    split; [split|..]; unfold in_pipeline, pushed; simpl; rewrite ?Hw, ?Hr;
      unfold MAX_ENCODED_BUFFERS, MAX_ENCODED_BYTES in *; try (done || lia).
    + intros Ht. specialize (Hx Ht). lia.
    + simpl. by rewrite <- app_assoc.
  - destruct (packed_bgr_frame s) as [f|]; [|by apply drained_refl].
    destruct (chan_send _ _); [by split; [split|..]|by apply drained_refl].
Qed.

Lemma stream_run_drained l d : dec_inv d → drained d (stream_run l d).
Proof.
  revert d. induction l as [|o l IH]; intros d Hd; [by apply drained_refl|]. simpl.
  pose proof (stream_step_drained o d Hd) as Hs. eapply drained_trans; [exact Hs|]. apply IH, Hs.
Qed.

Lemma check_health_cases d :
  (check_health d = (Ok (), d) ∧ terminal_error d = None ∧ bus d = []) ∨
  ∃ e d', check_health d = (Err e, d') ∧ terminal_error d' = Some e ∧
    pushed d' = pushed d ∧ (dec_inv d → dec_inv d') ∧
    (∀ e', terminal_error d = Some e' → e = e' ∧ d' = d).
Proof.
  unfold check_health. destruct (terminal_error d) as [e|] eqn:Ht.
  - right. exists e, d. naive_solver.
  - destruct (bus d) as [|m l]; [by left|]. right. eexists _, _. split; [done|].
    split_and!; [done|done| |done]. intros [Hc Hx Hb]. by split.
Qed.

(** What a call of [decode] leaves behind. *)
Definition decode_post (nal : bytes) (r : result H264DecodeError (option DecodedFrame)) d d' : Prop :=
  dec_inv d' ∧
  match r with
  | Ok _ => terminal_error d = None ∧ terminal_error d' = None ∧
      pushed d' = pushed d ++ (if len nal =? 0 then [] else [annex_b nal])
  | Err e => terminal_error d' = Some e ∧
      (pushed d' = pushed d ∨ pushed d' = pushed d ++ [annex_b nal])
  end.

Lemma with_terminal_inv e d : dec_inv d → dec_inv (with_terminal e d).
Proof. intros [Hc Hx Hb]. by split. Qed.

Lemma push_inv nal n d d' :
  dec_inv d → terminal_error d = None → drained d d' → n = wrapping_add 64 (queued_buffers d') 1 →
  queued_buffers d < MAX_ENCODED_BUFFERS →
  total_bytes (appsrc d) ≤ MAX_ENCODED_BYTES - (len nal + 4) →
  dec_inv (with_buffers n (appsrc d' ++ [annex_b nal]) (releasing d') (parsed d') d') ∧
  ∀ e, dec_inv (with_terminal e (with_buffers n (appsrc d') (releasing d') (parsed d') d')).
Proof.
  intros Hd Ht [[Hc Hx Hb] Hp Htt Hcount Hle Hbytes] -> Hlt Hroom. pose proof (di_exact _ Hd Ht) as He.
  assert (wrapping_add 64 (queued_buffers d') 1 = queued_buffers d' + 1) as ->.
  { unfold wrapping_add. apply Z.mod_small. unfold MAX_ENCODED_BUFFERS in *.
    unfold in_pipeline in *. pose proof (len_nonneg (appsrc d')). destruct (releasing d'); lia. }
  split; [|intros e]; split; unfold in_pipeline in *; simpl;
    rewrite ?len_app, ?len_cons, ?len_nil, ?total_bytes_app; try (done || lia).
  unfold total_bytes at 2. simpl. rewrite len_annex_b. lia.
Qed.

Lemma decode_spec nal i d r d' : dec_inv d → decode nal i d = (r, d') → decode_post nal r d d'.
Proof.
  intros Hd. unfold decode, decode_inner, decode_post.
  destruct (check_health_cases d) as [(-> & Ht & _)|(e & d1 & -> & Ht1 & Hp1 & Hi1 & _)].
  2:{ intros [= <- <-]. split; [by apply with_terminal_inv, Hi1|]. split; [done|by left]. }
  destruct (len nal =? 0) eqn:Hnal.
  { intros [= <- <-]. by rewrite app_nil_r. }
  destruct (_ <? len nal + 4).
  { intros [= <- <-]. split; [by apply with_terminal_inv|]. split; [done|by left]. }
  destruct (_ || _) eqn:Hfull.
  { intros [= <- <-]. split; [by apply with_terminal_inv|]. split; [done|by left]. }
  bool_hyps. pose proof (stream_run_drained (before_push i) d Hd) as Hs.
  set (d2 := stream_run (before_push i) d) in *.
  destruct (push_inv nal _ d d2 Hd Ht Hs eq_refl ltac:(lia) ltac:(lia)) as [Hpush Hfail].
  destruct (allocation i) as [e|].
  { intros [= <- <-]. split; [apply with_terminal_inv, Hs|]. split; [done|left; apply Hs]. }
  destruct (negb (pushes i)).
  { intros [= <- <-]. split; [apply Hfail|]. split; [done|left; apply Hs]. }
  set (d3 := with_buffers _ (appsrc d2 ++ _) _ _ _) in *.
  assert (pushed d3 = pushed d ++ [annex_b nal]) as Hp3.
  { rewrite <- (dr_pushed _ _ Hs). unfold pushed. simpl. by rewrite <- !app_assoc. }
  pose proof (stream_run_drained (after_push i) d3 Hpush) as Hs3.
  destruct (check_health_cases (stream_run (after_push i) d3))
    as [(-> & Ht4 & _)|(e & d4 & -> & Ht4 & Hp4 & Hi4 & _)].
  2:{ intros [= <- <-]. split; [by apply with_terminal_inv, Hi4, Hs3|]. split; [done|right].
      change (pushed d4 = pushed d ++ [annex_b nal]). by rewrite Hp4, (dr_pushed _ _ Hs3). }
  pose proof (stream_run_drained (before_recv i) _ (dr_inv _ _ Hs3)) as Hs5.
  set (d5 := stream_run (before_recv i) _) in *.
  assert (pushed d5 = pushed d ++ [annex_b nal]) as Hp5
    by by rewrite (dr_pushed _ _ Hs5), (dr_pushed _ _ Hs3).
  assert (terminal_error d5 = None) as Ht5 by by rewrite (dr_terminal _ _ Hs5).
  destruct (chan_recv (frame_rx d5)) as [[f q]|[]]; intros [= <- <-].
  - split; [destruct (dr_inv _ _ Hs5); by split|]. done.
  - split; [apply Hs5|]. done.
  - split; [apply with_terminal_inv, Hs5|]. split; [done|by right].
Qed.

Lemma decoder_step_inv o d : dec_inv d → dec_inv (decoder_step o d).
Proof.
  intros Hd. destruct o as [nal i| |o]; simpl.
  - destruct (decode nal i d) as [r d'] eqn:E. by apply decode_spec in E as [? _].
  - destruct (check_health_cases d) as [(-> & _)|(e & d' & -> & _ & _ & Hi & _)]; auto.
  - by apply stream_step_drained.
Qed.
Lemma decoder_run_inv l d : dec_inv d → dec_inv (decoder_run l d).
Proof. revert d. induction l as [|o l IH]; intros d Hd; [done|]. by apply IH, decoder_step_inv. Qed.

(** However calls of the decoder and the threads of the pipeline
    interleave, at most 64 encoded buffers and 8 MiB wait in the pipeline; the
    count of the decoder is never below the true number, equals it as long as
    there was no error, and never wraps. *)
Theorem encoded_queue_bounded l :
  let d := decoder_run l new_decoder in
  in_pipeline d ≤ 64 ∧ total_bytes (appsrc d) ≤ 8 * 1024 * 1024 ∧
  in_pipeline d ≤ queued_buffers d ≤ 64 ∧
  (terminal_error d = None → queued_buffers d = in_pipeline d).
Proof.
  intros d. destruct (decoder_run_inv l _ new_decoder_inv) as [Hc Hx Hb]. fold d in Hc, Hx, Hb.
  unfold MAX_ENCODED_BUFFERS, MAX_ENCODED_BYTES in *. split_and!; [lia|lia|lia|lia|done].
Qed.

(** An error of the decoder is final: whatever happens afterwards, every call
    returns it and no buffer is pushed. *)
Lemma decoder_error_final l d e :
  dec_inv d → terminal_error d = Some e →
  let d' := decoder_run l d in
  terminal_error d' = Some e ∧ pushed d' = pushed d ∧
  (check_health d').1 = Err e ∧ ∀ nal i, (decode nal i d').1 = Err e.
Proof.
  revert d. assert (∀ d, terminal_error d = Some e →
    check_health d = (Err e, d) ∧ ∀ nal i, decode nal i d = (Err e, with_terminal e d)) as Hstop.
  { intros d Ht. unfold decode, decode_inner, check_health. by rewrite Ht. }
  induction l as [|o l IH]; intros d Hd Ht; simpl.
  - destruct (Hstop d Ht) as [-> Hdec]. split_and!; try done. intros nal i. by rewrite Hdec.
  - assert (dec_inv (decoder_step o d) ∧ terminal_error (decoder_step o d) = Some e ∧
      pushed (decoder_step o d) = pushed d) as (Hi & He & Hp).
    { split; [by apply decoder_step_inv|]. destruct (Hstop d Ht) as [Hc Hdec].
      destruct o as [nal i| |o]; simpl; [by rewrite Hdec|by rewrite Hc|].
      destruct (stream_step_drained o d Hd) as [? ? Hterm]. by rewrite Hterm. }
    destruct (IH _ Hi He) as (? & Hp' & ?). by rewrite Hp', Hp.
Qed.
End decoder.

(** ** service.rs *)

(** The task of [spawn_video_handler]; [running]: it has not left its loop. *)
Record VideoHandler (C : Type → Type) := {
  decoder : H264Decoder C;
  reassembler : H264.H264RtpReassembler;
  frame_count : Z;
  running : bool;
}.
Arguments decoder {C}. Arguments reassembler {C}. Arguments frame_count {C}. Arguments running {C}.

(** The branches of its [select!], a packet with the outcome of its read, and
    what the other threads do to the pipeline and to the event channel. *)
Inductive video_op :=
  | HealthTick
  | Packet (p : H264.packet) (i : Interference) (seen : Z)
  | ReadError
  | Pipeline (o : stream_op)
  | Others (o : ev_op).

Section handler.
Context {C : Type → Type} `{Chan C} `{Layout}.
Implicit Types (h : VideoHandler C) (ch : Events C).

Definition with_decoder (d : H264Decoder C) h : VideoHandler C :=
  {| decoder := d; reassembler := reassembler h; frame_count := frame_count h; running := running h |}.
Definition with_reassembler (r : H264.H264RtpReassembler) h : VideoHandler C :=
  {| decoder := decoder h; reassembler := r; frame_count := frame_count h; running := running h |}.
Definition counted h : VideoHandler C :=
  {| decoder := decoder h; reassembler := reassembler h;
     frame_count := wrapping_add 64 (frame_count h) 1; running := running h |}.
Definition stop h : VideoHandler C :=
  {| decoder := decoder h; reassembler := reassembler h; frame_count := frame_count h;
     running := false |}.

(** [created]: [H264Decoder::new] succeeded. *)
Definition spawn_video_handler (created : bool) : VideoHandler C :=
  {| decoder := new_decoder; reassembler := H264.new; frame_count := 0; running := created |}.

(** A frame is handed to the event channel; a full channel drops it. *)
Definition deliver (tx : EventSender) (seen : Z) (f : DecodedFrame) h ch : VideoHandler C * Events C :=
  let h := counted h in
  let '(res, ch) := try_send tx seen (VideoFrame (df_data f) (df_width f) (df_height f)) ch in
  (match res with Err (Disconnected _) => stop h | _ => h end, ch).

Definition on_packet (tx : EventSender) (p : H264.packet) (i : Interference) (seen : Z) h ch :
    VideoHandler C * Events C :=
  let '(nal, r) := H264.process_rtp_packet (reassembler h) (H264.p_payload p) (H264.p_seq p)
                     (H264.p_ts p) in
  let h := with_reassembler r h in
  match nal with
  | None => (h, ch)
  | Some nal_data =>
      let '(result, d) := decode nal_data i (decoder h) in
      let h := with_decoder d h in
      match result with
      | Ok (Some decoded_frame) => deliver tx seen decoded_frame h ch
      | Ok None => (h, ch)
      | Err _ => (stop h, ch)
      end
  end.

Definition video_step (tx : EventSender) (o : video_op) (st : VideoHandler C * Events C) :
    VideoHandler C * Events C :=
  let '(h, ch) := st in
  match o with
  | HealthTick =>
      if running h then
        let '(result, d) := check_health (decoder h) in
        let h := with_decoder d h in
        (if is_err result then stop h else h, ch)
      else st
  | Packet p i seen => if running h then on_packet tx p i seen h ch else st
  | ReadError => (if running h then stop h else h, ch)
  | Pipeline o => (with_decoder (stream_step o (decoder h)) h, ch)
  | Others o => (h, ev_step o ch)
  end.
Definition video_run (tx : EventSender) (l : list video_op) (st : VideoHandler C * Events C) :
    VideoHandler C * Events C := foldl (λ st o, video_step tx o st) st l.

(** *** No NAL is lost *)
Definition packets (l : list video_op) : list H264.packet :=
  omap (λ o, match o with Packet p _ _ => Some p | _ => None end) l.
(** The NALs the reassembler completes on a stream of packets. *)
Definition nals (ps : list H264.packet) : list bytes := omap id (H264.outputs H264.new ps).1.

Lemma outputs_app st ps qs :
  H264.outputs st (ps ++ qs) =
  let '(rs, st') := H264.outputs st ps in
  let '(rs', st'') := H264.outputs st' qs in (rs ++ rs', st'').
Proof.
  revert st. induction ps as [|p ps IH]; intros st; simpl; [by destruct (H264.outputs st qs)|].
  destruct (H264.step st p) as [r st1]. rewrite IH. destruct (H264.outputs st1 ps) as [rs st2].
  by destruct (H264.outputs st2 qs).
Qed.

Lemma nals_snoc ps p :
  nals (ps ++ [p]) = nals ps ++ option_list (H264.step (H264.outputs H264.new ps).2 p).1 ∧
  (H264.outputs H264.new (ps ++ [p])).2 = (H264.step (H264.outputs H264.new ps).2 p).2.
Proof.
  unfold nals. rewrite outputs_app. destruct (H264.outputs H264.new ps) as [rs st]. simpl.
  destruct (H264.step st p) as [r st']. simpl. rewrite omap_app. by destruct r.
Qed.

(** A completed NAL has at least its header. *)
Lemma step_nonempty st p nal st' : H264.step st p = (Some nal, st') → len nal ≠ 0.
Proof.
  assert (∀ buf tail rtp e (r : option bytes) st', H264.append_fragment buf tail rtp e = (r, st') →
    buf ≠ [] → r = Some nal → len nal ≠ 0) as Happ.
  { intros buf tail rtp e r st2. unfold H264.append_fragment.
    destruct (_ <? _), e; intros [= <- <-] Hb; try done. intros [= <-].
    rewrite len_app. destruct buf; [done|]. rewrite len_cons.
    pose proof (len_nonneg buf). pose proof (len_nonneg tail). lia. }
  unfold H264.step, H264.process_rtp_packet. intros Hs.
  apply H264.process_payload_cases in Hs as
    [[? _]|[(b0 & rest & -> & _ & _ & _ & _ & [= ->] & _)|
     (b0 & u & tail & _ & _ & _ & [(_ & _ & _ & Ha)|(_ & _ & _ & Hhd & Ha)])]]; [done| | |].
  - rewrite len_cons. pose proof (len_nonneg rest). lia.
  - by apply Happ in Ha.
  - apply Happ in Ha; [done| |done]. by destruct (H264.buffer st).
Qed.

Record lossless (ps : list H264.packet) h : Prop := {
  ll_inv : dec_inv (decoder h);
  ll_prefix : pushed (decoder h) `prefix_of` (annex_b <$> nals ps);
  ll_running : running h = true →
    pushed (decoder h) = annex_b <$> nals ps ∧ terminal_error (decoder h) = None ∧
    reassembler h = (H264.outputs H264.new ps).2;
}.

Lemma lossless_more ps p h : running h = false → lossless ps h → lossless (ps ++ [p]) h.
Proof.
  intros Hr [Hi Hp _]. split; [done| |by rewrite Hr].
  rewrite (proj1 (nals_snoc ps p)), fmap_app. by apply prefix_app_r.
Qed.

Lemma lossless_stop ps h : lossless ps h → lossless ps (stop h).
Proof. by intros []. Qed.
Lemma lossless_deliver ps tx seen f h ch :
  lossless ps h → lossless ps (deliver tx seen f h ch).1.
Proof.
  intros [Hi Hp Hr]. unfold deliver. destruct (try_send _ _ _ _) as [[|[]] ch']; by split.
Qed.

Lemma lossless_packet ps tx p i seen h ch :
  running h = true → lossless ps h → lossless (ps ++ [p]) (on_packet tx p i seen h ch).1.
Proof.
  intros Hrun [Hi _ Hr]. destruct (Hr Hrun) as (Hpush & Ht & Hre). clear Hr.
  destruct (nals_snoc ps p) as [Hn Hst]. rewrite <- Hre in Hn, Hst.
  unfold on_packet. change (H264.process_rtp_packet _ _ _ _) with (H264.step (reassembler h) p).
  destruct (H264.step (reassembler h) p) as [[nal|] r] eqn:Hs; simpl in Hn, Hst.
  2:{ rewrite app_nil_r in Hn. split; simpl; [done| |]; rewrite ?Hn, ?Hst, ?Hpush; [done|].
      by intros _. }
  pose proof (step_nonempty _ _ _ _ Hs) as Hne.
  destruct (decode nal i (decoder (with_reassembler r h))) as [res d] eqn:Hd.
  apply decode_spec in Hd as [Hid Hpost]; [|done]. simpl in Hpost. rewrite Hpush in Hpost.
  destruct res as [f|e].
  - destruct Hpost as (_ & Ht' & Hp'). replace (len nal =? 0) with false in Hp' by lia.
    assert (lossless (ps ++ [p]) (with_decoder d (with_reassembler r h))) as Hl.
    { split; simpl; [done| |]; rewrite Hn, fmap_app; simpl; rewrite Hp'; [done|]. by rewrite Hst. }
    destruct f as [f|]; [by apply lossless_deliver|done].
  - split; simpl; [done| |done]. rewrite Hn, fmap_app. simpl.
    destruct Hpost as [_ [->| ->]]; [by apply prefix_app_r|done].
Qed.

Lemma lossless_drained ps h d :
  lossless ps h → drained (decoder h) d → lossless ps (with_decoder d h).
Proof.
  intros [Hi Hp Hr] [Hi' Hp' Ht' _ _ _]. split; simpl; [done|by rewrite Hp'|].
  rewrite Hp', Ht'. done.
Qed.

Lemma lossless_step ps tx o h ch :
  lossless ps h → lossless (ps ++ packets [o]) (video_step tx o (h, ch)).1.
Proof.
  intros Hl. destruct o as [|p i seen| |o|o]; simpl; rewrite ?app_nil_r; try done.
  - destruct (running h) eqn:Hrun; [|done].
    destruct (check_health_cases (decoder h)) as [(-> & _)|(e & d & -> & _ & Hp & Hi & _)].
    + by destruct h.
    + destruct Hl as [Hdi Hpre _]. split; simpl; [by apply Hi|by rewrite Hp|done].
  - destruct (running h) eqn:Hrun; [by apply lossless_packet|by apply lossless_more].
  - destruct (running h); [by apply lossless_stop|done].
  - apply lossless_drained; [done|]. apply stream_step_drained, Hl.
Qed.

(** C28: no NAL is lost, duplicated or reordered while the stream runs: whatever
    the pipeline and the other threads do, what the decoder has pushed is exactly
    the NALs the reassembler completed on the packets read so far, in order and
    each in Annex B form; once the stream has stopped it is a prefix of them. *)
Theorem video_lossless tx created l ch :
  let h := (video_run tx l (spawn_video_handler created, ch)).1 in
  pushed (decoder h) `prefix_of` (annex_b <$> nals (packets l)) ∧
  (running h = true → pushed (decoder h) = annex_b <$> nals (packets l)).
Proof.
  intros h. assert (lossless (packets l) h) as Hl; [|destruct Hl as [_ Hp Hr]; naive_solver].
  unfold h, video_run. induction l as [|o l IH] using rev_ind.
  - split; [apply new_decoder_inv|done|done].
  - rewrite foldl_snoc. unfold packets. rewrite omap_app.
    destruct (foldl _ _ l) as [h' ch']. by apply lossless_step.
Qed.

(** *** The frames that reach the callbacks *)

(** A video event has three bytes per pixel: what NumPy reshapes it to. *)
Definition event_shaped (event : CallbackEvent) : Prop :=
  match event with
  | VideoFrame data width height =>
      0 < width ∧ 0 < height ∧ len data = height * (width * 3) ∧ len data ≤ MAX_VIDEO_BUFFER_BYTES
  | _ => True
  end.
Definition delivery_shaped (d : EventDelivery) : Prop :=
  match d_event d with Some event => event_shaped event | None => True end.

Definition stream_typed (o : stream_op) : Prop :=
  match o with NewSample (Some s) => sample_typed s | _ => True end.
Definition interference_typed (i : Interference) : Prop :=
  Forall stream_typed (before_push i ++ after_push i ++ before_recv i).
(** The other threads send no video. *)
Definition video_op_typed (o : video_op) : Prop :=
  match o with
  | Packet _ i _ => interference_typed i
  | Pipeline o => stream_typed o
  | Others (TrySend _ _ event) => event_shaped event
  | _ => True
  end.
Definition frames_ok (d : H264Decoder C) : Prop := Forall frame_ok (contents (frame_rx d)).

Lemma stream_step_frames o d : stream_typed o → frames_ok d → frames_ok (stream_step o d).
Proof.
  unfold frames_ok. destruct o as [| |m|[s|]|]; simpl; intros Ho Hf; try done.
  - by destruct (releasing d), (appsrc d).
  - by destruct (releasing d).
  - destruct (packed_bgr_frame s) as [f|] eqn:Hs; [|done].
    destruct (chan_send_cases (frame_rx d) f) as [(q & -> & Hq & _)|[[-> _]|[-> _]]]; [|done..].
    simpl. rewrite Hq. apply Forall_app_2; [done|]. constructor; [|constructor].
    by eapply packed_bgr_frame_ok.
  - by destruct (close_tx_spec _ (frame_rx d)) as [-> _].
Qed.
Lemma stream_run_frames l d : Forall stream_typed l → frames_ok d → frames_ok (stream_run l d).
Proof.
  intros Hl. revert d. induction Hl as [|o l Ho _ IH]; intros d Hf; [done|].
  by apply IH, stream_step_frames.
Qed.

Lemma spawn_video_frames created : frames_ok (decoder (spawn_video_handler created)).
Proof. unfold frames_ok. simpl. by destruct (bounded_spec DecodedFrame 4 ltac:(done)) as [-> _]. Qed.
Lemma check_health_frames (d : H264Decoder C) : frame_rx (check_health d).2 = frame_rx d.
Proof. unfold check_health. by destruct (terminal_error d), (bus d). Qed.

Lemma decode_frames nal i (d : H264Decoder C) :
  interference_typed i → frames_ok d →
  frames_ok (decode nal i d).2 ∧ ∀ f, (decode nal i d).1 = Ok (Some f) → frame_ok f.
Proof.
  intros (H1 & (H2 & H3)%Forall_app)%Forall_app Hf. unfold decode, decode_inner.
  pose proof (check_health_frames d) as Hc. destruct (check_health d) as [[[]|e] d1]; simpl in Hc.
  2:{ split; [|done]. unfold frames_ok. simpl. by rewrite Hc. }
  assert (frames_ok d1) as Hf1 by (unfold frames_ok; by rewrite Hc).
  destruct (len nal =? 0); [done|]. destruct (_ <? _); [done|]. destruct (_ || _); [done|].
  pose proof (stream_run_frames _ _ H1 Hf1) as Hf2.
  destruct (allocation i) as [e|]; [done|]. destruct (negb (pushes i)); [done|].
  set (d3 := with_buffers _ (appsrc (stream_run _ d1) ++ _) _ _ _).
  pose proof (stream_run_frames (after_push i) d3 H2 Hf2) as Hf3.
  pose proof (check_health_frames (stream_run (after_push i) d3)) as Hc3.
  destruct (check_health (stream_run (after_push i) d3)) as [[[]|e] d4]; simpl in Hc3.
  2:{ split; [|done]. unfold frames_ok. simpl. by rewrite Hc3. }
  assert (frames_ok d4) as Hf4 by (unfold frames_ok; by rewrite Hc3).
  pose proof (stream_run_frames _ _ H3 Hf4) as Hf5.
  destruct (chan_recv _) as [[f q]|[]] eqn:Hr; [|done..].
  apply chan_recv_Ok in Hr as (Hr & _). unfold frames_ok in Hf5. rewrite Hr in Hf5.
  apply Forall_cons in Hf5 as [Hok Hq]. split; [done|]. by intros ? [= <-].
Qed.

Lemma try_send_shaped s seen event ch :
  events_inv ch → event_shaped event → Forall delivery_shaped (live ch) →
  Forall delivery_shaped (live (try_send s seen event ch).2).
Proof.
  intros Hi He Hl. destruct (try_send_refines s seen event ch Hi) as [_ Hs].
  destruct (try_send_spec s seen event ch); [|by rewrite Hs].
  destruct Hs as (-> & _). by constructor.
Qed.

Record shaped_inv h ch : Prop := {
  si_events : events_inv ch;
  si_frames : frames_ok (decoder h);
  si_live : Forall delivery_shaped (live ch);
}.

Lemma shaped_deliver tx seen f h ch :
  frame_ok f → shaped_inv h ch →
  let r := deliver tx seen f h ch in shaped_inv r.1 r.2.
Proof.
  intros Hf [Hi Hfr Hl]. unfold deliver.
  set (event := VideoFrame _ _ _).
  assert (events_inv (try_send tx seen event ch).2) as Hi'
    by apply (ev_step_inv (TrySend tx seen event) ch Hi).
  assert (Forall delivery_shaped (live (try_send tx seen event ch).2)) as Hl'
    by by apply try_send_shaped.
  destruct (try_send tx seen event ch) as [[|[]] ch']; by split.
Qed.

Lemma shaped_packet tx p i seen h ch :
  interference_typed i → shaped_inv h ch →
  let r := on_packet tx p i seen h ch in shaped_inv r.1 r.2.
Proof.
  intros Hty [Hi Hf Hl]. unfold on_packet.
  destruct (H264.process_rtp_packet _ _ _ _) as [[nal|] r]; [|by split].
  destruct (decode_frames nal i (decoder (with_reassembler r h)) Hty Hf) as [Hf' Hok].
  destruct (decode nal i _) as [[[f|]|e] d]; simpl in *; [|by split..].
  apply shaped_deliver; [by apply Hok|by split].
Qed.

Lemma shaped_others o h ch :
  video_op_typed (Others o) → shaped_inv h ch → shaped_inv h (ev_step o ch).
Proof.
  intros Hty [Hi Hf Hl]. split; [by apply ev_step_inv|done|]. apply Forall_forall. intros d Hd.
  apply ev_step_live in Hd as [Hd|[Hd|(s & seen & event & -> & ->)]]; [| |done|done].
  - rewrite Forall_forall in Hl. auto.
  - unfold delivery_shaped. by rewrite Hd.
Qed.

Lemma shaped_step tx o h ch :
  video_op_typed o → shaped_inv h ch →
  let r := video_step tx o (h, ch) in shaped_inv r.1 r.2.
Proof.
  intros Hty Hs. pose proof Hs as [Hi Hf Hl]. destruct o as [|p i seen| |o|o]; simpl.
  - destruct (running h); [|done]. pose proof (check_health_frames (decoder h)) as Hc.
    destruct (check_health (decoder h)) as [[]d]; simpl in *; split; simpl; try done;
      unfold frames_ok; simpl; by rewrite Hc.
  - destruct (running h); [by apply shaped_packet|done].
  - destruct (running h); by split.
  - split; [done|by apply stream_step_frames|done].
  - by apply shaped_others.
Qed.

(** Whatever the decoder is fed and however it is interleaved, every video
    event that is queued for or owned by a dispatcher carries exactly three bytes
    per pixel of its size, within the 64 MiB policy. *)
Theorem video_events_shaped capacity s ch tx created l :
  event_channel capacity = Ok (s, ch) → Forall video_op_typed l →
  Forall delivery_shaped (live (video_run tx l (spawn_video_handler created, ch)).2).
Proof.
  intros Hch Hty. apply event_channel_inv in Hch as (Hi & _ & _ & Hl).
  set (h := spawn_video_handler created).
  assert (shaped_inv h ch) as Hs.
  { split; [done|apply spawn_video_frames|by rewrite Hl]. }
  clearbody h. clear Hi Hl. revert h ch Hs. induction Hty as [|o l Ho _ IH]; intros h ch Hs; [apply Hs|].
  change (video_run tx (o :: l) (h, ch)) with (video_run tx l (video_step tx o (h, ch))).
  pose proof (shaped_step tx o h ch Ho Hs) as Hs'.
  destruct (video_step tx o (h, ch)) as [h' ch']. by apply IH.
Qed.
End handler.

(** ** Instances *)
#[local] Existing Instance exact_layout.

(** A 2x2 picture with padded rows behind a 4-byte offset. *)
Definition demo_sample : Sample :=
  {| s_is_bgr := true; s_width := 2; s_height := 2; s_size := 20;
     s_mapped := Some {| vf_width := 2; vf_height := 2; vf_stride := 8; vf_offset := 4;
       vf_plane := Some [1; 2; 3; 4; 5; 6; 88; 88; 7; 8; 9; 10; 11; 12; 88; 88] |} |}.
Definition demo_frame : DecodedFrame :=
  {| df_data := [1; 2; 3; 4; 5; 6; 7; 8; 9; 10; 11; 12]; df_width := 2; df_height := 2 |}.
Lemma demo_sample_typed : sample_typed demo_sample.
Proof. split_and!; try (simpl; lia). intros m [= <-]. split_and!; simpl; lia. Qed.

Lemma packed_bgr_exact_witness :
  packed_bgr_frame demo_sample = Some demo_frame ∧ size_ok 2 2.
Proof.
  split; [reflexivity|].
  exact (proj1 (proj2 (proj1 (packed_bgr_exact demo_sample demo_frame demo_sample_typed) eq_refl))).
Defined.

(** A single NAL unit is pushed, the picture comes back and is enqueued. *)
Definition demo_interference : Interference :=
  {| before_push := []; allocation := None; pushes := true;
     after_push := [Take; Probe; NewSample (Some demo_sample)]; before_recv := [] |}.
Definition demo_packet : video_op :=
  Packet {| H264.p_payload := [0x65; 1]; H264.p_seq := 0; H264.p_ts := 0 |} demo_interference 0.

Lemma video_events_shaped_witness :
  let st := video_run {| s_generation := 0 |} [demo_packet]
              (spawn_video_handler true, set_generation 0 demo_channel) in
  d_event <$> live st.2 = [Some (VideoFrame [1; 2; 3; 4; 5; 6; 7; 8; 9; 10; 11; 12] 2 2)] ∧
  Forall delivery_shaped (live st.2).
Proof.
  split; [reflexivity|].
  apply (video_events_shaped (C:=vec_chan) 8 {| s_generation := 0 |}); [reflexivity|].
  constructor; [|constructor]. repeat constructor; try (simpl; lia).
  all: intros; simplify_eq/=; lia.
Defined.
