(* ===== verification/AudioReceive.v ===== *)
(** * Audio receive (src/src/audio/receive/codec.rs, service.rs)

    [OpusDecoder] and [OpusEncoder] around libopus, and [spawn_audio_handler],
    the task that decodes RTP payloads into audio events.  The codec itself is a
    parameter with its documented behaviour.  The theorems: a decoded packet is
    exactly what the codec produced for it (nothing of an earlier packet is left
    in the reused buffer, which is never exceeded), and every audio event has
    whole stereo samples. *)
From S2P Require Import Prelude Json Channel Events.
#[local] Open Scope Z_scope.

(** libopus: a decoder fills the front of the PCM buffer and returns the number
    of samples per channel, which never exceeds the room; an encoder likewise. *)
Class Opus := {
  Decoder : Type;
  Encoder : Type;
  decoder_new : Z → Z → result string Decoder;
  encoder_new : Z → Z → result string Encoder;
  decoder_channels : Decoder → Z;
  opus_decode : Decoder → bytes → Z → result string (Z * list Z) * Decoder;
  opus_encode : Encoder → list Z → Z → result string bytes * Encoder;
  decoder_new_channels rate channels d :
    decoder_new rate channels = Ok d → decoder_channels d = channels;
  opus_decode_channels d data room :
    decoder_channels (opus_decode d data room).2 = decoder_channels d;
  opus_decode_room d data room n samples :
    (opus_decode d data room).1 = Ok (n, samples) →
    0 ≤ n ∧ len samples = n * decoder_channels d ∧ len samples ≤ room;
  opus_encode_room e pcm room packet :
    (opus_encode e pcm room).1 = Ok packet → len packet ≤ room;
}.

(** ** codec.rs *)
Record DecodedAudio := { da_data : list Z; da_sample_rate : Z; da_channels : Z }.

Section codec.
Context `{Opus}.

Record OpusDecoder := {
  decoder : Decoder;
  pcm_buffer : list Z;
  sample_rate : Z;
  channels : Z;
}.
Record OpusEncoder := { encoder : Encoder; opus_buffer : bytes }.

(** [Channels::Mono] and [Stereo]. *)
Definition channel_layout (channels : Z) : PortResult () :=
  if (channels =? 1) || (channels =? 2) then Ok ()
  else Err ("Unsupported channels: " +:+ pretty channels).

Definition new_decoder (rate channels : Z) : PortResult OpusDecoder :=
  _ ← channel_layout channels;
  d ← map_err (λ e, "Failed to create Opus decoder: " +:+ e) (decoder_new rate channels);
  Ok {| decoder := d; pcm_buffer := replicate (Z.to_nat (rate * 120 / 1000 * channels)) 0;
        sample_rate := rate; channels := channels |}.

(** The codec writes to the front of a buffer. *)
Definition fill {A} (samples buffer : list A) : list A := samples ++ drop (length samples) buffer.

Definition with_decoder (d : Decoder) (pcm : list Z) (o : OpusDecoder) : OpusDecoder :=
  {| decoder := d; pcm_buffer := pcm; sample_rate := sample_rate o; channels := channels o |}.
Definition decode (opus_data : bytes) (o : OpusDecoder) : PortResult DecodedAudio * OpusDecoder :=
  let audio data := {| da_data := data; da_sample_rate := sample_rate o; da_channels := channels o |} in
  match opus_data with
  | [] => (Ok (audio []), o)
  | _ =>
      match opus_decode (decoder o) opus_data (len (pcm_buffer o)) with
      | (Ok (decoded_samples, samples), d) =>
          let o' := with_decoder d (fill samples (pcm_buffer o)) o in
          let actual_i16_count := decoded_samples * channels o in
          (Ok (audio (slice_to (pcm_buffer o') actual_i16_count)), o')
      | (Err e, d) => (Err ("Opus decode error: " +:+ e), with_decoder d (pcm_buffer o) o)
      end
  end.

Definition new_encoder (rate channels : Z) : PortResult OpusEncoder :=
  _ ← channel_layout channels;
  e ← map_err (λ e, "Failed to create Opus encoder: " +:+ e) (encoder_new rate channels);
  Ok {| encoder := e; opus_buffer := replicate 4000 0 |}.
Definition encode (pcm_data : list Z) (o : OpusEncoder) : PortResult bytes * OpusEncoder :=
  match pcm_data with
  | [] => (Ok [], o)
  | _ =>
      match opus_encode (encoder o) pcm_data (len (opus_buffer o)) with
      | (Ok packet, e) =>
          let buffer := fill packet (opus_buffer o) in
          (Ok (slice_to buffer (len packet)), {| encoder := e; opus_buffer := buffer |})
      | (Err e, enc) =>
          (Err ("Opus encode error: " +:+ e), {| encoder := enc; opus_buffer := opus_buffer o |})
      end
  end.

(** The decoder between calls. *)
Record dec_wf (rate ch : Z) (o : OpusDecoder) : Prop := {
  wf_rate : sample_rate o = rate;
  wf_channels : channels o = ch ∧ decoder_channels (decoder o) = ch;
  wf_room : len (pcm_buffer o) = rate * 120 / 1000 * ch;
}.

Lemma len_fill {A} (samples buffer : list A) :
  len samples ≤ len buffer → len (fill samples buffer) = len buffer.
Proof. unfold fill, len. rewrite length_app, length_drop. lia. Qed.

Lemma new_decoder_wf rate ch o : 0 ≤ rate → new_decoder rate ch = Ok o → dec_wf rate ch o ∧ 1 ≤ ch ≤ 2.
Proof.
  intros Hr. unfold new_decoder, channel_layout. destruct (_ || _) eqn:Hc; [|done]. simpl.
  destruct (decoder_new rate ch) as [d|e] eqn:Hd; [|done]. intros [= <-].
  pose proof (Z.div_pos (rate * 120) 1000). apply orb_prop in Hc.
  split; [split; simpl; [done|split; [done|by eapply decoder_new_channels]|]|lia].
  rewrite len_replicate. nia.
Qed.

Lemma decode_wf rate ch data o : dec_wf rate ch o → dec_wf rate ch (decode data o).2.
Proof.
  intros [Hr [Hc Hd] Hl]. unfold decode. destruct data as [|b data]; [by split|].
  pose proof (opus_decode_channels (decoder o) (b :: data) (len (pcm_buffer o))) as Hdc.
  pose proof (opus_decode_room (decoder o) (b :: data) (len (pcm_buffer o))) as Hroom.
  destruct (opus_decode _ _ _) as [[[n samples]|e] d]; simpl in *.
  - destruct (Hroom n samples eq_refl) as (_ & _ & Hle).
    split; simpl; [done|split; [done|congruence]|]. by rewrite len_fill.
  - split; simpl; [done|split; [done|congruence]|done].
Qed.

Lemma decode_data rate ch data o :
  dec_wf rate ch o → data ≠ [] →
  ok (decode data o).1 =
    (λ p, {| da_data := p.2; da_sample_rate := rate; da_channels := ch |}) <$>
    ok (opus_decode (decoder o) data (rate * 120 / 1000 * ch)).1.
Proof.
  intros [<- [<- Hd] <-] Hne. unfold decode. destruct data as [|b data]; [done|].
  pose proof (opus_decode_room (decoder o) (b :: data) (len (pcm_buffer o))) as Hroom.
  destruct (opus_decode _ _ _) as [[[n samples]|e] d]; simpl in *; [|done].
  destruct (Hroom n samples eq_refl) as (_ & Hn & _). rewrite Hd in Hn.
  unfold fill. by rewrite slice_to_app by lia.
Qed.

Definition decode_all (packets : list bytes) (o : OpusDecoder) : OpusDecoder :=
  foldl (λ o data, (decode data o).2) o packets.
Lemma decode_all_wf rate ch packets o : dec_wf rate ch o → dec_wf rate ch (decode_all packets o).
Proof. revert o. induction packets as [|p l IH]; intros o Ho; [done|]. by apply IH, decode_wf. Qed.

(** After any packets, a non-empty packet decodes to exactly the samples the
    codec produces for it (an error is an error), tagged with the rate and the
    channels of the decoder; the samples are whole frames that fit into the
    buffer, which keeps its 120 ms; an empty packet is empty audio. *)
Theorem decode_exact rate ch o packets data :
  0 ≤ rate → new_decoder rate ch = Ok o →
  let o' := decode_all packets o in
  let room := rate * 120 / 1000 * ch in
  len (pcm_buffer o') = room ∧
  (decode [] o').1 = Ok {| da_data := []; da_sample_rate := rate; da_channels := ch |} ∧
  (data ≠ [] →
   ok (decode data o').1 =
     (λ p, {| da_data := p.2; da_sample_rate := rate; da_channels := ch |}) <$>
     ok (opus_decode (decoder o') data room).1) ∧
  ∀ audio, (decode data o').1 = Ok audio →
    len (da_data audio) ≤ room ∧ len (da_data audio) mod ch = 0.
Proof.
  intros Hr Hnew o' room. apply new_decoder_wf in Hnew as [Hwf Hch]; [|done].
  pose proof (decode_all_wf _ _ packets _ Hwf) as Hwf'. fold o' in Hwf'.
  pose proof Hwf' as [Hrate [Hc Hd] Hl].
  assert (0 ≤ room) by (pose proof (Z.div_pos (rate * 120) 1000); unfold room; nia).
  split; [done|]. split; [unfold decode; by rewrite Hrate, Hc|].
  split; [by apply decode_data|]. intros audio Ha. destruct data as [|b data].
  - injection Ha as <-. split; [done|]. apply Z.mod_0_l. lia.
  - pose proof (decode_data _ _ (b :: data) _ Hwf' ltac:(done)) as Hdata. rewrite Ha in Hdata.
    simpl in Hdata. fold room in Hdata.
    pose proof (opus_decode_room (decoder o') (b :: data) room) as Hroom.
    destruct (opus_decode (decoder o') (b :: data) room) as [[[n samples]|e] d]; [|done].
    destruct (Hroom n samples eq_refl) as (_ & Hn & Hle). simpl in Hdata. injection Hdata as ->. simpl.
    split; [done|]. rewrite Hn, Hd. apply Z.mod_mul. lia.
Qed.
End codec.

(** ** service.rs *)

(** The task of [spawn_audio_handler], once its decoder exists. *)
Section handler.
Context {C : Type → Type} `{Chan C} `{Layout} `{Opus}.

Record AudioHandler := { h_decoder : OpusDecoder; frame_count : Z; running : bool }.

Definition spawn_audio_handler : option AudioHandler :=
  match new_decoder 48000 2 with
  | Ok d => Some {| h_decoder := d; frame_count := 0; running := true |}
  | Err _ => None
  end.
Definition stop (h : AudioHandler) : AudioHandler :=
  {| h_decoder := h_decoder h; frame_count := frame_count h; running := false |}.

(** A read of the track: its payload, or an error, which ends the loop. *)
Definition on_payload (tx : EventSender) (opus_data : bytes) (seen : Z) (h : AudioHandler)
    (ch : Events C) : AudioHandler * Events C :=
  let '(result, d) := decode opus_data (h_decoder h) in
  let h := {| h_decoder := d; frame_count := frame_count h; running := running h |} in
  match result with
  | Ok decoded_audio =>
      if len (da_data decoded_audio) =? 0 then (h, ch) else
      let h := {| h_decoder := d; frame_count := wrapping_add 64 (frame_count h) 1;
                  running := running h |} in
      let '(res, ch) := try_send tx seen (AudioFrame (da_data decoded_audio)
                          (da_sample_rate decoded_audio) (da_channels decoded_audio)) ch in
      (match res with Err (Disconnected _) => stop h | _ => h end, ch)
  | Err _ => (h, ch)
  end.

Inductive audio_op := Payload (data : bytes) (seen : Z) | ReadError | Others (o : ev_op).
Definition audio_step (tx : EventSender) (o : audio_op) (st : AudioHandler * Events C) :
    AudioHandler * Events C :=
  let '(h, ch) := st in
  match o with
  | Payload data seen => if running h then on_payload tx data seen h ch else st
  | ReadError => (stop h, ch)
  | Others o => (h, ev_step o ch)
  end.
Definition audio_run (tx : EventSender) (l : list audio_op) (st : AudioHandler * Events C) :
    AudioHandler * Events C := foldl (λ st o, audio_step tx o st) st l.

(** Whole stereo samples at 48 kHz, at least one and at most 120 ms of them. *)
Definition audio_shaped (d : EventDelivery) : Prop :=
  match d_event d with
  | Some (AudioFrame data rate ch) =>
      rate = 48000 ∧ ch = 2 ∧ 0 < len data ≤ 11520 ∧ len data mod 2 = 0
  | _ => True
  end.

Record audio_inv (st : AudioHandler * Events C) : Prop := {
  ai_decoder : dec_wf 48000 2 (h_decoder st.1);
  ai_events : events_inv st.2;
  ai_live : Forall audio_shaped (live st.2);
}.

Lemma decoded_shaped o data audio :
  dec_wf 48000 2 o → (decode data o).1 = Ok audio → len (da_data audio) ≠ 0 →
  da_sample_rate audio = 48000 ∧ da_channels audio = 2 ∧
  0 < len (da_data audio) ≤ 11520 ∧ len (da_data audio) mod 2 = 0.
Proof.
  intros Hwf Ha Hne. destruct data as [|b data]; [by injection Ha as <-|].
  pose proof (decode_data _ _ (b :: data) _ Hwf ltac:(done)) as Hd. rewrite Ha in Hd.
  pose proof (opus_decode_room (decoder o) (b :: data) (48000 * 120 / 1000 * 2)) as Hroom.
  destruct (opus_decode _ _ _) as [[[n samples]|e] d]; [|done].
  destruct (Hroom n samples eq_refl) as (Hn & Hlen & Hle). injection Hd as ->. simpl in *.
  destruct Hwf as [_ [_ Hch] _]. rewrite Hch in Hlen.
  change (48000 * 120 / 1000 * 2) with 11520 in Hle.
  split_and!; [done|done|lia|done|]. rewrite Hlen. apply Z.mod_mul. lia.
Qed.

Lemma audio_step_inv tx o st :
  (∀ o', o = Others o' → ∀ s seen data rate ch, o' ≠ TrySend s seen (AudioFrame data rate ch)) →
  audio_inv st → audio_inv (audio_step tx o st).
Proof.
  destruct st as [h ch]. intros Hty [Hd Hi Hl]; simpl in *. destruct o as [data seen| |o]; simpl.
  - destruct (running h); [|done]. unfold on_payload.
    pose proof (decode_wf 48000 2 data _ Hd) as Hwf'.
    pose proof (decoded_shaped (h_decoder h) data) as Hsh.
    destruct (decode data (h_decoder h)) as [[audio|e] d] eqn:Hdec; simpl in *; [|by split].
    destruct (len (da_data audio) =? 0) eqn:Hz; [by split|].
    set (event := AudioFrame _ _ _).
    pose proof (ev_step_inv (TrySend tx seen event) ch Hi) as Hi'.
    assert (Forall audio_shaped (live (try_send tx seen event ch).2)) as Hl'.
    { destruct (try_send_refines tx seen event ch Hi) as [_ Hs].
      destruct (try_send_spec tx seen event ch); [|by rewrite Hs].
      destruct Hs as (-> & _). constructor; [|done]. unfold audio_shaped, event. simpl.
      apply Hsh; [done|done|lia]. }
    simpl in Hi'. destruct (try_send tx seen event ch) as [[|[]] ch']; by split.
  - by split.
  - split; simpl; [done|by apply ev_step_inv|]. apply Forall_forall. intros d Hin.
    apply ev_step_live in Hin as [Hin|[Hin|(s & seen & event & -> & ->)]]; [| | |done].
    + rewrite Forall_forall in Hl. auto.
    + unfold audio_shaped. by rewrite Hin.
    + destruct event; try done. by destruct (Hty _ eq_refl s seen data sample_rate0 channels0).
Qed.

Lemma spawn_audio_wf h : spawn_audio_handler = Some h → dec_wf 48000 2 (h_decoder h).
Proof.
  unfold spawn_audio_handler. destruct (new_decoder 48000 2) as [d|] eqn:Hd; [|done]. intros [= <-].
  by apply new_decoder_wf in Hd as [Hd _].
Qed.

(** Other threads send no audio. *)
Definition audio_op_typed (o : audio_op) : Prop :=
  match o with Others (TrySend _ _ (AudioFrame _ _ _)) => False | _ => True end.

(** Every audio event that is queued for or owned by a dispatcher has whole
    stereo samples at 48 kHz, at least one and at most 120 ms of them. *)
Theorem audio_events_shaped capacity s ch tx l h :
  event_channel capacity = Ok (s, ch) → spawn_audio_handler = Some h → Forall audio_op_typed l →
  Forall audio_shaped (live (audio_run tx l (h, ch)).2).
Proof.
  intros Hch Hh Hty. apply event_channel_inv in Hch as (Hi & _ & _ & Hl).
  assert (audio_inv (h, ch)) as Hinv.
  { split; simpl; [by apply spawn_audio_wf|done|by rewrite Hl]. }
  apply ai_live. clear Hi Hl Hh. revert Hinv. generalize (h, ch).
  induction Hty as [|o l Ho _ IH]; intros st Hinv; [done|].
  apply IH. apply audio_step_inv; [|done]. intros o' -> ? ? ? ? ? ->. done.
Qed.
End handler.

(** ** An instance: one sample per channel for every byte, the byte itself. *)
#[local] Program Instance toy_opus : Opus := {|
  Decoder := nat; Encoder := ();
  decoder_new rate channels := if channels <? 0 then Err "bad" else Ok (Z.to_nat channels);
  encoder_new _ _ := Ok ();
  decoder_channels := Z.of_nat;
  opus_decode d data room :=
    let samples := data ≫= λ b, replicate d b in
    (if len samples <=? room then Ok (len data, samples) else Err "buffer too small", d);
  opus_encode e pcm room := (if len pcm <=? room then Ok pcm else Err "buffer too small", e);
|}.
Next Obligation.
  simpl. intros rate channels d. destruct (channels <? 0) eqn:Hc; [done|]. intros [= <-]. lia.
Qed.
Next Obligation. done. Qed.
Next Obligation.
  simpl. intros d data room n samples. destruct (_ <=? room) eqn:Hr; [|done]. intros [= <- <-].
  split_and!; [apply len_nonneg| |by apply Z.leb_le].
  induction data as [|b data IH]; [done|]. cbn [mbind list_bind]. rewrite len_app, len_replicate, len_cons, IH; [lia|].
  cbn [mbind list_bind] in Hr. rewrite len_app, len_replicate in Hr. lia.
Qed.
Next Obligation.
  simpl. intros e pcm room packet. destruct (_ <=? room) eqn:Hr; [|done]. intros [= <-]. lia.
Qed.

Definition toy_decoder : OpusDecoder :=
  @Build_OpusDecoder toy_opus 2%nat (replicate 11520 0) 48000 2.
Lemma decode_exact_witness :
  ok (decode [7; 8] (decode_all [[1; 2; 3]] toy_decoder)).1 =
  Some {| da_data := [7; 7; 8; 8]; da_sample_rate := 48000; da_channels := 2 |}.
Proof.
  destruct (decode_exact 48000 2 toy_decoder [[1; 2; 3]] [7; 8] ltac:(done) eq_refl) as (_ & _ & Hd & _).
  rewrite Hd by done. reflexivity.
Defined.

#[local] Existing Instance exact_layout.
Lemma audio_events_shaped_witness :
  match spawn_audio_handler with
  | Some h =>
      Forall audio_shaped
        (live (audio_run {| s_generation := 0 |} [Payload [5; 6] 0; ReadError]
                 (h, set_generation 0 demo_channel)).2)
  | None => False
  end.
Proof.
  destruct spawn_audio_handler as [h|] eqn:Hh; [|vm_compute in Hh; discriminate].
  apply (audio_events_shaped (C:=vec_chan) 8 {| s_generation := 0 |}); [reflexivity|exact Hh|].
  by repeat constructor.
Defined.
