(* ===== verification/AudioTransmit.v ===== *)
(** * Audio transmit (src/src/audio/transmit/service.rs)

    [AudioSender]: a GStreamer pipeline whose RTP packets pass through a bounded
    queue to an async task that paces them onto the WebRTC track, and a thread
    that watches the bus of the pipeline.  The pipeline, the RTP parser, the
    track and the clock are external: what they return are arguments of the
    steps.  Each step is the code of one thread between two points where it may
    wait; an execution is any sequence of them.  The theorems: packets reach the
    track in order and never ahead of their timestamps, nothing is written once
    the sender is stopped or its pipeline has failed, and a shutdown completes,
    but not before both workers have. *)
From S2P Require Import Prelude Floats Json Channel Utf8.
#[local] Open Scope Z_scope.

(** ** Sources *)
Inductive AudioSource := File (path : string) | Url (url : string).
Definition source_kind (s : AudioSource) : string :=
  match s with File _ => "file" | Url _ => "url" end.

(** The file system and the URI handling of GLib and GStreamer. *)
Class MediaFiles := {
  canonicalize : string → option string;
  is_file : string → bool;
  filename_to_uri : string → option string;
  make_from_uri : string → bool;
}.

(** [char::is_control]: the category Cc. *)
Definition is_control (c : bytes) : bool :=
  match c with
  | [b] => between 0 31 b || (b =? 127)
  | [194; b] => between 128 159 b
  | _ => false
  end.
Definition to_uri `{MediaFiles} (s : AudioSource) : PortResult string :=
  uri ← match s with
        | File path =>
            path ← ok_or "Failed to resolve audio file path" (canonicalize path);
            if negb (is_file path) then Err "Audio source must be a file" else
            ok_or "Failed to construct audio file URI" (filename_to_uri path)
        | Url url =>
            if existsb is_control (chars url) then Err "Audio URL contains control characters"
            else Ok url
        end;
  if make_from_uri uri then Ok uri else Err "Unsupported or invalid audio source URI".

(** A URL that is accepted is passed on unchanged and has no control character. *)
Lemma to_uri_url `{MediaFiles} url uri :
  to_uri (Url url) = Ok uri → uri = url ∧ make_from_uri url = true ∧
  Forall (λ c, is_control c = false) (chars url).
Proof.
  unfold to_uri. destruct (existsb is_control (chars url)) eqn:E; [done|]. simpl.
  destruct (make_from_uri url); [|done]. intros [= <-]. split_and!; [done|done|].
  apply Forall_forall. intros c Hc. apply not_true_iff_false. intros Hb.
  assert (existsb is_control (chars url) = true); [|congruence].
  apply existsb_exists. exists c. split; [by apply list_elem_of_In|done].
Qed.

(** ** The sender *)

(** RTP packets and their parser. *)
Class RtpLib := {
  RtpPacket : Type;
  rtp_unmarshal : bytes → option RtpPacket;
  rtp_timestamp : RtpPacket → Z;
}.

Inductive GstState := GNull | GPaused | GPlaying.
(** The thread that watches the bus: absent when the pipeline has no bus. *)
Inductive bus_worker := BusAbsent | BusLoop | BusExited.
Inductive bus_message := BError (null_set : bool) | BWarning | BEos | BOther.

(** The await the RTP task is at, or how it has ended. *)
Inductive rtp_pc `{RtpLib} :=
  | RtpRecv
  | RtpSleep (target_instant : Z) (p : RtpPacket)
  | RtpWrite (p : RtpPacket) (since : Z)
  | RtpEnded | RtpCancelled | RtpPanicked.

(** The task with its two locals, the abort request and the track: the packets
    written to it, each with the instant its write began. *)
Record RtpTask `{RtpLib} := {
  r_pc : rtp_pc;
  aborted : bool;
  first_timestamp : option Z;
  playback_start : option Z;
  track : list (RtpPacket * Z);
}.

Record AudioSender (C : Type → Type) `{RtpLib} := {
  pipeline : GstState;
  is_playing : bool;
  bus_running : bool;
  packet_count : Z;
  rtp_queue : C bytes;
  rtp_tx : bool;              (* the sender's half; the sink callback has a clone *)
  sink_tx : bool;
  task : RtpTask;
  bus : bus_worker;
  native_shutdown : bool;
}.
Arguments pipeline {C _}. Arguments is_playing {C _}. Arguments bus_running {C _}.
Arguments packet_count {C _}. Arguments rtp_queue {C _}. Arguments rtp_tx {C _}.
Arguments sink_tx {C _}. Arguments task {C _}. Arguments bus {C _}. Arguments native_shutdown {C _}.

Inductive FlowReturn := FlowOk | FlowError.

Section sender.
Context {C : Type → Type} `{Chan C} `{RtpLib}.
Abbreviation AudioSender := (AudioSender C).
Implicit Types (s : AudioSender).

Definition with_pipeline (g : GstState) s : AudioSender :=
  {| pipeline := g; is_playing := is_playing s; bus_running := bus_running s;
     packet_count := packet_count s; rtp_queue := rtp_queue s; rtp_tx := rtp_tx s;
     sink_tx := sink_tx s; task := task s; bus := bus s; native_shutdown := native_shutdown s |}.
Definition set_playing (b : bool) s : AudioSender :=
  {| pipeline := pipeline s; is_playing := b; bus_running := bus_running s;
     packet_count := packet_count s; rtp_queue := rtp_queue s; rtp_tx := rtp_tx s;
     sink_tx := sink_tx s; task := task s; bus := bus s; native_shutdown := native_shutdown s |}.
Definition halt_bus s : AudioSender :=
  {| pipeline := pipeline s; is_playing := is_playing s; bus_running := false;
     packet_count := packet_count s; rtp_queue := rtp_queue s; rtp_tx := rtp_tx s;
     sink_tx := sink_tx s; task := task s; bus := bus s; native_shutdown := native_shutdown s |}.
Definition count_packet s : AudioSender :=
  {| pipeline := pipeline s; is_playing := is_playing s; bus_running := bus_running s;
     packet_count := wrapping_add 64 (packet_count s) 1; rtp_queue := rtp_queue s;
     rtp_tx := rtp_tx s; sink_tx := sink_tx s; task := task s; bus := bus s;
     native_shutdown := native_shutdown s |}.
Definition with_queue (q : C bytes) s : AudioSender :=
  {| pipeline := pipeline s; is_playing := is_playing s; bus_running := bus_running s;
     packet_count := packet_count s; rtp_queue := q; rtp_tx := rtp_tx s;
     sink_tx := sink_tx s; task := task s; bus := bus s; native_shutdown := native_shutdown s |}.
(** A half of the queue's senders goes away; the queue closes with the last. *)
Definition drop_tx (own sink : bool) s : AudioSender :=
  {| pipeline := pipeline s; is_playing := is_playing s; bus_running := bus_running s;
     packet_count := packet_count s;
     rtp_queue := if own || sink then rtp_queue s else close_tx (rtp_queue s);
     rtp_tx := own; sink_tx := sink; task := task s; bus := bus s;
     native_shutdown := native_shutdown s |}.
Definition with_task (t : RtpTask) s : AudioSender :=
  {| pipeline := pipeline s; is_playing := is_playing s; bus_running := bus_running s;
     packet_count := packet_count s; rtp_queue := rtp_queue s; rtp_tx := rtp_tx s;
     sink_tx := sink_tx s; task := t; bus := bus s; native_shutdown := native_shutdown s |}.
Definition exit_bus s : AudioSender :=
  {| pipeline := pipeline s; is_playing := is_playing s; bus_running := bus_running s;
     packet_count := packet_count s; rtp_queue := rtp_queue s; rtp_tx := rtp_tx s;
     sink_tx := sink_tx s; task := task s; bus := BusExited; native_shutdown := native_shutdown s |}.
Definition shut s : AudioSender :=
  {| pipeline := pipeline s; is_playing := is_playing s; bus_running := bus_running s;
     packet_count := packet_count s; rtp_queue := rtp_queue s; rtp_tx := rtp_tx s;
     sink_tx := sink_tx s; task := task s; bus := bus s; native_shutdown := true |}.

Definition goto (pc : rtp_pc) (t : RtpTask) : RtpTask :=
  {| r_pc := pc; aborted := aborted t; first_timestamp := first_timestamp t;
     playback_start := playback_start t; track := track t |}.
Definition abort (t : RtpTask) : RtpTask :=
  {| r_pc := r_pc t; aborted := true; first_timestamp := first_timestamp t;
     playback_start := playback_start t; track := track t |}.
Definition start_at (timestamp now : Z) (t : RtpTask) : RtpTask :=
  {| r_pc := r_pc t; aborted := aborted t; first_timestamp := Some timestamp;
     playback_start := Some now; track := track t |}.
Definition written (p : RtpPacket) (since : Z) (t : RtpTask) : RtpTask :=
  {| r_pc := RtpRecv; aborted := aborted t; first_timestamp := first_timestamp t;
     playback_start := playback_start t; track := track t ++ [(p, since)] |}.

(** What [new] assembles once the pipeline is built. *)
Definition new (has_bus : bool) : AudioSender :=
  {| pipeline := GNull; is_playing := false; bus_running := true; packet_count := 0;
     rtp_queue := bounded 8; rtp_tx := true; sink_tx := true;
     task := {| r_pc := RtpRecv; aborted := false; first_timestamp := None;
                playback_start := None; track := [] |};
     bus := if has_bus then BusLoop else BusAbsent; native_shutdown := false |}.

(** *** The appsink callback *)
Definition new_sample (sample : option bytes) s : FlowReturn * AudioSender :=
  if negb (is_playing s) then (FlowOk, s) else
  match sample with
  | None => (FlowError, s)
  | Some rtp_data =>
      match chan_send (rtp_queue s) rtp_data with
      | Ok q => (FlowOk, with_queue q s)
      | Err (Full _) => (FlowOk, s)
      | Err (Disconnected _) => (FlowError, s)
      end
  end.

(** *** The RTP task *)

(** The task is gone and drops its receiver. *)
Definition end_task (pc : rtp_pc) s : AudioSender :=
  with_queue (close_rx (rtp_queue s)) (with_task (goto pc (task s)) s).
Definition finished (t : RtpTask) : bool :=
  match r_pc t with RtpEnded | RtpCancelled | RtpPanicked => true | _ => false end.

(** [Duration::from_secs_f64(ticks / 48_000.0)], which panics when it has no value. *)
Definition packet_delay (ticks : Z) : option Z :=
  try_from_secs_f64 (F64.div (F64.of_Z ticks) (F64.of_Z 48000)).

(** A packet was received at [now]. *)
Definition on_rtp (p : RtpPacket) (now : Z) s : AudioSender :=
  match first_timestamp (task s), playback_start (task s) with
  | None, None =>
      with_task (goto (RtpWrite p now) (start_at (rtp_timestamp p) now (task s))) s
  | Some base_timestamp, Some base_instant =>
      match packet_delay (wrapping_sub 32 (rtp_timestamp p) base_timestamp) with
      | Some delay => with_task (goto (RtpSleep (base_instant + delay) p) (task s)) s
      | None => end_task RtpPanicked s
      end
  | _, _ => with_task (goto (RtpWrite p now) (task s)) s
  end.

(** A poll at [now]; [write] is what a pending [write_rtp] returns, if it does. *)
Definition rtp_poll (now : Z) (write : option bool) s : AudioSender :=
  if finished (task s) then s else
  if aborted (task s) then end_task RtpCancelled s else
  match r_pc (task s) with
  | RtpRecv =>
      match chan_recv (rtp_queue s) with
      | Ok (rtp_data, q) =>
          let s := with_queue q s in
          match rtp_unmarshal rtp_data with
          | Some p => on_rtp p now s
          | None => s
          end
      | Err Empty => s
      | Err RecvDisconnected => end_task RtpEnded s
      end
  | RtpSleep target_instant p =>
      if target_instant <=? now then with_task (goto (RtpWrite p now) (task s)) s else s
  | RtpWrite p since =>
      match write with
      | None => s
      | Some true => count_packet (with_task (written p since (task s)) s)
      | Some false => with_task (goto RtpRecv (task s)) s
      end
  | _ => s
  end.

(** *** The bus thread *)
Definition bus_poll (m : option bus_message) s : AudioSender :=
  match bus s with
  | BusLoop =>
      if negb (bus_running s) then exit_bus s else
      match m with
      | Some (BError null_set) =>
          let s := halt_bus (set_playing false s) in
          let s := with_task (abort (task s)) s in
          exit_bus (if null_set then with_pipeline GNull s else s)
      | Some BEos => exit_bus s
      | _ => s
      end
  | _ => s
  end.

(** The threads of a sender. *)
Inductive thread_op :=
  | NewSample (sample : option bytes)
  | SinkDropped
  | RtpPoll (now : Z) (write : option bool)
  | BusPoll (m : option bus_message).
Definition thread_step (o : thread_op) s : AudioSender :=
  match o with
  | NewSample sample => (new_sample sample s).2
  | SinkDropped => drop_tx (rtp_tx s) false s
  | RtpPoll now write => rtp_poll now write s
  | BusPoll m => bus_poll m s
  end.
Definition thread_run (l : list thread_op) s : AudioSender := foldl (λ s o, thread_step o s) s l.

(** *** The methods *)

(** [play]: the threads run on while it publishes, sets the state ([playing]:
    the outcome) and looks again. *)
Definition play (early late : list thread_op) (playing : bool) s : PortResult () * AudioSender :=
  if negb (bus_running s) then (Err "Audio sender has stopped", s) else
  let s := set_playing true (thread_run early s) in
  if negb playing
  then (Err "Failed to set audio pipeline to Playing state", set_playing false (thread_run late s)) else
  let s := thread_run late (with_pipeline GPlaying s) in
  if negb (bus_running s) then (Err "Audio sender failed during playback startup", s)
  else (Ok (), s).
Definition pause (paused : PortResult ()) s : PortResult () * AudioSender :=
  match paused with
  | Ok _ => (Ok (), set_playing false (with_pipeline GPaused s))
  | Err e => (Err ("Failed to pause pipeline: " +:+ e), s)
  end.

(** [take_native_shutdown]: whether there is a native part left to stop. *)
Definition take_native_shutdown s : bool * AudioSender :=
  let s := halt_bus (set_playing false s) in
  let s := drop_tx false (sink_tx s) s in
  let s := with_task (abort (task s)) s in
  if native_shutdown s then (false, s) else (true, shut s).

(** [complete_audio_shutdown]: the native part (the state change, then the join of
    the bus thread), then the await of the RTP task. *)
Inductive shutdown_pc :=
  | SetNull | JoinBus (r : PortResult ()) | AwaitTask (r : PortResult ()) | Finished (r : PortResult ()).
Definition shutdown s : shutdown_pc * AudioSender :=
  let '(native, s) := take_native_shutdown s in
  (if native then SetNull else AwaitTask (Ok ()), s).
Definition shutdown_step (null_set : bool) (pc : shutdown_pc) s : shutdown_pc * AudioSender :=
  match pc with
  | SetNull =>
      (JoinBus (if null_set then Ok () else Err "Failed to stop audio pipeline"),
       if null_set then with_pipeline GNull s else s)
  | JoinBus r =>
      (match bus s with BusLoop => JoinBus r | _ => AwaitTask (result_and r (Ok ())) end, s)
  | AwaitTask r =>
      (match r_pc (task s) with
       | RtpEnded | RtpCancelled => Finished (result_and r (Ok ()))
       | RtpPanicked => Finished (result_and r (Err "Audio RTP worker failed"))
       | _ => AwaitTask r
       end, s)
  | Finished r => (Finished r, s)
  end.

(** What may happen to a sender: its threads run, its owner calls it, a shutdown
    (or a drop) takes its native part and sets the pipeline's state. *)
Inductive sender_op :=
  | Thread (o : thread_op)
  | Play (early late : list thread_op) (playing : bool)
  | Pause (paused : PortResult ())
  | TakeShutdown
  | StopPipeline (null_set : bool).
Definition sender_step (o : sender_op) s : AudioSender :=
  match o with
  | Thread o => thread_step o s
  | Play early late playing => (play early late playing s).2
  | Pause paused => (pause paused s).2
  | TakeShutdown => (shutdown s).2
  | StopPipeline null_set => (shutdown_step null_set SetNull s).2
  end.
Definition sender_run (l : list sender_op) s : AudioSender := foldl (λ s o, sender_step o s) s l.

(** ** Order and pacing *)

(** The samples GStreamer offered, in order. *)
Definition thread_samples (o : thread_op) : list bytes :=
  match o with NewSample (Some d) => [d] | _ => [] end.
Definition op_samples (o : sender_op) : list bytes :=
  match o with
  | Thread o => thread_samples o
  | Play early late _ => flat_map thread_samples (early ++ late)
  | _ => []
  end.

(** The packet the task has taken from the queue and not yet written. *)
Definition in_hand (t : RtpTask) : list RtpPacket :=
  match r_pc t with RtpSleep _ p | RtpWrite p _ => [p] | _ => [] end.
(** [p] is written no earlier than its timestamp is due. *)
Definition due (t : RtpTask) (p : RtpPacket) (since : Z) : Prop :=
  ∃ base start delay, first_timestamp t = Some base ∧ playback_start t = Some start ∧
    packet_delay (wrapping_sub 32 (rtp_timestamp p) base) = Some delay ∧ start + delay ≤ since.
Definition awaiting_due (t : RtpTask) : Prop :=
  match r_pc t with
  | RtpSleep target p => due t p target
  | RtpWrite p since => due t p since
  | _ => True
  end.

Record paced (samples : list bytes) s : Prop := {
  pc_order : (track (task s)).*1 ++ in_hand (task s) ++
    (if rx_open (rtp_queue s) then omap rtp_unmarshal (contents (rtp_queue s)) else [])
    `sublist_of` omap rtp_unmarshal samples;
  pc_due : Forall (λ w, due (task s) w.1 w.2) (track (task s));
  pc_awaiting : awaiting_due (task s);
  pc_count : packet_count s = len (track (task s)) mod 2 ^ 64;
  pc_base : first_timestamp (task s) = None ↔ playback_start (task s) = None;
  pc_started : first_timestamp (task s) = None → track (task s) = [] ∧ in_hand (task s) = [];
  pc_open : rx_open (rtp_queue s) = negb (finished (task s));
}.

Lemma packet_delay_0 ts : packet_delay (wrapping_sub 32 ts ts) = Some 0.
Proof. unfold wrapping_sub. by rewrite Z.sub_diag. Qed.

Lemma new_paced has_bus : paced [] (new has_bus).
Proof.
  destruct (bounded_spec bytes 8) as (Hc & _ & Hr & _); [done|].
  split; simpl; rewrite ?Hc, ?Hr; try done; by constructor.
Qed.

(** The parts of the state pacing depends on. *)
Lemma paced_same samples s s' :
  task s' = task s → packet_count s' = packet_count s →
  contents (rtp_queue s') = contents (rtp_queue s) →
  rx_open (rtp_queue s') = rx_open (rtp_queue s) →
  paced samples s → paced samples s'.
Proof. intros Ht Hp Hc Hr []. split; by rewrite ?Ht, ?Hp, ?Hc, ?Hr. Qed.

Lemma paced_more samples s d : paced samples s → paced (samples ++ d) s.
Proof.
  intros []. split; try done. etrans; [done|]. rewrite omap_app. apply sublist_inserts_r. done.
Qed.

Lemma paced_end samples pc s :
  (pc = RtpEnded ∨ pc = RtpCancelled ∨ pc = RtpPanicked) →
  paced samples s → paced samples (end_task pc s).
Proof.
  intros Hpc []. destruct (close_rx_spec bytes (rtp_queue s)) as (_ & _ & Hr & _).
  assert (in_hand (goto pc (task s)) = []) as Hh by (by destruct Hpc as [->|[->| ->]]).
  split; simpl; rewrite ?Hr; try done.
  - rewrite Hh. simpl. rewrite app_nil_r. etrans; [|done]. by apply sublist_inserts_r.
  - unfold awaiting_due. by destruct Hpc as [->|[->| ->]].
  - intros Hn. destruct (pc_started0 Hn) as [-> _]. done.
  - by destruct Hpc as [->|[->| ->]].
Qed.

Lemma paced_abort samples s : paced samples s → paced samples (with_task (abort (task s)) s).
Proof. intros []. by split. Qed.

Lemma new_sample_paced samples sample s :
  paced samples s → paced (samples ++ thread_samples (NewSample sample)) (new_sample sample s).2.
Proof.
  intros Hp. unfold new_sample.
  destruct (is_playing s); simpl; [|by apply paced_more].
  destruct sample as [d|]; simpl; [|by rewrite app_nil_r].
  destruct (chan_send_cases (rtp_queue s) d)
    as [(q & -> & Hc & _ & Hrx & _ & Hopen & _)|[(-> & _)|(-> & _)]]; simpl;
    [|by apply paced_more|by apply paced_more].
  destruct Hp. rewrite Hopen in *. split; simpl; try done; rewrite ?Hrx, ?Hopen; [|done].
  rewrite Hc, !omap_app, !app_assoc. rewrite app_assoc in pc_order0. by apply sublist_app.
Qed.

(** Receiving a packet. *)
Lemma on_rtp_paced samples p now s :
  r_pc (task s) = RtpRecv → paced samples s →
  (track (task s)).*1 ++ p :: omap rtp_unmarshal (contents (rtp_queue s))
    `sublist_of` omap rtp_unmarshal samples →
  paced samples (on_rtp p now s).
Proof.
  intros Hpc Hpaced Hsub. pose proof Hpaced as []. unfold on_rtp.
  assert (rx_open (rtp_queue s) = true) as Hr by (by rewrite pc_open0; unfold finished; rewrite Hpc).
  destruct (first_timestamp (task s)) as [base|] eqn:Hf,
           (playback_start (task s)) as [start|] eqn:Hs; try by (exfalso; naive_solver).
  - destruct (packet_delay _) as [delay|] eqn:Hd; [|by apply paced_end; [auto|]].
    split; simpl; rewrite ?Hr, ?Hf, ?Hs; try done.
    exists base, start, delay. by rewrite ?Hf, ?Hs.
  - destruct (pc_started0 eq_refl) as [Htr _].
    split; simpl; rewrite ?Hr; try done.
    + by rewrite Htr.
    + exists (rtp_timestamp p), now, 0. rewrite packet_delay_0. split_and!; (done || lia).
Qed.

Lemma rtp_poll_paced samples now write s :
  paced samples s → paced samples (rtp_poll now write s).
Proof.
  intros Hp. unfold rtp_poll. destruct (finished (task s)) eqn:Hfin; [done|].
  destruct (aborted (task s)); [by apply paced_end; [auto|]|].
  pose proof Hp as []. rewrite Hfin in pc_open0. simpl in *.
  destruct (r_pc (task s)) as [|target p|p since| | |] eqn:Hpc; try done.
  - destruct (chan_recv (rtp_queue s)) as [[d q]|[]] eqn:Hrecv; [|done|by apply paced_end; [auto|]].
    apply chan_recv_Ok in Hrecv as (Hc & _ & Hr & _).
    unfold in_hand in pc_order0. rewrite pc_open0, Hc, Hpc in pc_order0. simpl in pc_order0.
    assert (∀ rest, rest `sublist_of` omap rtp_unmarshal samples →
      rest = (track (task s)).*1 ++ omap rtp_unmarshal (contents q) →
      paced samples (with_queue q s)) as Hq.
    { intros rest Hrest ->. split; simpl; rewrite ?Hr, ?pc_open0, ?Hfin; try done.
      unfold in_hand. by rewrite Hpc. }
    destruct (rtp_unmarshal d) as [p|]; simpl in *; [|by eapply Hq].
    apply on_rtp_paced; [done| |done]. eapply Hq; [|done]. etrans; [|done].
    apply sublist_app; [done|]. by apply sublist_cons.
  - destruct (_ <=? _) eqn:Hle; [|done]. unfold in_hand, awaiting_due in *. rewrite Hpc in *.
    split; simpl; rewrite ?pc_open0 in *; try done.
    destruct pc_awaiting0 as (b & st & dl & ? & ? & ? & ?). exists b, st, dl.
    split_and!; (done || lia).
  - unfold in_hand, awaiting_due in *. rewrite Hpc, pc_open0 in *. destruct write as [[]|]; [| |done].
    + assert (first_timestamp (task s) ≠ None) as Hne by (intros Hn; by destruct (pc_started0 Hn)).
      split; simpl; rewrite ?pc_open0; try done.
      * rewrite fmap_app. by rewrite <- app_assoc.
      * apply Forall_app. split; [done|]. by constructor.
      * unfold wrapping_add. rewrite pc_count0, len_app. change (len [_]) with 1.
        apply Zplus_mod_idemp_l.
    + split; simpl; rewrite ?pc_open0; try done; [|intros Hn; by destruct (pc_started0 Hn)].
      etrans; [|done]. apply sublist_app; [done|]. by apply sublist_cons.
Qed.

Lemma bus_poll_paced samples m s : paced samples s → paced samples (bus_poll m s).
Proof.
  intros Hp. unfold bus_poll. destruct (bus s); [done| |done].
  destruct (bus_running s); [|by eapply paced_same, Hp]. simpl.
  destruct m as [[null_set| | |]|]; try done; [|by eapply paced_same, Hp].
  destruct null_set; (eapply paced_same, paced_abort, Hp; done).
Qed.

Lemma paced_drop_tx samples own sink s : paced samples s → paced samples (drop_tx own sink s).
Proof.
  intros Hp. destruct (close_tx_spec bytes (rtp_queue s)) as (Hc & _ & Hr & _).
  eapply paced_same, Hp; simpl; [done|done| |]; by destruct (own || sink).
Qed.

Lemma thread_step_paced samples o s :
  paced samples s → paced (samples ++ thread_samples o) (thread_step o s).
Proof.
  destruct o; simpl; intros Hp; [by apply new_sample_paced|..]; rewrite app_nil_r.
  - by apply paced_drop_tx.
  - by apply rtp_poll_paced.
  - by apply bus_poll_paced.
Qed.

Lemma thread_run_paced samples l s :
  paced samples s → paced (samples ++ flat_map thread_samples l) (thread_run l s).
Proof.
  revert samples s. induction l as [|o l IH]; intros samples s Hp; simpl; [by rewrite app_nil_r|].
  rewrite app_assoc. apply IH. by apply thread_step_paced.
Qed.

Lemma play_paced samples early late playing s :
  paced samples s →
  paced (samples ++ flat_map thread_samples (early ++ late)) (play early late playing s).2.
Proof.
  intros Hp. unfold play. destruct (bus_running s); simpl; [|by apply paced_more].
  rewrite flat_map_app, app_assoc.
  apply (thread_run_paced _ early) in Hp. destruct playing; simpl.
  - pose proof (thread_run_paced _ late
      (with_pipeline GPlaying (set_playing true (thread_run early s))) ltac:(by eapply paced_same, Hp)).
    by case_match.
  - pose proof (thread_run_paced _ late (set_playing true (thread_run early s)) ltac:(by eapply paced_same, Hp)) as Hl.
    by eapply paced_same, Hl.
Qed.

Lemma shutdown_paced samples s : paced samples s → paced samples (shutdown s).2.
Proof.
  intros Hp. unfold shutdown, take_native_shutdown.
  assert (paced samples (drop_tx false (sink_tx s) (halt_bus (set_playing false s)))) as Hd
    by (apply paced_drop_tx; by eapply paced_same, Hp).
  apply paced_abort in Hd. simpl. destruct (native_shutdown s); simpl; by eapply paced_same, Hd.
Qed.

Lemma sender_step_paced samples o s :
  paced samples s → paced (samples ++ op_samples o) (sender_step o s).
Proof.
  intros Hp. destruct o as [o|early late playing|[]| |[]]; simpl;
    [by apply thread_step_paced|by apply play_paced|..]; rewrite app_nil_r;
    solve [done|by apply shutdown_paced|by eapply paced_same, Hp].
Qed.

(** A tick of the clock of a packet is a 48000th of a second, also after a day. *)
Example packet_delay_rate :
  packet_delay <$> [0; 1; 960; 48000; 4147200000] =
  [Some 0; Some 20833; Some 20000000; Some 1000000000; Some 86400000000000].
Proof. by vm_compute. Qed.

(** C38: whatever its threads and its owner do, in whatever order, the packets that
    reached the track are some of the parseable packets GStreamer offered, in
    GStreamer's order; each was written no earlier than the start of the playback
    plus its timestamp's distance (modulo 2^32) from the first, and the counter
    counts exactly them. *)
Theorem audio_paced has_bus l :
  let s := sender_run l (new has_bus) in
  (track (task s)).*1 `sublist_of` omap rtp_unmarshal (flat_map op_samples l) ∧
  Forall (λ w, due (task s) w.1 w.2) (track (task s)) ∧
  packet_count s = len (track (task s)) mod 2 ^ 64.
Proof.
  assert (∀ samples s, paced samples s →
    paced (samples ++ flat_map op_samples l) (sender_run l s)) as Hrun.
  { induction l as [|o l IH]; intros samples s Hp; simpl; [by rewrite app_nil_r|].
    rewrite app_assoc. apply IH. by apply sender_step_paced. }
  simpl. destruct (Hrun _ _ (new_paced has_bus)) as []. split_and!; [|done|done].
  etrans; [|done]. by apply sublist_inserts_r.
Qed.

(** ** Stopping *)

(** The sender was stopped, or its pipeline failed. *)
Definition halted s : Prop := bus_running s = false ∧ aborted (task s) = true.

Lemma rtp_poll_halted now write s :
  aborted (task s) = true →
  aborted (task (rtp_poll now write s)) = true ∧ track (task (rtp_poll now write s)) = track (task s).
Proof. intros Ha. unfold rtp_poll. rewrite Ha. by destruct (finished (task s)). Qed.

Lemma thread_step_halted o s :
  halted s → halted (thread_step o s) ∧ track (task (thread_step o s)) = track (task s).
Proof.
  intros [Hb Ha]. destruct o as [sample| |now write|m]; simpl.
  - unfold new_sample, halted. by repeat case_match.
  - done.
  - destruct (rtp_poll_halted now write s Ha). unfold halted, rtp_poll in *. rewrite Ha in *.
    by destruct (finished (task s)).
  - unfold bus_poll. destruct (bus s); [done| |done]. by rewrite Hb.
Qed.

Lemma thread_run_halted l s :
  halted s → halted (thread_run l s) ∧ track (task (thread_run l s)) = track (task s).
Proof.
  revert s. induction l as [|o l IH]; intros s Hh; simpl; [done|].
  destruct (thread_step_halted o s Hh) as [Hh' <-]. by apply IH.
Qed.

Lemma shutdown_halts s :
  halted (shutdown s).2 ∧ track (task (shutdown s).2) = track (task s).
Proof. unfold shutdown, take_native_shutdown, halted. simpl. by destruct (native_shutdown s). Qed.

(** Once a sender is stopped or its pipeline has failed, nothing more is written to
    the track, whatever follows, and [play] only reports that it has stopped. *)
Theorem stopped_is_silent l s o :
  bus_running s = true → (o = TakeShutdown ∨ ∃ b, o = Thread (BusPoll (Some (BError b))) ∧ bus s = BusLoop) →
  let s' := sender_run l (sender_step o s) in
  track (task s') = track (task s) ∧
  ∀ early late playing, (play early late playing s').1 = Err "Audio sender has stopped".
Proof.
  intros Hrun Ho. cbv zeta.
  assert (halted (sender_step o s) ∧ track (task (sender_step o s)) = track (task s)) as [Hh <-].
  { destruct Ho as [->|(b & -> & Hbus)]; [apply shutdown_halts|].
    simpl. unfold bus_poll. rewrite Hbus, Hrun. by destruct b. }
  cut (halted (sender_run l (sender_step o s)) ∧
       track (task (sender_run l (sender_step o s))) = track (task (sender_step o s))).
  { intros [[Hb _] ->]. split; [done|]. intros. unfold play. by rewrite Hb. }
  revert Hh. generalize (sender_step o s). clear.
  induction l as [|o l IH]; intros s Hh; simpl; [done|].
  assert (halted (sender_step o s) ∧ track (task (sender_step o s)) = track (task s)) as [Hh' <-];
    [|by apply IH].
  destruct o as [o|early late playing|[]| |[]]; simpl; try done.
  - by apply thread_step_halted.
  - unfold play. destruct Hh as [Hb Ha]. by rewrite Hb.
  - apply shutdown_halts.
Qed.

(** ** The shutdown *)

(** Steps of a shutdown in progress, interleaved with everything else. *)
Inductive shutdown_op := Shut (null_set : bool) | Other (o : sender_op).
Definition shutdown_run (l : list shutdown_op) (st : shutdown_pc * AudioSender) :
    shutdown_pc * AudioSender :=
  foldl (λ st o, match o with
                 | Shut null_set => shutdown_step null_set st.1 st.2
                 | Other o => (st.1, sender_step o st.2)
                 end) st l.

Definition joined (pc : shutdown_pc) : bool :=
  match pc with AwaitTask _ | Finished _ => true | _ => false end.
Definition is_done (pc : shutdown_pc) : bool := match pc with Finished _ => true | _ => false end.
Record shutting (pc : shutdown_pc) s : Prop := {
  sh_halted : halted s;
  sh_bus : joined pc = true → bus s ≠ BusLoop;
  sh_task : is_done pc = true → finished (task s) = true;
}.

Lemma finished_rtp_poll now write s :
  finished (task s) = true → finished (task (rtp_poll now write s)) = true.
Proof. intros Hf. unfold rtp_poll. by rewrite Hf. Qed.

(** A worker that is gone stays so. *)
Lemma sender_step_gone o s :
  halted s →
  (bus s ≠ BusLoop → bus (sender_step o s) ≠ BusLoop) ∧
  (finished (task s) = true → finished (task (sender_step o s)) = true).
Proof.
  intros [Hb Ha]. destruct o as [[sample| |now write|m]|early late playing|[]| |[]]; simpl; try done.
  - unfold new_sample. by repeat case_match.
  - split; [|apply finished_rtp_poll].
    unfold rtp_poll. rewrite Ha. by destruct (finished (task s)).
  - unfold bus_poll. rewrite Hb. by destruct (bus s) eqn:E; simpl; rewrite ?E.
  - unfold play. by rewrite Hb.
  - unfold shutdown, take_native_shutdown. simpl. by destruct (native_shutdown s).
Qed.

Lemma sender_step_halted o s : halted s → halted (sender_step o s).
Proof.
  intros Hh. destruct o as [o|early late playing|[]| |[]]; simpl; try done.
  - by apply thread_step_halted.
  - unfold play. destruct Hh as [Hb Ha]. by rewrite Hb.
  - apply shutdown_halts.
Qed.

Lemma shutdown_run_shutting l pc s :
  shutting pc s → shutting (shutdown_run l (pc, s)).1 (shutdown_run l (pc, s)).2.
Proof.
  revert pc s. induction l as [|o l IH]; intros pc s Hs; [done|].
  destruct Hs as [Hh Hbus Htask]. destruct o as [null_set|o]; simpl.
  - destruct (shutdown_step null_set pc s) as [pc' s'] eqn:Hstep. apply IH.
    destruct pc as [|r|r|r]; simpl in Hstep; injection Hstep as <- <-.
    + split; [by destruct null_set|done|done].
    + destruct (bus s) eqn:Hb; split; try done; congruence.
    + destruct (r_pc (task s)) eqn:Hpc; split; try done; intros _;
        first [by apply Hbus | unfold finished; by rewrite Hpc].
    + by split.
  - apply IH. destruct (sender_step_gone o s Hh) as [Hb Ht].
    split; [by apply sender_step_halted|auto|auto].
Qed.

Lemma shutdown_shutting s :
  native_shutdown s = false → shutting (shutdown s).1 (shutdown s).2.
Proof.
  intros Hn. split; [apply shutdown_halts|..];
    unfold shutdown, take_native_shutdown; simpl; by rewrite Hn.
Qed.

(** What a shutdown waits for: the bus thread looks at its flag and the RTP task
    is polled. *)
Definition settle (m : option bus_message) (now : Z) (write : option bool) (null_set : bool) :
    list shutdown_op :=
  Other (Thread (BusPoll m)) :: Other (Thread (RtpPoll now write)) :: replicate 3 (Shut null_set).

Lemma shutting_settles m now write null_set pc s :
  shutting pc s → is_done (shutdown_run (settle m now write null_set) (pc, s)).1 = true.
Proof.
  intros [[Hb Ha] Hbus Htask]. unfold settle, shutdown_run, replicate. simpl foldl.
  set (s1 := bus_poll m s).
  assert (bus s1 ≠ BusLoop ∧ aborted (task s1) = true) as [Hb1 Ha1].
  { subst s1. unfold bus_poll. rewrite Hb. by destruct (bus s) eqn:E; simpl; rewrite ?E. }
  clearbody s1. set (s2 := rtp_poll now write s1).
  assert (bus s2 ≠ BusLoop ∧ finished (task s2) = true) as [Hb2 Hf2].
  { subst s2. unfold rtp_poll. rewrite Ha1. by destruct (finished (task s1)) eqn:E. }
  clearbody s2. unfold finished in Hf2.
  destruct pc as [|r|r|r]; simpl; destruct null_set; simpl;
    destruct (bus s2) eqn:E; try done; simpl; destruct (r_pc (task s2)) eqn:E'; try done;
    simpl; rewrite ?E, ?E'; done.
Qed.

(** A shutdown completes once the bus thread has looked at its flag and the RTP task
    has been polled, whatever else happens meanwhile; and when it has completed
    neither worker runs. *)
Theorem shutdown_completes l m now write null_set s :
  native_shutdown s = false →
  let st := shutdown_run l (shutdown s) in
  (is_done st.1 = true → bus st.2 ≠ BusLoop ∧ finished (task st.2) = true) ∧
  is_done (shutdown_run (settle m now write null_set) st).1 = true.
Proof.
  intros Hn. cbv zeta.
  pose proof (shutdown_run_shutting l _ _ (shutdown_shutting s Hn)) as Hs.
  replace (shutdown_run l (shutdown s)) with
    (shutdown_run l ((shutdown s).1, (shutdown s).2)) by (by destruct (shutdown s)).
  destruct (shutdown_run l _) as [pc s']. simpl in *. split; [|by apply shutting_settles].
  destruct Hs as [_ Hbus Htask]. intros Hd. split; [apply Hbus|by apply Htask]. by destruct pc.
Qed.
End sender.

(** ** An instance, and executions of it *)

(** Four bytes of a packet are its timestamp. *)
#[local] Instance demo_rtp : RtpLib := {|
  RtpPacket := bytes;
  rtp_unmarshal d := if len d <? 4 then None else Some d;
  rtp_timestamp p := from_le_bytes (take 4 p);
|}.
Definition demo_sample (ticks : Z) : option bytes := Some (to_le_bytes 4 ticks).
(** The second packet is due 20 ms (960 ticks) after the first: a poll before that
    does not write it.  The sample before [play] is not sent. *)
Definition demo_run : list sender_op :=
  [Thread (NewSample (demo_sample 7)); Play [] [] true;
   Thread (NewSample (demo_sample 4294966776)); Thread (NewSample (Some [1])); Thread (NewSample (demo_sample 440));
   Thread (RtpPoll 1000 None); Thread (RtpPoll 1000 (Some true));
   Thread (RtpPoll 1001 None); Thread (RtpPoll 1002 None);
   Thread (RtpPoll 20000999 None); Thread (RtpPoll 20001000 None);
   Thread (RtpPoll 20001000 (Some true))].

Example demo_track :
  track (task (sender_run demo_run (new (C:=vec_chan) true))) =
    [(to_le_bytes 4 4294966776, 1000); (to_le_bytes 4 440, 20001000)].
Proof. by vm_compute. Qed.

Definition demo_sender : AudioSender vec_chan := sender_run demo_run (new true).

Lemma stopped_is_silent_witness :
  bus_running demo_sender = true ∧
  track (task (sender_run demo_run (sender_step TakeShutdown demo_sender))) = track (task demo_sender).
Proof.
  split; [by vm_compute|].
  apply (stopped_is_silent demo_run demo_sender TakeShutdown); [by vm_compute|by left].
Defined.

Lemma shutdown_completes_witness :
  native_shutdown demo_sender = false ∧
  is_done (shutdown_run (settle None 0 None true) (shutdown_run [] (shutdown demo_sender))).1 = true.
Proof.
  split; [by vm_compute|].
  apply (shutdown_completes [] None 0 None true demo_sender). by vm_compute.
Defined.
