(* ===== verification/Pipelines.v ===== *)
(** * Building and dropping the GStreamer pipelines (src/src/video/codec.rs, src/src/audio/transmit/service.rs)

    [H264Decoder::new] and [AudioSender::new] as the scripts of their calls into
    GStreamer, the class [GstApi], with what they rely on as its laws; and the launch
    lines they pass, which [elements] reads.  The theorems: of all the errors in the
    two scripts only those remain that report something outside of the program, a
    decoder that was created has its admission bound and is only ever offered BGR
    frames, and a sender plays exactly the URI of its source.  [stop] and the drop of a
    sender and of a decoder. *)
From Stdlib Require Import Ascii.
From S2P Require Import Prelude Floats Json Channel Events Utf8 AudioTransmit.
From S2P Require Video.
#[local] Open Scope Z_scope.

(** ** Launch lines *)

(** An element with its properties, or the caps of a filter. *)
Inductive launch_node :=
  | Element (factory : string) (properties : list (string * string))
  | Caps (caps : string).
#[export] Instance launch_node_eq_dec : EqDecision launch_node.
Proof. solve_decision. Defined.

Fixpoint split_at (c : Ascii.ascii) (s : string) : list string :=
  match s with
  | EmptyString => [""]
  | String a s =>
      if Ascii.eqb a c then "" :: split_at c s else
      match split_at c s with
      | w :: ws => String a w :: ws
      | [] => [String a ""]
      end
  end.
Fixpoint has_char (c : Ascii.ascii) (s : string) : bool :=
  match s with EmptyString => false | String a s => Ascii.eqb a c || has_char c s end.
Definition words (s : string) : list string := filter (λ w, w ≠ "") (split_at " "%char s).
Definition property (w : string) : string * string :=
  match split_at "="%char w with
  | k :: vs => (k, String.concat "=" vs)
  | [] => ("", "")
  end.
Definition launch_element (s : string) : option launch_node :=
  match words s with
  | [] => None
  | w :: ws => Some (if has_char "/"%char w then Caps w else Element w (property <$> ws))
  end.
Definition elements (line : string) : list launch_node := omap launch_element (split_at "!"%char line).

Definition node_named (name : string) (n : launch_node) : option string :=
  match n with
  | Element factory properties => if decide (("name", name) ∈ properties) then Some factory else None
  | Caps _ => None
  end.
Fixpoint factory_named (name : string) (l : list launch_node) : option string :=
  match l with
  | [] => None
  | n :: l => match node_named name n with Some f => Some f | None => factory_named name l end
  end.
(** The caps in front of the last element. *)
Fixpoint sink_caps (l : list launch_node) : option string :=
  match l with
  | [Caps c; Element _ _] => Some c
  | _ :: l => sink_caps l
  | [] => None
  end.

Definition video_pipeline (decoder_name : string) : string :=
  if seqb decoder_name "nvv4l2decoder" then
    "appsrc name=src is-live=true do-timestamp=true format=time block=false "
    +:+ "caps=video/x-h264,stream-format=byte-stream,alignment=nal "
    +:+ "! h264parse ! " +:+ decoder_name +:+ " ! nvvidconv ! video/x-raw,format=BGRx "
    +:+ "! videoconvert ! video/x-raw,format=BGR "
    +:+ "! appsink name=sink emit-signals=false sync=false max-buffers=2 drop=true"
  else
    "appsrc name=src is-live=true do-timestamp=true format=time block=false "
    +:+ "caps=video/x-h264,stream-format=byte-stream,alignment=nal "
    +:+ "! h264parse ! " +:+ decoder_name +:+ " ! videoconvert ! video/x-raw,format=BGR "
    +:+ "! appsink name=sink emit-signals=false sync=false max-buffers=2 drop=true".
Definition audio_pipeline : string :=
  "uridecodebin name=src ! audioconvert ! audioresample "
  +:+ "! audio/x-raw,rate=48000,channels=2,format=S16LE ! opusenc ! rtpopuspay "
  +:+ "! appsink name=sink emit-signals=false sync=true max-buffers=2 drop=true".

(** ** GStreamer *)

(** A pipeline [P]; [parse_launch] returns [None] for an element that is no pipeline;
    [by_name] the factory of the element with that name; [offers p s]: the appsink may
    be called with the sample [s]. *)
Class GstApi (P : Type) := {
  parse_launch : string → PortResult (option P);
  by_name : P → string → option string;
  set_uri : string → P → P;
  get_uri : P → option string;
  static_pad : P → bool;
  add_probe : P → option P;
  set_max_bytes : Z → P → P;
  get_max_bytes : P → option Z;
  set_state : GstState → P → PortResult P;
  get_state : P → GstState;
  has_bus : P → bool;
  offers : P → Video.Sample → Prop;
}.
(** What a script may change of a pipeline besides. *)
Record same_pipeline {P} `{GstApi P} (p p' : P) : Prop := {
  sp_uri : get_uri p' = get_uri p;
  sp_max : get_max_bytes p' = get_max_bytes p;
  sp_offers s : offers p' s → offers p s;
}.
(** gst_parse_launch: several elements make a pipeline, which has the elements of its
    line by their names and is not started; an appsrc always has its source pad; a caps
    filter lets pass what has its format; uridecodebin has the property [uri]. *)
Class GstLaws (P : Type) `{GstApi P} : Prop := {
  launched_pipeline line : (2 ≤ length (elements line))%nat → parse_launch line ≠ Ok None;
  launched_names line p name : parse_launch line = Ok (Some p) → by_name p name = factory_named name (elements line);
  launched_stopped line p : parse_launch line = Ok (Some p) → get_state p = GNull;
  launched_format line p s : parse_launch line = Ok (Some p) →
    sink_caps (elements line) = Some "video/x-raw,format=BGR" → offers p s → Video.s_is_bgr s = true;
  source_pad p : by_name p "src" = Some "appsrc" → static_pad p = true;
  uri_set uri p : get_uri (set_uri uri p) = Some uri ∧ get_state (set_uri uri p) = get_state p ∧
    ∀ name, by_name (set_uri uri p) name = by_name p name;
  probe_added p p' : add_probe p = Some p' → same_pipeline p p';
  max_bytes_set n p : get_max_bytes (set_max_bytes n p) = Some n ∧ ∀ s, offers (set_max_bytes n p) s → offers p s;
  state_set g p p' : set_state g p = Ok p' → get_state p' = g ∧ same_pipeline p p';
}.

Section pipelines.
Context {P : Type} `{GstApi P} {C : Type → Type} `{Chan C}.

(** ** [H264Decoder::new] *)
Definition downcast (factory error : string) (found : string) : PortResult () :=
  if seqb found factory then Ok () else Err error.
Definition track_encoded_buffers (p : P) : PortResult P :=
  if negb (static_pad p) then Err "appsrc source pad missing" else
  ok_or "appsrc buffer probe installation failed" (add_probe p).
Definition create_decoder (init : bool) (gst_init : option bool) (env_var : option string)
    (has_nvv4l2 has_avdec : bool) : PortResult (P * Video.H264Decoder C) :=
  _ ← (Video.ensure_gst_init init gst_init).1;
  decoder_name ← Video.detect_h264_decoder env_var has_nvv4l2 has_avdec;
  p ← map_err (λ e, "Failed to create GStreamer pipeline: " +:+ e) (parse_launch (video_pipeline decoder_name));
  p ← ok_or "Pipeline element is not a Pipeline" p;
  src ← ok_or "appsrc element not found in pipeline" (by_name p "src");
  _ ← downcast "appsrc" "Element 'src' is not an AppSrc" src;
  sink ← ok_or "appsink element not found in pipeline" (by_name p "sink");
  _ ← downcast "appsink" "Element 'sink' is not an AppSink" sink;
  p ← track_encoded_buffers p;
  let p := set_max_bytes Video.MAX_ENCODED_BYTES p in
  p ← map_err (λ e, "Failed to set pipeline to Playing state: " +:+ e) (set_state GPlaying p);
  Ok (p, Video.new_decoder).
(** [H264Decoder::drop]; a failure is only logged. *)
Definition drop_decoder (p : P) : P := match set_state GNull p with Ok p => p | Err _ => p end.

(** ** [AudioSender] *)
Context `{MediaFiles} `{RtpLib}.
Abbreviation AudioSender := (AudioSender C).
Implicit Types (s : AudioSender).
Definition create_sender (init : bool) (gst_init : option bool) (source : AudioSource) :
    PortResult (P * AudioSender) :=
  _ ← (Video.ensure_gst_init init gst_init).1;
  uri ← to_uri source;
  p ← map_err (λ e, "Failed to create GStreamer audio pipeline: " +:+ e) (parse_launch audio_pipeline);
  p ← ok_or "Pipeline element is not a Pipeline" p;
  _ ← ok_or "Audio source element not found" (by_name p "src");
  let p := set_uri uri p in
  sink ← ok_or "appsink element not found in pipeline" (by_name p "sink");
  _ ← downcast "appsink" "Element 'sink' is not an AppSink" sink;
  Ok (p, new (has_bus p)).

(** [stop]: the native part alone, which blocks in its join of the bus thread; [None]
    when an earlier shutdown has taken it. *)
Definition stop s : option shutdown_pc * AudioSender :=
  let '(native, s) := take_native_shutdown s in (if native then Some SetNull else None, s).
(** A step of [NativeAudioShutdown::stop]; the second component is its result. *)
Definition native_step (null_set : bool) (pc : shutdown_pc) s :
    shutdown_pc * AudioSender * option (PortResult ()) :=
  let '(pc, s) := shutdown_step null_set pc s in
  (pc, s, match pc with AwaitTask r => Some r | _ => None end).
(** The drop: [has_task] whether the handle of the RTP task is still there, [runtime]
    whether the thread is in a runtime.  What it leaves to do: a shutdown of its own
    task, or the native part where it stands.  (The native part is never left without
    the handle: [shutdown] takes both, [stop] only the first.) *)
Inductive drop_work := Nothing | Spawned (pc : shutdown_pc) | Blocking (pc : shutdown_pc).
Definition drop_sender (runtime has_task : bool) s : drop_work * AudioSender :=
  let '(native, s) := take_native_shutdown s in
  (if negb native && negb has_task then Nothing else
   if runtime then Spawned (if native then SetNull else AwaitTask (Ok ())) else
   if native then Blocking SetNull else Nothing, s).
End pipelines.

(** ** The lines the program launches *)
Lemma video_line name env_var has_nvv4l2 has_avdec :
  Video.detect_h264_decoder env_var has_nvv4l2 has_avdec = Ok name →
  elements (video_pipeline name) =
    [Element "appsrc" [("name", "src"); ("is-live", "true"); ("do-timestamp", "true"); ("format", "time");
       ("block", "false"); ("caps", "video/x-h264,stream-format=byte-stream,alignment=nal")];
     Element "h264parse" []; Element name []]
    ++ (if seqb name "nvv4l2decoder" then [Element "nvvidconv" []; Caps "video/x-raw,format=BGRx"] else [])
    ++ [Element "videoconvert" []; Caps "video/x-raw,format=BGR";
        Element "appsink" [("name", "sink"); ("emit-signals", "false"); ("sync", "false");
          ("max-buffers", "2"); ("drop", "true")]].
Proof.
  intros Hd. assert (name = "nvv4l2decoder" ∨ name = "avdec_h264") as [->| ->]; [|by vm_compute..].
  revert Hd. unfold Video.detect_h264_decoder. generalize (Video.lowercase (trim (default "auto" env_var))). intros r.
  destruct (_ || _), has_nvv4l2, has_avdec; simpl; try (intros [= <-]; tauto); try done;
    destruct (seqb r "nvv4l2decoder"); try (intros [= <-]; tauto); try done;
    destruct (seqb r "avdec_h264"); try (intros [= <-]; tauto); done.
Qed.
Example audio_line :
  elements audio_pipeline =
    [Element "uridecodebin" [("name", "src")]; Element "audioconvert" []; Element "audioresample" [];
     Caps "audio/x-raw,rate=48000,channels=2,format=S16LE"; Element "opusenc" []; Element "rtpopuspay" [];
     Element "appsink" [("name", "sink"); ("emit-signals", "false"); ("sync", "true"); ("max-buffers", "2"); ("drop", "true")]].
Proof. by vm_compute. Qed.

Section created.
Context {P : Type} `{GstLaws P} {C : Type → Type} `{Chan C}.

Lemma launched line p :
  (2 ≤ length (elements line))%nat → parse_launch line = Ok p →
  ∃ p', p = Some p' ∧ ∀ name, by_name p' name = factory_named name (elements line).
Proof.
  intros Hl Hp. destruct p as [p|]; [|by destruct (launched_pipeline line Hl)].
  exists p. split; [done|]. intros name. by apply launched_names.
Qed.

(** What may fail outside of the program when a decoder is created. *)
Inductive decoder_failure (init : bool) (gst_init : option bool) (env_var : option string)
    (has_nvv4l2 has_avdec : bool) : string → Prop :=
  | no_gstreamer : default init gst_init = false →
      decoder_failure init gst_init env_var has_nvv4l2 has_avdec
        "GStreamer initialization failed. Is GStreamer installed?"
  | no_decoder e : Video.detect_h264_decoder env_var has_nvv4l2 has_avdec = Err e →
      decoder_failure init gst_init env_var has_nvv4l2 has_avdec e
  | not_launched name e : Video.detect_h264_decoder env_var has_nvv4l2 has_avdec = Ok name →
      parse_launch (P:=P) (video_pipeline name) = Err e →
      decoder_failure init gst_init env_var has_nvv4l2 has_avdec ("Failed to create GStreamer pipeline: " +:+ e)
  | no_probe (p : P) : add_probe p = None →
      decoder_failure init gst_init env_var has_nvv4l2 has_avdec "appsrc buffer probe installation failed"
  | not_playing (p : P) e : set_state GPlaying p = Err e →
      decoder_failure init gst_init env_var has_nvv4l2 has_avdec
        ("Failed to set pipeline to Playing state: " +:+ e).

Lemma video_names name env_var has_nvv4l2 has_avdec :
  Video.detect_h264_decoder env_var has_nvv4l2 has_avdec = Ok name →
  let l := elements (video_pipeline name) in
  (2 ≤ length l)%nat ∧ factory_named "src" l = Some "appsrc" ∧ factory_named "sink" l = Some "appsink" ∧
  sink_caps l = Some "video/x-raw,format=BGR".
Proof.
  intros Hd. rewrite (video_line _ _ _ _ Hd). destruct (seqb name _); (split_and!; [simpl; lia|by vm_compute..]).
Qed.

(** A decoder that was created plays, admits the bytes the admission policy says and
    is only ever offered frames in the format it repacks, which is why no frame is
    turned away for its format; a creation that failed failed in GStreamer: the errors
    about missing or wrong elements never happen. *)
Theorem decoder_created init gst_init env_var has_nvv4l2 has_avdec :
  match create_decoder (P:=P) (C:=C) init gst_init env_var has_nvv4l2 has_avdec with
  | Ok (p, d) =>
      d = Video.new_decoder ∧ get_state p = GPlaying ∧ get_max_bytes p = Some Video.MAX_ENCODED_BYTES ∧
      ∀ s, offers p s → Video.s_is_bgr s = true
  | Err e => decoder_failure init gst_init env_var has_nvv4l2 has_avdec e
  end.
Proof.
  unfold create_decoder. destruct (Video.ensure_gst_init init gst_init).1 eqn:Hg; simpl.
  2: { revert Hg. simpl. destruct (default init gst_init) eqn:Hi; [done|]. intros [= <-]. by apply no_gstreamer. }
  destruct (Video.detect_h264_decoder _ _ _) as [name|e] eqn:Hd; simpl; [|by apply no_decoder].
  destruct (parse_launch _) as [p|e] eqn:Hl; simpl; [|by apply (not_launched _ _ _ _ _ name)].
  destruct (video_names _ _ _ _ Hd) as (Hlen & Hsrc & Hsink & Hcaps).
  destruct (launched _ _ Hlen Hl) as (p0 & -> & Hn). simpl. rewrite !Hn, Hsrc, Hsink. simpl.
  unfold track_encoded_buffers. rewrite source_pad by (by rewrite Hn). simpl.
  destruct (add_probe p0) as [p1|] eqn:Hp; simpl; [|by apply (no_probe _ _ _ _ _ p0)].
  destruct (set_state _ _) as [p2|e] eqn:Hs; simpl; [|by eapply not_playing].
  destruct (state_set _ _ _ Hs) as [Hst [_ Hm Ho]]. destruct (max_bytes_set Video.MAX_ENCODED_BYTES p1) as [Hmax Hof].
  destruct (probe_added _ _ Hp) as [_ _ Hop].
  split_and!; [done|done|congruence|]. intros s Hs'. apply (launched_format _ p0 s Hl Hcaps). auto.
Qed.

Context `{MediaFiles} `{RtpLib}.
(** A sender that was created holds a pipeline that is not started, for exactly the URI
    of its source; what failed is GStreamer or the source. *)
Theorem sender_created init gst_init source :
  match create_sender (P:=P) (C:=C) init gst_init source with
  | Ok (p, s) =>
      ∃ uri, to_uri source = Ok uri ∧ get_uri p = Some uri ∧ get_state p = GNull ∧ s = new (has_bus p)
  | Err e =>
      default init gst_init = false ∧ e = "GStreamer initialization failed. Is GStreamer installed?" ∨
      to_uri source = Err e ∨
      ∃ e', parse_launch (P:=P) audio_pipeline = Err e' ∧ e = "Failed to create GStreamer audio pipeline: " +:+ e'
  end.
Proof.
  unfold create_sender. destruct (Video.ensure_gst_init init gst_init).1 eqn:Hg; simpl.
  2: { revert Hg. simpl. destruct (default init gst_init) eqn:Hi; [done|]. intros [= <-]. by left. }
  destruct (to_uri source) as [uri|e]; simpl; [|by right; left].
  destruct (parse_launch _) as [p|e] eqn:Hl; simpl; [|right; right; by exists e].
  assert (2 ≤ length (elements audio_pipeline))%nat as Hlen by (rewrite audio_line; simpl; lia).
  destruct (launched _ _ Hlen Hl) as (p0 & -> & Hn). simpl. destruct (uri_set uri p0) as (Hu & Hst & Hname).
  rewrite Hname, !Hn, audio_line. simpl. exists uri. split_and!; [done|done| |done].
  rewrite Hst. by apply (launched_stopped audio_pipeline).
Qed.
End created.

(** Whatever a stop or a drop leaves to do, the sender is silent at once: it writes no
    further packet; and the native part goes to one of them only. *)
Section dropped.
Context {C : Type → Type} `{Chan C} `{RtpLib}.
Implicit Types (s : AudioTransmit.AudioSender C).
Lemma take_halts s : halted (take_native_shutdown s).2 ∧ native_shutdown (take_native_shutdown s).2 = true.
Proof. unfold take_native_shutdown. simpl. by destruct (native_shutdown s) eqn:E. Qed.
Lemma stop_once s : (stop (stop s).2).1 = None.
Proof.
  unfold stop. destruct (take_halts s) as [_ Hn]. destruct (take_native_shutdown s) as [[] s']; simpl in *;
    unfold take_native_shutdown; simpl; by rewrite Hn.
Qed.
Lemma drop_halts runtime has_task s : halted (drop_sender runtime has_task s).2.
Proof.
  unfold drop_sender. destruct (take_halts s) as [Hh _].
  by destruct (take_native_shutdown s) as [[] s'].
Qed.
(** In a runtime the drop spawns the shutdown. *)
Lemma drop_spawns s :
  (drop_sender true true s).1 = Spawned (shutdown s).1 ∧ (drop_sender true true s).2 = (shutdown s).2.
Proof. unfold drop_sender, shutdown. by destruct (take_native_shutdown s) as [[] s']. Qed.
(** After [stop], the bus thread having looked at its flag, two steps end the join. *)
Lemma native_stop_completes s m null_set :
  let s := bus_poll m (stop s).2 in
  ∃ r, (native_step null_set (JoinBus r) s).2 = Some r ∧ bus s ≠ BusLoop.
Proof.
  unfold stop. destruct (take_halts s) as [[Hb _] _]. destruct (take_native_shutdown s) as [n s']. simpl in *.
  assert (bus (bus_poll m s') ≠ BusLoop) as Hj.
  { unfold bus_poll. rewrite Hb. by destruct (bus s') eqn:E; simpl; rewrite ?E. }
  exists (Ok ()). split; [|by destruct n]. unfold native_step. simpl. by destruct n, (bus (bus_poll m s')).
Qed.
End dropped.

(** ** A GStreamer that launches every line of two elements *)
#[local] Definition toy_pipeline : Type := string * option string * option Z * GstState.
#[local] Instance toy_gst : GstApi toy_pipeline := {|
  parse_launch line := if (2 <=? length (elements line))%nat then Ok (Some (line, None, None, GNull)) else Ok None;
  by_name p name := factory_named name (elements p.1.1.1);
  set_uri uri p := (p.1.1.1, Some uri, p.1.2, p.2);
  get_uri p := p.1.1.2;
  static_pad p := true;
  add_probe := Some;
  set_max_bytes n p := (p.1.1.1, p.1.1.2, Some n, p.2);
  get_max_bytes p := p.1.2;
  set_state g p := Ok (p.1.1.1, p.1.1.2, p.1.2, g);
  get_state p := p.2;
  has_bus _ := true;
  offers p s := sink_caps (elements p.1.1.1) = Some "video/x-raw,format=BGR" → Video.s_is_bgr s = true;
|}.
#[local] Instance toy_gst_laws : GstLaws toy_pipeline.
Proof.
  split; try done.
  - intros line Hl. unfold parse_launch, toy_gst. by rewrite (proj2 (Nat.leb_le _ _) Hl).
  - intros line p name. unfold parse_launch, toy_gst. destruct (2 <=? _)%nat; [|done]. by intros [= <-].
  - intros line p. unfold parse_launch, toy_gst. destruct (2 <=? _)%nat; [|done]. by intros [= <-].
  - intros line p s. unfold parse_launch, toy_gst. destruct (2 <=? _)%nat; [|done]. intros [= <-]; auto.
  - by intros p p' [= <-].
  - by intros g p p' [= <-].
Qed.
Lemma decoder_created_witness : ∃ p, create_decoder (P:=toy_pipeline) (C:=vec_chan) true None None true true = Ok (p, Video.new_decoder) ∧
  get_state p = GPlaying ∧ ∀ s, offers p s → Video.s_is_bgr s = true.
Proof.
  pose proof (decoder_created (P:=toy_pipeline) (C:=vec_chan) true None None true true) as Hc.
  assert (∃ p, create_decoder (P:=toy_pipeline) (C:=vec_chan) true None None true true = Ok (p, Video.new_decoder)) as [p Hp]
    by (eexists; vm_compute; reflexivity).
  exists p. rewrite Hp in Hc. destruct Hc as (_ & Hst & _ & Ho). split_and!; [exact Hp|exact Hst|exact Ho].
Defined.
