(* ===== verification/Playback.v ===== *)
(** * Playback (src/src/connection/lifecycle.rs, session.rs)

    A session plays at most one source: [AudioPlayback] holds the sender and the
    task that shuts the previous one down, [stop_audio_sender] awaits that task in
    place, and [AudioOperation] hands the session gate to a cleanup task when an
    operation is cancelled.  Every operation that touches the playback holds the
    gate; the step relation runs the holder from one await to the next, interleaved
    with the senders' threads, the cleanup task and cancellations.  The theorems:
    never are two pipelines running, a stop leaves none, and an interrupted
    operation gives the gate back. *)
From S2P Require Import Prelude Json Channel AudioTransmit.
#[local] Open Scope Z_scope.

(** The shutdown task: spawned, and then at one of its awaits. *)
Inductive cleanup_task (C : Type → Type) `{RtpLib} :=
  | Spawned (s : AudioSender C)
  | Running (pc : shutdown_pc) (s : AudioSender C).
Arguments Spawned {C _}. Arguments Running {C _}.

(** Where [stop_audio_sender] is: at the lock of the playback, or, with the lock
    held, at the cleanup task. *)
Inductive stop_pc := LockAudio | AwaitCleanup.
(** The operation that holds the gate: [play_audio], [stop_audio], a connection
    attempt, a disconnect, or what a cancelled one of them leaves behind. *)
Inductive holder :=
  | PlayStop (p : stop_pc) | PlayTrack | PlayLock | PlayRollback (p : stop_pc) (e : string)
  | StopStop (p : stop_pc)
  | ConnectStop (p : stop_pc) | ConnectRun | ConnectRollback (p : stop_pc) (e : string) | ConnectRest (e : string)
  | DisconnectStop (p : stop_pc) | DisconnectRest
  | DropStop (p : stop_pc) (of_attempt : bool) | DropRest.
Inductive request := PlayAudio | StopAudio | Connect | Disconnect.

(** The playback, its lock, the gate, and what the program has let go of: senders
    dropped by [insert] or with an unfinished cleanup ([orphans]), and those whose
    cleanup was awaited ([retired]). *)
Record Playback (C : Type → Type) `{RtpLib} := {
  sender : option (AudioSender C);
  cleanup : option (cleanup_task C);
  locked : bool;
  gate : option holder;
  orphans : list (AudioSender C);
  retired : list (AudioSender C);
}.
Arguments sender {C _}. Arguments cleanup {C _}. Arguments locked {C _}. Arguments gate {C _}.
Arguments orphans {C _}. Arguments retired {C _}.

(** What a poll of the holder finds outside: whether the session is connected, the
    track (if the engine answers), whether a sender can be built and with a bus,
    the run of the threads during [play], its outcome, and how a connection
    attempt or a rollback has ended. *)
Record view := {
  connected : bool;
  audio_track : option bool;
  built : PortResult bool;
  early : list thread_op; late : list thread_op; playing : bool;
  attempt : option (PortResult ());
}.

Section playback.
Context {C : Type → Type} `{Chan C} `{RtpLib}.
Abbreviation AudioSender := (AudioSender C).
Abbreviation Playback := (Playback C).
Implicit Types (st : Playback).

Definition with_gate (g : option holder) st : Playback :=
  {| sender := sender st; cleanup := cleanup st; locked := locked st; gate := g;
     orphans := orphans st; retired := retired st |}.
Definition with_lock (b : bool) st : Playback :=
  {| sender := sender st; cleanup := cleanup st; locked := b; gate := gate st;
     orphans := orphans st; retired := retired st |}.
Definition with_sender (o : option AudioSender) st : Playback :=
  {| sender := o; cleanup := cleanup st; locked := locked st; gate := gate st;
     orphans := orphans st; retired := retired st |}.
Definition with_cleanup (c : option (cleanup_task C)) st : Playback :=
  {| sender := sender st; cleanup := c; locked := locked st; gate := gate st;
     orphans := orphans st; retired := retired st |}.
Definition orphan (s : AudioSender) st : Playback :=
  {| sender := sender st; cleanup := cleanup st; locked := locked st; gate := gate st;
     orphans := s :: orphans st; retired := retired st |}.
Definition retire (s : AudioSender) st : Playback :=
  {| sender := sender st; cleanup := cleanup st; locked := locked st; gate := gate st;
     orphans := orphans st; retired := s :: retired st |}.

Definition default_playback : Playback :=
  {| sender := None; cleanup := None; locked := false; gate := None; orphans := []; retired := [] |}.

(** [AudioPlayback::play]: [insert] drops the sender it replaces. *)
Definition play_sender (has_bus : bool) (v : view) st : PortResult () * Playback :=
  let st := match sender st with Some old => orphan old st | None => st end in
  let '(r, s) := play (early v) (late v) (playing v) (new has_bus) in
  (r, with_sender (Some s) st).

(** A poll of [stop_audio_sender]: its result if it returns, else where it waits. *)
Definition await_cleanup st : result stop_pc (PortResult ()) * Playback :=
  match cleanup st with
  | None => (Ok (Ok ()), with_lock false st)
  | Some (Running (Finished r) s) => (Ok r, with_lock false (with_cleanup None (retire s st)))
  | Some _ => (Err AwaitCleanup, st)
  end.
Definition spawn_cleanup st : Playback :=
  match cleanup st, sender st with
  | None, Some s => with_cleanup (Some (Spawned s)) (with_sender None st)
  | _, _ => st
  end.
Definition stop_audio_sender (p : stop_pc) st : result stop_pc (PortResult ()) * Playback :=
  match p with
  | LockAudio =>
      if locked st then (Err LockAudio, st) else
      await_cleanup (spawn_cleanup (with_lock true st))
  | AwaitCleanup => await_cleanup st
  end.

(** The holder goes on to [h], or lets the gate go. *)
Definition stay (h : holder) (st : Playback) : option (PortResult ()) * Playback :=
  (None, with_gate (Some h) st).
Definition finish (r : PortResult ()) (st : Playback) : option (PortResult ()) * Playback :=
  (Some r, with_gate None st).

(** A poll of the holder that starts at the await [h], and the result of the
    operation if it returns.  The polls of two awaits that follow each other
    without waiting are two steps. *)
Definition holder_poll (v : view) (h : holder) st : option (PortResult ()) * Playback :=
  match h with
  | PlayStop p =>
      match stop_audio_sender p st with
      | (Err p, st) => stay (PlayStop p) st
      | (Ok (Err e), st) => finish (Err e) st
      | (Ok (Ok _), st) =>
          if negb (connected v) then finish (Err "Audio track not initialized. Call connect() first.") st
          else stay PlayTrack st
      end
  | PlayTrack =>
      match audio_track v with
      | None => stay PlayTrack st
      | Some false => finish (Err "Audio track not initialized. Call connect() first.") st
      | Some true => stay PlayLock st
      end
  | PlayLock =>
      if locked st then stay PlayLock st else
      match built v with
      | Err e => finish (Err e) st
      | Ok has_bus =>
          match play_sender has_bus v st with
          | (Ok _, st) => finish (Ok ()) st
          | (Err e, st) => stay (PlayRollback LockAudio e) st
          end
      end
  | PlayRollback p e =>
      match stop_audio_sender p st with
      | (Err p, st) => stay (PlayRollback p e) st
      | (Ok _, st) => finish (Err e) st
      end
  | StopStop p =>
      match stop_audio_sender p st with
      | (Err p, st) => stay (StopStop p) st
      | (Ok r, st) => finish r st
      end
  | ConnectStop p =>
      match stop_audio_sender p st with
      | (Err p, st) => stay (ConnectStop p) st
      | (Ok (Err e), st) => stay (ConnectRollback LockAudio e) st
      | (Ok (Ok _), st) => stay ConnectRun st
      end
  | ConnectRun =>
      match attempt v with
      | None => stay ConnectRun st
      | Some (Ok _) => finish (Ok ()) st
      | Some (Err e) => stay (ConnectRollback LockAudio e) st
      end
  | ConnectRollback p e =>
      match stop_audio_sender p st with
      | (Err p, st) => stay (ConnectRollback p e) st
      | (Ok _, st) => stay (ConnectRest e) st
      end
  | ConnectRest e =>
      match attempt v with None => stay (ConnectRest e) st | Some _ => finish (Err e) st end
  | DisconnectStop p =>
      match stop_audio_sender p st with
      | (Err p, st) => stay (DisconnectStop p) st
      | (Ok _, st) => stay DisconnectRest st
      end
  | DisconnectRest =>
      match attempt v with None => stay DisconnectRest st | Some _ => finish (Ok ()) st end
  | DropStop p of_attempt =>
      match stop_audio_sender p st with
      | (Err p, st) => stay (DropStop p of_attempt) st
      | (Ok r, st) => if of_attempt then stay DropRest st else finish r st
      end
  | DropRest =>
      match attempt v with None => stay DropRest st | Some _ => finish (Ok ()) st end
  end.

(** Whether the holder has the lock, and what its cancellation leaves: the future
    drops its guard, the gate moves to a cleanup task, which is detached. *)
Definition holds_lock (h : holder) : bool :=
  match h with
  | PlayStop AwaitCleanup | PlayRollback AwaitCleanup _ | StopStop AwaitCleanup
  | ConnectStop AwaitCleanup | ConnectRollback AwaitCleanup _
  | DisconnectStop AwaitCleanup | DropStop AwaitCleanup _ => true
  | _ => false
  end.
Definition unlock (h : holder) st : Playback := if holds_lock h then with_lock false st else st.
Definition cancel (h : holder) st : Playback :=
  match h with
  | DropStop _ _ | DropRest => st
  | PlayStop _ | PlayTrack | PlayLock | PlayRollback _ _ | StopStop _ =>
      with_gate (Some (DropStop LockAudio false)) (unlock h st)
  | _ => with_gate (Some (DropStop LockAudio true)) (unlock h st)
  end.
(** [ConnectionAttempt::run] drops the attempt's future when a disconnect is asked for. *)
Definition interrupt (e : string) (h : holder) st : Playback :=
  match h with
  | ConnectStop _ | ConnectRun =>
      with_gate (Some (ConnectRollback LockAudio e)) (unlock h st)
  | _ => st
  end.

(** A retry after an intentional disconnect returns before it touches the playback: it
    is no request. *)
Definition start (q : request) : holder :=
  match q with
  | PlayAudio => PlayStop LockAudio
  | StopAudio => StopStop LockAudio
  | Connect => ConnectStop LockAudio
  | Disconnect => DisconnectStop LockAudio
  end.

(** The shutdown task: its first poll takes the native part. *)
Definition cleanup_poll (null_set : bool) (c : cleanup_task C) : cleanup_task C :=
  match c with
  | Spawned s => let '(pc, s) := shutdown s in Running pc s
  | Running pc s => let '(pc, s) := shutdown_step null_set pc s in Running pc s
  end.
Definition cleanup_thread (o : thread_op) (c : cleanup_task C) : cleanup_task C :=
  match c with
  | Spawned s => Spawned (thread_step o s)
  | Running pc s => Running pc (thread_step o s)
  end.

Inductive session_op :=
  | Begin (q : request)
  | Poll (v : view)
  | Cancel
  | Interrupt (e : string)
  | SenderThread (o : thread_op)
  | CleanupPoll (null_set : bool)
  | CleanupThread (o : thread_op).
Definition session_step (o : session_op) st : Playback :=
  match o with
  | Begin q => match gate st with None => with_gate (Some (start q)) st | Some _ => st end
  | Poll v => match gate st with Some h => (holder_poll v h st).2 | None => st end
  | Cancel => match gate st with Some h => cancel h st | None => st end
  | Interrupt e => match gate st with Some h => interrupt e h st | None => st end
  | SenderThread o => with_sender (thread_step o <$> sender st) st
  | CleanupPoll null_set => with_cleanup (cleanup_poll null_set <$> cleanup st) st
  | CleanupThread o => with_cleanup (cleanup_thread o <$> cleanup st) st
  end.
Definition session_run (l : list session_op) st : Playback := foldl (λ st o, session_step o st) st l.

(** ** The invariant *)

(** A worker of the sender may still run. *)
Definition alive (s : AudioSender) : bool :=
  match bus s with BusLoop => true | _ => negb (finished (task s)) end.
Definition cleaning (c : cleanup_task C) : AudioSender :=
  match c with Spawned s | Running _ s => s end.
(** Every sender the session ever made. *)
Definition all_senders st : list AudioSender :=
  option_list (sender st) ++ option_list (cleaning <$> cleanup st) ++ orphans st ++ retired st.

Definition cleanup_ok (c : cleanup_task C) : Prop :=
  match c with Spawned s => native_shutdown s = false | Running pc s => shutting pc s end.
(** Holders that have stopped what was playing and not yet started anything. *)
Definition idle_holder (h : holder) : bool :=
  match h with
  | PlayTrack | PlayLock | ConnectRun | ConnectRest _ | DisconnectRest | DropRest => true
  | _ => false
  end.
Record core st : Prop := {
  co_orphans : orphans st = [];
  co_retired : Forall (λ s, alive s = false) (retired st);
  co_exclusive : sender st = None ∨ cleanup st = None;
  co_sender : ∀ s, sender st = Some s → native_shutdown s = false;
  co_cleanup : ∀ c, cleanup st = Some c → cleanup_ok c;
}.
Record playback_inv st : Prop := {
  pb_core : core st;
  pb_lock : locked st = match gate st with Some h => holds_lock h | None => false end;
  pb_await : locked st = true → sender st = None;
  pb_free : gate st = None → cleanup st = None;
  pb_idle : ∀ h, gate st = Some h → idle_holder h = true → sender st = None ∧ cleanup st = None;
}.

Lemma native_shutdown_thread o s : native_shutdown (thread_step o s) = native_shutdown s.
Proof.
  destruct o as [[sample|]| |now write|m]; simpl; [| |done| |].
  1,2: unfold new_sample; by repeat case_match.
  - unfold rtp_poll, on_rtp. by repeat (case_match; simpl).
  - unfold bus_poll. by repeat (case_match; simpl).
Qed.
Lemma native_shutdown_run l s : native_shutdown (thread_run l s) = native_shutdown s.
Proof.
  revert s. induction l as [|o l IH]; intros s; [done|]. simpl.
  by rewrite IH, native_shutdown_thread.
Qed.
Lemma native_shutdown_play early late playing s :
  native_shutdown (play early late playing s).2 = native_shutdown s.
Proof.
  unfold play. destruct (bus_running s); simpl; [|done].
  destruct playing; simpl; [|rewrite native_shutdown_run; simpl; by rewrite native_shutdown_run].
  case_match; simpl; by rewrite !native_shutdown_run; simpl; rewrite ?native_shutdown_run.
Qed.

(** A finished shutdown leaves nothing running. *)
Lemma finished_not_alive r s : shutting (Finished r) s → alive s = false.
Proof.
  intros [_ Hb Ht]. unfold alive. rewrite Ht by done. specialize (Hb eq_refl). by destruct (bus s).
Qed.
Lemma cleanup_poll_ok null_set c : cleanup_ok c → cleanup_ok (cleanup_poll null_set c).
Proof.
  destruct c as [s|pc s]; simpl; intros Hc.
  - pose proof (shutdown_shutting s Hc) as Hs. by destruct (shutdown s).
  - pose proof (shutdown_run_shutting [Shut null_set] pc s Hc) as Hs. simpl in Hs.
    by destruct (shutdown_step null_set pc s).
Qed.
Lemma cleanup_thread_ok o c : cleanup_ok c → cleanup_ok (cleanup_thread o c).
Proof.
  destruct c as [s|pc s]; simpl; intros Hc.
  - by rewrite native_shutdown_thread.
  - apply (shutdown_run_shutting [Other (Thread o)] pc s Hc).
Qed.

(** [stop_audio_sender]: it waits for the cleanup task with the lock held, and
    returns only when there is neither a sender nor a task left. *)
Lemma await_cleanup_spec st :
  core st → sender st = None →
  match await_cleanup st with
  | (Err p, st') => p = AwaitCleanup ∧ core st' ∧ locked st' = locked st ∧ sender st' = None
  | (Ok _, st') => core st' ∧ locked st' = false ∧ sender st' = None ∧ cleanup st' = None
  end.
Proof.
  intros [Ho Hr He Hs Hc] Hn. unfold await_cleanup.
  destruct (cleanup st) as [[s|[| | |r] s]|] eqn:Hcl; simpl;
    try (split_and!; [done|split; by rewrite ?Hcl|done|done]).
  - specialize (Hc _ eq_refl). split_and!; [split; simpl|..]; try done; [|by right].
    constructor; [|done]. by eapply finished_not_alive.
  - split_and!; try done. split; simpl; by rewrite ?Hcl.
Qed.
Lemma stop_audio_sender_spec p st :
  core st → locked st = (match p with AwaitCleanup => true | LockAudio => false end) →
  (locked st = true → sender st = None) →
  match stop_audio_sender p st with
  | (Err p', st') => p' = AwaitCleanup ∧ core st' ∧ locked st' = true ∧ sender st' = None
  | (Ok _, st') => core st' ∧ locked st' = false ∧ sender st' = None ∧ cleanup st' = None
  end.
Proof.
  intros Hcore Hl Hs. destruct p; simpl.
  - rewrite Hl.
    set (st1 := spawn_cleanup (with_lock true st)).
    assert (core st1 ∧ sender st1 = None ∧ locked st1 = true) as (H1 & H2 & H3).
    { destruct Hcore as [Ho Hr He Hse Hc]. subst st1. unfold spawn_cleanup. simpl.
      destruct (cleanup st) as [c|] eqn:Hcl.
      - assert (sender st = None) as Hn by naive_solver. split_and!; [|done|done].
        split; simpl; rewrite ?Hcl; auto.
      - destruct (sender st) as [s|] eqn:Hsn; (split_and!; [split; simpl|..]);
          rewrite ?Hcl, ?Hsn; auto; [done|]. intros c [= <-]. simpl. auto. }
    clearbody st1. pose proof (await_cleanup_spec st1 H1 H2) as Ha. rewrite H3 in Ha.
    by destruct (await_cleanup st1) as [[r|p] st'].
  - pose proof (await_cleanup_spec st Hcore (Hs Hl)) as Ha. rewrite Hl in Ha.
    by destruct (await_cleanup st) as [[r|p] st'].
Qed.

(** A holder that is inside [stop_audio_sender], and what it does with its result. *)
Lemma stay_inv h st :
  core st → locked st = holds_lock h → (locked st = true → sender st = None) →
  (idle_holder h = true → sender st = None ∧ cleanup st = None) →
  playback_inv (with_gate (Some h) st).
Proof. intros [] Hl Ha Hi. split; simpl; try done. by intros ? [= <-]. Qed.
Lemma finish_inv st :
  core st → locked st = false → cleanup st = None → playback_inv (with_gate None st).
Proof. intros [] Hl Hc. split; simpl; try done. by rewrite Hl. Qed.

Lemma play_sender_spec has_bus v st :
  core st → sender st = None → cleanup st = None →
  core (play_sender has_bus v st).2 ∧ locked (play_sender has_bus v st).2 = locked st ∧
  cleanup (play_sender has_bus v st).2 = None.
Proof.
  intros [] Hs Hc. unfold play_sender. rewrite Hs.
  destruct (play (early v) (late v) (playing v) (new has_bus)) as [r s] eqn:Hp.
  split_and!; [|done|done]. split; simpl; auto.
  intros s' [= <-]. pose proof (native_shutdown_play (early v) (late v) (playing v) (new has_bus)) as Hn.
  by rewrite Hp in Hn.
Qed.

(** A poll of the holder keeps the invariant, and if the operation returns there
    is no cleanup left and no sender, unless it is a [play_audio] that succeeded. *)
Lemma holder_poll_spec v h st :
  playback_inv st → gate st = Some h →
  playback_inv (holder_poll v h st).2 ∧
  ∀ r, (holder_poll v h st).1 = Some r →
    gate (holder_poll v h st).2 = None ∧ cleanup (holder_poll v h st).2 = None ∧
    (sender (holder_poll v h st).2 = None ∨ (h = PlayLock ∧ r = Ok ())).
Proof.
  intros [Hcore Hl Ha Hf Hi] Hg. rewrite Hg in Hl.
  assert (∀ p, holds_lock h = match p with AwaitCleanup => true | LockAudio => false end →
    match stop_audio_sender p st with
    | (Err p', st') => p' = AwaitCleanup ∧ core st' ∧ locked st' = true ∧ sender st' = None
    | (Ok _, st') => core st' ∧ locked st' = false ∧ sender st' = None ∧ cleanup st' = None
    end) as Hstop by (intros p Hp; apply stop_audio_sender_spec; [done|congruence|done]).
  assert (idle_holder h = true → locked st = false ∧ sender st = None ∧ cleanup st = None) as Hidle.
  { intros Hh. destruct (Hi h Hg Hh) as [-> ->]. split; [|done]. rewrite Hl. by destruct h. }
  destruct h as [p| | |p e|p|p| |p e|e|p| |p b|];
    try (specialize (Hstop p ltac:(by destruct p)); simpl;
         destruct (stop_audio_sender p st) as [[r|p'] st']; destruct_and!; subst; simpl;
         [|split; [by apply stay_inv|done]]);
    try (specialize (Hidle eq_refl); destruct_and!; simpl);
    try (repeat case_match; simpl; subst; (split; [|by intros; auto]);
         solve [by apply stay_inv|by apply finish_inv]).
  rewrite H1. destruct (built v) as [has_bus|e]; simpl;
    [|split; [by apply finish_inv|by auto]].
  destruct (play_sender_spec has_bus v st) as (? & ? & ?); [done..|].
  destruct (play_sender has_bus v st) as [[[]|e] st']; simpl in *.
  - split; [apply finish_inv; congruence|]. intros r [= <-]. auto.
  - split; [|done]. apply stay_inv; simpl; congruence.
Qed.

Lemma core_same st st' :
  orphans st' = orphans st → retired st' = retired st → sender st' = sender st →
  cleanup st' = cleanup st → core st → core st'.
Proof. intros Ho Hr Hs Hc []. split; by rewrite ?Ho, ?Hr, ?Hs, ?Hc. Qed.
Lemma core_unlock h st : core st → core (unlock h st).
Proof. unfold unlock. destruct (holds_lock h); [by apply core_same|done]. Qed.
Lemma locked_unlock h st : locked st = holds_lock h → locked (unlock h st) = false.
Proof. unfold unlock. by destruct (holds_lock h). Qed.

Lemma cancel_inv h st : playback_inv st → gate st = Some h → playback_inv (cancel h st).
Proof.
  intros Hst Hg. pose proof Hst as [Hc Hl _ _ _]. rewrite Hg in Hl.
  apply locked_unlock in Hl. pose proof (core_unlock h st Hc).
  destruct h; simpl; try done; (apply stay_inv; [done|done|by rewrite Hl|done]).
Qed.
Lemma interrupt_inv e h st : playback_inv st → gate st = Some h → playback_inv (interrupt e h st).
Proof.
  intros Hst Hg. pose proof Hst as [Hc Hl _ _ _]. rewrite Hg in Hl.
  apply locked_unlock in Hl. pose proof (core_unlock h st Hc).
  destruct h; simpl; try done; (apply stay_inv; [done|done|by rewrite Hl|done]).
Qed.
Lemma cleanup_step_inv f st :
  (∀ c, cleanup_ok c → cleanup_ok (f c)) → playback_inv st →
  playback_inv (with_cleanup (f <$> cleanup st) st).
Proof.
  intros Hf [[] Hl Ha Hfree Hi]. split; [split|..]; simpl; try done.
  - destruct co_exclusive0 as [->| ->]; [by left|by right].
  - intros c Hc. destruct (cleanup st) as [c0|]; simplify_eq/=. auto.
  - intros Hg. by rewrite Hfree.
  - intros h Hg Hh. by destruct (Hi h Hg Hh) as [-> ->].
Qed.
Lemma session_step_inv o st : playback_inv st → playback_inv (session_step o st).
Proof.
  intros Hst. destruct o as [q|v| |e|o|null_set|o]; simpl.
  - pose proof Hst as [Hc Hl _ _ _]. destruct (gate st); [done|]. destruct q; apply stay_inv; simpl; congruence.
  - destruct (gate st) as [h|] eqn:Hg; [|done]. by apply holder_poll_spec.
  - destruct (gate st) as [h|] eqn:Hg; [|done]. by apply cancel_inv.
  - destruct (gate st) as [h|] eqn:Hg; [|done]. by apply interrupt_inv.
  - pose proof Hst as [[] Hl Ha Hfree Hi]. split; [split|..]; simpl; try done.
    + destruct co_exclusive0 as [->| ->]; [by left|by right].
    + intros s Hs. destruct (sender st) as [s0|]; simplify_eq/=. rewrite native_shutdown_thread. auto.
    + intros Hk. by rewrite Ha.
    + intros h Hg Hh. by destruct (Hi h Hg Hh) as [-> ->].
  - apply cleanup_step_inv; [by apply cleanup_poll_ok|done].
  - apply cleanup_step_inv; [by apply cleanup_thread_ok|done].
Qed.
Lemma default_playback_inv : playback_inv default_playback.
Proof. split; [split|..]; simpl; auto; done. Qed.
Lemma session_run_inv l st : playback_inv st → playback_inv (session_run l st).
Proof. revert st. induction l as [|o l IH]; intros st Hst; [done|]. by apply IH, session_step_inv. Qed.

(** C8: of all the senders a session ever made, under any interleaving of operations,
    cancellations, interrupted attempts and worker threads, at most one has a
    worker that still runs: a new pipeline is only started when both workers of
    the one before have ended, and none is ever dropped unobserved. *)
Theorem one_pipeline l :
  let st := session_run l default_playback in
  len (filter (λ s, alive s = true) (all_senders st)) ≤ 1 ∧ orphans st = [].
Proof.
  cbv zeta. destruct (session_run_inv l _ default_playback_inv) as [[Ho Hr He _ _] _ _ _ _].
  split; [|done]. unfold all_senders. rewrite Ho, !filter_app. simpl.
  assert (filter (λ s, alive s = true) (retired (session_run l default_playback)) = []) as ->.
  { induction Hr as [|s r Hs _ IH]; [done|]. rewrite filter_cons_False; [done|congruence]. }
  rewrite app_nil_r, len_app. destruct He as [-> | ->]; simpl;
    [destruct (cleanup _) as [c|]|destruct (sender _) as [s|]]; simpl; try done;
    unfold filter; simpl; case_decide; simpl; done.
Qed.

(** When an operation returns, the gate is free and nothing of its predecessors is
    left: no cleanup is pending, and unless it is a [play_audio] that succeeded
    there is no sender and no worker of any sender runs; that holds for results
    that are errors too. *)
Theorem returned_operation_is_clean l v h r :
  let st := session_run l default_playback in
  gate st = Some h → (holder_poll v h st).1 = Some r →
  let st' := session_step (Poll v) st in
  gate st' = None ∧ cleanup st' = None ∧
  ((h = PlayLock ∧ r = Ok ()) ∨ Forall (λ s, alive s = false) (all_senders st')).
Proof.
  cbv zeta. intros Hg Hr.
  pose proof (session_run_inv l _ default_playback_inv) as Hinv.
  destruct (holder_poll_spec v h _ Hinv Hg) as [Hinv' Hres].
  destruct (Hres r Hr) as (Hgate & Hcl & Hs). simpl. rewrite Hg.
  split_and!; [done|done|]. destruct Hs as [Hs|Hs]; [|by left]. right.
  destruct Hinv' as [[Ho Hret _ _ _] _ _ _ _]. unfold all_senders. by rewrite Hs, Hcl, Ho.
Qed.

(** The steps that end a cleanup: the task that holds the gate, the shutdown task
    and the two workers each get to run. *)
Definition cleanup_steps (m : option bus_message) (now : Z) (null_set : bool) : list session_op :=
  CleanupPoll null_set :: CleanupThread (BusPoll m) :: CleanupThread (RtpPoll now None) ::
  replicate 3 (CleanupPoll null_set).
Definition release (v : view) (m : option bus_message) (now : Z) (null_set : bool) : list session_op :=
  [Poll v] ++ cleanup_steps m now null_set ++ [Poll v; Poll v].

Lemma session_run_app l k st : session_run (l ++ k) st = session_run k (session_run l st).
Proof. apply foldl_app. Qed.

(** They finish the shutdown task, and touch nothing but it. *)
Lemma cleanup_steps_spec m now null_set st :
  (∀ c, cleanup st = Some c → cleanup_ok c) →
  ∃ c', session_run (cleanup_steps m now null_set) st = with_cleanup c' st ∧
    match c' with Some (Running (Finished _) _) => True | None => cleanup st = None | _ => False end.
Proof.
  intros Hok. destruct (cleanup st) as [c|] eqn:Hc; [|exists None; unfold session_run; simpl; by rewrite Hc].
  specialize (Hok c eq_refl). apply (cleanup_poll_ok null_set) in Hok.
  assert (∃ pc s, cleanup_poll null_set c = Running pc s) as (pc & s & Hp).
  { destruct c as [s|pc s]; simpl; case_match; eauto. }
  rewrite Hp in Hok. apply (shutting_settles m now None null_set) in Hok.
  exists (Some (Running (shutdown_run (settle m now None null_set) (pc, s)).1
                        (shutdown_run (settle m now None null_set) (pc, s)).2)).
  split; [|by destruct ((shutdown_run _ _).1)].
  unfold session_run, cleanup_steps, replicate. simpl. rewrite Hc. simpl. rewrite Hp. simpl.
  unfold shutdown_run, settle, replicate. simpl.
  by repeat (case_match; simpl).
Qed.

(** The last two polls, once the cleanup task (if any) has finished. *)
Definition releasing st : Prop :=
  match gate st with
  | None | Some DropRest => True
  | Some (DropStop AwaitCleanup _) =>
      match cleanup st with None | Some (Running (Finished _) _) => True | _ => False end
  | _ => False
  end.
Lemma last_polls v r st :
  attempt v = Some r → releasing st → sender st = None →
  gate (session_run [Poll v; Poll v] st) = None ∧ sender (session_run [Poll v; Poll v] st) = None.
Proof.
  intros Hv Hr Hs. unfold releasing, session_run in *. simpl.
  destruct (gate st) as [[| | | | | | | | | | |[|] b|]|] eqn:Hg; try done; simpl.
  - unfold await_cleanup.
    destruct (cleanup st) as [[s|[| | |r'] s]|] eqn:Hc; try done; simpl;
      destruct b; simpl; by rewrite ?Hv.
  - by rewrite Hv.
  - by rewrite Hg.
Qed.

(** The first: it leaves the gate to be released as soon as the cleanup is over. *)
Lemma first_poll v r st :
  attempt v = Some r → playback_inv st →
  (∃ p b, gate st = Some (DropStop p b)) ∨ gate st = Some DropRest →
  let st' := session_step (Poll v) st in
  playback_inv st' ∧ sender st' = None ∧
  ((∃ b, gate st' = Some (DropStop AwaitCleanup b)) ∨ gate st' = Some DropRest ∨ gate st' = None).
Proof.
  intros Hv Hst Hg. cbv zeta. split; [by apply session_step_inv|].
  pose proof Hst as [Hcore Hl Ha _ Hi]. destruct Hg as [(p & b & Hg)|Hg]; simpl; rewrite Hg in *; simpl.
  - pose proof (stop_audio_sender_spec p st Hcore ltac:(by destruct p) Ha) as Hs.
    destruct (stop_audio_sender p st) as [[r'|p'] st']; destruct_and!; subst; simpl; [|by eauto].
    destruct b; simpl; auto.
  - rewrite Hv. simpl. split; [|by auto]. by destruct (Hi _ eq_refl eq_refl).
Qed.

(** C36: a cancelled operation hands the gate to a cleanup task, and that gives it back:
    from every reachable state, once the tasks involved have run, the gate is free,
    no cleanup is pending, and no worker of any sender of the session runs. *)
Theorem gate_is_released l v m now null_set r :
  attempt v = Some r → gate (session_run l default_playback) ≠ None →
  let st := session_run (l ++ [Cancel] ++ release v m now null_set) default_playback in
  gate st = None ∧ cleanup st = None ∧ Forall (λ s, alive s = false) (all_senders st).
Proof.
  intros Hv Hne. cbv zeta.
  pose proof (session_run_inv (l ++ [Cancel] ++ release v m now null_set) _ default_playback_inv) as Hend.
  rewrite !session_run_app in Hend |- *.
  set (st1 := session_run [Cancel] (session_run l default_playback)) in *.
  assert (playback_inv st1) as Hst1 by apply session_run_inv, session_run_inv, default_playback_inv.
  assert ((∃ p b, gate st1 = Some (DropStop p b)) ∨ gate st1 = Some DropRest) as Hg1.
  { subst st1. unfold session_run at 1 3. simpl.
    destruct (gate (session_run l default_playback)) as [[]|] eqn:Hg; simpl; eauto; done. }
  clearbody st1. unfold release in *. rewrite !session_run_app in Hend |- *.
  destruct (first_poll v r st1 Hv Hst1 Hg1) as (Hst2 & Hs2 & Hg2).
  change (session_run [Poll v] st1) with (session_step (Poll v) st1) in *.
  set (st2 := session_step (Poll v) st1) in *. clearbody st2.
  destruct (cleanup_steps_spec m now null_set st2) as (c' & Heq & Hc'); [apply Hst2|].
  rewrite Heq in Hend |- *.
  destruct (last_polls v r (with_cleanup c' st2)) as [Hg3 Hs3]; [done| |done|].
  { unfold releasing. simpl. destruct Hg2 as [[b ->]|[->| ->]]; [|done|done].
    by destruct c' as [[|[]]|]. }
  destruct Hend as [[Ho Hr _ _ _] _ _ Hfree _].
  specialize (Hfree Hg3). split_and!; [done|done|]. unfold all_senders. by rewrite Ho, Hs3, Hfree.
Qed.
End playback.

(** ** An execution: a sender plays, a second [play_audio] is cancelled while it
    waits for the first one's cleanup. *)
#[local] Instance demo_rtp : RtpLib := {|
  RtpPacket := bytes;
  rtp_unmarshal d := if len d <? 4 then None else Some d;
  rtp_timestamp p := from_le_bytes (take 4 p);
|}.
Definition demo_view : view :=
  {| connected := true; audio_track := Some true; built := Ok true; early := []; late := [];
     playing := true; attempt := Some (Ok ()) |}.
Definition demo_session : list session_op :=
  [Begin PlayAudio; Poll demo_view; Poll demo_view; Poll demo_view;
   Begin PlayAudio; Poll demo_view; CleanupPoll true].

Example demo_holder :
  (gate (session_run (take 4 demo_session) (default_playback (C:=vec_chan))),
   len (all_senders (session_run (take 4 demo_session) (default_playback (C:=vec_chan)))),
   gate (session_run demo_session (default_playback (C:=vec_chan))))
  = (None, 1, Some (PlayStop AwaitCleanup)).
Proof. by vm_compute. Qed.

Lemma gate_is_released_witness :
  gate (session_run demo_session (default_playback (C:=vec_chan))) ≠ None ∧
  gate (session_run (demo_session ++ [Cancel] ++ release demo_view None 0 true)
          (default_playback (C:=vec_chan))) = None.
Proof.
  split; [by vm_compute|].
  apply (gate_is_released demo_session demo_view None 0 true (Ok ())); [done|by vm_compute].
Defined.

Lemma returned_operation_is_clean_witness :
  gate (session_run (take 3 demo_session) (default_playback (C:=vec_chan))) = Some PlayLock ∧
  gate (session_step (Poll demo_view) (session_run (take 3 demo_session) (default_playback (C:=vec_chan)))) = None.
Proof.
  split; [by vm_compute|].
  eapply (returned_operation_is_clean (take 3 demo_session) demo_view PlayLock (Ok ())); by vm_compute.
Defined.
