(* ===== verification/Callbacks.v ===== *)
(** * Python callbacks (src/src/interface/callbacks.rs, bridges/pubsub.rs)

    The registry of callbacks and the operations Python has on it, and the thread
    that takes events from the channel of [Events], converts them and invokes the
    registered callback.  Python itself is external: objects are names, and what
    attaching and calling return are arguments of the steps.  Every step of the
    dispatcher is the code between two points where another thread can
    intervene.  The theorems: no callback is invoked once it was removed or for a
    generation that has ended, the dispatcher owns one delivery at a time, and
    events as their producers shape them never fail to convert. *)
From S2P Require Import Prelude Floats Json Channel Events Diagnostics PyJson Video.
#[local] Open Scope Z_scope.

(** ** The registry *)
Abbreviation py_callback := nat (only parsing).
Record RegisteredCallback := { id : Z; callback : py_callback }.
Abbreviation CallbackRegistry := (gmap string RegisteredCallback).

(** The registry with [NEXT_ID], the process-wide counter. *)
Record Callbacks := { registry : CallbackRegistry; next_id : Z }.
Definition new_callbacks : Callbacks := {| registry := ∅; next_id := 1 |}.
(** [registry.insert(key, callback.into())]. *)
Definition register (key : string) (c : py_callback) (r : Callbacks) : Callbacks :=
  {| registry := <[key := {| id := next_id r; callback := c |}]> (registry r);
     next_id := wrapping_add 64 (next_id r) 1 |}.
Definition remove (key : string) (r : Callbacks) : Callbacks :=
  {| registry := delete key (registry r); next_id := next_id r |}.
Definition clear_callback_registry (r : Callbacks) : Callbacks :=
  {| registry := ∅; next_id := next_id r |}.

(** [callable] is [is_callable]. *)
Definition ensure_callable (callable : py_callback → bool) (c : py_callback) : result PyErr () :=
  if callable c then Ok () else Err (PyTypeError "callback must be callable").

(** ** Converting events *)

(** A NumPy array: [PyArray1::from_vec] and [reshape], which fails exactly when the
    new shape has another number of elements. *)
Record ndarray (A : Type) := { shape : list Z; elements : list A }.
Arguments shape {A}. Arguments elements {A}.
Definition zprod (l : list Z) : Z := foldr Z.mul 1 l.
Definition reshape {A} (data : list A) (dims : list Z) : result PyErr (ndarray A) :=
  if zprod dims =? len data then Ok {| shape := dims; elements := data |}
  else Err (PyValueError "cannot reshape array").

(** The items of a LiDAR message. *)
Inductive item :=
  | PyItemFloat (x : f64)
  | PyItemStr (s : string)
  | PyItemInt (n : Z)
  | PyItemFloats (l : list f64)
  | PyItemPoints (a : ndarray f32)
  | PyItemDict (d : list (string * item)).
Abbreviation Dict := (list (string * item)).
Fixpoint set_item (key : string) (x : item) (d : Dict) : Dict :=
  match d with
  | [] => [(key, x)]
  | (k, y) :: d => if seqb k key then (k, x) :: d else (k, y) :: set_item key x d
  end.
(** [if let Some(x) = value { d.set_item(key, x)?; }]. *)
Definition set_some {A} (f : A → item) (key : string) (value : option A) (d : Dict) : Dict :=
  match value with Some x => set_item key (f x) d | None => d end.

(** What a callback is called with. *)
Inductive Argument :=
  | PyJsonObject (object : nat * Store)
  | PyLidar (message : Dict)
  | PyFrame (frame : ndarray Z)
  | PySamples (samples : list Z).

Definition lidar_data (data_obj : list (string * value)) (reshaped : ndarray f32) : Dict :=
  let field {A} (as_ : value → option A) key : option A := BTree.get key data_obj ≫= as_ in
  let data_dict := [] in
  let data_dict := set_some PyItemFloat "stamp" (field as_f64 "stamp") data_dict in
  let data_dict := set_some PyItemStr "frame_id" (field as_str "frame_id") data_dict in
  let data_dict := set_some PyItemFloat "resolution" (field as_f64 "resolution") data_dict in
  let data_dict := set_some PyItemInt "src_size" (field as_u64 "src_size") data_dict in
  let data_dict := set_some PyItemInt "width" (field as_u64 "width") data_dict in
  let data_dict := set_some (λ origin : list value, PyItemFloats (omap as_f64 origin)) "origin"
                     (field as_array "origin") data_dict in
  set_item "data" (PyItemDict [("points", PyItemPoints reshaped)]) data_dict.
Definition lidar_message (topic : string) (payload : value) (reshaped : ndarray f32) : Dict :=
  let message := set_item "topic" (PyItemStr topic) [] in
  let message :=
    match get payload "data" ≫= as_object with
    | Some data_obj => set_item "data" (PyItemDict (lidar_data data_obj reshaped)) message
    | None => message
    end in
  set_some PyItemStr "type" (get payload "type" ≫= as_str) message.

(** The key, the kind and the conversion of an event ([dispatch_event_checked]);
    [None]: the event is ignored. *)
Definition dispatch_target (event : CallbackEvent) : option (string * string) :=
  match event with
  | TopicCallback topic _ => Some (topic, "topic")
  | LidarCallback topic _ _ => Some (topic, "lidar")
  | VideoFrame _ _ _ => Some ("video", "video")
  | AudioFrame _ _ _ => Some ("audio", "audio")
  | FutureResolve _ _ => None
  end.
Definition argument (event : CallbackEvent) : result PyErr Argument :=
  match event with
  | TopicCallback _ payload => Ok (PyJsonObject (json_value_to_py payload []))
  | LidarCallback topic payload points =>
      let point_count := len points / 3 in
      reshaped ← reshape points [point_count; 3];
      Ok (PyLidar (lidar_message topic payload reshaped))
  | VideoFrame data width height =>
      frame ← reshape data [height; width; 3];
      Ok (PyFrame frame)
  | AudioFrame data _ _ => Ok (PySamples data)
  | FutureResolve _ _ => Err (PyRuntimeError "unreachable")
  end.

(** ** Diagnostics *)

(** The exception types the code tells apart. *)
Inductive exception_type :=
  | ValueErrorT | TypeErrorT | RuntimeErrorT | KeyErrorT | IndexErrorT | MemoryErrorT
  | OverflowErrorT | OSErrorT | OtherT.
#[export] Instance exception_type_eq_dec : EqDecision exception_type.
Proof. solve_decision. Defined.
Definition type_of (e : PyErr) : exception_type :=
  match e with
  | PyValueError _ => ValueErrorT
  | PyTypeError _ => TypeErrorT
  | PyRuntimeError _ => RuntimeErrorT
  | PyOverflowError => OverflowErrorT
  | PyNotImplementedError _ | PyUnicodeError => OtherT
  end.
Definition ERROR_CLASSES : list string :=
  ["ValueError"; "TypeError"; "RuntimeError"; "KeyError"; "IndexError"; "MemoryError";
   "OverflowError"; "OSError"; "unknown_exception"].
(** [iter().position]. *)
Fixpoint position {A} (p : A → bool) (l : list A) : option nat :=
  match l with
  | [] => None
  | x :: l => if p x then Some 0%nat else S <$> position p l
  end.
(** Exact types only: a subclass is unknown. *)
Definition safe_exception_class (actual : exception_type) : string :=
  let known := [ValueErrorT; TypeErrorT; RuntimeErrorT; KeyErrorT; IndexErrorT; MemoryErrorT;
                OverflowErrorT; OSErrorT] in
  match position (λ expected, bool_decide (actual = expected)) known with
  | Some i => ERROR_CLASSES !!! i
  | None => "unknown_exception"
  end.

Record CallbackDiagnostics := {
  conversion : list RepeatState;
  invocation : list RepeatState;
  attachment : RepeatState;
  dg_generation : Z;
}.
Definition new_diagnostics : CallbackDiagnostics :=
  {| conversion := replicate 9 repeat_default; invocation := replicate 9 repeat_default;
     attachment := repeat_default; dg_generation := 0 |}.
Definition reset_diagnostics (generation : Z) (d : CallbackDiagnostics) : CallbackDiagnostics :=
  {| conversion := (λ c, (reset c).2) <$> conversion d;
     invocation := (λ c, (reset c).2) <$> invocation d;
     attachment := (reset (attachment d)).2; dg_generation := generation |}.
(** [None]: the class has no counter, and the [unwrap] would panic. *)
Definition report (now : Z) (error : exception_type) (stage : string) (d : CallbackDiagnostics) :
    option CallbackDiagnostics :=
  let class := safe_exception_class error in
  index ← position (λ value, seqb value class) ERROR_CLASSES;
  let count := alter (λ c, (record_at now c).2) index in
  Some (if seqb stage "conversion"
        then {| conversion := count (conversion d); invocation := invocation d;
                attachment := attachment d; dg_generation := dg_generation d |}
        else {| conversion := conversion d; invocation := count (invocation d);
                attachment := attachment d; dg_generation := dg_generation d |}).
Definition attachment_failed (now : Z) (d : CallbackDiagnostics) : CallbackDiagnostics :=
  {| conversion := conversion d; invocation := invocation d;
     attachment := (record_at now (attachment d)).2; dg_generation := dg_generation d |}.

(** Every exception has its counter. *)
Lemma report_total now error stage d : is_Some (report now error stage d).
Proof. destruct error; unfold report; eauto. Qed.

(** ** The dispatcher *)

(** Where [dispatch_callback] is between its points of interleaving. *)
Inductive dispatch_pc :=
  | Idle
  | Attaching (event : CallbackEvent) (key kind : string)
  | LookingUp (event : CallbackEvent) (key kind : string)
  | Converting (event : CallbackEvent) (key kind : string) (target : RegisteredCallback)
  | Admitting (key kind : string) (target : RegisteredCallback) (arg : Argument)
  | Calling (key kind : string) (target : RegisteredCallback) (arg : Argument)
  | Stopped.
(** A callback invoked: under which key, with what, for an event of which
    generation. *)
Record call := {
  c_key : string; c_target : RegisteredCallback; c_argument : Argument; c_generation : Z }.

Section dispatcher.
Context {C : Type → Type} `{Chan C} `{Layout}.

(** The channel, the registry, the delivery in hand with the generation last seen,
    and the calls made, latest first. *)
Record Dispatcher := {
  events : Events C;
  callbacks : Callbacks;
  failures : CallbackDiagnostics;
  generation : option Z;
  delivery_generation : Z;
  pc : dispatch_pc;
  calls : list call;
}.
Implicit Types (d : Dispatcher).

Definition with_events (ch : Events C) d : Dispatcher :=
  {| events := ch; callbacks := callbacks d; failures := failures d; generation := generation d;
     delivery_generation := delivery_generation d; pc := pc d; calls := calls d |}.
Definition with_callbacks (r : Callbacks) d : Dispatcher :=
  {| events := events d; callbacks := r; failures := failures d; generation := generation d;
     delivery_generation := delivery_generation d; pc := pc d; calls := calls d |}.
Definition with_failures (f : CallbackDiagnostics) d : Dispatcher :=
  {| events := events d; callbacks := callbacks d; failures := f; generation := generation d;
     delivery_generation := delivery_generation d; pc := pc d; calls := calls d |}.
Definition at_pc (p : dispatch_pc) d : Dispatcher :=
  {| events := events d; callbacks := callbacks d; failures := failures d; generation := generation d;
     delivery_generation := delivery_generation d; pc := p; calls := calls d |}.
Definition new_generation (g : Z) d : Dispatcher :=
  {| events := events d; callbacks := callbacks d; failures := failures d; generation := Some g;
     delivery_generation := g; pc := pc d; calls := calls d |}.
Definition called (c : call) d : Dispatcher :=
  {| events := events d; callbacks := callbacks d; failures := failures d; generation := generation d;
     delivery_generation := delivery_generation d; pc := pc d; calls := c :: calls d |}.

Definition new_dispatcher (ch : Events C) (r : Callbacks) : Dispatcher :=
  {| events := ch; callbacks := r; failures := new_diagnostics; generation := None;
     delivery_generation := 0; pc := Idle; calls := [] |}.

(** The delivery goes out of scope: its permit is released. *)
Definition done_delivery d : Dispatcher := at_pc Idle (with_events (drop_owned 0 (events d)) d).

(** [recv_delivery] returns, the diagnostics follow the generation, the event is
    taken ([dispatch_delivery]) and dispatched on. *)
Definition receive d : Dispatcher :=
  match try_delivery (events d) with
  | (Ok delivery, ch) =>
      let g := d_generation delivery in
      let d := with_events ch d in
      let d := if bool_decide (generation d = Some g) then d
               else with_failures (reset_diagnostics g (failures d)) d in
      let d := new_generation g d in
      let '(event, ch) := take_event 0 (events d) in
      let d := with_events ch d in
      match event ≫= λ event, pair event <$> dispatch_target event with
      | Some (event, (key, kind)) => at_pc (Attaching event key kind) d
      | None => done_delivery d
      end
  | (Err Empty, ch) => with_events ch d
  | (Err RecvDisconnected, ch) => at_pc Stopped (with_events (drop_receiver ch) d)
  end.

Definition is_current_delivery d : bool := current (events d) =? delivery_generation d.
Definition fail (now : Z) (error : exception_type) (stage : string) d : Dispatcher :=
  match report now error stage (failures d) with
  | Some f => with_failures f d
  | None => d
  end.

(** The next step of the dispatcher's thread; [attached]: the interpreter is there;
    [raised]: what the invoked callback raised. *)
Definition dispatch_step (now : Z) (attached : bool) (raised : option exception_type) d : Dispatcher :=
  match pc d with
  | Idle => receive d
  | Attaching event key kind =>
      if negb attached then done_delivery (with_failures (attachment_failed now (failures d)) d) else
      if negb (is_current_delivery d) then done_delivery d else at_pc (LookingUp event key kind) d
  | LookingUp event key kind =>
      match registry (callbacks d) !! key with
      | Some target => at_pc (Converting event key kind target) d
      | None => done_delivery d
      end
  | Converting event key kind target =>
      match argument event with
      | Ok arg => at_pc (Admitting key kind target arg) d
      | Err error => done_delivery (fail now (type_of error) "conversion" d)
      end
  | Admitting key kind target arg =>
      if negb (is_current_delivery d) then done_delivery d else
      at_pc (Calling key kind target arg)
        (called {| c_key := key; c_target := target; c_argument := arg;
                   c_generation := delivery_generation d |} d)
  | Calling key kind target arg =>
      done_delivery (match raised with Some error => fail now error "invocation" d | None => d end)
  | Stopped => d
  end.

(** Everything that happens: the dispatcher moves, Python changes the registry (also
    from finalizers and from running callbacks), and the other threads send events
    or begin a generation. *)
Inductive dispatcher_op :=
  | Dispatch (now : Z) (attached : bool) (raised : option exception_type)
  | Register (key : string) (c : py_callback)
  | Remove (key : string)
  | ClearCallbacks
  | Send (s : EventSender) (seen : Z) (event : CallbackEvent)
  | NewGeneration (g : Z).
Definition dispatcher_step (o : dispatcher_op) d : Dispatcher :=
  match o with
  | Dispatch now attached raised => dispatch_step now attached raised d
  | Register key c => with_callbacks (register key c (callbacks d)) d
  | Remove key => with_callbacks (remove key (callbacks d)) d
  | ClearCallbacks => with_callbacks (clear_callback_registry (callbacks d)) d
  | Send s seen event => with_events (try_send s seen event (events d)).2 d
  | NewGeneration g => with_events (set_generation g (events d)) d
  end.
Definition dispatcher_run (l : list dispatcher_op) d : Dispatcher :=
  foldl (λ d o, dispatcher_step o d) d l.

(** ** The invariant, for any property [Q] of the events (and generations) sent *)
Section invariant.
Variable Q : CallbackEvent → Z → Prop.
Definition delivery_ok (x : EventDelivery) : Prop :=
  match d_event x with Some event => Q event (d_generation x) | None => True end.
Definition argument_ok (key : string) (arg : Argument) (g : Z) : Prop :=
  ∃ event kind, Q event g ∧ dispatch_target event = Some (key, kind) ∧ argument event = Ok arg.
Definition pc_ok (p : dispatch_pc) (g : Z) : Prop :=
  match p with
  | Attaching event key kind | LookingUp event key kind | Converting event key kind _ =>
      Q event g ∧ dispatch_target event = Some (key, kind)
  | Admitting key _ _ arg | Calling key _ _ arg => argument_ok key arg g
  | Idle | Stopped => True
  end.
Definition waiting (p : dispatch_pc) : bool :=
  match p with Idle | Stopped => true | _ => false end.

Record disp_inv d : Prop := {
  di_events : events_inv (events d);
  di_owned : if waiting (pc d) then owned (events d) = []
             else ∃ x, owned (events d) = [x] ∧ d_generation x = delivery_generation d;
  di_live : Forall delivery_ok (live (events d));
  di_pc : pc_ok (pc d) (delivery_generation d);
  di_calls : Forall (λ c, argument_ok (c_key c) (c_argument c) (c_generation c)) (calls d);
}.

Lemma ev_step_ok o ch :
  events_inv ch → (∀ s seen event, o = TrySend s seen event → Q event (s_generation s)) →
  Forall delivery_ok (live ch) → Forall delivery_ok (live (ev_step o ch)).
Proof.
  intros Hi Ho Hl. rewrite Forall_forall in Hl |- *. intros x Hx.
  apply ev_step_live in Hx as [Hx|[Hx|(s & seen & event & -> & ->)]]; [auto| |by eapply Ho|done].
  unfold delivery_ok. by rewrite Hx.
Qed.

(** Work that leaves the channel alone. *)
Lemma disp_inv_move d d' :
  disp_inv d → events d' = events d → delivery_generation d' = delivery_generation d →
  waiting (pc d') = waiting (pc d) → pc_ok (pc d') (delivery_generation d') →
  Forall (λ c, argument_ok (c_key c) (c_argument c) (c_generation c)) (calls d') → disp_inv d'.
Proof. intros [] He Hg Hw Hp Hc. split; rewrite ?He, ?Hg, ?Hw; try done. by rewrite <- Hg. Qed.

Lemma fail_same now error stage d :
  events (fail now error stage d) = events d ∧ pc (fail now error stage d) = pc d ∧
  delivery_generation (fail now error stage d) = delivery_generation d ∧
  calls (fail now error stage d) = calls d ∧ callbacks (fail now error stage d) = callbacks d.
Proof. unfold fail. by destruct (report _ _ _ _). Qed.

Lemma done_inv d x :
  events_inv (events d) → owned (events d) = [x] → Forall delivery_ok (live (events d)) →
  Forall (λ c, argument_ok (c_key c) (c_argument c) (c_generation c)) (calls d) →
  disp_inv (done_delivery d).
Proof.
  intros Hi Ho Hl Hc.
  split; [by apply (ev_step_inv (DropOwned 0))| |by apply (ev_step_ok (DropOwned 0))|done|done].
  simpl. unfold drop_owned. by rewrite Ho.
Qed.
Lemma done_delivery_inv d d' :
  disp_inv d → waiting (pc d) = false → events d' = events d → calls d' = calls d →
  disp_inv (done_delivery d').
Proof.
  intros [Hi Ho Hl _ Hc] Hw He Hcs. rewrite Hw in Ho. destruct Ho as (x & Ho & _).
  by apply (done_inv _ x); rewrite ?He, ?Hcs.
Qed.

Lemma receive_inv d : disp_inv d → pc d = Idle → disp_inv (receive d).
Proof.
  intros Hd Hpc. pose proof Hd as [Hi Ho Hl _ Hc]. rewrite Hpc in Ho. simpl in Ho.
  pose proof (ev_step_ok TryDelivery _ Hi ltac:(done) Hl) as Hl'. simpl in Hl'.
  pose proof (try_delivery_loop_spec (S (length (queued (events d)))) _ Hi ltac:(lia)) as Hr.
  fold (try_delivery (events d)) in Hr. unfold receive.
  destruct (try_delivery (events d)) as [[delivery|e] ch] eqn:Htry; destruct Hr as (Hi' & _ & Hr); simpl in *.
  - destruct Hr as (stale & _ & How & _). rewrite Ho in How.
    unfold take_event. simpl.
    set (d1 := if bool_decide _ then _ else _).
    assert (events d1 = ch ∧ calls d1 = calls d) as [He1 Hc1] by (subst d1; by case_bool_decide).
    rewrite He1, How. simpl.
    set (x := {| d_event := None; d_generation := _; d_class := _; d_bytes := _ |}).
    set (ch' := with_owned ch [x]).
    assert (ch' = ev_step (TakeEvent 0) ch) as Hch'.
    { simpl. unfold take_event. by rewrite How. }
    assert (events_inv ch' ∧ Forall delivery_ok (live ch')) as [Hi2 Hl2].
    { rewrite Hch'. split; [by apply ev_step_inv|by apply ev_step_ok]. }
    assert (delivery_ok delivery) as Hdel.
    { rewrite Forall_forall in Hl'. apply Hl'. unfold live. rewrite How. set_solver. }
    unfold delivery_ok in Hdel.
    destruct (d_event delivery) as [event|]; simpl; [destruct (dispatch_target event) as [[key kind]|] eqn:Ht; simpl|].
    + split; simpl; rewrite ?Hc1; try done. by exists x.
    + by apply (done_inv _ x); simpl; rewrite ?Hc1.
    + by apply (done_inv _ x); simpl; rewrite ?Hc1.
  - destruct Hr as (_ & How & _). destruct e.
    + by split; simpl; rewrite ?Hpc, ?How, ?Ho.
    + pose proof (drop_receiver_spec ch Hi') as (? & _ & Hlive & Hown).
      split; cbn [events pc delivery_generation calls at_pc with_events waiting]; try done;
        rewrite ?Hlive, ?Hown, How, Ho; constructor.
Qed.

Lemma dispatch_step_inv now attached raised d :
  disp_inv d → disp_inv (dispatch_step now attached raised d).
Proof.
  intros Hd. pose proof Hd as [_ _ _ Hp Hc]. unfold dispatch_step.
  destruct (pc d) as [|event key kind|event key kind|event key kind target|key kind target arg
    |key kind target arg|] eqn:Hpc; simpl in Hp; [by apply receive_inv|..|done].
  - destruct attached; simpl; [|by apply (done_delivery_inv d); [|rewrite Hpc|..]].
    destruct (is_current_delivery d); simpl; [|by apply (done_delivery_inv d); [|rewrite Hpc|..]].
    by apply (disp_inv_move d); simpl; rewrite ?Hpc.
  - destruct (registry (callbacks d) !! key) as [target|]; [|by apply (done_delivery_inv d); [|rewrite Hpc|..]].
    by apply (disp_inv_move d); simpl; rewrite ?Hpc.
  - destruct (argument event) as [arg|error] eqn:Harg.
    + apply (disp_inv_move d); simpl; rewrite ?Hpc; try done. exists event, kind. by destruct Hp.
    + destruct (fail_same now (type_of error) "conversion" d) as (? & _ & _ & ? & _).
      apply (done_delivery_inv d); by rewrite ?Hpc.
  - destruct (is_current_delivery d); simpl; [|by apply (done_delivery_inv d); [|rewrite Hpc|..]].
    apply (disp_inv_move d); simpl; rewrite ?Hpc; try done. by constructor.
  - destruct raised as [error|]; [|by apply (done_delivery_inv d); [|rewrite Hpc|..]].
    destruct (fail_same now error "invocation" d) as (? & _ & _ & ? & _).
    apply (done_delivery_inv d); by rewrite ?Hpc.
Qed.

Definition op_ok (o : dispatcher_op) : Prop :=
  match o with Send s _ event => Q event (s_generation s) | _ => True end.
Lemma dispatcher_step_inv o d : op_ok o → disp_inv d → disp_inv (dispatcher_step o d).
Proof.
  intros Hop Hd. destruct o as [now attached raised|key c|key| |s seen event|g]; simpl;
    [by apply dispatch_step_inv|by apply (disp_inv_move d); try apply Hd..| |].
  - destruct Hd as [Hi Ho Hl Hp Hc]. split; simpl; try done.
    + by apply (ev_step_inv (TrySend s seen event)).
    + destruct (try_send_refines s seen event (events d) Hi) as [_ Hs].
      destruct (try_send_spec s seen event (events d)); [|by rewrite Hs].
      by destruct Hs as (_ & _ & _ & _ & ->).
    + apply (ev_step_ok (TrySend s seen event)); [done| |done]. by intros ? ? ? [= <- <- <-].
  - destruct Hd as [Hi Ho Hl Hp Hc]. split; simpl; try done. by apply set_generation_inv.
Qed.
Lemma dispatcher_run_inv l d : Forall op_ok l → disp_inv d → disp_inv (dispatcher_run l d).
Proof.
  intros Hl. revert d. induction Hl as [|o l Ho _ IH]; intros d Hd; [done|].
  by apply IH, dispatcher_step_inv.
Qed.
Lemma new_dispatcher_inv ch r : events_inv ch → live ch = [] → disp_inv (new_dispatcher ch r).
Proof.
  intros Hi Hl. split; simpl; try done; [|by rewrite Hl].
  apply app_eq_nil in Hl as [_ Ho]. done.
Qed.
End invariant.

(** ** Theorems *)

Lemma reachable_inv capacity s ch r l :
  event_channel capacity = Ok (s, ch) → disp_inv (λ _ _, True) (dispatcher_run l (new_dispatcher ch r)).
Proof.
  intros Hch. apply event_channel_inv in Hch as (Hi & _ & _ & Hl).
  apply dispatcher_run_inv; [|by apply new_dispatcher_inv]. apply Forall_forall. by intros [].
Qed.

(** What a step adds to the calls, and where it leaves the current generation. *)
Lemma drop_owned_current i (ch : Events C) : current (drop_owned i ch) = current ch.
Proof. unfold drop_owned. by destruct (owned ch !! i). Qed.
Lemma drop_receiver_current (ch : Events C) : events_inv ch → current (drop_receiver ch) = current ch.
Proof.
  intros [Ha (Hc & Hm & _) _ _ _]. unfold drop_receiver.
  set (u := usage (budget ch)). set (ch1 := with_usage _ _).
  destruct (release_all (queued ch1) ch1 (owned ch)) as (_ & _ & _ & _ & Hcur & _); [|exact Ha|exact Hcur].
  apply Forall_app. split; [eapply Forall_impl; [exact Hc|]|eapply Forall_impl; [exact Hm|]]; simpl; lia.
Qed.
Lemma done_delivery_current d : current (events (done_delivery d)) = current (events d).
Proof. apply drop_owned_current. Qed.
Lemma receive_same d :
  events_inv (events d) →
  current (events (receive d)) = current (events d) ∧ calls (receive d) = calls d ∧
  callbacks (receive d) = callbacks d.
Proof.
  intros Hi.
  pose proof (try_delivery_loop_spec (S (length (queued (events d)))) _ Hi ltac:(lia)) as Hr.
  fold (try_delivery (events d)) in Hr. unfold receive.
  destruct (try_delivery (events d)) as [[delivery|e] ch]; destruct Hr as (Hi' & Hcur & _); simpl in *.
  - set (d1 := if bool_decide _ then _ else _).
    assert (events d1 = ch ∧ calls d1 = calls d ∧ callbacks d1 = callbacks d) as (He1 & <- & <-)
      by (subst d1; by case_bool_decide).
    rewrite He1, <- Hcur. clearbody d1.
    destruct (take_event 0 ch) as [event ch'] eqn:Htake.
    assert (current ch' = current ch) as <-.
    { unfold take_event in Htake. destruct (owned ch !! 0%nat); by simplify_eq/=. }
    destruct event as [event|]; simpl; [destruct (dispatch_target event) as [[]|]; simpl|];
      by rewrite ?drop_owned_current.
  - destruct e; [simpl; by rewrite Hcur|].
    pose proof (drop_receiver_current ch Hi') as Hd. simpl in Hd |- *. by rewrite Hd.
Qed.

(** The invocation a step makes, if any. *)
Definition admitted d : list call :=
  match pc d with
  | Admitting key kind target arg =>
      if is_current_delivery d
      then [{| c_key := key; c_target := target; c_argument := arg; c_generation := delivery_generation d |}]
      else []
  | _ => []
  end.
Lemma dispatch_step_calls now attached raised d :
  events_inv (events d) →
  let d' := dispatch_step now attached raised d in
  calls d' = admitted d ++ calls d ∧ current (events d') = current (events d) ∧
  callbacks d' = callbacks d.
Proof.
  intros Hi. unfold dispatch_step, admitted.
  destruct (pc d) as [|event key kind|event key kind|event key kind target|key kind target arg
    |key kind target arg|]; simpl.
  - by destruct (receive_same d Hi) as (-> & -> & ->).
  - destruct attached; simpl; [destruct (is_current_delivery d); simpl|]; by rewrite ?drop_owned_current.
  - destruct (registry (callbacks d) !! key); simpl; by rewrite ?drop_owned_current.
  - destruct (argument event) as [arg|error]; simpl; [done|].
    destruct (fail_same now (type_of error) "conversion" d) as (He & _ & _ & Hc & Hr).
    by rewrite drop_owned_current, He, Hc, Hr.
  - destruct (is_current_delivery d); simpl; by rewrite ?drop_owned_current.
  - destruct raised as [error|]; simpl; [|by rewrite drop_owned_current].
    destruct (fail_same now error "invocation" d) as (He & _ & _ & Hc & Hr).
    by rewrite drop_owned_current, He, Hc, Hr.
  - done.
Qed.
Lemma send_keeps_current s seen event (ch : Events C) :
  events_inv ch → current (try_send s seen event ch).2 = current ch.
Proof.
  intros Hi. destruct (try_send_refines s seen event ch Hi) as [_ Hs].
  destruct (try_send_spec s seen event ch); [apply Hs|by rewrite Hs].
Qed.

(** Once a generation has ended, no callback is invoked for its events: every
    invocation after a point of the execution is for the generation that was current
    there or for one begun since. *)
Theorem ended_generation_not_called capacity s ch r before after :
  event_channel capacity = Ok (s, ch) →
  let d := dispatcher_run before (new_dispatcher ch r) in
  ∃ new, calls (dispatcher_run after d) = new ++ calls d ∧
    Forall (λ c, c_generation c = current (events d) ∨ NewGeneration (c_generation c) ∈ after) new.
Proof.
  intros Hch. cbv zeta. pose proof (reachable_inv capacity s ch r before Hch) as Hd.
  set (d := dispatcher_run before _) in *. clearbody d.
  revert d Hd. induction after as [|o after IH]; intros d Hd; [by exists []|].
  pose proof (dispatcher_step_inv (λ _ _, True) o d ltac:(by destruct o) Hd) as Hd'.
  destruct (IH _ Hd') as (new & Hnew & Hall). simpl. rewrite Hnew.
  assert (∃ more, calls (dispatcher_step o d) = more ++ calls d ∧
    Forall (λ c, c_generation c = current (events d)) more ∧
    (current (events (dispatcher_step o d)) = current (events d) ∨
     NewGeneration (current (events (dispatcher_step o d))) = o)) as (more & -> & Hmore & Hcur).
  { pose proof (di_events _ _ Hd) as Hi.
    destruct o as [now attached raised|key c|key| |s' seen event|g]; simpl;
      try (by exists []; auto); [|exists []; split_and!; [done|done|left; by apply send_keeps_current]].
    exists (admitted d). destruct (dispatch_step_calls now attached raised d Hi) as (-> & -> & _).
    split_and!; [done| |by left]. unfold admitted. destruct (pc d); try done.
    destruct (is_current_delivery d) eqn:Hc; [|done]. constructor; [|done].
    unfold is_current_delivery in Hc. simpl. lia. }
  exists (new ++ more). split; [by rewrite app_assoc|]. apply Forall_app. split.
  - eapply Forall_impl; [exact Hall|]. intros c [->|Hin]; [|right; by right].
    destruct Hcur as [->| <-]; [by left|right; by left].
  - eapply Forall_impl; [exact Hmore|]. by left.
Qed.

(** What a callback is to be called with, and under which key, for an event: a topic
    with its JSON value; a LiDAR message with its points in rows of three; a picture as
    its rows of pixels of three bytes; the samples of a packet. *)
Inductive delivers : CallbackEvent → string → Argument → Prop :=
  | delivers_topic topic payload :
      delivers (TopicCallback topic payload) topic (PyJsonObject (json_value_to_py payload []))
  | delivers_lidar topic payload points rows : len points = 3 * rows →
      delivers (LidarCallback topic payload points) topic
        (PyLidar (lidar_message topic payload {| shape := [rows; 3]; elements := points |}))
  | delivers_frame data width height :
      delivers (VideoFrame data width height) "video" (PyFrame {| shape := [height; width; 3]; elements := data |})
  | delivers_samples data rate channels :
      delivers (AudioFrame data rate channels) "audio" (PySamples data).
Lemma argument_delivers event key kind arg :
  dispatch_target event = Some (key, kind) → argument event = Ok arg → delivers event key arg.
Proof.
  destruct event as [topic payload|topic payload points|data w h|data rate n|k r]; simpl; intros [= <- <-]; unfold reshape.
  - intros [= <-]. constructor.
  - destruct (_ =? _) eqn:Hz; [|done]. simpl. intros [= <-]. constructor. unfold zprod in Hz. simpl in Hz. lia.
  - destruct (_ =? _); [|done]. simpl. intros [= <-]. constructor.
  - intros [= <-]. constructor.
Qed.

(** C26: at any point of an execution, every callback invocation from there on
    delivers an event that some thread sent for the generation that is current at that
    point, or for one begun since: never for a generation that has ended.  It is
    invoked under the key of the event, with the event's value; and the dispatcher owns
    exactly the delivery it works on, and none while it waits. *)
Theorem calls_deliver_sent_events capacity s ch r before after :
  event_channel capacity = Ok (s, ch) →
  let d := dispatcher_run before (new_dispatcher ch r) in
  let d' := dispatcher_run after d in
  (∃ new, calls d' = new ++ calls d ∧
     Forall (λ c, (c_generation c = current (events d) ∨ NewGeneration (c_generation c) ∈ after) ∧
       ∃ s seen event, Send s seen event ∈ before ++ after ∧ s_generation s = c_generation c ∧
         delivers event (c_key c) (c_argument c)) new) ∧
  len (owned (events d')) = if waiting (pc d') then 0 else 1.
Proof.
  intros Hch d d'. destruct (ended_generation_not_called capacity s ch r before after Hch) as (new & Hnew & Hg).
  fold d in Hnew, Hg. fold d' in Hnew. apply event_channel_inv in Hch as (Hi & _ & _ & Hl).
  assert (d' = dispatcher_run (before ++ after) (new_dispatcher ch r)) as Hd by (symmetry; apply foldl_app).
  set (Q event g := ∃ s seen, Send s seen event ∈ before ++ after ∧ s_generation s = g).
  assert (disp_inv Q d') as [_ Ho _ _ Hc].
  { rewrite Hd. apply dispatcher_run_inv; [|by apply new_dispatcher_inv]. apply Forall_forall.
    intros [] Hin; simpl; unfold Q; eauto. }
  split; [|destruct (waiting _); [by rewrite Ho|by destruct Ho as (x & -> & _)]].
  exists new. split; [done|]. rewrite Hnew in Hc. apply Forall_app in Hc as [Hc _].
  apply Forall_and. split; [exact Hg|]. eapply Forall_impl; [exact Hc|].
  intros c (event & kind & (s' & seen & Hin & Heq) & Ht & Ha). exists s', seen, event.
  split_and!; [done|done|by eapply argument_delivers].
Qed.

(** The callback the dispatcher has copied and not yet invoked. *)
Definition holding (p : dispatch_pc) : option (string * RegisteredCallback) :=
  match p with
  | Converting _ key _ target | Admitting key _ target _ => Some (key, target)
  | _ => None
  end.

(** One step keeps what may be invoked under [key] within [known]. *)
Lemma removed_step key (known : RegisteredCallback → Prop) (after : list dispatcher_op) o d :
  o ∈ after → events_inv (events d) →
  (∀ t, registry (callbacks d) !! key = Some t → known t) →
  (∀ t, holding (pc d) = Some (key, t) → known t) →
  (∀ t, Register key (callback t) ∈ after → known t) →
  let d' := dispatcher_step o d in
  (∀ t, registry (callbacks d') !! key = Some t → known t) ∧
  (∀ t, holding (pc d') = Some (key, t) → known t) ∧
  ∃ more, calls d' = more ++ calls d ∧ Forall (λ c, c_key c = key → known (c_target c)) more.
Proof.
  intros Ho Hi Hreg Hhold Hknown. cbv zeta.
  destruct o as [now attached raised|key' c|key'| |s' seen event|g]; simpl.
  - destruct (dispatch_step_calls now attached raised d Hi) as (-> & _ & ->).
    split; [done|]. split; [|exists (admitted d); split; [done|]].
    + intros t. unfold dispatch_step.
      destruct (pc d) as [|event k kind|event k kind|event k kind target|k kind target arg
        |k kind target arg|] eqn:Hpc; simpl in Hhold |- *; rewrite ?Hpc; try done.
      * unfold receive. destruct (try_delivery (events d)) as [[delivery|[]] ch]; simpl;
          [|by rewrite ?Hpc..].
        set (d1 := if bool_decide _ then _ else _). clearbody d1.
        destruct (take_event 0 (events d1)) as [event ch'].
        destruct event as [event|]; simpl; [destruct (dispatch_target event) as [[]|]; simpl|]; done.
      * destruct attached; simpl; [destruct (is_current_delivery d)|]; done.
      * destruct (registry (callbacks d) !! k) as [target|] eqn:Hk; simpl; [|done].
        intros [= -> ->]. auto.
      * destruct (argument event); simpl; [|done]. auto.
      * destruct (is_current_delivery d); done.
    + unfold admitted. destruct (pc d); try done. destruct (is_current_delivery d); [|done].
      constructor; [|done]. simpl. intros ->. by apply Hhold.
  - split_and!; [|done|by exists []]. intros t. destruct (decide (key' = key)) as [->|Hne].
    + rewrite lookup_insert_eq. intros [= <-]. by apply Hknown.
    + rewrite lookup_insert_ne by done. auto.
  - split_and!; [|done|by exists []]. intros t. rewrite lookup_delete_Some. naive_solver.
  - split_and!; [|done|by exists []]. intros t. by rewrite lookup_empty.
  - split_and!; [done|done|by exists []].
  - split_and!; [done|done|by exists []].
Qed.

(** A callback that was removed (by unsubscribing, by clearing the registry, or by
    registering another one) is not invoked any more unless the dispatcher had
    already copied it: whatever is invoked under its key from then on was registered
    since. *)
Theorem removed_not_called capacity s ch r before after key :
  event_channel capacity = Ok (s, ch) →
  let d := dispatcher_run before (new_dispatcher ch r) in
  registry (callbacks d) !! key = None →
  (∀ target, holding (pc d) ≠ Some (key, target)) →
  ∃ new, calls (dispatcher_run after d) = new ++ calls d ∧
    Forall (λ c, c_key c = key → Register key (callback (c_target c)) ∈ after) new.
Proof.
  intros Hch. cbv zeta. pose proof (reachable_inv capacity s ch r before Hch) as Hd.
  set (d := dispatcher_run before _) in *. clearbody d. intros Hreg Hhold.
  set (known t := Register key (callback t) ∈ after).
  assert (∀ rest d', Forall (λ o, o ∈ after) rest → disp_inv (λ _ _, True) d' →
    (∀ t, registry (callbacks d') !! key = Some t → known t) →
    (∀ t, holding (pc d') = Some (key, t) → known t) →
    ∃ new, calls (dispatcher_run rest d') = new ++ calls d' ∧
      Forall (λ c, c_key c = key → known (c_target c)) new) as Hgen.
  { clear d Hd Hreg Hhold. induction rest as [|o rest IH]; intros d Hsub Hd Hreg Hhold; [by exists []|].
    inversion_clear Hsub as [|? ? Ho Hrest].
    pose proof (dispatcher_step_inv (λ _ _, True) o d ltac:(by destruct o) Hd) as Hd'.
    destruct (removed_step key known after o d Ho (di_events _ _ Hd) Hreg Hhold) as (Hreg' & Hhold' & more & Hc & Hmore).
    { done. }
    destruct (IH _ Hrest Hd' Hreg' Hhold') as (new & Hnew & Hall).
    exists (new ++ more). simpl. rewrite Hnew, Hc, app_assoc. split; [done|]. by apply Forall_app. }
  apply Hgen; [|done|congruence|]; [by apply Forall_forall|]. intros t Ht. by destruct (Hhold t).
Qed.

(** *** Conversions *)

(** What the producers promise: a frame has three bytes per pixel, a point three
    coordinates. *)
Definition convertible (event : CallbackEvent) : Prop :=
  match event with LidarCallback _ _ points => len points mod 3 = 0 | _ => event_shaped event end.
Lemma convertible_argument event key kind :
  convertible event → dispatch_target event = Some (key, kind) → ∃ arg, argument event = Ok arg.
Proof.
  destruct event as [topic payload|topic payload points|data w h|data rate n|k r]; simpl; intros Hs Ht;
    [by eauto| | |by eauto|done]; unfold reshape, zprod; simpl.
  - destruct (_ =? _) eqn:Hz; [simpl; eauto|].
    pose proof (Z.div_mod (len points) 3 ltac:(done)). lia.
  - destruct Hs as (_ & _ & Hl & _). destruct (_ =? _) eqn:Hz; [simpl; eauto|]. lia.
Qed.

Definition op_convertible (o : dispatcher_op) : Prop :=
  match o with Send _ _ event => convertible event | _ => True end.
Definition no_failure (f : CallbackDiagnostics) : Prop := conversion f = replicate 9 repeat_default.

Lemma no_failure_reset g f : no_failure f → no_failure (reset_diagnostics g f).
Proof. unfold no_failure. simpl. by intros ->. Qed.
Lemma no_failure_fail now error d :
  no_failure (failures d) → no_failure (failures (fail now error "invocation" d)).
Proof.
  unfold fail. destruct (report_total now error "invocation" (failures d)) as [f Hf]. rewrite Hf.
  unfold report in Hf. destruct (position _ ERROR_CLASSES); [|done].
  simpl in Hf. by injection Hf as <-.
Qed.
Lemma receive_no_failure d : no_failure (failures d) → no_failure (failures (receive d)).
Proof.
  intros Hf. unfold receive. destruct (try_delivery (events d)) as [[delivery|[]] ch]; simpl; [|done..].
  set (d1 := if bool_decide _ then _ else _).
  assert (no_failure (failures d1)) as Hd1.
  { subst d1. case_bool_decide; [done|]. by apply no_failure_reset. }
  clearbody d1. destruct (take_event 0 (events d1)) as [event ch'].
  destruct event as [event|]; simpl; [destruct (dispatch_target event) as [[]|]|]; done.
Qed.

Lemma dispatch_no_failure (Q : CallbackEvent → Z → Prop) now attached raised d :
  (∀ event g, Q event g → convertible event) → disp_inv Q d → no_failure (failures d) →
  no_failure (failures (dispatch_step now attached raised d)).
Proof.
  intros HQ Hd Hf. pose proof (di_pc _ _ Hd) as Hpc. unfold dispatch_step.
  destruct (pc d) as [|event k kind|event k kind|event k kind target|k kind target arg
    |k kind target arg|]; [by apply receive_no_failure|..|done]; simpl in *.
  - destruct attached; [destruct (is_current_delivery d)|]; done.
  - by destruct (registry (callbacks d) !! k).
  - destruct Hpc as [Hs%HQ Ht]. by destruct (convertible_argument _ _ _ Hs Ht) as [arg ->].
  - by destruct (is_current_delivery d).
  - destruct raised; [|done]. by apply no_failure_fail.
Qed.

(** When every event is sent in the shape its producer guarantees, no conversion
    ever fails: none is reported, in any generation. *)
Theorem shaped_events_convert capacity s ch r l :
  event_channel capacity = Ok (s, ch) → Forall op_convertible l →
  conversion (failures (dispatcher_run l (new_dispatcher ch r))) = replicate 9 repeat_default.
Proof.
  intros Hch Hl. apply event_channel_inv in Hch as (Hi & _ & _ & Hlive).
  set (Q event (g : Z) := convertible event).
  assert (∀ l d, Forall op_convertible l → disp_inv Q d → no_failure (failures d) →
    no_failure (failures (dispatcher_run l d))) as Hgen.
  { clear. induction l as [|o l IH]; intros d Hl Hd Hf; [done|]. inversion_clear Hl as [|? ? Ho Hrest].
    apply IH; [done|apply dispatcher_step_inv; [by destruct o|done]|].
    destruct o; simpl; try done. by apply (dispatch_no_failure Q). }
  by apply Hgen; [|apply new_dispatcher_inv|].
Qed.
End dispatcher.

(** ** An execution *)
#[local] Existing Instance exact_layout.
Definition tx0 : EventSender := {| s_generation := 0 |}.
Definition demo_ops : list dispatcher_op :=
  [Register "video" 5%nat; Send tx0 0 (VideoFrame [1; 2; 3; 4; 5; 6] 1 2);
   Send tx0 0 (AudioFrame [7] 48000 2)] ++ replicate 6 (Dispatch 0 true None).
Definition demo_dispatcher : Dispatcher (C:=vec_chan) :=
  dispatcher_run demo_ops (new_dispatcher (set_generation 0 demo_channel) new_callbacks).

Example demo_calls :
  calls demo_dispatcher =
    [{| c_key := "video"; c_target := {| id := 1; callback := 5%nat |};
        c_argument := PyFrame {| shape := [2; 1; 3]; elements := [1; 2; 3; 4; 5; 6] |};
        c_generation := 0 |}] ∧ pc demo_dispatcher = Idle.
Proof. by vm_compute. Qed.

(** A frame of generation 0 is in hand when generation 1 begins; one of generation 1
    follows. *)
Definition tx1 : EventSender := {| s_generation := 1 |}.
Definition demo_next : list dispatcher_op :=
  [NewGeneration 1; Send tx1 1 (VideoFrame [9; 8; 7] 1 1)] ++ replicate 9 (Dispatch 0 true None).
Definition demo_inhand : list dispatcher_op :=
  demo_ops ++ [Send tx0 0 (VideoFrame [1; 2; 3] 1 1); Dispatch 0 true None; Dispatch 0 true None].
Definition demo_state (l : list dispatcher_op) : Dispatcher (C:=vec_chan) :=
  dispatcher_run l (new_dispatcher (set_generation 0 demo_channel) new_callbacks).
Example demo_next_calls :
  (λ c, (c_argument c, c_generation c)) <$> calls (demo_state (demo_inhand ++ demo_next)) =
    [(PyFrame {| shape := [1; 1; 3]; elements := [9; 8; 7] |}, 1);
     (PyFrame {| shape := [2; 1; 3]; elements := [1; 2; 3; 4; 5; 6] |}, 0)].
Proof. by vm_compute. Qed.
Lemma calls_deliver_sent_events_witness :
  ∃ new, calls (dispatcher_run demo_next (demo_state demo_inhand)) = new ++ calls (demo_state demo_inhand) ∧
    Forall (λ c, c_generation c = 0 ∨ NewGeneration (c_generation c) ∈ demo_next) new.
Proof.
  destruct (calls_deliver_sent_events (C:=vec_chan) 8 tx0 (set_generation 0 demo_channel) new_callbacks
    demo_inhand demo_next eq_refl) as [(new & Hnew & Hall) _].
  exists new. split; [exact Hnew|]. eapply Forall_impl; [exact Hall|]. intros c [[Hc|Hc] _]; [left|right; exact Hc].
  rewrite Hc. vm_compute. reflexivity.
Defined.

(** The session moves to generation 1 before the last event is handled. *)
Lemma ended_generation_not_called_witness :
  ∃ new, calls (dispatcher_run (NewGeneration 1 :: demo_ops) demo_dispatcher) = new ++ calls demo_dispatcher ∧
    Forall (λ c, c_generation c = current (events demo_dispatcher) ∨
                 NewGeneration (c_generation c) ∈ NewGeneration 1 :: demo_ops) new.
Proof.
  apply (ended_generation_not_called (C:=vec_chan) 8 tx0 (set_generation 0 demo_channel) new_callbacks
    demo_ops (NewGeneration 1 :: demo_ops)). reflexivity.
Defined.

Lemma removed_not_called_witness :
  registry (callbacks (dispatcher_run (demo_ops ++ [ClearCallbacks])
    (new_dispatcher (C:=vec_chan) (set_generation 0 demo_channel) new_callbacks))) !! "video" = None ∧
  ∃ new, calls (dispatcher_run demo_ops (dispatcher_run (demo_ops ++ [ClearCallbacks])
      (new_dispatcher (C:=vec_chan) (set_generation 0 demo_channel) new_callbacks))) =
    new ++ calls (dispatcher_run (demo_ops ++ [ClearCallbacks])
      (new_dispatcher (C:=vec_chan) (set_generation 0 demo_channel) new_callbacks)) ∧
    Forall (λ c, c_key c = "video" → Register "video" (callback (c_target c)) ∈ demo_ops) new.
Proof.
  split; [by vm_compute|].
  apply (removed_not_called (C:=vec_chan) 8 tx0 (set_generation 0 demo_channel) new_callbacks
    (demo_ops ++ [ClearCallbacks]) demo_ops "video"); [reflexivity|by vm_compute|].
  intros target. by vm_compute.
Defined.

Lemma shaped_events_convert_witness :
  conversion (failures demo_dispatcher) = replicate 9 repeat_default.
Proof.
  apply (shaped_events_convert (C:=vec_chan) 8 tx0 (set_generation 0 demo_channel) new_callbacks demo_ops);
    [reflexivity|].
  apply Forall_app. split; [|by apply Forall_replicate].
  constructor; [done|]. constructor; [|by constructor].
  unfold op_convertible, convertible, event_shaped. unfold len. simpl. split_and!; lia || done.
Defined.
