(* ===== verification/Bridges.v ===== *)
(** * Python bridges (src/src/interface/bridges/connection.rs, pubsub.rs, audio.rs, video.rs, datachannel.rs; src/src/lib.rs)

    What the Python classes add to the components they wrap: the arguments of the
    constructor, the conversions and checks before a request, the registration of
    callbacks with the service.  The theorems: the AES key a session gets is
    trimmed and not empty, a request with bad arguments reaches neither the service
    nor the transport, and the registry and the subscriptions of the service agree
    whatever fails in between. *)
From S2P Require Import Prelude Floats Json Ingress Constants Channel Events Lidar Utf8 Security Ports.
From S2P Require Import Service ServiceProps Engine Connection Session PyJson Callbacks.
#[local] Open Scope Z_scope.

(** ** The AES key *)
Definition normalize_aes_128_key (key : option string) : option string :=
  value ← key; let value := trim value in if seqb value "" then None else Some value.
(** [env_var] is [GO2_DORA_UNITREE_AES_128_KEY], when it is set and Unicode. *)
Definition resolve_aes_128_key (env_var : option string) (explicit_key : option string) : option string :=
  match normalize_aes_128_key explicit_key with
  | Some key => Some key
  | None => value ← env_var; normalize_aes_128_key (Some value)
  end.

(** The key of a session is never blank and has no blanks around it, so that
    resolving it again changes nothing; it is the explicit key unless that is blank,
    then the one of the environment. *)
Theorem aes_key_typed env_var explicit_key key :
  resolve_aes_128_key env_var explicit_key = Some key →
  trim key = key ∧ key ≠ "" ∧ resolve_aes_128_key env_var (Some key) = Some key ∧
  ∃ source, key = trim source ∧
    (explicit_key = Some source ∨
     (env_var = Some source ∧ ∀ given, explicit_key = Some given → trim given = "")).
Proof.
  unfold resolve_aes_128_key.
  assert (∀ o k, normalize_aes_128_key o = Some k → ∃ source, o = Some source ∧ k = trim source ∧ k ≠ "")
    as Hnorm.
  { intros [source|] k; [|done]. simpl. destruct (seqb (trim source) "") eqn:Hb; [done|].
    intros [= <-]. exists source. split_and!; [done|done|]. by apply String.eqb_neq. }
  assert (∀ k, trim k = k → k ≠ "" → normalize_aes_128_key (Some k) = Some k) as Hagain.
  { intros k Ht Hk. simpl. rewrite Ht. unfold seqb. by rewrite (proj2 (String.eqb_neq k "") Hk). }
  destruct (normalize_aes_128_key explicit_key) as [k|] eqn:Hex.
  - intros [= ->]. destruct (Hnorm _ _ Hex) as (source & -> & -> & Hne).
    split_and!; [apply trim_idemp|done|by rewrite (Hagain _ (trim_idemp source) Hne)|].
    exists source. by split; [|left].
  - destruct env_var as [value|]; [|done]. intros Hk.
    change (normalize_aes_128_key (Some value) = Some key) in Hk.
    destruct (Hnorm _ _ Hk) as (source & [= ->] & -> & Hne).
    split_and!; [apply trim_idemp|done|by rewrite (Hagain _ (trim_idemp source) Hne)|].
    exists source. split; [done|]. right. split; [done|]. intros given ->. simpl in Hex.
    destruct (seqb (trim given) "") eqn:Hb; [|done]. by apply String.eqb_eq.
Qed.
Lemma aes_key_typed_witness :
  resolve_aes_128_key (Some " 0123 ") (Some "  ") = Some "0123" ∧ trim "0123" = "0123".
Proof.
  split; [reflexivity|].
  apply (aes_key_typed (Some " 0123 ") (Some "  ") "0123"). reflexivity.
Defined.

(** ** The constructor *)
Definition extract_i32 (o : PyObj) : result PyErr Z :=
  match py_index o with
  | Some n => if (- 2 ^ 31 <=? n) && (n <=? i32_max) then Ok n else Err PyOverflowError
  | None => Err (PyTypeError "'int' expected")
  end.
Definition extract_String (o : PyObj) : result PyErr string :=
  match o with
  | PyStr (Some s) => Ok s
  | PyStr None => Err PyUnicodeError
  | _ => Err (PyTypeError "'str' expected")
  end.
Definition is_none (o : PyObj) : bool := match o with PyNone => true | _ => false end.
Abbreviation kwargs_t := (list (string * PyObj)).
Fixpoint get_item (kwargs : kwargs_t) (key : string) : option PyObj :=
  match kwargs with
  | [] => None
  | (k, v) :: kwargs => if seqb k key then Some v else get_item kwargs key
  end.

(** The last of the given aliases wins; [None] does not count. *)
Fixpoint resolve_key_aliases (kwargs : kwargs_t) (aliases : list string) (key : option string) :
    result PyErr (option string) :=
  match aliases with
  | [] => Ok key
  | alias :: aliases =>
      match get_item kwargs alias with
      | Some v =>
          if is_none v then resolve_key_aliases kwargs aliases key else
          s ← extract_String v; resolve_key_aliases kwargs aliases (Some s)
      | None => resolve_key_aliases kwargs aliases key
      end
  end.
Record ConnectionArguments := {
  ca_method : WebRTCConnectionMethod;
  ca_serial_number : option string;
  ca_ip : option string;
  ca_username : option string;
  ca_password : option string;
  ca_aes_128_key : option string;
}.
Definition connection_arguments (env_var : option string) (connection_method : Z)
    (serial_number ip username password aes_128_key : option string) (kwargs : option kwargs_t) :
    result PyErr ConnectionArguments :=
  let kwargs := default [] kwargs in
  method ← match get_item kwargs "connectionMethod" with
           | Some v => extract_i32 v
           | None => Ok connection_method
           end;
  serial ← match get_item kwargs "serialNumber" with
           | Some v => s ← extract_String v; Ok (Some s)
           | None => Ok serial_number
           end;
  key ← resolve_key_aliases kwargs ["aes_128_key"; "aes128Key"; "aes128_key"] aes_128_key;
  let key := resolve_aes_128_key env_var key in
  method ← map_err PyValueError (try_from method);
  Ok {| ca_method := method; ca_serial_number := serial; ca_ip := ip; ca_username := username;
        ca_password := password; ca_aes_128_key := key |}.

(** ** lib.rs: logging *)
Inductive env_value := NotPresent | NotUnicode | Value (s : string).
(** The filter of the subscriber it installs, [None] when it leaves logging alone;
    [filter_valid] is [EnvFilter::try_new]. *)
Definition init_tracing (has_been_set : bool) (log_init log : env_value) (filter_valid : string → bool) :
    result PyErr (option string) :=
  let install :=
    filter ← match log with
             | Value s => if filter_valid s then Ok s
                          else Err (PyValueError "invalid UNITREE_WEBRTC_RS_LOG filter")
             | NotPresent => Ok "warn"
             | NotUnicode => Err (PyValueError "UNITREE_WEBRTC_RS_LOG must be Unicode")
             end;
    Ok (Some filter) in
  if has_been_set then Ok None else
  match log_init with
  | Value s =>
      if seqb s "0" then Ok None else
      if seqb s "1" then install
      else Err (PyValueError "UNITREE_WEBRTC_RS_LOG_INIT must be 0 or 1")
  | NotPresent => install
  | NotUnicode => Err (PyValueError "UNITREE_WEBRTC_RS_LOG_INIT must be 0 or 1")
  end.
(** A host that owns logging, or that opts out, cannot make the import fail. *)
Lemma init_tracing_leaves_host has_been_set log_init log filter_valid :
  has_been_set = true ∨ log_init = Value "0" → init_tracing has_been_set log_init log filter_valid = Ok None.
Proof. intros [-> | ->]; [done|]. by destruct has_been_set. Qed.

Section bridges.
Context {C : Type → Type} `{Chan C} `{Layout} `{JsonReader} `{SerdeJson} `{Crypto}.
Context {T : Type} `{DataChannelPort T}.
Variable callable : nat → bool.
Abbreviation State := (Service C T * Callbacks)%type.
Implicit Types (st : State).

(** [PyUnitreeWebRTCConnection::new] with the dispatcher: [dispatcher] says whether
    its thread starts; the other arguments are those of [with_adapters]. *)
Definition new_connection (a : ConnectionArguments) (available_parallelism : option Z) (now : Z)
    (create_engine : C IngressMessage → EventSender → T) (start : Z → bool) (router dispatcher : bool)
    (session_id sequence : Z) : result PyErr (UnitreeSession C T * Callbacks) :=
  u ← map_err to_py_error
        (with_adapters (new_options (ca_method a) (ca_ip a) available_parallelism) now create_engine
           start router session_id sequence);
  if dispatcher then Ok (u, new_callbacks)
  else Err (PyRuntimeError "Failed to start Python callback dispatcher").

(** ** Requests

    The synchronous part of [publish] and [publish_request_new]: what the future
    captures, or the exception; then the first poll of the future. *)
Definition convert_optional (h : Store) (data : option nat) : result PyErr (option value) :=
  match data with Some o => v ← py_any_to_json_value h o; Ok (Some v) | None => Ok None end.
Definition py_publish (h : Store) (topic : string) (data : option nat) (msg_type : option string)
    (timeout : f64) (now : Z) : result PyErr (string * option value * option string * f64) :=
  _ ← map_err PyValueError (validated_timeout timeout now);
  data_value ← convert_optional h data;
  Ok (topic, data_value, msg_type, timeout).
Definition py_publish_request_new (h : Store) (topic : string) (options : nat) (timeout : f64) (now : Z) :
    result PyErr (string * value * f64) :=
  _ ← map_err PyValueError (validated_timeout timeout now);
  options_value ← py_any_to_json_value h options;
  Ok (topic, options_value, timeout).
Definition to_py {A} (r : PortResult A) : result PyErr A := map_err to_py_error r.
Definition start_publish (f : string * option value * option string * f64) (now : Z) (s : Service C T) :
    result PyErr PublishCall * Service C T :=
  let '(topic, data, msg_type, timeout) := f in
  let '(r, s) := publish_begin topic data msg_type (Some timeout) any_response now s in (to_py r, s).
Definition start_publish_request_new (f : string * value * f64) (now : Z) (s : Service C T) :
    result PyErr PublishCall * Service C T :=
  let '(topic, options, timeout) := f in
  let '(r, s) := publish_request_new topic options (Some timeout) now s in (to_py r, s).

(** The whole call, up to its await on the response: the future runs at [later]. *)
Definition py_publish_call (h : Store) (topic : string) (data : option nat) (msg_type : option string)
    (timeout : f64) (now later : Z) (s : Service C T) : result PyErr PublishCall * Service C T :=
  match py_publish h topic data msg_type timeout now with
  | Ok f => start_publish f later s
  | Err e => (Err e, s)
  end.
(** The answer of the peer becomes a Python object of the store. *)
Definition py_response (r : PortResult value) (h : Store) : result PyErr (nat * Store) :=
  response ← to_py r; Ok (json_value_to_py response h).

Definition py_publish_without_callback (h : Store) (topic : string) (data : option nat)
    (msg_type : option string) (now : Z) (s : Service C T) : result PyErr () * Service C T :=
  match convert_optional h data with
  | Err e => (Err e, s)
  | Ok data_value =>
      let '(r, s) := publish_without_callback topic data_value msg_type now s in (to_py r, s)
  end.
Definition py_switch_video_channel (switch : bool) (now : Z) (s : Service C T) :
    result PyErr () * Service C T :=
  let '(r, s) := switch_video_channel switch now s in (to_py r, s).
Definition py_switch_audio_channel (switch : bool) (now : Z) (s : Service C T) :
    result PyErr () * Service C T :=
  let '(r, s) := switch_audio_channel switch now s in (to_py r, s).
Definition py_set_decoder (decoder : string) (s : Service C T) : result PyErr () * Service C T :=
  let '(r, s) := set_decoder decoder s in (to_py r, s).
Definition py_disable_traffic_saving (switch : bool) (now : Z) (s : Service C T) :
    result PyErr PublishCall * Service C T :=
  let '(r, s) := disable_traffic_saving switch now s in (to_py r, s).

(** ** Callbacks *)
Definition py_subscribe (topic : string) (c : nat) (now : Z) st : result PyErr () * State :=
  match ensure_callable callable c with
  | Err e => (Err e, st)
  | Ok _ =>
      match subscribe topic now st.1 with
      | (Ok _, s) => (Ok (), (s, register topic c st.2))
      | (Err e, s) => (Err (to_py_error e), (s, st.2))
      end
  end.
Definition py_unsubscribe (topic : string) (now : Z) st : result PyErr () * State :=
  match unsubscribe topic now st.1 with
  | (Ok _, s) => (Ok (), (s, remove topic st.2))
  | (Err e, s) => (Err (to_py_error e), (s, st.2))
  end.
Definition on_key (key : string) (c : nat) st : result PyErr () * State :=
  match ensure_callable callable c with
  | Err e => (Err e, st)
  | Ok _ => (Ok (), (st.1, register key c st.2))
  end.
Definition on_audio := on_key "audio".
Definition on_frame := on_key "video".
Definition clear_callbacks st : State := (st.1, clear_callback_registry st.2).

(** What a subscription changes: a rejected one nothing of the subscriptions. *)
Lemma subscribe_subscriptions topic now (s : Service C T) :
  match subscribe topic now s with
  | (Ok _, s') => subscriptions (routing s') = {[topic]} ∪ subscriptions (routing s)
  | (Err _, s') => subscriptions (routing s') = subscriptions (routing s)
  end.
Proof.
  unfold subscribe. destruct (send_frame topic None types.subscribe now s) as (_ & Hr & _).
  destruct (send_message_locked _ _ _ _ s) as [[r|e] s']; simpl in *; by rewrite Hr.
Qed.
Lemma unsubscribe_subscriptions topic now (s : Service C T) :
  match unsubscribe topic now s with
  | (Ok _, s') => subscriptions (routing s') = subscriptions (routing s) ∖ {[topic]}
  | (Err _, s') => subscriptions (routing s') = subscriptions (routing s)
  end.
Proof.
  unfold unsubscribe. destruct (send_frame topic None types.unsubscribe now s) as (_ & Hr & _).
  destruct (send_message_locked _ _ _ _ s) as [[r|e] s']; simpl in *; by rewrite Hr.
Qed.
Lemma publish_without_callback_subscriptions topic data ty now (s : Service C T) :
  subscriptions (routing (publish_without_callback topic data ty now s).2) = subscriptions (routing s).
Proof.
  unfold publish_without_callback, send_message.
  destruct (send_frame topic data (default types.msg ty) now s) as (_ & Hr & _).
  repeat case_match; simpl in *; by rewrite ?Hr.
Qed.

(** The calls Python makes on the bridges. *)
Inductive bridge_op :=
  | Subscribe (topic : string) (c : nat) (now : Z)
  | Unsubscribe (topic : string) (now : Z)
  | OnAudio (c : nat)
  | OnFrame (c : nat)
  | ClearCallbacks
  | Publish (h : Store) (topic : string) (data : option nat) (msg_type : option string) (now : Z).
Definition bridge_step (o : bridge_op) st : State :=
  match o with
  | Subscribe topic c now => (py_subscribe topic c now st).2
  | Unsubscribe topic now => (py_unsubscribe topic now st).2
  | OnAudio c => (on_audio c st).2
  | OnFrame c => (on_frame c st).2
  | ClearCallbacks => clear_callbacks st
  | Publish h topic data msg_type now =>
      ((py_publish_without_callback h topic data msg_type now st.1).2, st.2)
  end.
Definition bridge_run (l : list bridge_op) st : State := foldl (λ st o, bridge_step o st) st l.

Definition media_keys : gset string := {["audio"; "video"]}.
(** Who is registered is subscribed or listens to media; [kept]: and conversely. *)
Definition agrees (kept : bool) st : Prop :=
  (∀ key, is_Some (registry st.2 !! key) → key ∈ subscriptions (routing st.1) ∪ media_keys) ∧
  (kept = true → ∀ topic, topic ∈ subscriptions (routing st.1) → is_Some (registry st.2 !! topic)).

Lemma agrees_register kept key c s r :
  agrees kept (s, r) → key ∈ subscriptions (routing s) ∪ media_keys → agrees kept (s, register key c r).
Proof.
  intros [Ha Hb] Hk. split; simpl in *.
  - intros k. destruct (decide (k = key)) as [->|Hne]; [done|]. rewrite lookup_insert_ne by done. auto.
  - intros Hkept t Ht. destruct (decide (t = key)) as [->|Hne]; [rewrite lookup_insert_eq; eauto|].
    rewrite lookup_insert_ne by done. auto.
Qed.
Lemma agrees_subscriptions kept s s' r :
  subscriptions (routing s') = subscriptions (routing s) → agrees kept (s, r) → agrees kept (s', r).
Proof. unfold agrees. simpl. by intros ->. Qed.

Lemma bridge_step_agrees kept o st :
  (kept = true → o ≠ ClearCallbacks) → agrees kept st → agrees kept (bridge_step o st).
Proof.
  destruct st as [s r]. intros Ho Hst.
  destruct o as [topic c now|topic now|c|c| |h topic data ty now]; simpl.
  - unfold py_subscribe, ensure_callable. destruct (callable c); [|done]. simpl.
    pose proof (subscribe_subscriptions topic now s) as Hs.
    destruct (subscribe topic now s) as [[u|e] s']; simpl; [|by eapply agrees_subscriptions].
    destruct Hst as [Ha Hb]. simpl in *. split; simpl; rewrite Hs.
    + intros k. destruct (decide (k = topic)) as [->|Hne]; [set_solver|].
      rewrite lookup_insert_ne by done. intros Hk. specialize (Ha _ Hk). set_solver.
    + intros Hkept t Ht. destruct (decide (t = topic)) as [->|Hne]; [rewrite lookup_insert_eq; eauto|].
      rewrite lookup_insert_ne by done. apply Hb; [done|]. set_solver.
  - unfold py_unsubscribe. pose proof (unsubscribe_subscriptions topic now s) as Hs. simpl.
    destruct (unsubscribe topic now s) as [[u|e] s']; simpl; [|by eapply agrees_subscriptions].
    destruct Hst as [Ha Hb]. simpl in *. split; simpl; rewrite Hs.
    + intros k. destruct (decide (k = topic)) as [->|Hne];
        [rewrite lookup_delete_eq; by intros []|].
      rewrite lookup_delete_ne by done. intros Hk. specialize (Ha _ Hk). set_solver.
    + intros Hkept t Ht. rewrite lookup_delete_ne by set_solver. apply Hb; [done|]. set_solver.
  - unfold on_audio, on_key, ensure_callable. destruct (callable c); [|done].
    apply agrees_register; [done|]. unfold media_keys. set_solver.
  - unfold on_frame, on_key, ensure_callable. destruct (callable c); [|done].
    apply agrees_register; [done|]. unfold media_keys. set_solver.
  - split; simpl; [intros k; rewrite lookup_empty; by intros []|]. intros Hk. by destruct (Ho Hk).
  - unfold py_publish_without_callback.
    destruct (convert_optional h data) as [v|e]; [|done].
    pose proof (publish_without_callback_subscriptions topic v ty now s) as Hs.
    destruct (publish_without_callback topic v ty now s) as [res s']. by eapply agrees_subscriptions.
Qed.

(** C39: whatever Python calls and however the calls fail, every callback in the registry
    is under a topic the service is subscribed to, or under one of the two media
    keys; and as long as the registry is not cleared, every subscribed topic has its
    callback. *)
Theorem registry_agrees l st :
  registry st.2 = ∅ → subscriptions (routing st.1) = ∅ →
  let '(s, r) := bridge_run l st in
  (∀ key, is_Some (registry r !! key) → key ∈ subscriptions (routing s) ∪ media_keys) ∧
  (ClearCallbacks ∉ l → ∀ topic, topic ∈ subscriptions (routing s) → is_Some (registry r !! topic)).
Proof.
  intros Hr Hs.
  assert (∀ kept l st, (kept = true → ClearCallbacks ∉ l) → agrees kept st →
    agrees kept (bridge_run l st)) as Hrun.
  { clear. intros kept l. induction l as [|o l IH]; intros st Hl Hst; [done|].
    apply IH; [set_solver|]. apply bridge_step_agrees; [|done]. intros Hk ->. set_solver. }
  assert (∀ kept, agrees kept st) as Hinit.
  { intros kept. unfold agrees. rewrite Hr, Hs. split; [intros k; rewrite lookup_empty; by intros []|].
    intros _ t. set_solver. }
  pose proof (Hrun false l st ltac:(done) (Hinit _)) as [Ha _].
  pose proof (λ Hl, proj2 (Hrun true l st (λ _, Hl) (Hinit _)) eq_refl) as Hb.
  revert Ha Hb. by destruct (bridge_run l st).
Qed.

(** A publish with a bad timeout or a value that is not JSON raises at once and
    leaves the service alone. *)
Lemma py_publish_rejects h topic data ty timeout now later (s : Service C T) e :
  py_publish h topic data ty timeout now = Err e →
  py_publish_call h topic data ty timeout now later s = (Err e, s) ∧
  ((∃ m, validated_timeout timeout now = Err m ∧ e = PyValueError m) ∨ convert_optional h data = Err e).
Proof.
  intros He. unfold py_publish_call. rewrite He. split; [done|].
  unfold py_publish in He. destruct (validated_timeout timeout now) as [d|m]; simpl in *.
  - right. destruct (convert_optional h data); [done|]. by injection He as ->.
  - left. exists m. by injection He as <-.
Qed.
End bridges.

(** ** An execution: the second subscription is refused by the closed channel. *)
#[local] Existing Instances toy_data_channel toy_json toy_reader toy_cipher toy_layout.
Definition demo_bridge : Service vec_chan toy_port * Callbacks := (toy_start, new_callbacks).
Definition demo_bridge_ops : list bridge_op :=
  [Subscribe "rt/lowstate" 3%nat 0; OnFrame 4%nat; Subscribe "rt/other" 9%nat 0; Unsubscribe "rt/other" 0].
Lemma registry_agrees_witness :
  let '(s, r) := bridge_run (λ c, bool_decide (c ≠ 9%nat)) demo_bridge_ops demo_bridge in
  (∀ key, is_Some (registry r !! key) → key ∈ subscriptions (routing s) ∪ media_keys) ∧
  (ClearCallbacks ∉ demo_bridge_ops → ∀ topic, topic ∈ subscriptions (routing s) →
   is_Some (registry r !! topic)).
Proof.
  apply (registry_agrees (λ c, bool_decide (c ≠ 9%nat)) demo_bridge_ops demo_bridge); reflexivity.
Defined.
