(* ===== verification/PyModule.v ===== *)
(** * The Python module (src/src/lib.rs, src/src/interface/bridges/)

    What [import unitree_webrtc_rs] makes: the classes with their class attributes and
    the dictionaries of constants, in the module and again in its submodule
    [webrtc_driver]; and what the connection object's attributes read.  The theorems:
    every table of [Constants] arrives unchanged in both modules, the numbers of the
    connection-method class are those the constructor accepts and the getter returns,
    and an import that fails leaves [sys.modules] alone. *)
From S2P Require Import Prelude Floats Json Ingress Constants Channel Events Lidar Utf8 Security Ports.
From S2P Require Import Service Engine Connection Session PyJson AudioTransmit Callbacks Bridges.
#[local] Open Scope Z_scope.

(** ** Attributes *)
Inductive attribute :=
  | Item (x : item)
  | PyClass (name : string) (attrs : Dict)
  | Submodule (m : list (string * attribute)).
Abbreviation PyModule := (list (string * attribute)).
(** [PyModule::add]. *)
Fixpoint add (name : string) (v : attribute) (m : PyModule) : PyModule :=
  match m with
  | [] => [(name, v)]
  | (k, w) :: m => if seqb k name then (k, v) :: m else (k, w) :: add name v m
  end.
Fixpoint getattr (name : string) (m : PyModule) : option attribute :=
  match m with [] => None | (k, v) :: m => if seqb k name then Some v else getattr name m end.
Fixpoint dict_get (key : string) (d : Dict) : option item :=
  match d with [] => None | (k, v) :: d => if seqb k key then Some v else dict_get key d end.

(** ** constants.rs: the class attributes *)
Definition PyWebRTCConnectionMethod : Dict :=
  [("LocalAP", PyItemInt 1); ("LocalSTA", PyItemInt 2); ("Remote", PyItemInt 3)].
Definition PyVuiColor : Dict :=
  [("WHITE", PyItemStr "white"); ("RED", PyItemStr "red"); ("YELLOW", PyItemStr "yellow");
   ("BLUE", PyItemStr "blue"); ("GREEN", PyItemStr "green"); ("CYAN", PyItemStr "cyan");
   ("PURPLE", PyItemStr "purple")].

(** ** lib.rs *)
Definition table_dict {V} (f : V → item) (table : list (string * V)) : Dict :=
  foldl (λ d kv, set_item kv.1 (f kv.2) d) [] table.
Definition register_constants (m : PyModule) : PyModule :=
  let m := add "DATA_CHANNEL_TYPE" (Item (PyItemDict (table_dict PyItemStr data_channel_type))) m in
  let m := add "RTC_TOPIC" (Item (PyItemDict (table_dict PyItemStr rtc_topic))) m in
  let m := add "SPORT_CMD" (Item (PyItemDict (table_dict PyItemInt sport_cmd))) m in
  let m := add "AUDIO_API" (Item (PyItemDict (table_dict PyItemInt audio_api))) m in
  add "APP_ERROR_MESSAGES" (Item (PyItemDict (table_dict PyItemStr app_error_messages))) m.
Definition add_classes (m : PyModule) : PyModule :=
  let m := add "UnitreeWebRTCConnection" (PyClass "UnitreeWebRTCConnection" []) m in
  let m := add "WebRTCConnectionMethod" (PyClass "WebRTCConnectionMethod" PyWebRTCConnectionMethod) m in
  add "VUI_COLOR" (PyClass "VUI_COLOR" PyVuiColor) m.

(** The module's initialisation; [sys_modules] is [sys.modules]. *)
Definition unitree_webrtc_rs (has_been_set : bool) (log_init log : env_value) (filter_valid : string → bool)
    (sys_modules : PyModule) : result PyErr (PyModule * PyModule) :=
  _ ← init_tracing has_been_set log_init log filter_valid;
  let m := register_constants (add_classes []) in
  let driver_module := register_constants (add_classes []) in
  Ok (add "webrtc_driver" (Submodule driver_module) m,
      add "unitree_webrtc_rs.webrtc_driver" (Submodule driver_module) sys_modules).

(** ** The attributes of a connection object *)
Section connection_object.
Context {C : Type → Type} `{Chan C} {T : Type} `{DataChannelPort T}.

(** [PyUnitreeWebRTCConnection], its session and registry as [new_connection] returns
    them. *)
Record PyUnitreeWebRTCConnection := {
  arguments : ConnectionArguments;
  session : UnitreeSession C T;
  callback_registry : Callbacks;
}.
Implicit Types (c : PyUnitreeWebRTCConnection).

(** [UnitreeSession::is_connected]. *)
Definition session_is_connected (u : UnitreeSession C T) : bool :=
  Connection.is_connected (us_service u) && Service.is_open (us_datachannel u).

Definition py_connection_method c : Z := method_value (ca_method (arguments c)).
Definition py_is_connected c : bool := session_is_connected (session c).
Definition py_ip c : option string := ca_ip (arguments c).
Definition py_serial_number c : option string := ca_serial_number (arguments c).

(** The attributes of its [datachannel]. *)
Definition py_decoder_name (s : Service C T) : string := decoder_name s.
Definition py_ready_state (s : Service C T) : string := Ports.ready_state (transport s).
Definition py_is_open (s : Service C T) : bool := Service.is_open s.
Definition py_heartbeat_running (s : Service C T) : bool := heartbeat_running (link s).
Definition py_last_heartbeat_age_s (now_secs : Z) (s : Service C T) : option Z := last_heartbeat_age_s now_secs s.
End connection_object.

(** The sources of [play_from_file] and [play_from_url]. *)
Definition play_from_file (path : string) : AudioSource := File path.
Definition play_from_url (url : string) : AudioSource := Url url.

(** ** Lookups *)
Lemma getattr_add name v m n : getattr n (add name v m) = if seqb name n then Some v else getattr n m.
Proof.
  induction m as [|[k w] m IH]; simpl; [done|].
  destruct (seqb k name) eqn:Hk; simpl; [apply String.eqb_eq in Hk; subst; by destruct (seqb name n)|].
  rewrite IH. destruct (seqb k n) eqn:Hn; [|done]. apply String.eqb_eq in Hn. subst.
  unfold seqb in *. by rewrite (String.eqb_sym name), Hk.
Qed.
Lemma dict_get_set key x d k : dict_get k (set_item key x d) = if seqb key k then Some x else dict_get k d.
Proof.
  induction d as [|[k' y] d IH]; simpl; [done|].
  destruct (seqb k' key) eqn:Hk; simpl; [apply String.eqb_eq in Hk; subst; by destruct (seqb key k)|].
  rewrite IH. destruct (seqb k' k) eqn:Hn; [|done]. apply String.eqb_eq in Hn. subst.
  unfold seqb in *. by rewrite (String.eqb_sym key), Hk.
Qed.
Lemma key_seqb k k' : seqb k' k = match key_compare k k' with Eq => true | _ => false end.
Proof.
  destruct (key_compare k k') eqn:Hc.
  - apply key_compare_eq in Hc as ->. by apply String.eqb_eq.
  - apply String.eqb_neq. intros ->. by rewrite BTree.key_compare_refl in Hc.
  - apply String.eqb_neq. intros ->. by rewrite BTree.key_compare_refl in Hc.
Qed.
Lemma table_dict_get {V} (f : V → item) (table : list (string * V)) k :
  BTree.sorted table → dict_get k (table_dict f table) = f <$> BTree.get k table.
Proof.
  unfold table_dict.
  assert (∀ d, BTree.sorted table → dict_get k (foldl (λ d kv, set_item kv.1 (f kv.2) d) d table) =
    match BTree.get k table with Some v => Some (f v) | None => dict_get k d end) as Hg.
  { induction table as [|[k' v] table IH]; intros d; simpl; [done|]. intros [Hlt Hs].
    rewrite IH, dict_get_set, key_seqb by done.
    change (k ?= k')%string with (key_compare k k'). destruct (key_compare k k') eqn:Hc; [|done..].
    apply key_compare_eq in Hc as ->. by rewrite (BTree.lt_all_get _ _ Hlt). }
  intros Hs. rewrite Hg by done. by destruct (BTree.get k table).
Qed.

(** ** Theorems *)

(** A module has the table under a name, as a dictionary with the same entries. *)
Definition has_table {V} (f : V → item) (name : string) (table : list (string * V)) (m : PyModule) : Prop :=
  ∃ d, getattr name m = Some (Item (PyItemDict d)) ∧ ∀ k, dict_get k d = f <$> BTree.get k table.
(** It has the numbers of the connection methods: those the constructor accepts, and
    the getter of the connection returns what was given. *)
Definition has_methods (m : PyModule) : Prop :=
  ∃ attrs, getattr "WebRTCConnectionMethod" m = Some (PyClass "WebRTCConnectionMethod" attrs) ∧
    (∀ v, is_ok (try_from v) = true ↔ ∃ name, dict_get name attrs = Some (PyItemInt v)) ∧
    ∀ name v env_var serial ip username password key, dict_get name attrs = Some (PyItemInt v) →
      ∃ a, connection_arguments env_var v serial ip username password key None = Ok a ∧
        method_value (ca_method a) = v ∧ ca_ip a = ip ∧ ca_serial_number a = serial.
Definition exports (m : PyModule) : Prop :=
  has_table PyItemStr "DATA_CHANNEL_TYPE" data_channel_type m ∧
  has_table PyItemStr "RTC_TOPIC" rtc_topic m ∧
  has_table PyItemInt "SPORT_CMD" sport_cmd m ∧
  has_table PyItemInt "AUDIO_API" audio_api m ∧
  has_table PyItemStr "APP_ERROR_MESSAGES" app_error_messages m ∧
  has_methods m.

Lemma method_attributes name v :
  dict_get name PyWebRTCConnectionMethod = Some (PyItemInt v) → ∃ method, try_from v = Ok method ∧ v = method_value method.
Proof.
  unfold PyWebRTCConnectionMethod, dict_get.
  destruct (seqb "LocalAP" name); [intros [= <-]; by exists LocalAP|].
  destruct (seqb "LocalSTA" name); [intros [= <-]; by exists LocalSTA|].
  destruct (seqb "Remote" name); [intros [= <-]; by exists Remote|done].
Qed.
Lemma registered (types topics commands audio errors : Dict) :
  let m := add "APP_ERROR_MESSAGES" (Item (PyItemDict errors))
    (add "AUDIO_API" (Item (PyItemDict audio)) (add "SPORT_CMD" (Item (PyItemDict commands))
      (add "RTC_TOPIC" (Item (PyItemDict topics)) (add "DATA_CHANNEL_TYPE" (Item (PyItemDict types)) (add_classes []))))) in
  getattr "DATA_CHANNEL_TYPE" m = Some (Item (PyItemDict types)) ∧
  getattr "RTC_TOPIC" m = Some (Item (PyItemDict topics)) ∧
  getattr "SPORT_CMD" m = Some (Item (PyItemDict commands)) ∧
  getattr "AUDIO_API" m = Some (Item (PyItemDict audio)) ∧
  getattr "APP_ERROR_MESSAGES" m = Some (Item (PyItemDict errors)) ∧
  getattr "WebRTCConnectionMethod" m = Some (PyClass "WebRTCConnectionMethod" PyWebRTCConnectionMethod).
Proof. by repeat split. Qed.
Lemma has_sorted {V} (f : V → item) name (table : list (string * V)) m :
  BTree.sorted table → getattr name m = Some (Item (PyItemDict (table_dict f table))) → has_table f name table m.
Proof. intros Hs Hm. exists (table_dict f table). split; [done|]. intros k. by apply table_dict_get. Qed.
Lemma exports_methods m :
  getattr "WebRTCConnectionMethod" m = Some (PyClass "WebRTCConnectionMethod" PyWebRTCConnectionMethod) →
  has_methods m.
Proof.
  intros Hm. exists PyWebRTCConnectionMethod. split_and!; [done|..].
  - intros v. split.
    + destruct (try_from v) as [method|] eqn:Hv; [|done]. intros _. apply try_from_exact in Hv as ->.
      destruct method; [exists "LocalAP"|exists "LocalSTA"|exists "Remote"]; done.
    + intros [name Hn]. by destruct (method_attributes name v Hn) as (method & -> & _).
  - intros name v env_var serial ip username password key Hn.
    destruct (method_attributes name v Hn) as (method & Hv & ->).
    unfold connection_arguments. simpl. rewrite Hv. simpl. eexists. by split_and!.
Qed.
Lemma exports_constants : exports (register_constants (add_classes [])).
Proof.
  destruct (registered (table_dict PyItemStr data_channel_type) (table_dict PyItemStr rtc_topic)
    (table_dict PyItemInt sport_cmd) (table_dict PyItemInt audio_api) (table_dict PyItemStr app_error_messages))
    as (H1 & H2 & H3 & H4 & H5 & H6).
  split_and!; [apply has_sorted; [apply BTree.sorted_of_list|assumption]..|by apply exports_methods].
Qed.

Lemma exports_add v m : exports m → exports (add "webrtc_driver" v m).
Proof.
  assert (∀ V (f : V → item) name table, name ≠ "webrtc_driver" → has_table f name table m →
    has_table f name table (add "webrtc_driver" v m)) as Hadd.
  { intros V f name table Hne (d & Hd & Hk). exists d. split; [|done]. rewrite getattr_add.
    destruct (seqb "webrtc_driver" name) eqn:Hn; [by apply String.eqb_eq in Hn|done]. }
  intros (H1 & H2 & H3 & H4 & H5 & attrs & Ha & H6).
  split; [apply Hadd; [discriminate|exact H1]|]. split; [apply Hadd; [discriminate|exact H2]|].
  split; [apply Hadd; [discriminate|exact H3]|]. split; [apply Hadd; [discriminate|exact H4]|].
  split; [apply Hadd; [discriminate|exact H5]|]. exists attrs. split; [|exact H6]. by rewrite getattr_add.
Qed.

(** A successful import gives every table of the protocol, entry for entry, and the
    numbers of the connection methods, which are exactly those the constructor accepts
    and the connection then reports, in the module and in [webrtc_driver]; it adds the
    submodule to [sys.modules] and touches nothing else there. *)
Theorem module_exports has_been_set log_init log filter_valid sys_modules m sys_modules' :
  unitree_webrtc_rs has_been_set log_init log filter_valid sys_modules = Ok (m, sys_modules') →
  exports m ∧ ∃ driver, getattr "webrtc_driver" m = Some (Submodule driver) ∧ exports driver ∧
    ∀ n, getattr n sys_modules' =
      if seqb "unitree_webrtc_rs.webrtc_driver" n then Some (Submodule driver) else getattr n sys_modules.
Proof.
  unfold unitree_webrtc_rs. destruct (init_tracing _ _ _ _); [|done]. pose proof exports_constants as He.
  generalize dependent (register_constants (add_classes [])). intros d He [= <- <-].
  split; [by apply exports_add|]. exists d.
  split; [by rewrite getattr_add|]. split; [done|]. intros n. apply getattr_add.
Qed.
Lemma module_exports_witness :
  ∃ m sys_modules', unitree_webrtc_rs false NotPresent NotPresent (λ _, true) [] = Ok (m, sys_modules') ∧ exports m.
Proof.
  eexists _, _. split; [reflexivity|].
  refine (proj1 (module_exports false NotPresent NotPresent (λ _, true) [] _ _ _)). reflexivity.
Defined.
