(* ===== verification/PyRequest.v ===== *)
(** * A request from Python (src/src/interface/bridges/pubsub.rs to datachannel/core/service.rs)

    [publish] from end to end: the Python value is converted, put under the message's
    data and sent; the service runs on, whatever else arrives; the response is parsed,
    matched to its request and becomes Python objects again.  The theorem composes
    [Bridges], [Service], [Ingress] and [PyJson]; it rests on the ranges of the numbers
    serde_json hands to a visitor. *)
From S2P Require Import Prelude Floats Json Ingress Constants Channel Events Lidar Utf8 Security Ports.
From S2P Require Import Service ServiceProps PyJson Callbacks Bridges.
#[local] Open Scope Z_scope.

(** ** Parsed values are well formed *)

(** The visitor is called with an [i64], a [u64] or an [f64]. *)
Fixpoint doc_typed (d : json_doc) : Prop :=
  match d with
  | DI64 n => i64_min ≤ n ≤ i64_max
  | DU64 n => 0 ≤ n ≤ u64_max
  | DSeq l => foldr (λ x P, doc_typed x ∧ P) True l
  | DMap l => foldr (λ kx P, doc_typed kx.2 ∧ P) True l
  | _ => True
  end.
Class TypedReader `{JsonReader} : Prop := document_typed data : doc_typed (document data).

Lemma typed_seq l : doc_typed (DSeq l) ↔ Forall doc_typed l.
Proof. simpl. induction l as [|x l IH]; simpl; [done|]. by rewrite IH, Forall_cons. Qed.
Lemma typed_map l : doc_typed (DMap l) ↔ Forall (λ kx, doc_typed kx.2) l.
Proof. simpl. induction l as [|x l IH]; simpl; [done|]. by rewrite IH, Forall_cons. Qed.

Lemma seq_value_wf l : Forall (λ d, ∀ v, doc_typed d → doc_value d = Some v → value_wf v) l →
  ∀ vs, Forall doc_typed l → seq_value l = Some vs → Forall value_wf vs.
Proof.
  unfold seq_value. induction 1 as [|d l Hd _ IH]; intros vs Ht; simpl; [by intros [= <-]|].
  apply Forall_cons in Ht as [Htd Ht]. destruct (doc_value d) as [v|] eqn:Hv; [|done].
  simpl. destruct (foldr _ _ l) as [ws|]; [|done]. simpl. intros [= <-]. constructor; eauto.
Qed.
Lemma map_value_wf l : Forall (λ kx : string * json_doc, ∀ v, doc_typed kx.2 → doc_value kx.2 = Some v → value_wf v) l →
  ∀ kvs, Forall (λ kx, doc_typed kx.2) l → map_value l = Some kvs → Forall (λ kv, value_wf kv.2) kvs.
Proof.
  unfold map_value. induction 1 as [|[k d] l Hd _ IH]; intros vs Ht; simpl; [by intros [= <-]|].
  apply Forall_cons in Ht as [Htd Ht]. simpl in *. destruct (doc_value d) as [v|] eqn:Hv; [|done].
  simpl. destruct (foldr _ _ l) as [ws|]; [|done]. simpl. intros [= <-]. constructor; simpl; eauto.
Qed.
Lemma inserted_wf k v (m : list (string * value)) :
  value_wf v → Forall (λ kv, value_wf kv.2) m → Forall (λ kv, value_wf kv.2) (BTree.insert k v m).
Proof.
  intros Hv. induction 1 as [|[k' v'] m Hv' Hm IH]; simpl; [by repeat constructor|].
  destruct (k ?= k')%string; repeat (constructor; [done|]); done.
Qed.
Lemma of_list_wf (l : list (string * value)) :
  Forall (λ kv, value_wf kv.2) l → Forall (λ kv, value_wf kv.2) (BTree.of_list l).
Proof.
  unfold BTree.of_list. assert (∀ m : list (string * value), Forall (λ kv, value_wf kv.2) m →
    Forall (λ kv, value_wf kv.2) l → Forall (λ kv, value_wf kv.2) (foldl (λ m kv, BTree.insert kv.1 kv.2 m) m l)) as Hg.
  { induction l as [|[k v] l IH]; intros m Hm; simpl; [done|]. intros [Hv Hl]%Forall_cons.
    apply IH; [by apply inserted_wf|done]. }
  by apply Hg.
Qed.
Lemma doc_value_wf d : ∀ v, doc_typed d → doc_value d = Some v → value_wf v.
Proof.
  induction d as [|b|n|n|x|s|l IH|l IH|] using doc_ind'; intros v Ht.
  - by intros [= <-].
  - by intros [= <-].
  - intros [= <-]. simpl in *. unfold num_of_i64. destruct (0 <=? n) eqn:Hn; simpl; unfold i64_min, i64_max, u64_max in *; lia.
  - by intros [= <-].
  - simpl. destruct (is_finite x) eqn:Hx; [|done]. by intros [= <-].
  - by intros [= <-].
  - apply typed_seq in Ht. simpl. fold (seq_value l). destruct (seq_value l) as [vs|] eqn:Hvs; [|done].
    intros [= <-]. apply value_wf_array. by eapply seq_value_wf.
  - apply typed_map in Ht. simpl. fold (map_value l). destruct (map_value l) as [kvs|] eqn:Hk; [|done].
    intros [= <-]. apply value_wf_object. split; [apply BTree.sorted_of_list|].
    by eapply of_list_wf, map_value_wf.
  - done.
Qed.
Lemma parse_json_wf `{TypedReader} data v : parse_json data = Ok v → value_wf v.
Proof.
  unfold parse_json. destruct (_ <? len data); [done|].
  destruct (admission 0 (document data) Ingress.MAX_JSON_NODES) as [[u rem]|] eqn:Ha; [|done]. simpl.
  destruct (document_end data); [|done]. intros [= <-].
  apply admit_iff in Ha as (Hv & _); [|done..].
  exact (doc_value_wf _ _ (document_typed data) Hv).
Qed.

(** ** The request *)
Section request.
Context {C : Type → Type} `{Chan C} `{Layout} `{TypedReader} `{SerdeJson} `{Crypto}.
Context {T : Type} `{DataChannelPort T}.
Implicit Types (s : Service C T).

(** The message that was sent for [topic] with [data]. *)
Definition request_message (ty topic : string) (data : option value) : value :=
  let message := obj [("type", JString ty); ("topic", JString topic)] in
  match data with Some d => set_key message "data" d | None => message end.
Lemma publish_begin_sends topic data ty timeout exp now s call s1 :
  publish_begin topic data ty timeout exp now s = (Ok call, s1) →
  ∃ text, json_to_string (request_message (default types.msg ty) topic data) = Ok text ∧
    send_text text (transport s) = (Ok (), transport s1).
Proof.
  unfold publish_begin. destruct (validated_timeout _ now); [|done]. destruct (negb _); [done|].
  set (key := generate_message_key _ _ _). destruct (pending_callbacks _ !! key); [done|].
  destruct (MAX_PENDING_REQUESTS <=? _); [done|]. unfold send_message_locked.
  destruct (negb _); [done|]. unfold request_message.
  destruct (json_to_string _) as [text|]; [|done]. simpl.
  destruct (send_text text (transport s)) as [[[]|e] t] eqn:Hs; [|done]. simpl.
  intros [= <- <-]. by exists text.
Qed.

(** What the message answers: the request under its key, in the current session. *)
Lemma response_answers message e s text parsed key cb :
  req_inv (abs s) →
  im_generation message = session_id s → im_payload message = Text text →
  parse_json (as_bytes text) = Ok parsed → is_Some (get parsed "type") → chunk_location parsed = None →
  incoming_key parsed = key → pending_callbacks (requests s) !! key = Some cb → expectation cb = any_response →
  replies (requests (process_ingress message e s)) !! token cb = Some (Ok parsed).
Proof.
  intros Hi Hg Hp Hj [ty Hty] Hc Hkey Hk He.
  assert (get parsed "type" ≠ None) as Hne by congruence.
  rewrite (text_response_correlated message e s text parsed Hg Hp Hj Hne Hc), Hkey, Hk.
  destruct (ri_pending _ Hi key cb Hk) as (Hs & _). simpl in *.
  unfold answer. rewrite Hs, Z.eqb_refl, He. simpl. by rewrite lookup_insert_eq.
Qed.

(** C20: a request from Python, end to end: what is sent is the JSON text of the message
    with exactly the value of the Python object; and when, after anything else the
    service did, a response under the key of the request arrives while it is pending,
    then, whatever happens next, the future returns Python objects that read back as
    exactly the response, and no other object has changed. *)
Theorem python_request_answered h topic data ty timeout now later s call s1 l message e text parsed cb :
  req_inv (abs s) →
  py_publish_call h topic data ty timeout now later s = (Ok call, s1) →
  let s2 := svc_run l s1 in
  pending_callbacks (requests s2) !! call_key call = Some cb → token cb = call_token call →
  im_generation message = session_id s2 → im_payload message = Text text →
  parse_json (as_bytes text) = Ok parsed → is_Some (get parsed "type") → chunk_location parsed = None →
  incoming_key parsed = call_key call →
  (∃ v wire, convert_optional h data = Ok v ∧
     json_to_string (request_message (default types.msg ty) topic v) = Ok wire ∧
     send_text wire (transport s) = (Ok (), transport s1)) ∧
  ∀ l' now' h', ∃ object h'',
    match publish_poll call now' (svc_run l' (process_ingress message e s2)) with
    | Some r => py_response r h' = Ok (object, h'')
    | None => False
    end ∧ reads_back parsed h' object h''.
Proof.
  intros Hi Hcall s2 Hk Htok Hg Hp Hj Hty Hc Hkey. unfold py_publish_call in Hcall.
  destruct (py_publish h topic data ty timeout now) as [f|] eqn:Hf; [|done].
  unfold py_publish in Hf. destruct (map_err _ _) as [d|]; [|done]. simpl in Hf.
  destruct (convert_optional h data) as [v|]; [|done]. injection Hf as <-.
  unfold start_publish in Hcall.
  destruct (publish_begin topic v ty (Some timeout) any_response later s) as [r s1'] eqn:Hb.
  destruct r as [call'|]; [|done]. injection Hcall as -> ->.
  destruct (publish_begin_sends _ _ _ _ _ _ _ _ _ Hb) as (wire & Hw & Hs).
  split; [by exists v, wire|]. intros l' now' h'.
  pose proof (publish_begin_steps topic v ty (Some timeout) any_response later s) as Hst. rewrite Hb in Hst.
  assert (req_inv (abs s2)) as Hi2.
  { eapply req_steps_inv; [apply svc_run_refines|]. by eapply req_steps_inv. }
  assert (expectation cb = any_response) as He.
  { destruct (request_expected _ _ _ _ _ _ _ _ _ l Hi Hb) as (Hx & _). by eapply Hx. }
  pose proof (response_answers message e s2 text parsed _ cb Hi2 Hg Hp Hj Hty Hc Hkey Hk He) as Hr.
  rewrite Htok in Hr.
  assert (req_inv (abs (process_ingress message e s2))) as Hi3.
  { eapply req_steps_inv; [apply process_ingress_steps|done]. }
  assert (replies (requests (svc_run l' (process_ingress message e s2))) !! call_token call = Some (Ok parsed)) as Hr'.
  { by apply svc_run_stable. }
  unfold publish_poll. rewrite Hr'. simpl.
  exists (json_value_to_py parsed h').1, (json_value_to_py parsed h').2.
  split; [unfold py_response; simpl; by destruct (json_value_to_py parsed h')|]. by apply json_reads_back, (parse_json_wf (as_bytes text)).
Qed.
End request.

(** ** An execution: a list is published, the robot answers *)
#[local] Existing Instances toy_data_channel toy_json toy_reader toy_cipher toy_layout.
#[local] Instance toy_typed : TypedReader.
Proof. intros data. unfold document, toy_reader. repeat case_match; by repeat split. Qed.
Definition demo_objects : Store := [PyInt 7; PyList [0%nat]].
Definition demo_request : result PyErr PublishCall * Service vec_chan toy_port :=
  py_publish_call demo_objects "rt/x" (Some 1%nat) None (F64.of_Z 10) 0 0 toy_start.
Lemma python_request_answered_witness :
  ∃ object h'', py_response (Ok toy_message) [] = Ok (object, h'') ∧ reads_back toy_message [] object h''.
Proof.
  destruct (python_request_answered demo_objects "rt/x" (Some 1%nat) None (F64.of_Z 10) 0 0 toy_start toy_call
    demo_request.2 [] (toy_text "m") toy_env "m" toy_message toy_callback) as [_ Hw];
    [apply toy_start_inv|vm_compute; reflexivity|vm_compute; reflexivity|vm_compute; reflexivity|
     vm_compute; reflexivity|vm_compute; reflexivity|vm_compute; reflexivity|by eexists|
     vm_compute; reflexivity|vm_compute; reflexivity|].
  destruct (Hw [] 0 []) as (object & h'' & Hp & Hr). exists object, h''. split; [|exact Hr].
  assert (publish_poll toy_call 0 (svc_run [] (process_ingress (toy_text "m") toy_env (svc_run [] demo_request.2)))
    = Some (Ok toy_message)) as Heq by (vm_compute; reflexivity).
  rewrite Heq in Hp. exact Hp.
Defined.
