(* ===== verification/Peer.v ===== *)
(** * Peer resources (src/src/infrastructure/rtc_engine/setup.rs, engine.rs)

    What a prepared peer owns and how it is given back: [PeerResources] with the
    media tasks its tracks spawn, [prepare_offer] and [close_inner] from one await to
    the next, and [CloseTask], whose stored handle finishes a close although its
    waiter was cancelled.  (The ready state, the command queue and the generations
    are in [Engine], where preparing and closing are one operation each.)  The engine
    is driven by one caller at a time, the holder of the session gate, who may be
    cancelled at every await; tracks arrive and tasks end at any time.  The theorems:
    never are two peers open, nothing a closed peer does starts a task, and when a
    close returns everything that was ever started has ended. *)
From S2P Require Import Prelude Json Engine.
#[local] Open Scope Z_scope.

(** A spawned task: aborting it is a request. *)
Inductive task_status := TRunning | TAborted | TEnded.
#[export] Instance task_status_eq_dec : EqDecision task_status.
Proof. solve_decision. Defined.
Definition abort_status (s : task_status) : task_status :=
  match s with TRunning => TAborted | s => s end.

(** A peer connection: whether it is open, and the handles of its media tasks,
    [None] once they were taken. *)
Record PeerConnection := { pc_open : bool; media : option (list nat) }.
(** [PeerResources]: its peer, and the abort handle of its command task. *)
Record PeerResources := { rs_peer : nat; command : option nat }.
#[export] Instance PeerResources_eq_dec : EqDecision PeerResources.
Proof. solve_decision. Defined.

(** Where [close_inner] is. *)
Inductive close_pc :=
  | CloseStart
  | AwaitCommand (c : nat)
  | ClearTrack
  | AwaitMedia (r : PeerResources) (tasks : list nat)
  | ClosePeer (r : PeerResources)
  | TakeChannel (peer_owned : bool)
  | CloseChannel (peer_owned : bool)
  | TakeConnection (peer_owned : bool)
  | CloseConnection (p : nat)
  | CloseDone.
#[export] Instance close_pc_eq_dec : EqDecision close_pc.
Proof. solve_decision. Defined.
(** Where the caller is: in [close], or in [prepare_offer] (closing first, creating
    the peer, setting it up, storing it, making the offer, rolling back). *)
Inductive driver_pc :=
  | DClose
  | DPrepClose
  | DCreate
  | DSetup (p : nat)
  | DStorePeer (p : nat) | DStoreChannel (p : nat) | DStoreTrack (p : nat)
  | DOffer (p : nat)
  | DRollback (e : string).

Record Engine := {
  connections : list PeerConnection;
  media_tasks : list (nat * task_status);     (* with the peer whose track it reads *)
  command_tasks : list task_status;
  peer_resources : option PeerResources;
  peer_connection : option nat;
  data_channel : option nat;
  audio_track : option nat;
  command_task : option nat;
  close_task : option close_pc;
  driver : option driver_pc;
  dropped : list nat;       (* peers whose resources were dropped, not closed *)
}.
Implicit Types (e : Engine).

Definition with_connections (l : list PeerConnection) e : Engine :=
  {| connections := l; media_tasks := media_tasks e; command_tasks := command_tasks e;
     peer_resources := peer_resources e; peer_connection := peer_connection e;
     data_channel := data_channel e; audio_track := audio_track e; command_task := command_task e;
     close_task := close_task e; driver := driver e; dropped := dropped e |}.
Definition with_media (l : list (nat * task_status)) e : Engine :=
  {| connections := connections e; media_tasks := l; command_tasks := command_tasks e;
     peer_resources := peer_resources e; peer_connection := peer_connection e;
     data_channel := data_channel e; audio_track := audio_track e; command_task := command_task e;
     close_task := close_task e; driver := driver e; dropped := dropped e |}.
Definition with_commands (l : list task_status) (c : option nat) e : Engine :=
  {| connections := connections e; media_tasks := media_tasks e; command_tasks := l;
     peer_resources := peer_resources e; peer_connection := peer_connection e;
     data_channel := data_channel e; audio_track := audio_track e; command_task := c;
     close_task := close_task e; driver := driver e; dropped := dropped e |}.
Definition with_resources (r : option PeerResources) e : Engine :=
  {| connections := connections e; media_tasks := media_tasks e; command_tasks := command_tasks e;
     peer_resources := r; peer_connection := peer_connection e;
     data_channel := data_channel e; audio_track := audio_track e; command_task := command_task e;
     close_task := close_task e; driver := driver e; dropped := dropped e |}.
Definition with_stored (p c t : option nat) e : Engine :=
  {| connections := connections e; media_tasks := media_tasks e; command_tasks := command_tasks e;
     peer_resources := peer_resources e; peer_connection := p; data_channel := c; audio_track := t;
     command_task := command_task e; close_task := close_task e; driver := driver e;
     dropped := dropped e |}.
Definition with_close (c : option close_pc) e : Engine :=
  {| connections := connections e; media_tasks := media_tasks e; command_tasks := command_tasks e;
     peer_resources := peer_resources e; peer_connection := peer_connection e;
     data_channel := data_channel e; audio_track := audio_track e; command_task := command_task e;
     close_task := c; driver := driver e; dropped := dropped e |}.
Definition with_driver (d : option driver_pc) e : Engine :=
  {| connections := connections e; media_tasks := media_tasks e; command_tasks := command_tasks e;
     peer_resources := peer_resources e; peer_connection := peer_connection e;
     data_channel := data_channel e; audio_track := audio_track e; command_task := command_task e;
     close_task := close_task e; driver := d; dropped := dropped e |}.
Definition with_dropped (l : list nat) e : Engine :=
  {| connections := connections e; media_tasks := media_tasks e; command_tasks := command_tasks e;
     peer_resources := peer_resources e; peer_connection := peer_connection e;
     data_channel := data_channel e; audio_track := audio_track e; command_task := command_task e;
     close_task := close_task e; driver := driver e; dropped := l |}.

Definition new_engine : Engine :=
  {| connections := []; media_tasks := []; command_tasks := []; peer_resources := None;
     peer_connection := None; data_channel := None; audio_track := None; command_task := None;
     close_task := None; driver := None; dropped := [] |}.

(** ** Handles *)
Definition abort_media (l : list nat) e : Engine :=
  with_media (imap (λ i t, if bool_decide (i ∈ l) then (t.1, abort_status t.2) else t)
                (media_tasks e)) e.
Definition abort_command (c : option nat) e : Engine :=
  match c with
  | Some c => with_commands (alter abort_status c (command_tasks e)) (command_task e) e
  | None => e
  end.
Definition media_finished e (t : nat) : bool :=
  match media_tasks e !! t with Some (_, TEnded) | None => true | _ => false end.
Definition command_finished e (c : nat) : bool :=
  match command_tasks e !! c with Some TEnded | None => true | _ => false end.
Definition set_media (m : option (list nat)) (c : PeerConnection) : PeerConnection :=
  {| pc_open := pc_open c; media := m |}.
Definition set_closed (c : PeerConnection) : PeerConnection :=
  {| pc_open := false; media := media c |}.
(** [media.lock().unwrap().take()]. *)
Definition taken_media (p : nat) e : list nat := default [] (connections e !! p ≫= media).
Definition take_media (p : nat) e : Engine :=
  with_connections (alter (set_media None) p (connections e)) e.

(** [PeerResources::drop] of resources that still have their peer. *)
Definition drop_resources (r : PeerResources) e : Engine :=
  let e := abort_command (command r) e in
  let tasks := taken_media (rs_peer r) e in
  with_dropped (rs_peer r :: dropped e) (abort_media tasks (take_media (rs_peer r) e)).
(** [PeerResources::register]. *)
Definition register (p : nat) e : Engine :=
  let e := match peer_resources e with Some old => drop_resources old e | None => e end in
  with_resources (Some {| rs_peer := p; command := None |}) e.

(** ** Tracks: the [on_track] handler of peer [p]. *)
Definition on_track (p : nat) (kind : RTPCodecType) (codec : RTCRtpCodecCapability) e : Engine :=
  if negb (supported_codec kind codec) then e else
  match connections e !! p ≫= media with
  | None => e
  | Some tasks =>
      let tasks := filter (λ t, media_finished e t = false) tasks in
      match kind with
      | Video | Audio =>
          with_media (media_tasks e ++ [(p, TRunning)])
            (with_connections
               (alter (set_media (Some (tasks ++ [length (media_tasks e)]))) p (connections e)) e)
      | CodecUnspecified =>
          with_connections (alter (set_media (Some tasks)) p (connections e)) e
      end
  end.

(** ** [close_inner], one await at a time; [ready]: the webrtc call it waits for has
    returned. *)
Definition close_step (ready : bool) (c : close_pc) e : Engine :=
  match c with
  | CloseStart =>
      match command_task e with
      | Some t => with_close (Some (AwaitCommand t)) (with_commands (alter abort_status t (command_tasks e)) None e)
      | None => with_close (Some ClearTrack) e
      end
  | AwaitCommand t => if command_finished e t then with_close (Some ClearTrack) e else e
  | ClearTrack =>
      let e := with_stored (peer_connection e) (data_channel e) None e in
      match peer_resources e with
      | Some r =>
          let tasks := taken_media (rs_peer r) e in
          with_close (Some (AwaitMedia r tasks))
            (abort_media tasks (take_media (rs_peer r) (with_resources None e)))
      | None => with_close (Some (TakeChannel false)) e
      end
  | AwaitMedia r tasks =>
      match tasks with
      | [] => with_close (Some (ClosePeer r)) e
      | t :: tasks => if media_finished e t then with_close (Some (AwaitMedia r tasks)) e else e
      end
  | ClosePeer r =>
      if ready
      then with_close (Some (TakeChannel true))
             (abort_command (command r)
                (with_connections (alter set_closed (rs_peer r) (connections e)) e))
      else e
  | TakeChannel owned =>
      let channel := data_channel e in
      let e := with_stored (peer_connection e) None (audio_track e) e in
      with_close (Some (match channel with
                        | Some _ => if owned then TakeConnection owned else CloseChannel owned
                        | None => TakeConnection owned
                        end)) e
  | CloseChannel owned => if ready then with_close (Some (TakeConnection owned)) e else e
  | TakeConnection owned =>
      let connection := peer_connection e in
      let e := with_stored None (data_channel e) (audio_track e) e in
      with_close (Some (match connection with
                        | Some p => if owned then CloseDone else CloseConnection p
                        | None => CloseDone
                        end)) e
  | CloseConnection p =>
      if ready then with_close (Some CloseDone)
                      (with_connections (alter set_closed p (connections e)) e) else e
  | CloseDone => e
  end.

(** ** The caller *)

(** A poll of [CloseTask::run]: whether the close it waits for has finished. *)
Definition close_poll e : bool * Engine :=
  match close_task e with
  | None => (false, with_close (Some CloseStart) e)
  | Some CloseDone => (true, with_close None e)
  | Some _ => (false, e)
  end.

(** A poll of the caller; [outcome]: how the webrtc calls it waits for have ended,
    if they have; the result if the operation returns. *)
Definition driver_poll (outcome : option (PortResult ())) (d : driver_pc) e :
    option (PortResult ()) * Engine :=
  let go d e := (None, with_driver (Some d) e) in
  match d with
  | DClose => match close_poll e with (true, e) => (Some (Ok ()), with_driver None e) | (false, e) => go DClose e end
  | DPrepClose => match close_poll e with (true, e) => go DCreate e | (false, e) => go DPrepClose e end
  | DCreate =>
      match outcome with
      | None => (None, e)
      | Some (Err error) => go (DRollback error) e
      | Some (Ok _) =>
          let p := length (connections e) in
          go (DSetup p)
            (register p (with_connections (connections e ++ [{| pc_open := true; media := Some [] |}]) e))
      end
  | DSetup p =>
      match outcome with
      | None => (None, e)
      | Some (Err error) => go (DRollback error) e
      | Some (Ok _) => go (DStorePeer p) e
      end
  | DStorePeer p => go (DStoreChannel p) (with_stored (Some p) (data_channel e) (audio_track e) e)
  | DStoreChannel p => go (DStoreTrack p) (with_stored (peer_connection e) (Some p) (audio_track e) e)
  | DStoreTrack p =>
      let e := with_stored (peer_connection e) (data_channel e) (Some p) e in
      let task := length (command_tasks e) in
      match peer_resources e with
      | Some r =>
          let e := with_resources (Some {| rs_peer := rs_peer r; command := Some task |}) e in
          let e := abort_command (command_task e) e in
          go (DOffer p) (with_commands (command_tasks e ++ [TRunning]) (Some task) e)
      | None =>
          go (DRollback "Peer closed while preparing offer")
            (with_commands (command_tasks e ++ [TAborted]) (command_task e) e)
      end
  | DOffer p =>
      match outcome with
      | None => (None, e)
      | Some (Err error) => go (DRollback error) e
      | Some (Ok _) => (Some (Ok ()), with_driver None e)
      end
  | DRollback error =>
      match close_poll e with
      | (true, e) => (Some (Err error), with_driver None e)
      | (false, e) => go (DRollback error) e
      end
  end.

(** Everything that happens to an engine. *)
Inductive engine_op :=
  | StartClose | StartPrepare
  | PollDriver (outcome : option (PortResult ()))
  | CancelDriver
  | CloseStep (ready : bool)
  | Track (p : nat) (kind : RTPCodecType) (codec : RTCRtpCodecCapability)
  | MediaEnds (t : nat)
  | CommandEnds (c : nat).
Definition engine_step (o : engine_op) e : Engine :=
  match o with
  | StartClose => match driver e with None => with_driver (Some DClose) e | Some _ => e end
  | StartPrepare => match driver e with None => with_driver (Some DPrepClose) e | Some _ => e end
  | PollDriver outcome => match driver e with Some d => (driver_poll outcome d e).2 | None => e end
  | CancelDriver => with_driver None e
  | CloseStep ready => match close_task e with Some c => close_step ready c e | None => e end
  | Track p kind codec => on_track p kind codec e
  | MediaEnds t => with_media (alter (λ m, (m.1, TEnded)) t (media_tasks e)) e
  | CommandEnds c => with_commands (alter (λ _, TEnded) c (command_tasks e)) (command_task e) e
  end.
Definition engine_run (l : list engine_op) e : Engine := foldl (λ e o, engine_step o e) e l.

(** ** The invariant *)

(** The resources a close has taken and not yet finished, with the tasks it still
    waits for. *)
Definition closing (c : option close_pc) : option (PeerResources * list nat) :=
  match c with
  | Some (AwaitMedia r tasks) => Some (r, tasks)
  | Some (ClosePeer r) => Some (r, [])
  | _ => None
  end.
(** How far it has come. *)
Definition stage (c : option close_pc) : nat :=
  match c with
  | None | Some CloseStart => 0
  | Some (AwaitCommand _) | Some ClearTrack => 1
  | Some (AwaitMedia _ _) | Some (ClosePeer _) | Some (TakeChannel _) => 2
  | Some (CloseChannel _) | Some (TakeConnection _) => 3
  | Some (CloseConnection _) | Some CloseDone => 4
  end.
Definition owns e (p : nat) : Prop := ∃ r, peer_resources e = Some r ∧ rs_peer r = p.
Definition has_media e (p : nat) (tasks : list nat) : Prop :=
  ∃ c, connections e !! p = Some c ∧ media c = Some tasks.
Definition driver_ok e : Prop :=
  match driver e with
  | Some DCreate => close_task e = None ∧ peer_resources e = None ∧ command_task e = None
  | Some (DSetup p) | Some (DStorePeer p) | Some (DStoreChannel p) | Some (DStoreTrack p) =>
      close_task e = None ∧ owns e p ∧ command_task e = None
  | Some (DOffer p) => close_task e = None
  | _ => True
  end.
Record engine_inv e : Prop := {
  en_dropped : dropped e = [];
  en_open : ∀ p c, connections e !! p = Some c → pc_open c = true →
    owns e p ∨ ∃ r l, closing (close_task e) = Some (r, l) ∧ rs_peer r = p;
  en_media : ∀ p l, has_media e p l → owns e p;
  en_tasks : ∀ t p s, media_tasks e !! t = Some (p, s) → s ≠ TEnded →
    (∃ l, has_media e p l ∧ t ∈ l) ∨ ∃ r l, closing (close_task e) = Some (r, l) ∧ t ∈ l;
  en_commands : ∀ c s, command_tasks e !! c = Some s → s ≠ TEnded →
    command_task e = Some c ∨ close_task e = Some (AwaitCommand c);
  en_driver : driver_ok e;
  en_stage1 : (1 ≤ stage (close_task e))%nat → command_task e = None;
  en_stage2 : (2 ≤ stage (close_task e))%nat → peer_resources e = None ∧ audio_track e = None;
  en_stage3 : (3 ≤ stage (close_task e))%nat → data_channel e = None;
  en_stage4 : (4 ≤ stage (close_task e))%nat → peer_connection e = None;
}.

(** Nothing is left. *)
Record clean e : Prop := {
  cl_connections : Forall (λ c, pc_open c = false ∧ media c = None) (connections e);
  cl_media : Forall (λ m, m.2 = TEnded) (media_tasks e);
  cl_commands : Forall (λ s, s = TEnded) (command_tasks e);
  cl_resources : peer_resources e = None;
  cl_stored : peer_connection e = None ∧ data_channel e = None ∧ audio_track e = None ∧ command_task e = None;
}.
Lemma done_clean e : engine_inv e → close_task e = Some CloseDone → clean e.
Proof.
  intros [Hd Ho Hm Ht Hc Hdr H1 H2 H3 H4] Hdone. rewrite Hdone in *. simpl in *.
  destruct H2 as [Hr Ha]; [lia|]. specialize (H1 ltac:(lia)). specialize (H3 ltac:(lia)). specialize (H4 ltac:(lia)).
  assert (∀ p, ¬ owns e p) as Hno by (intros p (r & Hr' & _); congruence).
  split; [..|done|done]; apply Forall_forall.
  - intros c [p Hp]%list_elem_of_lookup. split.
    + destruct (pc_open c) eqn:Hop; [|done]. destruct (Ho _ _ Hp Hop) as [Hw|(r & l & ? & _)]; [|done].
      by destruct (Hno p).
    + destruct (media c) as [l|] eqn:Hmc; [|done]. destruct (Hno p). apply (Hm p l). by exists c.
  - intros [p s] [t Hlk]%list_elem_of_lookup. simpl. destruct (decide (s = TEnded)) as [|Hne]; [done|].
    destruct (Ht _ _ _ Hlk Hne) as [(l & Hml & _)|(r & l & ? & _)]; [|done].
    destruct (Hno p). by apply (Hm p l).
  - intros s [c Hlk]%list_elem_of_lookup. destruct (decide (s = TEnded)) as [|Hne]; [done|].
    destruct (Hc _ _ Hlk Hne); congruence.
Qed.

Lemma fresh_engine_inv : engine_inv new_engine.
Proof. split; simpl; try done; intros; try lia; unfold has_media in *; naive_solver. Qed.

(** Only the caller moves. *)
Lemma with_driver_inv d e :
  engine_inv e → driver_ok (with_driver d e) → engine_inv (with_driver d e).
Proof. intros [] Hd. by split. Qed.
Lemma driver_ok_idle d e :
  match d with Some DClose | Some DPrepClose | Some (DRollback _) | None => True | _ => False end →
  driver_ok (with_driver d e).
Proof. unfold driver_ok. simpl. by destruct d as [[]|]. Qed.

(** A close begins, or its end is observed. *)
Lemma close_poll_inv e :
  engine_inv e → (∀ d, driver e = Some d → match d with DClose | DPrepClose | DRollback _ => True | _ => False end) →
  engine_inv (close_poll e).2 ∧
  ((close_poll e).1 = true → clean (close_poll e).2 ∧ close_task (close_poll e).2 = None).
Proof.
  intros Hi Hd. pose proof Hi as [Hdr Ho Hm Ht Hc Hdok H1 H2 H3 H4].
  assert (∀ c, driver_ok (with_close c e)) as Hdok'.
  { intros c. unfold driver_ok. simpl. destruct (driver e) as [d|]; [|done].
    specialize (Hd d eq_refl). by destruct d. }
  unfold close_poll. destruct (close_task e) as [[]|] eqn:Hct; try done.
  - pose proof (done_clean e Hi Hct) as [Hx1 Hx2 Hx3 Hx4 Hx5]. simpl. split; [|done].
    rewrite ?Hct in *. split; simpl; try done; try lia; auto.
    intros c s Hlk Hs. destruct (Hc c s Hlk Hs); [by left|done].
  - simpl. split; [|done]. split; simpl; try done; try lia; auto.
    intros c s Hlk Hs. destruct (Hc c s Hlk Hs); [by left|done].
Qed.

(** ** Lookups through the operations *)
Lemma alter_lookup_Some {A} (f : A → A) (l : list A) (i j : nat) x :
  alter f i l !! j = Some x → ∃ y, l !! j = Some y ∧ x = if decide (i = j) then f y else y.
Proof.
  intros Hx. destruct (decide (i = j)) as [->|Hne].
  - rewrite list_lookup_alter_eq in Hx. destruct (l !! j) as [y|]; simplify_eq/=. eauto.
  - rewrite list_lookup_alter_ne in Hx by done. eauto.
Qed.
Lemma abort_media_lookup l e t :
  media_tasks (abort_media l e) !! t =
  (λ m : nat * task_status, (m.1, if bool_decide (t ∈ l) then abort_status m.2 else m.2)) <$> media_tasks e !! t.
Proof.
  simpl. rewrite list_lookup_imap. destruct (media_tasks e !! t) as [[p s]|]; [|done]. simpl.
  by case_bool_decide.
Qed.
Lemma abort_status_ended s : abort_status s ≠ TEnded → s ≠ TEnded.
Proof. by destruct s. Qed.
Lemma abort_command_lookup c e i s :
  command_tasks (abort_command c e) !! i = Some s → s ≠ TEnded →
  ∃ s', command_tasks e !! i = Some s' ∧ s' ≠ TEnded.
Proof.
  destruct c as [c|]; simpl; [|eauto]. intros Hlk Hs. apply alter_lookup_Some in Hlk.
  destruct Hlk as (s' & Hlk & ->). exists s'. split; [done|].
  case_decide; [by apply abort_status_ended|done].
Qed.
Lemma taken_media_spec p e l : has_media e p l → taken_media p e = l.
Proof. intros (c & Hc & Hm). unfold taken_media. rewrite Hc. simpl. by rewrite Hm. Qed.

(** ** One operation at a time *)

(** Operations that leave the resources and the close alone and only end, abort or
    forget tasks. *)
Lemma on_track_inv p kind codec e : engine_inv e → engine_inv (on_track p kind codec e).
Proof.
  intros Hi. unfold on_track. destruct (supported_codec kind codec) eqn:Hs; [|done]. simpl.
  destruct (connections e !! p ≫= media) as [tasks|] eqn:Hm; [|done].
  apply bind_Some in Hm as (c & Hc & Hm).
  set (kept := filter _ tasks).
  assert (∀ new e', connections e' = alter (set_media (Some (kept ++ new))) p (connections e) →
    dropped e' = dropped e → peer_resources e' = peer_resources e → close_task e' = close_task e →
    command_tasks e' = command_tasks e → command_task e' = command_task e → driver e' = driver e →
    audio_track e' = audio_track e → data_channel e' = data_channel e →
    peer_connection e' = peer_connection e →
    (∀ t q s, media_tasks e' !! t = Some (q, s) → media_tasks e !! t = Some (q, s) ∨ (q = p ∧ t ∈ new)) →
    engine_inv e') as Hgen.
  { destruct Hi as [Hd Ho Hme Ht Hcm Hdr H1 H2 H3 H4].
    intros new e' Ec Ed Er Ek Ects Ect Edr Ea Edc Epc Hmt.
    assert (∀ q l, has_media e' q l → if decide (p = q) then l = kept ++ new ∧ has_media e q tasks else has_media e q l) as Hmedia.
    { intros q l (c' & Hc' & Hl). rewrite Ec in Hc'. apply alter_lookup_Some in Hc' as (c'' & Hc'' & ->).
      case_decide as Hpq; [|by exists c'']. subst q. simpl in Hl. injection Hl as <-.
      split; [done|]. by exists c. }
    assert (∀ q, owns e' q ↔ owns e q) as Howns by (intros q; unfold owns; by rewrite Er).
    split; rewrite ?Ed, ?Er, ?Ek, ?Ects, ?Ect, ?Ea, ?Edc, ?Epc; try done.
    - intros q c' Hc' Hop. rewrite Howns. rewrite Ec in Hc'.
      apply alter_lookup_Some in Hc' as (c'' & Hc'' & ->).
      apply (Ho q c''); [done|]. by case_decide.
    - intros q l Hl. rewrite Howns. apply Hmedia in Hl. case_decide; [apply (Hme q tasks), Hl|by apply (Hme q l)].
    - intros t q s Hlk Hse.
      assert (∀ l, has_media e q l → p ≠ q → has_media e' q l) as Hother.
      { intros l (c' & Hc' & Hl) Hne. exists c'. by rewrite Ec, list_lookup_alter_ne. }
      assert (has_media e' p (kept ++ new)) as Hself.
      { exists (set_media (Some (kept ++ new)) c). by rewrite Ec, list_lookup_alter_eq, Hc. }
      destruct (Hmt _ _ _ Hlk) as [Hlk'|[-> Hin]]; [|left; exists (kept ++ new); set_solver].
      destruct (Ht _ _ _ Hlk' Hse) as [(l & Hl & Hin)|Hr]; [left|by right].
      destruct (decide (p = q)) as [<-|Hne]; [|by eauto].
      exists (kept ++ new). split; [done|]. apply elem_of_app; left.
      destruct Hl as (c' & Hc' & Hl). rewrite Hc in Hc'. injection Hc' as <-. rewrite Hm in Hl.
      injection Hl as <-. apply list_elem_of_filter. split; [|done].
      unfold media_finished. rewrite Hlk'. by destruct s.
    - unfold driver_ok in *. rewrite Edr, ?Ek, ?Er, ?Ect. destruct (driver e) as [[]|]; try done;
        by rewrite Howns. }
  destruct kind; [apply (Hgen []); simpl; rewrite ?app_nil_r; auto|..];
    (apply (Hgen [length (media_tasks e)]); simpl; try done; intros t q s Hlk;
     apply lookup_app_Some in Hlk as [?|[? Hlk]]; [by left|right];
     apply list_lookup_singleton_Some in Hlk as [? [= <- <-]]; split; [done|];
     apply list_elem_of_singleton; lia).
Qed.

Lemma media_ends_inv t e : engine_inv e → engine_inv (engine_step (MediaEnds t) e).
Proof.
  intros [Hd Ho Hm Ht Hc Hdr H1 H2 H3 H4]. split; simpl; try done.
  intros i p s Hlk Hs. apply alter_lookup_Some in Hlk as ([q s'] & Hlk & Heq).
  case_decide; simplify_eq/=. by eapply Ht.
Qed.
Lemma command_ends_inv c e : engine_inv e → engine_inv (engine_step (CommandEnds c) e).
Proof.
  intros [Hd Ho Hm Ht Hc Hdr H1 H2 H3 H4]. split; simpl; try done.
  intros i s Hlk Hs. apply alter_lookup_Some in Hlk as (s' & Hlk & Heq).
  case_decide; simplify_eq/=. by eapply Hc.
Qed.

(** A close moves on: the caller has nothing registered meanwhile. *)
Lemma closing_driver e c : driver_ok e → close_task e = Some c →
  ∀ e', driver e' = driver e → driver_ok e'.
Proof.
  unfold driver_ok. intros Hd Hc e' ->. destruct (driver e) as [[]|]; try done; destruct_and?; congruence.
Qed.
Lemma has_media_with_close c e p l : has_media (with_close c e) p l ↔ has_media e p l.
Proof. done. Qed.

(** The close takes the resources: the peer's tasks are aborted and awaited. *)
Lemma take_resources_inv r e :
  engine_inv e → close_task e = Some ClearTrack → peer_resources e = Some r →
  engine_inv (with_close (Some (AwaitMedia r (taken_media (rs_peer r) e)))
    (abort_media (taken_media (rs_peer r) e) (take_media (rs_peer r)
      (with_resources None (with_stored (peer_connection e) (data_channel e) None e))))).
Proof.
  intros [Hd Ho Hm Ht Hc Hdr H1 H2 H3 H4] Hct Hr.
  set (p := rs_peer r). set (tasks := taken_media p e).
  assert (∀ q, owns e q → q = p) as Hown by (intros q (r' & Hr' & <-); simplify_eq; done).
  split; simpl; try done; try lia.
  - intros q c Hq Hop. right. exists r, tasks. split; [done|].
    apply alter_lookup_Some in Hq as (c' & Hq & ->).
    destruct (Ho q c' Hq) as [?|(? & ? & Hcl & _)]; [by case_decide|symmetry; by apply Hown|].
    by rewrite Hct in Hcl.
  - intros q l (c & Hq & Hmed). apply alter_lookup_Some in Hq as (c' & Hq & ->).
    case_decide as Hpq; [done|]. destruct Hpq. symmetry. apply Hown, (Hm q l). by exists c'.
  - intros t q s Hlk Hs. right. exists r, tasks. split; [done|].
    rewrite list_lookup_imap in Hlk. destruct (media_tasks e !! t) as [[q' s']|] eqn:Hold; [|done].
    simpl in Hlk. assert (s' ≠ TEnded) as Hs'.
    { case_bool_decide; simplify_eq/=; [by apply abort_status_ended|done]. }
    destruct (Ht t q' s' Hold Hs') as [(l & Hl & Hin)|(? & ? & Hcl & _)]; [|by rewrite Hct in Hcl].
    pose proof (Hm _ _ Hl) as Hq%Hown. subst q'. unfold tasks.
    by rewrite (taken_media_spec _ _ _ Hl).
  - intros c s Hlk Hs. left. destruct (Hc c s Hlk Hs); congruence.
  - by apply (closing_driver e ClearTrack).
  - intros _. apply H1. rewrite Hct. simpl. lia.
Qed.

(** The peer of the taken resources is closed. *)
Lemma close_peer_inv r e :
  engine_inv e → close_task e = Some (ClosePeer r) →
  engine_inv (with_close (Some (TakeChannel true)) (abort_command (command r)
    (with_connections (alter set_closed (rs_peer r) (connections e)) e))).
Proof.
  intros [Hd Ho Hm Ht Hc Hdr H1 H2 H3 H4] Hct.
  destruct H2 as [Hr Ha]; [rewrite Hct; simpl; lia|]. specialize (H1 ltac:(rewrite Hct; simpl; lia)).
  assert (∀ q, ¬ owns e q) as Hno by (intros q (? & ? & _); congruence).
  set (e1 := with_connections _ e).
  assert (∀ c s, command_tasks (abort_command (command r) e1) !! c = Some s → s ≠ TEnded → False) as Hcom.
  { intros c s Hlk Hs. apply abort_command_lookup in Hlk as (s' & Hlk & Hs'); [|done].
    destruct (Hc c s' Hlk Hs'); congruence. }
  assert (∀ q c, alter set_closed (rs_peer r) (connections e) !! q = Some c → pc_open c = false) as Hcl.
  { intros q c Hq. apply alter_lookup_Some in Hq as (c' & Hq & ->). case_decide as Hpq; [done|].
    destruct (pc_open c') eqn:Hop; [|done]. destruct (Ho _ _ Hq Hop) as [?|(r' & l & Hcl & Heq)];
      [by destruct (Hno q)|]. rewrite Hct in Hcl. by simplify_eq/=. }
  assert (∀ q l, ¬ has_media e q l) as Hnm by (intros q l Hl%Hm; by destruct (Hno q)).
  assert (∀ q l, ¬ has_media (abort_command (command r) e1) q l) as Hnm'.
  { intros q l (c & Hq & Hl). destruct (Hnm q l).
    assert (connections (abort_command (command r) e1) = alter set_closed (rs_peer r) (connections e)) as Heq
      by by destruct (command r).
    rewrite Heq in Hq. apply alter_lookup_Some in Hq as (c' & Hq & ->). exists c'.
    split; [done|]. by case_decide. }
  assert (dropped (abort_command (command r) e1) = [] ∧ peer_resources (abort_command (command r) e1) = None ∧
    audio_track (abort_command (command r) e1) = None ∧
    command_task (abort_command (command r) e1) = None ∧
    driver (abort_command (command r) e1) = driver e ∧
    media_tasks (abort_command (command r) e1) = media_tasks e ∧
    connections (abort_command (command r) e1) = alter set_closed (rs_peer r) (connections e))
    as (E1 & E2 & E3 & E4 & E5 & E6 & E7) by by destruct (command r).
  split; try done; simpl; try lia.
  - intros q c Hq Hop. rewrite E7 in Hq. by rewrite (Hcl q c Hq) in Hop.
  - intros q l Hl. by destruct (Hnm' q l).
  - rewrite E6. intros t q s Hlk Hs. destruct (Ht t q s Hlk Hs) as [(l & Hl & _)|(r' & l & Hcl' & Hin)].
    + by destruct (Hnm q l).
    + rewrite Hct in Hcl'. simplify_eq/=. set_solver.
  - intros c s Hlk Hs. by destruct (Hcom c s Hlk Hs).
  - by eapply closing_driver.
Qed.

(** A step of the close that changes none of what it has taken. *)
Lemma close_move_inv c c' e e' :
  engine_inv e → close_task e = Some c → e' = with_close (Some c') e →
  (∀ r l, closing (Some c) = Some (r, l) → ∃ l', closing (Some c') = Some (r, l') ∧
     ∀ t p s, media_tasks e !! t = Some (p, s) → s ≠ TEnded → t ∈ l → t ∈ l') →
  (∀ t, c = AwaitCommand t → command_finished e t = true) →
  (stage (Some c') ≤ stage (Some c))%nat → engine_inv e'.
Proof.
  intros [Hd Ho Hm Ht Hc Hdr H1 H2 H3 H4] Hct -> Hcl Hcmd Hst.
  rewrite Hct in *. split; simpl; try done.
  - intros p x Hp Hop. destruct (Ho p x Hp Hop) as [?|(r & l & Hrl & Heq)]; [by left|right].
    destruct (Hcl r l Hrl) as (l' & ? & _). eauto.
  - intros t p s Hlk Hs. destruct (Ht t p s Hlk Hs) as [?|(r & l & Hrl & Hin)]; [by left|right].
    destruct (Hcl r l Hrl) as (l' & ? & Hl'). exists r, l'. split; [done|]. by eapply Hl'.
  - intros i s Hlk Hs. destruct (Hc i s Hlk Hs) as [?|[= ->]]; [by left|].
    specialize (Hcmd i eq_refl). unfold command_finished in Hcmd. rewrite Hlk in Hcmd. by destruct s.
  - by eapply closing_driver.
  - intros Hx. apply H1. etrans; [exact Hx|exact Hst].
  - intros Hx. apply H2. etrans; [exact Hx|exact Hst].
  - intros Hx. apply H3. etrans; [exact Hx|exact Hst].
  - intros Hx. apply H4. etrans; [exact Hx|exact Hst].
Qed.

(** It takes one of the stored handles and moves on. *)
Lemma close_take_inv c c' p ch t e :
  engine_inv e → close_task e = Some c → closing (Some c) = None → closing (Some c') = None →
  (∀ i, c ≠ AwaitCommand i) → (1 ≤ stage (Some c))%nat →
  ((2 ≤ stage (Some c'))%nat → peer_resources e = None ∧ t = None) →
  ((3 ≤ stage (Some c'))%nat → ch = None) → ((4 ≤ stage (Some c'))%nat → p = None) →
  engine_inv (with_close (Some c') (with_stored p ch t e)).
Proof.
  intros [Hd Ho Hm Ht Hc Hdr H1 H2 H3 H4] Hct Hcl Hcl' Hnc Hst S2 S3 S4.
  rewrite Hct in *. split; simpl; try done; auto.
  - intros q x Hq Hop. destruct (Ho q x Hq Hop) as [?|(r & l & ? & _)]; [by left|congruence].
  - intros i q s Hlk Hs. destruct (Ht i q s Hlk Hs) as [?|(r & l & ? & _)]; [by left|congruence].
  - intros i s Hlk Hs. destruct (Hc i s Hlk Hs) as [?|[= Heq]]; [by left|]. by destruct (Hnc i).
  - by eapply closing_driver.
Qed.

Lemma close_step_inv ready c e :
  engine_inv e → close_task e = Some c → engine_inv (close_step ready c e).
Proof.
  intros Hi Hct. pose proof Hi as [Hd Ho Hm Ht Hc Hdr H1 H2 H3 H4]. rewrite Hct in *.
  destruct c as [|t| |r tasks|r|owned|owned|owned|p|]; simpl; [..|done].
  - destruct (command_task e) as [t|] eqn:Hcmd.
    + split; simpl; try done; try lia.
      * intros i s Hlk Hs. apply alter_lookup_Some in Hlk as (s' & Hlk & ->).
        assert (s' ≠ TEnded) as Hs' by (case_decide; [by apply abort_status_ended|done]).
        destruct (Hc i s' Hlk Hs') as [[= ->]|?]; [by right|done].
      * by eapply closing_driver.
    + split; simpl; try done; try lia.
      * intros i s Hlk Hs. destruct (Hc i s Hlk Hs) as [?|?]; congruence.
      * by eapply closing_driver.
  - destruct (command_finished e t) eqn:Hf; [|done].
    eapply (close_move_inv (AwaitCommand t)); try done. by intros ? [= <-].
  - destruct (peer_resources e) as [r|] eqn:Hr; [exact (take_resources_inv r e Hi Hct Hr)|].
    apply (close_take_inv ClearTrack); try done; simpl; lia || auto.
  - destruct tasks as [|t tasks].
    + eapply (close_move_inv (AwaitMedia r [])); try done.
      intros ? ? [= <- <-]. exists []. split; [done|]. set_solver.
    + destruct (media_finished e t) eqn:Hf; [|done].
      eapply (close_move_inv (AwaitMedia r (t :: tasks))); try done.
      intros ? ? [= <- <-]. exists tasks. split; [done|]. intros i q s Hlk Hs Hin.
      apply elem_of_cons in Hin as [->|?]; [|done].
      unfold media_finished in Hf. rewrite Hlk in Hf. by destruct s.
  - destruct ready; [by apply close_peer_inv|done].
  - destruct H2 as [Hr Ha]; [simpl; lia|].
    destruct (data_channel e); [destruct owned|]; (eapply close_take_inv; [done|done|..]; simpl; try done; auto; lia).
  - destruct ready; [|done]. by eapply (close_move_inv (CloseChannel owned)).
  - destruct H2 as [Hr Ha]; [simpl; lia|]. specialize (H3 ltac:(simpl; lia)).
    destruct (peer_connection e); [destruct owned|]; (eapply close_take_inv; [done|done|..]; simpl; try done; auto; lia).
  - destruct ready; [|done].
    destruct H2 as [Hr Ha]; [simpl; lia|]. specialize (H3 ltac:(simpl; lia)). specialize (H4 ltac:(simpl; lia)).
    specialize (H1 ltac:(simpl; lia)).
    assert (∀ q, ¬ owns e q) as Hno by (intros q (? & ? & _); congruence).
    split; simpl; try done; auto.
    + intros q x Hq Hop. apply alter_lookup_Some in Hq as (y & Hq & ->). case_decide; [done|]. by apply (Ho q y).
    + intros q l (x & Hq & Hl). apply alter_lookup_Some in Hq as (y & Hq & ->).
      apply (Hm q l). exists y. split; [done|]. by case_decide.
    + intros t q s Hlk Hs. destruct (Ht t q s Hlk Hs) as [(l & Hl & _)|(? & ? & ? & _)]; [|done].
      apply Hm in Hl. by destruct (Hno q).
    + intros i s Hlk Hs. destruct (Hc i s Hlk Hs); congruence.
    + by eapply closing_driver.
Qed.

(** *** The caller *)
Lemma create_inv e :
  engine_inv e → driver e = Some DCreate →
  let p := length (connections e) in
  engine_inv (with_driver (Some (DSetup p))
    (register p (with_connections (connections e ++ [{| pc_open := true; media := Some [] |}]) e))).
Proof.
  intros [Hd Ho Hm Ht Hc Hdr H1 H2 H3 H4] Hdrv p. unfold driver_ok in Hdr. rewrite Hdrv in Hdr.
  destruct Hdr as (Hk & Hr & Hcmd). unfold register. simpl. rewrite Hr, Hk in *. simpl in *.
  assert (∀ q, ¬ owns e q) as Hno by (intros q (? & ? & _); congruence).
  assert (∀ q l, ¬ has_media e q l) as Hnm by (intros q l Hl%Hm; by destruct (Hno q)).
  split; simpl; rewrite ?Hk; try done; simpl; try lia.
  - intros q c Hq Hop. left. apply lookup_app_Some in Hq as [Hq|[Hle Hq]].
    + destruct (Ho q c Hq Hop) as [?|(? & ? & ? & _)]; [by destruct (Hno q)|done].
    + apply list_lookup_singleton_Some in Hq as [Hq _]. eexists. split; [done|]. simpl. unfold p. lia.
  - intros q l (c & Hq & Hl). simpl in Hq. apply lookup_app_Some in Hq as [Hq|[Hle Hq]].
    + destruct (Hnm q l). by exists c.
    + apply list_lookup_singleton_Some in Hq as [Hq _]. eexists. split; [done|]. simpl. unfold p. lia.
  - intros t q s Hlk Hs. destruct (Ht t q s Hlk Hs) as [(l & Hl & _)|(? & ? & ? & _)]; [|done].
    by destruct (Hnm q l).
  - unfold driver_ok. simpl. split_and!; [done| |done]. by eexists.
Qed.

(** A poll of the caller keeps the invariant; and a [close] that returns, a failed
    [prepare_offer] that returns and a [prepare_offer] about to create its peer
    leave or find nothing. *)
Lemma driver_poll_spec outcome d e :
  engine_inv e → driver e = Some d →
  engine_inv (driver_poll outcome d e).2 ∧
  (((driver_poll outcome d e).1 ≠ None ∧ (∀ p, d ≠ DOffer p)) ∨
     driver (driver_poll outcome d e).2 = Some DCreate ∧ d = DPrepClose →
   clean (driver_poll outcome d e).2).
Proof.
  intros Hi Hdrv. pose proof (close_poll_inv e Hi) as Hcp. rewrite Hdrv in Hcp.
  pose proof (en_driver e Hi) as Hdr. unfold driver_ok in Hdr. rewrite Hdrv in Hdr.
  assert (∀ e', clean e' → clean (with_driver None e') ∧ clean (with_driver (Some DCreate) e')) as Hclean
    by (intros e' []; by split).
  destruct d as [| | |p|p|p|p|p|error]; simpl.
  1,2,9: destruct Hcp as [Hi' Hdone]; [by intros ? [= <-]|];
    destruct (close_poll e) as [[] e']; simpl in *;
    [destruct (Hdone eq_refl) as [Hcl Hk]|].
  - split; [by apply with_driver_inv, driver_ok_idle|]. intros _. by apply Hclean.
  - split; [by apply with_driver_inv, driver_ok_idle|]. naive_solver.
  - split; [|intros _; by apply Hclean]. apply with_driver_inv; [done|]. unfold driver_ok. simpl.
    destruct Hcl as [_ _ _ Hr (_ & _ & _ & Hcmd)]. done.
  - split; [by apply with_driver_inv, driver_ok_idle|]. naive_solver.
  - split; [by apply with_driver_inv, driver_ok_idle|]. intros _. by apply Hclean.
  - split; [by apply with_driver_inv, driver_ok_idle|]. naive_solver.
  - destruct outcome as [[u|error]|]; simpl; (split; [|naive_solver]); [by apply create_inv| |done].
    by apply with_driver_inv, driver_ok_idle.
  - destruct outcome as [[u|error]|]; simpl; (split; [|naive_solver]); [| |done].
    + by apply with_driver_inv.
    + by apply with_driver_inv, driver_ok_idle.
  - split; [|naive_solver]. destruct Hi as [Hd Ho Hm Ht Hc _ H1 H2 H3 H4]. destruct Hdr as (Hk & Hdr).
    rewrite Hk in *. by split; simpl; rewrite ?Hk; simpl; try lia.
  - split; [|naive_solver]. destruct Hi as [Hd Ho Hm Ht Hc _ H1 H2 H3 H4]. destruct Hdr as (Hk & Hdr).
    rewrite Hk in *. by split; simpl; rewrite ?Hk; simpl; try lia.
  - destruct Hdr as (Hk & (r & Hr & Hp) & Hcmd). rewrite Hr. simpl. split; [|naive_solver].
    rewrite Hcmd. simpl. destruct Hi as [Hd Ho Hm Ht Hc _ H1 H2 H3 H4]. rewrite Hk in *.
    split; simpl; rewrite ?Hk; simpl; try lia; try done.
    + intros q c Hq Hop. destruct (Ho q c Hq Hop) as [(r' & Hr' & Hq')|(? & ? & ? & _)]; [left|done].
      eexists. split; [done|]. simpl. congruence.
    + intros q l Hl. destruct (Hm q l Hl) as (r' & Hr' & Hq'). eexists. split; [done|]. simpl. congruence.
    + intros i s Hlk Hs. apply lookup_app_Some in Hlk as [Hlk|[Hle Hlk]].
      * destruct (Hc i s Hlk Hs); congruence.
      * apply list_lookup_singleton_Some in Hlk as [? _]. left. f_equal. lia.
  - destruct outcome as [[u|error]|]; simpl; [| |by split; [|naive_solver]].
    + split; [by apply with_driver_inv|]. intros [[_ Hne]|[? _]]; [by destruct (Hne p)|done].
    + split; [by apply with_driver_inv, driver_ok_idle|]. naive_solver.
Qed.

Lemma engine_step_inv o e : engine_inv e → engine_inv (engine_step o e).
Proof.
  intros Hi. destruct o as [| |outcome| |ready|p kind codec|t|c].
  - simpl. destruct (driver e); [done|]. by apply with_driver_inv, driver_ok_idle.
  - simpl. destruct (driver e); [done|]. by apply with_driver_inv, driver_ok_idle.
  - simpl. destruct (driver e) as [d|] eqn:Hd; [|done]. by apply driver_poll_spec.
  - by apply with_driver_inv, driver_ok_idle.
  - simpl. destruct (close_task e) as [c|] eqn:Hc; [|done]. by apply close_step_inv.
  - by apply on_track_inv.
  - by apply media_ends_inv.
  - by apply command_ends_inv.
Qed.
Lemma engine_run_inv l e : engine_inv e → engine_inv (engine_run l e).
Proof. revert e. induction l as [|o l IH]; intros e Hi; [done|]. by apply IH, engine_step_inv. Qed.

(** ** Theorems *)

(** C9: whatever the order of the caller's operations, its cancellations, the steps of a
    close that outlives its waiter and the tracks that arrive: at most one peer
    connection is open, the resources of a peer are never dropped without being
    closed, and every task that has not ended belongs to the one open peer or is
    awaited by the close. *)
Theorem one_peer_open l :
  let e := engine_run l new_engine in
  (∀ p q c c', connections e !! p = Some c → pc_open c = true →
     connections e !! q = Some c' → pc_open c' = true → p = q) ∧
  dropped e = [] ∧
  (∀ t p s, media_tasks e !! t = Some (p, s) → s ≠ TEnded →
     (∃ r l, closing (close_task e) = Some (r, l) ∧ t ∈ l) ∨ owns e p) ∧
  (∀ c s, command_tasks e !! c = Some s → s ≠ TEnded →
     command_task e = Some c ∨ close_task e = Some (AwaitCommand c)).
Proof.
  cbv zeta. destruct (engine_run_inv l _ fresh_engine_inv) as [Hd Ho Hm Ht Hc _ _ H2 _ _].
  split_and!; [|done| |done].
  - intros p q c c' Hp Hop Hq Hoq.
    destruct (Ho p c Hp Hop) as [(r & Hr & <-)|(r & k & Hr & <-)],
             (Ho q c' Hq Hoq) as [(r' & Hr' & <-)|(r' & k' & Hr' & <-)]; try congruence.
    + destruct (close_task _) as [[]|] eqn:Hk; try done; simpl in *; destruct H2; try lia; congruence.
    + destruct (close_task _) as [[]|] eqn:Hk; try done; simpl in *; destruct H2; try lia; congruence.
  - intros t p s Hlk Hs. destruct (Ht t p s Hlk Hs) as [(k & Hk & _)|?]; [|by left].
    right. by eapply Hm.
Qed.

(** When [close] returns, and when a failed [prepare_offer] returns, every peer that
    was ever created is closed, every media and command task has ended, and the
    engine holds nothing of them; a [prepare_offer] creates its peer in no other
    situation. *)
Theorem close_returns_clean l d outcome :
  driver (engine_run l new_engine) = Some d →
  let polled := driver_poll outcome d (engine_run l new_engine) in
  (polled.1 ≠ None ∧ (∀ p, d ≠ DOffer p)) ∨ (driver polled.2 = Some DCreate ∧ d = DPrepClose) →
  clean polled.2.
Proof. intros Hd. apply (driver_poll_spec outcome d _ (engine_run_inv l _ fresh_engine_inv) Hd). Qed.

(** The peer of each media task. *)
Definition tasks_of (p : nat) e : list nat := filter (λ q, q = p) (media_tasks e).*1.
Definition media_taken (p : nat) e : Prop := ∃ c, connections e !! p = Some c ∧ media c = None.

Lemma abort_media_fst l e : (media_tasks (abort_media l e)).*1 = (media_tasks e).*1.
Proof.
  simpl. apply list_eq. intros i. rewrite !list_lookup_fmap, list_lookup_imap.
  destruct (media_tasks e !! i) as [[q s]|]; [|done]. simpl. by case_bool_decide.
Qed.
Lemma taken_alter p f i e :
  (∀ c, media c = None → media (f c) = None) → media_taken p e →
  media_taken p (with_connections (alter f i (connections e)) e).
Proof.
  intros Hf (c & Hc & Hm). destruct (decide (i = p)) as [->|Hne].
  - exists (f c). simpl. rewrite list_lookup_alter_eq, Hc. auto.
  - exists c. simpl. by rewrite list_lookup_alter_ne.
Qed.
Lemma close_step_taken p ready c e :
  media_taken p e → media_taken p (close_step ready c e) ∧ tasks_of p (close_step ready c e) = tasks_of p e.
Proof.
  intros Hp. destruct c as [|t| |r tasks|r|owned|owned|owned|q|]; simpl; try done.
  - by destruct (command_task e).
  - by destruct (command_finished e t).
  - destruct (peer_resources e) as [r|]; [|done].
    split; [by apply (taken_alter p (set_media None) (rs_peer r) e)|].
    unfold tasks_of. f_equal.
    exact (abort_media_fst (taken_media (rs_peer r) e) (take_media (rs_peer r) e)).
  - destruct tasks as [|t tasks]; [done|]. by destruct (media_finished e t).
  - destruct ready; [|done].
    pose proof (taken_alter p set_closed (rs_peer r) e ltac:(done) Hp) as Ht. by destruct (command r).
  - by destruct ready.
  - destruct ready; [|done]. split; [by apply (taken_alter p set_closed q e)|done].
Qed.
Lemma on_track_taken p q kind codec e :
  media_taken p e → media_taken p (on_track q kind codec e) ∧ tasks_of p (on_track q kind codec e) = tasks_of p e.
Proof.
  intros Hp. unfold on_track. destruct (negb _); [done|].
  destruct (connections e !! q ≫= media) as [l|] eqn:Hm; [|done].
  apply bind_Some in Hm as (c & Hc & Hm).
  assert (q ≠ p) as Hne by (intros ->; destruct Hp as (c' & Hc' & Hm'); congruence).
  assert (∀ m, media_taken p (with_connections (alter (set_media m) q (connections e)) e)) as Hp'.
  { intros m. destruct Hp as (c' & Hc' & Hm'). exists c'. simpl. by rewrite list_lookup_alter_ne. }
  assert (tasks_of p (with_media (media_tasks e ++ [(q, TRunning)]) e) = tasks_of p e) as Ht.
  { unfold tasks_of. simpl. rewrite fmap_app, filter_app. simpl.
    rewrite filter_cons_False by done. apply app_nil_r. }
  destruct kind; (split; [apply Hp'|done || exact Ht]).
Qed.

(** A peer whose media were taken, as every close does, starts no task any more,
    whatever tracks its connection still reports. *)
Theorem closed_peer_starts_nothing p l e :
  media_taken p e → media_taken p (engine_run l e) ∧ tasks_of p (engine_run l e) = tasks_of p e.
Proof.
  revert e. induction l as [|o l IH]; intros e Hp; [done|].
  assert (media_taken p (engine_step o e) ∧ tasks_of p (engine_step o e) = tasks_of p e) as [Hp' <-];
    [|by apply IH].
  destruct o as [| |outcome| |ready|q kind codec|t|c]; simpl; try done.
  - by destruct (driver e).
  - by destruct (driver e).
  - destruct (driver e) as [d|]; [|done].
    destruct d as [| | |q|q|q|q|q|error]; simpl; try done.
    1,2,7: unfold close_poll; by destruct (close_task e) as [[]|].
    + destruct outcome as [[u|error]|]; [|done|done]. simpl.
      destruct Hp as (c & Hc & Hm).
      assert (media_taken p (with_connections (connections e ++ [{| pc_open := true; media := Some [] |}]) e)) as Hp'.
      { exists c. simpl. rewrite lookup_app_l; [done|by eapply lookup_lt_Some]. }
      unfold register. simpl. destruct (peer_resources e) as [old|]; [|done].
      set (e0 := with_connections _ e) in *.
      pose proof (taken_alter p (set_media None) (rs_peer old) e0 ltac:(done) Hp') as Hp2.
      unfold drop_resources. destruct (command old) as [i|];
        (split; [exact Hp2|unfold tasks_of; f_equal;
          first [exact (abort_media_fst (taken_media (rs_peer old) (abort_command (Some i) e0)) (take_media (rs_peer old) (abort_command (Some i) e0)))
                |exact (abort_media_fst (taken_media (rs_peer old) e0) (take_media (rs_peer old) e0))]]).
    + by destruct outcome as [[u|error]|].
    + by destruct (peer_resources e), (command_task e).
    + by destruct outcome as [[u|error]|].
  - destruct (close_task e) as [c|]; [by apply close_step_taken|done].
  - by apply on_track_taken.
  - split; [done|]. unfold tasks_of. simpl. f_equal. apply list_eq. intros i.
    rewrite !list_lookup_fmap. destruct (decide (t = i)) as [->|Hne].
    + rewrite list_lookup_alter_eq. by destruct (media_tasks e !! i).
    + by rewrite list_lookup_alter_ne.
Qed.

(** ** A close completes *)

(** Every task has ended. *)
Definition settled e : Prop :=
  Forall (λ m, m.2 = TEnded) (media_tasks e) ∧ Forall (λ s, s = TEnded) (command_tasks e).
Lemma settled_media e t : settled e → media_finished e t = true.
Proof.
  intros [Hm _]. unfold media_finished. destruct (media_tasks e !! t) as [[q s]|] eqn:Hlk; [|done].
  eapply Forall_lookup_1 in Hlk; [|done]. simpl in Hlk. by subst.
Qed.
Lemma settled_command e c : settled e → command_finished e c = true.
Proof.
  intros [_ Hc]. unfold command_finished. destruct (command_tasks e !! c) as [s|] eqn:Hlk; [|done].
  eapply Forall_lookup_1 in Hlk; [|done]. simpl in Hlk. by subst.
Qed.
Lemma settled_abort_command c e : settled e → settled (abort_command c e).
Proof.
  destruct c as [c|]; [|done]. intros [Hm Hc]. split; [done|]. simpl. apply Forall_forall.
  intros s [i Hi]%list_elem_of_lookup. apply alter_lookup_Some in Hi as (s' & Hi & ->).
  eapply Forall_lookup_1 in Hi; [|done]. simpl in Hi. subst s'. by case_decide.
Qed.
Lemma settled_abort_media l e : settled e → settled (abort_media l e).
Proof.
  intros [Hm Hc]. split; [|done]. apply Forall_forall. intros m [i Hi]%list_elem_of_lookup.
  rewrite abort_media_lookup in Hi. destruct (media_tasks e !! i) as [[q s]|] eqn:Hlk; [|done].
  eapply Forall_lookup_1 in Hlk; [|done]. simpl in *. subst s. injection Hi as <-. simpl. by case_bool_decide.
Qed.
Lemma close_step_settled c e :
  settled e → settled (close_step true c e) ∧ driver (close_step true c e) = driver e.
Proof.
  intros Hs. destruct c as [|t| |r tasks|r|owned|owned|owned|q|]; simpl; try done.
  - destruct (command_task e) as [t|]; [|done].
    pose proof (settled_abort_command (Some t) e Hs) as [? ?]. done.
  - by destruct (command_finished e t).
  - destruct (peer_resources e) as [r|]; [|done]. split; [|done].
    exact (settled_abort_media (taken_media (rs_peer r) e) e Hs).
  - destruct tasks as [|t tasks]; [done|]. by destruct (media_finished e t).
  - pose proof (settled_abort_command (command r) (with_connections (alter set_closed (rs_peer r) (connections e)) e) Hs) as [? ?].
    split; [done|]. by destruct (command r).
Qed.

(** The steps a close still has to make once the tasks have ended. *)
Definition remaining (c : close_pc) : nat :=
  match c with
  | CloseStart => 0 | AwaitCommand _ => 0 | ClearTrack => 0
  | AwaitMedia _ l => 6 + length l | ClosePeer _ => 5 | TakeChannel _ => 4
  | CloseChannel _ => 3 | TakeConnection _ => 2 | CloseConnection _ => 1 | CloseDone => 0
  end.
Definition closes e : Prop :=
  ∃ n, let e' := engine_run (replicate n (CloseStep true)) e in
    close_task e' = Some CloseDone ∧ driver e' = driver e ∧ settled e'.
Lemma closes_step c e :
  settled e → close_task e = Some c →
  (∀ c', close_task (close_step true c e) = Some c' → closes (close_step true c e)) →
  is_Some (close_task (close_step true c e)) → closes e.
Proof.
  intros Hs Hc Hnext [c' Hc']. destruct (Hnext c' Hc') as (n & H1 & H2 & H3).
  exists (S n). unfold engine_run in *. simpl. rewrite Hc.
  destruct (close_step_settled c e Hs) as [_ Hd]. rewrite H1, H2, Hd. done.
Qed.
Lemma closes_done e : settled e → close_task e = Some CloseDone → closes e.
Proof. intros Hs Hc. exists 0%nat. split_and!; [exact Hc|reflexivity|exact Hs]. Qed.
Lemma late_closes n c e :
  settled e → close_task e = Some c → (2 ≤ stage (Some c))%nat →
  (remaining c ≤ n)%nat → closes e.
Proof.
  revert c e. induction n as [|n IH]; intros c e Hs Hc Hst Hn.
  - destruct c; simpl in *; try lia. by apply closes_done.
  - destruct (close_step_settled c e Hs) as [Hs' _].
    destruct c as [|t| |r tasks|r|owned|owned|owned|q|]; simpl in Hst, Hn; try lia;
      [..|by apply closes_done]; (eapply closes_step; [done|done| |]; simpl).
    + intros c' Hc'. destruct tasks as [|t tasks]; simpl in *; [eapply IH; [done|done| |]; simplify_eq/=; simpl; lia|].
      rewrite settled_media in * by done. eapply IH; [done|done| |]; simplify_eq/=; simpl; lia.
    + destruct tasks as [|t tasks]; simpl; [done|]. by rewrite settled_media.
    + intros c' Hc'. eapply IH; [done|done| |]; simplify_eq/=; simpl; lia.
    + done.
    + intros c' Hc'. eapply IH; [done|done| |]; destruct (data_channel e), owned; simplify_eq/=; simpl; lia.
    + by destruct (data_channel e), owned.
    + intros c' Hc'. eapply IH; [done|done| |]; simplify_eq/=; simpl; lia.
    + done.
    + intros c' Hc'. eapply IH; [done|done| |]; destruct (peer_connection e), owned; simplify_eq/=; simpl; lia.
    + by destruct (peer_connection e), owned.
    + intros c' Hc'. eapply IH; [done|done| |]; simplify_eq/=; simpl; lia.
    + done.
Qed.
Lemma close_closes c e : settled e → close_task e = Some c → closes e.
Proof.
  intros Hs Hc.
  assert (∀ c e, settled e → close_task e = Some c → (2 ≤ stage (Some c))%nat → closes e) as Hlate.
  { intros c' e' Hs' Hc' Hst. apply (late_closes (remaining c') c'); auto. }
  assert (∀ e, settled e → close_task e = Some ClearTrack → closes e) as Hclear.
  { intros e' Hs' Hc'. destruct (close_step_settled ClearTrack e' Hs') as [Hs2 _].
    eapply closes_step; [done|done| |]; simpl.
    - intros c' Hc2. eapply Hlate; [done|done|]. destruct (peer_resources e'); simplify_eq/=; simpl; lia.
    - by destruct (peer_resources e'). }
  assert (∀ t e, settled e → close_task e = Some (AwaitCommand t) → closes e) as Hawait.
  { intros t e' Hs' Hc'. destruct (close_step_settled (AwaitCommand t) e' Hs') as [Hs2 _].
    eapply closes_step; [done|done| |]; simpl in *; rewrite settled_command in * by done; [|done].
    intros c' Hc2. by apply Hclear. }
  destruct (decide (2 ≤ stage (Some c))%nat) as [Hst|Hst]; [by eapply Hlate|].
  destruct c as [|t| |r tasks|r|owned|owned|owned|q|]; simpl in Hst; try lia; [|by eapply Hawait|by apply Hclear].
  destruct (close_step_settled CloseStart e Hs) as [Hs2 _].
  eapply closes_step; [done|done| |]; simpl in *.
  - intros c' Hc2. destruct (command_task e); [by eapply Hawait|by apply Hclear].
  - by destruct (command_task e).
Qed.

(** The tasks that are still there come to their end. *)
Definition all_end e : list engine_op :=
  (MediaEnds <$> seq 0 (length (media_tasks e))) ++ (CommandEnds <$> seq 0 (length (command_tasks e))).
Lemma media_ends_run ts e :
  let e' := engine_run (MediaEnds <$> ts) e in
  close_task e' = close_task e ∧ driver e' = driver e ∧ command_tasks e' = command_tasks e ∧
  length (media_tasks e') = length (media_tasks e) ∧
  ∀ t q s, media_tasks e' !! t = Some (q, s) → s = TEnded ∨ (t ∉ ts ∧ media_tasks e !! t = Some (q, s)).
Proof.
  cbv zeta. revert e. induction ts as [|i ts IH]; intros e.
  { split_and!; try done. intros t q s Hlk. right. split; [set_solver|done]. }
  change (engine_run (MediaEnds <$> i :: ts) e) with
    (engine_run (MediaEnds <$> ts) (engine_step (MediaEnds i) e)).
  destruct (IH (engine_step (MediaEnds i) e)) as (-> & -> & -> & Hlen & Hall). simpl in *.
  rewrite length_alter in Hlen. split_and!; try done. intros t q s Hlk.
  destruct (Hall t q s Hlk) as [?|[Hni Hold]]; [by left|].
  apply alter_lookup_Some in Hold as ([q' s'] & Hold & Heq). case_decide; simplify_eq/=; [by left|].
  right. split; [set_solver|done].
Qed.
Lemma command_ends_run cs e :
  let e' := engine_run (CommandEnds <$> cs) e in
  close_task e' = close_task e ∧ driver e' = driver e ∧ media_tasks e' = media_tasks e ∧
  ∀ c s, command_tasks e' !! c = Some s → s = TEnded ∨ (c ∉ cs ∧ command_tasks e !! c = Some s).
Proof.
  cbv zeta. revert e. induction cs as [|i cs IH]; intros e.
  { split_and!; try done. intros c s Hlk. right. split; [set_solver|done]. }
  change (engine_run (CommandEnds <$> i :: cs) e) with
    (engine_run (CommandEnds <$> cs) (engine_step (CommandEnds i) e)).
  destruct (IH (engine_step (CommandEnds i) e)) as (-> & -> & -> & Hall). simpl in *.
  split_and!; try done. intros c s Hlk.
  destruct (Hall c s Hlk) as [?|[Hni Hold]]; [by left|].
  apply alter_lookup_Some in Hold as (s' & Hold & Heq). case_decide; simplify_eq/=; [by left|].
  right. split; [set_solver|done].
Qed.
Lemma all_end_settled e :
  let e' := engine_run (all_end e) e in
  settled e' ∧ close_task e' = close_task e ∧ driver e' = driver e.
Proof.
  cbv zeta. unfold all_end, engine_run. rewrite foldl_app. fold (engine_run (MediaEnds <$> seq 0 (length (media_tasks e))) e).
  destruct (media_ends_run (seq 0 (length (media_tasks e))) e) as (H1 & H2 & H3 & H4 & H5).
  set (e1 := engine_run _ e) in *. fold (engine_run (CommandEnds <$> seq 0 (length (command_tasks e))) e1).
  destruct (command_ends_run (seq 0 (length (command_tasks e))) e1) as (K1 & K2 & K3 & K4).
  rewrite K1, K2. split_and!; [split|done|done]; apply Forall_forall.
  - intros [q s] [t Hlk]%list_elem_of_lookup. rewrite K3 in Hlk. simpl.
    destruct (H5 t q s Hlk) as [?|[Hni Hold]]; [done|]. apply lookup_lt_Some in Hold.
    destruct Hni. apply elem_of_seq. lia.
  - intros s [c Hlk]%list_elem_of_lookup. destruct (K4 c s Hlk) as [?|[Hni Hold]]; [done|].
    rewrite H3 in Hold. apply lookup_lt_Some in Hold. destruct Hni. apply elem_of_seq. lia.
Qed.

(** C37: a caller that waits in [close] is released once the tasks of the peer have
    ended and the webrtc closes have returned, also when it waits for a close that
    somebody else began. *)
Theorem close_returns l :
  driver (engine_run l new_engine) = Some DClose →
  ∃ n, let e := engine_run l new_engine in
    let e1 := engine_step (PollDriver None) e in
    driver e1 = None ∨
    driver (engine_run (all_end e1 ++ replicate n (CloseStep true) ++ [PollDriver None]) e1) = None.
Proof.
  intros Hd. cbv zeta. set (e := engine_run l new_engine) in *. clearbody e. simpl. rewrite Hd. simpl.
  set (e1 := (match close_poll e with (true, e) => _ | (false, e) => _ end).2).
  assert (driver e1 = None ∨ (driver e1 = Some DClose ∧ ∃ c, close_task e1 = Some c)) as [Hn|[Hd1 [c Hc]]].
  { subst e1. unfold close_poll. destruct (close_task e) as [[]|] eqn:Hk; simpl;
      first [by left | right; split; [done|rewrite ?Hk; by eexists]]. }
  { exists 0%nat. by left. }
  clearbody e1. destruct (all_end_settled e1) as (Hs & Hk & Hdr).
  destruct (close_closes c (engine_run (all_end e1) e1) Hs) as (n & H1 & H2 & _); [by rewrite Hk|].
  exists n. right. unfold engine_run in *. rewrite !foldl_app. simpl. rewrite H2, Hdr, Hd1. simpl.
  unfold close_poll. by rewrite H1.
Qed.

(** ** Executions *)
Definition opus : RTCRtpCodecCapability := {| mime_type := "audio/opus"; clock_rate := 48000; channels := 2 |}.
Definition ok_poll : engine_op := PollDriver (Some (Ok ())).
(** A peer is prepared, its audio track arrives, and a close is cancelled halfway. *)
Definition demo_prepare : list engine_op :=
  [StartPrepare; ok_poll] ++ replicate 5 (CloseStep true) ++ replicate 7 ok_poll ++ [Track 0 Audio opus].
Definition demo_cancelled : list engine_op :=
  demo_prepare ++ [StartClose; ok_poll; CloseStep true; CommandEnds 0; CloseStep true; CloseStep true; CancelDriver].

Example demo_states :
  let e := engine_run demo_prepare new_engine in
  let e' := engine_run demo_cancelled new_engine in
  connections e = [{| pc_open := true; media := Some [0%nat] |}] ∧ driver e = None ∧
  media_tasks e = [(0%nat, TRunning)] ∧
  connections e' = [{| pc_open := true; media := None |}] ∧ media_tasks e' = [(0%nat, TAborted)] ∧
  closing (close_task e') = Some ({| rs_peer := 0; command := Some 0%nat |}, [0%nat]).
Proof. by vm_compute. Qed.

(** The next close adopts the one that was left running. *)
Definition demo_adopted : list engine_op :=
  demo_cancelled ++ [StartClose; ok_poll; MediaEnds 0] ++ replicate 5 (CloseStep true).
Lemma close_returns_clean_witness :
  driver (engine_run demo_adopted new_engine) = Some DClose ∧
  clean (driver_poll None DClose (engine_run demo_adopted new_engine)).2.
Proof.
  split; [by vm_compute|].
  assert (driver (engine_run demo_adopted new_engine) = Some DClose) as Hd by by vm_compute.
  refine (close_returns_clean demo_adopted DClose None Hd _). left. split; [by vm_compute|done].
Defined.

Definition demo_engine : Engine := engine_run demo_cancelled new_engine.
Definition late_tracks : list engine_op :=
  [Track 0 Audio opus; Track 0 Video {| mime_type := "video/H264"; clock_rate := 90000; channels := 0 |}].
Lemma demo_engine_taken : media_taken 0 demo_engine.
Proof.
  exists {| pc_open := true; media := None |}. split; [vm_compute; reflexivity|reflexivity].
Qed.
Lemma closed_peer_starts_nothing_witness :
  media_taken 0 demo_engine ∧ tasks_of 0 (engine_run late_tracks demo_engine) = tasks_of 0 demo_engine.
Proof.
  split; [exact demo_engine_taken|].
  exact (proj2 (closed_peer_starts_nothing 0 late_tracks demo_engine demo_engine_taken)).
Defined.

Lemma close_returns_witness :
  driver (engine_run (demo_cancelled ++ [StartClose]) new_engine) = Some DClose ∧
  ∃ n, let e := engine_run (demo_cancelled ++ [StartClose]) new_engine in
    let e1 := engine_step (PollDriver None) e in
    driver e1 = None ∨
    driver (engine_run (all_end e1 ++ replicate n (CloseStep true) ++ [PollDriver None]) e1) = None.
Proof.
  split; [by vm_compute|]. apply (close_returns (demo_cancelled ++ [StartClose])). by vm_compute.
Defined.
