(* ===== verification/Setup.v ===== *)
(** * Setting up a peer (src/src/infrastructure/rtc_engine/setup.rs)

    [create_peer_connection] as the script of its calls into the webrtc crate, which is
    the class [PeerApi], with what the script relies on as its laws.  The theorem: a
    peer that was set up advertises, for every transceiver, the codecs on offer that the
    media pipelines decode and no other, so that no track with an advertised codec is
    turned away; a setup that fails ends the preparation with its error, the channel
    closed and the registered peer, if any, without a task. *)
From S2P Require Import Prelude Json Channel Engine Peer.
#[local] Open Scope Z_scope.

Inductive RTCRtpTransceiverDirection := Recvonly | Sendrecv.
(** [TrackLocalStaticRTP::new]. *)
Record TrackLocalStaticRTP := { track_codec : RTCRtpCodecCapability; track_id : string; stream_id : string }.

(** The webrtc crate: a transceiver is a number; a call that fails returns no peer. *)
Class PeerApi (P : Type) := {
  register_default_codecs : PortResult ();
  register_default_interceptors : PortResult ();
  new_peer_connection : PortResult P;
  add_transceiver_from_kind : RTPCodecType → RTCRtpTransceiverDirection → P → PortResult P;
  add_track : TrackLocalStaticRTP → P → PortResult P;
  get_transceivers : P → list nat;
  transceiver_kind : P → nat → RTPCodecType;
  get_codecs : P → nat → list RTCRtpCodecCapability;
  set_codec_preferences : nat → list RTCRtpCodecCapability → P → PortResult P;
  create_data_channel : string → P → PortResult P;
}.
(** Preferences replace the codecs of one transceiver; a data channel changes none; a
    transceiver or a track changes no transceiver that is there, and a transceiver is
    added with the kind asked for. *)
Record same_transceivers {P} `{PeerApi P} (p p' : P) : Prop := {
  st_list : get_transceivers p' = get_transceivers p;
  st_kind t : transceiver_kind p' t = transceiver_kind p t;
}.
Class PeerApiLaws (P : Type) `{PeerApi P} : Prop := {
  transceivers_distinct p : NoDup (get_transceivers p);
  preferences_set t codecs p p' : set_codec_preferences t codecs p = Ok p' →
    same_transceivers p p' ∧ ∀ t', get_codecs p' t' = if decide (t' = t) then codecs else get_codecs p t';
  channel_created label p p' : create_data_channel label p = Ok p' →
    same_transceivers p p' ∧ ∀ t, get_codecs p' t = get_codecs p t;
  transceiver_added kind direction p p' : add_transceiver_from_kind kind direction p = Ok p' →
    ∃ t, get_transceivers p' = get_transceivers p ++ [t] ∧ transceiver_kind p' t = kind;
  track_added track p p' t : add_track track p = Ok p' → t ∈ get_transceivers p →
    t ∈ get_transceivers p' ∧ transceiver_kind p' t = transceiver_kind p t;
}.

Section setup.
Context {P : Type} `{PeerApi P}.

(** Keep the codecs the media pipelines decode. *)
Fixpoint advertise (transceivers : list nat) (p : P) : PortResult P :=
  match transceivers with
  | [] => Ok p
  | t :: transceivers =>
      codecs ← keep_supported (transceiver_kind p t) (get_codecs p t);
      p ← set_codec_preferences t codecs p;
      advertise transceivers p
  end.

Definition audio_track : TrackLocalStaticRTP :=
  {| track_codec := {| mime_type := "audio/opus"; clock_rate := 48000; channels := 2 |};
     track_id := "audio"; stream_id := "unitree-webrtc-audio" |}.
(** What follows the registration of the peer. *)
Definition setup_peer (p : P) : PortResult (P * TrackLocalStaticRTP) :=
  p ← add_transceiver_from_kind Video Recvonly p;
  p ← map_err (λ error, "Failed to add audio track: " +:+ error) (add_track audio_track p);
  p ← advertise (get_transceivers p) p;
  p ← create_data_channel "data" p;
  Ok (p, audio_track).
(** The result, and the peer it has registered with the engine's resources. *)
Definition create_peer_connection : PortResult (P * TrackLocalStaticRTP) * option P :=
  match (_ ← register_default_codecs; _ ← register_default_interceptors; new_peer_connection) with
  | Err e => (Err e, None)
  | Ok p => (setup_peer p, Some p)
  end.
(** The outcomes [prepare_offer] goes by: of the creation, and of the setup. *)
Definition creation_outcomes : PortResult () * PortResult () :=
  match create_peer_connection with
  | (Err e, None) => (Err e, Ok ())
  | (Err e, Some _) => (Ok (), Err e)
  | (Ok _, _) => (Ok (), Ok ())
  end.

Context `{!PeerApiLaws P}.

(** What is kept is what was on offer and is supported. *)
Definition decodable (p : P) (t : nat) : Prop :=
  get_codecs p t ≠ [] ∧ Forall (λ c, supported_codec (transceiver_kind p t) c = true) (get_codecs p t).
Lemma keep_supported_Ok kind l codecs :
  keep_supported kind l = Ok codecs →
  codecs ≠ [] ∧ codecs = List.filter (supported_codec kind) l ∧ Forall (λ c, supported_codec kind c = true) codecs.
Proof.
  unfold keep_supported. destruct (List.filter (supported_codec kind) l) as [|c cs] eqn:Hf; [done|].
  intros [= <-]. split_and!; [done|done|]. apply Forall_forall. intros x Hx. rewrite <- Hf in Hx.
  apply list_elem_of_In, filter_In in Hx. apply Hx.
Qed.
(** After [advertise], each transceiver it was given is decodable, whatever order they
    come in, and keeps of its codecs exactly the supported ones. *)
Lemma advertise_spec ts : ∀ p p', NoDup ts →
  advertise ts p = Ok p' →
  same_transceivers p p' ∧
  ∀ t, if decide (t ∈ ts)
       then decodable p' t ∧ get_codecs p' t = List.filter (supported_codec (transceiver_kind p t)) (get_codecs p t)
       else get_codecs p' t = get_codecs p t.
Proof.
  induction ts as [|t ts IH]; intros p p' Hnd; simpl; [by intros [= ->]|].
  apply NoDup_cons in Hnd as [Hnt Hnd].
  destruct (keep_supported (transceiver_kind p t) (get_codecs p t)) as [codecs|] eqn:Hk; [|done]. simpl.
  destruct (set_codec_preferences t codecs p) as [p1|] eqn:Hs; [|done]. simpl. intros Ha.
  destruct (preferences_set _ _ _ _ Hs) as [[Hl Hkind] Hc].
  destruct (IH p1 p' Hnd Ha) as [[Hl' Hkind'] Hc'].
  assert (same_transceivers p p') as Hsame.
  { split; [congruence|]. intros t'. by rewrite Hkind', Hkind. }
  split; [done|]. intros t'. specialize (Hc' t'). rewrite Hkind, (Hc t') in Hc'.
  destruct (decide (t' = t)) as [->|Hne].
  - rewrite decide_False in Hc' by done. rewrite decide_True by apply list_elem_of_here.
    destruct (keep_supported_Ok _ _ _ Hk) as (Hne & Heq & Hsup).
    unfold decodable. rewrite Hc', (st_kind _ _ Hsame). by split_and!.
  - destruct (decide (t' ∈ ts)) as [Hin|Hin].
    + by rewrite decide_True by by apply list_elem_of_further.
    + by rewrite decide_False by (intros [|]%elem_of_cons; done).
Qed.
Lemma setup_peer_spec p p' track :
  setup_peer p = Ok (p', track) →
  track = audio_track ∧ (∀ t, t ∈ get_transceivers p' → decodable p' t) ∧
  ∃ t, t ∈ get_transceivers p' ∧ transceiver_kind p' t = Video.
Proof.
  unfold setup_peer.
  destruct (add_transceiver_from_kind Video Recvonly p) as [p1|] eqn:H1; [|done]. simpl.
  destruct (add_track audio_track p1) as [p2|] eqn:H2; [|done]. simpl.
  destruct (advertise (get_transceivers p2) p2) as [p3|] eqn:H3; [|done]. simpl.
  destruct (create_data_channel "data" p3) as [p4|] eqn:H4; [|done]. simpl. intros [= <- <-].
  destruct (transceiver_added _ _ _ _ H1) as (v & Hl1 & Hk1).
  destruct (track_added _ _ _ v H2) as [Hv Hk2]; [rewrite Hl1; by apply elem_of_app; right; apply list_elem_of_here|].
  destruct (advertise_spec _ _ _ (transceivers_distinct p2) H3) as [[Hl3 Hk3] Hc3].
  destruct (channel_created _ _ _ H4) as [[Hl4 Hk4] Hc4]. split; [done|]. split.
  - intros t Ht. rewrite Hl4, Hl3 in Ht. specialize (Hc3 t). rewrite decide_True in Hc3 by done.
    unfold decodable. rewrite Hc4, Hk4. apply Hc3.
  - exists v. rewrite Hl4, Hl3, Hk4, Hk3. split; [done|congruence].
Qed.
(** A track with a codec it may have starts its media task. *)
Lemma decodable_track p t c i l e :
  decodable p t → c ∈ get_codecs p t → connections e !! i ≫= media = Some l →
  length (media_tasks (on_track i (transceiver_kind p t) c e)) = S (length (media_tasks e)).
Proof.
  intros [_ Hf] Hc Hm. rewrite Forall_forall in Hf. specialize (Hf c Hc). unfold on_track. rewrite Hf, Hm.
  destruct (transceiver_kind p t); [done| |]; simpl; by rewrite length_app, Nat.add_comm.
Qed.

(** *** A failed preparation *)
Section engine.
Context {C : Type → Type} `{Chan C}.
Implicit Types (e : RtcEngine C).
Lemma close_inner_shut e :
  (holder e < length (cells e))%nat →
  Engine.ready_state (close_inner e) = "closed" ∧ command_tx (close_inner e) = None ∧
  length (peers (close_inner e)) = length (peers e).
Proof.
  intros Hlt. split_and!; [|done|].
  - unfold Engine.ready_state, current_ready_state, cell_value. simpl.
    by rewrite list_lookup_insert_eq by (by rewrite length_insert).
  - simpl. destruct (command_tx e), (Engine.command_task e); by rewrite ?length_alter.
Qed.
(** [prepare_offer] after its first close. *)
Definition prepared e : RtcEngine C := Engine.set_ready_state Connecting (reset_ready_state (close_inner e)).
Lemma prepared_spec e :
  (holder (prepared e) < length (cells (prepared e)))%nat ∧ length (peers (prepared e)) = length (peers e) ∧
  command_tx (prepared e) = None ∧ Engine.command_task (prepared e) = None.
Proof.
  split_and!; [|simpl; destruct (command_tx e), (Engine.command_task e); by rewrite ?length_alter|done|done].
  unfold prepared, Engine.set_ready_state, store_cell. cbn [holder cells with_cells reset_ready_state].
  rewrite length_insert. unfold reset_ready_state. cbn [cells]. rewrite length_app. simpl. lia.
Qed.
(** It ends with the error, the channel closed and nothing that sends. *)
Definition preparation_failed (error : string) (registered : bool) e
    (r : PortResult string * RtcEngine C) : Prop :=
  r.1 = Err error ∧ Engine.ready_state r.2 = "closed" ∧ command_tx r.2 = None ∧
  length (peers r.2) = (length (peers e) + (if registered then 1 else 0))%nat ∧
  ∀ i p, (length (peers e) ≤ i)%nat → peers r.2 !! i = Some p → p_sending p = false.
Lemma creation_failed error setup offer e :
  preparation_failed error false e (prepare_offer (Err error) setup offer e).
Proof.
  destruct (prepared_spec e) as (Hlt & Hl & Htx & Ht). destruct (close_inner_shut _ Hlt) as (Hr & Hc & Hp).
  unfold prepare_offer. fold (prepared e). split_and!; [done|done|done|simpl fst; simpl snd; lia|].
  intros i p Hi Hpi. apply lookup_lt_Some in Hpi. simpl snd in Hpi. lia.
Qed.
Lemma setup_failed error offer e :
  preparation_failed error true e (prepare_offer (Ok ()) (Err error) offer e).
Proof.
  destruct (prepared_spec e) as (Hlt & Hl & Htx & Ht).
  unfold prepare_offer. fold (prepared e). set (e1 := with_peers _ (prepared e)).
  destruct (close_inner_shut e1 Hlt) as (Hr & Hc & Hp). simpl snd in *.
  assert (length (peers e1) = S (length (peers e))) as Hl1.
  { unfold e1. simpl. rewrite length_app. simpl in *. lia. }
  split_and!; [done|done|done|simpl snd; lia|]. intros i p Hi Hpi. pose proof (lookup_lt_Some _ _ _ Hpi) as Hlti.
  simpl snd in *. replace i with (length (peers (prepared e))) in Hpi by lia.
  unfold close_inner in Hpi. simpl in Hpi. rewrite list_lookup_middle in Hpi by done. by simplify_eq.
Qed.

(** C23: a peer that was set up has been registered, has a video transceiver and
    advertises for every transceiver at least one codec and only codecs that are
    decoded: no track with an advertised codec is turned away; and [prepare_offer] goes
    on to the offer.  A setup that fails makes [prepare_offer] fail with its error, for
    every engine: the channel is closed, no command is accepted, and there is no new
    peer, or the one that was registered and sends nothing. *)
Theorem setup_advertises_decodable e offer :
  let prepared := prepare_offer creation_outcomes.1 creation_outcomes.2 offer e in
  match create_peer_connection with
  | (Ok (p, track), registered) =>
      is_Some registered ∧ prepared.1 = offer ∧
      (∃ t, t ∈ get_transceivers p ∧ transceiver_kind p t = Video) ∧
      ∀ t c i l r, t ∈ get_transceivers p → get_codecs p t ≠ [] ∧
        (c ∈ get_codecs p t → connections r !! i ≫= media = Some l →
         length (media_tasks (on_track i (transceiver_kind p t) c r)) = S (length (media_tasks r)))
  | (Err error, registered) =>
      preparation_failed error (if registered then true else false) e prepared
  end.
Proof.
  unfold creation_outcomes, create_peer_connection.
  destruct (_ ← register_default_codecs; _) as [p|error]; [|apply creation_failed].
  destruct (setup_peer p) as [[p' track]|error] eqn:Hs; [|apply setup_failed].
  destruct (setup_peer_spec _ _ _ Hs) as (-> & Hd & Hv). split_and!; [by exists p|by destruct offer|done|].
  intros t c i l r Ht. split; [apply (Hd t Ht)|]. intros Hc Hm. by apply (decodable_track p' t c i l r (Hd t Ht)).
Qed.
End engine.
End setup.

(** ** A concrete peer: each transceiver with its kind and codecs *)
#[local] Definition h264 : RTCRtpCodecCapability := {| mime_type := "video/H264"; clock_rate := 90000; channels := 0 |}.
#[local] Definition vp8 : RTCRtpCodecCapability := {| mime_type := "video/VP8"; clock_rate := 90000; channels := 0 |}.
#[local] Definition toy_peer : Type := list (RTPCodecType * list RTCRtpCodecCapability).
#[local] Definition toy_codecs (kind : RTPCodecType) : list RTCRtpCodecCapability :=
  match kind with Video => [vp8; h264] | _ => [track_codec audio_track] end.
#[local] Instance toy_peer_api : PeerApi toy_peer := {|
  register_default_codecs := Ok ();
  register_default_interceptors := Ok ();
  new_peer_connection := Ok [];
  add_transceiver_from_kind kind _ p := Ok (p ++ [(kind, toy_codecs kind)]);
  add_track _ p := Ok (p ++ [(Audio, toy_codecs Audio)]);
  get_transceivers p := seq 0 (length p);
  transceiver_kind p t := default CodecUnspecified (fst <$> (p !! t));
  get_codecs p t := default [] (snd <$> (p !! t));
  set_codec_preferences t codecs p :=
    if decide (t < length p)%nat then Ok (alter (λ x, (x.1, codecs)) t p) else Err "no such transceiver";
  create_data_channel _ p := Ok p;
|}.
#[local] Instance toy_peer_laws : PeerApiLaws toy_peer.
Proof.
  split.
  - intros p. apply NoDup_seq.
  - simpl. intros t codecs p p'. destruct (decide (t < length p)%nat) as [Hlt|]; [|done]. intros [= <-].
    destruct (lookup_lt_is_Some_2 p t Hlt) as [[k cs] Hp].
    split; [split; [by simpl; rewrite length_alter|]|]; intros t'; simpl; destruct (decide (t' = t)) as [->|Hne];
      rewrite ?list_lookup_alter_eq, ?list_lookup_alter_ne, ?Hp by done; done.
  - simpl. intros label p p' [= <-]. by split; [split|].
  - simpl. intros kind direction p p' [= <-]. exists (length p).
    rewrite length_app, seq_app. simpl. by rewrite list_lookup_middle.
  - simpl. intros track p p' t [= <-] Ht%elem_of_seq. rewrite elem_of_seq, length_app.
    split; [simpl; lia|]. by rewrite lookup_app_l by lia.
Qed.
Example setup_demo :
  (λ r, (get_transceivers (P:=toy_peer) r.1, (λ t, mime_type <$> get_codecs (P:=toy_peer) r.1 t) <$> get_transceivers (P:=toy_peer) r.1))
    <$> ok (create_peer_connection (P:=toy_peer)).1 =
  Some ([0; 1]%nat, [["video/H264"]; ["audio/opus"]]).
Proof. vm_compute. reflexivity. Qed.
Lemma setup_advertises_decodable_witness :
  ∃ p, ok (create_peer_connection (P:=toy_peer)).1 = Some (p, audio_track) ∧
    ∀ c, c ∈ get_codecs (P:=toy_peer) p 0 →
      length (media_tasks (on_track 0 Video c (register 0
        (with_connections [{| pc_open := true; media := Some [] |}] Peer.new_engine)))) = 1%nat.
Proof.
  pose proof (setup_advertises_decodable (P:=toy_peer) (Engine.new_engine (bounded 8) : RtcEngine vec_chan) (Ok "v=0")) as Hs.
  destruct (create_peer_connection (P:=toy_peer)) as [[[p track]|error] registered] eqn:Hc;
    [|vm_compute in Hc; discriminate Hc].
  assert (p = [(Video, [h264]); (Audio, [track_codec audio_track])] ∧ track = audio_track) as [-> ->]
    by (vm_compute in Hc; injection Hc as <- <- _; split; reflexivity).
  eexists. split; [reflexivity|]. destruct Hs as (_ & _ & _ & Hs). intros c Hin.
  refine (proj2 (Hs 0%nat c 0%nat [] _ _) Hin _); [vm_compute; apply list_elem_of_here|reflexivity].
Defined.
