(* ===== verification/Lifetime.v ===== *)
(** * The life of a peer (src/src/infrastructure/rtc_engine/engine.rs)

    [Engine] models the ready state, the command queue and the generations with
    preparing and closing as one operation each; [Peer] cuts the two at their awaits
    but models only what they own.  Here the two run together: every await of
    [prepare_offer] and [close_inner], every callback, every step of a command task,
    aborted or not, and every call of the ports is a step of its own.  The theorems:
    the machine is a run of [Peer]'s; the ready state is open only while the one open
    peer connection is of the current generation and no close has begun; a close that
    returns leaves nothing that can act; and an uninterrupted [prepare_offer] is
    [Engine]'s. *)
From S2P Require Import Prelude Floats Json Ingress Channel Utf8 Ports Engine EngineProps Peer.
#[local] Open Scope Z_scope.

Section lifetime.
Context {C : Type → Type} `{Chan C}.
Implicit Types (e : RtcEngine C) (r : Peer.Engine).

(** ** The operations between two awaits *)

(** [close_inner] up to its first await; the abort of the command task is a request. *)
Definition begin_close e : RtcEngine C :=
  let e := set_ready_state Closed e in
  let l := match command_tx e with
           | Some i => alter (λ p, p_with_commands (close_tx (p_commands p)) p) i (peers e)
           | None => peers e
           end in
  with_command None None (with_peers l e).

(** [prepare_offer] between its close and the creation of the peer, and what
    [create_peer_connection] captures. *)
Definition begin_prepare e : RtcEngine C := set_ready_state Connecting (reset_ready_state e).

(** The peer exists and its handlers are bound; nothing sends yet. *)
Definition p_bound (generation : Z) e : Peer C :=
  {| p_generation := generation; p_cell := holder e; p_commands := bounded COMMAND_QUEUE_CAPACITY;
     p_sending := false; p_inflight := None; p_wire := [] |}.
Definition bind_peer (generation : Z) e : RtcEngine C :=
  with_peers (peers e ++ [p_bound generation e]) e.

(** The command queue and its task; [owned]: the resources are still registered. *)
Definition p_started (p : Peer C) : Peer C :=
  {| p_generation := p_generation p; p_cell := p_cell p;
     p_commands := bounded COMMAND_QUEUE_CAPACITY; p_sending := true; p_inflight := None;
     p_wire := p_wire p |}.
Definition start_commands (owned : bool) (i : nat) e : RtcEngine C :=
  with_command (Some i) (if owned then Some i else Engine.command_task e)
    (with_peers (alter p_started i (peers e)) e).

(** ** The machine *)

(** [task_peer]: the peer of each command task; [captured]: the generation
    [prepare_offer_inner] loaded. *)
Record Lifetime := {
  rtc : RtcEngine C;
  res : Peer.Engine;
  task_peer : list nat;
  captured : Z;
}.
Implicit Types (s : Lifetime).

Definition with_rtc e s : Lifetime :=
  {| rtc := e; res := res s; task_peer := task_peer s; captured := captured s |}.
Definition with_res r s : Lifetime :=
  {| rtc := rtc s; res := r; task_peer := task_peer s; captured := captured s |}.
Definition with_tasks (l : list nat) s : Lifetime :=
  {| rtc := rtc s; res := res s; task_peer := l; captured := captured s |}.
Definition with_captured (g : Z) s : Lifetime :=
  {| rtc := rtc s; res := res s; task_peer := task_peer s; captured := g |}.

Definition new_lifetime (q : C IngressMessage) : Lifetime :=
  {| rtc := Engine.new_engine q; res := Peer.new_engine; task_peer := []; captured := 0 |}.

(** A step of [close_inner]: its last one stores [Closed] again. *)
Definition life_close (ready : bool) (c : close_pc) s : Lifetime :=
  let s' := with_res (close_step ready c (res s)) s in
  match c, close_task (res s') with
  | CloseStart, _ => with_rtc (begin_close (rtc s)) s'
  | CloseDone, _ => s'
  | _, Some CloseDone => with_rtc (set_ready_state Closed (rtc s)) s'
  | _, _ => s'
  end.

(** A poll of the caller. *)
Definition life_poll (outcome : option (PortResult ())) (d : driver_pc) s :
    option (PortResult ()) * Lifetime :=
  let polled := driver_poll outcome d (res s) in
  let s' := with_res polled.2 s in
  (polled.1,
   match d, outcome with
   | DPrepClose, _ =>
       match driver polled.2 with
       | Some DCreate =>
           with_captured (ingress_generation (rtc s)) (with_rtc (begin_prepare (rtc s)) s')
       | _ => s'
       end
   | DCreate, Some (Ok _) => with_rtc (bind_peer (captured s) (rtc s)) s'
   | DStoreTrack p, _ =>
       let owned := match peer_resources (res s) with Some _ => true | None => false end in
       with_tasks (task_peer s ++ [p]) (with_rtc (start_commands owned p (rtc s)) s')
   | _, _ => s'
   end).

(** A step [f] of command task [c], which ends when its peer no longer sends. *)
Definition sends (i : nat) e : bool :=
  match peers e !! i with Some p => p_sending p | None => false end.
Definition task_moves (c : nat) (f : nat → RtcEngine C → RtcEngine C) s : Lifetime :=
  match task_peer s !! c with
  | None => s
  | Some i =>
      if negb (sends i (rtc s)) then s else
      let s' := with_rtc (f i (rtc s)) s in
      if sends i (rtc s') then s' else with_res (engine_step (CommandEnds c) (res s)) s'
  end.
(** The executor drops an aborted task. *)
Definition stop_task (i : nat) e : RtcEngine C := with_peers (alter p_aborted i (peers e)) e.
Definition drop_task (c : nat) s : Lifetime :=
  match task_peer s !! c with
  | None => s
  | Some i => with_res (engine_step (CommandEnds c) (res s)) (with_rtc (stop_task i (rtc s)) s)
  end.

Inductive life_op :=
  | LStartClose | LStartPrepare
  | LPoll (outcome : option (PortResult ()))
  | LCancel
  | LClose (ready : bool)
  | LTrack (p : nat) (kind : RTPCodecType) (codec : RTCRtpCodecCapability)
  | LMediaEnds (t : nat)
  | LSendBegin (c : nat) | LSendEnd (c : nat) (outcome : PortResult ()) | LAborted (c : nat)
  | LEngine (o : @eng_op C).       (* callbacks, and calls of the ports *)

(** The operations of [Engine] that are steps of their own here. *)
Definition cut (o : @eng_op C) : bool :=
  match o with EPrepare _ _ _ | EClose | ESendBegin _ | ESendEnd _ _ => true | _ => false end.

Definition life_step (o : life_op) s : Lifetime :=
  match o with
  | LStartClose => with_res (engine_step StartClose (res s)) s
  | LStartPrepare => with_res (engine_step StartPrepare (res s)) s
  | LPoll outcome => match driver (res s) with Some d => (life_poll outcome d s).2 | None => s end
  | LCancel => with_res (engine_step CancelDriver (res s)) s
  | LClose ready => match close_task (res s) with Some c => life_close ready c s | None => s end
  | LTrack p kind codec => with_res (engine_step (Track p kind codec) (res s)) s
  | LMediaEnds t => with_res (engine_step (MediaEnds t) (res s)) s
  | LSendBegin c => task_moves c send_begin s
  | LSendEnd c outcome => task_moves c (λ i, send_end i outcome) s
  | LAborted c =>
      if decide (command_tasks (res s) !! c = Some TAborted) then drop_task c s else s
  | LEngine o => if cut o then s else with_rtc (eng_step o (rtc s)) s
  end.
Definition life_run (l : list life_op) s : Lifetime := foldl (λ s o, life_step o s) s l.

(** ** What [Peer] sees *)
Lemma life_poll_res outcome d s :
  driver (res s) = Some d →
  res (life_poll outcome d s).2 = engine_step (PollDriver outcome) (res s).
Proof.
  intros Hd. unfold engine_step. rewrite Hd. unfold life_poll. simpl.
  destruct d; try done; try (by destruct outcome as [[[]|]|]).
  by destruct (driver (driver_poll _ _ _).2) as [[]|].
Qed.
Lemma life_close_res ready c s :
  close_task (res s) = Some c → res (life_close ready c s) = engine_step (CloseStep ready) (res s).
Proof.
  intros Hc. unfold engine_step. rewrite Hc. unfold life_close.
  set (r := close_step ready c (res s)). change (res (with_res r s)) with r.
  destruct c; try done; by destruct (close_task r) as [[]|].
Qed.
Lemma task_moves_res c f s :
  res (task_moves c f s) = res s ∨ res (task_moves c f s) = engine_step (CommandEnds c) (res s).
Proof.
  unfold task_moves. destruct (task_peer s !! c) as [i|]; [|by left].
  destruct (negb _); [by left|]. destruct (sends i _); [by left|by right].
Qed.

(** A step is a step of [Peer], or none. *)
Lemma life_step_res o s :
  res (life_step o s) = res s ∨ ∃ o', res (life_step o s) = engine_step o' (res s).
Proof.
  destruct o as [| |outcome| |ready|p kind codec|t|c|c outcome|c|o]; unfold life_step; eauto.
  - destruct (driver (res s)) as [d|] eqn:Hd; [|by left]. right.
    exists (PollDriver outcome). by apply life_poll_res.
  - destruct (close_task (res s)) as [c|] eqn:Hc; [|by left]. right.
    exists (CloseStep ready). by apply life_close_res.
  - destruct (task_moves_res c send_begin s); eauto.
  - destruct (task_moves_res c (λ i, send_end i outcome) s); eauto.
  - destruct (decide _); [|by left]. unfold drop_task. destruct (task_peer s !! c); eauto.
  - destruct (cut o); by left.
Qed.
Lemma life_run_res l s :
  ∃ l', (length l' ≤ length l)%nat ∧ res (life_run l s) = engine_run l' (res s).
Proof.
  revert s. induction l as [|o l IH]; intros s; [by exists []|].
  destruct (IH (life_step o s)) as (l' & Hlen & Hl).
  destruct (life_step_res o s) as [Hs|[o' Hs]]; rewrite Hs in Hl.
  - exists l'. split; [simpl; lia|done].
  - exists (o' :: l'). split; [simpl; lia|done].
Qed.

(** ** Changes of the engine that keep its peers *)

(** The same peers with the same cells, no task started, [Closed] final, and a new
    generation only with the current cell closed. *)
Record calm e e' : Prop := {
  cm_holder : holder e' = holder e;
  cm_cells : length (cells e') = length (cells e);
  cm_peers : length (peers e') = length (peers e);
  cm_peer : ∀ i p', peers e' !! i = Some p' → ∃ p, peers e !! i = Some p ∧
    p_cell p' = p_cell p ∧ p_generation p' = p_generation p ∧
    (p_sending p' = true → p_sending p = true);
  cm_tx : command_tx e' = command_tx e ∨ command_tx e' = None;
  cm_closed : ∀ k, cells e !! k = Some 0 → cells e' !! k = Some 0;
  cm_generation : ingress_generation e' = ingress_generation e ∨ cells e' !! holder e' = Some 0;
  cm_open : current_ready_state e' = Open →
    current_ready_state e = Open ∨ ∃ i p, peers e !! i = Some p ∧ p_cell p = holder e;
}.

Lemma calm_fields e e' :
  cells e' = cells e → holder e' = holder e → peers e' = peers e →
  command_tx e' = command_tx e → ingress_generation e' = ingress_generation e → calm e e'.
Proof.
  intros Hc Hh Hp Ht Hg. split; rewrite ?Hc, ?Hh, ?Hp, ?Hg; eauto.
  unfold current_ready_state, cell_value. rewrite Hc, Hh. by left.
Qed.
Lemma calm_refl e : calm e e.
Proof. by apply calm_fields. Qed.
Lemma calm_trans e1 e2 e3 : calm e1 e2 → calm e2 e3 → calm e1 e3.
Proof.
  intros [Hh Hc Hl Hp Ht Hcl Hg Ho] [Hh' Hc' Hl' Hp' Ht' Hcl' Hg' Ho'].
  split; try congruence; eauto.
  - intros i p3 Hi. destruct (Hp' _ _ Hi) as (p2 & Hi2 & ? & ? & ?).
    destruct (Hp _ _ Hi2) as (p1 & Hi1 & ? & ? & ?). exists p1. split_and!; [done|congruence|congruence|auto].
  - destruct Ht' as [-> |]; auto.
  - destruct Hg' as [->|]; [|by right]. destruct Hg as [|Hg]; [by left|right].
    rewrite Hh'. auto.
  - intros H3. destruct (Ho' H3) as [?|(i & p & Hi & Hcell)]; [auto|].
    destruct (Hp _ _ Hi) as (p1 & Hi1 & Hc1 & _). right. exists i, p1. split; [done|congruence].
Qed.
Lemma calm_store i e : calm e (store_cell i Closed e).
Proof.
  split; simpl; eauto; [by rewrite length_insert|..].
  - intros k Hk. destruct (decide (i = k)) as [<-|Hne].
    + apply list_lookup_insert_eq. by eapply lookup_lt_Some.
    + by rewrite list_lookup_insert_ne.
  - intros Ho. left. by eapply store_closed_open.
Qed.
Lemma calm_insert e i p p' :
  peers e !! i = Some p → p_cell p' = p_cell p → p_generation p' = p_generation p →
  (p_sending p' = true → p_sending p = true) → calm e (with_peers (<[i := p']> (peers e)) e).
Proof.
  intros Hp Hc Hg Hs. split; simpl; eauto; [by rewrite length_insert|].
  intros j pj [(-> & <- & _)|[_ Hj]]%list_lookup_insert_Some; eauto.
Qed.
Lemma calm_alter e i f :
  (∀ p, p_cell (f p) = p_cell p ∧ p_generation (f p) = p_generation p ∧
        (p_sending (f p) = true → p_sending p = true)) →
  calm e (with_peers (alter f i (peers e)) e).
Proof.
  intros Hf. split; simpl; eauto; [by rewrite length_alter|].
  intros j pj [(-> & p & Hp & ->)|[_ Hj]]%lookup_alter_Some; eauto.
Qed.
Lemma calm_fault g i e : calm e (record_transport_fault g i e).
Proof.
  unfold record_transport_fault. destruct (negb _); [apply calm_refl|].
  eapply calm_trans; [apply (calm_store i)|]. destruct (chan_send _ _); by apply calm_fields.
Qed.

Lemma calm_send_begin i e : calm e (send_begin i e).
Proof.
  unfold send_begin. destruct (peers e !! i) as [p|] eqn:Hp; [|apply calm_refl].
  destruct (p_sending p) eqn:Hs; [|apply calm_refl]. simpl.
  destruct (p_inflight p); [apply calm_refl|].
  destruct (chan_recv (p_commands p)) as [[c q]|[]]; [|apply calm_refl|by eapply calm_insert].
  destruct (negb _); [by eapply calm_insert|]. destruct (negb _); [|by eapply calm_insert].
  eapply calm_trans; [|apply calm_fault]. by eapply calm_insert.
Qed.
Lemma calm_send_end i outcome e : calm e (send_end i outcome e).
Proof.
  unfold send_end. destruct (peers e !! i) as [p|] eqn:Hp; [|apply calm_refl].
  destruct (p_sending p); [|apply calm_refl]. simpl. destruct (p_inflight p); [|apply calm_refl].
  destruct outcome; [by eapply calm_insert|].
  eapply calm_trans; [|apply calm_fault]. by eapply calm_insert.
Qed.
Lemma calm_channel_event i event e : calm e (channel_event i event e).
Proof.
  unfold channel_event. destruct (peers e !! i) as [p|] eqn:Hp; [|apply calm_refl].
  destruct (negb _); [apply calm_refl|]. split; simpl; eauto; [by rewrite length_alter|..].
  - intros k Hk. destruct (decide (p_cell p = k)) as [->|Hne].
    + by rewrite list_lookup_alter_eq, Hk.
    + by rewrite list_lookup_alter_ne.
  - intros Ho. destruct (decide (p_cell p = holder e)) as [Hc|Hne]; [right; eauto|left].
    revert Ho. unfold current_ready_state, cell_value. simpl. by rewrite list_lookup_alter_ne.
Qed.
Lemma calm_set_generation g e :
  (holder e < length (cells e))%nat → calm e (Engine.set_ingress_generation g e).2.
Proof.
  intros Hlt. unfold Engine.set_ingress_generation. simpl.
  destruct (Z.eqb_spec (ingress_generation e) g) as [<-|Hne]; simpl; [by apply calm_fields|].
  split; simpl; eauto; [by rewrite length_insert|..].
  - intros k Hk. destruct (decide (holder e = k)) as [<-|].
    + by apply list_lookup_insert_eq.
    + by rewrite list_lookup_insert_ne.
  - right. by apply list_lookup_insert_eq.
  - intros Ho. left. by apply (store_closed_open (holder e) (with_generation g (with_fault None e))).
Qed.
Lemma calm_try_command size c e : calm e (try_command size c e).2.
Proof.
  destruct (try_command_step size c e) as [->|(i & p & q & -> & Hp & _)]; [apply calm_refl|].
  by eapply calm_insert.
Qed.
Lemma calm_on_message i is_string data e : calm e (on_message i is_string data e).2.
Proof.
  unfold on_message. destruct (peers e !! i) as [p|]; [|apply calm_refl].
  assert (∀ payload, calm e (enqueue_current (p_generation p) payload e).2) as He.
  { intros payload. unfold enqueue_current. destruct (negb _); [apply calm_refl|].
    destruct (chan_send _ _) as [|[]]; by apply calm_fields. }
  destruct (cell_value _ _); try apply calm_refl;
    (destruct (negb _); [apply calm_refl|]; destruct (negb _); [apply calm_refl|];
     destruct is_string; [destruct (decode_text_message data); [apply He|apply calm_refl]|apply He]).
Qed.

Lemma calm_step o e : cut o = false → (holder e < length (cells e))%nat → calm e (eng_step o e).
Proof.
  intros Ho Hlt.
  destruct o as [created setup offer| |m|b|i|i outcome|i event|i state|i is_string data|g| |q]; try done; simpl.
  - apply calm_try_command.
  - apply calm_try_command.
  - apply calm_channel_event.
  - destruct state; try apply calm_refl; apply calm_channel_event.
  - apply calm_on_message.
  - by apply calm_set_generation.
  - by apply calm_fields.
  - by apply calm_fields.
Qed.
Lemma calm_close e : calm e (begin_close e).
Proof.
  eapply calm_trans; [apply (calm_store (holder e))|].
  eapply (calm_trans _ (with_peers (match command_tx e with
    | Some i => alter (λ p, p_with_commands (close_tx (p_commands p)) p) i (peers e)
    | None => peers e end) (set_ready_state Closed e))).
  - destruct (command_tx e) as [i|]; [|by apply calm_fields]. by apply (calm_alter (set_ready_state Closed e)).
  - split; simpl; eauto.
Qed.
Lemma calm_stop i e : calm e (stop_task i e).
Proof. apply calm_alter. intros p. unfold p_aborted. destruct (p_sending p) eqn:Hs; split_and!; try done; congruence. Qed.
Lemma stop_task_sends i e : sends i (stop_task i e) = false.
Proof.
  unfold sends, stop_task. simpl. rewrite list_lookup_alter_eq. destruct (peers e !! i) as [p|]; [|done].
  apply aborted_spec.
Qed.

(** ** The invariant *)

(** The peer of the current cell. *)
Definition current e (i : nat) : Prop := ∃ p, peers e !! i = Some p ∧ p_cell p = holder e.
Definition running r (c : nat) : Prop :=
  ∃ st, command_tasks r !! c = Some st ∧ st ≠ TEnded.
Definition live r (i : nat) : Prop :=
  owns r i ∧ ∃ c, connections r !! i = Some c ∧ pc_open c = true.

Record life_inv s : Prop := {
  li_res : engine_inv (res s);
  li_peers : length (peers (rtc s)) = length (connections (res s));
  li_tasks : length (task_peer s) = length (command_tasks (res s));
  li_holder : (holder (rtc s) < length (cells (rtc s)))%nat;
  li_cell i p : peers (rtc s) !! i = Some p → p_cell p ≠ holder (rtc s) →
    (p_cell p < holder (rtc s))%nat ∧ cells (rtc s) !! p_cell p = Some 0;
  li_unique i j : current (rtc s) i → current (rtc s) j → i = j;
  li_sending i : sends i (rtc s) = true → current (rtc s) i ∧
    ∃ c, task_peer s !! c = Some i ∧ running (res s) c;
  li_tx i : command_tx (rtc s) = Some i → current (rtc s) i;
  li_owned i : owns (res s) i → current (rtc s) i ∧ live (res s) i;
  li_live i : current (rtc s) i → owns (res s) i ∨ cells (rtc s) !! holder (rtc s) = Some 0;
  li_generation i p : peers (rtc s) !! i = Some p → p_cell p = holder (rtc s) →
    cells (rtc s) !! holder (rtc s) ≠ Some 0 → p_generation p = ingress_generation (rtc s);
  li_open : current_ready_state (rtc s) = Open → ∃ i, current (rtc s) i;
  li_closed : (1 ≤ stage (close_task (res s)))%nat →
    cells (rtc s) !! holder (rtc s) = Some 0 ∧ command_tx (rtc s) = None;
  li_create : driver (res s) = Some DCreate → (∀ i, ¬ current (rtc s) i) ∧
    (cells (rtc s) !! holder (rtc s) ≠ Some 0 → captured s = ingress_generation (rtc s));
}.

Lemma new_lifetime_inv q : life_inv (new_lifetime q).
Proof.
  split; simpl; try done; try (intros; lia).
  - apply fresh_engine_inv.
  - by intros i j (p & Hp & _).
  - by intros i (r & Hr & _).
  - by intros i (p & Hp & _).
Qed.

(** The peers of [e] under a calm change. *)
Lemma calm_current e e' i : calm e e' → current e' i ↔ current e i.
Proof.
  intros [Hh _ Hl Hp _ _ _ _]. split.
  - intros (p' & Hi & Hc). destruct (Hp _ _ Hi) as (p & ? & Hcell & _). exists p. split; [done|congruence].
  - intros (p & Hi & Hc). destruct (lookup_lt_is_Some_2 (peers e') i) as [p' Hi'].
    { rewrite Hl. by eapply lookup_lt_Some. }
    destruct (Hp _ _ Hi') as (q & Hq & Hcell & _). exists p'. split; [done|]. simplify_eq. congruence.
Qed.
Lemma calm_sends e e' i : calm e e' → sends i e' = true → sends i e = true.
Proof.
  intros [_ _ _ Hp _ _ _ _]. unfold sends. destruct (peers e' !! i) as [p'|] eqn:Hi; [|done].
  destruct (Hp _ _ Hi) as (p & -> & _ & _ & Hs). done.
Qed.

Lemma calm_inv s e' : life_inv s → calm (rtc s) e' → life_inv (with_rtc e' s).
Proof.
  intros [Hr Hpe Hta Hh Hce Hu Hse Htx Hown Hli Hge Hop Hcl Hcr] Hm.
  pose proof (λ i, calm_current _ _ i Hm) as Hcur. pose proof (λ i, calm_sends _ _ i Hm) as Hsend.
  pose proof Hm as [Ch Cc Cl Cp Ct Ccl Cg Co].
  split; simpl; try done; try congruence.
  - intros i p' Hi Hne. destruct (Cp _ _ Hi) as (p & Hp & Hcell & _).
    rewrite Ch, Hcell in *. destruct (Hce _ _ Hp Hne). auto.
  - intros i j ?%Hcur ?%Hcur. auto.
  - intros i Hs. destruct (Hse i (Hsend i Hs)) as [? ?]. by rewrite Hcur.
  - intros i Hi. rewrite Hcur. destruct Ct as [Ct|Ct]; rewrite Ct in Hi; [auto|done].
  - intros i Hi. rewrite Hcur. auto.
  - intros i Hi%Hcur. destruct (Hli i Hi); [by left|right]. rewrite Ch. auto.
  - intros i p' Hi Hc Hno. destruct (Cp _ _ Hi) as (p & Hp & Hcell & -> & _).
    destruct Cg as [->|]; [|done]. apply (Hge i); [done|congruence|].
    rewrite Ch in Hno. auto.
  - intros Ho. destruct (Co Ho) as [Ho'|(i & Hi)].
    + destruct (Hop Ho') as [i Hi]. exists i. by apply Hcur.
    + exists i. by apply Hcur.
  - intros Hs. destruct (Hcl Hs) as [Hz Ht]. rewrite Ch. split; [auto|].
    destruct Ct; congruence.
  - intros Hd. destruct (Hcr Hd) as [Hno Hg]. split; [intros i; by rewrite Hcur|].
    intros Hz. destruct Cg as [->|]; [|done]. apply Hg. intros Hz'. apply Hz. rewrite Ch. auto.
Qed.

(** ** Changes of the resources that keep the engine *)
Record quiet r r' : Prop := {
  qt_connections : length (connections r') = length (connections r);
  qt_tasks : length (command_tasks r') = length (command_tasks r);
  qt_running c : running r c → running r' c;
  qt_owns i : owns r' i → owns r i;
  qt_live i : owns r' i → live r i → live r' i;
  qt_kept i : owns r i → owns r' i ∨ (1 ≤ stage (close_task r))%nat;
  qt_create : driver r' = Some DCreate → driver r = Some DCreate;
}.

(** Only the caller, the close and what is stored move. *)
Lemma quiet_fields r r' :
  connections r' = connections r → command_tasks r' = command_tasks r →
  peer_resources r' = peer_resources r →
  (driver r' = Some DCreate → driver r = Some DCreate) → quiet r r'.
Proof.
  intros Hc Ht Hp Hd. split; unfold running, live, owns; rewrite ?Hc, ?Ht, ?Hp; eauto.
Qed.

Lemma quiet_inv s r' :
  life_inv s → engine_inv r' → quiet (res s) r' →
  ((1 ≤ stage (close_task r'))%nat →
    (1 ≤ stage (close_task (res s)))%nat ∨
    (cells (rtc s) !! holder (rtc s) = Some 0 ∧ command_tx (rtc s) = None)) →
  life_inv (with_res r' s).
Proof.
  intros [Hr Hpe Hta Hh Hce Hu Hse Htx Hown Hli Hge Hop Hcl Hcr] Hi [Qc Qt Qr Qo Ql Qk Qd] Hs.
  split; simpl; try done; try congruence.
  - intros i Hsend. destruct (Hse i Hsend) as [? (c & ? & ?)]. eauto.
  - intros i Ho. destruct (Hown i (Qo i Ho)). auto.
  - intros i Hcur. destruct (Hli i Hcur) as [Ho|]; [|by right].
    destruct (Qk i Ho) as [|Hst]; [by left|right]. by apply Hcl.
  - intros Hst. destruct (Hs Hst); auto.
  - auto.
Qed.

Lemma running_alter f c c' r tasks :
  (∀ st, st ≠ TEnded → f st ≠ TEnded) → tasks = command_tasks r →
  running r c → ∃ st, alter f c' tasks !! c = Some st ∧ st ≠ TEnded.
Proof.
  intros Hf -> (st & Hst & Hne). destruct (decide (c' = c)) as [->|Hn].
  - rewrite list_lookup_alter_eq, Hst. simpl. eauto.
  - rewrite list_lookup_alter_ne by done. eauto.
Qed.
Lemma abort_not_ended st : st ≠ TEnded → abort_status st ≠ TEnded.
Proof. by destruct st. Qed.

(** A task handle is aborted, a connection's media handles change. *)
Lemma quiet_abort_command c r : quiet r (abort_command c r).
Proof.
  destruct c as [c|]; [|by apply quiet_fields].
  split; simpl; try done; [by rewrite length_alter|..].
  - intros c'. apply running_alter; [apply abort_not_ended|done].
  - auto.
Qed.
Lemma quiet_abort_media l r : quiet r (abort_media l r).
Proof. by apply quiet_fields. Qed.
Lemma quiet_connections f p r :
  (∀ c, pc_open (f c) = pc_open c) → quiet r (with_connections (alter f p (connections r)) r).
Proof.
  intros Hf. split; simpl; try done; [by rewrite length_alter| |auto].
  intros i Ho (_ & c & Hc & Hop). split; [done|]. simpl.
  destruct (decide (p = i)) as [->|Hne].
  - exists (f c). rewrite list_lookup_alter_eq, Hc. split; [done|]. by rewrite Hf.
  - exists c. by rewrite list_lookup_alter_ne.
Qed.
Lemma quiet_trans r1 r2 r3 :
  quiet r1 r2 → quiet r2 r3 → ((1 ≤ stage (close_task r2))%nat → (1 ≤ stage (close_task r1))%nat) →
  quiet r1 r3.
Proof.
  intros [Qc Qt Qr Qo Ql Qk Qd] [Qc' Qt' Qr' Qo' Ql' Qk' Qd'] Hs.
  split; try congruence; auto.
  intros i Ho. destruct (Qk i Ho) as [Ho2|]; [|by right]. destruct (Qk' i Ho2); auto.
Qed.

Lemma quiet_on_track p kind codec r : quiet r (on_track p kind codec r).
Proof.
  unfold on_track. destruct (negb _); [by apply quiet_fields|].
  destruct (_ ≫= _) as [tasks|]; [|by apply quiet_fields].
  destruct kind; [by apply (quiet_connections (set_media _))|..];
    (eapply quiet_trans; [by apply (quiet_connections (set_media (Some (
       filter (λ t, media_finished r t = false) tasks ++ [length (media_tasks r)]))) p)|
     by apply quiet_fields|done]).
Qed.

(** Every step of a close but the first is quiet; the first only asks the task to end. *)
Lemma quiet_take r p :
  (1 ≤ stage (close_task r))%nat → peer_resources r = Some p →
  quiet r (take_media (rs_peer p) (with_resources None r)).
Proof.
  intros Hst Hp. split; simpl; try done; [by rewrite length_alter|..].
  - by intros i (q & Hq & _).
  - by intros i (q & Hq & _).
  - auto.
Qed.
Lemma quiet_close_connection p r :
  peer_resources r = None → quiet r (with_connections (alter set_closed p (connections r)) r).
Proof.
  intros Hp. split; simpl; try done; [by rewrite length_alter|..].
  - intros i (q & Hq & _). simpl in Hq. congruence.
  - auto.
Qed.

Lemma close_step_quiet ready c r :
  engine_inv r → close_task r = Some c → quiet r (close_step ready c r).
Proof.
  intros Hi Hc. pose proof (en_stage2 _ Hi) as H2. rewrite Hc in H2.
  destruct c as [|t| |p tasks|p|owned|owned|owned|p|]; simpl.
  - destruct (Peer.command_task r) as [t|]; [|by apply quiet_fields].
    eapply quiet_trans; [apply (quiet_abort_command (Some t))|by apply quiet_fields|done].
  - destruct (command_finished r t); by apply quiet_fields.
  - destruct (peer_resources r) as [p|] eqn:Hp; [|by apply quiet_fields].
    eapply quiet_trans; [apply (quiet_take r p); [by rewrite Hc; simpl; lia|done]|by apply quiet_fields|].
    simpl. by rewrite Hc.
  - destruct tasks as [|t tasks]; [by apply quiet_fields|].
    destruct (media_finished r t); by apply quiet_fields.
  - destruct ready; [|by apply quiet_fields]. destruct H2 as [Hno _]; [simpl; lia|].
    eapply quiet_trans; [by apply (quiet_close_connection (rs_peer p))| |done].
    eapply quiet_trans; [apply (quiet_abort_command (command p))|by apply quiet_fields|].
    by destruct (command p).
  - by destruct (data_channel r), owned; apply quiet_fields.
  - by destruct ready; apply quiet_fields.
  - by destruct (peer_connection r), owned; apply quiet_fields.
  - destruct ready; [|by apply quiet_fields]. destruct H2 as [Hno _]; [simpl; lia|].
    eapply quiet_trans; [by apply (quiet_close_connection p)|by apply quiet_fields|done].
  - by apply quiet_fields.
Qed.

(** ** Every step keeps the invariant *)
Lemma begin_close_closed e :
  (holder e < length (cells e))%nat →
  cells (begin_close e) !! holder (begin_close e) = Some 0 ∧ command_tx (begin_close e) = None.
Proof. intros Hlt. split; [by apply list_lookup_insert_eq|done]. Qed.

Lemma life_close_inv ready c s :
  close_task (res s) = Some c → life_inv s → life_inv (life_close ready c s).
Proof.
  intros Hc Hi. pose proof (close_step_inv ready c _ (li_res _ Hi) Hc) as Hr.
  pose proof (close_step_quiet ready c _ (li_res _ Hi) Hc) as Hq.
  assert (c ≠ CloseStart → life_inv (with_res (close_step ready c (res s)) s)) as Hrest.
  { intros Hne. apply quiet_inv; [done..|]. intros _. left. rewrite Hc. destruct c; simpl; done || lia. }
  assert (life_inv (with_res (close_step ready c (res s)) s) →
    life_inv (with_rtc (set_ready_state Closed (rtc s)) (with_res (close_step ready c (res s)) s))) as Hlast.
  { intros Hi'. apply calm_inv; [done|apply calm_store]. }
  unfold life_close. set (r := close_step ready c (res s)) in *. change (close_task (res (with_res r s))) with (close_task r).
  destruct c; try (destruct (close_task r) as [[]|]; by auto).
  change (with_rtc (begin_close (rtc s)) (with_res r s)) with (with_res r (with_rtc (begin_close (rtc s)) s)).
  apply quiet_inv; [by apply calm_inv, calm_close|done|done|].
  intros _. right. apply begin_close_closed, Hi.
Qed.

(** The close that precedes a new peer has left nothing current. *)
Lemma begin_prepare_inv s r :
  life_inv s → engine_inv r → clean r → close_task (res s) = Some CloseDone →
  connections r = connections (res s) → command_tasks r = command_tasks (res s) →
  close_task r = None →
  life_inv (with_captured (ingress_generation (rtc s))
              (with_rtc (begin_prepare (rtc s)) (with_res r s))).
Proof.
  intros [Hr Hpe Hta Hh Hce Hu Hse Htx Hown Hli Hge Hop Hcl Hcr] Hi [_ _ Hcmd Hnores _] Hdone Hcn Hct Hc0.
  destruct Hcl as [Hz Ht]; [by rewrite Hdone; simpl; lia|].
  assert (Hlt : ∀ i p, peers (rtc s) !! i = Some p → (p_cell p < length (cells (rtc s)))%nat ∧
    cells (rtc s) !! p_cell p = Some 0).
  { intros i p Hp. destruct (decide (p_cell p = holder (rtc s))) as [->|Hne]; [done|].
    destruct (Hce _ _ Hp Hne). split; [lia|done]. }
  assert (Hno : ∀ i, ¬ current (begin_prepare (rtc s)) i).
  { intros i (p & Hp & Hcell). destruct (Hlt _ _ Hp). simpl in *. lia. }
  split; simpl; try done; try congruence.
  - rewrite length_insert, length_app. simpl. lia.
  - intros i p Hp _. destruct (Hlt _ _ Hp) as [? Hc]. split; [done|].
    rewrite list_lookup_insert_ne, lookup_app_l by lia. done.
  - intros i j Hi'. by destruct (Hno i).
  - intros i Hs. destruct (Hse i Hs) as [_ (c & _ & st & Hst & Hne)].
    rewrite Forall_forall, Hct in Hcmd. destruct Hne. apply Hcmd. by eapply list_elem_of_lookup_2.
  - intros i (q & Hq & _). congruence.
  - intros i Hi'. by destruct (Hno i).
  - intros i p Hp Hcell. destruct (Hno i). by exists p.
  - unfold current_ready_state, cell_value. simpl. rewrite list_lookup_insert_eq; [done|].
    rewrite length_app. simpl. lia.
  - rewrite Hc0. simpl. lia.
Qed.

Lemma current_bind g e i :
  current (bind_peer g e) i ↔ current e i ∨ i = length (peers e).
Proof.
  unfold current, bind_peer. simpl. split.
  - intros (p & [Hp|[Hge Hp]]%lookup_app_Some & Hc); [by left; eauto|right].
    apply list_lookup_singleton_Some in Hp as [? _]. lia.
  - intros [(p & Hp & Hc)| ->].
    + exists p. split; [by apply lookup_app_l_Some|done].
    + exists (p_bound g e). split; [|done]. by rewrite lookup_app_r, Nat.sub_diag by lia.
Qed.

Lemma create_peer_inv s :
  driver (res s) = Some DCreate → life_inv s →
  life_inv (with_rtc (bind_peer (captured s) (rtc s))
              (with_res (driver_poll (Some (Ok ())) DCreate (res s)).2 s)).
Proof.
  intros Hd Hli'. pose proof (engine_step_inv (PollDriver (Some (Ok ()))) _ (li_res _ Hli')) as Hi.
  unfold engine_step in Hi. rewrite Hd in Hi. revert Hi.
  destruct Hli' as [Hr Hpe Hta Hh Hce Hu Hse Htx Hown Hli Hge Hop Hcl Hcr].
  pose proof (en_driver _ Hr) as Hdr. unfold driver_ok in Hdr. rewrite Hd in Hdr.
  destruct Hdr as (Hct & Hrs & Hcm). destruct (Hcr Hd) as [Hno Hcap].
  set (r' := (driver_poll _ _ _).2). intros Hi.
  assert (connections r' = connections (res s) ++ [{| pc_open := true; media := Some [] |}] ∧
    command_tasks r' = command_tasks (res s) ∧ close_task r' = None ∧
    peer_resources r' = Some {| rs_peer := length (connections (res s)); command := None |})
    as (Hcn & Htk & Hc0 & Hrs').
  { unfold r', driver_poll, register. simpl. rewrite Hrs. done. }
  assert (driver r' = Some (DSetup (length (connections (res s))))) as Hd'.
  { done. }
  assert (∀ i, owns r' i → i = length (peers (rtc s))) as Hown'.
  { intros i (q & Hq & <-). rewrite Hrs' in Hq. injection Hq as <-. by rewrite Hpe. }
  assert (owns r' (length (peers (rtc s)))) as Hnew by (rewrite Hpe; eexists; split; [exact Hrs'|done]).
  clearbody r'. split; simpl; try congruence.
  - rewrite Hcn, !length_app. simpl. lia.
  - intros i p [Hp|[? Hp]]%lookup_app_Some Hne; [by eapply Hce|].
    by apply list_lookup_singleton_Some in Hp as [_ <-].
  - intros i j [Hc| ->]%current_bind [Hc'| ->]%current_bind; [by destruct (Hno _ Hc)..|by destruct (Hno _ Hc')|done].
  - intros i. unfold sends. simpl. destruct (decide (i < length (peers (rtc s)))%nat) as [Hlt|Hge'].
    + rewrite lookup_app_l by done. intros Hs. destruct (Hse i Hs) as [Hc _]. by destruct (Hno i).
    + rewrite lookup_app_r by lia. by destruct (_ - _)%nat as [|[]].
  - intros i Ht. destruct (Hno i). auto.
  - intros i Ho. rewrite (Hown' i Ho), current_bind. split; [by right|]. split; [done|].
    eexists. rewrite Hcn, Hpe, lookup_app_r, Nat.sub_diag by lia. done.
  - intros i [Hc| ->]%current_bind; [by destruct (Hno i)|by left].
  - intros i p [Hp|[_ Hp]]%lookup_app_Some Hc Hz; [destruct (Hno i); by exists p|].
    apply list_lookup_singleton_Some in Hp as [_ <-]. by apply Hcap.
  - intros Ho. exists (length (peers (rtc s))). apply current_bind. by right.
  - rewrite Hc0. simpl. lia.
Qed.

Lemma current_start b p e i : current (start_commands b p e) i ↔ current e i.
Proof.
  unfold current, start_commands. simpl. destruct (decide (p = i)) as [->|Hne].
  - rewrite list_lookup_alter_eq. destruct (peers e !! i) as [q|]; simpl; [|by split; intros (? & ? & _)].
    split; intros (q' & [= <-] & Hc); eexists; (split; [done|]); done.
  - by rewrite list_lookup_alter_ne.
Qed.
Lemma sends_start b p e i : sends i (start_commands b p e) = true → i = p ∨ sends i e = true.
Proof.
  unfold sends, start_commands. simpl. destruct (decide (p = i)) as [->|Hne]; [by left|].
  rewrite list_lookup_alter_ne by done. by right.
Qed.

Lemma store_track_inv p s :
  driver (res s) = Some (DStoreTrack p) → life_inv s → life_inv (life_poll None (DStoreTrack p) s).2.
Proof.
  intros Hd Hli'. pose proof (engine_step_inv (PollDriver None) _ (li_res _ Hli')) as Hi.
  unfold engine_step in Hi. rewrite Hd in Hi. revert Hi.
  destruct Hli' as [Hr Hpe Hta Hh Hce Hu Hse Htx Hown Hli Hge Hop Hcl Hcr].
  pose proof (en_driver _ Hr) as Hdr. unfold driver_ok in Hdr. rewrite Hd in Hdr.
  destruct Hdr as (Hct & (q & Hq & Hqp) & Hcm). unfold life_poll. rewrite Hq.
  set (r' := (driver_poll _ _ _).2). intros Hi. simpl (_, _).2.
  assert (connections r' = connections (res s) ∧
    command_tasks r' = command_tasks (res s) ++ [TRunning] ∧ close_task r' = None ∧
    peer_resources r' = Some {| rs_peer := p; command := Some (length (command_tasks (res s))) |} ∧
    driver r' = Some (DOffer p)) as (Hcn & Htk & Hc0 & Hrs' & Hd').
  { unfold r', driver_poll. simpl. rewrite Hq, Hcm, <- Hqp. done. }
  assert (∀ i, owns r' i ↔ owns (res s) i) as Hown'.
  { intros i. unfold owns. rewrite Hrs', Hq. split; intros (x & [= <-] & Hx);
      eexists; (split; [done|]); simpl in *; congruence. }
  assert (current (rtc s) p) as Hcur by (apply Hown; by exists q).
  clearbody r'. split; simpl; try congruence.
  - by rewrite length_alter, Hcn.
  - rewrite Htk, !length_app. simpl. lia.
  - intros i x [(-> & y & Hy & ->)|[_ Hx]]%lookup_alter_Some Hne; [|by eapply Hce].
    destruct Hcur as (z & Hz & Hzc). simpl in Hne. congruence.
  - intros i j ?%current_start ?%current_start. auto.
  - intros i Hs. rewrite current_start. destruct (sends_start _ _ _ _ Hs) as [->|Hs'].
    + split; [done|]. exists (length (task_peer s)). rewrite lookup_app_r, Nat.sub_diag by lia.
      split; [done|]. exists TRunning. by rewrite Htk, lookup_app_r, Hta, Nat.sub_diag by lia.
    + destruct (Hse i Hs') as [? (c & Hc & st & Hst & Hne)]. split; [done|]. exists c.
      split; [by apply lookup_app_l_Some|]. exists st. rewrite Htk. split; [by apply lookup_app_l_Some|done].
  - intros i [= <-]. by apply current_start.
  - intros i Ho%Hown'. rewrite current_start. destruct (Hown i Ho) as [? [_ Hc]]. split; [done|].
    split; [by apply Hown'|]. by rewrite Hcn.
  - intros i Hc%current_start. rewrite Hown'. auto.
  - intros i x [(-> & y & Hy & ->)|[_ Hx]]%lookup_alter_Some; [|by apply (Hge i)]. by apply (Hge i y).
  - intros Ho. destruct (Hop Ho) as [i Hc]. exists i. by apply current_start.
  - rewrite Hc0. simpl. lia.
Qed.

(** A poll that neither begins a new peer nor registers or starts it. *)
Lemma driver_poll_quiet outcome d r :
  driver r = Some d → (∀ p, d ≠ DStoreTrack p) → (d = DCreate → outcome ≠ Some (Ok ())) →
  (d = DPrepClose → close_task r ≠ Some CloseDone) →
  quiet r (driver_poll outcome d r).2 ∧
  ((1 ≤ stage (close_task (driver_poll outcome d r).2))%nat → (1 ≤ stage (close_task r))%nat).
Proof.
  intros Hd Hno Hcr Hpr. unfold driver_poll, close_poll.
  destruct d as [| | |p|p|p|p|p|error]; try (by destruct (Hno p));
    try specialize (Hpr eq_refl); try specialize (Hcr eq_refl).
  all: try (destruct outcome as [[[]|]|]; try done; by split; [apply quiet_fields|]).
  all: destruct (close_task r) as [[]|] eqn:Hc; try done; split.
  all: try (by apply quiet_fields).
  all: simpl; rewrite ?Hc; simpl; intros; lia.
Qed.

Lemma life_poll_inv outcome d s :
  driver (res s) = Some d → life_inv s → life_inv (life_poll outcome d s).2.
Proof.
  intros Hd Hi. pose proof (engine_step_inv (PollDriver outcome) _ (li_res _ Hi)) as Hr.
  unfold engine_step in Hr. rewrite Hd in Hr.
  pose proof (λ Hno Hcr Hpr, driver_poll_quiet outcome d (res s) Hd Hno Hcr Hpr) as Hq.
  assert ((∀ p, d ≠ DStoreTrack p) → (d = DCreate → outcome ≠ Some (Ok ())) →
    (d = DPrepClose → close_task (res s) ≠ Some CloseDone) →
    life_inv (with_res (driver_poll outcome d (res s)).2 s)) as Hrest.
  { intros Hno Hcr Hpr. destruct (Hq Hno Hcr Hpr) as [? ?]. apply quiet_inv; auto. }
  unfold life_poll. destruct d as [| | |p|p|p|p|p|error]; simpl (_, _).2; try (by apply Hrest).
  - destruct (decide (close_task (res s) = Some CloseDone)) as [Hdone|Hne].
    + pose proof (done_clean _ (li_res _ Hi) Hdone) as Hcl. revert Hr.
      unfold driver_poll, close_poll. rewrite Hdone. simpl. intros Hr. apply begin_prepare_inv; try done.
      destruct Hcl. by split.
    + assert (life_inv (with_res (driver_poll outcome DPrepClose (res s)).2 s)) as Hi' by by apply Hrest.
      revert Hi'. unfold driver_poll, close_poll. destruct (close_task (res s)) as [[]|]; done.
  - destruct outcome as [[[]|]|]; [by apply create_peer_inv|by apply Hrest..].
  - by apply (store_track_inv p s).
Qed.

Lemma running_ends c c' r : c ≠ c' → running r c → running (engine_step (CommandEnds c') r) c.
Proof. intros Hne (st & Hst & ?). exists st. simpl. by rewrite list_lookup_alter_ne. Qed.
Lemma quiet_ends c r i s :
  life_inv s → task_peer s !! c = Some i → sends i (rtc s) = false → res s = r →
  life_inv (with_res (engine_step (CommandEnds c) r) s).
Proof.
  intros Hi' Hc Hs <-. pose proof (engine_step_inv (CommandEnds c) _ (li_res _ Hi')) as Hr. revert Hr.
  set (r' := engine_step _ _). intros Hr.
  destruct Hi' as [_ Hpe Hta Hh Hce Hu Hse Htx Hown Hli Hge Hop Hcl Hcr].
  split; simpl; try done; [by rewrite length_alter|].
  intros j Hj. destruct (Hse j Hj) as [? (c' & Hc' & Hrun)]. split; [done|]. exists c'.
  split; [done|]. apply running_ends; [|done]. intros ->. simplify_eq. by rewrite Hs in Hj.
Qed.

Lemma task_moves_inv c f s :
  (∀ i e, calm e (f i e)) → life_inv s → life_inv (task_moves c f s).
Proof.
  intros Hf Hi. unfold task_moves. destruct (task_peer s !! c) as [i|] eqn:Hc; [|done].
  destruct (negb _); [done|]. pose proof (calm_inv s (f i (rtc s)) Hi (Hf i _)) as Hi'.
  destruct (sends i (rtc (with_rtc (f i (rtc s)) s))) eqn:Hs; [done|].
  by apply (quiet_ends c _ i (with_rtc (f i (rtc s)) s)).
Qed.

Lemma drop_task_inv c s : life_inv s → life_inv (drop_task c s).
Proof.
  intros Hi. unfold drop_task. destruct (task_peer s !! c) as [i|] eqn:Hc; [|done].
  apply (quiet_ends c _ i (with_rtc (stop_task i (rtc s)) s)); [|done|apply stop_task_sends|done].
  by apply calm_inv, calm_stop.
Qed.

Lemma life_step_inv o s : life_inv s → life_inv (life_step o s).
Proof.
  intros Hi. pose proof (λ o, engine_step_inv o _ (li_res _ Hi)) as Hr.
  destruct o as [| |outcome| |ready|p kind codec|t|c|c outcome|c|o]; unfold life_step.
  - apply quiet_inv; [done|apply Hr|..].
    + simpl. destruct (driver (res s)); by apply quiet_fields.
    + simpl. destruct (driver (res s)); by left.
  - apply quiet_inv; [done|apply Hr|..].
    + simpl. destruct (driver (res s)); by apply quiet_fields.
    + simpl. destruct (driver (res s)); by left.
  - destruct (driver (res s)) as [d|] eqn:Hd; [|done]. by apply life_poll_inv.
  - apply quiet_inv; [done|apply Hr|by apply quiet_fields|by left].
  - destruct (close_task (res s)) as [c|] eqn:Hc; [|done]. by apply life_close_inv.
  - apply quiet_inv; [done|apply Hr|by apply quiet_on_track|]. simpl. unfold on_track.
    left. revert H0. destruct (negb _); [done|]. destruct (_ ≫= _); [|done]. by destruct kind.
  - apply quiet_inv; [done|apply Hr|by apply quiet_fields|by left].
  - apply task_moves_inv; [intros; apply calm_send_begin|done].
  - apply task_moves_inv; [intros; apply calm_send_end|done].
  - destruct (decide _); [|done]. by apply drop_task_inv.
  - destruct (cut o) eqn:Ho; [done|]. apply calm_inv; [done|]. apply calm_step; [done|]. apply Hi.
Qed.
Lemma life_run_inv l s : life_inv s → life_inv (life_run l s).
Proof. revert s. induction l as [|o l IH]; intros s Hi; [done|]. by apply IH, life_step_inv. Qed.
End lifetime.
Arguments Lifetime C : clear implicits.
