(* ===== verification/LifetimeProps.v ===== *)
(** * The life of a peer: properties

    What the machine of [Lifetime] guarantees whatever the order of the caller's
    polls and cancellations, the steps of a close, the command tasks, the callbacks
    and the calls of the ports. *)
From S2P Require Import Prelude Floats Json Ingress Channel Utf8 Ports Engine EngineProps Peer Lifetime.
#[local] Open Scope Z_scope.

Section props.
Context {C : Type → Type} `{Chan C}.
Implicit Types (e : RtcEngine C) (s : Lifetime C) (r : Peer.Engine).

(** The states of a new engine. *)
Definition reached q l : Lifetime C := life_run l (new_lifetime q).
Lemma reachable q l : life_inv (reached q l).
Proof. apply life_run_inv, new_lifetime_inv. Qed.

(** ** Open means live *)
Lemma open_not_closed e :
  current_ready_state e = Open → cells e !! holder e ≠ Some 0.
Proof. unfold current_ready_state, cell_value. by destruct (cells e !! holder e) as [[]|]. Qed.

Lemma open_live s :
  life_inv s → current_ready_state (rtc s) = Open →
  ∃ i p, peers (rtc s) !! i = Some p ∧ p_cell p = holder (rtc s) ∧
    p_generation p = ingress_generation (rtc s) ∧ live (res s) i ∧
    stage (close_task (res s)) = 0%nat.
Proof.
  intros Hi Ho. pose proof (open_not_closed _ Ho) as Hz.
  destruct (li_open _ Hi Ho) as [i Hc]. pose proof Hc as (p & Hp & Hcell).
  destruct (li_live _ Hi i Hc) as [Hown|]; [|done]. exists i, p.
  split_and!; [done|done|by eapply (li_generation _ Hi)|by apply (li_owned _ Hi)|].
  destruct (stage (close_task (res s))) eqn:Hst; [done|].
  destruct (li_closed _ Hi); [lia|done].
Qed.

Lemma open_unique r i j c :
  engine_inv r → live r i → stage (close_task r) = 0%nat →
  connections r !! j = Some c → pc_open c = true → j = i.
Proof.
  intros [_ Ho _ _ _ _ _ _ _ _] [(q & Hq & <-) _] Hst Hj Hop.
  destruct (Ho j c Hj Hop) as [(q' & Hq' & <-)|(q' & l & Hcl & _)]; [congruence|].
  by destruct (close_task r) as [[]|].
Qed.

(** C10: while the ready state is open, the peer whose callbacks write to it is of the
    current generation, its connection is open and no other is, its resources are
    registered and no close has begun; a command that is accepted enters the queue of
    that peer. *)
Theorem open_is_live q l m :
  let s := reached q l in
  Engine.ready_state (rtc s) = "open" →
  ∃ i p, peers (rtc s) !! i = Some p ∧ p_cell p = holder (rtc s) ∧
    p_generation p = ingress_generation (rtc s) ∧ live (res s) i ∧ stage (close_task (res s)) = 0%nat ∧
    (∀ j c, connections (res s) !! j = Some c → pc_open c = true → j = i) ∧
    ((Engine.send_text m (rtc s)).1 = Ok () → ∃ cs, chan_send (p_commands p) (CText m) = Ok cs ∧
       (Engine.send_text m (rtc s)).2 =
         with_peers (<[i := p_with_commands cs p]> (peers (rtc s))) (rtc s)).
Proof.
  intros s Hr. pose proof (reachable q l) as Hi. fold s in Hi.
  assert (current_ready_state (rtc s) = Open) as Ho.
  { unfold Engine.ready_state in Hr. by destruct (current_ready_state (rtc s)). }
  destruct (open_live s Hi Ho) as (i & p & Hp & Hcell & Hg & Hl & Hst).
  exists i, p. split_and!; [done..| |].
  - intros j c. by eapply open_unique; [apply Hi|..].
  - unfold Engine.send_text, try_command. destruct (_ <? slen m); [done|].
    destruct (negb _); [done|]. destruct (command_tx (rtc s)) as [j|] eqn:Htx; [|done].
    assert (j = i) as -> by (apply (li_unique _ Hi); [by apply (li_tx _ Hi)|by exists p]).
    rewrite Hp. destruct (chan_send (p_commands p) (CText m)) as [cs|[]]; [eauto|done..].
Qed.

(** ** A close leaves nothing that acts *)
Lemma closed_inert s i o :
  life_inv s → cells (rtc s) !! holder (rtc s) = Some 0 → (∀ j, sends j (rtc s) = false) →
  peer_op i o → eng_step o (rtc s) = rtc s.
Proof.
  intros Hi Hz Hs Ho. destruct (peers (rtc s) !! i) as [p|] eqn:Hp.
  - apply (closed_peer_inert i p); [done| | |done].
    + destruct (decide (p_cell p = holder (rtc s))) as [->|Hne]; [done|].
      by apply (li_cell _ Hi i p).
    + specialize (Hs i). unfold sends in Hs. by rewrite Hp in Hs.
  - destruct o; simpl in Ho; try done; subst; simpl;
      unfold send_begin, send_end, channel_event, on_message; rewrite ?Hp; try done.
    by destruct state; simpl; unfold channel_event; rewrite ?Hp.
Qed.
Lemma clean_sends s : life_inv s → clean (res s) → ∀ j, sends j (rtc s) = false.
Proof.
  intros Hi [_ _ Hc _ _] j. destruct (sends j (rtc s)) eqn:Hs; [|done].
  destruct (li_sending _ Hi j Hs) as [_ (c & _ & st & Hst & Hne)]. destruct Hne.
  eapply Forall_lookup_1 in Hst; [|exact Hc]. done.
Qed.

Lemma closed_state d outcome s i o m :
  life_inv s → driver (res s) = Some d → (∀ p, d ≠ DOffer p) → (life_poll outcome d s).1 ≠ None →
  let s' := (life_poll outcome d s).2 in
  clean (res s') ∧ Engine.ready_state (rtc s') = "closed" ∧
  is_err (Engine.send_text m (rtc s')).1 = true ∧ (peer_op i o → eng_step o (rtc s') = rtc s').
Proof.
  intros Hi Hd Hno Hret s'. pose proof (life_poll_inv outcome d s Hd Hi) as Hi'. fold s' in Hi'.
  assert (clean (res s')) as Hcl.
  { unfold s'. rewrite life_poll_res by done. unfold engine_step. rewrite Hd.
    apply (driver_poll_spec outcome d _ (li_res _ Hi) Hd). by left. }
  assert (rtc s' = rtc s ∧ stage (close_task (res s)) = 4%nat) as [Hrtc Hst].
  { unfold s'. revert Hret. unfold life_poll, driver_poll, close_poll. simpl.
    destruct d as [| | |p|p|p|p|p|error]; try (by destruct (Hno p));
      try (by destruct (close_task (res s)) as [[]|]);
      by destruct outcome as [[[]|]|], (peer_resources (res s)). }
  destruct (li_closed _ Hi) as [Hz Htx]; [lia|].
  assert (current_ready_state (rtc s') = Closed) as Hc.
  { unfold current_ready_state, cell_value. by rewrite Hrtc, Hz. }
  split_and!; [done|unfold Engine.ready_state; by rewrite Hc| |].
  - unfold Engine.send_text, try_command. destruct (_ <? slen m); [done|]. by rewrite Hc.
  - apply closed_inert; [done|by rewrite Hrtc|by apply clean_sends].
Qed.

(** C12: when [close] returns, and when a failed [prepare_offer] does, everything that
    was created has ended, the ready state is closed, commands are refused, and no
    callback and no task of any peer has an effect on the engine. *)
Theorem closed_engine_inert q l d outcome i o m :
  let s := reached q l in
  driver (res s) = Some d → (∀ p, d ≠ DOffer p) → (life_poll outcome d s).1 ≠ None →
  let s' := (life_poll outcome d s).2 in
  clean (res s') ∧ Engine.ready_state (rtc s') = "closed" ∧
  is_err (Engine.send_text m (rtc s')).1 = true ∧ (peer_op i o → eng_step o (rtc s') = rtc s').
Proof. intros s. apply closed_state, reachable. Qed.

(** ** A replaced peer has no effect *)
Lemma calm_extends e e' : calm e e' → extends e e'.
Proof.
  intros [Hh _ Hl Hp _ _ _ _]. split_and!; [lia|lia|]. intros i p' Hi _.
  destruct (Hp _ _ Hi) as (p & ? & ? & _). eauto.
Qed.
Lemma start_extends b i e : extends e (start_commands b i e).
Proof.
  split_and!; simpl; [lia|by rewrite length_alter|].
  intros j p' [(-> & p & Hp & ->)|[_ Hj]]%lookup_alter_Some _; eauto.
Qed.
Lemma bind_extends g e : extends e (bind_peer g e).
Proof.
  split_and!; simpl; [lia|rewrite length_app; lia|]. intros i p Hp Hi. exists p.
  by rewrite lookup_app_l in Hp.
Qed.
Lemma begin_extends e : (holder e < length (cells e))%nat → extends e (begin_prepare e).
Proof. intros Hlt. split_and!; simpl; [lia|lia|]. eauto. Qed.

Lemma task_moves_extends c f s : (∀ i e, calm e (f i e)) → extends (rtc s) (rtc (task_moves c f s)).
Proof.
  intros Hf. unfold task_moves. destruct (task_peer s !! c) as [i|]; [|apply extends_refl].
  destruct (negb _); [apply extends_refl|].
  destruct (sends i _); apply calm_extends, Hf.
Qed.
Lemma life_step_extends o s : life_inv s → extends (rtc s) (rtc (life_step o s)).
Proof.
  intros Hi. pose proof (extends_refl (rtc s)) as Hrefl.
  destruct o as [| |outcome| |ready|p kind codec|t|c|c outcome|c|o]; unfold life_step; try done.
  - destruct (driver (res s)) as [d|]; [|done]. unfold life_poll.
    destruct d as [| | |p|p|p|p|p|error]; try done; simpl (_, _).2.
    + destruct (driver _) as [[]|]; try done. apply begin_extends, Hi.
    + destruct outcome as [[[]|]|]; try done. apply bind_extends.
    + apply start_extends.
  - destruct (close_task (res s)) as [c|]; [|done]. unfold life_close.
    destruct c; try (by destruct (close_task _) as [[]|]; try done; apply calm_extends, calm_store); [|done].
    apply calm_extends, calm_close.
  - apply task_moves_extends. intros. apply calm_send_begin.
  - apply task_moves_extends. intros. apply calm_send_end.
  - destruct (decide _); [|done]. unfold drop_task. destruct (task_peer s !! c); [|done].
    apply calm_extends, calm_stop.
  - destruct (cut o) eqn:Ho; [done|]. apply calm_extends, calm_step; [done|apply Hi].
Qed.
Lemma life_run_extends l s : life_inv s → extends (rtc s) (rtc (life_run l s)).
Proof.
  revert s. induction l as [|o l IH]; intros s Hi; [apply extends_refl|].
  eapply extends_trans; [by apply (life_step_extends o)|]. by apply IH, life_step_inv.
Qed.

(** C11: once [prepare_offer] has begun a new peer, no callback and no sending task of
    an earlier one has any effect on the engine again: not on the ready state, the
    queues, the retained fault or the commands, whatever happens later. *)
Theorem replaced_peer_inert q l outcome l' i o :
  let s := reached q l in
  let s1 := life_step (LPoll outcome) s in
  driver (res s) = Some DPrepClose → driver (res s1) = Some DCreate →
  (i < length (peers (rtc s)))%nat → peer_op i o →
  let s' := life_run l' s1 in eng_step o (rtc s') = rtc s' ∧ sends i (rtc s') = false.
Proof.
  intros s s1 Hd Hd1 Hlt Ho s'. pose proof (reachable q l) as Hi. fold s in Hi.
  pose proof (life_step_inv (LPoll outcome) s Hi) as Hi1. fold s1 in Hi1.
  pose proof (life_run_inv l' s1 Hi1) as Hi2. fold s' in Hi2.
  destruct (li_create _ Hi1 Hd1) as [Hno _].
  destruct (life_step_extends (LPoll outcome) s Hi) as (_ & Hlen & _). fold s1 in Hlen.
  destruct (life_run_extends l' s1 Hi1) as (Hh & Hlen' & Hold). fold s' in Hh, Hlen', Hold.
  destruct (lookup_lt_is_Some_2 (peers (rtc s')) i) as [p Hp]; [lia|].
  destruct (Hold i p Hp) as (p1 & Hp1 & Hcell); [lia|].
  assert (p_cell p1 ≠ holder (rtc s1)) as Hne by (intros ?; by destruct (Hno i); exists p1).
  destruct (li_cell _ Hi1 i p1 Hp1 Hne) as [Hl _].
  assert (p_cell p ≠ holder (rtc s')) as Hne' by lia.
  destruct (li_cell _ Hi2 i p Hp Hne') as [_ Hz].
  assert (sends i (rtc s') = false) as Hs.
  { destruct (sends i (rtc s')) eqn:Hs; [|done].
    destruct (li_sending _ Hi2 i Hs) as [(p' & Hp' & Hc) _]. simplify_eq. }
  split; [|done]. apply (closed_peer_inert i p); [done|done| |done].
  unfold sends in Hs. by rewrite Hp in Hs.
Qed.

(** ** The command task *)

(** The two halves name the same command task. *)
Definition linked s : Prop :=
  Engine.command_task (rtc s) = Peer.command_task (res s) ≫= λ c, task_peer s !! c.

Lemma fault_task g i e :
  Engine.command_task (record_transport_fault g i e) = Engine.command_task e.
Proof. unfold record_transport_fault. destruct (negb _); [done|]. by destruct (chan_send _ _). Qed.
Lemma send_begin_task i e : Engine.command_task (send_begin i e) = Engine.command_task e.
Proof.
  unfold send_begin. destruct (peers e !! i) as [p|]; [|done]. destruct (negb _); [done|].
  destruct (p_inflight p); [done|]. destruct (chan_recv _) as [[c q]|[]]; [|done..].
  destruct (negb _); [done|]. destruct (negb _); [|done]. by rewrite fault_task.
Qed.
Lemma send_end_task i outcome e : Engine.command_task (send_end i outcome e) = Engine.command_task e.
Proof.
  unfold send_end. destruct (peers e !! i) as [p|]; [|done]. destruct (negb _); [done|].
  destruct (p_inflight p); [|done]. destruct outcome; [done|]. by rewrite fault_task.
Qed.
Lemma eng_step_task o e : cut o = false → Engine.command_task (eng_step o e) = Engine.command_task e.
Proof.
  intros Ho.
  assert (∀ size c, Engine.command_task (try_command size c e).2 = Engine.command_task e) as Htry.
  { intros size c. by destruct (try_command_step size c e) as [->|(i & p & q & -> & _)]. }
  assert (∀ i event, Engine.command_task (channel_event i event e) = Engine.command_task e) as Hch.
  { intros i event. unfold channel_event. destruct (peers e !! i); [|done]. by destruct (negb _). }
  destruct o as [created setup offer| |m|b|i|i outcome|i event|i state|i is_string data|g| |q]; try done; simpl.
  - apply Htry.
  - apply Htry.
  - apply Hch.
  - destruct state; simpl; done || apply Hch.
  - by destruct (on_message_frame i is_string data e) as (_ & _ & _ & ?).
  - by destruct (negb _).
Qed.

Lemma close_step_task ready c r :
  c ≠ CloseStart → Peer.command_task (close_step ready c r) = Peer.command_task r.
Proof.
  intros Hne. destruct c as [|t| |p tasks|p|owned|owned|owned|p|]; simpl; try done.
  - by destruct (command_finished r t).
  - by destruct (peer_resources r).
  - destruct tasks as [|t tasks]; [done|]. by destruct (media_finished r t).
  - destruct ready; [|done]. by destruct (command p).
  - by destruct ready.
  - by destruct ready.
Qed.
Lemma driver_poll_task outcome d r :
  (∀ p, d ≠ DStoreTrack p) → Peer.command_task (driver_poll outcome d r).2 = Peer.command_task r.
Proof.
  intros Hno. unfold driver_poll, close_poll, register.
  destruct d as [| | |p|p|p|p|p|error]; try (by destruct (Hno p)); try done;
    try (by destruct (close_task r) as [[]|]); destruct outcome as [[[]|]|]; try done.
  simpl. destruct (peer_resources r) as [old|]; [|done]. simpl. by destruct (command old).
Qed.

Lemma task_moves_linked c f s :
  (∀ i e, Engine.command_task (f i e) = Engine.command_task e) →
  linked s → linked (task_moves c f s).
Proof.
  intros Hf Hl. unfold task_moves. destruct (task_peer s !! c) as [i|]; [|done].
  destruct (negb _); [done|]. unfold linked in *.
  destruct (sends i _); simpl; by rewrite Hf.
Qed.
Lemma life_poll_linked outcome d s :
  driver (res s) = Some d → life_inv s → linked s → linked (life_poll outcome d s).2.
Proof.
  intros Hd Hi Hl. pose proof (driver_poll_task outcome d (res s)) as Ht. unfold linked in *.
  unfold life_poll. destruct d as [| | |p|p|p|p|p|error]; cbn [snd].
  all: try specialize (Ht ltac:(done)).
  1, 4, 5, 6, 8, 9: unfold with_res; cbn [rtc res task_peer]; by rewrite Ht.
  - set (r := (driver_poll _ _ _).2) in *. clearbody r.
    destruct (driver r) as [[]|]; unfold begin_prepare; simpl; by rewrite Ht.
  - set (r := (driver_poll _ _ _).2) in *. clearbody r. destruct outcome as [[[]|]|]; simpl; by rewrite Ht.
  - pose proof (en_driver _ (li_res _ Hi)) as Hdr. unfold driver_ok in Hdr. rewrite Hd in Hdr.
    destruct Hdr as (_ & (q & Hq & _) & Hcm). simpl. rewrite Hq, Hcm. simpl.
    by rewrite <- (li_tasks _ Hi), lookup_app_r, Nat.sub_diag by lia.
Qed.
Lemma life_step_linked o s : life_inv s → linked s → linked (life_step o s).
Proof.
  intros Hi Hl. destruct o as [| |outcome| |ready|p kind codec|t|c|c outcome|c|o]; unfold life_step; try done.
  - unfold linked in *. simpl. by destruct (driver (res s)).
  - unfold linked in *. simpl. by destruct (driver (res s)).
  - destruct (driver (res s)) as [d|] eqn:Hd; [|done]. by apply life_poll_linked.
  - destruct (close_task (res s)) as [c|] eqn:Hc; [|done]. unfold life_close.
    pose proof (close_step_task ready c (res s)) as Ht. unfold linked in *.
    destruct (decide (c = CloseStart)) as [->|Hne]; [by simpl; destruct (Peer.command_task (res s)) eqn:Hcm; simpl; rewrite ?Hcm|].
    specialize (Ht Hne). set (r := close_step ready c (res s)) in *. clearbody r.
    cbn [with_res res]. destruct c; try done; destruct (close_task r) as [[]|]; simpl; by rewrite Ht.
  - unfold linked in *. simpl. unfold on_track. destruct (negb _); [done|].
    destruct (connections (res s) !! p ≫= media); [|done]. by destruct kind.
  - apply task_moves_linked; [|done]. intros. apply send_begin_task.
  - apply task_moves_linked; [|done]. intros. apply send_end_task.
  - destruct (decide _); [|done]. unfold drop_task. destruct (task_peer s !! c); [|done]. done.
  - destruct (cut o) eqn:Ho; [done|]. unfold linked in *. simpl. by rewrite eng_step_task.
Qed.
Lemma life_run_linked l s : life_inv s → linked s → linked (life_run l s).
Proof.
  revert s. induction l as [|o l IH]; intros s Hi Hl; [done|].
  apply IH; [by apply life_step_inv|by apply life_step_linked].
Qed.

(** ** What is done without the caller leaves it where it is *)
Definition callers (o : @life_op C) : bool :=
  match o with LStartClose | LStartPrepare | LPoll _ | LCancel => true | _ => false end.
Lemma life_driver o (x : Lifetime C) : callers o = false → driver (res (life_step o x)) = driver (res x).
Proof.
  destruct o as [| |outcome| |ready|p kind codec|t|c|c outcome|c|o]; try done; intros _; unfold life_step.
  - destruct (close_task (res x)) as [c|] eqn:Hc; [|done]. rewrite life_close_res by done.
    unfold engine_step. rewrite Hc.
    destruct c as [|t| |q tasks|q|owned|owned|owned|q|]; simpl; try done.
    + by destruct (Peer.command_task (res x)).
    + by destruct (command_finished _ _).
    + by destruct (peer_resources (res x)).
    + destruct tasks; [done|]. by destruct (media_finished _ _).
    + destruct ready; [|done]. by destruct (command q).
    + by destruct ready.
    + by destruct ready.
  - simpl. unfold on_track. destruct (negb _); [done|].
    destruct (connections (res x) !! p ≫= media); [|done]. by destruct kind.
  - by destruct (task_moves_res c send_begin x) as [->| ->].
  - by destruct (task_moves_res c (λ i, send_end i outcome) x) as [->| ->].
  - destruct (decide _); [|done]. unfold drop_task. by destruct (task_peer x !! c).
  - by destruct (cut o).
Qed.

End props.

(** ** A run: an offer, a command, and a close *)
Definition demo_ok : @life_op vec_chan := LPoll (Some (Ok ())).
Definition demo_prepared : list (@life_op vec_chan) :=
  [LEngine (ESetGeneration 1); LStartPrepare; LPoll None] ++ replicate 5 (LClose true) ++ replicate 7 demo_ok.
Definition demo_live : list (@life_op vec_chan) := demo_prepared ++ [LEngine (EChannel 0 ChannelOpened)].
Definition demo_again : list (@life_op vec_chan) :=
  demo_live ++ [LEngine (ESendText "hi"); LStartPrepare; LPoll None; LClose true; LSendBegin 0; LAborted 0] ++
  replicate 7 (LClose true).
Definition demo_state (l : list (@life_op vec_chan)) : Lifetime vec_chan := reached (bounded 8) l.

(** The aborted task finds the channel closed before it is dropped, and leaves a fault. *)
Example lifetime_demo :
  Engine.ready_state (rtc (demo_state demo_live)) = "open" ∧
  Engine.ready_state (rtc (demo_state demo_again)) = "closed" ∧
  command_tasks (res (demo_state demo_again)) = [TEnded] ∧
  (im_payload <$> transport_error (rtc (demo_state demo_again))) = Some (TransportFault "DataChannel send failed") ∧
  close_task (res (demo_state demo_again)) = Some CloseDone.
Proof. by vm_compute. Qed.

Lemma open_is_live_witness :
  ∃ i p, peers (rtc (demo_state demo_live)) !! i = Some p ∧
    p_generation p = ingress_generation (rtc (demo_state demo_live)) ∧
    live (res (demo_state demo_live)) i.
Proof.
  assert (Engine.ready_state (rtc (demo_state demo_live)) = "open") as Hr by (vm_compute; reflexivity).
  pose proof (open_is_live (bounded 8) demo_live "hi" Hr) as (i & p & Hp & _ & Hg & Hl & _).
  exact (ex_intro _ i (ex_intro _ p (conj Hp (conj Hg Hl)))).
Defined.

Lemma closed_engine_inert_witness :
  Engine.ready_state (rtc (life_poll None DClose
    (demo_state (demo_live ++ [LStartClose; LPoll None; LClose true; LAborted 0] ++ replicate 6 (LClose true)))).2) = "closed".
Proof.
  refine (proj1 (proj2 (closed_engine_inert (bounded 8)
    (demo_live ++ [LStartClose; LPoll None; LClose true; LAborted 0] ++ replicate 6 (LClose true))
    DClose None 0 (EChannel 0 ChannelOpened) "hi" _ _ _))); [by vm_compute|done|by vm_compute].
Defined.

Lemma replaced_peer_inert_witness :
  sends 0 (rtc (life_run [] (life_step (LPoll None) (demo_state demo_again)))) = false.
Proof.
  refine (proj2 (replaced_peer_inert (bounded 8) demo_again None [] 0 (EChannel 0 ChannelOpened) _ _ _ _));
    [by vm_compute|by vm_compute|vm_compute; lia|reflexivity].
Defined.
