(* ===== verification/Uninterrupted.v ===== *)
(** * Uninterrupted operations (src/src/infrastructure/rtc_engine/engine.rs)

    [Engine] models [prepare_offer] and [close] as one operation each, [Lifetime] cuts
    them at their awaits.  Here: in every run of [Lifetime] that nobody interrupts, in
    which the webrtc calls return what [Engine] is told they return, the operation
    returns [Engine]'s result and leaves [Engine]'s state, and no such run is stuck. *)
From S2P Require Import Prelude Floats Json Ingress Channel Utf8 Ports Engine EngineProps Peer Lifetime LifetimeProps.
#[local] Open Scope Z_scope.

Section parts.
Context {C : Type → Type} `{Chan C}.
Implicit Types (e : RtcEngine C) (s : Lifetime C) (r : Peer.Engine).
(** ** Parts of a close *)
Lemma store_same i e : cells e !! i = Some 0 → store_cell i Closed e = e.
Proof. intros Hz. unfold store_cell, with_cells. rewrite list_insert_id by done. by destruct e. Qed.
Lemma aborted_same (i : nat) (l : list (Peer C)) :
  (∀ p, l !! i = Some p → p_sending p = false) → alter (p_aborted (C := C)) i l = l.
Proof.
  intros Hs. apply list_eq. intros j. destruct (decide (i = j)) as [->|Hne].
  - rewrite list_lookup_alter_eq. destruct (l !! j) as [p|] eqn:Hp; [|done].
    simpl. unfold p_aborted. by rewrite (Hs p).
  - by rewrite list_lookup_alter_ne.
Qed.

(** [Engine.close_inner] is its beginning and the end of the command task. *)
Lemma close_inner_parts e :
  (holder e < length (cells e))%nat →
  close_inner e = match Engine.command_task e with
                  | Some i => stop_task i (begin_close e)
                  | None => begin_close e
                  end.
Proof.
  intros Hlt. unfold close_inner, begin_close, stop_task. cbv zeta.
  change (Engine.command_task (set_ready_state Closed e)) with (Engine.command_task e).
  by destruct (Engine.command_task e); apply store_same, list_lookup_insert_eq.
Qed.

Lemma close_step_stage c ready r :
  c ≠ CloseStart → close_task r = Some c → (1 ≤ stage (close_task (close_step ready c r)))%nat.
Proof.
  intros Hne Hc. destruct c as [|t| |p tasks|p|owned|owned|owned|p|]; simpl; try done.
  - destruct (command_finished r t); simpl; [|rewrite Hc; simpl]; lia.
  - destruct (peer_resources r); simpl; lia.
  - destruct tasks as [|t tasks]; [simpl; lia|].
    destruct (media_finished r t); simpl; [|rewrite Hc; simpl]; lia.
  - destruct ready; simpl; [|rewrite Hc; simpl]; lia.
  - destruct (data_channel r), owned; simpl; lia.
  - destruct ready; simpl; [|rewrite Hc; simpl]; lia.
  - destruct (peer_connection r), owned; simpl; lia.
  - destruct ready; simpl; [|rewrite Hc; simpl]; lia.
  - rewrite Hc. simpl. lia.
Qed.

(** A close that has begun only works on the resources. *)
Lemma close_runs n s :
  life_inv s → (1 ≤ stage (close_task (res s)))%nat →
  let s' := life_run (replicate n (LClose true)) s in
  rtc s' = rtc s ∧ res s' = engine_run (replicate n (CloseStep true)) (res s).
Proof.
  cbv zeta. revert s. induction n as [|n IH]; intros s Hi Hst; [done|].
  destruct (close_task (res s)) as [c|] eqn:Hc; [|simpl in Hst; lia].
  assert (c ≠ CloseStart) as Hne by (intros ->; simpl in Hst; lia).
  change (life_run (replicate (S n) (LClose true)) s) with
    (life_run (replicate n (LClose true)) (life_step (LClose true) s)).
  pose proof (life_step_inv (LClose true) s Hi) as Hi'.
  assert (life_step (LClose true) s = life_close true c s) as Hstep by (unfold life_step; by rewrite Hc).
  pose proof (life_close_res true c s Hc) as Hres. rewrite <- Hstep in Hres.
  assert (rtc (life_step (LClose true) s) = rtc s) as Hrtc.
  { rewrite Hstep. destruct (li_closed _ Hi) as [Hz _]; [by rewrite Hc|].
    unfold life_close. set (r := close_step true c (res s)). cbn [with_res res].
    destruct c; try done; destruct (close_task r) as [[]|]; try done; by apply store_same. }
  destruct (IH _ Hi') as [H1 H2].
  { rewrite Hres. unfold engine_step. rewrite Hc. by apply close_step_stage. }
  rewrite H1, H2, Hrtc, Hres. done.
Qed.
Lemma media_runs ts s :
  life_run (LMediaEnds <$> ts) s = with_res (engine_run (MediaEnds <$> ts) (res s)) s.
Proof.
  revert s. induction ts as [|t ts IH]; intros s; [by destruct s|].
  change (life_run (LMediaEnds <$> t :: ts) s) with
    (life_run (LMediaEnds <$> ts) (life_step (LMediaEnds t) s)). by rewrite IH.
Qed.

Lemma life_run_app l l' s : life_run (l ++ l') s = life_run l' (life_run l s).
Proof. apply foldl_app. Qed.

Definition idle s : Prop := driver (res s) = None ∧ close_task (res s) = None.
Definition void {A} (r : PortResult A) : PortResult () :=
  match r with Ok _ => Ok () | Err error => Err error end.

Lemma start_bind e :
  start_commands true (length (peers e)) (bind_peer (ingress_generation e) e) =
  with_command (Some (length (peers e))) (Some (length (peers e)))
    (with_peers (peers e ++ [new_peer e]) e).
Proof.
  unfold start_commands, bind_peer. simpl. unfold with_command, with_peers. simpl. f_equal.
  rewrite alter_app_r_alt by lia. by rewrite Nat.sub_diag.
Qed.
End parts.

(** ** Aborted command tasks

    The one a close awaits was aborted; the one that is stored was not. *)
Definition awaited_aborted (e : Peer.Engine) : Prop :=
  ∀ c, close_task e = Some (AwaitCommand c) → command_tasks e !! c ≠ Some TRunning.

Lemma aborted_not_running (l : list task_status) c : alter abort_status c l !! c ≠ Some TRunning.
Proof.
  rewrite list_lookup_alter_eq. destruct (l !! c) as [st|]; [|done]. simpl. destruct st; intros Heq; discriminate Heq.
Qed.
Lemma close_step_aborted ready c e :
  close_task e = Some c → awaited_aborted e → awaited_aborted (close_step ready c e).
Proof.
  intros Hc Ha.
  assert (∀ c' e', (∀ t, c' ≠ AwaitCommand t) → awaited_aborted (with_close (Some c') e')) as Hno.
  { intros c' e' Hne t [= ->]. by destruct (Hne t). }
  destruct c as [|t| |r tasks|r|owned|owned|owned|q|]; unfold close_step.
  - destruct (Peer.command_task e) as [t|]; [|by apply Hno]. intros c. simpl. intros [= ->]. apply aborted_not_running.
  - destruct (command_finished e t); [by apply Hno|done].
  - cbv zeta. case_match; by apply Hno.
  - destruct tasks as [|t tasks]; [by apply Hno|]. destruct (media_finished e t); [by apply Hno|done].
  - destruct ready; [by apply Hno|done].
  - apply Hno. by destruct (data_channel e), owned.
  - destruct ready; [by apply Hno|done].
  - apply Hno. by destruct (peer_connection e), owned.
  - destruct ready; [by apply Hno|done].
  - done.
Qed.
Lemma close_poll_aborted e : awaited_aborted e → awaited_aborted (close_poll e).2.
Proof. intros Ha. unfold close_poll. destruct (close_task e) as [[]|] eqn:Hc; try done; by intros c. Qed.
Lemma driver_poll_aborted outcome d e :
  engine_inv e → driver e = Some d → awaited_aborted e → awaited_aborted (driver_poll outcome d e).2.
Proof.
  intros Hi Hd Ha. pose proof (close_poll_aborted e Ha) as Hp.
  pose proof (en_driver e Hi) as Hdr. unfold driver_ok in Hdr. rewrite Hd in Hdr.
  assert (∀ e', close_task e' = None → awaited_aborted e') as Hnone by (intros e' Hn c; by rewrite Hn).
  destruct d as [| | |p|p|p|p|p|error]; simpl.
  1,2,9: by destruct (close_poll e) as [[] e'].
  - destruct outcome as [[u|error]|]; [|by apply Hnone, Hdr|done].
    apply Hnone. simpl. unfold register. simpl. destruct (peer_resources e) as [r|]; [|by apply Hdr].
    simpl. unfold drop_resources. destruct (command r); by apply Hdr.
  - destruct outcome as [[u|error]|]; [by apply Hnone, Hdr|by apply Hnone, Hdr|done].
  - by apply Hnone, Hdr.
  - by apply Hnone, Hdr.
  - apply Hnone. destruct (peer_resources e), (Peer.command_task e); by apply Hdr.
  - destruct outcome as [[u|error]|]; [by apply Hnone|by apply Hnone|done].
Qed.
Lemma engine_step_aborted o e : engine_inv e → awaited_aborted e → awaited_aborted (engine_step o e).
Proof.
  intros Hi Ha. destruct o as [| |outcome| |ready|p kind codec|t|c]; simpl.
  - by destruct (driver e).
  - by destruct (driver e).
  - destruct (driver e) as [d|] eqn:Hd; [|done]. by apply driver_poll_aborted.
  - done.
  - destruct (close_task e) as [c|] eqn:Hc; [|done]. by apply close_step_aborted.
  - unfold on_track. destruct (negb _); [done|]. destruct (connections e !! p ≫= media); [|done]. by destruct kind.
  - done.
  - intros i Hc. simpl in *. destruct (decide (c = i)) as [->|Hne].
    + rewrite list_lookup_alter_eq. by destruct (command_tasks e !! i).
    + rewrite list_lookup_alter_ne by done. by apply Ha.
Qed.
Lemma engine_run_aborted l e : engine_inv e → awaited_aborted e → awaited_aborted (engine_run l e).
Proof.
  revert e. induction l as [|o l IH]; intros e Hi Ha; [done|].
  apply IH; [by apply engine_step_inv|by apply engine_step_aborted].
Qed.

Definition stored_kept (e : Peer.Engine) : Prop :=
  ∀ c, Peer.command_task e = Some c → command_tasks e !! c ≠ Some TAborted.
Lemma close_step_kept ready c e :
  engine_inv e → close_task e = Some c → stored_kept e → stored_kept (close_step ready c e).
Proof.
  intros Hi Hc Hs. assert (∀ e', Peer.command_task e' = None → stored_kept e') as Hnone.
  { intros e' Hn t. by rewrite Hn. }
  destruct c as [|t| |r tasks|r|owned|owned|owned|q|]; unfold close_step.
  1: by destruct (Peer.command_task e) eqn:Ht; apply Hnone.
  all: pose proof (en_stage1 e Hi) as Hn; rewrite Hc in Hn; specialize (Hn ltac:(simpl; lia)).
  - by destruct (command_finished e t); apply Hnone.
  - cbv zeta. destruct (peer_resources _); by apply Hnone.
  - destruct tasks as [|t tasks]; [|destruct (media_finished e t)]; by apply Hnone.
  - destruct ready; [|by apply Hnone]. apply Hnone. by destruct (command r).
  - by apply Hnone.
  - destruct ready; by apply Hnone.
  - by apply Hnone.
  - destruct ready; by apply Hnone.
  - by apply Hnone.
Qed.
Lemma driver_poll_kept outcome d e :
  engine_inv e → driver e = Some d → stored_kept e → stored_kept (driver_poll outcome d e).2.
Proof.
  intros Hi Hd Hs. assert (stored_kept (close_poll e).2) as Hp.
  { unfold close_poll. by destruct (close_task e) as [[]|]. }
  pose proof (en_driver e Hi) as Hdr. unfold driver_ok in Hdr. rewrite Hd in Hdr.
  destruct d as [| | |p|p|p|p|p|error]; simpl.
  1,2,9: by destruct (close_poll e) as [[] e'].
  - destruct Hdr as (_ & Hr & _). destruct outcome as [[u|error]|]; try done.
    unfold register. simpl. by rewrite Hr.
  - by destruct outcome as [[]|].
  - done.
  - done.
  - destruct Hdr as (_ & (r & Hr & _) & Hc). rewrite Hr. intros c. simpl. rewrite Hc. simpl.
    intros [= <-]. by rewrite list_lookup_middle.
  - by destruct outcome as [[]|].
Qed.
Lemma engine_step_kept o e : engine_inv e → stored_kept e → stored_kept (engine_step o e).
Proof.
  intros Hi Hs. destruct o as [| |outcome| |ready|p kind codec|t|c]; simpl.
  - by destruct (driver e).
  - by destruct (driver e).
  - destruct (driver e) as [d|] eqn:Hd; [|done]. by apply driver_poll_kept.
  - done.
  - destruct (close_task e) as [c|] eqn:Hc; [|done]. by apply close_step_kept.
  - unfold on_track. destruct (negb _); [done|]. destruct (connections e !! p ≫= media); [|done]. by destruct kind.
  - done.
  - intros i Hc. simpl in *. destruct (decide (c = i)) as [->|Hne].
    + rewrite list_lookup_alter_eq. by destruct (command_tasks e !! i).
    + rewrite list_lookup_alter_ne by done. by apply Hs.
Qed.

(** ** A close comes to its end *)
Section closing.
Context {C : Type → Type} `{Chan C}.
Implicit Types (x : Lifetime C).

(** What goes on without the caller, the callbacks and the calls of the ports: a close
    moves, tracks arrive, media tasks end, and aborted tasks are dropped. *)
Definition background (o : @life_op C) : bool :=
  match o with LClose _ | LTrack _ _ _ | LMediaEnds _ | LAborted _ => true | _ => false end.
Abbreviation unaided := (Forall (λ o, background o = true)).

Lemma close_begins x c :
  life_inv x → close_task (res x) = Some c →
  ∃ l, unaided l ∧ (1 ≤ Peer.stage (close_task (res (life_run l x))))%nat.
Proof.
  intros Hi Hc. destruct (decide (c = CloseStart)) as [->|Hne].
  - exists [LClose true]. split; [by repeat constructor|]. simpl. rewrite Hc. unfold life_close. simpl.
    destruct (Peer.command_task (res x)); simpl; lia.
  - exists []. split; [done|]. simpl. rewrite Hc. destruct c; done || (simpl; lia).
Qed.
Lemma background_driver o x : background o = true → driver (res (life_step o x)) = driver (res x).
Proof. intros Ho. apply life_driver. by destruct o. Qed.
Lemma life_run_driver l x : unaided l → driver (res (life_run l x)) = driver (res x).
Proof.
  revert x. induction l as [|o l IH]; intros x Hl; [done|]. apply Forall_cons in Hl as [Ho Hl].
  change (life_run (o :: l) x) with (life_run l (life_step o x)). rewrite IH by done. by apply background_driver.
Qed.
(** A command task that has not ended is the one awaited, and it was aborted. *)
Lemma command_ends x :
  life_inv x → awaited_aborted (res x) → (1 ≤ Peer.stage (close_task (res x)))%nat →
  ∃ l, unaided l ∧ close_task (res (life_run l x)) = close_task (res x) ∧
    Forall (λ st, st = TEnded) (command_tasks (res (life_run l x))).
Proof.
  intros Hi Ha Hst. pose proof (en_stage1 _ (li_res _ Hi) Hst) as Hn. pose proof (en_commands _ (li_res _ Hi)) as Hc.
  assert ((∃ c, close_task (res x) = Some (AwaitCommand c) ∧ command_tasks (res x) !! c = Some TAborted) ∨
    Forall (λ st, st = TEnded) (command_tasks (res x))) as [(c & Hcl & Hab)|Hend].
  { destruct (decide (Forall (λ st, st = TEnded) (command_tasks (res x)))) as [|Hno]; [by right|left].
    apply not_Forall_Exists in Hno; [|apply _]. apply Exists_exists in Hno as (st & [c Hlk]%list_elem_of_lookup & Hne).
    destruct (Hc c st Hlk Hne) as [?|Hcl]; [congruence|]. exists c. split; [done|]. rewrite Hlk.
    pose proof (Ha c Hcl) as Hna. destruct st; congruence. }
  - exists [LAborted c]. split; [by repeat constructor|].
    destruct (lookup_lt_is_Some_2 (task_peer x) c) as [i Hp].
    { rewrite (li_tasks _ Hi). by eapply lookup_lt_Some. }
    simpl. rewrite decide_True by done. unfold drop_task. rewrite Hp. simpl. split; [done|].
    apply Forall_forall. intros st [j Hj]%list_elem_of_lookup. apply alter_lookup_Some in Hj as (st' & Hj & ->).
    case_decide; [done|]. destruct (decide (st' = TEnded)) as [|Hne]; [done|].
    destruct (Hc j st' Hj Hne); congruence.
  - exists []. by split.
Qed.
(** So do the media tasks, and the close runs through. *)
Lemma close_ends x c :
  life_inv x → awaited_aborted (res x) → close_task (res x) = Some c →
  ∃ l, unaided l ∧ close_task (res (life_run l x)) = Some CloseDone.
Proof.
  intros Hi Ha Hc. destruct (close_begins x c Hi Hc) as (l1 & Hl1 & Hst1). set (x1 := life_run l1 x) in *.
  assert (life_inv x1) as Hi1 by by apply life_run_inv.
  assert (awaited_aborted (res x1)) as Ha1.
  { destruct (life_run_res l1 x) as (l' & _ & Hres). fold x1 in Hres. rewrite Hres.
    by apply engine_run_aborted; [apply Hi|]. }
  destruct (command_ends x1 Hi1 Ha1 Hst1) as (l2 & Hl2 & Hc2 & Hend). set (x2 := life_run l2 x1) in *.
  set (ts := seq 0 (length (media_tasks (res x2)))).
  destruct (media_ends_run ts (res x2)) as (K1 & K2 & K3 & K4 & K5).
  pose proof (media_runs ts x2) as Hm. set (x3 := life_run (LMediaEnds <$> ts) x2) in *.
  assert (life_inv x3) as Hi3 by by apply life_run_inv, life_run_inv.
  assert (res x3 = engine_run (MediaEnds <$> ts) (res x2)) as Hres3 by by rewrite Hm.
  rewrite <- Hres3 in *. assert (Peer.settled (res x3)) as Hset.
  { split; [|by rewrite K3]. apply Forall_forall. intros [p st] [t Ht]%list_elem_of_lookup.
    destruct (K5 t p st Ht) as [|[Hno Ho]]; [done|]. destruct Hno. apply lookup_lt_Some in Ho.
    apply elem_of_seq. lia. }
  destruct (close_task (res x1)) as [c1|] eqn:Hc1; [|simpl in Hst1; lia].
  rewrite Hc2 in K1. destruct (close_closes c1 (res x3) Hset K1) as (n & Hdone & _ & _).
  destruct (close_runs n x3 Hi3) as [_ Hres]; [by rewrite K1|].
  exists (l1 ++ l2 ++ (LMediaEnds <$> ts) ++ replicate n (LClose true)). split.
  - rewrite !Forall_app. split_and!; [done|done|by apply Forall_fmap, Forall_true|by apply Forall_replicate].
  - rewrite !life_run_app. fold x1. fold x2. fold x3. by rewrite Hres.
Qed.
End closing.

(** ** A run that nobody interrupts *)
Section uninterrupted.
Context {C : Type → Type} `{Chan C}.
Implicit Types (e : RtcEngine C) (s : Lifetime C).

Record sane s : Prop := {
  sn_inv : life_inv s;
  sn_linked : linked s;
  sn_awaited : awaited_aborted (res s);
  sn_stored : stored_kept (res s);
}.
Lemma sane_step o s : sane s → sane (life_step o s).
Proof.
  intros [Hi Hl Ha Hs]. split; [by apply life_step_inv|by apply life_step_linked| |];
    destruct (life_step_res o s) as [->|[o' ->]]; try done;
    [by apply engine_step_aborted; [apply Hi|]|by apply engine_step_kept; [apply Hi|]].
Qed.
Lemma sane_run l s : sane s → sane (life_run l s).
Proof. revert s. induction l as [|o l IH]; intros s Hs; [done|]. by apply IH, sane_step. Qed.
Lemma sane_reached q l : sane (reached q l).
Proof. apply sane_run. split; [apply new_lifetime_inv|done..]. Qed.

(** *** How far the close that began with the engine [e] has come *)
Definition at_close e s : Prop :=
  match close_task (res s) with
  | None | Some CloseStart => rtc s = e
  | Some (AwaitCommand c) =>
      if command_finished (res s) c then rtc s = close_inner e
      else rtc s = begin_close e ∧ Engine.command_task e = task_peer s !! c
  | Some _ => rtc s = close_inner e
  end.
Definition late (c : close_pc) : bool :=
  match c with CloseStart | AwaitCommand _ => false | _ => true end.

Lemma close_step_late ready c r :
  late c = true → close_task r = Some c →
  ∃ c', close_task (close_step ready c r) = Some c' ∧ late c' = true.
Proof.
  intros Hl Hc. destruct c as [|t| |p tasks|p|owned|owned|owned|p|]; try done; simpl.
  - destruct (peer_resources r); eauto.
  - destruct tasks as [|t tasks]; [eauto|]. destruct (media_finished r t); eauto.
  - destruct ready; eauto.
  - destruct (data_channel r), owned; eauto.
  - destruct ready; eauto.
  - destruct (peer_connection r), owned; eauto.
  - destruct ready; eauto.
  - eauto.
Qed.
Lemma at_late e s c : close_task (res s) = Some c → late c = true → at_close e s ↔ rtc s = close_inner e.
Proof. unfold at_close. intros ->. by destruct c. Qed.

(** The first step of a close. *)
Lemma close_starts ready e s :
  sane s → close_task (res s) = Some CloseStart → rtc s = e → at_close e (life_close ready CloseStart s).
Proof.
  intros [Hi Hl _ _] Hc <-. pose proof (close_inner_parts (rtc s) (li_holder _ Hi)) as Hparts.
  unfold linked in Hl. unfold at_close, life_close. simpl.
  destruct (Peer.command_task (res s)) as [c|] eqn:Ht; simpl; [|by rewrite Hparts, Hl].
  destruct (command_finished _ c) eqn:Hf; [|by rewrite Hl]. simpl in Hl. rewrite Hparts, Hl.
  destruct (task_peer s !! c) as [i|] eqn:Hp; [|done].
  symmetry. unfold stop_task. rewrite aborted_same; [by destruct (begin_close (rtc s))|].
  intros p Hpi. destruct (p_sending p) eqn:Hs; [|done].
  assert (sends i (rtc s) = true) as Hse.
  { apply (calm_sends _ _ i (calm_close (rtc s))). unfold sends. by rewrite Hpi. }
  destruct (li_sending _ Hi i Hse) as [_ (c' & Hpc' & st & Hst & Hne)]. destruct Hne.
  destruct (decide (st = TEnded)) as [|Hne]; [done|].
  destruct (en_commands _ (li_res _ Hi) c' st Hst Hne) as [Hc'|Hc']; [|congruence].
  replace c' with c in Hst by congruence. unfold command_finished in Hf. simpl in Hf.
  rewrite list_lookup_alter_eq, Hst in Hf. simpl in Hf. by destruct st.
Qed.
Lemma close_moves ready c e s :
  sane s → close_task (res s) = Some c → at_close e s → at_close e (life_close ready c s).
Proof.
  intros Hs Hc Ha. destruct (late c) eqn:Hlate.
  - destruct (close_step_late ready c (res s) Hlate Hc) as (c' & Hc' & Hlate').
    pose proof (proj1 (at_late e s c Hc Hlate) Ha) as Hr.
    destruct (li_closed _ (sn_inv _ Hs)) as [Hz _]; [rewrite Hc; destruct c; try done; simpl; lia|].
    apply (at_late e _ c'); [|done|].
    + unfold life_close. simpl. destruct c; try done; rewrite ?Hc'; by destruct c'.
    + rewrite <- Hr. unfold life_close. simpl. rewrite Hc'.
      destruct c; try done; destruct c'; try done; by apply store_same.
  - destruct c as [|t| | | | | | | |]; try done.
    + apply close_starts; [done|done|]. revert Ha. unfold at_close. by rewrite Hc.
    + revert Ha. unfold at_close, life_close. simpl. rewrite Hc.
      destruct (command_finished (res s) t) eqn:Hf; simpl; [done|]. rewrite Hc. simpl. by rewrite Hc, Hf.
Qed.

(** An aborted task that is dropped is the one the close awaits. *)
Lemma aborted_awaited s c :
  sane s → command_tasks (res s) !! c = Some TAborted → close_task (res s) = Some (AwaitCommand c).
Proof.
  intros [Hi _ _ Hs] Hc. destruct (en_commands _ (li_res _ Hi) c TAborted Hc) as [Ht|]; [done| |done].
  by destruct (Hs c Ht).
Qed.
Lemma drop_at_close c e s :
  sane s → command_tasks (res s) !! c = Some TAborted → at_close e s → at_close e (drop_task c s).
Proof.
  intros Hs Hc. pose proof (aborted_awaited s c Hs Hc) as Hcl. destruct Hs as [Hi _ _ _].
  destruct (lookup_lt_is_Some_2 (task_peer s) c) as [i Hp].
  { rewrite (li_tasks _ Hi). by eapply lookup_lt_Some. }
  unfold at_close, drop_task. rewrite Hcl, Hp. unfold command_finished. rewrite Hc. intros [Hr Ht].
  simpl. rewrite Hcl, list_lookup_alter_eq, Hc. simpl. rewrite Hr.
  rewrite close_inner_parts, Ht; [done|].
  pose proof (li_holder _ Hi) as Hlt. rewrite Hr in Hlt. unfold begin_close in Hlt. simpl in Hlt.
  by rewrite length_insert in Hlt.
Qed.
Lemma at_close_same e s r :
  close_task r = close_task (res s) → command_tasks r = command_tasks (res s) →
  at_close e s → at_close e (with_res r s).
Proof. intros Hc Ht. unfold at_close, command_finished. simpl. by rewrite Hc, Ht. Qed.
Lemma on_track_tasks p kind codec r :
  close_task (on_track p kind codec r) = close_task r ∧ command_tasks (on_track p kind codec r) = command_tasks r.
Proof. unfold on_track. destruct (negb _); [done|]. destruct (connections r !! p ≫= media); [|done]. by destruct kind. Qed.

(** What goes on in the background. *)
Lemma background_at_close o e s : sane s → background o = true → at_close e s → at_close e (life_step o s).
Proof.
  intros Hs Ho Ha. destruct o as [| |outcome| |ready|p kind codec|t|c|c outcome|c|o]; try done; unfold life_step.
  - destruct (close_task (res s)) as [c|] eqn:Hc; [|done]. by apply close_moves.
  - destruct (on_track_tasks p kind codec (res s)). by apply (at_close_same e s (on_track p kind codec (res s))).
  - destruct (decide _) as [Hc|]; [|done]. by apply drop_at_close.
Qed.
Lemma background_idle o s :
  sane s → background o = true → close_task (res s) = None →
  rtc (life_step o s) = rtc s ∧ close_task (res (life_step o s)) = None.
Proof.
  intros Hs Ho Hc. destruct o as [| |outcome| |ready|p kind codec|t|c|c outcome|c|o]; try done; unfold life_step.
  - by rewrite Hc.
  - simpl. by rewrite (proj1 (on_track_tasks p kind codec (res s))).
  - by destruct (decide _) as [Hab|]; [rewrite (aborted_awaited s c Hs Hab) in Hc|].
Qed.
Lemma background_captured o s : background o = true → captured (life_step o s) = captured s.
Proof.
  destruct o as [| |outcome| |ready|p kind codec|t|c|c outcome|c|o]; try done; intros _; unfold life_step; try done.
  - destruct (close_task (res s)) as [c|]; [|done]. unfold life_close.
    destruct c; try done; by destruct (close_task _) as [[]|].
  - destruct (decide _); [|done]. unfold drop_task. by destruct (task_peer s !! c).
Qed.

(** A poll of a caller that waits for the close. *)
Lemma polled_close e s b r :
  at_close e s → close_poll (res s) = (b, r) →
  if b then rtc s = close_inner e ∧ close_task r = None
  else ∀ d, at_close e (with_res (with_driver d r) s).
Proof.
  unfold at_close, close_poll. destruct (close_task (res s)) as [c|] eqn:Hc.
  - destruct c; intros Ha [= <- <-]; try (by split); intros d; unfold command_finished in *; simpl; by rewrite Hc.
  - by intros Ha [= <- <-].
Qed.

(** *** The calls of the webrtc crate and what they return *)
Section outcomes.
Context (created setup : PortResult ()) (offer : PortResult string).

(** What the call that a caller awaits returns, if it awaits one. *)
Definition answer (d : driver_pc) : option (PortResult ()) :=
  match d with
  | DCreate => Some created
  | DSetup _ => Some setup
  | DOffer _ => Some (void offer)
  | _ => None
  end.
(** Nobody interrupts: the caller is polled while a call is pending or when it has
    returned, and all else is background. *)
Definition quiet (o : @life_op C) s : bool :=
  match o with
  | LPoll None => true
  | LPoll (Some r) => bool_decide (driver (res s) ≫= answer = Some r)
  | o => background o
  end.
Fixpoint undisturbed (l : list (@life_op C)) s : bool :=
  match l with [] => true | o :: l => quiet o s && undisturbed l (life_step o s) end.

Lemma undisturbed_app l l' s : undisturbed (l ++ l') s = undisturbed l s && undisturbed l' (life_run l s).
Proof.
  revert s. induction l as [|o l IH]; intros s; [done|]. simpl. by rewrite IH, andb_assoc.
Qed.
Lemma background_quiet o s : background o = true → quiet o s = true.
Proof. by destruct o. Qed.
Lemma background_undisturbed l s : Forall (λ o, background o = true) l → undisturbed l s = true.
Proof.
  intros Hl. revert s. induction Hl as [|o l Ho _ IH]; intros s; [done|]. simpl. by rewrite background_quiet, IH.
Qed.

(** *** The course of an operation that was called on the engine [e0]

    [closing]: the operation is [close]. *)
Section course.
Context (closing : bool) (e0 : RtcEngine C).
Definition outcome_of : PortResult () * RtcEngine C :=
  if closing then (Ok (), close_inner e0)
  else (void (prepare_offer created setup offer e0).1, (prepare_offer created setup offer e0).2).
Definition bound : RtcEngine C := bind_peer (ingress_generation (fresh e0)) (fresh e0).
Definition started : RtcEngine C := start_commands true (length (peers (fresh e0))) bound.
Definition on_course s : Prop :=
  match driver (res s) with
  | None => True
  | Some DClose => closing = true ∧ at_close e0 s
  | Some d => closing = false ∧
      match d with
      | DClose | DPrepClose => at_close e0 s
      | DCreate => rtc s = fresh e0 ∧ captured s = ingress_generation (fresh e0)
      | DSetup p => created = Ok () ∧ p = length (peers (fresh e0)) ∧ rtc s = bound
      | DStorePeer p | DStoreChannel p | DStoreTrack p =>
          created = Ok () ∧ setup = Ok () ∧ p = length (peers (fresh e0)) ∧ rtc s = bound
      | DOffer p => created = Ok () ∧ setup = Ok () ∧ rtc s = started
      | DRollback error => ∃ e, at_close e s ∧ prepare_offer created setup offer e0 = (Err error, close_inner e)
      end
  end.

Lemma background_on_course o s : sane s → background o = true → on_course s → on_course (life_step o s).
Proof.
  intros Hs Ho. unfold on_course. rewrite (background_driver o s Ho), (background_captured o s Ho).
  pose proof (en_driver _ (li_res _ (sn_inv _ Hs))) as Hd. unfold driver_ok in Hd.
  pose proof (λ e, background_at_close o e s Hs Ho) as Hclose.
  destruct (driver (res s)) as [d|]; [|done].
  destruct d as [| | |p|p|p|p|p|error]; try (destruct (background_idle o s Hs Ho) as [-> _]; [by try apply Hd|done]).
  - intros [? ?]. eauto.
  - intros [? ?]. eauto.
  - intros (? & e & ? & ?). eauto 6.
Qed.

(** Every poll keeps the course, or returns what the operation is to return. *)
Definition arrived s (r : PortResult ()) : Prop := (r, rtc s) = outcome_of ∧ idle s.
Definition polled_on_course outcome d s : Prop :=
  match (life_poll outcome d s).1 with
  | None => on_course (life_poll outcome d s).2
  | Some r => arrived (life_poll outcome d s).2 r
  end.
Lemma close_polled outcome d s :
  driver (res s) = Some d → on_course s →
  match d with DClose | DPrepClose | DRollback _ => polled_on_course outcome d s | _ => True end.
Proof.
  intros Hd. unfold on_course. rewrite Hd. unfold polled_on_course, life_poll.
  destruct d as [| | |p|p|p|p|p|error]; try done; intros [Hcl Hc]; simpl.
  - destruct (close_poll (res s)) as [[] r] eqn:Hp; pose proof (polled_close e0 s _ _ Hc Hp) as Hr; simpl.
    + destruct Hr as [Hr Hn]. split; [|by split]. unfold outcome_of. rewrite Hcl. simpl. by rewrite Hr.
    + unfold on_course. simpl. split; [done|]. by destruct (close_poll (res s)).
  - destruct (close_poll (res s)) as [[] r] eqn:Hp; pose proof (polled_close e0 s _ _ Hc Hp) as Hr; simpl.
    + destruct Hr as [Hr Hn]. unfold on_course. simpl. rewrite Hr. by split_and!.
    + unfold on_course. simpl. by split.
  - destruct Hc as (e & Hc & He).
    destruct (close_poll (res s)) as [[] r] eqn:Hp; pose proof (polled_close e s _ _ Hc Hp) as Hr; simpl.
    + destruct Hr as [Hr Hn]. split; [|by split]. unfold outcome_of. rewrite Hcl, He. simpl. by rewrite Hr.
    + unfold on_course. simpl. split; [done|]. by exists e.
Qed.
Lemma call_polled outcome d s :
  sane s → driver (res s) = Some d → quiet (LPoll outcome) s = true → on_course s →
  polled_on_course outcome d s.
Proof.
  intros Hs Hd Hq Hc. pose proof (close_polled outcome d s Hd Hc) as Hclose.
  pose proof (en_driver _ (li_res _ (sn_inv _ Hs))) as Hdr. unfold driver_ok in Hdr. rewrite Hd in Hdr.
  unfold quiet in Hq. rewrite Hd in Hq. unfold on_course in Hc. rewrite Hd in Hc.
  destruct d as [| | |p|p|p|p|p|error]; try exact Hclose; clear Hclose; destruct Hc as [Hcl Hc];
    unfold polled_on_course, life_poll; simpl in *.
  - destruct Hc as [Hr Hcap], Hdr as (Hn & _).
    destruct outcome as [[[]|error]|]; simpl; [| |unfold on_course; simpl; by rewrite Hd]; apply bool_decide_eq_true in Hq;
      injection Hq as Hcr; unfold on_course; simpl.
    + split_and!; [done|done| |by rewrite Hr, Hcap]. by rewrite <- (li_peers _ (sn_inv _ Hs)), Hr.
    + split; [done|]. exists (fresh e0). unfold at_close. simpl. rewrite Hn. split; [done|].
      unfold prepare_offer. by rewrite Hcr.
  - destruct Hc as (Hcr & -> & Hr), Hdr as (Hn & _).
    destruct outcome as [[[]|error]|]; simpl; [| |unfold on_course; simpl; by rewrite Hd]; apply bool_decide_eq_true in Hq;
      injection Hq as Hse; unfold on_course; simpl.
    + by split_and!.
    + split; [done|]. exists bound. unfold at_close. simpl. rewrite Hn. split; [done|].
      unfold prepare_offer. by rewrite Hcr, Hse.
  - by unfold on_course.
  - by unfold on_course.
  - destruct Hc as (Hcr & Hse & -> & Hr), Hdr as (Hn & (r & Hrs & _) & _). rewrite Hrs. unfold on_course. simpl.
    split_and!; [done..|]. by rewrite Hr.
  - destruct Hc as (Hcr & Hse & Hr).
    destruct outcome as [[[]|error]|]; simpl; [| |unfold on_course; simpl; by rewrite Hd]; apply bool_decide_eq_true in Hq;
      injection Hq as Hof.
    + split; [|by split]. unfold outcome_of. rewrite Hcl. simpl. rewrite Hr. unfold prepare_offer, started, bound.
      rewrite start_bind, Hcr, Hse. by destruct offer.
    + unfold on_course. simpl. split; [done|]. exists started. unfold at_close. simpl. rewrite Hdr. split; [done|].
      unfold prepare_offer, started, bound. rewrite start_bind, Hcr, Hse. destruct offer; simpl in Hof; [done|].
      by injection Hof as ->.
Qed.
Lemma step_on_course o s : sane s → quiet o s = true → on_course s → on_course (life_step o s).
Proof.
  intros Hs Hq Hc. destruct o as [| |outcome| |ready|p kind codec|t|c|c outcome|c|o]; try done;
    try (by apply background_on_course). unfold life_step.
  destruct (driver (res s)) as [d|] eqn:Hd; [|by unfold on_course; rewrite Hd].
  pose proof (call_polled outcome d s Hs Hd Hq Hc) as Hp. unfold polled_on_course in Hp.
  destruct (life_poll outcome d s) as [[r|] s']; [|done]. destruct Hp as [_ [Hn _]]. unfold on_course. simpl in *. by rewrite Hn.
Qed.
Lemma run_on_course l s : sane s → undisturbed l s = true → on_course s → on_course (life_run l s).
Proof.
  revert s. induction l as [|o l IH]; intros s Hs Hl Hc; [done|]. simpl in Hl. bool_hyps.
  apply IH; [by apply sane_step|done|by apply step_on_course].
Qed.
End course.

(** *** No run is stuck *)

(** The operation that the schedule [l] runs from [s] returns [r]. *)
Definition returns (r : PortResult ()) (l : list (@life_op C)) s : Prop :=
  ∃ l0 outcome d, l = l0 ++ [LPoll outcome] ∧ driver (res (life_run l0 s)) = Some d ∧
    (life_poll outcome d (life_run l0 s)).1 = Some r.
Definition can_return s : Prop := ∃ l r, undisturbed l s = true ∧ returns r l s.
Lemma returns_app l r l' s : returns r l' (life_run l s) → returns r (l ++ l') s.
Proof.
  intros (l0 & outcome & d & -> & Hd & Hr). exists (l ++ l0), outcome, d. rewrite life_run_app. by rewrite app_assoc.
Qed.
Lemma can_after l s : undisturbed l s = true → can_return (life_run l s) → can_return s.
Proof.
  intros Hl (l' & r & Hl' & Hr). exists (l ++ l'), r. rewrite undisturbed_app, Hl. split; [done|by apply returns_app].
Qed.
Lemma can_now outcome d r s :
  quiet (LPoll outcome) s = true → driver (res s) = Some d → (life_poll outcome d s).1 = Some r → can_return s.
Proof.
  intros Hq Hd Hr. exists [LPoll outcome], r. split; [|by exists [], outcome, d].
  unfold undisturbed. by rewrite Hq.
Qed.
Lemma can_next outcome d d' s :
  sane s → driver (res s) = Some d → quiet (LPoll outcome) s = true →
  driver (res (life_poll outcome d s).2) = Some d' →
  (∀ s', sane s' → driver (res s') = Some d' → can_return s') → can_return s.
Proof.
  intros Hs Hd Hq Hd' Hn. apply (can_after [LPoll outcome]); [unfold undisturbed; by rewrite Hq|].
  change (can_return (life_step (LPoll outcome) s)). apply Hn; [by apply sane_step|].
  unfold life_step. by rewrite Hd.
Qed.

(** The close that a caller waits for comes to its end. *)
Lemma awaited_close d s :
  match d with DClose | DPrepClose | DRollback _ => True | _ => False end →
  sane s → driver (res s) = Some d →
  ∃ l, undisturbed l s = true ∧ driver (res (life_run l s)) = Some d ∧
    close_task (res (life_run l s)) = Some CloseDone.
Proof.
  intros Hw Hs Hd.
  assert (∃ l0 c, undisturbed l0 s = true ∧ driver (res (life_run l0 s)) = Some d ∧
    close_task (res (life_run l0 s)) = Some c) as (l0 & c & Hl0 & Hd0 & Hc0).
  { destruct (close_task (res s)) as [c|] eqn:Hc; [by exists [], c|]. exists [LPoll None], CloseStart.
    split; [done|]. change (life_run [LPoll None] s) with (life_step (LPoll None) s). unfold life_step.
    rewrite Hd. unfold life_poll, driver_poll, close_poll. rewrite Hc. by destruct d. }
  pose proof (sane_run l0 s Hs) as [Hi _ Ha _]. destruct (close_ends _ c Hi Ha Hc0) as (l & Hl & Hdone).
  exists (l0 ++ l). rewrite undisturbed_app, Hl0, life_run_app, life_run_driver by done.
  split_and!; [by rewrite background_undisturbed|done|done].
Qed.
Lemma close_can s : sane s → driver (res s) = Some DClose → can_return s.
Proof.
  intros Hs Hd. destruct (awaited_close DClose s I Hs Hd) as (l & Hl & Hd' & Hc). apply (can_after l); [done|].
  apply (can_now None DClose (Ok ())); [done..|]. unfold life_poll, driver_poll, close_poll. by rewrite Hc.
Qed.
Lemma rollback_can error s : sane s → driver (res s) = Some (DRollback error) → can_return s.
Proof.
  intros Hs Hd. destruct (awaited_close (DRollback error) s I Hs Hd) as (l & Hl & Hd' & Hc). apply (can_after l); [done|].
  apply (can_now None (DRollback error) (Err error)); [done..|]. unfold life_poll, driver_poll, close_poll. by rewrite Hc.
Qed.
Lemma answered d r s : driver (res s) = Some d → answer d = Some r → quiet (LPoll (Some r)) s = true.
Proof. intros Hd Ha. unfold quiet. rewrite Hd. simpl. by rewrite Ha, bool_decide_true. Qed.
Lemma offer_can p s : sane s → driver (res s) = Some (DOffer p) → can_return s.
Proof.
  intros Hs Hd. pose proof (answered _ _ s Hd eq_refl) as Hq. destruct offer as [sdp|error]; simpl in Hq.
  - by apply (can_now (Some (Ok ())) (DOffer p) (Ok ())).
  - apply (can_next (Some (Err error)) (DOffer p) (DRollback error)); try done. apply rollback_can.
Qed.
Lemma track_can p s : sane s → driver (res s) = Some (DStoreTrack p) → can_return s.
Proof.
  intros Hs Hd. destruct (peer_resources (res s)) as [r|] eqn:Hr.
  - apply (can_next None (DStoreTrack p) (DOffer p)); try done; [|apply offer_can]. unfold life_poll. simpl. by rewrite Hr.
  - apply (can_next None (DStoreTrack p) (DRollback "Peer closed while preparing offer")); try done; [|apply rollback_can].
    unfold life_poll. simpl. by rewrite Hr.
Qed.
Lemma store_can p s : sane s → driver (res s) = Some (DStorePeer p) → can_return s.
Proof.
  intros Hs Hd. apply (can_next None (DStorePeer p) (DStoreChannel p)); try done. clear s Hs Hd. intros s Hs Hd.
  apply (can_next None (DStoreChannel p) (DStoreTrack p)); try done. apply track_can.
Qed.
Lemma setup_can p s : sane s → driver (res s) = Some (DSetup p) → can_return s.
Proof.
  intros Hs Hd. pose proof (answered _ _ s Hd eq_refl) as Hq. destruct setup as [[]|error].
  - apply (can_next (Some (Ok ())) (DSetup p) (DStorePeer p)); try done. apply store_can.
  - apply (can_next (Some (Err error)) (DSetup p) (DRollback error)); try done. apply rollback_can.
Qed.
Lemma create_can s : sane s → driver (res s) = Some DCreate → can_return s.
Proof.
  intros Hs Hd. pose proof (answered _ _ s Hd eq_refl) as Hq. destruct created as [[]|error].
  - by apply (can_next (Some (Ok ())) DCreate (DSetup (length (connections (res s))))); [..|apply setup_can].
  - apply (can_next (Some (Err error)) DCreate (DRollback error)); try done. apply rollback_can.
Qed.
Lemma never_stuck s : sane s → driver (res s) ≠ None → can_return s.
Proof.
  intros Hs Hd. destruct (driver (res s)) as [d|] eqn:Hdr; [clear Hd|done].
  destruct d as [| | |p|p|p|p|p|error].
  - by apply close_can.
  - destruct (awaited_close DPrepClose s I Hs Hdr) as (l & Hl & Hd' & Hc). apply (can_after l); [done|].
    apply (can_next None DPrepClose DCreate); [by apply sane_run|done|done| |apply create_can].
    unfold life_poll, driver_poll, close_poll. by rewrite Hc.
  - by apply create_can.
  - by apply (setup_can p).
  - by apply (store_can p).
  - apply (can_next None (DStoreChannel p) (DStoreTrack p)); try done. apply track_can.
  - by apply (track_can p).
  - by apply (offer_can p).
  - by apply (rollback_can error).
Qed.

(** Every run from [s] that nobody interrupts and that returns, returns [r] and leaves
    the engine in [e] with nobody at work; and each can be continued until it returns. *)
Definition computes (r : PortResult ()) e s : Prop :=
  (∀ l r', undisturbed l s = true → returns r' l s →
     r' = r ∧ rtc (life_run l s) = e ∧ idle (life_run l s)) ∧
  (∀ l, undisturbed l s = true → driver (res (life_run l s)) ≠ None →
     ∃ l', undisturbed (l ++ l') s = true ∧ returns r (l ++ l') s).
Lemma course_computes closing e0 s :
  sane s → on_course closing e0 s → computes (outcome_of closing e0).1 (outcome_of closing e0).2 s.
Proof.
  intros Hs Hc. assert (∀ l r', undisturbed l s = true → returns r' l s →
    arrived closing e0 (life_run l s) r') as Harr.
  { intros l r' Hl (l0 & outcome & d & -> & Hd & Hr). rewrite undisturbed_app in Hl. simpl in Hl. bool_hyps.
    pose proof (call_polled closing e0 outcome d (life_run l0 s)) as Hp. unfold polled_on_course in Hp. rewrite Hr in Hp.
    rewrite life_run_app. change (life_run [LPoll outcome] ?x) with (life_step (LPoll outcome) x).
    unfold life_step. rewrite Hd. apply Hp; [by apply sane_run|done|done|by apply run_on_course]. }
  split.
  - intros l r' Hl Hr. destruct (Harr l r' Hl Hr) as [<- Hi]. done.
  - intros l Hl Hd. destruct (never_stuck (life_run l s)) as (l' & r & Hl' & Hr); [by apply sane_run|done|].
    apply returns_app in Hr. assert (undisturbed (l ++ l') s = true) as Hu by by rewrite undisturbed_app, Hl.
    exists l'. split; [done|]. by destruct (Harr _ _ Hu Hr) as [<- _].
Qed.

(** C13: nobody interrupting, [prepare_offer] and [close] are [Engine]'s, whatever the
    webrtc calls return: in every run in which the caller is polled, the close works,
    aborted tasks are dropped, media tasks end and tracks arrive in any order, the
    operation returns [Engine]'s result and leaves [Engine]'s engine; and every such run
    can go on until the operation returns. *)
Theorem uninterrupted_exact q l :
  let s := reached q l in
  let p := prepare_offer created setup offer (rtc s) in
  idle s →
  computes (void p.1) p.2 (life_step LStartPrepare s) ∧
  computes (Ok ()) (close_inner (rtc s)) (life_step LStartClose s).
Proof.
  intros s p [Hd Hc]. pose proof (sane_reached q l : sane s) as Hs. split.
  - apply (course_computes false (rtc s)); [by apply sane_step|].
    unfold on_course, at_close. simpl. rewrite Hd. simpl. by rewrite Hc.
  - apply (course_computes true (rtc s)); [by apply sane_step|].
    unfold on_course, at_close. simpl. rewrite Hd. simpl. by rewrite Hc.
Qed.
End outcomes.
End uninterrupted.

(** ** A run: the engine of a session that was open prepares again *)
Definition demo_quiet : list (@life_op vec_chan) :=
  [LPoll None; LTrack 0 Video {| mime_type := "video/H264"; clock_rate := 90000; channels := 0 |};
   LClose true; LAborted 0; LMediaEnds 0; LPoll None] ++ replicate 7 (LClose true) ++
  [LPoll None; LPoll (Some (Ok ())); LPoll None; LPoll (Some (Ok ())); LPoll None; LPoll None; LPoll None;
   LPoll (Some (Ok ()))].
Lemma uninterrupted_exact_witness :
  let s := life_step LStartPrepare (demo_state demo_live) in
  undisturbed (Ok ()) (Ok ()) (Ok "v=0") demo_quiet s = true ∧
  rtc (life_run demo_quiet s) = (prepare_offer (Ok ()) (Ok ()) (Ok "v=0") (rtc (demo_state demo_live))).2.
Proof.
  intros s. split; [vm_compute; reflexivity|].
  destruct (uninterrupted_exact (Ok ()) (Ok ()) (Ok "v=0") (bounded 8) demo_live) as [[Hx _] _];
    [split; vm_compute; reflexivity|].
  refine (proj1 (proj2 (Hx demo_quiet (Ok ()) _ _))); [vm_compute; reflexivity|].
  exists (removelast demo_quiet), (Some (Ok ())), (DOffer 1). split; [reflexivity|split; vm_compute; reflexivity].
Defined.
