(* ===== verification/Attempt.v ===== *)
(** * Attempts on the engine (src/src/connection/service.rs, engine.rs)

    [Connection] logs the calls of its attempts into the engine and takes their
    outcomes as inputs; [Lifetime] is the engine with one caller.  Here the two are
    one machine: a task that calls [prepare_offer] or [close] becomes the engine's
    caller, polls it until it returns, and cancels it when its future is dropped, timed
    out or cancelled; an answer counts as applied only while the engine reports open.
    The theorems: the caller of the engine is the holder of the session gate, an
    attempt succeeds only on a live peer, and one that has rolled back leaves the
    engine with nothing that acts. *)
From S2P Require Import Prelude Floats Json Constants Ingress Channel Utf8 Ports.
From S2P Require Import Engine EngineProps Peer Lifetime LifetimeProps Connection ConnectionProps.
#[local] Open Scope Z_scope.

(** What a task awaits of the engine: [prepare_offer] (true) or [close] (false). *)
Definition driving (p : pc) : option bool :=
  match p with
  | Running _ AtOffer => Some true
  | Running _ AtClose | RollingBack _ | DropClosing => Some false
  | _ => None
  end.
Definition driver_of (s : ConnectionService) : option bool :=
  session_gate s ≫= λ i, tasks s !! i ≫= λ t, driving (t_pc t).
(** What the engine's caller is doing. *)
Definition driver_kind (d : option driver_pc) : option bool :=
  match d with None => None | Some DClose => Some false | Some _ => Some true end.

Section attempt.
Context (method : WebRTCConnectionMethod) (ip : option string) `{SerdeJson}.
Context {C : Type → Type} `{Chan C}.

Record World := { conn : ConnectionService; life : Lifetime C }.
Implicit Types (w : World) (s : ConnectionService).

(** The calls a step made, and their effect on the engine. *)
Definition new_calls s s' : list (nat * Call) := drop (length (calls s)) (calls s').
Definition engine_call (c : Call) (x : Lifetime C) : Lifetime C :=
  match c with
  | PrepareOffer => life_step LStartPrepare x
  | Close => life_step LStartClose x
  | _ => x
  end.
Definition engine_calls (l : list (nat * Call)) (x : Lifetime C) : Lifetime C :=
  foldl (λ x c, engine_call c.2 x) x l.

(** The holder's future is dropped when its step leaves the call it awaits. *)
Definition leaves s s' : bool :=
  match driver_of s with
  | Some _ => negb (bool_decide (driver_of s' = driver_of s) && bool_decide (new_calls s s' = []))
  | None => false
  end.
Definition conn_moves (o : conn_op) w : World :=
  let s' := conn_step method ip o (conn w) in
  let x := if leaves (conn w) s' then life_step LCancel (life w) else life w in
  {| conn := s'; life := engine_calls (new_calls (conn w) s') x |}.

(** The outcomes that are the engine's to give: of the calls it is polled for, and of
    the wait of [apply_answer] for the ready state. *)
Definition allowed (o : conn_op) w : bool :=
  match o with
  | Return_ i out =>
      match t_pc <$> tasks (conn w) !! i, out with
      | Some (Running true AtAnswer), Ok _ => seqb (Engine.ready_state (rtc (life w))) "open"
      | Some p, _ => match driving p with Some _ => false | None => true end
      | None, _ => true
      end
  | Continue i =>
      match t_pc <$> tasks (conn w) !! i with
      | Some p => match driving p with Some _ => false | None => true end
      | None => true
      end
  | _ => true
  end.

(** The holder polls the engine; [sdp]: the offer, if it returns one. *)
Definition engine_returned (i : nat) (p : pc) (r : PortResult ()) (sdp : string) : conn_op :=
  match p with
  | Running _ _ => Return_ i (match r with Ok _ => Ok sdp | Err e => Err e end)
  | _ => Continue i
  end.
Definition polls_engine (p : pc) : bool :=
  match p with
  | Running true (AtOffer | AtClose) | RollingBack _ | DropClosing => true
  | _ => false
  end.
Definition engine_polled (outcome : option (PortResult ())) (sdp : string) w : World :=
  match session_gate (conn w) with
  | None => w
  | Some i =>
      match tasks (conn w) !! i, driver (res (life w)) with
      | Some t, Some d =>
          if negb (polls_engine (t_pc t)) then w else
          match life_poll outcome d (life w) with
          | (None, x) => {| conn := conn w; life := x |}
          | (Some r, x) =>
              let s' := conn_step method ip (engine_returned i (t_pc t) r sdp) (conn w) in
              {| conn := s'; life := engine_calls (new_calls (conn w) s') x |}
          end
      | _, _ => w
      end
  end.

Inductive world_op :=
  | WConn (o : conn_op)
  | WPoll (outcome : option (PortResult ())) (sdp : string)
  | WLife (o : @life_op C).         (* what the engine's own tasks, peers and users do *)
Definition world_step (o : world_op) w : World :=
  match o with
  | WConn o => if allowed o w then conn_moves o w else w
  | WPoll outcome sdp => engine_polled outcome sdp w
  | WLife o => if callers o then w else {| conn := conn w; life := life_step o (life w) |}
  end.
Definition world_run (l : list world_op) w : World := foldl (λ w o, world_step o w) w l.
Definition new_world (q : C IngressMessage) : World := {| conn := new; life := new_lifetime q |}.

(** ** The calls of a step *)
Definition call_kind (c : nat * Call) : option bool :=
  match c.2 with PrepareOffer => Some true | Close => Some false | _ => None end.

(** A step moves the holder to the one engine call it makes, if it makes one, or keeps
    it where it is and calls nothing. *)
Definition entered s s' : Prop :=
  ∃ cs, calls s' = calls s ++ cs ∧ omap call_kind cs = option_list (driver_of s').
Definition moved s s' : Prop :=
  entered s s' ∨ (calls s' = calls s ∧ driver_of s' = driver_of s).

Lemma moved_refl s : moved s s.
Proof. by right. Qed.
Lemma driver_at s i t : session_gate s = Some i → tasks s !! i = Some t → driver_of s = driving (t_pc t).
Proof. intros Hg Ht. unfold driver_of. rewrite Hg. simpl. by rewrite Ht. Qed.
Lemma driver_goto i p s :
  session_gate s = Some i → is_Some (tasks s !! i) → driver_of (goto i p s) = driving p.
Proof.
  intros Hg [t Ht]. unfold driver_of. simpl. rewrite Hg. simpl. by rewrite list_lookup_alter_eq, Ht.
Qed.
Lemma driver_free s : session_gate s = None → driver_of s = None.
Proof. intros Hg. unfold driver_of. by rewrite Hg. Qed.

(** Where a step of the holder ends: at [p], after the calls [cs]. *)
Lemma entered_goto s s' i p cs :
  session_gate s' = Some i → is_Some (tasks s' !! i) → calls s' = calls s ++ cs →
  omap call_kind cs = option_list (driving p) → entered s (goto i p s').
Proof. intros Hg Ht Hc Hk. exists cs. split; [done|]. by rewrite driver_goto. Qed.
Lemma moved_stay s s' i p :
  session_gate s = Some i → session_gate s' = Some i → is_Some (tasks s' !! i) → calls s' = calls s →
  driver_of s = driving p → moved s (goto i p s').
Proof. intros Hg Hg' Ht Hc Hk. right. split; [done|]. by rewrite driver_goto. Qed.
Lemma entered_free s s' cs :
  session_gate s' = None → calls s' = calls s ++ cs → omap call_kind cs = [] → entered s s'.
Proof. intros Hg Hc Hk. exists cs. split; [done|]. by rewrite driver_free. Qed.

Section holder.
Context (s : ConnectionService) (i : nat) (t : Task).
Context (Hg : session_gate s = Some i) (Ht : tasks s !! i = Some t).
Local Lemma here : is_Some (tasks s !! i). Proof. by exists t. Qed.
#[local] Hint Resolve here : core.

Lemma entered_rollback s' r cs :
  session_gate s' = session_gate s → tasks s' = tasks s → calls s' = calls s ++ cs →
  omap call_kind cs = [] → entered s (rollback_connection i r s').
Proof.
  intros Hg' Ht' Hc Hk. unfold rollback_connection.
  apply (entered_goto _ _ _ _ (cs ++ [(i, Close)])); simpl; [by rewrite Hg'|by rewrite Ht'| |].
  - by rewrite Hc, app_assoc.
  - by rewrite omap_app, Hk.
Qed.
Lemma entered_fail s' k e :
  session_gate s' = session_gate s → tasks s' = tasks s → calls s' = calls s → entered s (fail i k e s').
Proof.
  intros Hg' Ht' Hc. unfold fail. destruct (validated k).
  - apply (entered_goto _ _ _ _ [(i, StopAudio)]); simpl; [by rewrite Hg'|by rewrite Ht'|by rewrite Hc|done].
  - apply (entered_rollback _ _ []); [done|done|by rewrite app_nil_r|done].
Qed.
Lemma entered_inner s' k :
  session_gate s' = session_gate s → tasks s' = tasks s → calls s' = calls s →
  entered s (connect_inner method ip i k s').
Proof.
  intros Hg' Ht' Hc. unfold connect_inner. destruct (target_ip _ _); [|by apply entered_fail].
  apply (entered_goto _ _ _ _ [(i, PrepareOffer)]); simpl; [by rewrite Hg'|by rewrite Ht'|by rewrite Hc|done].
Qed.
Lemma entered_connect k : entered s (connect_in_attempt method ip i k s).
Proof.
  unfold connect_in_attempt. destruct (reconnects k); [|by apply entered_inner].
  by apply (entered_goto _ _ _ _ [(i, Close)]).
Qed.
Lemma entered_advance st out : entered s (advance method ip i (t_kind t) st out s).
Proof.
  unfold advance. destruct st, out as [x|e]; try (by apply entered_fail).
  1, 2: destruct (validated _); [by apply (entered_goto _ _ _ _ [(i, StopAudio)])|by apply entered_connect].
  - apply (entered_goto _ _ _ _ [(i, StopBackground); (i, PrepareIngress)]); simpl; try done.
    by rewrite <- app_assoc.
  - apply entered_connect.
  - by apply entered_inner.
  - by apply entered_inner.
  - destruct (target_ip _ _) as [v|]; [|by apply entered_fail].
    by apply (entered_goto _ _ _ _ [(i, ExchangeSdp v (offer_payload method x))]).
  - by apply (entered_goto _ _ _ _ [(i, ApplyAnswer x)]).
  - destruct (validated _); [by apply (entered_goto _ _ _ _ [(i, WaitOpen)])|].
    apply (entered_free _ _ []); [done|simpl; by rewrite app_nil_r|done].
  - apply (entered_free _ _ []); [done|simpl; by rewrite app_nil_r|done].
Qed.
Lemma entered_run : entered s (run i t s).
Proof.
  unfold run. destruct (t_kind t); try (destruct (negb _); [by apply entered_fail|by apply (entered_goto _ _ _ _ []); simpl; rewrite ?app_nil_r]).
  - apply (entered_rollback _ _ []); [done|done|by rewrite app_nil_r|done].
  - by apply (entered_goto _ _ _ _ [(i, StopAudio)]).
Qed.
Lemma entered_drop k : entered s (drop_attempt i k s).
Proof.
  unfold drop_attempt. destruct k; try (by apply (entered_goto _ _ _ _ [(i, StopBackground)]));
    by apply (entered_goto _ _ _ _ []); simpl; rewrite ?app_nil_r.
Qed.
End holder.

Lemma entered_acquire s i t p :
  tasks s !! i = Some t → driving p = None → entered s (set_gate (Some i) (goto i p s)).
Proof.
  intros Ht Hp. exists []. rewrite app_nil_r. split; [done|].
  unfold driver_of. simpl. by rewrite list_lookup_alter_eq, Ht; simpl; rewrite Hp.
Qed.
Lemma moved_other s i t p :
  session_gate s ≠ Some i → tasks s !! i = Some t → moved s (goto i p s).
Proof.
  intros Hg Ht. right. split; [done|].
  unfold driver_of. simpl. destruct (session_gate s) as [j|]; [|done]. simpl.
  by rewrite list_lookup_alter_ne by congruence.
Qed.
Lemma moved_spawn k s : conn_inv method ip s → moved s (begin_attempt k s).
Proof.
  intros Hi. right. unfold begin_attempt.
  assert (∀ s', session_gate s' = session_gate s → tasks s' = tasks s → calls s' = calls s →
    ∀ t, calls (set_tasks (tasks s' ++ [t]) s') = calls s ∧
         driver_of (set_tasks (tasks s' ++ [t]) s') = driver_of s) as Hs.
  { intros s' Hg Ht Hc t. split; [done|]. unfold driver_of. simpl. rewrite Hg, Ht.
    destruct (session_gate s) as [i|] eqn:Hgs; [|done]. simpl.
    destruct (ci_holder _ _ s Hi i Hgs) as [ti Hti]. by rewrite lookup_app_l by by eapply lookup_lt_Some. }
  destruct (disconnecting k).
  - exact (Hs (request_disconnect s) eq_refl eq_refl eq_refl _).
  - exact (Hs s eq_refl eq_refl eq_refl _).
Qed.

Lemma task_step_moved o i t s :
  conn_inv method ip s → tasks s !! i = Some t → moved s (task_step method ip o i t s).
Proof.
  intros Hi Ht. pose proof (moved_refl s) as Hrefl. assert (is_Some (tasks s !! i)) as Hex by by exists t.
  assert (holds_gate (t_pc t) = true → session_gate s = Some i) as Hgate by apply (ci_gate _ _ s Hi i t Ht).
  unfold task_step. destruct (t_pc t) as [| | |polled st|r|r|r| | | | |] eqn:Hpc; try specialize (Hgate eq_refl).
  - destruct o; try done.
    + destruct (session_gate s); [done|]. left. eapply entered_acquire; [done|by destruct (retries _)].
    + eapply moved_other; [|done]. rewrite <- (ci_gate _ _ s Hi i t Ht), Hpc. done.
  - destruct o; try done. left. destruct (intentional_disconnect s).
    + apply (entered_free _ _ []); [done|simpl; by rewrite app_nil_r|done].
    + by apply (entered_goto _ _ _ _ []); simpl; rewrite ?app_nil_r.
  - destruct o; try done. left. by apply entered_run.
  - assert (∀ b, moved s (goto i (Running b st) s)) as Hgo.
    { intros b. apply moved_stay; try done. rewrite (driver_at s i t) by done. rewrite Hpc. by destruct st. }
    destruct o, polled; try done.
    + destruct (negb _); [left; by eapply entered_fail|done].
    + destruct st; done.
    + left. by apply entered_advance.
    + destruct (timed st); [left; by eapply entered_fail|done].
    + destruct st; try done; left; by apply (entered_drop s i t).
  - destruct o; try done; left; [|by apply (entered_drop s i t)].
    by apply (entered_rollback s i t Hgate Ht _ _ [(i, StopBackground)]).
  - destruct o; try done; left; [|by apply (entered_drop s i t)].
    apply (entered_free _ _ []); [done|simpl; by rewrite app_nil_r|done].
  - by destruct o.
  - destruct o; try done. left. by apply (entered_goto _ _ _ _ [(i, StopAudio)]).
  - destruct o; try done. left. by apply (entered_goto _ _ _ _ []); simpl; rewrite ?app_nil_r.
  - destruct o; try done. left. by apply (entered_goto _ _ _ _ [(i, Close)]).
  - destruct o; try done. left. apply (entered_free _ _ []); [done|simpl; by rewrite app_nil_r|done].
  - by destruct o.
Qed.
Lemma conn_step_moved o s : conn_inv method ip s → moved s (conn_step method ip o s).
Proof.
  intros Hi. destruct o as [k|i|i|i|i|i out|i d|i]; unfold conn_step; [by apply moved_spawn|..];
    (destruct (tasks s !! i) as [t|] eqn:Ht; [by apply task_step_moved|apply moved_refl]).
Qed.

(** ** The caller of the engine *)
Lemma engine_calls_kinds (l : list (nat * Call)) (x : Lifetime C) :
  omap call_kind l = [] → engine_calls l x = x.
Proof.
  revert x. induction l as [|[i c] l IH]; intros x; [done|]. unfold call_kind. simpl.
  destruct c; simpl; try done; apply IH.
Qed.
Lemma engine_calls_one (l : list (nat * Call)) (x : Lifetime C) (k : bool) :
  omap call_kind l = [k] →
  engine_calls l x = (if k then life_step LStartPrepare x else life_step LStartClose x).
Proof.
  revert x. induction l as [|[i c] l IH]; intros x; [done|]. unfold call_kind. simpl.
  destruct c; simpl; try (apply IH); intros [= <- Hl]; by apply engine_calls_kinds.
Qed.
Lemma engine_calls_driver (l : list (nat * Call)) (x : Lifetime C) (d : option bool) :
  driver (res x) = None → omap call_kind l = option_list d →
  driver_kind (driver (res (engine_calls l x))) = d ∧ rtc (engine_calls l x) = rtc x.
Proof.
  intros Hx Hl. destruct d as [k|].
  - rewrite (engine_calls_one l x k Hl). destruct k; unfold life_step; simpl; by rewrite Hx.
  - rewrite (engine_calls_kinds l x Hl), Hx. done.
Qed.

Lemma polls_driving p : polls_engine p = true → is_Some (driving p).
Proof. destruct p as [| | |[] []| | | | | | | |]; simpl; eauto; done. Qed.
(** The engine's answer moves the holder on. *)
Lemma returned_entered i t r sdp s :
  session_gate s = Some i → tasks s !! i = Some t → polls_engine (t_pc t) = true →
  entered s (conn_step method ip (engine_returned i (t_pc t) r sdp) s).
Proof.
  intros Hg Ht Hp. unfold engine_returned.
  assert (entered s (finish i (Ok ()) s) ∧ ∀ x, entered s (finish i x s)) as [_ Hfin].
  { split; intros; by apply (entered_free _ _ []); simpl; rewrite ?app_nil_r. }
  destruct (t_pc t) as [| | |[] st|r'|r'|r'| | | | |] eqn:Hpc; try done; unfold conn_step; rewrite Ht;
    unfold task_step; rewrite Hpc.
  - by apply entered_advance.
  - apply Hfin.
  - by apply (entered_free _ _ []); simpl; rewrite ?app_nil_r.
Qed.

(** A poll that does not return leaves the caller at the same operation. *)
Lemma poll_kind outcome d r :
  driver r = Some d →
  driver_kind (driver (driver_poll outcome d r).2) =
  match (driver_poll outcome d r).1 with Some _ => None | None => driver_kind (Some d) end.
Proof.
  intros Hd. unfold driver_poll, close_poll.
  destruct d; try (by destruct (close_task r) as [[]|]); try done;
    try (destruct outcome as [[[]|]|]; simpl; by rewrite ?Hd).
  simpl. by destruct (peer_resources r).
Qed.
Lemma kind_none d : driver_kind d = None ↔ d = None.
Proof. split; [|by intros ->]. by destruct d as [[]|]. Qed.

Record world_inv w : Prop := {
  wi_conn : conn_inv method ip (conn w);
  wi_life : life_inv (life w);
  wi_driver : driver_kind (driver (res (life w))) = driver_of (conn w);
}.

Lemma engine_calls_inv (l : list (nat * Call)) (x : Lifetime C) : life_inv x → life_inv (engine_calls l x).
Proof.
  revert x. induction l as [|[i c] l IH]; intros x Hx; [done|]. apply IH.
  unfold engine_call. destruct c; try done; by apply life_step_inv.
Qed.
Lemma new_calls_app s s' cs : calls s' = calls s ++ cs → new_calls s s' = cs.
Proof. intros Hc. unfold new_calls. by rewrite Hc, drop_app_length. Qed.

Lemma conn_moves_inv o w : world_inv w → world_inv (conn_moves o w).
Proof.
  intros [Hc Hl Hd]. unfold conn_moves. set (s' := conn_step method ip o (conn w)).
  assert (conn_inv method ip s') as Hc' by by apply conn_step_inv.
  set (x := if leaves (conn w) s' then _ else _).
  assert (life_inv x) as Hx by (unfold x; destruct (leaves _ _); [by apply (life_step_inv LCancel)|done]).
  split; simpl; [done|by apply engine_calls_inv|].
  destruct (conn_step_moved o (conn w) Hc) as [(cs & Hcs & Hk)|[Hcs Hk]]; fold s' in Hcs, Hk.
  - assert (driver (res x) = None) as Hnone.
    { unfold x, leaves. rewrite (new_calls_app _ _ _ Hcs). destruct (driver_of (conn w)) as [k|] eqn:Hdo.
      - destruct (bool_decide_reflect (driver_of s' = Some k)) as [Hs|Hs]; [|done].
        destruct cs as [|c cs]; [by rewrite Hs in Hk|done].
      - by apply kind_none. }
    rewrite (new_calls_app _ _ _ Hcs). by apply engine_calls_driver.
  - rewrite (new_calls_app _ _ []) by by rewrite app_nil_r. simpl. rewrite Hk.
    unfold x, leaves. rewrite (new_calls_app _ _ []) by by rewrite app_nil_r. rewrite Hk.
    destruct (driver_of (conn w)); rewrite ?bool_decide_true by done; done.
Qed.
Lemma engine_polled_inv outcome sdp w : world_inv w → world_inv (engine_polled outcome sdp w).
Proof.
  intros Hw. pose proof Hw as [Hc Hl Hd]. unfold engine_polled.
  destruct (session_gate (conn w)) as [i|] eqn:Hg; [|done].
  destruct (tasks (conn w) !! i) as [t|] eqn:Ht; [|done].
  destruct (driver (res (life w))) as [d|] eqn:Hdr; [|done].
  destruct (polls_engine (t_pc t)) eqn:Hp; [|done]. cbn [negb].
  pose proof (life_poll_inv outcome d (life w) Hdr Hl) as Hl'.
  pose proof (life_poll_res outcome d (life w) Hdr) as Hres.
  pose proof (poll_kind outcome d (res (life w)) Hdr) as Hk.
  assert ((life_poll outcome d (life w)).1 = (driver_poll outcome d (res (life w))).1) as Hout by done.
  destruct (life_poll outcome d (life w)) as [out x]. simpl in *.
  rewrite Hdr in Hres. rewrite <- Hres, <- Hout in Hk. destruct out as [r|].
  - destruct (returned_entered i t r sdp (conn w) Hg Ht Hp) as (cs & Hcs & Hkinds).
    split; simpl; [by apply conn_step_inv|by apply engine_calls_inv|].
    rewrite (new_calls_app _ _ _ Hcs). apply engine_calls_driver; [by apply kind_none|done].
  - split; simpl; [done|done|]. rewrite Hk. by rewrite <- Hd.
Qed.
Lemma world_step_inv o w : world_inv w → world_inv (world_step o w).
Proof.
  intros Hw. destruct o as [o|outcome sdp|o]; simpl.
  - destruct (allowed o w); [by apply conn_moves_inv|done].
  - by apply engine_polled_inv.
  - destruct (callers o) eqn:Ho; [done|]. destruct Hw as [Hc Hl Hd].
    split; simpl; [done|by apply life_step_inv|by rewrite life_driver].
Qed.
Lemma world_run_inv l q : world_inv (world_run l (new_world q)).
Proof.
  assert (world_inv (new_world q)) as Hw.
  { split; [apply new_inv|apply new_lifetime_inv|done]. }
  revert Hw. generalize (new_world q). induction l as [|o l IH]; intros w Hw; [done|].
  by apply IH, world_step_inv.
Qed.

(** ** Theorems *)

(** C14: the engine has a caller exactly while the holder of the session gate awaits
    [prepare_offer] or [close], and it is that call: whatever is dropped, timed out or
    cancelled, the engine's operations never overlap, none is skipped, and no task
    without the gate ever waits for the engine. *)
Theorem caller_is_holder l q :
  let w := world_run l (new_world q) in
  driver_kind (driver (res (life w))) = driver_of (conn w) ∧
  ∀ i t, tasks (conn w) !! i = Some t → is_Some (driving (t_pc t)) → session_gate (conn w) = Some i.
Proof.
  intros w. destruct (world_run_inv l q) as [Hc _ Hd]. split; [exact Hd|].
  intros i t Ht [k Hk]. apply (ci_gate _ _ _ Hc i t Ht).
  by destruct (t_pc t) as [| | |[] []| | | | | | | |].
Qed.

(** A step of another task, or one that is not the end of the call, does not finish a
    task that rolls back. *)
Lemma rolling_back_stays o s i t r t' :
  conn_inv method ip s → tasks s !! i = Some t → t_pc t = RollingBack r → o ≠ Continue i →
  tasks (conn_step method ip o s) !! i = Some t' → ∀ r', t_pc t' ≠ Done r'.
Proof.
  intros Hi Ht Hpc Ho Ht' r' Hd.
  assert (∀ j tj o', tasks s !! j = Some tj → j ≠ i →
    tasks (task_step method ip o' j tj s) !! i = Some t' → False) as Hother.
  { intros j tj o' Hj Hne Hti.
    destruct (task_step_move method ip o' j tj s Hi Hj) as [Hs|(b & b' & g & p & cs & Hs & _)];
      rewrite Hs in Hti; [congruence|].
    destruct (move_lookup _ _ _ _ _ _ _ _ _ _ Hj Hti) as [[-> _]|[_ Hti']]; [done|congruence]. }
  assert (∀ o', (∀ j, o' ≠ Continue j) → tasks (task_step method ip o' i t s) !! i = Some t' → False) as Hmine.
  { intros o' Ho' Hti. unfold task_step in Hti. rewrite Hpc in Hti.
    destruct o' as [| |j| | | | |]; try congruence;
      unfold drop_attempt in Hti; destruct (t_kind t); simpl in Hti;
      rewrite list_lookup_alter_eq, Ht in Hti; by simplify_eq/=. }
  destruct o as [k|j|j|j|j|j out|j d|j]; unfold conn_step in Ht'.
  { unfold begin_attempt in Ht'. destruct (disconnecting k); simpl in Ht';
      rewrite lookup_app_l in Ht' by (by eapply lookup_lt_Some); congruence. }
  all: destruct (tasks s !! j) as [tj|] eqn:Hj; [|congruence].
  all: assert (j ≠ i ∨ j = i) as [Hne|He] by lia; [by eapply Hother|].
  all: subst j; rewrite Ht in Hj; injection Hj as <-; eapply Hmine; [|exact Ht']; intros j'; congruence.
Qed.

(** An applied answer changes nothing of the engine. *)
Lemma answered_world w i t answer :
  tasks (conn w) !! i = Some t → session_gate (conn w) = Some i → t_pc t = Running true AtAnswer →
  let w' := conn_moves (Return_ i (Ok answer)) w in
  is_connected (conn w') = true ∧ life w' = life w.
Proof.
  intros Ht Hg Hpc. unfold conn_moves. set (s' := conn_step _ _ _ _).
  assert (is_connected s' = true ∧ omap call_kind (new_calls (conn w) s') = []) as [Hconn Hk].
  { unfold s', conn_step. rewrite Ht. unfold task_step. rewrite Hpc. unfold advance.
    destruct (validated (t_kind t)); (split; [done|]).
    - by rewrite (new_calls_app _ _ [(i, WaitOpen)]).
    - by rewrite (new_calls_app _ _ []) by (simpl; by rewrite app_nil_r). }
  assert (leaves (conn w) s' = false) as Hleave.
  { unfold leaves. by rewrite (driver_at _ _ _ Hg Ht), Hpc. }
  simpl. by rewrite Hleave, engine_calls_kinds.
Qed.
(** The poll that ends a rollback. *)
Lemma rolled_back_world outcome sdp w i t r t' r' :
  tasks (conn w) !! i = Some t → session_gate (conn w) = Some i → t_pc t = RollingBack r →
  let w' := engine_polled outcome sdp w in
  tasks (conn w') !! i = Some t' → t_pc t' = Done r' →
  r' = r ∧ ∃ d x, driver (res (life w)) = Some d ∧ life_poll outcome d (life w) = (Some x, life w').
Proof.
  intros Ht Hg Hpc. unfold engine_polled. rewrite Hg, Ht.
  destruct (driver (res (life w))) as [d|] eqn:Hd; [|cbv zeta; congruence].
  rewrite Hpc. cbn [polls_engine negb].
  destruct (life_poll outcome d (life w)) as [[x|] y] eqn:Hpoll; simpl; [|congruence].
  unfold engine_returned. rewrite Ht. unfold task_step. rewrite Hpc. simpl.
  rewrite list_lookup_alter_eq, Ht. simpl. intros [= <-] [= ->]. split; [done|]. exists d, x.
  by rewrite (new_calls_app _ _ []) by (simpl; by rewrite app_nil_r).
Qed.

(** C15: the engine's state is what an operation's outcome says: when an attempt learns
    that its answer was applied, the service becomes connected and the engine has a
    live peer of the current generation, the only open one; when an operation returns
    from its rollback, nothing the engine ever created is left and nothing can act on
    it again. *)
Theorem outcomes_truthful l q i t :
  let w := world_run l (new_world q) in
  tasks (conn w) !! i = Some t →
  (∀ answer, t_pc t = Running true AtAnswer →
     let w' := world_step (WConn (Return_ i (Ok answer))) w in
     w' ≠ w →
     is_connected (conn w') = true ∧
     ∃ j p, peers (rtc (life w')) !! j = Some p ∧ live (res (life w')) j ∧
       p_generation p = ingress_generation (rtc (life w')) ∧
       ∀ j' c, connections (res (life w')) !! j' = Some c → pc_open c = true → j' = j) ∧
  (∀ r o t' r', t_pc t = RollingBack r →
     let w' := world_step o w in
     tasks (conn w') !! i = Some t' → t_pc t' = Done r' →
     r' = r ∧ clean (res (life w')) ∧ Engine.ready_state (rtc (life w')) = "closed" ∧
     ∀ j o', peer_op j o' → eng_step o' (rtc (life w')) = rtc (life w')).
Proof.
  intros w Ht. pose proof (world_run_inv l q) as Hw. fold w in Hw. pose proof Hw as [Hc Hl Hd].
  assert (holds_gate (t_pc t) = true → session_gate (conn w) = Some i) as Hgate
    by apply (ci_gate _ _ _ Hc i t Ht).
  split.
  - intros answer Hpc w' Hne. rewrite Hpc in Hgate.
    destruct (allowed (Return_ i (Ok answer)) w) eqn:Ha.
    2:{ destruct Hne. unfold w', world_step. by rewrite Ha. }
    destruct (answered_world w i t answer Ht (Hgate eq_refl) Hpc) as [Hconn Hlife].
    assert (w' = conn_moves (Return_ i (Ok answer)) w) as -> by (unfold w', world_step; by rewrite Ha).
    split; [done|]. rewrite Hlife. unfold allowed in Ha. rewrite Ht in Ha. simpl in Ha. rewrite Hpc in Ha.
    assert (current_ready_state (rtc (life w)) = Open) as Ho.
    { unfold Engine.ready_state in Ha. by destruct (current_ready_state (rtc (life w))). }
    destruct (open_live _ Hl Ho) as (j & p & Hp & _ & Hg & Hlv & Hst). exists j, p.
    split_and!; [done..|]. intros j' c Hj' Hop. by eapply open_unique; [apply (li_res _ Hl)|..].
  - intros r o t' r' Hpc w' Ht' Hdone. rewrite Hpc in Hgate. specialize (Hgate eq_refl).
    destruct o as [o|outcome sdp|o].
    + exfalso. unfold w', world_step in Ht'. destruct (allowed o w) eqn:Ha; [|congruence].
      eapply (rolling_back_stays o); [done|done|done| |exact Ht'|done].
      intros ->. unfold allowed in Ha. by rewrite Ht in Ha; simpl in Ha; rewrite Hpc in Ha.
    + destruct (rolled_back_world outcome sdp w i t r t' r' Ht Hgate Hpc Ht' Hdone) as (-> & d & x & Hdr & Hpoll).
      split; [done|]. rewrite (driver_at _ _ _ Hgate Ht), Hpc, Hdr in Hd.
      assert (∀ p, d ≠ DOffer p) as Hno by (intros p ->; done).
      pose proof (λ j o', closed_state d outcome (life w) j o' "" Hl Hdr Hno) as Hcl.
      rewrite Hpoll in Hcl. simpl in Hcl. change (engine_polled outcome sdp w) with w' in Hcl.
      destruct (Hcl 0%nat EClose) as (H1 & H2 & _ & _); [done|]. split_and!; [done|done|].
      intros j o' Ho'. by destruct (Hcl j o') as (_ & _ & _ & H4); [done|apply H4].
    + exfalso. unfold w', world_step in Ht'. destruct (callers o); simpl in Ht'; congruence.
Qed.
End attempt.
Arguments World C : clear implicits.

(** ** An execution: an attempt connects, a disconnect rolls it back *)
#[local] Existing Instance demo_json.
Definition demo_ok : @world_op vec_chan := WPoll (Some (Ok ())) "sdp".
Definition demo_close : list (@world_op vec_chan) := WPoll None "" :: replicate 5 (WLife (LClose true)).
Definition demo_answering : list (@world_op vec_chan) :=
  [WConn (Spawn (KService false)); WConn (Acquire 0); WConn (Continue 0); WConn (Poll 0); WConn (Return_ 0 (Ok ""))] ++
  demo_close ++ replicate 7 demo_ok ++
  [WConn (Return_ 0 (Ok "answer")); WLife (LEngine (EChannel 0 ChannelOpened))].
Definition demo_rolling : list (@world_op vec_chan) :=
  demo_answering ++ [WConn (Return_ 0 (Ok "")); WConn (Spawn KDisconnect); WConn (Acquire 1); WConn (Continue 1)] ++
  demo_close ++ [WLife (LAborted 0)] ++ replicate 7 (WLife (LClose true)).
Definition demo_world (l : list (@world_op vec_chan)) : World vec_chan :=
  world_run LocalAP None l (new_world (bounded 8)).

Example demo_outcomes :
  is_connected (conn (demo_world (demo_answering ++ [WConn (Return_ 0 (Ok ""))]))) = true ∧
  (t_pc <$> tasks (conn (demo_world (demo_rolling ++ [WPoll None ""])))) = [Done (Ok ()); Done (Ok ())] ∧
  (pc_open <$> connections (res (life (demo_world (demo_rolling ++ [WPoll None ""]))))) = [false].
Proof. by vm_compute. Qed.

Lemma outcomes_truthful_witness :
  is_connected (conn (world_step LocalAP None (WConn (Return_ 0 (Ok ""))) (demo_world demo_answering))) = true ∧
  clean (res (life (world_step LocalAP None (WPoll None "") (demo_world demo_rolling)))).
Proof.
  split.
  - refine (proj1 (proj1 (outcomes_truthful LocalAP None demo_answering (bounded 8) 0
      {| t_kind := KService false; t_seen := 0; t_pc := Running true AtAnswer |} _) "" eq_refl _));
      [vm_compute; reflexivity|].
    intros Hw. apply (f_equal (λ w, is_connected (conn w))) in Hw. vm_compute in Hw. discriminate Hw.
  - refine (proj1 (proj2 (proj2 (outcomes_truthful LocalAP None demo_rolling (bounded 8) 1
      {| t_kind := KDisconnect; t_seen := 1; t_pc := RollingBack (Ok ()) |} _)
      (Ok ()) (WPoll None "") {| t_kind := KDisconnect; t_seen := 1; t_pc := Done (Ok ()) |} (Ok ()) eq_refl _ eq_refl)));
      vm_compute; reflexivity.
Defined.
