(* ===== verification/Ownership.v ===== *)
(** * Who owns a session (src/src/connection/session.rs, src/src/interface/bridges/)

    Python holds a [UnitreeSession] through the connection object, the bridges its
    getters make and the futures its methods return; each keeps an [Arc] of it.  Here
    these references run on top of [Attempt]: a future's first poll calls the session,
    later polls follow the operation it started, the retries of [auto_reconnect]
    included; it may be cancelled between two polls; and when the last reference goes,
    [UnitreeSession::drop] stops the background tasks and spawns one disconnect.  The
    theorems: no operation outlives the session, and once the session is gone and its
    tasks have ended nothing that was ever created is left. *)
From S2P Require Import Prelude Floats Json Constants Ingress Channel Utf8 Ports.
From S2P Require Import Engine EngineProps Peer Lifetime LifetimeProps Connection ConnectionProps Attempt.
#[local] Open Scope Z_scope.

(** ** Python's references *)
Inductive py_object := OConnection | OVideo | OAudio | ODataChannel | OPubSub.
#[export] Instance py_object_eq_dec : EqDecision py_object.
Proof. solve_decision. Defined.
(** The getters that make another object with a reference of its own. *)
Definition getters (o : py_object) : list py_object :=
  match o with
  | OConnection => [OVideo; OAudio; ODataChannel]
  | ODataChannel => [OPubSub]
  | _ => []
  end.

(** The methods that return a future: [MAudio] for [play_from_file], [play_from_url]
    and [stop], [MRequest] for those under [with_session_owner]. *)
Inductive py_method := MConnect | MReconnect | MDisconnect | MAutoReconnect (max_retries : Z) | MAudio | MRequest.
Definition methods (o : py_object) (m : py_method) : bool :=
  match o, m with
  | OConnection, (MConnect | MReconnect | MDisconnect | MAutoReconnect _) => true
  | OAudio, MAudio => true
  | (ODataChannel | OPubSub), MRequest => true
  | _, _ => false
  end.

(** A future: not polled yet; awaiting the operation that is a task of the service; in
    the loop of [auto_reconnect], between two attempts and in one; awaiting something
    that is no connection attempt; returned or dropped. *)
Inductive future :=
  | FNew (m : py_method)
  | FAwait (i : nat)
  | FLoop (attempt max_retries : Z)
  | FRetry (attempt max_retries : Z) (i : nat)
  | FOther
  | FEnded (result : option bool).
Definition live_future (f : future) : bool := match f with FEnded _ => false | _ => true end.
(** The operation a future awaits. *)
Definition awaited (f : future) : option nat :=
  match f with FAwait i | FRetry _ _ i => Some i | _ => None end.

Section ownership.
Context (method : WebRTCConnectionMethod) (ip : option string) `{SerdeJson}.
Context {C : Type → Type} `{Chan C}.

(** [cleanup]: the task [UnitreeSession::drop] spawned, and its operation once it was
    polled; [drops]: how often it ran. *)
Record Owner := {
  world : World C;
  objects : list py_object;
  futures : list future;
  cleanup_runtime : bool;
  drops : nat;
  cleanup : option (option nat);
}.
Implicit Types (o : Owner) (w : World C).

Definition with_world w o : Owner :=
  {| world := w; objects := objects o; futures := futures o; cleanup_runtime := cleanup_runtime o;
     drops := drops o; cleanup := cleanup o |}.
Definition with_objects l o : Owner :=
  {| world := world o; objects := l; futures := futures o; cleanup_runtime := cleanup_runtime o;
     drops := drops o; cleanup := cleanup o |}.
Definition with_futures l o : Owner :=
  {| world := world o; objects := objects o; futures := l; cleanup_runtime := cleanup_runtime o;
     drops := drops o; cleanup := cleanup o |}.
Definition with_cleanup (c : option (option nat)) o : Owner :=
  {| world := world o; objects := objects o; futures := futures o; cleanup_runtime := cleanup_runtime o;
     drops := drops o; cleanup := c |}.

(** A session and its connection object. *)
Definition new_owner (q : C IngressMessage) : Owner :=
  {| world := new_world q; objects := [OConnection]; futures := []; cleanup_runtime := false;
     drops := 0; cleanup := None |}.

(** The [Arc]'s strong count is not zero. *)
Definition referenced o : bool :=
  match objects o with [] => existsb live_future (futures o) | _ => true end.

(** ** The session *)
Definition remember_runtime o : Owner :=
  {| world := world o; objects := objects o; futures := futures o; cleanup_runtime := true;
     drops := drops o; cleanup := cleanup o |}.
Definition session_operations o : list Task := tasks (conn (world o)).
(** An operation is called: its task is the next one. *)
Definition call_operation (k : kind) o : nat * Owner :=
  (length (session_operations o), with_world (world_step method ip (WConn (Spawn k)) (world o)) o).
Definition connect o := call_operation (KSession Connect) (remember_runtime o).
Definition reconnect o := call_operation (KSession Reconnect) (remember_runtime o).
Definition disconnect o := call_operation KDisconnectSession (remember_runtime o).

(** [UnitreeSession::drop]; its [stop_background_tasks] is the service's own. *)
Definition drop_session o : Owner :=
  {| world := world o; objects := objects o; futures := futures o; cleanup_runtime := false;
     drops := S (drops o); cleanup := if cleanup_runtime o then Some None else None |}.
(** A reference is dropped. *)
Definition release o : Owner := if referenced o then o else drop_session o.

(** ** Futures *)
Definition set_future (n : nat) (f : future) o : Owner := with_futures (<[n := f]> (futures o)) o.
Definition end_future (n : nat) (r : option bool) o : Owner := release (set_future n (FEnded r) o).

(** An iteration of the loop of [UnitreeSession::auto_reconnect]. *)
Definition auto_reconnect (n : nat) (attempt max_retries : Z) o : Owner :=
  if attempt <? max_retries then
    if intentional_disconnect (conn (world o)) then end_future n (Some false) o else
    let '(i, o) := call_operation (KSession Retry) o in
    set_future n (FRetry attempt max_retries i) o
  else end_future n (Some false) o.
(** The first poll. *)
Definition first_poll (n : nat) (m : py_method) o : Owner :=
  match m with
  | MConnect => let '(i, o) := connect o in set_future n (FAwait i) o
  | MReconnect => let '(i, o) := reconnect o in set_future n (FAwait i) o
  | MDisconnect => let '(i, o) := disconnect o in set_future n (FAwait i) o
  | MAutoReconnect max_retries => auto_reconnect n 0 max_retries (remember_runtime o)
  | MAudio => set_future n FOther (remember_runtime o)
  | MRequest => set_future n FOther o
  end.
Definition poll_future (n : nat) (f : future) o : Owner :=
  match f with
  | FNew m => first_poll n m o
  | FAwait i =>
      match t_pc <$> session_operations o !! i with
      | Some (Done r) => end_future n (Some (is_ok r)) o
      | _ => o
      end
  | FLoop attempt max_retries => auto_reconnect n attempt max_retries o
  | FRetry attempt max_retries i =>
      match t_pc <$> session_operations o !! i with
      | Some (Done (Ok _)) => end_future n (Some true) o
      | Some (Done (Err _)) => set_future n (FLoop (attempt + 1) max_retries) o
      | _ => o
      end
  | FOther => end_future n None o
  | FEnded _ => o
  end.

(** Python cancels a future, which drops it: what it awaits is dropped first. *)
Definition cancellable (p : pc) : bool :=
  match p with
  | Waiting | Stopping _ | RollingBack _ | Done _ => true
  | Running false st => match st with AtStart => false | _ => true end
  | _ => false
  end.
Definition cancel_future (n : nat) (f : future) o : Owner :=
  match awaited f with
  | Some i =>
      match t_pc <$> session_operations o !! i with
      | Some p =>
          if cancellable p
          then end_future n None (with_world (world_step method ip (WConn (DropFuture i)) (world o)) o)
          else o
      | None => o
      end
  | None => if live_future f then end_future n None o else o
  end.

(** ** Everything that happens *)
Inductive own_op :=
  | OGet (parent : nat) (child : py_object)   (* a getter *)
  | ORelease (k : nat)                        (* an object is collected *)
  | OCall (k : nat) (m : py_method)           (* a method *)
  | OPoll (n : nat) | OCancel (n : nat)
  | OCleanup                                  (* the clean-up task is first polled *)
  | OWorld (op : @world_op C).
(** Operations are called and dropped by their futures. *)
Definition owned_op (op : @world_op C) : bool :=
  match op with WConn (Spawn _) | WConn (DropFuture _) => true | _ => false end.
Definition own_step (op : own_op) o : Owner :=
  match op with
  | OGet parent child =>
      match objects o !! parent with
      | Some p => if decide (child ∈ getters p) then with_objects (objects o ++ [child]) o else o
      | None => o
      end
  | ORelease k =>
      match objects o !! k with
      | Some _ => release (with_objects (delete k (objects o)) o)
      | None => o
      end
  | OCall k m =>
      match objects o !! k with
      | Some p => if methods p m then with_futures (futures o ++ [FNew m]) o else o
      | None => o
      end
  | OPoll n => match futures o !! n with Some f => poll_future n f o | None => o end
  | OCancel n => match futures o !! n with Some f => cancel_future n f o | None => o end
  | OCleanup =>
      match cleanup o with
      | Some None =>
          let '(i, o) := call_operation KDisconnectSession o in with_cleanup (Some (Some i)) o
      | _ => o
      end
  | OWorld op => if owned_op op then o else with_world (world_step method ip op (world o)) o
  end.
Definition own_run (l : list own_op) o : Owner := foldl (λ o op, own_step op o) o l.
Definition owned (q : C IngressMessage) (l : list own_op) : Owner := own_run l (new_owner q).

(** ** What a step of the service keeps *)
Definition active (p : pc) : bool :=
  match p with Waiting | Holding | Ready | Running _ _ | Stopping _ | RollingBack _ => true | _ => false end.
Definition internal (op : conn_op) : bool :=
  match op with Spawn _ | DropFuture _ => false | _ => true end.

(** The clean-up task never fails and is never dropped. *)
Definition closing_down (t : Task) : Prop :=
  t_kind t = KDisconnectSession ∧
  match t_pc t with
  | Waiting | Ready | Stopping (Ok _) | RollingBack (Ok _) | Done (Ok _) => True
  | _ => False
  end.

(** Task [t] becomes [t']. *)
Record follows (t t' : Task) : Prop := {
  fo_kind : t_kind t' = t_kind t;
  fo_seen : t_seen t' = t_seen t;
  fo_active : active (t_pc t') = true → active (t_pc t) = true;
}.
Lemma follows_refl t : follows t t.
Proof. by split. Qed.


Lemma task_lookup_goto i p s t : tasks s !! i = Some t → tasks (goto i p s) !! i = Some (with_pc p t).
Proof. intros Ht. simpl. by rewrite list_lookup_alter_eq, Ht. Qed.
Lemma inactive_step op i t s t' :
  tasks s !! i = Some t → active (t_pc t) = false →
  tasks (task_step method ip op i t s) !! i = Some t' → active (t_pc t') = false.
Proof.
  intros Ht Ha. unfold task_step.
  destruct (t_pc t) as [| | |polled st|r|r|r| | | | |] eqn:Hpc; try done;
    destruct op; simpl; rewrite ?list_lookup_alter_eq, ?Ht; simpl; intros [= <-]; simpl; by rewrite ?Hpc.
Qed.
Lemma task_step_follows op i t s j t' :
  conn_inv method ip s → tasks s !! i = Some t →
  tasks (task_step method ip op i t s) !! j = Some t' →
  ∃ t0, tasks s !! j = Some t0 ∧ follows t0 t'.
Proof.
  intros Hi Ht Hj. pose proof (inactive_step op i t s) as Hin.
  destruct (task_step_move method ip op i t s Hi Ht) as [Hs|(b & b' & g & p & cs & Hs & _)].
  { rewrite Hs in Hj. exists t'. split; [done|apply follows_refl]. }
  rewrite Hs in Hj. destruct (move_lookup _ _ _ _ _ _ _ _ _ _ Ht Hj) as [[-> ->]|[Hne Hj']].
  - exists t. split; [done|]. split; [done|done|]. simpl. intros Hp.
    destruct (active (t_pc t)) eqn:Ha; [done|]. rewrite Hs in Hin.
    specialize (Hin (with_pc p t) Ht eq_refl Hj). simpl in Hin. congruence.
  - exists t'. split; [done|apply follows_refl].
Qed.
Lemma conn_step_follows op s j t' :
  conn_inv method ip s → tasks (conn_step method ip op s) !! j = Some t' →
  (∃ t, tasks s !! j = Some t ∧ follows t t') ∨
  (∃ k, op = Spawn k ∧ j = length (tasks s) ∧ t_kind t' = k ∧ t_pc t' = Waiting ∧
    t_seen t' = if disconnecting k then version s + 1 else version s).
Proof.
  intros Hi Hj. destruct op as [k|i|i|i|i|i out|i d|i]; unfold conn_step in Hj.
  { unfold begin_attempt in Hj.
    assert (tasks (if disconnecting k then request_disconnect s else s) = tasks s) as Ht
      by by destruct (disconnecting k).
    simpl in Hj. rewrite Ht in Hj. apply lookup_app_Some in Hj as [Hj|[Hge Hj]].
    - left. exists t'. split; [done|apply follows_refl].
    - right. exists k. apply list_lookup_singleton_Some in Hj as [Heq <-].
      split_and!; try done; [lia|]. by destruct (disconnecting k). }
  all: left; destruct (tasks s !! i) as [t|] eqn:Ht;
    [by eapply task_step_follows|exists t'; split; [done|apply follows_refl]].
Qed.

(** What the clean-up task does on its own. *)
Lemma closing_step op i t s t' :
  tasks s !! i = Some t → closing_down t → op ≠ DropFuture i →
  tasks (conn_step method ip op s) !! i = Some t' → conn_inv method ip s → closing_down t'.
Proof.
  intros Ht [Hk Hpc] Hop Ht' Hi.
  assert (∀ p, with_pc p t = t' → match p with
    | Waiting | Ready | Stopping (Ok _) | RollingBack (Ok _) | Done (Ok _) => True
    | _ => False end → closing_down t') as Hgo by (intros p <- Hp; by split).
  assert (tasks (conn_step method ip op s) !! i = Some t → closing_down t') as Hsame.
  { intros Hs. rewrite Hs in Ht'. injection Ht' as <-. by split. }
  assert (∀ j tj (o' : conn_op), tasks s !! j = Some tj → j ≠ i →
    tasks (task_step method ip o' j tj s) !! i = Some t) as Hother.
  { intros j tj o' Hj Hne.
    destruct (task_step_move method ip o' j tj s Hi Hj) as [->|(b & b' & g & p & cs & -> & _)]; [done|].
    simpl. by rewrite list_lookup_alter_ne. }
  destruct op as [k|j|j|j|j|j out|j d|j]; unfold conn_step in Ht', Hsame.
  { apply Hsame. unfold begin_attempt. destruct (disconnecting k); simpl;
      by apply lookup_app_l_Some. }
  all: destruct (tasks s !! j) as [tj|] eqn:Hj; [|by apply Hsame].
  all: destruct (decide (j = i)) as [->|Hne]; [|by apply Hsame, Hother].
  all: rewrite Ht in Hj; injection Hj as <-; unfold task_step in Ht', Hsame.
  all: destruct (t_pc t) as [| | |polled st|[r|r]|[r|r]|[r|r]| | | | |] eqn:Hp; try done;
    try (by apply Hsame); try (by destruct Hop).
  all: revert Ht' Hsame; unfold run, finish; rewrite ?Hk; try destruct (session_gate s); intros Ht' Hsame;
    try (by apply Hsame).
  all: simpl in Ht'; rewrite list_lookup_alter_eq, Ht in Ht'; injection Ht' as Ht'; by eapply Hgo.
Qed.

(** ** An engine with nothing left stays so *)
Definition shut (x : Lifetime C) : Prop :=
  clean (res x) ∧ close_task (res x) = None ∧ cells (rtc x) !! holder (rtc x) = Some 0.

Lemma clean_media l r :
  clean r → Forall (λ m, m.2 = TEnded) l → clean (with_media l r).
Proof. intros [Hc Hm Hcm Hr Hs] Hl. by split. Qed.
Lemma shut_life op (x : Lifetime C) :
  callers op = false → life_inv x → shut x → shut (life_step op x).
Proof.
  intros Hop Hi Hsh. pose proof Hsh as (Hcl & Hct & Hz).
  assert (∀ c, task_peer x !! c = None ∨ ∃ i, task_peer x !! c = Some i ∧ sends i (rtc x) = false) as Hidle.
  { intros c. destruct (task_peer x !! c) as [i|]; [right|by left]. exists i. split; [done|].
    by apply clean_sends. }
  destruct op as [| |outcome| |ready|p kind codec|t|c|c outcome|c|op]; try done; unfold life_step.
  - by rewrite Hct.
  - assert (on_track p kind codec (res x) = res x) as Hsame.
    { unfold on_track. destruct (negb _); [done|].
      destruct (connections (res x) !! p) as [pc|] eqn:Hp; simpl; [|done].
      pose proof (cl_connections _ Hcl) as Hf. rewrite Forall_lookup in Hf.
      destruct (Hf p pc Hp) as [_ Hm]. by rewrite Hm. }
    simpl. rewrite Hsame. exact Hsh.
  - split_and!; [|done|done]. simpl. apply clean_media; [done|].
    apply Forall_alter; [apply Hcl|by intros].
  - unfold task_moves. destruct (Hidle c) as [->|(i & -> & Hs)]; [done|]. by rewrite Hs.
  - unfold task_moves. destruct (Hidle c) as [->|(i & -> & Hs)]; [done|]. by rewrite Hs.
  - destruct (decide _) as [Hc|]; [|done]. pose proof (cl_commands _ Hcl) as Hf.
    rewrite Forall_lookup in Hf. by specialize (Hf c _ Hc).
  - destruct (cut op) eqn:Hcut; [done|].
    destruct (calm_step op (rtc x) Hcut (li_holder _ Hi)) as [Hh _ _ _ _ Hk _ _].
    split_and!; [done|done|]. simpl. rewrite Hh. auto.
Qed.

(** When a close returns to its caller, the engine is shut. *)
Lemma closed_poll outcome (x : Lifetime C) r x' :
  life_inv x → driver (res x) = Some DClose → life_poll outcome DClose x = (Some r, x') → shut x'.
Proof.
  intros Hi Hd Hp.
  assert (close_task (res x) = Some CloseDone) as Hdone.
  { revert Hp. unfold life_poll, driver_poll, close_poll. by destruct (close_task (res x)) as [[]|]. }
  pose proof (done_clean _ (li_res _ Hi) Hdone) as [Hc Hm Hcm Hr Hs].
  destruct (li_closed _ Hi) as [Hz _]; [rewrite Hdone; simpl; lia|].
  revert Hp. unfold life_poll, driver_poll, close_poll. rewrite Hdone. intros [= _ <-].
  split; [by split|by split].
Qed.

(** ** Between two operations *)

(** The gate is free, or its holder has done nothing yet. *)
Definition untouched (s : ConnectionService) : Prop :=
  ∀ i t, session_gate s = Some i → tasks s !! i = Some t → t_pc t = Holding.
(** If no offer is open then, the engine is shut. *)
Definition settled w : Prop :=
  untouched (conn w) → open_transport (calls (conn w)) = false → shut (life w).

(** A step of a holder that has gone on leaves the service touched, unless it returns
    from the engine's close or has connected. *)
Lemma touched_goto i p s' t :
  session_gate s' = Some i → tasks s' !! i = Some t → p ≠ Holding → ¬ untouched (goto i p s').
Proof. intros Hg Ht Hp Hu. apply Hp. apply (Hu i (with_pc p t)); [done|]. by apply task_lookup_goto. Qed.

Section touched.
Context (i : nat) (t : Task) (s : ConnectionService).
Context (Hg : session_gate s = Some i) (Ht : tasks s !! i = Some t).
Lemma touched_fail s' k e :
  session_gate s' = Some i → tasks s' = tasks s → ¬ untouched (fail i k e s').
Proof.
  intros Hg' Ht'. assert (tasks s' !! i = Some t) as Hti by by rewrite Ht'.
  unfold fail, rollback_connection. destruct (validated k); by eapply touched_goto.
Qed.
Lemma touched_inner s' k :
  session_gate s' = Some i → tasks s' = tasks s → ¬ untouched (connect_inner method ip i k s').
Proof.
  intros Hg' Ht'. assert (tasks s' !! i = Some t) as Hti by by rewrite Ht'.
  unfold connect_inner. destruct (target_ip _ _); [by eapply touched_goto|by apply touched_fail].
Qed.
Lemma touched_connect k : ¬ untouched (connect_in_attempt method ip i k s).
Proof.
  unfold connect_in_attempt. destruct (reconnects k); [by eapply touched_goto|by apply touched_inner].
Qed.
Lemma touched_advance k st out :
  untouched (advance method ip i k st out s) →
  (st = AtAnswer ∨ st = AtOpen) ∧ calls (advance method ip i k st out s) = calls s.
Proof.
  unfold advance. intros Hu.
  destruct st, out as [x|e]; try (by destruct (touched_fail s k e)); try (by right); try (by auto);
    try (destruct (target_ip _ _)); try (destruct (validated k)); try (by auto); exfalso; revert Hu;
    first [by apply touched_connect|by apply touched_inner|by apply touched_fail|by eapply touched_goto].
Qed.
Lemma touched_run : ¬ untouched (run i t s).
Proof.
  unfold run, rollback_connection. destruct (t_kind t); try (destruct (negb _));
    first [by apply touched_fail|by eapply touched_goto].
Qed.
Lemma touched_drop k : ¬ untouched (drop_attempt i k s).
Proof. unfold drop_attempt. destruct k; by eapply touched_goto. Qed.

Lemma touched_task op :
  conn_inv method ip s → t_pc t ≠ Holding →
  untouched (task_step method ip op i t s) → open_transport (calls (task_step method ip op i t s)) = false →
  (∃ j, op = Continue j) ∧ is_Some (driving (t_pc t)).
Proof.
  intros Hi Hpc Hu Hop. pose proof (ci_phase _ _ s Hi i t Hg Ht) as Hph.
  pose proof (proj2 (ci_gate _ _ s Hi i t Ht) Hg) as Hh.
  assert (untouched s → False) as Hs by (intros Hu'; by apply Hpc, (Hu' i)).
  unfold task_step in *. destruct (t_pc t) as [| | |polled st|r|r|r| | | | |] eqn:Hp; try done.
  - destruct op; try done. by destruct touched_run.
  - assert (∀ b, untouched (goto i (Running b st) s) → False) as Hgo by (intros b; by eapply touched_goto).
    destruct op as [k|j|j|j|j|j out|j d|j], polled; try done.
    + destruct (negb _); [by destruct (touched_fail s (t_kind t) cancelled)|by destruct (Hgo true)].
    + destruct st; try done; by destruct (Hgo false).
    + destruct (touched_advance _ _ _ Hu) as [Hst Hcs]. rewrite Hcs in Hop.
      destruct Hst as [-> | ->], Hph as [Hph _]; congruence.
    + destruct (timed st); [by destruct (touched_fail s (t_kind t) (timeout_error d))|done].
    + destruct st; try done; by destruct (touched_drop (t_kind t)).
  - destruct op; try done; [exfalso; by eapply touched_goto in Hu|by destruct (touched_drop (t_kind t))].
  - destruct op; try done; [by eauto|by destruct (touched_drop (t_kind t))].
  - destruct op; try done. exfalso; by eapply touched_goto in Hu.
  - destruct op; try done. exfalso; by eapply touched_goto in Hu.
  - destruct op; try done. exfalso; by eapply touched_goto in Hu.
  - destruct op; try done. by eauto.
Qed.
End touched.

(** A step that begins untouched and ends untouched calls nothing; and one that ends
    untouched either does, or connects, or is the engine's answer. *)
Lemma untouched_calls op s :
  conn_inv method ip s → untouched s → untouched (conn_step method ip op s) →
  calls (conn_step method ip op s) = calls s.
Proof.
  intros Hi Hu Hu'. destruct op as [k|i|i|i|i|i out|i d|i]; unfold conn_step in *;
    [unfold begin_attempt; by destruct (disconnecting k)|..].
  all: destruct (tasks s !! i) as [t|] eqn:Ht; [|done].
  all: pose proof (ci_gate _ _ s Hi i t Ht) as Hg; specialize (Hu i t); unfold task_step in *.
  all: destruct (t_pc t) as [| | |polled st|r|r|r| | | | |] eqn:Hpc; try done;
    try (by specialize (Hu (proj1 Hg eq_refl) Ht)).
  all: try by destruct (session_gate s).
  all: try by destruct (intentional_disconnect s).
Qed.

(** The task a step of the service is about. *)
Definition subject (op : conn_op) : option nat :=
  match op with
  | Spawn _ => None
  | Acquire i | Continue i | Poll i | Yield i | Return_ i _ | Timeout_ i _ | DropFuture i => Some i
  end.
Lemma conn_step_task op i s t :
  subject op = Some i → tasks s !! i = Some t → conn_step method ip op s = task_step method ip op i t s.
Proof. by destruct op; intros [= ->] Ht; simpl; rewrite Ht. Qed.
(** Another task's step leaves the holder where it is. *)
Lemma conn_step_other op i s t :
  conn_inv method ip s → session_gate s = Some i → tasks s !! i = Some t → subject op ≠ Some i →
  session_gate (conn_step method ip op s) = Some i ∧ tasks (conn_step method ip op s) !! i = Some t.
Proof.
  intros Hi Hg Ht Hs. destruct (subject op) as [j|] eqn:Hj.
  - destruct (tasks s !! j) as [tj|] eqn:Htj.
    2:{ destruct op; simplify_eq/=; by rewrite Htj. }
    rewrite (conn_step_task op j s tj) by done.
    destruct (task_step_move method ip op j tj s Hi Htj) as [->|(b & b' & g & p & cs & -> & Hm)]; [done|].
    assert (j ≠ i) as Hne by congruence. simpl. rewrite list_lookup_alter_ne by done. split; [|done].
    destruct (gm_gate _ _ _ _ _ _ _ _ _ Hm) as [[? _]|[[? _]|(_ & _ & _ & _ & ->)]]; congruence.
  - destruct op; try done. simpl. unfold begin_attempt.
    destruct (disconnecting k); simpl; (split; [done|by apply lookup_app_l_Some]).
Qed.

Lemma settled_conn op w :
  world_inv method ip w → settled w → allowed op w = true → settled (conn_moves method ip op w).
Proof.
  intros [Hi Hl Hd] Hs Ha. unfold settled, conn_moves. set (s' := conn_step method ip op (conn w)).
  cbn [conn life]. intros Hu Hop.
  assert (untouched (conn w) → shut (life w) → shut (engine_calls (new_calls (conn w) s')
    (if leaves (conn w) s' then life_step LCancel (life w) else life w))) as Hkeep.
  { intros Hu0 Hsh. rewrite (new_calls_app _ _ []) by (rewrite app_nil_r; by apply untouched_calls).
    assert (driver_of (conn w) = None) as Hn.
    { destruct (session_gate (conn w)) as [i|] eqn:Hg; [|by apply driver_free].
      destruct (ci_holder _ _ _ Hi i Hg) as [t Ht]. rewrite (driver_at _ i t) by done.
      by rewrite (Hu0 i t). }
    unfold leaves. by rewrite Hn. }
  assert (untouched (conn w) → shut (life w)) as Hsh.
  { intros Hu0. apply Hs; [done|]. by rewrite <- (untouched_calls op _ Hi Hu0 Hu). }
  destruct (session_gate (conn w)) as [i|] eqn:Hg.
  2:{ assert (untouched (conn w)) as Hu0 by (intros i t Hgi; congruence). auto. }
  destruct (ci_holder _ _ _ Hi i Hg) as [t Ht].
  assert (t_pc t = Holding ∨ t_pc t ≠ Holding) as [Hpc|Hpc] by (destruct (t_pc t); (by left) || by right).
  { assert (untouched (conn w)) as Hu0 by (intros j tj Hgj Htj; simplify_eq; done). auto. }
  destruct (decide (subject op = Some i)) as [Hsub|Hsub].
  - pose proof (conn_step_task op i _ t Hsub Ht) as Hstep. fold s' in Hstep. rewrite Hstep in Hu, Hop.
    destruct (touched_task i t _ Hg Ht op Hi Hpc Hu Hop) as [[j ->] [k Hk]].
    injection Hsub as ->. unfold allowed in Ha. rewrite Ht in Ha. simpl in Ha. by rewrite Hk in Ha.
  - destruct (conn_step_other op i _ t Hi Hg Ht Hsub) as [Hg' Ht']. by destruct Hpc, (Hu i t Hg' Ht').
Qed.
Lemma settled_polled outcome sdp w :
  world_inv method ip w → settled w → settled (engine_polled method ip outcome sdp w).
Proof.
  intros [Hi Hl Hd] Hs. unfold engine_polled.
  destruct (session_gate (conn w)) as [i|] eqn:Hg; [|done].
  destruct (tasks (conn w) !! i) as [t|] eqn:Ht; [|done].
  destruct (driver (res (life w))) as [d|] eqn:Hdr; [|done].
  destruct (polls_engine (t_pc t)) eqn:Hp; [|done]. cbn [negb].
  assert (t_pc t ≠ Holding) as Hpc by (intros Hh; by rewrite Hh in Hp).
  destruct (life_poll outcome d (life w)) as [[r|] x] eqn:Hpoll.
  2:{ intros Hu. by destruct Hpc, (Hu i t). }
  set (op := engine_returned i (t_pc t) r sdp). intros Hu Hop. cbn [conn life] in *.
  assert (subject op = Some i) as Hsub by (unfold op, engine_returned; by destruct (t_pc t)).
  pose proof (conn_step_task op i _ t Hsub Ht) as Hstep. rewrite Hstep in Hu, Hop.
  destruct (touched_task i t _ Hg Ht op Hi Hpc Hu Hop) as [[j Hj] [k Hk]].
  rewrite (driver_at _ i t) in Hd by done. rewrite Hstep.
  unfold op, engine_returned in Hj |- *. unfold task_step.
  assert (d = DClose → shut x) as Hcl by (intros ->; by eapply closed_poll).
  destruct (t_pc t) as [| | |[] st|r'|r'|r'| | | | |] eqn:Hpt; try done;
    (rewrite (new_calls_app _ _ []) by (by rewrite app_nil_r)); apply Hcl; by destruct d.
Qed.
Lemma world_step_settled op w :
  world_inv method ip w → settled w → settled (world_step method ip op w).
Proof.
  intros Hw Hs. destruct op as [op|outcome sdp|op]; unfold world_step.
  - destruct (allowed op w) eqn:Ha; [by apply settled_conn|done].
  - by apply settled_polled.
  - destruct (callers op) eqn:Hc; [done|]. intros Hu Hop. cbn [conn life] in *.
    apply shut_life; [done|apply Hw|by apply Hs].
Qed.

(** ** What the references guarantee *)

(** A change of the world without new operations. *)
Record carries w w' : Prop := {
  ca_inv : world_inv method ip w';
  ca_settled : settled w';
  ca_follows j t' : tasks (conn w') !! j = Some t' → ∃ t, tasks (conn w) !! j = Some t ∧ follows t t';
}.
Lemma world_conn op w :
  conn (world_step method ip op w) = conn w ∨
  ∃ op', conn (world_step method ip op w) = conn_step method ip op' (conn w) ∧
    (owned_op op = false → internal op' = true) ∧ (∀ op0, op = WConn op0 → op' = op0).
Proof.
  destruct op as [op|outcome sdp|op]; unfold world_step.
  - destruct (allowed op w); [right|by left]. exists op. split_and!; [done| |by intros ? [= ->]].
    by destruct op.
  - unfold engine_polled. destruct (session_gate (conn w)) as [i|]; [|by left].
    destruct (tasks (conn w) !! i) as [t|]; [|by left].
    destruct (driver _) as [d|]; [|by left]. destruct (negb _); [by left|].
    destruct (life_poll outcome d (life w)) as [[r|] x]; [right|by left].
    eexists. split_and!; [done| |done]. intros _. unfold engine_returned. by destruct (t_pc t).
  - destruct (callers op); by left.
Qed.
Lemma internal_carries op w :
  owned_op op = false ∨ (∃ i, op = WConn (DropFuture i)) → world_inv method ip w → settled w →
  carries w (world_step method ip op w).
Proof.
  intros Hop Hw Hs. split; [by apply world_step_inv|by apply world_step_settled|].
  intros j t' Hj. destruct (world_conn op w) as [Hc|(op' & Hc & Hint & Heq)]; rewrite Hc in Hj.
  - exists t'. split; [done|apply follows_refl].
  - destruct (conn_step_follows op' _ j t' (wi_conn _ _ _ Hw) Hj) as [?|(k & Hk & _)]; [done|].
    destruct Hop as [Hop|[i ->]]; [by rewrite Hk in Hint; specialize (Hint Hop)|].
    by rewrite (Heq _ eq_refl) in Hk.
Qed.
Lemma internal_closing op w i t :
  owned_op op = false → world_inv method ip w → tasks (conn w) !! i = Some t → closing_down t →
  ∃ t', tasks (conn (world_step method ip op w)) !! i = Some t' ∧ closing_down t' ∧ t_seen t' = t_seen t.
Proof.
  intros Hop Hw Ht Hc. destruct (world_conn op w) as [->|(op' & -> & Hint & _)]; [by exists t|].
  specialize (Hint Hop). pose proof (wi_conn _ _ _ Hw) as Hi.
  destruct (tasks (conn_step method ip op' (conn w)) !! i) as [t'|] eqn:Ht'.
  - exists t'. destruct (conn_step_follows op' _ i t' Hi Ht') as [(t0 & Ht0 & Hf)|(k & -> & _)]; [|done].
    simplify_eq. split_and!; [done| |apply Hf]. apply (closing_step op' i t (conn w)); [done|done|by intros ->|done|done].
  - exfalso. apply lookup_ge_None in Ht'. pose proof (lookup_lt_Some _ _ _ Ht) as Hlt.
    destruct (subject op') as [j|] eqn:Hj; [|by destruct op'].
    destruct (tasks (conn w) !! j) as [tj|] eqn:Htj.
    + rewrite (conn_step_task op' j _ tj) in Ht' by done.
      destruct (task_step_move method ip op' j tj _ Hi Htj) as [Hs|(b & b' & g & p & cs & Hs & _)];
        rewrite Hs in Ht'; simpl in Ht'; rewrite ?length_alter in Ht'; lia.
    + destruct op'; simplify_eq/=; rewrite Htj in Ht'; lia.
Qed.
Lemma spawned_tasks k w :
  tasks (conn (world_step method ip (WConn (Spawn k)) w)) =
  tasks (conn w) ++ [{| t_kind := k; t_seen := version (conn (world_step method ip (WConn (Spawn k)) w));
                        t_pc := Waiting |}].
Proof. simpl. unfold conn_moves, begin_attempt. by destruct (disconnecting k). Qed.

(** A session with references. *)
Record alive_inv o : Prop := {
  ai_world : world_inv method ip (world o);
  ai_settled : settled (world o);
  ai_drops : drops o = 0%nat;
  ai_cleanup : cleanup o = None;
  ai_unused : cleanup_runtime o = false → session_operations o = [];
  ai_active i t : session_operations o !! i = Some t → active (t_pc t) = true →
    ∃ n f, futures o !! n = Some f ∧ awaited f = Some i;
  ai_loop n a m : futures o !! n = Some (FLoop a m) → cleanup_runtime o = true;
}.
(** A session without. *)
Record gone_inv o : Prop := {
  go_world : world_inv method ip (world o);
  go_settled : settled (world o);
  go_drops : drops o = 1%nat;
  go_active i t : session_operations o !! i = Some t → active (t_pc t) = true → cleanup o = Some (Some i);
  go_unused : cleanup o = None → session_operations o = [];
  go_final i : cleanup o = Some (Some i) → ∃ t, session_operations o !! i = Some t ∧ closing_down t ∧
    ∀ j t', session_operations o !! j = Some t' → disconnecting (t_kind t') = false → t_seen t' < t_seen t;
}.
Definition own_inv o : Prop := if referenced o then alive_inv o else gone_inv o.

Lemma release_inv o : alive_inv o → own_inv (release o).
Proof.
  intros Ha. unfold own_inv, release. destruct (referenced o) eqn:Hr; [by rewrite Hr|].
  assert (referenced (drop_session o) = referenced o) as -> by done. rewrite Hr.
  destruct Ha as [Hw Hs Hd Hc Hu Hact _]. split; simpl; try done.
  - by rewrite Hd.
  - intros i t Ht Hta. destruct (Hact i t Ht Hta) as (n & f & Hf & Haw).
    unfold referenced in Hr. destruct (objects o); [|done].
    assert (live_future f = false) as Hlf.
    { destruct (live_future f) eqn:Hl; [|done]. rewrite <- Hr. symmetry. apply existsb_exists.
      exists f. split; [|done]. apply list_elem_of_In. by eapply list_elem_of_lookup_2. }
    by destruct f.
  - destruct (cleanup_runtime o); [done|auto].
  - by destruct (cleanup_runtime o).
Qed.
Lemma alive_own o : alive_inv o → referenced o = true → own_inv o.
Proof. intros Ha Hr. unfold own_inv. by rewrite Hr. Qed.
Lemma live_referenced n f l o :
  l !! n = Some f → live_future f = true → referenced (with_futures l o) = true.
Proof.
  intros Hn Hf. unfold referenced. simpl. destruct (objects o); [|done]. apply existsb_exists.
  exists f. split; [|done]. apply list_elem_of_In. by eapply list_elem_of_lookup_2.
Qed.

(** *** Steps of a session with references *)
Lemma alive_world w' o : alive_inv o → carries (world o) w' → alive_inv (with_world w' o).
Proof.
  intros [Hw Hs Hd Hc Hu Hact Hloop] [Hw' Hs' Hf]. split; simpl; try done.
  - intros Hr. specialize (Hu Hr). unfold session_operations in *. simpl.
    destruct (tasks (conn w')) as [|t' l] eqn:Hj; [done|].
    destruct (Hf 0%nat t') as (t & Ht & _); [done|]. by rewrite Hu in Ht.
  - intros i t' Ht' Ha. destruct (Hf i t' Ht') as (t & Ht & Hfo). apply (Hact i t Ht). by apply Hfo.
Qed.
Lemma alive_set n f0 f o :
  alive_inv o → futures o !! n = Some f0 →
  (∀ i t, awaited f0 = Some i → awaited f = Some i ∨ (session_operations o !! i = Some t → active (t_pc t) = false)) →
  (∀ a m, f = FLoop a m → cleanup_runtime o = true) → alive_inv (set_future n f o).
Proof.
  intros [Hw Hs Hd Hc Hu Hact Hloop] Hn Hf Hfl. split; simpl; try done.
  2:{ intros n' a m [(-> & -> & _)|[_ Hl]]%list_lookup_insert_Some; eauto. }
  intros i t Ht Ha. destruct (Hact i t Ht Ha) as (n' & f' & Hf' & Haw).
  destruct (decide (n = n')) as [<-|Hne].
  - exists n, f. rewrite list_lookup_insert_eq by (by eapply lookup_lt_Some). split; [done|].
    simplify_eq. destruct (Hf i t Haw) as [|Hin]; [done|]. rewrite (Hin Ht) in Ha. done.
  - exists n', f'. by rewrite list_lookup_insert_ne.
Qed.
Lemma alive_end n f r o :
  alive_inv o → futures o !! n = Some f →
  (∀ i t, awaited f = Some i → session_operations o !! i = Some t → active (t_pc t) = false) →
  own_inv (end_future n r o).
Proof. intros Ha Hn Hf. apply release_inv, (alive_set n f); [done|done| |done]. intros i t Hi. right. by eapply Hf. Qed.
Lemma alive_remember o : alive_inv o → alive_inv (remember_runtime o).
Proof. intros [Hw Hs Hd Hc Hu Hact _]. by split. Qed.
Lemma set_referenced n f0 f o :
  futures o !! n = Some f0 → live_future f = true → referenced (set_future n f o) = true.
Proof.
  intros Hn Hf. apply (live_referenced n f); [|done]. apply list_lookup_insert_eq. by eapply lookup_lt_Some.
Qed.
Lemma alive_call k n f0 f o :
  alive_inv o → cleanup_runtime o = true → futures o !! n = Some f0 → awaited f0 = None →
  awaited f = Some (call_operation k o).1 → own_inv (set_future n f (call_operation k o).2).
Proof.
  intros [Hw Hs Hd Hc Hu Hact _] Hr Hn Haw0 Haw.
  apply alive_own; [|apply (set_referenced n f0); [done|by destruct f]].
  split; [exact (world_step_inv method ip (WConn (Spawn k)) _ Hw)|
          exact (world_step_settled (WConn (Spawn k)) _ Hw Hs)|done|done| | |done].
  - intros Hr'. simpl in Hr'. congruence.
  - intros i t. change (session_operations (set_future n f (call_operation k o).2)) with
      (tasks (conn (world_step method ip (WConn (Spawn k)) (world o)))).
    rewrite spawned_tasks. intros [Ht|[Hge Ht]]%lookup_app_Some Ha.
    + destruct (Hact i t Ht Ha) as (n' & f' & Hf' & Haw'). exists n', f'. split; [|done]. simpl.
      rewrite list_lookup_insert_ne; [done|]. intros ->. simplify_eq.
    + apply list_lookup_singleton_Some in Ht as [Hi _]. exists n, f. split.
      * simpl. apply list_lookup_insert_eq. by eapply lookup_lt_Some.
      * rewrite Haw. simpl. unfold session_operations in *. f_equal. lia.
Qed.

Lemma auto_reconnect_inv n f0 attempt max_retries o :
  alive_inv o → cleanup_runtime o = true → futures o !! n = Some f0 → awaited f0 = None →
  own_inv (auto_reconnect n attempt max_retries o).
Proof.
  intros Ha Hr Hn Haw. unfold auto_reconnect.
  destruct (attempt <? max_retries); [|apply (alive_end n f0); [done|done|by rewrite Haw]].
  destruct (intentional_disconnect _); [apply (alive_end n f0); [done|done|by rewrite Haw]|].
  by eapply (alive_call (KSession Retry) n f0 (FRetry attempt max_retries _)).
Qed.
Lemma first_poll_inv n m o :
  alive_inv o → futures o !! n = Some (FNew m) → own_inv (first_poll n m o).
Proof.
  intros Ha Hn. pose proof (alive_remember _ Ha) as Har. destruct m; simpl.
  - exact (alive_call (KSession Connect) n _ (FAwait _) _ Har eq_refl Hn eq_refl eq_refl).
  - exact (alive_call (KSession Reconnect) n _ (FAwait _) _ Har eq_refl Hn eq_refl eq_refl).
  - exact (alive_call KDisconnectSession n _ (FAwait _) _ Har eq_refl Hn eq_refl eq_refl).
  - exact (auto_reconnect_inv n _ 0 max_retries _ Har eq_refl Hn eq_refl).
  - apply alive_own; [exact (alive_set n _ FOther _ Har Hn ltac:(done) ltac:(done))|
                      exact (set_referenced n _ FOther (remember_runtime o) Hn eq_refl)].
  - apply alive_own; [exact (alive_set n _ FOther _ Ha Hn ltac:(done) ltac:(done))|
                      exact (set_referenced n _ FOther o Hn eq_refl)].
Qed.

Lemma has_operation o i t :
  alive_inv o → session_operations o !! i = Some t → cleanup_runtime o = true.
Proof.
  intros Ha Ht. destruct (cleanup_runtime o) eqn:Hr; [done|]. by rewrite (ai_unused _ Ha Hr) in Ht.
Qed.
Lemma poll_future_inv n f o :
  alive_inv o → referenced o = true → futures o !! n = Some f → own_inv (poll_future n f o).
Proof.
  intros Ha Hr Hn. pose proof (alive_own _ Ha Hr) as Hstay.
  destruct f as [m|i|a m|a m i| |r]; simpl; [by apply first_poll_inv|..|done].
  - destruct (session_operations o !! i) as [t|] eqn:Ht; [|done]. simpl.
    destruct (t_pc t) eqn:Hpc; try done. eapply (alive_end n _ _ _ Ha Hn).
    intros i' t' [= <-] Ht'. simplify_eq. by rewrite Hpc.
  - apply (auto_reconnect_inv n (FLoop a m) _ _ _ Ha); [by eapply ai_loop|done|done].
  - destruct (session_operations o !! i) as [t|] eqn:Ht; [|done]. simpl.
    destruct (t_pc t) as [| | | | | |[[]|e]| | | | |] eqn:Hpc; try done.
    + eapply (alive_end n _ _ _ Ha Hn). intros i' t' [= <-] Ht'. simplify_eq. by rewrite Hpc.
    + apply alive_own; [|by apply (set_referenced n (FRetry a m i))].
      apply (alive_set n (FRetry a m i)); [done|done| |by intros; eapply has_operation].
      intros i' t' [= <-]. right. intros Ht'. simplify_eq. by rewrite Hpc.
  - by eapply (alive_end n _ _ _ Ha Hn).
Qed.
(** A dropped operation is no longer active. *)
Lemma dropped_inactive i w t t' :
  tasks (conn w) !! i = Some t → cancellable (t_pc t) = true →
  tasks (conn (world_step method ip (WConn (DropFuture i)) w)) !! i = Some t' → active (t_pc t') = false.
Proof.
  intros Ht Hc. unfold world_step. simpl allowed. cbn iota. unfold conn_moves, conn_step. cbn [conn].
  rewrite Ht. unfold task_step, drop_attempt.
  destruct (t_pc t) as [| | |[] st|r|r|r| | | | |] eqn:Hpc; try done;
    try destruct st; try done; try destruct (t_kind t); simpl; rewrite ?list_lookup_alter_eq, ?Ht;
    intros [= <-]; simpl; by rewrite ?Hpc.
Qed.
Lemma cancel_future_inv n f o :
  alive_inv o → referenced o = true → futures o !! n = Some f → own_inv (cancel_future n f o).
Proof.
  intros Ha Hr Hn. pose proof (alive_own _ Ha Hr) as Hstay. unfold cancel_future.
  destruct (awaited f) as [i|] eqn:Haw.
  2:{ destruct (live_future f); [|done]. apply (alive_end n f _ _ Ha Hn). by rewrite Haw. }
  destruct (session_operations o !! i) as [t|] eqn:Ht; [|done]. simpl.
  destruct (cancellable (t_pc t)) eqn:Hc; [|done].
  assert (carries (world o) (world_step method ip (WConn (DropFuture i)) (world o))) as Hca.
  { apply internal_carries; [right; eauto|apply Ha|apply Ha]. }
  apply (alive_end n f); [by apply alive_world|done|]. rewrite Haw. intros i' t' [= <-] Ht'.
  exact (dropped_inactive i (world o) t t' Ht Hc Ht').
Qed.

(** *** Steps of a session without *)
Lemma unreferenced o :
  referenced o = false → objects o = [] ∧ ∀ n f, futures o !! n = Some f → live_future f = false.
Proof.
  unfold referenced. destruct (objects o); [|done]. intros Hl. split; [done|]. intros n f Hn.
  destruct (live_future f) eqn:Hf; [|done]. rewrite <- Hl. symmetry. apply existsb_exists.
  exists f. split; [|done]. apply list_elem_of_In. by eapply list_elem_of_lookup_2.
Qed.
Lemma gone_world op o :
  gone_inv o → owned_op op = false → gone_inv (with_world (world_step method ip op (world o)) o).
Proof.
  intros [Hw Hs Hd Hact Hu Hfin] Hop.
  destruct (internal_carries op (world o) (or_introl Hop) Hw Hs) as [Hw' Hs' Hf].
  split; try done.
  - intros i t' Ht' Ha. destruct (Hf i t' Ht') as (t & Ht & Hfo). apply (Hact i t Ht). by apply Hfo.
  - intros Hn. specialize (Hu Hn). unfold session_operations in *. cbn [world with_world].
    destruct (tasks (conn (world_step method ip op (world o)))) as [|t' l] eqn:Hj; [done|].
    destruct (Hf 0%nat t') as (t & Ht & _); [done|]. by rewrite Hu in Ht.
  - intros i Hi. destruct (Hfin i Hi) as (t & Ht & Hc & Hlast).
    destruct (internal_closing op (world o) i t Hop Hw Ht Hc) as (t1 & Ht1 & Hc1 & Hseen).
    exists t1. split_and!; [done|done|]. intros j t' Hj Hk. destruct (Hf j t' Hj) as (t0 & Ht0 & Hfo).
    rewrite Hseen, (fo_seen _ _ Hfo). apply (Hlast j t0 Ht0). by rewrite <- (fo_kind _ _ Hfo).
Qed.
Lemma gone_cleanup o :
  gone_inv o → cleanup o = Some None →
  gone_inv (with_cleanup (Some (Some (call_operation KDisconnectSession o).1)) (call_operation KDisconnectSession o).2).
Proof.
  intros [Hw Hs Hd Hact Hu Hfin] Hc.
  set (w' := world_step method ip (WConn (Spawn KDisconnectSession)) (world o)).
  assert (tasks (conn w') = session_operations o ++
    [{| t_kind := KDisconnectSession; t_seen := version (conn w'); t_pc := Waiting |}]) as Htasks by apply spawned_tasks.
  assert (version (conn w') = version (conn (world o)) + 1) as Hv by done.
  split; [exact (world_step_inv method ip (WConn (Spawn KDisconnectSession)) _ Hw)|
          exact (world_step_settled (WConn (Spawn KDisconnectSession)) _ Hw Hs)|done| |done|].
  - intros i t. change (session_operations _) with (tasks (conn w')). rewrite Htasks.
    intros [Ht|[Hge Ht]]%lookup_app_Some Ha.
    + pose proof (Hact i t Ht Ha). congruence.
    + apply list_lookup_singleton_Some in Ht as [Hi _]. simpl. do 2 f_equal. lia.
  - intros i [= <-].
    change (session_operations (with_cleanup _ _)) with (tasks (conn w')). rewrite Htasks.
    eexists. split_and!; [by rewrite lookup_app_r, Nat.sub_diag by done|by split|].
    intros j t' [Hj|[_ Hj]]%lookup_app_Some Hk.
    + cbn [t_seen]. rewrite Hv. pose proof (ci_seen _ _ _ (wi_conn _ _ _ Hw) j t' Hj). lia.
    + by apply list_lookup_singleton_Some in Hj as [_ <-].
Qed.

Lemma own_step_inv op o : own_inv o → own_inv (own_step op o).
Proof.
  intros Ho. pose proof Ho as Ho'. unfold own_inv in Ho'. destruct (referenced o) eqn:Hr.
  - destruct op as [parent child|k|k m|n|n| |op]; simpl.
    + destruct (objects o !! parent); [|done]. destruct (decide _); [|done].
      apply alive_own; [by destruct Ho'|]. unfold referenced. simpl. by destruct (objects o).
    + destruct (objects o !! k); [|done]. apply release_inv. by destruct Ho'.
    + destruct (objects o !! k) as [ob|] eqn:Hk; [|done]. destruct (methods ob m); [|done].
      apply alive_own; [|unfold referenced; simpl; by destruct (objects o)].
      destruct Ho' as [Hw Hs Hd Hc Hu Hact Hloop]. split; simpl; try done.
      * intros i t Ht Ha. destruct (Hact i t Ht Ha) as (n & f & Hf & Haw). exists n, f.
        split; [by apply lookup_app_l_Some|done].
      * intros n a mx [Hn|[_ Hn]]%lookup_app_Some; [by eapply Hloop|].
        by apply list_lookup_singleton_Some in Hn as [_ ?].
    + destruct (futures o !! n) eqn:Hn; [|done]. by apply poll_future_inv.
    + destruct (futures o !! n) eqn:Hn; [|done]. by apply cancel_future_inv.
    + by rewrite (ai_cleanup _ Ho').
    + destruct (owned_op op) eqn:Hop; [done|]. apply alive_own; [|done]. apply alive_world; [done|].
      apply internal_carries; [by left|apply Ho'|apply Ho'].
  - destruct (unreferenced o Hr) as [Hob Hfu].
    destruct op as [parent child|k|k m|n|n| |op]; simpl; rewrite ?Hob; try done.
    + destruct (futures o !! n) as [f|] eqn:Hn; [|done]. specialize (Hfu n f Hn). by destruct f.
    + destruct (futures o !! n) as [f|] eqn:Hn; [|done]. specialize (Hfu n f Hn). by destruct f.
    + destruct (cleanup o) as [[i|]|] eqn:Hc; [done| |done]. unfold own_inv.
      match goal with |- if referenced ?o' then _ else _ =>
        assert (referenced o' = referenced o) as -> by done end. rewrite Hr. by apply gone_cleanup.
    + destruct (owned_op op) eqn:Hop; [done|]. unfold own_inv.
      assert (referenced (with_world (world_step method ip op (world o)) o) = referenced o) as -> by done.
      rewrite Hr. by apply gone_world.
Qed.
Lemma owned_inv q l : own_inv (owned q l).
Proof.
  assert (own_inv (new_owner q)) as Hn.
  { apply alive_own; [|done]. split; [apply (world_run_inv method ip [] q)| |done..].
    intros _ _. by repeat split. }
  unfold owned. revert Hn. generalize (new_owner q). induction l as [|op l IH]; intros o Ho; [done|].
  by apply IH, own_step_inv.
Qed.

(** ** Theorems *)

(** C16: no operation outlives the session: [drop] runs once, when the last object and
    the last future are gone; until then every operation that is under way is awaited
    by a future that keeps the session alive, and afterwards the only one that can be is
    the disconnect [drop] spawned. *)
Theorem session_outlives_operations q l :
  let o := owned q l in
  drops o = (if referenced o then 0 else 1)%nat ∧
  ∀ i t, session_operations o !! i = Some t → active (t_pc t) = true →
    if referenced o then ∃ n f, futures o !! n = Some f ∧ awaited f = Some i
    else cleanup o = Some (Some i).
Proof.
  intros o. pose proof (owned_inv q l) as Hi. fold o in Hi. unfold own_inv in Hi.
  destruct (referenced o).
  - split; [by rewrite (ai_drops _ Hi)|]. apply (ai_active _ Hi).
  - split; [by rewrite (go_drops _ Hi)|]. apply (go_active _ Hi).
Qed.

Definition ended (p : pc) : bool := match p with Done _ | Gone => true | _ => false end.
Lemma ended_gate o :
  world_inv method ip (world o) → (∀ i t, session_operations o !! i = Some t → ended (t_pc t) = true) →
  session_gate (conn (world o)) = None.
Proof.
  intros Hw He. destruct (session_gate (conn (world o))) as [i|] eqn:Hg; [|done].
  destruct (ci_holder _ _ _ (wi_conn _ _ _ Hw) i Hg) as [t Ht].
  pose proof (proj2 (ci_gate _ _ _ (wi_conn _ _ _ Hw) i t Ht) Hg) as Hh.
  specialize (He i t Ht). by destruct (t_pc t).
Qed.
(** Nothing connects after the clean-up. *)
Lemma gone_disconnected o :
  gone_inv o → cleanup o ≠ Some None →
  (∀ i t, session_operations o !! i = Some t → ended (t_pc t) = true) →
  is_connected (conn (world o)) = false.
Proof.
  intros [Hw Hs Hd Hact Hu Hfin] Hc He. destruct (is_connected (conn (world o))) eqn:Hconn; [|done].
  exfalso. destruct (ci_conn _ _ _ (wi_conn _ _ _ Hw) Hconn) as (j & tj & pre & a & post & Hj & Hk & Hb & _).
  destruct (cleanup o) as [[i|]|] eqn:Hcl; [|done|].
  - destruct (Hfin i eq_refl) as (t & Ht & [Hkt Hpc] & Hlast).
    specialize (Hlast j tj Hj Hk). specialize (He i t Ht).
    assert (t_seen t ≤ t_seen tj) as Hle.
    { apply (Hb i t Ht); [by rewrite Hkt|]. by destruct (t_pc t) as [| | | | | |[[]|]| | | | |]. }
    lia.
  - specialize (Hu eq_refl). unfold session_operations in Hu. by rewrite Hu in Hj.
Qed.

(** Nothing is left of a session without references whose tasks have ended. *)
Lemma gone_closed o :
  gone_inv o → cleanup o ≠ Some None →
  (∀ i t, session_operations o !! i = Some t → ended (t_pc t) = true) →
  is_connected (conn (world o)) = false ∧ clean (res (life (world o))) ∧
  Engine.ready_state (rtc (life (world o))) = "closed" ∧
  ∀ j op, peer_op j op → eng_step op (rtc (life (world o))) = rtc (life (world o)).
Proof.
  intros Hi Hc He. pose proof (gone_disconnected o Hi Hc He) as Hconn. pose proof (go_world _ Hi) as Hw.
  pose proof (ended_gate o Hw He) as Hg.
  pose proof (ci_idle _ _ _ (wi_conn _ _ _ Hw) Hg) as Hop. rewrite Hconn in Hop.
  destruct (go_settled _ Hi) as (Hcl & _ & Hz); [|done|].
  { intros i t Hgi. congruence. }
  split_and!; [done|done| |].
  - unfold Engine.ready_state, current_ready_state, cell_value. by rewrite Hz.
  - intros j op Hpo. apply (closed_inert (life (world o)) j); [apply Hw|done| |done].
    apply clean_sends; [apply Hw|done].
Qed.

(** C17: an abandoned session cleans up: once nothing refers to it any more, its clean-up
    task has begun and its tasks have ended, whatever was called, cancelled or still
    running before, the service is not connected, everything the engine ever created has
    ended, and no callback or task of any peer has an effect. *)
Theorem abandoned_session_closes q l :
  let o := owned q l in
  referenced o = false → cleanup o ≠ Some None →
  (∀ i t, session_operations o !! i = Some t → ended (t_pc t) = true) →
  is_connected (conn (world o)) = false ∧ clean (res (life (world o))) ∧
  Engine.ready_state (rtc (life (world o))) = "closed" ∧
  ∀ j op, peer_op j op → eng_step op (rtc (life (world o))) = rtc (life (world o)).
Proof.
  intros o Hr Hc He. pose proof (owned_inv q l) as Hi. fold o in Hi. unfold own_inv in Hi. rewrite Hr in Hi.
  by apply gone_closed.
Qed.
End ownership.

(** ** An execution: Python connects, drops its objects while the future still awaits the
    answer, and cancels it *)
#[local] Existing Instance demo_json.
Abbreviation demo_op := (@own_op vec_chan).
Definition demo_connecting : list demo_op :=
  [OGet 0 OAudio; OCall 0 MConnect; ORelease 1; OPoll 0; OWorld (WConn (Acquire 0)); OWorld (WConn (Continue 0));
   OWorld (WConn (Poll 0)); OWorld (WConn (Return_ 0 (Ok ""))); OWorld (WConn (Return_ 0 (Ok "")));
   OWorld (WConn (Return_ 0 (Ok "")))] ++
  (OWorld <$> demo_close ++ replicate 7 (WPoll (Some (Ok ())) "sdp")) ++
  [OWorld (WConn (Yield 0)); ORelease 0].
Definition demo_abandoned : list demo_op :=
  demo_connecting ++ [OCancel 0; OCleanup] ++
  (OWorld <$> (WConn <$> replicate 3 (Continue 0)) ++ demo_close ++ [WLife (LAborted 0)] ++
     replicate 7 (WLife (LClose true)) ++ [WPoll None ""] ++
     (WConn <$> [Acquire 1; Continue 1; Continue 1]) ++ [WPoll None ""] ++ replicate 7 (WLife (LClose true)) ++
     [WPoll None ""]).
Definition demo_owner (l : list demo_op) := owned LocalAP None (bounded 8) l.
Definition demo_view (l : list demo_op) :=
  (referenced (demo_owner l), drops (demo_owner l), cleanup (demo_owner l),
   t_pc <$> session_operations (demo_owner l), length (connections (res (life (world (demo_owner l)))))).
Example ownership_demo :
  demo_view demo_connecting = (true, 0%nat, None, [Running false AtExchange], 1%nat) ∧
  demo_view demo_abandoned = (false, 1%nat, Some (Some 1%nat), [Gone; Done (Ok ())], 1%nat).
Proof. split; vm_compute; reflexivity. Qed.

Lemma session_outlives_operations_witness :
  ∃ n f, futures (demo_owner demo_connecting) !! n = Some f ∧ awaited f = Some 0%nat.
Proof.
  destruct (session_outlives_operations LocalAP None (bounded 8) demo_connecting) as [_ Hw].
  assert (referenced (owned LocalAP None (bounded 8) demo_connecting) = true) as Hr by (vm_compute; reflexivity).
  rewrite Hr in Hw.
  refine (Hw 0%nat {| t_kind := KSession Connect; t_seen := 0; t_pc := Running false AtExchange |} _ _);
    vm_compute; reflexivity.
Defined.

Lemma abandoned_session_closes_witness :
  clean (res (life (world (demo_owner demo_abandoned)))).
Proof.
  refine (proj1 (proj2 (abandoned_session_closes LocalAP None (bounded 8) demo_abandoned _ _ _))).
  - vm_compute; reflexivity.
  - vm_compute; discriminate.
  - intros i t Ht. destruct i as [|[|i]]; vm_compute in Ht; [by simplify_eq..|done].
Defined.
