(* ===== verification/Completion.v ===== *)
(** * What was begun comes to its end (src/src/connection/, src/src/infrastructure/rtc_engine/)

    The safety theorems of [Attempt] and [Ownership] say what holds when an operation
    has ended; here that it can always end, from every state that can be reached and
    without any help of the user: the executor polls the tasks, a call that is awaited
    fails or runs into its deadline, the tasks of a closed peer end.  So no session is
    ever stuck, and one that was abandoned reaches the state in which nothing of it is
    left. *)
From S2P Require Import Prelude Floats Json Constants Ingress Channel Utf8 Ports.
From S2P Require Import Engine EngineProps Peer Lifetime LifetimeProps Connection ConnectionProps.
From S2P Require Import Uninterrupted Attempt Ownership.
#[local] Open Scope Z_scope.

(** ** The operations of a session come to their end *)
Section completion.
Context (method : WebRTCConnectionMethod) (ip : option string) `{SerdeJson}.
Context {C : Type → Type} `{Chan C}.
Implicit Types (w : World C) (s : ConnectionService) (x : Lifetime C).
Abbreviation conn_step := (conn_step method ip).
Abbreviation world_step := (world_step method ip).
Abbreviation world_run := (world_run method ip).

(** Nobody calls an operation or drops one. *)
Definition unattended (op : @world_op C) : bool := negb (owned_op op).

Record world_ok w : Prop := {
  wo_inv : world_inv method ip w;
  wo_aborted : awaited_aborted (res (life w));
}.
Lemma life_step_aborted o x : life_inv x → awaited_aborted (res x) → awaited_aborted (res (life_step o x)).
Proof. intros Hi Ha. destruct (life_step_res o x) as [->|[o' ->]]; [done|]. by apply engine_step_aborted; [apply Hi|]. Qed.
Lemma engine_calls_aborted (l : list (nat * Call)) x :
  life_inv x → awaited_aborted (res x) → awaited_aborted (res (engine_calls l x)).
Proof.
  revert x. induction l as [|[i c] l IH]; intros x Hi Ha; [done|]. apply IH; unfold engine_call.
  - destruct c; try done; by apply life_step_inv.
  - destruct c; try done; by apply life_step_aborted.
Qed.
Lemma world_ok_step op w : world_ok w → world_ok (world_step op w).
Proof.
  intros [Hi Ha]. split; [by apply world_step_inv|]. pose proof (wi_life _ _ _ Hi) as Hl.
  destruct op as [op|outcome sdp|op]; unfold Attempt.world_step.
  - destruct (allowed op w); [|done]. unfold conn_moves. cbn [life]. case_match.
    + apply engine_calls_aborted; [by apply (life_step_inv LCancel)|by apply (life_step_aborted LCancel)].
    + by apply engine_calls_aborted.
  - unfold engine_polled. destruct (session_gate (conn w)) as [i|]; [|done].
    destruct (tasks (conn w) !! i) as [t|]; [|done]. destruct (driver (res (life w))) as [d|] eqn:Hd; [|done].
    destruct (negb _); [done|].
    assert (life_inv (life_poll outcome d (life w)).2 ∧ awaited_aborted (res (life_poll outcome d (life w)).2)) as [Hx Hax].
    { split; [by apply life_poll_inv|]. rewrite life_poll_res by done. by apply engine_step_aborted; [apply Hl|]. }
    destruct (life_poll outcome d (life w)) as [[r|] x]; [|done]. cbn [life] in *. by apply engine_calls_aborted.
  - destruct (callers op); [done|]. by apply life_step_aborted.
Qed.
Lemma world_ok_run l w : world_ok w → world_ok (world_run l w).
Proof. revert w. induction l as [|op l IH]; intros w Hw; [done|]. by apply IH, world_ok_step. Qed.
Lemma world_ok_new q : world_ok (new_world q).
Proof. split; [apply (world_run_inv method ip [] q)|done]. Qed.

(** *** Without any help *)
Definition reaches w w' : Prop := ∃ l, Forall (λ op, unattended op = true) l ∧ world_run l w = w'.
Lemma reaches_refl w : reaches w w.
Proof. by exists []. Qed.
Lemma reaches_trans w1 w2 w3 : reaches w1 w2 → reaches w2 w3 → reaches w1 w3.
Proof.
  intros (l1 & H1 & <-) (l2 & H2 & <-). exists (l1 ++ l2). split; [by apply Forall_app|apply foldl_app].
Qed.
Lemma reaches_step op w : unattended op = true → reaches w (world_step op w).
Proof. intros Hop. exists [op]. by split; [constructor|]. Qed.
Lemma reaches_ok w w' : reaches w w' → world_ok w → world_ok w'.
Proof. intros (l & _ & <-). apply world_ok_run. Qed.
Lemma reaches_life l w :
  Forall (λ o, background o = true) l → reaches w {| conn := conn w; life := life_run l (life w) |}.
Proof.
  revert w. induction l as [|o l IH]; intros w Hl; [destruct w; apply reaches_refl|].
  apply Forall_cons in Hl as [Hb Hl]. assert (callers o = false) as Ho by by destruct o.
  eapply reaches_trans; [by apply (reaches_step (WLife o))|].
  unfold Attempt.world_step. rewrite Ho. exact (IH {| conn := conn w; life := life_step o (life w) |} Hl).
Qed.

(** *** The holder of the gate moves on *)
Section holder.
Context (w : World C) (i : nat) (t : Task).
Context (Hw : world_ok w) (Hg : session_gate (conn w) = Some i) (Ht : tasks (conn w) !! i = Some t).

Lemma conn_allowed op :
  unattended (WConn op) = true → allowed op w = true →
  ∃ w', reaches w w' ∧ conn w' = conn_step op (conn w).
Proof.
  intros Hu Ha. exists (world_step (WConn op) w). split; [by apply reaches_step|].
  unfold Attempt.world_step. by rewrite Ha.
Qed.
(** It awaits a close of the engine, which returns. *)
Lemma close_returned :
  polls_engine (t_pc t) = true → driving (t_pc t) = Some false →
  ∃ w', reaches w w' ∧ conn w' = conn_step (drive_op i (Ok "") t) (conn w).
Proof.
  intros Hp Hd.
  assert (∀ w1, reaches w w1 → conn w1 = conn w → driver (res (life w1)) = Some DClose) as Hdrv.
  { intros w1 Hr Hc. pose proof (wi_driver _ _ _ (wo_inv _ (reaches_ok _ _ Hr Hw))) as Hk.
    rewrite Hc, (driver_at _ i t), Hd in Hk by done. by destruct (driver _) as [[]|]. }
  assert (∃ w1 c, reaches w w1 ∧ conn w1 = conn w ∧ close_task (res (life w1)) = Some c) as (w1 & c & Hr1 & Hc1 & Hcl).
  { destruct (close_task (res (life w))) as [c|] eqn:Hc; [exists w, c; by split; [apply reaches_refl|]|].
    exists (world_step (WPoll None "") w), CloseStart. split; [by apply reaches_step|].
    unfold Attempt.world_step, engine_polled. rewrite Hg, Ht, Hdrv, Hp by (done || apply reaches_refl). cbn [negb].
    unfold life_poll, driver_poll, close_poll. by rewrite Hc. }
  pose proof (reaches_ok _ _ Hr1 Hw) as [Hi1 Ha1].
  destruct (close_ends (life w1) c (wi_life _ _ _ Hi1) Ha1 Hcl) as (l & Hl & Hdone).
  set (w2 := {| conn := conn w1; life := life_run l (life w1) |}).
  assert (reaches w w2) as Hr2 by by eapply reaches_trans; [exact Hr1|apply reaches_life].
  exists (world_step (WPoll None "") w2). split; [by eapply reaches_trans; [exact Hr2|apply reaches_step]|].
  unfold Attempt.world_step, engine_polled. rewrite (Hdrv w2 Hr2 Hc1). cbn [w2 conn]. rewrite Hc1, Hg, Ht, Hp. cbn [negb].
  unfold life_poll, driver_poll, close_poll. unfold w2. cbn [life]. rewrite Hdone. cbn [conn fst].
  f_equal. unfold engine_returned, drive_op. by destruct (t_pc t) as [| | |[] []| | | | | | | |].
Qed.

Lemma holder_lowers :
  ∃ w' op, reaches w w' ∧ conn w' = conn_step op (conn w) ∧ subject op = Some i ∧
    lowers i t (conn w').
Proof.
  assert (holds_gate (t_pc t) = true) as Hh by by apply (ci_gate _ _ _ (wi_conn _ _ _ (wo_inv _ Hw)) i t Ht).
  assert (∀ out w', reaches w w' → conn w' = conn_step (drive_op i out t) (conn w) →
    ∃ w' op, reaches w w' ∧ conn w' = conn_step op (conn w) ∧ subject op = Some i ∧ lowers i t (conn w')) as Hdrive.
  { intros out w' Hr Hc. exists w', (drive_op i out t). split_and!; [done|done| |].
    - unfold drive_op. by destruct (t_pc t) as [| | |[] []| | | | | | | |].
    - rewrite Hc. by apply drive_lowers. }
  destruct (polls_engine (t_pc t)) eqn:Hp.
  - destruct (driving (t_pc t)) as [[]|] eqn:Hd.
    + assert (t_pc t = Running true AtOffer) as Hpc by by destruct (t_pc t) as [| | |[] []| | | | | | | |].
      destruct (conn_allowed (Timeout_ i None)) as (w' & Hr & Hc); [done|done|].
      exists w', (Timeout_ i None). split_and!; [done|done|done|]. rewrite Hc. unfold Connection.conn_step. rewrite Ht.
      unfold task_step. rewrite Hpc. apply lowers_fail; [done|]. rewrite Hpc. simpl. lia.
    + destruct close_returned as (w' & Hr & Hc); [done|done|]. by eapply Hdrive.
    + destruct (polls_driving _ Hp). congruence.
  - destruct (conn_allowed (drive_op i (Err "") t)) as (w' & Hr & Hc).
    + unfold drive_op. by destruct (t_pc t) as [| | |[] []| | | | | | | |].
    + unfold drive_op, allowed. destruct (t_pc t) as [| | |[] []| | | | | | | |] eqn:Hpc; try done;
        by rewrite Ht; simpl; rewrite Hpc.
    + by eapply Hdrive.
Qed.
End holder.

(** A task that runs never waits for the gate again. *)
Lemma task_step_waiting op i t s t' :
  tasks s !! i = Some t → t_pc t ≠ Waiting →
  tasks (task_step method ip op i t s) !! i = Some t' → t_pc t' ≠ Waiting.
Proof.
  intros Ht Hw.
  assert (∀ p s', p ≠ Waiting → tasks s' = tasks s → tasks (goto i p s') !! i = Some t' → t_pc t' ≠ Waiting) as Hgo.
  { intros p s' Hp Hs. simpl. rewrite Hs, list_lookup_alter_eq, Ht. by intros [= <-]. }
  assert (tasks s !! i = Some t' → t_pc t' ≠ Waiting) as Hsame by (intros; by simplify_eq).
  unfold task_step, advance, connect_in_attempt, connect_inner, fail, rollback_connection, run, drop_attempt, finish.
  destruct op, (t_pc t) as [| | |[] []| | | | | | | |]; try exact Hsame; repeat case_match; try exact Hsame;
    by (eapply Hgo; [|done]).
Qed.
Lemma conn_step_waiting op i t s j tj :
  conn_inv method ip s → subject op = Some i → tasks s !! i = Some t → t_pc t ≠ Waiting →
  tasks (conn_step op s) !! j = Some tj → t_pc tj = Waiting → tasks s !! j = Some tj.
Proof.
  intros Hi Hop Ht Hw Hj Hwj. rewrite (conn_step_task method ip op i s t Hop Ht) in Hj.
  pose proof (task_step_waiting op i t s tj Ht Hw) as Hnot.
  destruct (task_step_move method ip op i t s Hi Ht) as [Hs|(b & b' & g & p & cs & Hs & _)]; rewrite Hs in *; [done|].
  destruct (move_lookup _ _ _ _ _ _ _ _ _ _ Ht Hj) as [[-> _]|[_ Hj']]; [by destruct (Hnot Hj)|done].
Qed.

(** The holder gives the gate back, and no task begins to wait. *)
Definition freed w w' : Prop :=
  reaches w w' ∧ session_gate (conn w') = None ∧
  ∀ j tj, tasks (conn w') !! j = Some tj → t_pc tj = Waiting → tasks (conn w) !! j = Some tj.
Lemma holder_frees n w i t :
  world_ok w → session_gate (conn w) = Some i → tasks (conn w) !! i = Some t → (pc_rank (t_pc t) ≤ n)%nat →
  ∃ w', freed w w'.
Proof.
  revert w t. induction n as [|n IH]; intros w t Hw Hg Ht Hr;
    destruct (holder_lowers w i t Hw Hg Ht) as (w1 & op & Hr1 & Hc1 & Hop & p & [Hp Hor] & Hlt); [lia|].
  pose proof (wi_conn _ _ _ (wo_inv _ Hw)) as Hi.
  assert (t_pc t ≠ Waiting) as Hnw.
  { intros Hpc. pose proof (proj2 (ci_gate _ _ _ Hi i t Ht) Hg) as Hh. by rewrite Hpc in Hh. }
  assert (∀ j tj, tasks (conn w1) !! j = Some tj → t_pc tj = Waiting → tasks (conn w) !! j = Some tj) as Hwait.
  { intros j tj. rewrite Hc1. by apply (conn_step_waiting op i t). }
  pose proof (reaches_ok _ _ Hr1 Hw) as Hw1. pose proof (wi_conn _ _ _ (wo_inv _ Hw1)) as Hi1.
  destruct (session_gate (conn w1)) as [k|] eqn:Hg1; [|by exists w1].
  destruct (holds_gate p) eqn:Hhp; [|by destruct Hor].
  assert (k = i) as ->.
  { pose proof (proj1 (ci_gate _ _ _ Hi1 i _ Hp) Hhp). congruence. }
  destruct (IH w1 (with_pc p t) Hw1 Hg1 Hp) as (w2 & Hr2 & Hg2 & Hwait2); [simpl; lia|].
  exists w2. split_and!; [by eapply reaches_trans|done|auto].
Qed.
Lemma gate_frees w : world_ok w → ∃ w', freed w w'.
Proof.
  intros Hw. destruct (session_gate (conn w)) as [i|] eqn:Hg.
  - destruct (ci_holder _ _ _ (wi_conn _ _ _ (wo_inv _ Hw)) i Hg) as [t Ht]. by eapply holder_frees.
  - exists w. by split_and!; [apply reaches_refl| |].
Qed.

(** One after the other the waiting tasks enter, until none is left. *)
Definition all_ended w : Prop :=
  session_gate (conn w) = None ∧ ∀ i t, tasks (conn w) !! i = Some t → ended (t_pc t) = true.
Lemma waiting_enter (l : list nat) w :
  world_ok w → session_gate (conn w) = None →
  (∀ j tj, tasks (conn w) !! j = Some tj → t_pc tj = Waiting → j ∈ l) → ∃ w', reaches w w' ∧ all_ended w'.
Proof.
  revert w. induction l as [|j l IH]; intros w Hw Hg Hl.
  - exists w. split; [apply reaches_refl|]. split; [done|]. intros i t Ht.
    pose proof (ci_gate _ _ _ (wi_conn _ _ _ (wo_inv _ Hw)) i t Ht) as Hgi. rewrite Hg in Hgi.
    pose proof (Hl i t Ht) as Hn. destruct (t_pc t); try done; exfalso; try specialize (Hn eq_refl);
      first [by apply elem_of_nil in Hn | discriminate (proj1 Hgi eq_refl)].
  - assert ((∃ t, tasks (conn w) !! j = Some t ∧ t_pc t = Waiting) ∨
      ∀ t, tasks (conn w) !! j = Some t → t_pc t ≠ Waiting) as [(t & Ht & Hpc)|Hno].
    { destruct (tasks (conn w) !! j) as [t|]; [|by right].
      destruct (t_pc t) eqn:Hpc; first [left; by exists t|right; intros ? [= <-]; by rewrite Hpc]. }
    + set (w1 := world_step (WConn (Acquire j)) w).
      assert (reaches w w1) as Hr1 by by apply reaches_step.
      assert (conn w1 = set_gate (Some j) (goto j (if retries (t_kind t) then Holding else Ready) (conn w))) as Hc1.
      { unfold w1. simpl. rewrite Ht. unfold task_step. by rewrite Hpc, Hg. }
      destruct (gate_frees w1) as (w2 & Hr2 & Hg2 & Hwait); [by eapply reaches_ok|].
      destruct (IH w2) as (w3 & Hr3 & Hend); [by eapply reaches_ok, reaches_ok|done| |].
      * intros k tk Hk Hwk. pose proof (Hwait k tk Hk Hwk) as Hk1. rewrite Hc1 in Hk1. simpl in Hk1.
        apply alter_lookup_Some in Hk1 as (tk0 & Hk0 & Heq). case_decide as Hjk.
        { subst tk. simpl in Hwk. by destruct (retries _). }
        subst tk0. destruct (proj1 (elem_of_cons l k j) (Hl k tk Hk0 Hwk)) as [->|]; done.
      * exists w3. split; [by eapply reaches_trans, reaches_trans|done].
    + apply IH; [done|done|]. intros k tk Hk Hwk.
      destruct (proj1 (elem_of_cons l k j) (Hl k tk Hk Hwk)) as [->|]; [|done]. by destruct (Hno tk Hk).
Qed.

Lemma operations_can_end w : world_ok w → ∃ w', reaches w w' ∧ all_ended w'.
Proof.
  intros Hw. destruct (gate_frees w Hw) as (w1 & Hr1 & Hg1 & _).
  destruct (waiting_enter (seq 0 (length (tasks (conn w1)))) w1) as (w2 & Hr2 & Hend).
  { by eapply reaches_ok. } { done. }
  { intros j tj Hj _. apply elem_of_seq. apply lookup_lt_Some in Hj. lia. }
  exists w2. split; [by eapply reaches_trans|done].
Qed.

(** C18: no session is ever stuck: from every state that calls, cancellations and the
    engine can lead to, whatever is called, half done or being cleaned up, the tasks of
    the runtime and of the peers alone, with the calls that are awaited failing, lead to
    a state in which every operation has ended and the gate is free. *)
Theorem operations_end q l :
  ∃ l', Forall (λ op, unattended op = true) l' ∧ all_ended (world_run (l ++ l') (new_world q)).
Proof.
  destruct (operations_can_end (world_run l (new_world q))) as (w & (l' & Hl' & Hrun) & Hend).
  { apply world_ok_run, world_ok_new. }
  exists l'. split; [done|]. unfold Attempt.world_run in *. by rewrite foldl_app, Hrun.
Qed.

(** ** An abandoned session reaches its end *)
Abbreviation owned := (owned method ip).
Abbreviation own_step := (own_step method ip).
Abbreviation own_run := (own_run method ip).
Implicit Types (o : Owner (C:=C)).

Lemma end_future_world n r o : world (end_future n r o) = world o.
Proof. unfold end_future, release. by destruct (referenced _). Qed.
Lemma auto_reconnect_ok n attempt max_retries o :
  world_ok (world o) → world_ok (world (auto_reconnect method ip n attempt max_retries o)).
Proof.
  intros Ho. unfold auto_reconnect. destruct (attempt <? max_retries); [|by rewrite end_future_world].
  destruct (intentional_disconnect _); [by rewrite end_future_world|].
  exact (world_ok_step (WConn (Spawn (KSession Retry))) _ Ho).
Qed.
Lemma poll_future_ok n f o : world_ok (world o) → world_ok (world (poll_future method ip n f o)).
Proof.
  intros Ho. destruct f as [m|i|a m|a m i| |r]; simpl.
  - destruct m; simpl;
      [exact (world_ok_step (WConn (Spawn (KSession Connect))) _ Ho)
      |exact (world_ok_step (WConn (Spawn (KSession Reconnect))) _ Ho)
      |exact (world_ok_step (WConn (Spawn KDisconnectSession)) _ Ho)|by apply auto_reconnect_ok|done|done].
  - destruct (t_pc <$> _) as [[]|]; try done. by rewrite end_future_world.
  - by apply auto_reconnect_ok.
  - destruct (t_pc <$> _) as [[| | | | | |[]| | | | |]|]; try done. by rewrite end_future_world.
  - by rewrite end_future_world.
  - done.
Qed.
Lemma own_step_ok op o : world_ok (world o) → world_ok (world (own_step op o)).
Proof.
  intros Ho. destruct op as [parent child|k|k m|n|n| |op]; simpl.
  - destruct (objects o !! parent); [|done]. by destruct (decide _).
  - destruct (objects o !! k); [|done]. unfold release. by destruct (referenced _).
  - destruct (objects o !! k) as [ob|]; [|done]. by destruct (methods ob m).
  - destruct (futures o !! n); [|done]. by apply poll_future_ok.
  - destruct (futures o !! n) as [f|]; [|done]. unfold cancel_future. destruct (awaited f) as [i|].
    + destruct (t_pc <$> _) as [p|]; [|done]. destruct (cancellable p); [|done].
      rewrite end_future_world. exact (world_ok_step (WConn (DropFuture i)) _ Ho).
    + destruct (live_future f); [|done]. by rewrite end_future_world.
  - destruct (cleanup o) as [[i|]|]; [done| |done].
    exact (world_ok_step (WConn (Spawn KDisconnectSession)) _ Ho).
  - destruct (owned_op op); [done|]. by apply world_ok_step.
Qed.
Lemma owned_ok q l : world_ok (world (owned q l)).
Proof.
  unfold Ownership.owned. assert (world_ok (world (new_owner q : Owner (C:=C)))) as Ho by apply world_ok_new.
  revert Ho. generalize (new_owner q : Owner (C:=C)). induction l as [|op l IH]; intros o Ho; [done|].
  by apply IH, own_step_ok.
Qed.

(** Python does nothing any more. *)
Definition unowned (op : @own_op C) : bool :=
  match op with OCleanup => true | OWorld op => unattended op | _ => false end.
Lemma own_run_world l o :
  Forall (λ op, unattended op = true) l → own_run (OWorld <$> l) o = with_world (world_run l (world o)) o.
Proof.
  revert o. induction l as [|op l IH]; intros o Hl; [by destruct o|]. apply Forall_cons in Hl as [Hop Hl].
  change (own_run (OWorld <$> op :: l) o) with (own_run (OWorld <$> l) (own_step (OWorld op) o)).
  rewrite IH by done. unfold unattended in Hop. apply negb_true_iff in Hop. simpl. by rewrite Hop.
Qed.
(** The clean-up task is polled for the first time, if there is one. *)
Lemma cleanup_begins o :
  ∃ l, Forall (λ op, unowned op = true) l ∧ cleanup (own_run l o) ≠ Some None ∧
    referenced (own_run l o) = referenced o.
Proof.
  destruct (decide (cleanup o = Some None)) as [Hc|Hc].
  - exists [OCleanup]. split; [by repeat constructor|]. simpl. rewrite Hc. by split.
  - exists []. by split_and!.
Qed.

(** C19: an abandoned session reaches its end: when nothing refers to it any more,
    whatever was called, cancelled or half done before, the clean-up that its drop
    spawned and the tasks of the runtime and of the peers alone, with the calls that are
    awaited failing, lead to a state in which every operation has ended, the service is
    disconnected, and everything the engine ever created has ended and is closed. *)
Theorem abandoned_session_ends q l :
  referenced (owned q l) = false →
  ∃ l', Forall (λ op, unowned op = true) l' ∧
    let o := owned q (l ++ l') in
    cleanup o ≠ Some None ∧ (∀ i t, session_operations o !! i = Some t → ended (t_pc t) = true) ∧
    is_connected (conn (world o)) = false ∧ clean (res (life (world o))) ∧
    Engine.ready_state (rtc (life (world o))) = "closed".
Proof.
  intros Hr. destruct (cleanup_begins (owned q l)) as (l1 & Hl1 & Hc1 & Hr1). rewrite Hr in Hr1.
  assert (own_run l1 (owned q l) = owned q (l ++ l1)) as Ho1.
  { unfold Ownership.owned, Ownership.own_run. by rewrite foldl_app. }
  rewrite Ho1 in *. destruct (operations_can_end _ (owned_ok q (l ++ l1))) as (w & (l2 & Hl2 & Hrun) & Hg & Hend).
  exists (l1 ++ (OWorld <$> l2)). split.
  { apply Forall_app. split; [done|]. by apply Forall_fmap. }
  assert (owned q (l ++ l1 ++ (OWorld <$> l2)) = with_world w (owned q (l ++ l1))) as Ho.
  { rewrite app_assoc. unfold Ownership.owned at 1, Ownership.own_run. rewrite foldl_app.
    fold (own_run (l ++ l1) (new_owner q)). fold (owned q (l ++ l1)).
    fold (own_run (OWorld <$> l2) (owned q (l ++ l1))). by rewrite own_run_world, Hrun. }
  pose proof (owned_inv method ip q (l ++ l1 ++ (OWorld <$> l2))) as Hi. cbv zeta. rewrite Ho in *.
  unfold own_inv in Hi. assert (referenced (with_world w (owned q (l ++ l1))) = false) as Hr2 by done. rewrite Hr2 in Hi.
  destruct (gone_closed method ip _ Hi) as (H1 & H2 & H3 & _); [done|exact Hend|]. by split_and!.
Qed.
End completion.

(** ** The future of a connect is dropped with the last object, in the middle of signaling *)
#[local] Existing Instance demo_json.
Lemma abandoned_session_ends_witness :
  ∃ l', let o := demo_owner (demo_connecting ++ [OCancel 0] ++ l') in
    is_connected (conn (world o)) = false ∧ clean (res (life (world o))).
Proof.
  destruct (abandoned_session_ends LocalAP None (bounded 8 : vec_chan IngressMessage) (demo_connecting ++ [OCancel 0]))
    as (l' & _ & _ & _ & H1 & H2 & _); [vm_compute; reflexivity|].
  exists l'. unfold demo_owner. rewrite app_assoc. split; [exact H1|exact H2].
Defined.
