(* ===== verification/Media.v ===== *)
(** * From the peer to Python: the media tasks, the workers and the dispatcher on one channel

    [Peer] starts a task of [Video] or [AudioReceive] for each track, [Lidar] has a
    pool of workers, the router of [Service] sends messages, and the one dispatcher
    of [Callbacks] takes what they send.  This file runs them all, in any
    interleaving, on the one channel of [Events] they share, and shows that what each
    component promises is what the next one relies on. *)
From S2P Require Import Prelude Floats Json Channel Events Diagnostics Lidar PyJson Video AudioReceive Callbacks.
#[local] Open Scope Z_scope.

Section media.
Context {C : Type → Type} `{Chan C} `{Layout} `{Lz4} `{Opus}.

(** Every task keeps the sender of the generation its peer was prepared for. *)
Record Media := {
  videos : list (EventSender * VideoHandler C);
  audios : list (EventSender * AudioHandler);
  workers : list WorkerState;
  dispatcher : Dispatcher (C:=C);
}.

Inductive media_op :=
  | SpawnVideo (tx : EventSender) (created : bool)
  | SpawnAudio (tx : EventSender)
  | VideoTask (i : nat) (o : video_op)
  | AudioTask (i : nat) (o : audio_op)
  | LidarWorker (i : nat) (req : LidarDecodeRequest) (now : Z)
  | Python (o : dispatcher_op).

(** Work of a task leaves the dispatcher as it is, but for the channel they share. *)
Definition share (ch : Events C) (m : Media) : Media :=
  {| videos := videos m; audios := audios m; workers := workers m;
     dispatcher := with_events ch (dispatcher m) |}.
Definition with_videos (l : list (EventSender * VideoHandler C)) (m : Media) : Media :=
  {| videos := l; audios := audios m; workers := workers m; dispatcher := dispatcher m |}.
Definition with_audios (l : list (EventSender * AudioHandler)) (m : Media) : Media :=
  {| videos := videos m; audios := l; workers := workers m; dispatcher := dispatcher m |}.
Definition with_workers (l : list WorkerState) (m : Media) : Media :=
  {| videos := videos m; audios := audios m; workers := l; dispatcher := dispatcher m |}.
Definition with_dispatcher (d : Dispatcher (C:=C)) (m : Media) : Media :=
  {| videos := videos m; audios := audios m; workers := workers m; dispatcher := d |}.

(** A worker's look at the generation and its send are one step here: the send
    looks again, so what happens in between only decides how a drop is counted. *)
Definition media_step (o : media_op) (m : Media) : Media :=
  let ch := events (dispatcher m) in
  match o with
  | SpawnVideo tx created => with_videos (videos m ++ [(tx, spawn_video_handler created)]) m
  | SpawnAudio tx =>
      match spawn_audio_handler with
      | Some h => with_audios (audios m ++ [(tx, h)]) m
      | None => m
      end
  | VideoTask i o =>
      match videos m !! i with
      | Some (tx, h) =>
          let '(h, ch) := video_step tx o (h, ch) in
          share ch (with_videos (<[i := (tx, h)]> (videos m)) m)
      | None => m
      end
  | AudioTask i o =>
      match audios m !! i with
      | Some (tx, h) =>
          let '(h, ch) := audio_step tx o (h, ch) in
          share ch (with_audios (<[i := (tx, h)]> (audios m)) m)
      | None => m
      end
  | LidarWorker i req now =>
      match workers m !! i with
      | Some w =>
          let '(w, ch) := worker_step req [] now w ch in
          share ch (with_workers (<[i := w]> (workers m)) m)
      | None => m
      end
  | Python o => with_dispatcher (dispatcher_step o (dispatcher m)) m
  end.
Definition media_run (l : list media_op) (m : Media) : Media := foldl (λ m o, media_step o m) m l.
Definition new_media (n : nat) (ch : Events C) (r : Callbacks) : Media :=
  {| videos := []; audios := []; workers := replicate n worker_default;
     dispatcher := new_dispatcher ch r |}.

(** ** What each component sends *)
Definition formed (event : CallbackEvent) : Prop :=
  convertible event ∧
  match event with
  | AudioFrame data rate ch => rate = 48000 ∧ ch = 2 ∧ 0 < len data ≤ 11520 ∧ len data mod 2 = 0
  | _ => True
  end.
Definition sent (ch ch' : Events C) : Prop :=
  ch' = ch ∨ ∃ s seen event, formed event ∧ ch' = (try_send s seen event ch).2.

(** The tasks do nothing on behalf of other threads, the samples have the types
    GStreamer gives them, and what the service sends itself are messages. *)
Definition media_op_typed (o : media_op) : Prop :=
  match o with
  | VideoTask _ (Video.Others _) | AudioTask _ (Others _) => False
  | VideoTask _ o => video_op_typed o
  | Python (Send _ _ (TopicCallback _ _)) => True
  | Python (Send _ _ _) => False
  | _ => True
  end.

Lemma video_step_sent tx o h ch :
  video_op_typed o → (∀ o', o ≠ Video.Others o') → frames_ok (Video.decoder h) →
  frames_ok (Video.decoder (video_step tx o (h, ch)).1) ∧ sent ch (video_step tx o (h, ch)).2.
Proof.
  intros Hty Ho Hf. destruct o as [|p i seen| |o|o]; [| | | |by destruct (Ho o)]; simpl in *.
  - destruct (Video.running h); [|by split; [|left]].
    pose proof (check_health_frames (Video.decoder h)) as Hc.
    destruct (check_health (Video.decoder h)) as [[]d]; (split; [|by left]);
      unfold frames_ok; simpl in *; by rewrite Hc.
  - destruct (Video.running h); [|by split; [|left]]. unfold on_packet.
    destruct (H264.process_rtp_packet _ _ _ _) as [[nal|] r]; [|by split; [|left]].
    destruct (decode_frames nal i (Video.decoder (with_reassembler r h)) Hty Hf) as [Hf' Hok].
    destruct (Video.decode nal i _) as [[[f|]|e] d]; simpl in *; [|by split; [|left]..].
    specialize (Hok f eq_refl). unfold deliver.
    set (event := VideoFrame _ _ _).
    assert (sent ch (try_send tx seen event ch).2) as Hsent by (right; by exists tx, seen, event).
    by destruct (try_send tx seen event ch) as [[|[]] ch'].
  - by destruct (Video.running h); (split; [|left]).
  - split; [by apply stream_step_frames|by left].
Qed.

Lemma audio_step_sent tx o h ch :
  (∀ o', o ≠ Others o') → dec_wf 48000 2 (h_decoder h) →
  dec_wf 48000 2 (h_decoder (audio_step tx o (h, ch)).1) ∧ sent ch (audio_step tx o (h, ch)).2.
Proof.
  intros Ho Hwf. destruct o as [data seen| |o]; [| |by destruct (Ho o)]; simpl; [|by split; [|left]].
  destruct (AudioReceive.running h); [|by split; [|left]]. unfold on_payload.
  pose proof (decode_wf 48000 2 data _ Hwf) as Hwf'.
  pose proof (decoded_shaped (h_decoder h) data) as Hsh.
  destruct (decode data (h_decoder h)) as [[audio|e] d]; simpl in *; [|by split; [|left]].
  destruct (len (da_data audio) =? 0) eqn:Hz; [by split; [|left]|].
  set (event := AudioFrame _ _ _).
  assert (sent ch (try_send tx seen event ch).2) as Hsent.
  { right. exists tx, seen, event. split; [|done]. split; [done|]. apply Hsh; [done..|lia]. }
  by destruct (try_send tx seen event ch) as [[|[]] ch'].
Qed.

Hypothesis lz4_bytes : ∀ data size out, lz4_decompress data size = Ok out → Forall is_byte out.

Lemma worker_step_sent req now w ch : sent ch (worker_step req [] now w ch).2.
Proof.
  destruct (worker_step_channel req [] now w ch) as [->|[->|(points & Hd & ->)]]; [by left..|].
  right. eexists _, _, _. split; [|done]. split; [|done]. simpl.
  apply decode_lidar_length in Hd as [n ->]; [|done]. by rewrite Z.mul_comm, Z_mod_mult.
Qed.

(** ** The invariant *)
Definition sent_formed (event : CallbackEvent) (g : Z) : Prop := formed event.
Record media_inv (m : Media) : Prop := {
  mi_videos : Forall (λ t, frames_ok (Video.decoder t.2)) (videos m);
  mi_audios : Forall (λ t, dec_wf 48000 2 (h_decoder t.2)) (audios m);
  mi_dispatcher : disp_inv sent_formed (dispatcher m);
  mi_failures : no_failure (failures (dispatcher m));
}.

(** To the dispatcher, what a task does is one send, or nothing. *)
Lemma share_inv ch m :
  media_inv m → sent (events (dispatcher m)) ch →
  disp_inv sent_formed (dispatcher (share ch m)) ∧ no_failure (failures (dispatcher (share ch m))).
Proof.
  intros [_ _ Hd Hf] Hs. split; [|done]. destruct Hs as [->|(s & seen & event & He & ->)].
  - by apply (disp_inv_move _ (dispatcher m)); try apply Hd.
  - by apply (dispatcher_step_inv _ (Send s seen event)).
Qed.

Lemma media_step_inv o m : media_op_typed o → media_inv m → media_inv (media_step o m).
Proof.
  intros Hty Hm. pose proof Hm as [Hv Ha Hd Hf].
  destruct o as [tx created|tx|i o|i o|i req now|o]; cbn [media_step media_op_typed] in *.
  - split; simpl; try done. apply Forall_app_2; [done|]. constructor; [|done].
    apply spawn_video_frames.
  - destruct spawn_audio_handler as [h|] eqn:Hh; [|done]. split; simpl; try done.
    apply Forall_app_2; [done|]. constructor; [|done]. by apply spawn_audio_wf.
  - destruct (videos m !! i) as [[tx h]|] eqn:Hi; [|done].
    pose proof (Forall_lookup_1 _ _ _ _ Hv Hi) as Hh.
    destruct (video_step_sent tx o h (events (dispatcher m))) as [Hh' Hs]; [by destruct o|by destruct o|done|].
    destruct (video_step tx o _) as [h' ch]. destruct (share_inv ch m Hm Hs).
    split; simpl; try done. by apply Forall_insert.
  - destruct (audios m !! i) as [[tx h]|] eqn:Hi; [|done].
    pose proof (Forall_lookup_1 _ _ _ _ Ha Hi) as Hh.
    destruct (audio_step_sent tx o h (events (dispatcher m))) as [Hh' Hs]; [by destruct o|done|].
    destruct (audio_step tx o _) as [h' ch]. destruct (share_inv ch m Hm Hs).
    split; simpl; try done. by apply Forall_insert.
  - destruct (workers m !! i) as [w|]; [|done].
    pose proof (worker_step_sent req now w (events (dispatcher m))) as Hs.
    destruct (worker_step req [] now w _) as [w' ch]. destruct (share_inv ch m Hm Hs). by split.
  - split; simpl; try done.
    + apply dispatcher_step_inv; [|done]. destruct o as [| | | |s seen []|]; done.
    + destruct o; simpl; try done. apply (dispatch_no_failure sent_formed); [|done..].
      by intros event g [].
Qed.
Lemma media_run_inv l m : Forall media_op_typed l → media_inv m → media_inv (media_run l m).
Proof.
  intros Hl. revert m. induction Hl as [|o l Ho _ IH]; intros m Hm; [done|].
  by apply IH, media_step_inv.
Qed.

(** ** What a callback is called with *)
Definition argument_formed (key : string) (arg : Argument) : Prop :=
  match arg with
  | PyFrame frame =>
      key = "video" ∧ ∃ height width, 0 < height ∧ 0 < width ∧
        shape frame = [height; width; 3] ∧ len (elements frame) = height * width * 3 ∧
        len (elements frame) ≤ MAX_VIDEO_BUFFER_BYTES
  | PySamples samples => key = "audio" ∧ 0 < len samples ≤ 11520 ∧ len samples mod 2 = 0
  | PyLidar _ | PyJsonObject _ => True
  end.
Lemma formed_argument key arg g : argument_ok sent_formed key arg g → argument_formed key arg.
Proof.
  intros (event & kind & [Hc Hf] & Ht & Ha). destruct event as [| |data w h|data rate n|]; simpl in *; simplify_eq/=;
    try done.
  - destruct (reshape points _); by simplify_eq/=.
  - destruct Hc as (Hw & Hh & Hl & Hm). unfold reshape in Ha. destruct (_ =? _); simplify_eq/=.
    split; [done|]. exists h, w. split_and!; try done; lia.
  - by destruct Hf as (_ & _ & ?).
Qed.

(** C27: from the RTP packets to Python, with any number of peers, tracks and workers
    and in any interleaving: no conversion of an event fails, every picture a callback
    gets is an array of height by width by three bytes, every audio argument holds whole
    stereo samples of at most 120 ms, and each comes under its own key. *)
Theorem media_reaches_callbacks capacity s ch n r l :
  event_channel capacity = Ok (s, ch) → Forall media_op_typed l →
  let d := dispatcher (media_run l (new_media n ch r)) in
  conversion (failures d) = replicate 9 repeat_default ∧
  Forall (λ c, argument_formed (c_key c) (c_argument c)) (calls d).
Proof.
  intros Hch Hl. apply event_channel_inv in Hch as (Hi & _ & _ & Hlive).
  destruct (media_run_inv l (new_media n ch r) Hl) as [_ _ Hd Hf].
  { split; simpl; try done. by apply new_dispatcher_inv. }
  split; [exact Hf|]. eapply Forall_impl; [apply Hd|]. intros c. apply formed_argument.
Qed.
End media.

(** ** An execution: a picture and a packet of audio, each to its callback *)
#[local] Existing Instance exact_layout.
#[local] Existing Instance ones_lz4.
#[local] Existing Instance toy_opus.

Definition demo_media_ops : list media_op :=
  [Python (Register "video" 5%nat); Python (Register "audio" 6%nat);
   SpawnVideo tx0 true; SpawnAudio tx0; VideoTask 0 demo_packet; AudioTask 0 (Payload [7; 8] 0);
   LidarWorker 0 demo_request 0] ++
  replicate 12 (Python (Dispatch 0 true None)).
Definition demo_media : Media (C:=vec_chan) :=
  media_run demo_media_ops (new_media 1 (set_generation 0 demo_channel) new_callbacks).

Example demo_media_calls :
  (λ c, (c_key c, callback (c_target c), c_argument c)) <$> calls (dispatcher demo_media) =
    [("audio", 6%nat, PySamples [7; 7; 8; 8]);
     ("video", 5%nat, PyFrame {| shape := [2; 2; 3]; elements := [1; 2; 3; 4; 5; 6; 7; 8; 9; 10; 11; 12] |})].
Proof. by vm_compute. Qed.

Lemma media_reaches_callbacks_witness :
  conversion (failures (dispatcher demo_media)) = replicate 9 repeat_default ∧
  Forall (λ c, argument_formed (c_key c) (c_argument c)) (calls (dispatcher demo_media)).
Proof.
  apply (media_reaches_callbacks (C:=vec_chan) ones_lz4_bytes 8 tx0 (set_generation 0 demo_channel) 1
    new_callbacks demo_media_ops); [reflexivity|].
  unfold demo_media_ops. apply Forall_app. split; [|by apply Forall_replicate].
  repeat (constructor; [done|]). constructor; [|by repeat constructor].
  cbn [media_op_typed demo_packet video_op_typed]. unfold interference_typed, demo_interference. simpl.
  repeat (apply List.Forall_cons; [exact I || exact demo_sample_typed|]). apply List.Forall_nil.
Defined.
