(* ===== verification/System.v ===== *)
(** * The data channel service over the RTC engine

    [Service] is verified over any [DataChannelPort]; here the port is the engine, as
    the session assembles them: the router takes what the engine's peers received
    from the queue they share, and the engine's own tasks and callbacks run between
    any two calls of the service.  The theorem is the isolation of sessions across
    both components, in both directions of the wire. *)
From S2P Require Import Prelude Floats Json Ingress Channel Events Security Ports Service ServiceProps Lidar.
From S2P Require Import Engine EngineProps.
#[local] Open Scope Z_scope.

(** ** What the service does to its port *)
Section port.
Context {C : Type → Type} `{Chan C} `{Layout} `{JsonReader} `{SerdeJson} `{Crypto}.
Context {T : Type} `{DataChannelPort T}.
Implicit Types (s : Service C T).

(** One use of the port, or none: a command is only sent while the channel is open,
    and a generation is only set to the service's own session. *)
Inductive port_step s s' : Prop :=
  | ps_idle : transport s' = transport s → session_id s' = session_id s → port_step s s'
  | ps_send text :
      Ports.ready_state (transport s) = "open" →
      transport s' = (Ports.send_text text (transport s)).2 → session_id s' = session_id s →
      port_step s s'
  | ps_generation :
      transport s' = (Ports.set_ingress_generation (session_id s') (transport s)).2 → port_step s s'
  | ps_fault :
      transport s' = (Ports.take_transport_error (transport s)).2 → session_id s' = session_id s →
      port_step s s'.
Definition port_steps : Service C T → Service C T → Prop := rtc port_step.
#[local] Instance port_steps_preorder : PreOrder port_steps.
Proof. unfold port_steps. apply _. Qed.

Definition idle s s' : Prop := transport s' = transport s ∧ session_id s' = session_id s.
Lemma idle_steps s s' : idle s s' → port_steps s s'.
Proof. intros []. by apply rtc_once, ps_idle. Qed.
Lemma idle_trans s1 s2 s3 : idle s1 s2 → idle s2 s3 → idle s1 s3.
Proof. intros [] []. split; congruence. Qed.

(** *** Requests and chunks leave the port alone *)
Lemma fail_pending_idle key error s : idle s (fail_pending key error s).
Proof. unfold fail_pending. by destruct (pending_callbacks _ !! key). Qed.
Lemma resolve_idle key message s : idle s (resolve_pending_response key message s).
Proof. unfold resolve_pending_response. by destruct (pending_callbacks _ !! key). Qed.
Lemma insert_chunk_idle key metadata payload path now s :
  idle s (insert_chunk key metadata payload path now s).2.
Proof. unfold insert_chunk. destruct (_ ≫= _) as [[[? ?] ?]|]; [|done]. by destruct (Chunks.insert _ _ _ _ _ _ _). Qed.
Lemma run_resolve_idle message e s : idle s (run_resolve message e s).
Proof.
  unfold run_resolve. destruct (get message "type"); [|done]. unfold handle_chunked_response.
  destruct (chunk_location message) as [[[metadata payload] path]|]; [|apply resolve_idle].
  pose proof (insert_chunk_idle (incoming_key message) metadata payload path (instant e) s) as Hi.
  destruct (insert_chunk _ _ _ _ _ s) as [[[b|]|error] s1]; simpl in Hi.
  - destruct (_ <? len b); (eapply idle_trans; [exact Hi|]); [apply fail_pending_idle|apply resolve_idle].
  - done.
  - eapply idle_trans; [exact Hi|].
    eapply (idle_trans _ (remove_chunks (incoming_key message) s1)); [done|apply fail_pending_idle].
Qed.
Lemma dispatch_idle message e s : idle s (dispatch_subscription message e s).
Proof.
  split; [|apply dispatch_frame]. unfold dispatch_subscription. destruct (seqb _ ""); [done|].
  pose proof (should_process_frame (default "" (get message "topic" ≫= as_str)) (secs_dispatch e) s)
    as (_ & Ht & _).
  destruct (should_process _ _ s) as [[] s1]; simpl in *; [|done].
  destruct (negb (bool_decide _)); [done|]. destruct (try_send _ _ _ _) as [res ch].
  by destruct (is_err res).
Qed.
Lemma reject_idle message reason e s : idle s (reject_binary_response message reason e s).
Proof.
  unfold reject_binary_response.
  eapply (idle_trans _ (remove_chunks (incoming_key message) s)); [done|apply fail_pending_idle].
Qed.
Lemma process_binary_idle fr json data e s : idle s (process_binary_payload fr json data e s).2.
Proof.
  unfold process_binary_payload.
  pose proof (should_process_frame (topic_or_type json) (secs_binary e) s) as ([_ Hs] & Ht & _).
  destruct (get json "data" ≫= from_json) as [meta|].
  - destruct (_ <? len data); [apply reject_idle|].
    destruct (negb (seqb _ _)); [apply reject_idle|].
    destruct (should_process _ _ s) as [[] s1]; simpl in *; [|done].
    destruct (submit _ _) as [[[]|error] q]; [done|].
    eapply (idle_trans _ (with_routing (with_lidar_queue q (routing s1)) s1)); [done|apply fail_pending_idle].
  - destruct (lidar_intent fr json); [apply reject_idle|]. destruct (_ <? len data).
    + eapply (idle_trans _ (remove_chunks (incoming_key json) s)); [done|apply fail_pending_idle].
    + by destruct (should_process _ _ s) as [[] s1].
Qed.
Lemma deal_array_buffer_idle data e s : idle s (deal_array_buffer data e s).2.
Proof.
  unfold deal_array_buffer. destruct (_ <? len data); [done|].
  destruct (Framing.parse data) as [[[fr h] p]|]; [apply process_binary_idle|done].
Qed.
Lemma expire_chunks_idle now s : idle s (expire_chunks now s).
Proof.
  unfold expire_chunks. destruct (Chunks.expire _ _) as [expired a].
  eapply (idle_trans _ (with_requests (with_chunks a (requests s)) s)); [done|].
  generalize (with_requests (with_chunks a (requests s)) s).
  induction expired as [|key l IH]; intros s'; [done|].
  eapply idle_trans; [apply fail_pending_idle|apply IH].
Qed.

(** *** Methods that send *)
Lemma send_port topic data ty now s : port_steps s (send_message_locked topic data ty now s).2.
Proof.
  unfold send_message_locked. destruct (seqb _ _) eqn:Ho; simpl; [|done]. apply String.eqb_eq in Ho.
  destruct (json_to_string _) as [text|]; [|done].
  destruct (Ports.send_text text (transport s)) as [res t] eqn:Hsend.
  apply rtc_once, (ps_send _ _ text); [done| |]; rewrite ?Hsend; by destruct (is_err res).
Qed.
Lemma answer_validation_port key e s : port_steps s (answer_validation key e s).
Proof. unfold answer_validation. destruct (encrypt_key key); [apply send_port|done]. Qed.
Lemma handle_text_port message e s : port_steps s (handle_text_response message e s).
Proof.
  unfold handle_text_response. destruct (seqb _ _).
  { unfold handle_validation. destruct (decide _).
    - set (s1 := set_last_response _ _).
      etrans; [by apply (idle_steps s s1)|].
      etrans; [apply (idle_steps s1 (start_heartbeat_in_session s1))|].
      { unfold start_heartbeat_in_session. by destruct (heartbeat_running (link s1)). }
      unfold request_network_status_once. destruct (network_probe_running _); [done|].
      etrans; [|apply send_port]. by apply idle_steps.
    - destruct (get message "data" ≫= as_str) as [key|]; [|done].
      etrans; [|apply answer_validation_port]. by apply idle_steps. }
  destruct (seqb _ _).
  { unfold handle_rtc_inner_req. destruct (get message "info") as [info|]; [|done].
    set (s1 := if decide _ then _ else s).
    assert (port_steps s s1) as Hs by (unfold s1; destruct (decide _); [apply send_port|done]).
    destruct (get info "status" ≫= as_str) as [st|]; [|done]. destruct (_ || _); [|done].
    etrans; [exact Hs|]. by apply idle_steps. }
  destruct (seqb _ _); [by apply idle_steps|]. destruct (_ || _ || _); [done|].
  destruct (seqb _ _); [|done]. unfold handle_validation_err. destruct (decide _); [|done].
  destruct (seqb _ _); [done|apply answer_validation_port].
Qed.

(** *** Methods that move the session *)
Lemma next_session_port s : port_steps s (next_session s).2.
Proof.
  unfold next_session. set (g := wrapping_add 64 (session_id s) 1).
  destruct (Ports.set_ingress_generation g (transport s)) as [res t] eqn:Hg.
  apply rtc_once, ps_generation. cbn [snd].
  assert (session_id (with_transport t (set_session_id g s)) = g) as -> by done. by rewrite Hg.
Qed.
Lemma start_new_session_port s : port_steps s (start_new_session s).
Proof.
  unfold start_new_session. set (s1 := with_diagnostics _ s).
  etrans; [by apply (idle_steps s s1)|]. etrans; [apply next_session_port|]. by apply idle_steps.
Qed.
Lemma process_ingress_port message e s : port_steps s (process_ingress message e s).
Proof.
  unfold process_ingress. destruct (negb _); [done|].
  destruct (im_payload message) as [text|binary|error].
  - destruct (parse_json _) as [parsed|]; [|by apply idle_steps].
    etrans; [apply idle_steps, run_resolve_idle|]. etrans; [apply handle_text_port|].
    apply idle_steps, dispatch_idle.
  - pose proof (deal_array_buffer_idle binary e s) as Hd.
    destruct (deal_array_buffer binary e s) as [[parsed|] s1]; simpl in Hd; [|by apply idle_steps].
    etrans; [by apply idle_steps, Hd|]. etrans; [apply idle_steps, run_resolve_idle|].
    apply idle_steps, dispatch_idle.
  - pose proof (next_session_port s) as Hn. destruct (next_session s) as [res s1].
    etrans; [exact Hn|]. by destruct (is_err res); apply idle_steps.
Qed.
Lemma router_port incoming e s : port_steps s (router_step incoming e s).
Proof.
  unfold router_step. destruct (Ports.take_transport_error (transport s)) as [fault t] eqn:Hf.
  etrans; [apply rtc_once, (ps_fault s (with_transport t s)); [by rewrite Hf|done]|].
  set (s1 := with_transport t s).
  assert (port_steps s1 match fault with Some f => process_ingress f e s1 | None => s1 end)
    as Hs by (destruct fault; [apply process_ingress_port|done]).
  etrans; [exact Hs|]. etrans; [apply idle_steps, expire_chunks_idle|].
  destruct incoming; [apply process_ingress_port|done].
Qed.

Lemma publish_begin_port topic data ty timeout exp now s :
  port_steps s (publish_begin topic data ty timeout exp now s).2.
Proof.
  unfold publish_begin. destruct (validated_timeout _ now); [|done]. destruct (negb _); [done|].
  destruct (pending_callbacks _ !! _); [done|]. destruct (_ <=? _); [done|].
  set (s1 := with_requests _ s).
  pose proof (send_port topic data (default types.msg ty) now s1) as Hs.
  destruct (send_message_locked _ _ _ _ s1) as [[[]|error] s2]; simpl in *;
    (etrans; [by apply (idle_steps s s1)|]); [done|].
  etrans; [exact Hs|]. apply idle_steps. unfold guard_drop.
  destruct (pending_callbacks _ !! _); [|done]. by destruct (_ =? _).
Qed.
Lemma publish_request_port topic options timeout now s :
  port_steps s (publish_request_new topic options timeout now s).2.
Proof.
  unfold publish_request_new. destruct (get options "api_id" ≫= as_i64); [|done].
  destruct (get options "id" ≫= as_i64); simpl; [apply publish_begin_port|].
  etrans; [|apply publish_begin_port]. by apply idle_steps.
Qed.
Lemma subscribe_port topic now s : port_steps s (subscribe topic now s).2.
Proof.
  unfold subscribe. pose proof (send_port topic None types.subscribe now s) as Hs.
  destruct (send_message_locked _ _ _ _ s) as [[[]|error] s1]; [|done].
  etrans; [exact Hs|]. by apply idle_steps.
Qed.
Lemma unsubscribe_port topic now s : port_steps s (unsubscribe topic now s).2.
Proof.
  unfold unsubscribe. pose proof (send_port topic None types.unsubscribe now s) as Hs.
  destruct (send_message_locked _ _ _ _ s) as [[[]|error] s1]; [|done].
  etrans; [exact Hs|]. by apply idle_steps.
Qed.
Lemma heartbeat_port epoch id owner e s : port_steps s (heartbeat_step epoch id owner e s).2.
Proof.
  unfold heartbeat_step. destruct (negb _); [done|].
  destruct (_ && _); [by apply idle_steps|]. destruct (seqb _ _); [apply send_port|done].
Qed.

(** The service's own methods use the port in no other way. *)
Lemma svc_step_port o s : (∀ t, o ≠ OTransport t) → port_steps s (svc_step o s).
Proof.
  intros Ho. destruct o as [topic data ty timeout exp now|topic options timeout now|call|topic data ty now
    |topic now|topic now|incoming e|epoch id owner e| | | |d|t|o|q|now|m e]; simpl.
  - apply publish_begin_port.
  - apply publish_request_port.
  - apply idle_steps. unfold publish_end, guard_drop.
    destruct (pending_callbacks _ !! _); [|done]. by destruct (_ =? _).
  - apply send_port.
  - apply subscribe_port.
  - apply unsubscribe_port.
  - apply router_port.
  - apply heartbeat_port.
  - apply start_new_session_port.
  - unfold stop_background_tasks. etrans; [|apply start_new_session_port]. by apply idle_steps.
  - unfold prepare_ingress. destruct (Ports.set_ingress_generation _ _) as [res t] eqn:Hg.
    apply rtc_once, ps_generation. simpl. change (session_id (with_transport t s)) with (session_id s).
    by rewrite Hg.
  - unfold set_decoder. destruct (seqb _ _); [done|]. destruct (negb _); [done|]. by apply idle_steps.
  - by destruct (Ho t).
  - destruct o as [g|snd seen event| |i|i|]; [done|..]; apply idle_steps; split; try done;
      by apply (ev_step_current _ (callback_events (routing s))).
  - by apply idle_steps.
  - apply idle_steps, expire_chunks_idle.
  - apply process_ingress_port.
Qed.
End port.

(** ** The engine: which peer a command can reach, and where messages come from *)
Section engine.
Context {C : Type → Type} `{Chan C}.
Implicit Types (e : RtcEngine C) (p : Peer C).

(** The messages the router has still to see. *)
Definition pending e : list IngressMessage :=
  contents (Engine.incoming e) ++ option_list (transport_error e).
Definition from_peer (l : list (Peer C)) (m : IngressMessage) : Prop :=
  ∃ i p, l !! i = Some p ∧ p_generation p = im_generation m.

(** Commands enter the queue of the peer with the current ready state, and while
    that is open the peer is of the current generation. *)
Record queue_inv e : Prop := {
  qi_tx : ∀ i p, command_tx e = Some i → peers e !! i = Some p → p_cell p = holder e;
  qi_unique : ∀ i j p q, peers e !! i = Some p → peers e !! j = Some q → p_cell p = p_cell q → i = j;
  qi_open : current_ready_state e = Open → ∀ i p, peers e !! i = Some p → p_cell p = holder e →
    p_generation p = ingress_generation e;
  qi_pending : ∀ m, m ∈ pending e → from_peer (peers e) m;
}.

(** Same peer, same queue, same wire. *)
Definition kin p p' : Prop := p_cell p' = p_cell p ∧ p_generation p' = p_generation p.
Definition kept p p' : Prop :=
  kin p p' ∧ p_wire p' = p_wire p ∧ contents (p_commands p') `suffix_of` contents (p_commands p).
#[local] Instance kin_preorder : PreOrder kin.
Proof. split; [done|]. intros p q r [] []. split; congruence. Qed.
#[local] Instance kept_preorder : PreOrder kept.
Proof.
  split; [done|]. intros p q r (? & Hw & ?) (? & Hw' & ?). split; [by etrans|].
  split; [by rewrite Hw'|by etrans].
Qed.
Lemma kept_stopped p : kept p (p_stopped p).
Proof.
  split; [done|]. split; [done|]. simpl. destruct (close_rx_spec _ (p_commands p)) as [[->| ->] _]; [done|].
  apply suffix_nil.
Qed.
Lemma kept_aborted p : kept p (p_aborted p).
Proof. unfold p_aborted. destruct (p_sending p); [apply kept_stopped|done]. Qed.
Lemma kept_closed p : kept p (p_with_commands (close_tx (p_commands p)) p).
Proof. split; [done|]. split; [done|]. simpl. by destruct (close_tx_spec _ (p_commands p)) as [-> _]. Qed.

Lemma Forall2_alter_r {A} (R : A → A → Prop) `{!PreOrder R} f i (l l' : list A) :
  (∀ x, R x (f x)) → Forall2 R l l' → Forall2 R l (alter f i l').
Proof.
  intros Hf Hl. apply Forall2_same_length_lookup_2; [by rewrite length_alter; eapply Forall2_length|].
  intros j x y Hx [(-> & z & Hz & ->)|[_ Hy]]%lookup_alter_Some; [|by eapply Forall2_lookup_lr].
  etrans; [by eapply Forall2_lookup_lr|done].
Qed.
Lemma Forall2_insert_kin i p p' (l : list (Peer C)) :
  l !! i = Some p → kin p p' → Forall2 kin l (<[i := p']> l).
Proof.
  intros Hp Hk. apply Forall2_same_length_lookup_2; [by rewrite length_insert|].
  intros j x y Hx [(-> & <- & _)|[_ Hy]]%list_lookup_insert_Some; by simplify_eq.
Qed.

Lemma close_inner_kept e : Forall2 kept (peers e) (peers (close_inner e)).
Proof.
  unfold close_inner. simpl.
  assert (Forall2 kept (peers e) (peers e)) as Hl by by apply Forall_Forall2_diag, Forall_forall.
  destruct (command_tx e) as [i|], (command_task e) as [j|];
    repeat (apply Forall2_alter_r; [apply _|apply kept_aborted || apply kept_closed|]); done.
Qed.
Lemma kept_kin l l' : Forall2 kept l l' → Forall2 kin l l'.
Proof. intros Hl. eapply Forall2_impl; [exact Hl|]. by intros ? ? []. Qed.

Lemma queue_inv_move e e' :
  queue_inv e → Forall2 kin (peers e) (peers e') → holder e' = holder e →
  (command_tx e' = command_tx e ∨ command_tx e' = None) →
  (current_ready_state e' = Open →
     current_ready_state e = Open ∧ ingress_generation e' = ingress_generation e) →
  (∀ m, m ∈ pending e' → m ∈ pending e ∨ from_peer (peers e) m) → queue_inv e'.
Proof.
  intros [Htx Hu Ho Hm] Hp Hh Hc Hr Hpend.
  assert (Hback : ∀ i p', peers e' !! i = Some p' → ∃ p, peers e !! i = Some p ∧ kin p p').
  { intros i p' Hi. by eapply Forall2_lookup_r in Hi as (p & ? & ?); [|exact Hp]; eauto. }
  split.
  - intros i p' Ht Hi. destruct (Hback _ _ Hi) as (p & Hi' & -> & _). rewrite Hh.
    apply (Htx i); [|done]. by destruct Hc as [<-|Hc]; [|rewrite Hc in Ht].
  - intros i j p' q' Hi Hj. destruct (Hback _ _ Hi) as (p & Hi' & -> & _).
    destruct (Hback _ _ Hj) as (q & Hj' & -> & _). by apply Hu.
  - intros Hop i p' Hi. destruct (Hback _ _ Hi) as (p & Hi' & -> & ->).
    destruct (Hr Hop) as [Hop' ->]. rewrite Hh. intros Hcell. by eapply Ho.
  - intros m Hin. assert (from_peer (peers e) m) as (i & p & Hi & Hg)
      by (destruct (Hpend m Hin) as [|]; [by apply Hm|done]).
    destruct (Forall2_lookup_l _ _ _ _ _ Hp Hi) as (p' & ? & _ & Hg'). exists i, p'. by rewrite Hg'.
Qed.

Lemma kin_refl (l : list (Peer C)) : Forall2 kin l l.
Proof. by apply Forall_Forall2_diag, Forall_forall. Qed.
Lemma sent_pending e m q :
  chan_send (Engine.incoming e) m = Ok q → contents q = contents (Engine.incoming e) ++ [m].
Proof.
  destruct (chan_send_cases (Engine.incoming e) m) as [(q' & -> & Hc & _)|[[-> _]|[-> _]]]; [|done..].
  by intros [= <-].
Qed.

Lemma close_inner_closed e : eng_inv e → current_ready_state (close_inner e) = Closed.
Proof.
  intros [Hh _ _ _ _]. unfold current_ready_state, cell_value, close_inner. simpl.
  rewrite list_lookup_insert_eq; [done|]. by rewrite length_insert.
Qed.
Lemma close_inner_queue e : eng_inv e → queue_inv e → queue_inv (close_inner e).
Proof.
  intros Hi Hq. apply (queue_inv_move e); [done|apply kept_kin, close_inner_kept|done|by right| |by left].
  by rewrite close_inner_closed.
Qed.
Lemma record_fault_queue g i e :
  (∃ j p, peers e !! j = Some p ∧ p_generation p = g) → queue_inv e →
  queue_inv (record_transport_fault g i e).
Proof.
  intros Hp Hq. unfold record_transport_fault. destruct (negb _); [done|].
  set (m := Json.for_generation _ g).
  assert (∀ m', m' ∈ contents (Engine.incoming e) ∨ m' = m →
    m' ∈ pending e ∨ from_peer (peers e) m') as Hm.
  { intros m' [Hin| ->]; [|by right]. left. unfold pending. set_solver. }
  destruct (chan_send _ m) as [q|] eqn:Hs;
    (apply (queue_inv_move e); [done|apply kin_refl|done|by left| |]);
    try (intros Ho; split; [exact (store_closed_open i e Ho)|done]); intros m' Hin; apply Hm.
  - unfold pending in Hin. simpl in Hin. apply (sent_pending e) in Hs. rewrite Hs in Hin. set_solver.
  - unfold pending in Hin. simpl in Hin. set_solver.
Qed.
Lemma insert_queue e i p p' :
  queue_inv e → peers e !! i = Some p → kin p p' → queue_inv (with_peers (<[i := p']> (peers e)) e).
Proof.
  intros Hq Hp Hk. apply (queue_inv_move e); [done|by eapply Forall2_insert_kin|done|by left|done|by left].
Qed.
Lemma insert_fault_queue e i p p' c :
  queue_inv e → peers e !! i = Some p → kin p p' →
  queue_inv (record_transport_fault (p_generation p) c (with_peers (<[i := p']> (peers e)) e)).
Proof.
  intros Hq Hp [Hc Hg]. apply record_fault_queue; [|by eapply insert_queue].
  exists i, p'. split; [|done]. simpl. apply list_lookup_insert_eq. by eapply lookup_lt_Some.
Qed.

Lemma try_command_queue size c e : queue_inv e → queue_inv (try_command size c e).2.
Proof.
  intros Hq. destruct (try_command_step size c e) as [->|(i & p & q & -> & Hp & _)]; [done|].
  by eapply insert_queue.
Qed.
Lemma send_begin_queue i e : queue_inv e → queue_inv (send_begin i e).
Proof.
  intros Hq. unfold send_begin. destruct (peers e !! i) as [p|] eqn:Hp; [|done].
  destruct (negb _); [done|]. destruct (p_inflight p); [done|].
  destruct (chan_recv (p_commands p)) as [[c q]|[]]; [|done|by eapply insert_queue].
  destruct (negb _); [by eapply insert_queue|].
  destruct (negb _); [by apply (insert_fault_queue _ _ p)|by eapply insert_queue].
Qed.
Lemma send_end_queue i outcome e : queue_inv e → queue_inv (send_end i outcome e).
Proof.
  intros Hq. unfold send_end. destruct (peers e !! i) as [p|] eqn:Hp; [|done].
  destruct (negb _); [done|]. destruct (p_inflight p); [|done].
  destruct outcome; [by eapply insert_queue|by apply (insert_fault_queue _ _ p)].
Qed.

Lemma channel_event_queue i event e : eng_inv e → queue_inv e → queue_inv (channel_event i event e).
Proof.
  intros Hi Hq. unfold channel_event. destruct (peers e !! i) as [p|] eqn:Hp; [|done].
  destruct (p_generation p =? ingress_generation e) eqn:Hg; simpl; [|done].
  pose proof Hq as [Htx Hu Ho Hm]. split; simpl; [done|done| |done].
  intros Hop j q Hj Hcell. destruct (decide (p_cell p = holder e)) as [Hh|Hh].
  - assert (i = j) as <- by (eapply Hu; [done|done|congruence]). simplify_eq. lia.
  - eapply Ho; [|done|done]. revert Hop. unfold current_ready_state, cell_value. simpl.
    by rewrite list_lookup_alter_ne.
Qed.
Lemma enqueue_queue g payload e :
  (∃ j p, peers e !! j = Some p ∧ p_generation p = g) → queue_inv e →
  queue_inv (enqueue_current g payload e).2.
Proof.
  intros Hp Hq. unfold enqueue_current. destruct (negb _); [done|].
  destruct (chan_send _ _) as [q|[]] eqn:Hs; [|done..].
  apply (queue_inv_move e); [done|apply kin_refl|done|by left|done|].
  apply (sent_pending e) in Hs. unfold pending. simpl. rewrite Hs. intros m Hin.
  assert (m ∈ pending e ∨ m = Json.for_generation payload g) as [| ->]; [unfold pending; set_solver|by left|by right].
Qed.
Lemma on_message_queue i is_string data e : queue_inv e → queue_inv (on_message i is_string data e).2.
Proof.
  intros Hq. unfold on_message. destruct (peers e !! i) as [p|] eqn:Hp; [|done].
  assert (∀ payload, queue_inv (enqueue_current (p_generation p) payload e).2) as He
    by (intros; apply enqueue_queue; eauto).
  destruct (cell_value _ _); try done;
    (destruct (negb _); [done|]; destruct (negb _); [done|]; destruct is_string;
     [destruct (decode_text_message data); [apply He|done]|apply He]).
Qed.

Lemma fresh_queue e : eng_inv e → queue_inv e → queue_inv (fresh e) ∧ current_ready_state (fresh e) = Connecting.
Proof.
  intros Hi Hq. pose proof (close_inner_queue e Hi Hq) as [_ Hu _ Hm].
  assert (current_ready_state (fresh e) = Connecting) as Hc.
  { unfold current_ready_state, cell_value, fresh. simpl.
    rewrite list_lookup_insert_eq; [done|]. rewrite length_app. simpl. lia. }
  split; [|done]. split; [done|done|by rewrite Hc|done].
Qed.
Lemma add_peer_queue e p tx task :
  queue_inv e → current_ready_state e ≠ Open →
  (∀ i q, peers e !! i = Some q → (p_cell q < holder e)%nat) → p_cell p = holder e →
  (tx = None ∨ tx = Some (length (peers e))) →
  queue_inv (with_command tx task (with_peers (peers e ++ [p]) e)).
Proof.
  intros [_ Hu _ Hm] Hc Hlt Hp Htx.
  assert (Hnew : ∀ i q, (peers e ++ [p]) !! i = Some q →
    peers e !! i = Some q ∨ (i = length (peers e) ∧ q = p)).
  { intros i q [?|[Hge Hq]]%lookup_app_Some; [by left|]. right.
    apply list_lookup_singleton_Some in Hq as [? <-]. split; [lia|done]. }
  split; simpl; [| |done|].
  - intros i q Ht Hq. destruct Htx as [->| ->]; [done|]. injection Ht as <-.
    apply Hnew in Hq as [Hq|[_ ->]]; [|done]. apply lookup_lt_Some in Hq. lia.
  - intros i j q r Hq Hr Hcell. apply Hnew in Hq as [Hq|[-> ->]], Hr as [Hr|[-> ->]].
    + by eapply Hu.
    + specialize (Hlt _ _ Hq). lia.
    + specialize (Hlt _ _ Hr). lia.
    + done.
  - intros m Hin. destruct (Hm m Hin) as (i & q & Hq & Hg). exists i, q. split; [|done].
    by apply lookup_app_l_Some.
Qed.
Lemma prepare_queue created setup offer e : eng_inv e → queue_inv e → queue_inv (prepare_offer created setup offer e).2.
Proof.
  intros Hi Hq. unfold prepare_offer. fold (fresh e).
  destruct (fresh_queue e Hi Hq) as [Hf Hc]. destruct (fresh_inv e Hi) as (Hfi & _ & _ & _ & Hold).
  assert (Hlt : ∀ i q, peers (fresh e) !! i = Some q → (p_cell q < holder (fresh e))%nat)
    by (intros i q Hl; apply (Hold i q Hl)).
  assert (Hno : current_ready_state (fresh e) ≠ Open) by (by rewrite Hc).
  pose proof (λ p tx task, add_peer_queue (fresh e) p tx task Hf Hno Hlt) as Hadd.
  destruct created as [[]|error]; cbv zeta; [destruct setup as [[]|error]|].
  - specialize (Hadd (new_peer (fresh e)) (Some (length (peers (fresh e))))
      (Some (length (peers (fresh e)))) eq_refl (or_intror eq_refl)).
    destruct offer as [sdp|error]; [done|].
    apply (close_inner_queue (with_command _ _ _)); [|done].
    by apply prepared_inv.
  - apply (close_inner_queue (with_peers _ _)); [by apply unprepared_inv|].
    by apply (Hadd (unstarted_peer (fresh e)) (command_tx (fresh e)) (command_task (fresh e)));
      [|left].
  - by apply close_inner_queue.
Qed.

Lemma set_generation_queue g e : queue_inv e → queue_inv (Engine.set_ingress_generation g e).2.
Proof.
  intros Hq. assert (∀ m, m ∈ pending (with_fault None e) → m ∈ pending e) as Hm.
  { unfold pending. simpl. set_solver. }
  destruct (decide (ingress_generation e = g)) as [<-|Hne].
  - unfold Engine.set_ingress_generation. simpl. rewrite Z.eqb_refl. simpl.
    apply (queue_inv_move e); [done|apply kin_refl|done|by left|done|]. intros m Hin. left. by apply Hm.
  - pose proof (set_generation_closed g e Hne) as Hc.
    unfold Engine.set_ingress_generation in *. simpl in *.
    destruct (_ =? g); simpl in *; (apply (queue_inv_move e); [done|apply kin_refl|done|by left|by rewrite Hc|]);
      intros m Hin; left; by apply Hm.
Qed.
Lemma taken_queue e q :
  queue_inv e → (∀ m, m ∈ contents q → m ∈ contents (Engine.incoming e)) → queue_inv (with_incoming q e).
Proof.
  intros Hq Hsub. apply (queue_inv_move e); [done|apply kin_refl|done|by left|done|].
  intros m Hin. left. unfold pending in *. simpl in *. set_solver.
Qed.
Lemma take_fault_queue e : queue_inv e → queue_inv (Engine.take_transport_error e).2.
Proof.
  intros Hq. apply (queue_inv_move e); [done|apply kin_refl|done|by left|done|].
  intros m Hin. left. unfold pending in *. simpl in *. set_solver.
Qed.

(** What the engine does by itself: its session's calls, its tasks and the callbacks
    of its peers; the other operations are the service's and the router's. *)
Definition own_eng (o : @eng_op C) : bool :=
  match o with
  | ESendText _ | ESendBinary _ | ESetGeneration _ | ETakeFault | ERouted _ => false
  | _ => true
  end.
Lemma own_step_queue o e : own_eng o = true → eng_inv e → queue_inv e → queue_inv (eng_step o e).
Proof.
  intros Ho Hi Hq. destruct o as [created setup offer| |m|b|i|i outcome|i event|i state|i is_string data|g| |q]; try done.
  - by apply prepare_queue.
  - by apply close_inner_queue.
  - by apply send_begin_queue.
  - by apply send_end_queue.
  - by apply channel_event_queue.
  - destruct state; simpl; (done || by apply channel_event_queue).
  - by apply on_message_queue.
Qed.
Lemma record_fault_generation g c e :
  ingress_generation (record_transport_fault g c e) = ingress_generation e.
Proof. unfold record_transport_fault. destruct (negb _); [done|]. by destruct (chan_send _ _). Qed.
Lemma own_step_generation o e :
  own_eng o = true → ingress_generation (eng_step o e) = ingress_generation e.
Proof.
  intros Ho. destruct o as [created setup offer| |m|b|i|i outcome|i event|i state|i is_string data|g| |q]; try done; simpl.
  - unfold prepare_offer. by destruct created as [[]|], setup as [[]|], offer.
  - unfold send_begin. destruct (peers e !! i) as [p|]; [|done]. destruct (negb _); [done|].
    destruct (p_inflight p); [done|]. destruct (chan_recv _) as [[c q]|[]]; [|done..].
    destruct (negb _); [done|]. destruct (negb _); [by rewrite record_fault_generation|done].
  - unfold send_end. destruct (peers e !! i) as [p|]; [|done]. destruct (negb _); [done|].
    destruct (p_inflight p); [|done]. destruct outcome; [done|by rewrite record_fault_generation].
  - unfold channel_event. destruct (peers e !! i); [|done]. by destruct (negb _).
  - destruct state; simpl; try done; unfold channel_event;
      (destruct (peers e !! i); [|done]); by destruct (negb _).
  - unfold on_message. destruct (peers e !! i) as [p|]; [|done].
    assert (∀ payload, ingress_generation (enqueue_current (p_generation p) payload e).2 = ingress_generation e)
      as He by (intros; unfold enqueue_current; destruct (negb _); [done|]; by destruct (chan_send _ _) as [|[]]).
    destruct (cell_value _ _); try done;
      (destruct (negb _); [done|]; destruct (negb _); [done|]; destruct is_string;
       [destruct (decode_text_message data); [apply He|done]|apply He]).
Qed.

(** No command enters the queue of a peer, and none leaves it for the wire. *)
Definition undisturbed p p' : Prop :=
  p_wire p' = p_wire p ∧ contents (p_commands p') `suffix_of` contents (p_commands p).
Lemma undisturbed_refl p : undisturbed p p.
Proof. done. Qed.
Lemma kept_undisturbed p p' : kept p p' → undisturbed p p'.
Proof. by intros (_ & Hw & Hc). Qed.
Lemma close_inner_undisturbed e i p p' :
  peers e !! i = Some p → peers (close_inner e) !! i = Some p' → kept p p'.
Proof. intros Hp Hp'. by eapply Forall2_lookup_lr; [apply close_inner_kept|..]. Qed.
Lemma prepare_undisturbed created setup offer e i p p' :
  peers e !! i = Some p → peers (prepare_offer created setup offer e).2 !! i = Some p' → kept p p'.
Proof.
  intros Hp Hp'. unfold prepare_offer in Hp'. fold (fresh e) in Hp'.
  assert (∀ new q, (peers (fresh e) ++ [new]) !! i = Some q → kept p q) as Hnew.
  { intros new q Hq. eapply close_inner_undisturbed; [exact Hp|].
    rewrite lookup_app_l in Hq; [exact Hq|]. apply lookup_lt_Some in Hp.
    change (peers (fresh e)) with (peers (close_inner e)).
    by rewrite <- (Forall2_length _ _ _ (close_inner_kept e)). }
  assert (∀ new e', peers e' = peers (fresh e) ++ [new] → peers (close_inner e') !! i = Some p' → kept p p')
    as Hclosed.
  { intros new e' He Hq.
    destruct (Forall2_lookup_r _ _ _ _ _ (close_inner_kept e') Hq) as (q & Hq' & Hk).
    rewrite He in Hq'. etrans; [by eapply Hnew|exact Hk]. }
  destruct created as [[]|error]; cbv zeta in Hp'; [destruct setup as [[]|error]; [destruct offer as [sdp|error]|]|].
  - exact (Hnew _ _ Hp').
  - by apply (Hclosed (new_peer (fresh e)) (with_command (Some (length (peers (fresh e))))
      (Some (length (peers (fresh e)))) (with_peers (peers (fresh e) ++ [new_peer (fresh e)]) (fresh e)))).
  - by apply (Hclosed (unstarted_peer (fresh e))
      (with_peers (peers (fresh e) ++ [unstarted_peer (fresh e)]) (fresh e))).
  - destruct (Forall2_lookup_r _ _ _ _ _ (close_inner_kept (fresh e)) Hp') as (q & Hq & Hk).
    etrans; [by eapply close_inner_undisturbed|exact Hk].
Qed.

Lemma own_step_undisturbed o e i p p' :
  own_eng o = true → peers e !! i = Some p → peers (eng_step o e) !! i = Some p' →
  p_generation p ≠ ingress_generation e → undisturbed p p'.
Proof.
  intros Ho Hp Hp' Hg.
  assert (peers e !! i = Some p' → undisturbed p p') as Hsame
    by (rewrite Hp; intros [= <-]; apply undisturbed_refl).
  assert (∀ j q q', peers e !! j = Some q → undisturbed q q' → <[j := q']> (peers e) !! i = Some p' →
    undisturbed p p') as Hins.
  { intros j q q' Hj Hq [(-> & <- & _)|[_ Hl]]%list_lookup_insert_Some; [|by apply Hsame].
    by simplify_eq. }
  destruct o as [created setup offer| |m|b|j|j outcome|j event|j state|j is_string data|g| |q]; try done; simpl in Hp'.
  - apply kept_undisturbed. by eapply prepare_undisturbed.
  - apply kept_undisturbed. by eapply close_inner_undisturbed.
  - unfold send_begin in Hp'. destruct (peers e !! j) as [pj|] eqn:Hj; [|by apply Hsame].
    destruct (negb (p_sending pj)); [by apply Hsame|]. destruct (p_inflight pj); [by apply Hsame|].
    destruct (chan_recv (p_commands pj)) as [[c q]|[]] eqn:Hr;
      [|by apply Hsame|by eapply Hins; [exact Hj| |exact Hp']; exact (kept_undisturbed _ _ (kept_stopped pj))].
    apply chan_recv_Ok in Hr as (Hc & _).
    assert (contents q `suffix_of` contents (p_commands pj)) as Hsuf by (rewrite Hc; by exists [c]).
    assert (undisturbed pj (p_stopped (p_with_commands q pj))) as Hst.
    { split; [done|]. etrans; [|exact Hsuf]. apply (kept_stopped (p_with_commands q pj)). }
    destruct (p_generation (p_with_commands q pj) =? ingress_generation e) eqn:Hgen; simpl in Hgen, Hp';
      [|by eapply Hins; [exact Hj| |exact Hp']].
    destruct (negb _); [rewrite record_fault_peers in Hp'; by eapply Hins; [exact Hj| |exact Hp']|].
    simpl in Hp'. apply list_lookup_insert_Some in Hp' as [(-> & _ & _)|[_ Hl]]; [|by apply Hsame].
    simplify_eq. lia.
  - unfold send_end in Hp'. destruct (peers e !! j) as [pj|] eqn:Hj; [|by apply Hsame].
    destruct (negb (p_sending pj)); [by apply Hsame|]. destruct (p_inflight pj); [|by apply Hsame].
    destruct outcome; rewrite ?record_fault_peers in Hp';
      (eapply Hins; [exact Hj| |exact Hp']);
      [exact (undisturbed_refl pj)|exact (kept_undisturbed _ _ (kept_stopped pj))].
  - apply Hsame. revert Hp'. unfold channel_event. destruct (peers e !! j); [|done]. by destruct (negb _).
  - apply Hsame. revert Hp'. destruct state; simpl; try done; unfold channel_event;
      (destruct (peers e !! j); [|done]); by destruct (negb _).
  - apply Hsame. by destruct (on_message_frame j is_string data e) as (_ & _ & <- & _).
Qed.
End engine.

(** ** The two together *)
Section system.
Context {C : Type → Type} `{Chan C} `{Layout} `{JsonReader} `{SerdeJson} `{Crypto}.
Implicit Types (s : Service C (RtcEngine C)).

(** One iteration of the router thread: it takes the oldest message the peers have
    queued, if there is one. *)
Definition router_poll (e : env) s : Service C (RtcEngine C) :=
  match chan_recv (Engine.incoming (transport s)) with
  | Ok (m, q) => router_step (Some m) e (with_transport (with_incoming q (transport s)) s)
  | Err _ => router_step None e s
  end.

Inductive sys_op :=
  | ServiceOp (o : @svc_op C (RtcEngine C))
  | EngineOp (o : @eng_op C)
  | Route (e : env).
(** The router only gets its messages from the engine, and the engine its calls from
    the service. *)
Definition own_svc (o : @svc_op C (RtcEngine C)) : bool :=
  match o with OTransport _ | ORouter _ _ | OIngress _ _ => false | _ => true end.
Definition sys_step (o : sys_op) s : Service C (RtcEngine C) :=
  match o with
  | ServiceOp o => if own_svc o then svc_step o s else s
  | EngineOp o => if own_eng o then with_transport (eng_step o (transport s)) s else s
  | Route e => router_poll e s
  end.
Definition sys_run (l : list sys_op) s : Service C (RtcEngine C) := foldl (λ s o, sys_step o s) s l.

(** The engine receives for the session of the service, always. *)
Record sys_inv s : Prop := {
  sy_engine : eng_inv (transport s);
  sy_queue : queue_inv (transport s);
  sy_session : ingress_generation (transport s) = session_id s;
}.

Lemma send_text_generation text (e : RtcEngine C) :
  ingress_generation (Engine.send_text text e).2 = ingress_generation e.
Proof. by destruct (try_command_cells (slen text) (CText text) e) as (_ & _ & ?). Qed.
Lemma set_generation_engine g (e : RtcEngine C) : eng_inv e → eng_inv (Engine.set_ingress_generation g e).2.
Proof. intros Hi. apply (eng_step_inv (ESetGeneration g) e Hi). Qed.

Lemma port_step_inv s s' : port_step s s' → sys_inv s → sys_inv s'.
Proof.
  intros Hs [Hi Hq Hg]. destruct Hs as [Ht Hn|text _ Ht Hn|Ht|Ht Hn]; simpl in Ht.
  - split; by rewrite Ht, ?Hn.
  - split; rewrite Ht, ?Hn.
    + apply (eng_step_inv (ESendText text) _ Hi).
    + by apply try_command_queue.
    + by rewrite send_text_generation.
  - split; rewrite Ht; [by apply set_generation_engine|by apply set_generation_queue|].
    unfold Engine.set_ingress_generation. simpl. by destruct (negb _).
  - split; rewrite Ht, ?Hn; [apply (eng_step_inv ETakeFault _ Hi)|by apply take_fault_queue|done].
Qed.
Lemma port_steps_inv s s' : port_steps s s' → sys_inv s → sys_inv s'.
Proof. induction 1; eauto using port_step_inv. Qed.

(** A service that left a session has closed its channel, so it sends nothing more
    in the same call: a peer of another session is left exactly as it was. *)
Lemma port_step_peer g i p s s' :
  port_step s s' → sys_inv s → p_generation p ≠ g →
  session_id s = g ∨ current_ready_state (transport s) ≠ Open → peers (transport s) !! i = Some p →
  (session_id s' = g ∨ current_ready_state (transport s') ≠ Open) ∧ peers (transport s') !! i = Some p.
Proof.
  intros Hs [Hi Hq Hg] Hp Hk Hl. destruct Hs as [Ht Hn|text Ho Ht Hn|Ht|Ht Hn].
  - by rewrite Ht, Hn.
  - apply state_str_open in Ho.
    destruct Hk as [Hk|Hk]; [|done]. split; [left; congruence|]. rewrite Ht. simpl.
    unfold Engine.send_text, try_command. destruct (_ <? _); [done|]. destruct (negb _); [done|].
    destruct (command_tx (transport s)) as [j|] eqn:Htx; [|done].
    destruct (peers (transport s) !! j) as [q|] eqn:Hj; [|done].
    destruct (chan_send _ _) as [c|[]]; [|done..]. simpl.
    rewrite list_lookup_insert_ne; [done|]. intros ->. simplify_eq.
    pose proof (qi_open _ Hq Ho i p Hl (qi_tx _ Hq i p Htx Hl)). congruence.
  - change (Ports.set_ingress_generation ?g ?e) with (Engine.set_ingress_generation g e) in Ht.
    rewrite Ht. destruct (decide (ingress_generation (transport s) = session_id s')) as [He|He].
    + unfold Engine.set_ingress_generation. simpl. rewrite He, Z.eqb_refl. simpl.
      split; [|done]. destruct Hk as [Hk|Hk]; [left; congruence|by right].
    + split; [right; by rewrite set_generation_closed|].
      unfold Engine.set_ingress_generation. simpl. by destruct (negb _).
  - rewrite Ht, Hn. done.
Qed.
Lemma port_steps_peer i p s s' :
  port_steps s s' → sys_inv s → p_generation p ≠ session_id s →
  peers (transport s) !! i = Some p → peers (transport s') !! i = Some p.
Proof.
  intros Hs Hi Hp. generalize (or_introl (B := current_ready_state (transport s) ≠ Open) (eq_refl (session_id s))).
  revert Hp. generalize (session_id s) at 1 3. intros g Hp. revert Hi.
  induction Hs as [s|s s1 s2 Hs _ IH]; intros Hi Hk Hl; [done|].
  destruct (port_step_peer g i p _ _ Hs Hi Hp Hk Hl) as [Hk' Hl'].
  apply IH; [by eapply port_step_inv|done|done].
Qed.

Lemma router_poll_port e s :
  ∃ q, (∀ m, m ∈ contents q → m ∈ contents (Engine.incoming (transport s))) ∧
    port_steps (with_transport (with_incoming q (transport s)) s) (router_poll e s).
Proof.
  unfold router_poll. destruct (chan_recv _) as [[m q]|] eqn:Hr.
  - apply chan_recv_Ok in Hr as (Hc & _). exists q. split; [|apply router_port].
    intros m' Hm. rewrite Hc. set_solver.
  - exists (Engine.incoming (transport s)). split; [done|].
    etrans; [|apply router_port]. apply idle_steps. split; [|done]. simpl. by destruct (transport s).
Qed.
Lemma routed_inv q s :
  (∀ m, m ∈ contents q → m ∈ contents (Engine.incoming (transport s))) → sys_inv s →
  sys_inv (with_transport (with_incoming q (transport s)) s).
Proof.
  intros Hsub [Hi Hq Hg]. split; simpl; [by apply (eng_step_inv (ERouted q))|by apply taken_queue|done].
Qed.
Lemma own_svc_port o s : own_svc o = true → port_steps s (svc_step o s).
Proof. intros Ho. apply svc_step_port. by intros t ->. Qed.

Lemma sys_step_inv o s : sys_inv s → sys_inv (sys_step o s).
Proof.
  intros Hs. destruct o as [o|o|e]; simpl.
  - destruct (own_svc o) eqn:Ho; [|done]. by eapply port_steps_inv; [apply own_svc_port|].
  - destruct (own_eng o) eqn:Ho; [|done]. destruct Hs as [Hi Hq Hg]. split; simpl.
    + by apply eng_step_inv.
    + by apply own_step_queue.
    + by rewrite own_step_generation.
  - destruct (router_poll_port e s) as (q & Hsub & Hp).
    eapply port_steps_inv; [exact Hp|by apply routed_inv].
Qed.
Lemma sys_run_inv l s : sys_inv s → sys_inv (sys_run l s).
Proof. revert s. induction l as [|o l IH]; intros s Hs; [done|]. by apply IH, sys_step_inv. Qed.

(** A session as it is assembled: an engine over an empty queue, its service. *)
Definition new_system (n : Z) (ch : Events C) (q : C LidarDecodeRequest) (session sequence : Z) :
    Service C (RtcEngine C) :=
  new_service (new_engine (bounded n)) ch q session sequence.
Lemma new_system_inv n ch q session sequence : 0 < n → sys_inv (new_system n ch q session sequence).
Proof.
  intros Hn. unfold new_system, new_service. set (s := {| transport := _ |}).
  set (e := new_engine (bounded n)).
  assert (queue_inv e) as Hq.
  { split; [done| | |].
    - intros i j p p' Hl. discriminate Hl.
    - intros _ i p Hl. discriminate Hl.
    - intros m. unfold pending. simpl. destruct (bounded_spec IngressMessage n Hn) as [-> _]. set_solver. }
  assert (eng_inv e) as Hi by apply new_engine_inv.
  unfold prepare_ingress. split; simpl.
  - by apply (set_generation_engine (session_id s) e).
  - by apply (set_generation_queue (session_id s) e).
  - by destruct (negb _).
Qed.

(** C2: sessions never mix, whatever the service, the router, the engine's task and
    the callbacks of all peers do in whatever order: a peer of another session than the
    service's gets no command, and nothing more of what is in its queue reaches the
    wire; and every message the router still has to see came from a peer of the session
    the message is tagged with, where one of another session changes nothing. *)
Theorem sessions_isolated n ch q session sequence l o i p p' :
  0 < n →
  let s := sys_run l (new_system n ch q session sequence) in
  peers (transport s) !! i = Some p → peers (transport (sys_step o s)) !! i = Some p' →
  (p_generation p ≠ session_id s → undisturbed p p') ∧
  ∀ m, m ∈ pending (transport s) →
    from_peer (peers (transport s)) m ∧
    (im_generation m ≠ session_id s → ∀ e, process_ingress m e s = s).
Proof.
  intros Hn s Hp Hp'. assert (sys_inv s) as Hs by (apply sys_run_inv; by apply new_system_inv).
  split; [intros Hg|intros m Hm].
  - destruct o as [o|o|e]; simpl in Hp'.
    + assert (peers (transport s) !! i = Some p' → undisturbed p p') as Hsame by (rewrite Hp; by intros [= <-]).
      destruct (own_svc o) eqn:Ho; [|by apply Hsame].
      rewrite (port_steps_peer i p _ _ (own_svc_port o s Ho) Hs Hg Hp) in Hp'. by injection Hp' as <-.
    + destruct (own_eng o) eqn:Ho; [|rewrite Hp in Hp'; by injection Hp' as <-].
      eapply own_step_undisturbed; [done..|]. by rewrite (sy_session _ Hs).
    + destruct (router_poll_port e s) as (c & Hsub & Hr).
      rewrite (port_steps_peer i p _ _ Hr (routed_inv c s Hsub Hs) Hg Hp) in Hp'. by injection Hp' as <-.
  - split; [by apply (qi_pending _ (sy_queue _ Hs))|]. intros Hne e. unfold process_ingress.
    by replace (im_generation m =? session_id s) with false by lia.
Qed.
End system.

(** ** An execution: a command is still queued when the session ends *)
#[local] Existing Instance toy_json.
#[local] Existing Instance toy_reader.
#[local] Existing Instance toy_cipher.
#[local] Existing Instance toy_layout.

Definition demo_sys_ops : list (sys_op (C:=vec_chan)) :=
  [EngineOp (EPrepare (Ok ()) (Ok ()) (Ok "v=0")); EngineOp (EChannel 0 ChannelOpened);
   ServiceOp (OSend "rt/x" None "msg" 0); EngineOp (EMessage 0 true [109]); ServiceOp ONewSession].
Definition demo_system : Service vec_chan (RtcEngine vec_chan) :=
  sys_run demo_sys_ops (new_system 8 (set_generation 0 demo_channel) (bounded 4) 7 1).

Lemma sessions_isolated_witness :
  ∃ p p', peers (transport demo_system) !! 0%nat = Some p ∧
    peers (transport (sys_step (EngineOp (ESendBegin 0)) demo_system)) !! 0%nat = Some p' ∧
    contents (p_commands p) = [CText "{}"] ∧ p_generation p ≠ session_id demo_system ∧
    len (pending (transport demo_system)) = 1 ∧ undisturbed p p'.
Proof.
  eexists _, _. split; [vm_compute; reflexivity|]. split; [vm_compute; reflexivity|].
  split; [reflexivity|]. split; [by vm_compute|]. split; [by vm_compute|].
  refine (proj1 (sessions_isolated 8 (set_generation 0 demo_channel) (bounded 4) 7 1 demo_sys_ops
    (EngineOp (ESendBegin 0)) 0 _ _ _ _ _) _); [lia|vm_compute; reflexivity..|by vm_compute].
Defined.
