(* ===== verification/ServiceTests.v ===== *)
(** * The tests of the data channel service, replayed (src/src/datachannel/core/service.rs)

    The unit tests of the service, statement by statement, on the model: the mock
    transport, the fixtures and each test as the conjunction of its assertions.  Sleeps
    and tasks are the order of the steps; the clock is an argument.  Left out are the
    tests about threads and memory addresses and those on payloads of a megabyte. *)
From S2P Require Import Prelude Floats Json Ingress Constants Channel Events Lidar Utf8 Security Chunks.
From S2P Require Import JsonText Ports Service ServiceProps.
#[local] Open Scope Z_scope.
#[local] Existing Instances toy_cipher toy_layout.

(** All assertions of a test hold. *)
Abbreviation asserts := (forallb id).

(** ** Fixtures *)
Record MockDataChannel := { state : string; sent : list string; reject_send : bool }.
#[local] Instance mock_channel : DataChannelPort MockDataChannel := {|
  send_text message t :=
    if reject_send t then (Err "Rejected send", t)
    else (Ok (), {| state := state t; sent := sent t ++ [message]; reject_send := reject_send t |});
  send_binary _ t := (Ok (), t);
  set_ingress_generation _ t := (Ok (), t);
  take_transport_error t := (None, t);
  ready_state := state |}.
Definition rejecting (b : bool) (t : MockDataChannel) : MockDataChannel :=
  {| state := state t; sent := sent t; reject_send := b |}.
Abbreviation Mock := (Service vec_chan MockDataChannel).
Implicit Types (s : Mock).

Definition test_events : Events vec_chan :=
  match event_channel 64 with Ok (_, ch) => ch | Err _ => demo_channel end.
Definition make_service (st : string) : Mock :=
  new_service {| state := st; sent := []; reject_send := false |} test_events (bounded 4) 41 1.
(** The clocks [secs] seconds after an arbitrary origin. *)
Definition at_ (secs : Z) : env := {|
  instant := from_secs secs; unix_secs := 1700000000 + secs;
  secs_binary := F64.of_Z (1700000000 + secs); secs_dispatch := F64.of_Z (1700000000 + secs);
  fresh_uuid := "u"; local_time := "t" |}.
Definition now_ : env := at_ 1.

(** A [PendingCallback] is put in place; its oneshot. *)
Definition insert_pending (key : string) (e : ResponseExpectation) s : Z * Mock :=
  let r := requests s in
  let tok := next_token r in
  (tok, with_requests
    {| pending_callbacks := <[key := {| token := tok; expectation := e; pc_session_id := session_id s |}]> (pending_callbacks r);
       chunk_data_storage := chunk_data_storage r; replies := replies r; next_token := tok + 1 |} s).
Definition try_recv_reply (tok : Z) s : option (PortResult value) := replies (requests s) !! tok.
Definition no_pending s : bool := bool_decide (pending_callbacks (requests s) = ∅).
Definition no_chunks s : bool := bool_decide (chunk_data_storage (requests s) = ∅).
Definition process_text (generation : Z) (message : value) s : Mock :=
  process_ingress (Json.for_generation (Text (write_value message)) generation) now_ s.
(** [FixtureSender::send], and the router takes it. *)
Definition send (message : value) s : Mock :=
  router_step (Some (Json.for_generation (Text (write_value message)) (session_id s))) now_ s.
Definition try_recv_event s : option CallbackEvent * Mock :=
  let '(r, ch) := try_recv (callback_events (routing s)) in
  (ok r ≫= id, with_routing (with_events ch (routing s)) s).
Definition frames s : list value := omap (λ m, ok (parse_json (as_bytes m))) (sent (transport s)).
(** [v["a"]["b"]] compared with a value. *)
Definition at_path (v : option value) (path : list string) (x : value) : bool :=
  bool_decide (v ≫= (λ v, get_path v path) = Some x).
Definition str_contains (needle s : string) : bool :=
  match String.index 0 needle s with Some _ => true | None => false end.
Definition error_contains (needle : string) {A} (r : option (PortResult A)) : bool :=
  match r with Some (Err e) => str_contains needle e | _ => false end.
Definition publish_result (r : PortResult PublishCall * Mock) (now : Z) : option (PortResult value) :=
  match r with (Ok call, s) => publish_poll call now s | (Err e, _) => Some (Err e) end.

(** ** Expectations, admission and faults *)
Definition boundary_response_topic_mismatch_redacts_arbitrary_peer_values : bool :=
  let expectation := for_api_request "expected/request" 1001 in
  match validate expectation (obj [("topic", JString "sentinel-private-key")]) with
  | Err e => seqb e "Response topic mismatch"
  | Ok _ => false
  end.

Definition pending_request_admission_is_bounded_before_sending : bool :=
  let s := foldl (λ s index, (insert_pending ("fixture-" +:+ pretty index) any_response s).2)
             (make_service "open") (seqZ 0 128) in
  let '(r, s1) := publish_begin "bounded" None None (Some (S754_zero false)) any_response 0 s in
  let s2 := start_new_session s1 in
  let '(again, s3) := publish_begin "bounded" None None (Some (S754_zero false)) any_response 0 s2 in
  asserts
    [match r with Err error => str_contains "in-flight request limit" error | Ok _ => false end;
     bool_decide (sent (transport s1) = []);
     bool_decide (size (pending_callbacks (requests s1)) = 128%nat);
     no_pending s2;
     error_contains "timeout" (publish_result (again, s3) 0);
     bool_decide (length (sent (transport s3)) = 1%nat)].

Definition transport_fault_fails_pending_without_response_timeout : bool :=
  let s := make_service "open" in
  let generation := session_id s in
  let '(receiver, s) := insert_pending "pending" any_response s in
  let s := process_ingress (Json.for_generation (TransportFault "DataChannel send failed") generation) now_ s in
  asserts
    [bool_decide (try_recv_reply receiver s = Some (Err "DataChannel send failed")); no_pending s;
     negb (is_open s)].

(** The reset is held up until the publish has sent its message. *)
Definition pending_registration_and_enqueue_finish_before_reset : bool :=
  let '(publish, s) := publish_begin "topic" None None (Some (F64.of_Z 1)) any_response 0 (make_service "open") in
  let s1 := start_new_session s in
  asserts
    [bool_decide (size (pending_callbacks (requests s)) = 1%nat);
     error_contains "session reset" (publish_result (publish, s1) 0);
     bool_decide (length (sent (transport s1)) = 1%nat); no_pending s1].

Definition invalid_timeouts_are_rejected_before_send : bool :=
  forallb (λ seconds,
    let s := make_service "open" in
    let '(r, s1) := publish_begin "topic" None None (Some seconds) any_response 0 s in
    asserts [is_err r; bool_decide (sent (transport s1) = []); no_pending s1;
             match wait_datachannel_open seconds 0 [(0, s1)] with Some (Err _) => true | _ => false end])
    [S754_nan; S754_infinity false; F64.of_Z (-1); S754_finite false 9007199254740991 971; F64.of_Z (10 ^ 19)].

(** ** Chunks *)
Definition chunk_bytes_reject_out_of_range_values : bool :=
  asserts
    [bool_decide (value_to_chunk_bytes (JArray [jint 0; jint 255]) = Some [0; 255]);
     bool_decide (value_to_chunk_bytes (JArray [jint 256]) = None);
     bool_decide (value_to_chunk_bytes (JArray [jint (-1)]) = None)].

Definition metadata (index total : Z) : list (string * value) :=
  [("enable_chunking", JBool true); ("chunk_index", jint index); ("total_chunk_num", jint total)].
Definition content_chunk (ty : string) (index total : Z) (data : list Z) : value :=
  obj [("type", JString ty); ("topic", JString "topic");
       ("data", obj [("content_info", obj (metadata index total)); ("data", JArray (jint <$> data))])].
Definition file_chunk (ty : string) (index total : Z) (data : list Z) : value :=
  obj [("type", JString ty); ("topic", JString "topic");
       ("info", obj [("file", obj (metadata index total ++ [("data", JArray (jint <$> data))]))])].

Definition chunk_final_index_does_not_complete_missing_chunks : bool :=
  let '(handled, s) := handle_chunked_response (content_chunk "res" 2 2 [2]) now_ (make_service "open") in
  asserts [handled; negb (no_chunks s); no_chunks (start_new_session s)].

Definition validated_flag_alone_does_not_make_closed_transport_ready : bool :=
  let s := set_opened true (make_service "closed") in
  match wait_datachannel_open (S754_zero false) 0 [(0, s); (1, s)] with Some (Err _) => true | _ => false end.

Definition both_chunk_schemas_reassemble_in_index_order : bool :=
  forallb (λ chunk_data : (string → Z → Z → list Z → value) * list string,
    let '(chunk, data_path) := chunk_data in
    let message := chunk "res" 2 2 [2] in
    let '(rx, s) := insert_pending (incoming_key message) any_response (make_service "open") in
    let '(first, s) := handle_chunked_response message now_ s in
    let waiting := bool_decide (try_recv_reply rx s = None) in
    let '(again, s) := handle_chunked_response message now_ s in
    let '(last, s) := handle_chunked_response (chunk "res" 1 2 [1]) now_ s in
    asserts [first; waiting; again; last;
             at_path (try_recv_reply rx s ≫= ok) data_path (JArray [jint 1; jint 2])])
    [(content_chunk, ["data"; "data"]); (file_chunk, ["info"; "file"; "data"])].

Definition malformed_chunk_fails_pending_without_partial_success : bool :=
  let message := content_chunk "res" 0 2 [256] in
  let '(rx, s) := insert_pending (incoming_key message) any_response (make_service "open") in
  let s := run_resolve message now_ s in
  asserts [match try_recv_reply rx s with Some (Err _) => true | _ => false end; no_chunks s].

(** The publish is aborted: its future is dropped. *)
Definition cancelled_publish_reclaims_pending_and_partial_chunks : bool :=
  match publish_begin "topic" None None (Some (F64.of_Z 3600)) any_response 0 (make_service "open") with
  | (Ok task, s) =>
      let s := (handle_chunked_response (content_chunk "msg" 1 2 [1]) now_ s).2 in
      let s1 := publish_end task s in
      asserts [negb (no_chunks s); no_pending s1; no_chunks s1]
  | (Err _, _) => false
  end.

Definition cancelled_old_request_guard_preserves_replacement : bool :=
  let s := make_service "open" in
  let '(_, s) := insert_pending "same-key" any_response (with_requests
    {| pending_callbacks := ∅; chunk_data_storage := ∅; replies := ∅; next_token := 1 |} s) in
  let '(stored, a) := Chunks.insert (chunk_data_storage (requests s)) "same-key" "content" 1 2 [1] 0 in
  let s := guard_drop "same-key" 0 (with_requests (with_chunks a (requests s)) s) in
  asserts [is_ok stored; bool_decide (is_Some (pending_callbacks (requests s) !! "same-key")); negb (no_chunks s)].

Definition chunked_response_reassembles_before_callback : bool :=
  let chunk index data :=
    obj [("type", JString "res"); ("topic", JString "rt/api/audiohub/request");
         ("data", obj [("content_info", obj (metadata index 2)); ("data", JArray (jint <$> data))])] in
  let '(rx, s) := insert_pending "res $ rt/api/audiohub/request" any_response (make_service "open") in
  let s := send (chunk 1 [72; 101; 108]) s in
  let waiting := bool_decide (try_recv_reply rx s = None) in
  let s := send (chunk 2 [108; 111]) s in
  asserts [waiting; at_path (try_recv_reply rx s ≫= ok) ["data"; "data"] (JArray (jint <$> [72; 101; 108; 108; 111]))].

(** ** Sessions *)
Definition validation_ok : value := obj [("type", JString "validation"); ("data", JString "Validation Ok.")].

Definition stale_ingress_cannot_validate_or_retain_chunks : bool :=
  let s := make_service "open" in
  let old := session_id s in
  let s := process_text old validation_ok (start_new_session s) in
  let s1 := process_text old (obj [("type", JString "heartbeat")]) s in
  let s2 := process_text old (content_chunk "res" 1 2 [1]) s1 in
  asserts [negb (data_channel_opened (link s)); heartbeat_last_response (link s1) =? 0; no_chunks s2].

Definition stale_response_cannot_resolve_reused_user_request_id : bool :=
  let s := make_service "open" in
  let old := session_id s in
  let s := start_new_session s in
  let response := obj [("type", JString "res"); ("topic", JString "rt/api/sport/response");
    ("data", obj [("header", obj [("identity", obj [("id", jint 42); ("api_id", jint 1001)])])])] in
  let '(receiver, s) := insert_pending (incoming_key response) (for_api_request "rt/api/sport/request" 1001) s in
  let s := process_text old response s in
  let s1 := process_text (session_id s) response s in
  asserts [bool_decide (try_recv_reply receiver s = None);
           match try_recv_reply receiver s1 with Some (Ok _) => true | _ => false end].

(** The message that waited for the lock is processed after the reset. *)
Definition ingress_generation_is_checked_after_acquiring_processing_lock : bool :=
  let s := make_service "open" in
  let epoch := session_id s in
  let s := set_session_id (wrapping_add 64 epoch 1) s in
  negb (data_channel_opened (link (process_text epoch validation_ok s))).

Definition start_new_session_fails_pending_requests : bool :=
  let options := obj [("api_id", jint 1034); ("id", jint 7272)] in
  let '(pending, s) := publish_request_new "rt/api/sport/request" options (Some (F64.of_Z 5)) 0 (make_service "open") in
  error_contains "DataChannel session reset" (publish_result (pending, start_new_session s) 20000000).

(** ** Subscriptions *)
Definition subscription_sets_commit_only_after_accepted_send : bool :=
  let reject b s : Mock := with_transport (rejecting b (transport s)) s in
  let has s := bool_decide ("topic" ∈ subscriptions (routing s)) in
  let '(r1, s1) := subscribe "topic" 0 (reject true (make_service "open")) in
  let '(r2, s2) := subscribe "topic" 0 (reject false s1) in
  let '(r3, s3) := unsubscribe "topic" 0 (reject true s2) in
  asserts [is_err r1; negb (has s1); is_ok r2; is_err r3; has s3].

Definition malformed_binary_header_does_not_kill_router : bool :=
  let s := (subscribe "topic" 0 (make_service "open")).2 in
  let frame := [4; 0; 0; 0] ++ as_bytes "true" in
  let s := router_step (Some (Json.for_generation (Binary frame) (session_id s))) now_ s in
  let s := send (obj [("type", JString "msg"); ("topic", JString "topic"); ("data", jint 1)]) s in
  match (try_recv_event s).1 with
  | Some (TopicCallback _ payload) => at_path (Some payload) ["data"] (jint 1)
  | _ => false
  end.

Definition peer_error_log_omits_raw_payload_and_preserves_subscription : bool :=
  let s := (subscribe "errors" 0 (make_service "open")).2 in
  let message := obj [("type", JString "errors"); ("topic", JString "errors");
                      ("data", JArray [JString "sentinel-private-key"])] in
  let s := dispatch_subscription message now_ (handle_text_response message now_ s) in
  match (try_recv_event s).1 with
  | Some (TopicCallback _ payload) => bool_decide (payload = message)
  | _ => false
  end.

(** Whether the payload was copied is not a matter of values. *)
Definition subscription_moves_original_json_allocation_with_or_without_waiter : bool :=
  forallb (λ has_waiter : bool,
    let s := (subscribe "topic" 0 (make_service "open")).2 in
    let message := obj [("type", JString "res"); ("topic", JString "topic"); ("data", JString "owned-payload")] in
    let '(rx, s) := if has_waiter then insert_pending (incoming_key message) any_response s else (-1, s) in
    let s := run_resolve message now_ s in
    let resolved := try_recv_reply rx s in
    let s := dispatch_subscription message now_ s in
    asserts
      [bool_decide (resolved = if has_waiter then Some (Ok message) else None);
       match (try_recv_event s).1 with
       | Some (TopicCallback _ payload) => at_path (Some payload) ["data"] (JString "owned-payload")
       | _ => false
       end]) [false; true].

Definition subscription_quota_failure_does_not_prevent_pending_completion : bool :=
  let s := (subscribe "topic" 0 (make_service "open")).2 in
  let message := obj [("type", JString "res"); ("topic", JString "topic"); ("data", JString "payload")] in
  let s := Nat.iter 64 (dispatch_subscription message now_) s in
  let '(response, s) := insert_pending (incoming_key message) any_response s in
  let s := process_text (session_id s) message s in
  let '(all, s) := Nat.iter 64 (λ '(all, s), let '(event, s) := try_recv_event s in
                                  (all && bool_decide (is_Some event), s)) (true, s) in
  asserts
    [bool_decide (try_recv_reply response s = Some (Ok message)); all;
     match (try_recv_event s).1 with None => true | Some _ => false end].

Definition chunk_waiter_merges_but_subscriber_receives_original_chunks_in_both_schemas : bool :=
  forallb (λ chunk_data : (string → Z → Z → list Z → value) * list string,
    let '(chunk, payload_path) := chunk_data in
    let s := (subscribe "topic" 0 (make_service "open")).2 in
    let first := chunk "res" 1 2 [65] in
    let second := chunk "res" 2 2 [66] in
    let '(response, s) := insert_pending (incoming_key first) any_response s in
    let delivers message s :=
      let '(event, s) := try_recv_event (process_text (session_id s) message s) in
      (match event with Some (TopicCallback _ payload) => bool_decide (payload = message) | _ => false end, s) in
    let '(one, s) := delivers first s in
    let waiting := bool_decide (try_recv_reply response s = None) in
    let '(two, s) := delivers second s in
    asserts
      [one; waiting; two;
       at_path (try_recv_reply response s ≫= ok) payload_path (JArray [jint 65; jint 66]);
       match (try_recv_event s).1 with None => true | Some _ => false end])
    [(content_chunk, ["data"; "data"]); (file_chunk, ["info"; "file"; "data"])].

Definition subscribe_sends_subscribe_message : bool :=
  let '(r, s) := subscribe "rt/lf/sportmodestate" 0 (make_service "open") in
  asserts
    [is_ok r; bool_decide (length (sent (transport s)) = 1%nat);
     at_path (frames s !! 0%nat) ["type"] (JString types.subscribe);
     at_path (frames s !! 0%nat) ["topic"] (JString "rt/lf/sportmodestate")].

Definition decimal (m k : Z) : value := JNumber (Float (decimal_f64 m (- k))).
Definition vector (l : list (Z * Z)) : value := JArray ((λ mk, decimal mk.1 mk.2) <$> l).
Definition zero_vector : value := vector [(0, 1); (0, 1); (0, 1)].
Definition subscribed_topic_dispatches_callback_event : bool :=
  let s := (subscribe "rt/lf/sportmodestate" 0 (make_service "open")).2 in
  let state_msg := obj [("type", JString "msg"); ("topic", JString "rt/lf/sportmodestate");
    ("data", obj [
      ("mode", jint 1); ("gait_type", jint 0); ("foot_raise_height", decimal 9 2);
      ("position", zero_vector); ("body_height", decimal 32 2); ("velocity", zero_vector);
      ("yaw_speed", decimal 0 1);
      ("imu_state", obj [("quaternion", vector [(10, 1); (0, 1); (0, 1); (0, 1)]);
        ("gyroscope", zero_vector); ("accelerometer", vector [(0, 1); (0, 1); (981, 2)]);
        ("rpy", zero_vector); ("temperature", jint 36)])])] in
  match (try_recv_event (send state_msg s)).1 with
  | Some (TopicCallback topic payload) =>
      asserts [seqb topic "rt/lf/sportmodestate"; at_path (Some payload) ["data"; "mode"] (jint 1);
               bool_decide (payload = state_msg)]
  | _ => false
  end.

Definition unsubscribe_stops_dispatch : bool :=
  let s := (subscribe "rt/lf/lowstate" 0 (make_service "open")).2 in
  let s := (unsubscribe "rt/lf/lowstate" 0 s).2 in
  let msg := obj [("type", JString "msg"); ("topic", JString "rt/lf/lowstate"); ("data", obj [("motor_state", JArray [])])] in
  match (try_recv_event (send msg s)).1 with None => true | Some _ => false end.

(** ** Requests *)
Definition sport_response (topic : string) (id api_id : Z) : value :=
  obj [("type", JString "res"); ("topic", JString topic);
       ("data", obj [("header", obj [("identity", obj [("id", jint id); ("api_id", jint api_id)]);
                                     ("status", obj [("code", jint 0)])]);
                     ("data", JString "")])].
Definition is_string (v : option value) : bool := match v with Some (JString _) => true | _ => false end.
(** The call, its response, its result and the service. *)
Definition answered_request (topic : string) (options response : value) : option (PortResult value) * Mock :=
  match publish_request_new topic options (Some (F64.of_Z 1)) 0 (make_service "open") with
  | (Ok call, s) => let s := send response s in (publish_poll call 20000000 s, publish_end call s)
  | (Err e, s) => (Some (Err e), s)
  end.

Definition publish_request_new_builds_sport_payload : bool :=
  let '(result, s) := answered_request "rt/api/sport/request" (obj [("api_id", jint 1034); ("id", jint 4242)])
                        (sport_response "rt/api/sport/response" 4242 1034) in
  let req := frames s !! 0%nat in
  asserts
    [match result with Some (Ok _) => true | _ => false end;
     at_path req ["type"] (JString types.request); at_path req ["topic"] (JString "rt/api/sport/request");
     at_path req ["data"; "header"; "identity"; "api_id"] (jint 1034);
     at_path req ["data"; "header"; "identity"; "id"] (jint 4242);
     is_string (req ≫= λ v, get_path v ["data"; "parameter"])].

Definition publish_request_new_rejects_mismatched_response_topic : bool :=
  let '(result, _) := answered_request "rt/api/sport/request" (obj [("api_id", jint 1005); ("id", jint 5252)])
                        (sport_response "rt/api/vui/response" 5252 1005) in
  error_contains "Response topic mismatch" result.

Definition publish_request_new_rejects_duplicate_inflight_id : bool :=
  let '(first, s) := publish_request_new "rt/api/sport/request" (obj [("api_id", jint 1034); ("id", jint 6262)])
                       (Some (decimal_f64 2 (-1))) 0 (make_service "open") in
  let '(second, s) := publish_request_new "rt/api/vui/request" (obj [("api_id", jint 1001); ("id", jint 6262)])
                        (Some (decimal_f64 2 (-1))) 20000000 s in
  asserts
    [match second with Err e => str_contains "Duplicate in-flight request key" e | Ok _ => false end;
     bool_decide (is_Some (publish_result (first, s) 220000000))].

(** Two hundred of the two thousand. *)
Definition generated_identity_ids_are_unique_in_burst : bool :=
  bool_decide (NoDup (generate_ids 200 (make_service "open"))).

Definition publish_request_new_with_dict_parameter : bool :=
  let '(result, s) := answered_request "rt/api/sport/request"
        (obj [("api_id", jint 1030); ("id", jint 8383); ("parameter", obj [("data", JBool true)])])
        (sport_response "rt/api/sport/response" 8383 1030) in
  asserts
    [match result with Some (Ok _) => true | _ => false end;
     is_string (frames s !! 0%nat ≫= λ v, get_path v ["data"; "parameter"])].

Definition publish_without_callback_sends_correct_message : bool :=
  let '(r, s) := publish_without_callback "rt/utlidar/switch" (Some (JString "on")) None 0 (make_service "open") in
  let msg := frames s !! 0%nat in
  asserts
    [is_ok r; bool_decide (length (sent (transport s)) = 1%nat); at_path msg ["type"] (JString types.msg);
     at_path msg ["topic"] (JString "rt/utlidar/switch"); at_path msg ["data"] (JString "on")].
Definition publish_without_callback_fails_on_closed_channel : bool :=
  is_err (publish_without_callback "rt/utlidar/switch" (Some (JString "on")) None 0 (make_service "closed")).1.
Definition publish_request_builds_payload : bool :=
  let '(r, s) := publish_without_callback "rt/api/sport/request" (Some (obj [("api_id", jint 1016)])) None 0
                   (make_service "open") in
  asserts
    [is_ok r; at_path (frames s !! 0%nat) ["type"] (JString types.msg);
     at_path (frames s !! 0%nat) ["topic"] (JString "rt/api/sport/request")].

Definition motion_switcher_flow_sends_two_requests : bool :=
  let request api_id parameter :=
    obj [("header", obj [("identity", obj [("api_id", jint api_id); ("id", jint 0)])]); ("parameter", JString parameter)] in
  let topic := "rt/api/motion_switcher/request" in
  let s := (publish_without_callback topic (Some (request 1001 "")) (Some types.request) 0 (make_service "open")).2 in
  let named := write_value (obj [("name", JString "normal")]) in
  let s := (publish_without_callback topic (Some (request 1002 named)) (Some types.request) 0 s).2 in
  let requests := filter (λ v, at_path (Some v) ["type"] (JString types.request) = true) (frames s) in
  let path := ["data"; "header"; "identity"; "api_id"] in
  asserts
    [bool_decide (length requests = 2%nat); at_path (requests !! 0%nat) ["topic"] (JString topic);
     at_path (requests !! 0%nat) path (jint 1001); at_path (requests !! 1%nat) ["topic"] (JString topic);
     at_path (requests !! 1%nat) path (jint 1002)].

(** [disable_traffic_saving] and its response. *)
Definition traffic_saving_disabled (execution : string) : option bool :=
  match disable_traffic_saving true 0 (make_service "open") with
  | (Ok call, s) =>
      let resp := obj [("type", JString "rtc_inner_req"); ("topic", JString ""); ("info", obj [("execution", JString execution)])] in
      execution_ok <$> (publish_poll call 20000000 (send resp s) ≫= ok)
  | (Err _, _) => None
  end.
Definition disable_traffic_saving_returns_true_on_success : bool :=
  bool_decide (traffic_saving_disabled "ok" = Some true).
Definition disable_traffic_saving_returns_false_on_failure : bool :=
  bool_decide (traffic_saving_disabled "failed" = Some false).

Definition switch_video_channel_sends_correct_message : bool :=
  let '(r, s) := switch_video_channel true 0 (make_service "open") in
  asserts [is_ok r; bool_decide (length (sent (transport s)) = 1%nat);
           at_path (frames s !! 0%nat) ["type"] (JString types.vid); at_path (frames s !! 0%nat) ["data"] (JString "on")].
Definition switch_video_channel_off_sends_off : bool :=
  let '(r, s) := switch_video_channel false 0 (make_service "open") in
  asserts [is_ok r; at_path (frames s !! 0%nat) ["data"] (JString "off")].
Definition switch_audio_channel_sends_correct_message : bool :=
  let '(r, s) := switch_audio_channel true 0 (make_service "open") in
  asserts [is_ok r; bool_decide (length (sent (transport s)) = 1%nat);
           at_path (frames s !! 0%nat) ["type"] (JString types.aud); at_path (frames s !! 0%nat) ["data"] (JString "on")].

(** ** Throttling, decoder and log *)
Definition throttle_limits_lidar_topic : bool :=
  let topic := "rt/utlidar/voxel_map_compressed" in
  let '(first, s) := should_process topic (secs_dispatch now_) (make_service "open") in
  let '(second, s) := should_process topic (secs_dispatch now_) s in
  asserts [first; negb second].
Definition unthrottled_topics_always_pass : bool :=
  (Nat.iter 5 (λ '(all, s), let '(b, s) := should_process "rt/lf/sportmodestate" (secs_dispatch now_) s in (all && b, s))
     (true, make_service "open")).1.

Definition set_decoder_validates_type : bool :=
  let s := make_service "open" in
  let '(r1, s1) := set_decoder "native" s in
  let '(r2, s2) := set_decoder "libvoxel" s1 in
  asserts
    [seqb (decoder_name s) "NativeDecoder"; is_ok r1; seqb (decoder_name s1) "NativeDecoder"; is_err r2;
     seqb (decoder_name s2) "NativeDecoder"; is_err (set_decoder "unknown_decoder" s2).1].

Definition error_log_is_suppressed_for_empty_error_list : bool :=
  negb (should_emit_error_log (obj [("type", JString "errors"); ("data", JArray [])])).
Definition error_log_is_emitted_for_non_empty_error_list : bool :=
  should_emit_error_log (obj [("type", JString "errors");
                              ("data", JArray [JArray [jint 1700000000; jint 100; jint 1]])]).

(** ** Binary messages *)
Definition header_frame (header : value) (payload : bytes) : bytes :=
  let json := as_bytes (write_value header) in to_le_bytes 2 (len json) ++ [0; 0] ++ json ++ payload.

Definition binary_normal_header_parses_json : bool :=
  let header := obj [("type", JString "msg"); ("topic", JString "rt/custom")] in
  let parsed := (deal_array_buffer (header_frame header []) now_ (make_service "open")).1 in
  asserts [at_path parsed ["type"] (JString "msg"); at_path parsed ["topic"] (JString "rt/custom")].

Definition binary_lidar_tag_rejects_missing_metadata : bool :=
  let json := as_bytes (write_value (obj [("topic", JString "rt/utlidar/voxel_map_compressed")])) in
  let buf := to_le_bytes 2 2 ++ to_le_bytes 2 0 ++ to_le_bytes 4 (len json) ++ replicate 4 0 ++ json in
  bool_decide ((deal_array_buffer buf now_ (make_service "open")).1 = None).

Definition invalid_lidar_metadata_never_falls_back_to_raw_binary : bool :=
  let lidar origin resolution src_size :=
    obj [("origin", JArray (jint <$> origin)); ("resolution", resolution); ("src_size", JNumber (num_of_u64 src_size))] in
  forallb (λ data,
    let message := obj [("type", JString "msg"); ("topic", JString "rt/custom"); ("data", data)] in
    bool_decide ((deal_array_buffer (header_frame message [1]) now_ (make_service "open")).1 = None))
    [lidar [0; 0; 0] (decimal 1 1) usize_max; lidar [0; 0] (decimal 1 1) 1; lidar [0; 0; 0] (decimal 0 1) 1].

(** ** Validation and heartbeat *)
Definition validation_ok_sets_channel_opened : bool :=
  let s := send (obj [("type", JString "validation"); ("data", JString "test-key-xyz")]) (make_service "open") in
  data_channel_opened (link (send validation_ok s)).
Definition validation_ok_starts_heartbeat : bool :=
  heartbeat_running (link (send validation_ok (make_service "open"))).

(** The thread that was started looks again: it ends. *)
Definition heartbeat_started : Mock :=
  let s := start_heartbeat_in_session (make_service "open") in (heartbeat_step (session_id s) 0 true now_ s).2.
Definition heartbeat_ends (epoch id : Z) s : bool :=
  bool_decide (heartbeat_stop_tx (link s) = None) && negb (heartbeat_step epoch id true (at_ 2) s).1.
Definition heartbeat_reset_releases_producers_before_next_tick : bool :=
  let s := heartbeat_started in heartbeat_ends (session_id s) 0 (start_new_session s).
Definition heartbeat_transport_fault_releases_producers_before_next_tick : bool :=
  let s := heartbeat_started in
  heartbeat_ends (session_id s) 0
    (process_ingress (Json.for_generation (TransportFault "fixture send failure") (session_id s)) now_ s).
Definition heartbeat_stop_releases_producers_before_next_tick : bool :=
  let s := heartbeat_started in heartbeat_ends (session_id s) 0 (stop_background_tasks s).
Definition heartbeat_reconnect_does_not_revive_old_worker : bool :=
  let s := heartbeat_started in
  let old := session_id s in
  let s1 := start_heartbeat_in_session (start_new_session s) in
  let s2 := (heartbeat_step (session_id s1) 1 true (at_ 2) s1).2 in
  (* both threads wake for their next beat *)
  let s3 := (heartbeat_step (session_id s2) 1 true (at_ 4) (heartbeat_step old 0 true (at_ 4) s2).2).2 in
  asserts
    [bool_decide (length (sent (transport s)) = 1%nat); bool_decide (length (sent (transport s2)) = 2%nat);
     bool_decide (length (sent (transport s3)) = 3%nat)].

Definition datachannel_status_reports_transport_and_heartbeat : bool :=
  let s := make_service "open" in
  let now := unix_secs now_ in
  let s := set_last_response (saturating_sub now 3) (with_link (heartbeat_on (link (set_opened true s))) s) in
  let s := set_opened true s in
  asserts
    [seqb (ready_state (transport s)) "open"; is_open s; heartbeat_running (link s);
     match last_heartbeat_age_s now s with Some age => 3 <=? age | None => false end].

Definition stop_background_tasks_sets_flags_to_false : bool :=
  let s := set_opened true (set_probe true (start_heartbeat_in_session (make_service "open"))) in
  let s := stop_background_tasks s in
  asserts [negb (heartbeat_running (link s)); negb (network_probe_running (link s)); negb (data_channel_opened (link s))].

(** ** Waiting for the channel *)
Definition wait_datachannel_open_succeeds_when_already_open : bool :=
  bool_decide (wait_datachannel_open (F64.of_Z 1) 0 [(0, set_opened true (make_service "open"))] = Some (Ok ())).
Definition wait_datachannel_open_times_out : bool :=
  let s := make_service "open" in
  error_contains "did not open in time"
    (wait_datachannel_open (decimal_f64 1 (-1)) 0 ((λ i, (i * 50000000, s)) <$> seqZ 0 5)).
Definition wait_datachannel_open_succeeds_when_opened_later : bool :=
  let s := make_service "open" in
  bool_decide (wait_datachannel_open (F64.of_Z 1) 0 [(0, s); (50000000, set_opened true s)] = Some (Ok ())).

(** ** All of them *)
Definition service_tests : list (string * bool) :=
  [("boundary_response_topic_mismatch_redacts_arbitrary_peer_values", boundary_response_topic_mismatch_redacts_arbitrary_peer_values);
   ("pending_request_admission_is_bounded_before_sending", pending_request_admission_is_bounded_before_sending);
   ("transport_fault_fails_pending_without_response_timeout", transport_fault_fails_pending_without_response_timeout);
   ("pending_registration_and_enqueue_finish_before_reset", pending_registration_and_enqueue_finish_before_reset);
   ("invalid_timeouts_are_rejected_before_send", invalid_timeouts_are_rejected_before_send);
   ("chunk_bytes_reject_out_of_range_values", chunk_bytes_reject_out_of_range_values);
   ("chunk_final_index_does_not_complete_missing_chunks", chunk_final_index_does_not_complete_missing_chunks);
   ("validated_flag_alone_does_not_make_closed_transport_ready", validated_flag_alone_does_not_make_closed_transport_ready);
   ("both_chunk_schemas_reassemble_in_index_order", both_chunk_schemas_reassemble_in_index_order);
   ("malformed_chunk_fails_pending_without_partial_success", malformed_chunk_fails_pending_without_partial_success);
   ("cancelled_publish_reclaims_pending_and_partial_chunks", cancelled_publish_reclaims_pending_and_partial_chunks);
   ("cancelled_old_request_guard_preserves_replacement", cancelled_old_request_guard_preserves_replacement);
   ("chunked_response_reassembles_before_callback", chunked_response_reassembles_before_callback);
   ("stale_ingress_cannot_validate_or_retain_chunks", stale_ingress_cannot_validate_or_retain_chunks);
   ("stale_response_cannot_resolve_reused_user_request_id", stale_response_cannot_resolve_reused_user_request_id);
   ("ingress_generation_is_checked_after_acquiring_processing_lock", ingress_generation_is_checked_after_acquiring_processing_lock);
   ("start_new_session_fails_pending_requests", start_new_session_fails_pending_requests);
   ("subscription_sets_commit_only_after_accepted_send", subscription_sets_commit_only_after_accepted_send);
   ("malformed_binary_header_does_not_kill_router", malformed_binary_header_does_not_kill_router);
   ("peer_error_log_omits_raw_payload_and_preserves_subscription", peer_error_log_omits_raw_payload_and_preserves_subscription);
   ("subscription_moves_original_json_allocation_with_or_without_waiter", subscription_moves_original_json_allocation_with_or_without_waiter);
   ("subscription_quota_failure_does_not_prevent_pending_completion", subscription_quota_failure_does_not_prevent_pending_completion);
   ("chunk_waiter_merges_but_subscriber_receives_original_chunks_in_both_schemas", chunk_waiter_merges_but_subscriber_receives_original_chunks_in_both_schemas);
   ("subscribe_sends_subscribe_message", subscribe_sends_subscribe_message);
   ("subscribed_topic_dispatches_callback_event", subscribed_topic_dispatches_callback_event);
   ("unsubscribe_stops_dispatch", unsubscribe_stops_dispatch);
   ("publish_request_new_builds_sport_payload", publish_request_new_builds_sport_payload);
   ("publish_request_new_rejects_mismatched_response_topic", publish_request_new_rejects_mismatched_response_topic);
   ("publish_request_new_rejects_duplicate_inflight_id", publish_request_new_rejects_duplicate_inflight_id);
   ("generated_identity_ids_are_unique_in_burst", generated_identity_ids_are_unique_in_burst);
   ("publish_request_new_with_dict_parameter", publish_request_new_with_dict_parameter);
   ("publish_without_callback_sends_correct_message", publish_without_callback_sends_correct_message);
   ("publish_without_callback_fails_on_closed_channel", publish_without_callback_fails_on_closed_channel);
   ("publish_request_builds_payload", publish_request_builds_payload);
   ("motion_switcher_flow_sends_two_requests", motion_switcher_flow_sends_two_requests);
   ("disable_traffic_saving_returns_true_on_success", disable_traffic_saving_returns_true_on_success);
   ("disable_traffic_saving_returns_false_on_failure", disable_traffic_saving_returns_false_on_failure);
   ("switch_video_channel_sends_correct_message", switch_video_channel_sends_correct_message);
   ("switch_video_channel_off_sends_off", switch_video_channel_off_sends_off);
   ("switch_audio_channel_sends_correct_message", switch_audio_channel_sends_correct_message);
   ("throttle_limits_lidar_topic", throttle_limits_lidar_topic);
   ("unthrottled_topics_always_pass", unthrottled_topics_always_pass);
   ("set_decoder_validates_type", set_decoder_validates_type);
   ("error_log_is_suppressed_for_empty_error_list", error_log_is_suppressed_for_empty_error_list);
   ("error_log_is_emitted_for_non_empty_error_list", error_log_is_emitted_for_non_empty_error_list);
   ("binary_normal_header_parses_json", binary_normal_header_parses_json);
   ("binary_lidar_tag_rejects_missing_metadata", binary_lidar_tag_rejects_missing_metadata);
   ("invalid_lidar_metadata_never_falls_back_to_raw_binary", invalid_lidar_metadata_never_falls_back_to_raw_binary);
   ("validation_ok_sets_channel_opened", validation_ok_sets_channel_opened);
   ("validation_ok_starts_heartbeat", validation_ok_starts_heartbeat);
   ("heartbeat_reset_releases_producers_before_next_tick", heartbeat_reset_releases_producers_before_next_tick);
   ("heartbeat_transport_fault_releases_producers_before_next_tick", heartbeat_transport_fault_releases_producers_before_next_tick);
   ("heartbeat_stop_releases_producers_before_next_tick", heartbeat_stop_releases_producers_before_next_tick);
   ("heartbeat_reconnect_does_not_revive_old_worker", heartbeat_reconnect_does_not_revive_old_worker);
   ("datachannel_status_reports_transport_and_heartbeat", datachannel_status_reports_transport_and_heartbeat);
   ("stop_background_tasks_sets_flags_to_false", stop_background_tasks_sets_flags_to_false);
   ("wait_datachannel_open_succeeds_when_already_open", wait_datachannel_open_succeeds_when_already_open);
   ("wait_datachannel_open_times_out", wait_datachannel_open_times_out);
   ("wait_datachannel_open_succeeds_when_opened_later", wait_datachannel_open_succeeds_when_opened_later)].
Theorem service_tests_pass : Forall (λ test, test.2 = true) service_tests.
Proof. unfold service_tests. repeat constructor; by vm_compute. Qed.
