(* ===== verification/CoreTests.v ===== *)
(** * The tests of the core components, replayed

    The unit tests of datachannel/core/chunks.rs, framing.rs, diagnostics.rs,
    video/h264_rtp.rs, datachannel/lidar/, protocol/models.rs, constants.rs, ingress.rs
    and events.rs on the model, each as the conjunction of its assertions.  Left out are
    the tests on payloads of a megabyte and the captured log output. *)
From S2P Require Import Prelude Floats Json Ingress Constants Channel Events JsonText.
From S2P Require Chunks H264 Framing Diagnostics Lidar.
#[local] Open Scope Z_scope.

Abbreviation asserts := (forallb id).

(** ** datachannel/core/chunks.rs *)
Section chunks.
Import Chunks.
Abbreviation content := (λ key index total data now a, insert a key "content" index total data now).

Definition ordered_complete_assembly_and_duplicates : bool :=
  let '(r1, a) := content "key" 2 2 [2] 0 ∅ in
  let '(r2, a) := content "key" 2 2 [2] 0 a in
  let '(r3, a) := content "key" 1 2 [1] 0 a in
  asserts [bool_decide (r1 = Ok None); bool_decide (r2 = Ok None); bool_decide (r3 = Ok (Some [1; 2])); bool_decide (a = ∅)].

Definition malformed_and_conflicting_chunks_discard_transfer : bool :=
  let '(r1, a1) := content "key" 1 2 [1] 0 ∅ in
  let '(r2, a2) := content "key" 1 2 [2] 0 a1 in
  let '(r3, a3) := content "key" 1 2 [1] 0 a2 in
  let '(r4, a4) := content "key" 2 3 [2] 0 a3 in
  asserts
    [forallb (λ it : Z * Z, is_err (content "key" it.1 it.2 [] 0 ∅).1) [(0, 2); (3, 2); (1, 0); (1, MAX_CHUNKS + 1)];
     is_ok r1; is_err r2; bool_decide (a2 = ∅); is_ok r3; is_err r4; bool_decide (a4 = ∅)].

Definition schema_mismatch_never_merges_identical_request_keys : bool :=
  let '(r1, a) := insert ∅ "same-id" "content" 1 2 [1] 0 in
  let '(r2, a) := insert a "same-id" "file" 2 2 [2] 0 in
  asserts [is_ok r1; is_err r2; bool_decide (a = ∅)].

Definition expiry_does_not_slide_with_incoming_chunks : bool :=
  let '(r1, a) := content "key" 1 3 [1] 0 ∅ in
  let '(r2, a) := content "key" 2 3 [2] (TRANSFER_TTL / 2) a in
  let '(expired, a) := expire a TRANSFER_TTL in
  asserts [is_ok r1; is_ok r2; bool_decide (expired = ["key"]); bool_decide (a = ∅)].

(** The counts; the bytes are tested on transfers of sixteen megabytes. *)
Definition transfer_count_and_byte_budgets : bool :=
  let '(all, a) := foldl (λ '(all, a) index,
                      let '(r, a) := content (pretty index) 1 2 [] 0 a in (all && is_ok r, a))
                    (true, ∅) (seqZ 0 MAX_TRANSFERS) in
  asserts [all; is_err (content "extra" 1 2 [] 0 a).1; is_ok (content "extra" 1 2 [] 0 (clear a)).1].
End chunks.

(** ** datachannel/core/framing.rs *)
Section framing.
Import Framing.

Definition brackets (n : nat) (c : Z) : bytes := replicate n c.
Definition boundary_binary_headers_share_preallocation_json_depth_policy : bool :=
  let header := as_bytes "{" ++ as_bytes (write_string "data") ++ as_bytes ":" ++ brackets 64 91
                ++ as_bytes "null" ++ brackets 64 93 ++ as_bytes "}" in
  is_err (parse (to_le_bytes 2 (len header) ++ [1; 0] ++ header)).

Definition framing_rejects_truncation_and_invalid_json : bool :=
  forallb (λ buffer, is_err (parse buffer))
    [[]; [2; 0; 0; 0]; [255; 255; 0; 0]; [2; 0; 0; 0; 255; 255; 255; 255]; [1; 0; 0; 0; 255]].

Definition both_schemas_preserve_header_and_body : bool :=
  forallb (λ prefix,
    match parse (prefix ++ as_bytes "{}" ++ [1; 2; 3]) with
    | Ok (_, header, body) => bool_decide (header = obj []) && bool_decide (body = [1; 2; 3])
    | Err _ => false
    end) [[2; 0; 1; 0]; [2; 0; 0; 0; 2; 0; 0; 0; 0; 0; 0; 0]].

Definition both_schemas_reject_non_object_headers : bool :=
  forallb (λ header,
    let length := len header in
    forallb (λ prefix,
      match parse (prefix ++ header ++ [1; 2; 3]) with
      | Err error => match String.index 0 "must be an object" error with Some _ => true | None => false end
      | Ok _ => false
      end)
      [to_le_bytes 2 length ++ [1; 0]; [2; 0; 0; 0] ++ to_le_bytes 4 length ++ [0; 0; 0; 0]])
    [as_bytes "null"; as_bytes "0"; as_bytes "true"; as_bytes (write_string "text"); as_bytes "[]"].
End framing.

(** ** diagnostics.rs *)
Section diagnostics.
Import Diagnostics.
Implicit Types (log : RepeatState).

(** A hundred events instead of ten thousand. *)
Definition burst_summaries_account_for_every_event_and_flush_once : bool :=
  let '(r1, log) := record_at 0 repeat_default in
  let '(quiet, log) := Nat.iter 99 (λ '(quiet, log), let '(r, log) := record_at 0 log in (quiet && bool_decide (r = None), log))
                         (true, log) in
  let '(r2, log) := record_at WINDOW log in
  let '(r3, log) := take_pending log in
  let '(r4, log) := record_at WINDOW log in
  let '(r5, log) := take_pending log in
  let '(r6, log) := take_pending log in
  let '(r7, log) := record_at (WINDOW * 2) log in
  asserts
    [bool_decide (r1 = Some (1, 0)); quiet; bool_decide (r2 = Some (100, 100)); bool_decide (r3 = None);
     bool_decide (r4 = None); bool_decide (r5 = Some (1, 1)); bool_decide (r6 = None); bool_decide (r7 = Some (1, 1))].

Definition owners_are_independent_and_counters_saturate : bool :=
  let '(r1, first) := record_at 0 repeat_default in
  let '(r2, first) := record_at 0 first in
  let '(r3, second) := record_at 0 repeat_default in
  let first := {| last_report := last_report first; pending := u64_max |} in
  let '(r4, first) := record_at 0 first in
  asserts
    [bool_decide (r1 = Some (1, 0)); bool_decide (r2 = None); bool_decide (r3 = Some (1, 0)); bool_decide (r4 = None);
     bool_decide ((take_pending first).1 = Some (u64_max, u64_max)); bool_decide ((take_pending second).1 = None)].

Definition reset_flushes_previous_generation_and_reports_the_new_first_event : bool :=
  let '(r1, log) := record_at 0 repeat_default in
  let '(r2, log) := record_at 0 log in
  let '(_, log) := reset log in
  let '(r3, log) := take_pending log in
  asserts [bool_decide (r1 = Some (1, 0)); bool_decide (r2 = None); bool_decide (r3 = None);
           bool_decide ((record_at 0 log).1 = Some (1, 0))].
End diagnostics.

(** ** video/h264_rtp.rs *)
Section h264.
Import H264.

(** The results of [process_packet] on each payload, of [process_rtp_packet] on each
    payload with its sequence number and timestamp. *)
Fixpoint packets (st : H264RtpReassembler) (l : list bytes) : list (option bytes) :=
  match l with
  | [] => []
  | p :: l => let '(r, st) := process_packet st p in r :: packets st l
  end.
Fixpoint rtp_packets (st : H264RtpReassembler) (l : list (bytes * Z * Z)) : list (option bytes) :=
  match l with
  | [] => []
  | (p, seq, ts) :: l => let '(r, st) := process_rtp_packet st p seq ts in r :: rtp_packets st l
  end.

Definition single_nal_unit_returned_immediately : bool :=
  bool_decide (packets new [[0x65; 0x88; 0x84; 0]] = [Some [0x65; 0x88; 0x84; 0]]).
Definition fragmented_nal_reassembles_correctly : bool :=
  bool_decide (packets new [[0x7C; 0x85; 1; 2; 3]; [0x7C; 0x05; 4; 5; 6]; [0x7C; 0x45; 7; 8]] =
    [None; None; Some [0x65; 1; 2; 3; 4; 5; 6; 7; 8]]).
Definition incomplete_fragment_returns_none : bool := bool_decide (packets new [[0x7C; 0x05; 1; 2]] = [None]).
Definition empty_payload_returns_none : bool := bool_decide (packets new [[]] = [None]).
Definition fu_a_insufficient_length_returns_none : bool := bool_decide (packets new [[FU_A_TYPE]] = [None]).
Definition malformed_fragment_discards_pending_nal : bool :=
  bool_decide (tail (packets new [[0x7c; 0x85; 1]; [0x7c]; [0x7c; 0x45; 2]]) = [None; None]).
Definition mismatched_fragment_discards_pending_nal : bool :=
  bool_decide (tail (packets new [[0x7c; 0x85; 1]; [0x7c; 0x41; 2]]) = [None]).
Definition interruption_and_invalid_headers_reset_assembly : bool :=
  forallb (λ interruption,
    bool_decide (packets new [[0x7c; 0x85; 1]; interruption; [0x7c; 0x45; 2]] !! 2%nat = Some None))
    [[]; [0x65; 3]; [0x7c; 0xc5; 3]; [0xfc; 0x45; 3]; [0x7c; 0x65; 3]].

Definition rtp_discontinuity_discards_the_entire_fragmented_nal : bool :=
  forallb (λ st : Z * Z,
    bool_decide (rtp_packets new
      [([0x7c; 0x85; 0xaa], 40, 90000); ([0x7c; 0x45; 0xbb], st.1, st.2); ([0x7c; 0x45; 0xcc], 43, 90000);
       ([0x7c; 0x85; 0x11], 50, 96000); ([0x7c; 0x45; 0x22], 51, 96000)] =
      [None; None; None; None; Some [0x65; 0x11; 0x22]]))
    [(42, 90000); (40, 90000); (39, 90000); (41, 93000)].
Definition rtp_wraparound_and_timestamps_between_complete_nals_are_valid : bool :=
  bool_decide (rtp_packets new
    [([0x7c; 0x85; 0x10], 65535, 4294967295); ([0x7c; 0x45; 0x20], 0, 4294967295); ([0x61; 0x33], 1, 2999);
     ([0x7c; 0x85; 0x40], 2, 5999); ([0x7c; 0x45; 0x50], 3, 5999)] =
    [None; Some [0x65; 0x10; 0x20]; Some [0x61; 0x33]; None; Some [0x65; 0x40; 0x50]]).
Definition new_start_recovers_without_reusing_abandoned_fragment_bytes : bool :=
  bool_decide (rtp_packets new
    [([0x7c; 0x85; 0xff], 10, 90000); ([0x7c; 0x85; 0x11], 20, 93000); ([0x7c; 0x45; 0x22], 21, 93000)] !! 2%nat =
    Some (Some [0x65; 0x11; 0x22])).
Definition duplicated_or_reordered_starts_cannot_revive_an_older_active_nal : bool :=
  forallb (λ se : Z * Z,
    bool_decide (rtp_packets new
      [([0x7c; 0x85; 0xaa], 40, 90000); ([0x7c; 0x05; 0xbb], 41, 90000); ([0x7c; 0x85; 0xcc], se.1, 90000);
       ([0x7c; 0x45; 0xdd], se.2, 90000)] !! 3%nat = Some None)) [(40, 41); (39, 40)].
Definition duplicated_start_and_mixed_payload_api_cannot_complete_a_nal : bool :=
  let rtp p seq ts st := process_rtp_packet st p seq ts in
  let st := (rtp [0x7c; 0x85; 1] 10 90000 (rtp [0x7c; 0x85; 1] 10 90000 new).2).2 in
  let '(r1, st) := rtp [0x7c; 0x45; 2] 11 90000 st in
  let '(r2, st) := process_packet (rtp [0x7c; 0x85; 3] 12 93000 st).2 [0x7c; 0x45; 4] in
  let '(r3, _) := rtp [0x7c; 0x45; 6] 14 96000 (process_packet st [0x7c; 0x85; 5]).2 in
  bool_decide ([r1; r2; r3] = [None; None; None]).
End h264.

(** ** datachannel/lidar/ *)
Section lidar.
Import Lidar.
(** A block format that stores its input. *)
#[local] Instance stored_lz4 : Lz4 := {|
  lz4_decompress b n := if len b =? n then Ok b else Err "expected another byte" |}.
(** Capacities as asked for: a buffer of one number stands for [with_capacity] of it. *)
#[local] Program Instance capacity_layout : Layout := {|
  size_of_Value := 32; size_of_CallbackEvent := 96;
  string_capacity := slen; values_capacity := len; points_capacity := len;
  bytes_capacity l := Z.max (len l) (hd 0 l); samples_capacity := len |}.
Solve All Obligations with intros; simpl; lia.

Definition zero_origin : origin3 := (S754_zero false, S754_zero false, S754_zero false).
Definition f32s (l : list Z) : list f32 := F32.of_Z <$> l.

Definition empty_buffer_produces_no_points : bool :=
  bool_decide (bits_to_points_optimized [] zero_origin (decimal_f64 5 (-2)) = Ok []).
Definition all_zero_buffer_produces_no_points : bool :=
  bool_decide (bits_to_points_optimized (replicate 100 0) zero_origin (decimal_f64 5 (-2)) = Ok []).
Definition bits_to_points_produces_xyz_triplets : bool :=
  match bits_to_points_optimized [1; 0; 0] zero_origin (decimal_f64 5 (-2)) with
  | Ok points => len points mod 3 =? 0
  | Err _ => false
  end.
(** With a resolution of one the coordinates are exact. *)
Definition multi_byte_pattern_with_origin_offset : bool :=
  bool_decide (bits_to_points_optimized [0x80; 1] (F64.of_Z 10, F64.of_Z 20, F64.of_Z 30) (F64.of_Z 1) =
    Ok (f32s [10; 20; 30; 25; 20; 30])).
Definition decompress_lz4_invalid_data_returns_error : bool := is_err (decompress_lz4 [0xFF; 0xAA; 0xBB; 0xCC] 100).
Definition decompression_rejects_resource_sizes_before_allocation : bool :=
  is_err (decompress_lz4 [] usize_max).
Definition point_output_is_bounded_and_valid_geometry_is_preserved : bool :=
  asserts
    [is_err (bits_to_points_optimized [1] (S754_infinity false, S754_zero false, S754_zero false) (decimal_f64 4 (-2)));
     is_err (bits_to_points_optimized [1] zero_origin (S754_finite false 4503599627370496 (-1074)))].

Definition construction_rejects_invalid_workers_before_spawning : bool :=
  forallb (λ worker_count, is_err (try_new (C:=vec_chan) worker_count (λ _, true))) [0; 33; usize_max].

Definition lidar_json (origin : list value) (resolution : value) (src_size : Z) : value :=
  obj [("origin", JArray origin); ("resolution", resolution); ("src_size", JNumber (num_of_u64 src_size))].
Definition float (m k : Z) : value := JNumber (Float (decimal_f64 m (- k))).
Definition lidar_metadata_parses_valid_json : bool :=
  match from_json (lidar_json [JNumber (Float (F64.sub (S754_zero false) (decimal_f64 512 (-2))));
                               JNumber (Float (F64.sub (S754_zero false) (decimal_f64 512 (-2))));
                               JNumber (Float (F64.sub (S754_zero false) (decimal_f64 64 (-2))))] (float 4 2) 131072) with
  | Some meta => asserts [bool_decide (resolution meta = decimal_f64 4 (-2)); src_size meta =? 131072;
                          bool_decide ((origin meta).1.1 = SFopp (decimal_f64 512 (-2)))]
  | None => false
  end.
Definition lidar_metadata_returns_none_on_missing_fields : bool :=
  forallb (λ data, bool_decide (is_Some (from_json data) → False))
    [obj [("origin", JArray [float 0 1; float 0 1; float 0 1]); ("resolution", float 4 2)];
     obj [("resolution", float 4 2); ("src_size", jint 1024)]; obj []].
Definition metadata_rejects_invalid_geometry_and_size : bool :=
  let zeros := [jint 0; jint 0; jint 0] in
  forallb (λ data, match from_json data with None => true | Some _ => false end)
    [lidar_json zeros (jint 0) 3; lidar_json zeros (JNumber (Float (SFopp (decimal_f64 1 (-1))))) 3;
     lidar_json (zeros ++ [jint 1]) (float 1 1) 3;
     lidar_json [JNumber (Float (decimal_f64 1 300)); jint 0; jint 0] (float 1 1) 3; lidar_json zeros (float 1 1) u64_max].

Definition request (generation : Z) (topic : string) (data : bytes) (resolution : f64) (size : Z) : LidarDecodeRequest :=
  {| lr_generation := generation; lr_topic := topic; lr_payload := obj []; compressed_data := data;
     metadata := {| origin := zero_origin; resolution := resolution; src_size := size |} |}.
Definition test_channel (capacity : Z) : Events vec_chan :=
  match event_channel capacity with Ok (_, ch) => ch | Err _ => demo_channel end.

Definition worker_pool_decodes_single_bit_to_xyz_triplet : bool :=
  let topic := "rt/utlidar/voxel_map_compressed" in
  let req := request 0 topic [1; 0; 0] (decimal_f64 5 (-2)) 3 in
  let submitted := submit (bounded (C:=vec_chan) 4) req in
  let '(_, ch) := worker_step req [] 0 worker_default (test_channel 8) in
  match (try_recv ch).1 with
  | Ok (Some (LidarCallback t _ points)) =>
      asserts [is_ok submitted.1; seqb t topic;
               bool_decide (points = [F32.mul (F32.of_Z 7) (F32.of_f64 (decimal_f64 5 (-2))); S754_zero false; S754_zero false])]
  | _ => false
  end.
Definition worker_pool_submit_accepts_valid_requests : bool :=
  is_ok (submit (bounded (C:=vec_chan) 4) (request 0 "rt/utlidar/voxel_map_compressed" [0; 0; 0] (decimal_f64 5 (-2)) 3)).1.
Definition direct_requests_cannot_bypass_metadata_or_compressed_bounds : bool :=
  asserts
    [is_err (submit (bounded (C:=vec_chan) 1) (request 0 "lidar" [1] S754_nan 1)).1;
     is_err (decode_lidar (request 0 "lidar" [1] (S754_infinity false) 1))].
Definition old_submitted_work_cannot_be_relabelled_on_completion : bool :=
  let ch := set_generation 1 (test_channel 8) in
  let '(w, ch) := worker_step (request 0 "0" [1] (decimal_f64 5 (-2)) 1) [] 0 worker_default ch in
  let '(_, ch) := worker_step (request 1 "1" [1] (decimal_f64 5 (-2)) 1) [] 0 w ch in
  let '(r, ch) := try_recv ch in
  asserts
    [match r with Ok (Some (LidarCallback topic _ _)) => seqb topic "1" | _ => false end; is_err (try_recv ch).1].

(** ** protocol/events.rs *)
Definition media (capacity : Z) : CallbackEvent := VideoFrame [capacity] 1 1.
Definition topic_event : CallbackEvent := TopicCallback "state" (obj []).
Definition mib (n : Z) : Z := n * 1024 * 1024.
(** A send through a handle of [generation]. *)
Definition tx (generation : Z) (event : CallbackEvent) (ch : Events vec_chan) : bool * Events vec_chan :=
  let '(r, ch) := try_send {| s_generation := generation |} (current ch) event ch in (is_ok r, ch).
Definition usage_is (count bytes : list Z) (ch : Events vec_chan) : bool :=
  bool_decide (ucount (usage (budget ch)) = count) && bool_decide (ubytes (usage (budget ch)) = bytes).

Definition budgets_include_dequeued_delivery_and_old_generations : bool :=
  let '(b1, ch) := tx 0 (media (mib 20)) (test_channel 8) in
  let '(delivery, ch) := recv_delivery [] ch in
  let '(b2, ch) := tx 0 (media (mib 20)) ch in
  let ch := set_generation 1 ch in
  let current := match delivery with Some (Some d) => is_current ch d | _ => true end in
  let '(b3, ch) := tx 0 (media 1) ch in
  let '(b4, ch) := tx 1 (media (mib 20)) ch in
  let '(b5, ch) := tx 1 (media (mib 20)) (drop_owned 0 ch) in
  asserts [b1; negb b2; negb current; negb b3; negb b4; b5].

Definition control_has_independent_capacity_and_priority : bool :=
  let '(b1, ch) := tx 0 (media 1024) (test_channel 1) in
  let '(b2, ch) := tx 0 (media 1) ch in
  let '(b3, ch) := tx 0 topic_event ch in
  let '(r1, ch) := try_recv ch in
  let '(r2, ch) := try_recv ch in
  let '(b4, ch) := tx 0 (media 1) ch in
  asserts
    [b1; negb b2; b3; match r1 with Ok (Some (TopicCallback _ _)) => true | _ => false end;
     match r2 with Ok (Some (VideoFrame _ _ _)) => true | _ => false end; b4].

Definition extracting_event_does_not_release_dispatch_permit : bool :=
  let '(b1, ch) := tx 0 (media 1) (test_channel 1) in
  let '(delivery, ch) := recv_delivery [] ch in
  let '(event, ch) := take_event 0 ch in
  let '(b2, ch) := tx 0 (media 1) ch in
  let '(b3, _) := tx 0 (media 1) (drop_owned 0 ch) in
  asserts [b1; bool_decide (is_Some (delivery ≫= id)); bool_decide (is_Some event); negb b2; b3].

Definition stale_queued_events_release_permits_and_never_surface : bool :=
  let '(b1, ch) := tx 0 (media 1) (test_channel 1) in
  let '(r1, ch) := try_recv (set_generation 1 ch) in
  let '(b2, ch) := tx 1 (media 1) ch in
  let '(r2, _) := recv_timeout 0 (from_millis 50) [] ch in
  asserts [b1; match r1 with Err Empty => true | _ => false end; b2; match r2 with Some (Ok _) => true | _ => false end].

Definition failed_enqueue_and_receiver_drop_release_all_usage : bool :=
  let '(b1, ch) := tx 0 (media MEDIA_BYTES) (test_channel 1) in
  let '(b2, ch) := tx 0 (media 1) ch in
  let ch := drop_receiver ch in
  asserts
    [negb b1; b2; bool_decide (ucount (usage (budget ch)) = [0; 0]);
     match (try_send {| s_generation := 0 |} 0 (media 1) ch).1 with Err (Disconnected _) => true | _ => false end;
     bool_decide (ubytes (usage (budget ch)) = [0; 0])].

(** Sixteen sends, one after the other in any order. *)
Definition concurrent_admission_cannot_exceed_count_or_bytes : bool :=
  let ch := Nat.iter 16 (λ ch, (tx 0 (media (mib 10)) ch).2) (test_channel 256) in
  asserts
    [bool_decide (ucount (usage (budget ch)) !! 1%nat = Some 3);
     match ubytes (usage (budget ch)) !! 1%nat with Some n => n <=? MEDIA_BYTES | None => false end;
     usage_is [0; 0] [0; 0] (drop_receiver ch)].

Definition rejects_invalid_channel_capacity : bool :=
  asserts [is_err (event_channel (C:=vec_chan) 0); is_err (event_channel (C:=vec_chan) 257)].
End lidar.

(** ** protocol/models.rs *)
Definition extract_key_prefers_numeric_header_identity_id : bool :=
  bool_decide (extract_key (obj [("header", obj [("identity", obj [("id", jint 123456789)])])]) = Some "123456789").
Definition extract_key_uses_uuid_then_req_uuid : bool :=
  asserts [bool_decide (extract_key (obj [("uuid", JString "abc-uuid")]) = Some "abc-uuid");
           bool_decide (extract_key (obj [("req_uuid", JString "req-uuid")]) = Some "req-uuid")].
Definition extract_key_falls_back_to_type_and_topic : bool :=
  bool_decide (extract_key (obj [("type", JString "res"); ("topic", JString "rt/api/sport/request")]) =
    Some "res $ rt/api/sport/request").

(** ** protocol/constants.rs *)
Definition rtc_topic_contains_all_example_topics : bool :=
  forallb (λ key, bool_decide (is_Some (BTree.get key rtc_topic)))
    ["SPORT_MOD"; "MOTION_SWITCHER"; "LF_SPORT_MOD_STATE"; "LOW_STATE"; "ULIDAR_ARRAY"; "ULIDAR_SWITCH"; "AUDIO_HUB_REQ"].
Definition rtc_topic_values_match_python_examples : bool :=
  forallb (λ kv : string * string, bool_decide (BTree.get kv.1 rtc_topic = Some kv.2))
    [("SPORT_MOD", "rt/api/sport/request"); ("MOTION_SWITCHER", "rt/api/motion_switcher/request");
     ("LF_SPORT_MOD_STATE", "rt/lf/sportmodestate"); ("LOW_STATE", "rt/lf/lowstate")].
Definition sport_cmd_ids_match_python_examples : bool :=
  forallb (λ kv : string * Z, bool_decide (BTree.get kv.1 sport_cmd = Some kv.2))
    [("StandUp", 1004); ("RecoveryStand", 1006); ("Hello", 1016); ("FrontFlip", 1030); ("StandDown", 1005);
     ("GetState", 1034); ("Damp", 1001); ("BalanceStand", 1002)].
Definition connection_method_try_from_i32 : bool :=
  asserts
    [bool_decide (ok (try_from 1) = Some LocalAP); bool_decide (ok (try_from 2) = Some LocalSTA);
     bool_decide (ok (try_from 3) = Some Remote); is_err (try_from 0); is_err (try_from 4)].

(** ** protocol/ingress.rs *)

(** Text in which a single quote stands for a double one. *)
Definition text (s : string) : bytes := (λ b, if b =? 39 then 34 else b) <$> as_bytes s.
Definition parses_to (input : string) (expected : value) : bool :=
  match parse_json (text input) with Ok v => bool_decide (v = expected) | Err _ => false end.
(** The two Hangul syllables and the rocket of the tests, in UTF-8. *)
Definition robot : string := string_of_bytes [235; 161; 156; 235; 180; 135].
Definition rocket : string := string_of_bytes [240; 159; 154; 128].

Definition json_values_match_literal_semantics_including_escaped_duplicate_keys : bool :=
  asserts
    [parses_to "null" JNull; parses_to "true" (JBool true); parses_to "false" (JBool false);
     parses_to "'plain'" (JString "plain"); parses_to "[]" (JArray []); parses_to "{}" (obj []);
     parses_to " {'a\'key':[true,null,-1,'\uB85C\uBD07','\uD83D\uDE80','\\\n\t'],'k':0,'\u006b':{'last':[]}} "
       (obj [(string_of_bytes [97; 34; 107; 101; 121],
              JArray [JBool true; JNull; jint (-1); JString robot; JString rocket; JString (string_of_bytes [92; 10; 9])]);
             ("k", obj [("last", JArray [])])])].

Definition json_numbers_preserve_integer_precision_and_float_representation : bool :=
  asserts
    ([parses_to "-9223372036854775808" (jint i64_min); parses_to "9223372036854775807" (jint i64_max);
      parses_to "9223372036854775808" (JNumber (num_of_u64 9223372036854775808));
      parses_to "18446744073709551615" (JNumber (num_of_u64 u64_max));
      parses_to "9007199254740993" (JNumber (num_of_u64 9007199254740993)); parses_to "0" (JNumber (num_of_u64 0));
      parses_to "1.25" (JNumber (Float (F64.div (F64.of_Z 5) (F64.of_Z 4)))); parses_to "1e2" (JNumber (Float (F64.of_Z 100)))]
     ++ ((λ input, parses_to input (JNumber (Float (S754_zero true)))) <$> ["-0"; "-0.0"; "-0e0"])).

Definition json_rejects_nonfinite_and_invalid_numeric_lexemes : bool :=
  forallb (λ input, is_err (parse_json (text input))) ["1e400"; "-1e400"; "NaN"; "Infinity"; "01"; "+1"; "1e"; "1."].

Definition json_output_owns_strings_and_keys_after_input_is_dropped : bool :=
  parses_to "{'plain':'text','\u006b':'\uB85C\uBD07'}" (obj [("plain", JString "text"); ("k", JString robot)]).

Definition repeat_text (n : nat) (s : string) : bytes := concat (replicate n (text s)).
Definition json_depth_limit_counts_empty_arrays_and_objects_but_not_scalar_leaves : bool :=
  forallb (λ leaf,
    let at_limit := repeat_text 63 "{'k':" ++ text leaf ++ repeat_text 63 "}" in
    is_ok (parse_json at_limit) && is_err (parse_json (text "[" ++ at_limit ++ text "]"))) ["[]"; "{}"].

Definition json_rejects_malformed_or_trailing_data_without_echoing_peer_input : bool :=
  forallb (λ input,
    match parse_json input with
    | Err e => seqb e "Invalid ingress JSON or resource budget exceeded"
    | Ok _ => false
    end)
    ((text <$> [""; " "; "null true"; "{}sentinel-private-key"; "{'sentinel-private-key':'\uD800'}";
                "{'sentinel-private-key':'\x00'}"; "{'sentinel-private-key':0,}"; "{'sentinel-private-key':0";
                "[0,]"; "[0"; "{0:1}"]) ++ [[34; 255; 34]; [32; 10; 9]]).

Definition boundary_json_admission_preserves_escaped_values_and_exact_integers : bool :=
  match parse_json (text "{'a\'key':[true,null,-1,18446744073709551615,'\uB85C\uBD07']}") with
  | Ok parsed =>
      let item i := match get parsed (string_of_bytes [97; 34; 107; 101; 121]) with
                    | Some (JArray l) => l !! i
                    | _ => None
                    end in
      asserts [bool_decide ((v ← item 3%nat; as_u64 v) = Some u64_max); bool_decide (item 4%nat = Some (JString robot))]
  | Err _ => false
  end.

Definition boundary_json_admission_checks_depth_and_rejects_malformed_trailing_input : bool :=
  let at_limit := repeat_text 64 "[" ++ text "null" ++ repeat_text 64 "]" in
  asserts
    [is_ok (parse_json at_limit); is_err (parse_json (text "[" ++ at_limit ++ text "]"));
     forallb (λ input, is_err (parse_json input))
       [text "{} {}"; text "{'x':'sentinel-private-key',}"; text "[1,]"; [255]]].

Definition core_tests : list (string * bool) :=
  [("ordered_complete_assembly_and_duplicates", ordered_complete_assembly_and_duplicates);
   ("malformed_and_conflicting_chunks_discard_transfer", malformed_and_conflicting_chunks_discard_transfer);
   ("schema_mismatch_never_merges_identical_request_keys", schema_mismatch_never_merges_identical_request_keys);
   ("expiry_does_not_slide_with_incoming_chunks", expiry_does_not_slide_with_incoming_chunks);
   ("transfer_count_and_byte_budgets", transfer_count_and_byte_budgets);
   ("boundary_binary_headers_share_preallocation_json_depth_policy", boundary_binary_headers_share_preallocation_json_depth_policy);
   ("framing_rejects_truncation_and_invalid_json", framing_rejects_truncation_and_invalid_json);
   ("both_schemas_preserve_header_and_body", both_schemas_preserve_header_and_body);
   ("both_schemas_reject_non_object_headers", both_schemas_reject_non_object_headers);
   ("burst_summaries_account_for_every_event_and_flush_once", burst_summaries_account_for_every_event_and_flush_once);
   ("owners_are_independent_and_counters_saturate", owners_are_independent_and_counters_saturate);
   ("reset_flushes_previous_generation_and_reports_the_new_first_event", reset_flushes_previous_generation_and_reports_the_new_first_event);
   ("single_nal_unit_returned_immediately", single_nal_unit_returned_immediately);
   ("fragmented_nal_reassembles_correctly", fragmented_nal_reassembles_correctly);
   ("incomplete_fragment_returns_none", incomplete_fragment_returns_none);
   ("empty_payload_returns_none", empty_payload_returns_none);
   ("fu_a_insufficient_length_returns_none", fu_a_insufficient_length_returns_none);
   ("malformed_fragment_discards_pending_nal", malformed_fragment_discards_pending_nal);
   ("mismatched_fragment_discards_pending_nal", mismatched_fragment_discards_pending_nal);
   ("interruption_and_invalid_headers_reset_assembly", interruption_and_invalid_headers_reset_assembly);
   ("rtp_discontinuity_discards_the_entire_fragmented_nal", rtp_discontinuity_discards_the_entire_fragmented_nal);
   ("rtp_wraparound_and_timestamps_between_complete_nals_are_valid", rtp_wraparound_and_timestamps_between_complete_nals_are_valid);
   ("new_start_recovers_without_reusing_abandoned_fragment_bytes", new_start_recovers_without_reusing_abandoned_fragment_bytes);
   ("duplicated_or_reordered_starts_cannot_revive_an_older_active_nal", duplicated_or_reordered_starts_cannot_revive_an_older_active_nal);
   ("duplicated_start_and_mixed_payload_api_cannot_complete_a_nal", duplicated_start_and_mixed_payload_api_cannot_complete_a_nal);
   ("empty_buffer_produces_no_points", empty_buffer_produces_no_points);
   ("all_zero_buffer_produces_no_points", all_zero_buffer_produces_no_points);
   ("bits_to_points_produces_xyz_triplets", bits_to_points_produces_xyz_triplets);
   ("multi_byte_pattern_with_origin_offset", multi_byte_pattern_with_origin_offset);
   ("decompress_lz4_invalid_data_returns_error", decompress_lz4_invalid_data_returns_error);
   ("decompression_rejects_resource_sizes_before_allocation", decompression_rejects_resource_sizes_before_allocation);
   ("point_output_is_bounded_and_valid_geometry_is_preserved", point_output_is_bounded_and_valid_geometry_is_preserved);
   ("construction_rejects_invalid_workers_before_spawning", construction_rejects_invalid_workers_before_spawning);
   ("lidar_metadata_parses_valid_json", lidar_metadata_parses_valid_json);
   ("lidar_metadata_returns_none_on_missing_fields", lidar_metadata_returns_none_on_missing_fields);
   ("metadata_rejects_invalid_geometry_and_size", metadata_rejects_invalid_geometry_and_size);
   ("worker_pool_decodes_single_bit_to_xyz_triplet", worker_pool_decodes_single_bit_to_xyz_triplet);
   ("worker_pool_submit_accepts_valid_requests", worker_pool_submit_accepts_valid_requests);
   ("direct_requests_cannot_bypass_metadata_or_compressed_bounds", direct_requests_cannot_bypass_metadata_or_compressed_bounds);
   ("old_submitted_work_cannot_be_relabelled_on_completion", old_submitted_work_cannot_be_relabelled_on_completion);
   ("budgets_include_dequeued_delivery_and_old_generations", budgets_include_dequeued_delivery_and_old_generations);
   ("control_has_independent_capacity_and_priority", control_has_independent_capacity_and_priority);
   ("extracting_event_does_not_release_dispatch_permit", extracting_event_does_not_release_dispatch_permit);
   ("stale_queued_events_release_permits_and_never_surface", stale_queued_events_release_permits_and_never_surface);
   ("failed_enqueue_and_receiver_drop_release_all_usage", failed_enqueue_and_receiver_drop_release_all_usage);
   ("concurrent_admission_cannot_exceed_count_or_bytes", concurrent_admission_cannot_exceed_count_or_bytes);
   ("rejects_invalid_channel_capacity", rejects_invalid_channel_capacity);
   ("extract_key_prefers_numeric_header_identity_id", extract_key_prefers_numeric_header_identity_id);
   ("extract_key_uses_uuid_then_req_uuid", extract_key_uses_uuid_then_req_uuid);
   ("extract_key_falls_back_to_type_and_topic", extract_key_falls_back_to_type_and_topic);
   ("rtc_topic_contains_all_example_topics", rtc_topic_contains_all_example_topics);
   ("rtc_topic_values_match_python_examples", rtc_topic_values_match_python_examples);
   ("sport_cmd_ids_match_python_examples", sport_cmd_ids_match_python_examples);
   ("connection_method_try_from_i32", connection_method_try_from_i32);
   ("json_values_match_literal_semantics_including_escaped_duplicate_keys", json_values_match_literal_semantics_including_escaped_duplicate_keys);
   ("json_numbers_preserve_integer_precision_and_float_representation", json_numbers_preserve_integer_precision_and_float_representation);
   ("json_rejects_nonfinite_and_invalid_numeric_lexemes", json_rejects_nonfinite_and_invalid_numeric_lexemes);
   ("json_output_owns_strings_and_keys_after_input_is_dropped", json_output_owns_strings_and_keys_after_input_is_dropped);
   ("json_depth_limit_counts_empty_arrays_and_objects_but_not_scalar_leaves", json_depth_limit_counts_empty_arrays_and_objects_but_not_scalar_leaves);
   ("json_rejects_malformed_or_trailing_data_without_echoing_peer_input", json_rejects_malformed_or_trailing_data_without_echoing_peer_input);
   ("boundary_json_admission_preserves_escaped_values_and_exact_integers", boundary_json_admission_preserves_escaped_values_and_exact_integers);
   ("boundary_json_admission_checks_depth_and_rejects_malformed_trailing_input", boundary_json_admission_checks_depth_and_rejects_malformed_trailing_input)].
(** All the tests above hold of the model. *)
Theorem core_tests_pass : Forall (λ test, test.2 = true) core_tests.
Proof. unfold core_tests. repeat constructor; by vm_compute. Qed.
