(* ===== verification/EngineTests.v ===== *)
(** * The tests of the engine and of the signaling, replayed (src/src/infrastructure/)

    The unit tests of rtc_engine/state.rs, handlers.rs, engine.rs, sdp.rs and setup.rs
    and of signaling_http.rs on the model.  A task of a test is the steps it makes, a
    barrier the place between two of them.  Left out are the tests that need two callers
    of one engine at a time, a socket, or a payload of a megabyte. *)
From S2P Require Import Prelude Floats Json Ingress Channel Utf8 Security JsonText Ports.
From S2P Require Import Setup Signaling Engine.
#[local] Open Scope Z_scope.

(** All assertions of a test hold. *)
Abbreviation asserts := (forallb id).
Abbreviation RtcEngine := (RtcEngine vec_chan).
Definition err {A} (r : PortResult A) : option string := match r with Err e => Some e | Ok _ => None end.
#[local] Instance dc_message_eq_dec : EqDecision DcMessage.
Proof. solve_decision. Defined.
#[local] Instance ingress_message_eq_dec : EqDecision IngressMessage.
Proof. solve_decision. Defined.
#[local] Instance engine_command_eq_dec : EqDecision EngineCommand.
Proof. solve_decision. Defined.

(** ** rtc_engine/state.rs *)
Definition events (v : RtcReadyState) (l : list RtcStateEvent) : RtcReadyState :=
  from_u8 (foldl apply_event (as_u8 v) l).

Definition transient_disconnect_can_recover_after_channel_was_open : bool :=
  let waiting := [PeerDisconnected; PeerConnected] in
  asserts
    [bool_decide (events Open [PeerDisconnected] = Disconnected_);
     bool_decide (events Open [PeerDisconnected; PeerConnected] = Open);
     bool_decide (events Connecting waiting = Connecting);
     bool_decide (events Connecting (waiting ++ [ChannelOpened]) = Open)].

Definition terminal_peer_cannot_resurrect_from_late_callbacks : bool :=
  forallb (λ terminal,
    let stopped := apply_event (as_u8 Open) terminal in
    foldl apply_event stopped [PeerDisconnected; PeerConnected; ChannelOpened] =? stopped)
    [PeerFailed; PeerClosed; ChannelClosed].

(** A clone of the holder is the holder: the model has one. *)
Definition reset_isolates_old_callbacks_and_is_shared_by_clones : bool :=
  let e : RtcEngine := new_engine (bounded 1) in
  let old_callback := holder e in
  let e := store_cell old_callback Open (set_ready_state Connecting (reset_ready_state e)) in
  bool_decide (current_ready_state e = Connecting).

(** ** rtc_engine/handlers.rs *)
Definition boundary_peer_admission_keeps_text_and_binary_policies_distinct : bool :=
  asserts
    [message_size_allowed true (1024 * 1024); negb (message_size_allowed true (1024 * 1024 + 1));
     message_size_allowed false (1152 * 1024); negb (message_size_allowed false (1152 * 1024 + 1))].

Definition robot : bytes := [235; 161; 156; 235; 180; 135].
Definition datachannel_text_rejects_invalid_utf8_and_preserves_valid_text : bool :=
  asserts
    [bool_decide (decode_text_message (as_bytes "hello") = Some "hello");
     bool_decide (decode_text_message robot = Some (string_of_bytes robot));
     bool_decide (decode_text_message (as_bytes "sentinel-private-key" ++ [255]) = None)].

Definition engine (capacity generation : Z) (state : RtcReadyState) : RtcEngine :=
  set_ready_state state (set_ingress_generation generation (new_engine (bounded capacity))).2.
Definition received (e : RtcEngine) : list IngressMessage := contents (incoming e).

Definition peer_ingress_preserves_captured_generation_and_drops_stale_producers : bool :=
  let e := (enqueue_current 7 (Text "first") (engine 4 7 Closed)).2 in
  let e := with_generation 8 e in
  let e := (enqueue_current 7 (Text "late") e).2 in
  let e := (enqueue_current 7 (Binary [1]) e).2 in
  let e := (enqueue_current 8 (Binary [2]) e).2 in
  bool_decide (received e = [for_generation (Text "first") 7; for_generation (Binary [2]) 8]).

(** ** rtc_engine/engine.rs *)

(** A queue that is put in place, with the task that reads it. *)
Definition commands (capacity : Z) (l : list EngineCommand) : vec_chan EngineCommand :=
  foldl (λ (q : vec_chan EngineCommand) c, default q (ok (chan_send q c))) (bounded capacity) l.
Definition with_queue (q : vec_chan EngineCommand) (e : RtcEngine) : RtcEngine :=
  let p := {| p_generation := ingress_generation e; p_cell := holder e; p_commands := q;
              p_sending := true; p_inflight := None; p_wire := [] |} in
  with_command (Some 0%nat) (Some 0%nat) (with_peers [p] e).
Definition wire (e : RtcEngine) : list EngineCommand := default [] (p_wire <$> peers e !! 0%nat).

(** [send_commands] has returned an error exactly when it recorded the fault. *)
Definition queued_commands_are_not_sent_after_generation_reset_or_transport_close : bool :=
  forallb (λ reset_generation : bool,
    let q := close_tx (commands 4 [CText "first"; CText "second"]) in
    let e := send_begin 0 (with_queue q (engine 4 7 Open)) in
    let e := if reset_generation then set_ready_state Open (set_ingress_generation 8 e).2
             else set_ready_state Closed e in
    let e := send_begin 0 (send_end 0 (Ok ()) e) in
    asserts
      [negb (default true (p_sending <$> peers e !! 0%nat));
       eqb (bool_decide (transport_error e = None)) reset_generation;
       bool_decide (length (wire e) = 1%nat)])
    [true; false].

Definition disconnected_dequeued_command_fails_epoch_before_late_peer_recovery : bool :=
  let '(accepted, e) := send_text "accepted before disconnect" (with_queue (commands 4 []) (engine 1 7 Open)) in
  let e := send_begin 0 (channel_event 0 PeerDisconnected e) in
  let e := channel_event 0 PeerConnected e in
  asserts
    [is_ok accepted; bool_decide (wire e = []); bool_decide (current_ready_state e = Closed);
     is_err (send_text "late text" e).1; is_err (send_binary [1] e).1;
     match (take_transport_error e).1 with
     | Some m => (im_generation m =? 7) && match im_payload m with TransportFault _ => true | _ => false end
     | None => false
     end].

Definition terminal_send_fault_survives_full_ingress_and_rejects_old_generation : bool :=
  let queued := for_generation (Text "queued telemetry") 9 in
  let e := engine 1 9 Open in
  let e := record_transport_fault 9 (holder e) (with_incoming (default (incoming e) (ok (chan_send (incoming e) queued))) e) in
  let '(fault, e1) := take_transport_error e in
  let e2 := set_ready_state Open (set_ingress_generation 10 e1).2 in
  let e3 := record_transport_fault 9 (holder e2) e2 in
  asserts
    [bool_decide (fault = Some (for_generation (TransportFault "DataChannel send failed") 9));
     bool_decide ((take_transport_error e3).1 = None); bool_decide (current_ready_state e3 = Open)].

Definition transports (peer ice dtls sctp : string) : TransportStates :=
  {| st_peer := peer; st_ice := ice; st_dtls := dtls; st_sctp := sctp |}.
Definition channel_timeout_snapshot_distinguishes_transport_states_without_peer_payload : bool :=
  let ice_stall := channel_open_timeout_error (transports "connecting" "checking" "new" "connecting") Connecting in
  let dtls_stall := channel_open_timeout_error (transports "connecting" "connected" "connecting" "connecting") Disconnected_ in
  asserts
    [seqb ice_stall "Data channel did not open in time: peer=connecting, ice=checking, dtls=new, sctp=connecting, channel=connecting";
     seqb dtls_stall "Data channel did not open in time: peer=connecting, ice=connected, dtls=connecting, sctp=connecting, channel=disconnected";
     negb (seqb ice_stall dtls_stall); slen ice_stall <? 256; slen dtls_stall <? 256].

(** The lock of the peer is held, or its owner has stored it. *)
Definition outer_deadline_snapshot_reads_peer_states_without_waiting_for_owner : bool :=
  let peer := transports "new" "new" "new" "connecting" in
  asserts
    [bool_decide (timeout_diagnostic (Some None) (Some Closed) = None);
     bool_decide (timeout_diagnostic (Some (Some peer)) (Some Connecting) = Some (channel_open_timeout_error peer Connecting));
     bool_decide (timeout_diagnostic None (Some Connecting) = None)].

Definition routes_text_message_to_channel : bool :=
  let '(r, e) := route_text_message "hello" (new_engine (bounded 4) : RtcEngine) in
  is_ok r && bool_decide (im_payload <$> received e = [Text "hello"]).
Definition routes_binary_message_to_channel : bool :=
  let '(r, e) := route_binary_message [1; 2; 3] (new_engine (bounded 4) : RtcEngine) in
  is_ok r && bool_decide (im_payload <$> received e = [Binary [1; 2; 3]]).

Definition full_command_queue_returns_error_without_blocking : bool :=
  let '(first, e) := send_text "first" (with_queue (commands 1 []) (engine 4 0 Open)) in
  let '(second, e) := send_text "second" e in
  let e := send_begin 0 e in
  asserts [is_ok first; is_err second; bool_decide (wire e = [CText "first"]); is_ok (send_binary [1] e).1].

(** ** rtc_engine/sdp.rs and setup.rs *)
#[local] Instance text_descriptions : SdpParser := {|
  SessionDescription := string;
  json_from_str s := ok (parse_json (as_bytes s));
  description_from_value v := get v "sdp" ≫= as_str;
  description_answer s := Ok s |}.
Definition contains (needle s : string) : bool := match String.index 0 needle s with Some _ => true | None => false end.
Definition fails_with {A} (needle : string) (r : PortResult A) : bool :=
  match r with Err e => contains needle e | Ok _ => false end.

Definition parse_answer_detects_reject : bool :=
  fails_with "another WebRTC client"
    (parse_answer_payload (write_value (obj [("type", JString "answer"); ("sdp", JString "reject")]))).

(** ** signaling_http.rs *)

(** The url crate: a name whose last label is a number is an IPv4 address to it, which
    it writes in another form.  And primitives that stand for themselves. *)
#[local] Instance same_url : UrlLib := {|
  set_ip_host _ := true;
  set_host name :=
    match last (split_dots (as_bytes name)) with
    | Some (b :: l) => if forallb is_ascii_digit (b :: l) then Some "127.0.0.1" else Some name
    | _ => Some name
    end;
  set_port _ := true; set_path := id |}.
#[local] Instance open_crypto : Crypto := {|
  md5 _ := replicate 16 0;
  hex_encode := string_of_bytes;
  hex_decode s := if seqb s "00112233445566778899aabbccddeeff"
                  then Ok [0; 17; 34; 51; 68; 85; 102; 119; 136; 153; 170; 187; 204; 221; 238; 255] else Err "hex";
  b64_encode := string_of_bytes; b64_decode s := Ok (as_bytes s);
  aes256_encrypt_block _ l := rev l; aes256_decrypt_block _ l := rev l;
  aes128_gcm_decrypt key nonce l :=
    if bool_decide (drop (length l - 16) l = rev key ∧ nonce = replicate 12 5)
    then Ok (take (length l - 16) l) else Err "aead";
  uuid_simple := "0123456789abcdef0123456789abcdef";
  RsaPublicKey := Z; rsa_size := id;
  from_public_key_der l := Ok (len l); from_pkcs1_der l := Ok (len l);
  rsa_encrypt_block _ _ l := Ok l |}.

Definition ip4 (a b c d : Z) : Host := HIp (V4 [a; b; c; d]).
Definition boundary_signaling_builds_only_structured_local_endpoints : bool :=
  forallb (λ t, match signaling_url t.1 9991 "/con_notify" with
                | Ok url => match u_host url, t.2 with
                            | HIp (V4 a), HIp (V4 b) | HIp (V6 a), HIp (V6 b) => bool_decide (a = b)
                            | HName a, HName b => seqb a b
                            | _, _ => false
                            end && (u_port url =? 9991) && seqb (u_path url) "/con_notify"
                | Err _ => false
                end)
    [("192.168.123.161", ip4 192 168 123 161); ("go2-01.local", HName "go2-01.local");
     ("go2-01.local.", HName "go2-01.local."); ("::1", HIp (V6 [0; 0; 0; 0; 0; 0; 0; 1]));
     ("[2001:db8::1]", HIp (V6 [8193; 3512; 0; 0; 0; 0; 0; 1]))].

Definition boundary_signaling_rejects_ambiguous_numeric_and_invalid_dns_hosts : bool :=
  asserts
    [forallb (λ host, bool_decide (err (signaling_url host 8081 "/offer") = Some invalid_host))
       [""; "."; "127.1"; "0x7f.0.0.1"; "0177.0.0.1"; "2130706433"; "go2..local"; "-go2.local"; "go2-.local";
        "[::1"; "::1]"; "[::1%25zone]"; "[::1]:123"];
     forallb (λ n, is_err (signaling_url (string_of_bytes (replicate n 120)) 8081 "/offer")) [64; 255]%nat].

Definition malformed_auth_mode_does_not_echo_peer_payload : bool :=
  forallb (λ mode,
    let input := obj [("data1", JString "sentinel-private-key"); ("data2", mode)] in
    bool_decide (err (decode_con_notify_data1 input None) = Some "con_notify data2 must be an integer"))
    [JString "sentinel-private-key"; obj [("secret", JString "sentinel-private-key")];
     JArray [JString "sentinel-private-key"]; JNull; JNumber (Float (S754_finite false 1 (-1)))].

Definition path_ending_uses_second_char_index : bool :=
  seqb (calc_local_path_ending "prefix123450A1B2C3D4E") "01234".
Definition short_string_returns_empty : bool := seqb (calc_local_path_ending "short") "".

Definition public_key_wrapping_rejects_invalid_boundaries_without_panicking : bool :=
  let wide := [234; 176; 128] in
  asserts
    [bool_decide (ok (con_notify_public_key "0123456789PEM0123456789") = Some "PEM");
     forallb (λ input, is_err (con_notify_public_key (string_of_bytes input)))
       [as_bytes "short"; replicate 9 97 ++ wide ++ replicate 12 97; replicate 10 97 ++ wide ++ replicate 9 97]].

Definition con_notify_data2_plaintext_passes_through : bool :=
  bool_decide (ok (decode_con_notify_data1 (obj [("data1", JString "plain"); ("data2", jint 0)]) None) = Some "plain").
Definition con_notify_missing_data2_defaults_to_plaintext : bool :=
  bool_decide (ok (decode_con_notify_data1 (obj [("data1", JString "plain")]) None) = Some "plain").
Definition con_notify_unknown_data2_is_explicit_error : bool :=
  fails_with "unsupported con_notify data2 auth mode: 4"
    (decode_con_notify_data1 (obj [("data1", JString "encrypted"); ("data2", jint 4)]) None).
Definition con_notify_data2_3_requires_per_device_key : bool :=
  let r := decode_con_notify_data1 (obj [("data1", JString "encrypted"); ("data2", jint 3)]) None in
  fails_with "data2=3" r && fails_with "aes_128_key" r.

(** The ciphertext, the nonce, and the tag, packed in this order. *)
Definition encode_data2_3_payload (key plain : bytes) : string :=
  b64_encode (plain ++ replicate 12 5 ++ rev key).
Definition con_notify_data2_3_uses_per_device_key : bool :=
  let key_hex := "00112233445566778899aabbccddeeff" in
  match hex_decode key_hex with
  | Ok key =>
      let data1 := encode_data2_3_payload key (as_bytes "v3-public-key-payload") in
      bool_decide (ok (decode_con_notify_data1 (obj [("data1", JString data1); ("data2", jint 3)]) (Some key_hex))
                   = Some "v3-public-key-payload")
  | Err _ => false
  end.

Definition engine_tests : list (string * bool) :=
  [("transient_disconnect_can_recover_after_channel_was_open", transient_disconnect_can_recover_after_channel_was_open);
   ("terminal_peer_cannot_resurrect_from_late_callbacks", terminal_peer_cannot_resurrect_from_late_callbacks);
   ("reset_isolates_old_callbacks_and_is_shared_by_clones", reset_isolates_old_callbacks_and_is_shared_by_clones);
   ("boundary_peer_admission_keeps_text_and_binary_policies_distinct", boundary_peer_admission_keeps_text_and_binary_policies_distinct);
   ("datachannel_text_rejects_invalid_utf8_and_preserves_valid_text", datachannel_text_rejects_invalid_utf8_and_preserves_valid_text);
   ("peer_ingress_preserves_captured_generation_and_drops_stale_producers", peer_ingress_preserves_captured_generation_and_drops_stale_producers);
   ("queued_commands_are_not_sent_after_generation_reset_or_transport_close", queued_commands_are_not_sent_after_generation_reset_or_transport_close);
   ("disconnected_dequeued_command_fails_epoch_before_late_peer_recovery", disconnected_dequeued_command_fails_epoch_before_late_peer_recovery);
   ("terminal_send_fault_survives_full_ingress_and_rejects_old_generation", terminal_send_fault_survives_full_ingress_and_rejects_old_generation);
   ("channel_timeout_snapshot_distinguishes_transport_states_without_peer_payload", channel_timeout_snapshot_distinguishes_transport_states_without_peer_payload);
   ("outer_deadline_snapshot_reads_peer_states_without_waiting_for_owner", outer_deadline_snapshot_reads_peer_states_without_waiting_for_owner);
   ("routes_text_message_to_channel", routes_text_message_to_channel);
   ("routes_binary_message_to_channel", routes_binary_message_to_channel);
   ("full_command_queue_returns_error_without_blocking", full_command_queue_returns_error_without_blocking);
   ("parse_answer_detects_reject", parse_answer_detects_reject);
   ("boundary_signaling_builds_only_structured_local_endpoints", boundary_signaling_builds_only_structured_local_endpoints);
   ("boundary_signaling_rejects_ambiguous_numeric_and_invalid_dns_hosts", boundary_signaling_rejects_ambiguous_numeric_and_invalid_dns_hosts);
   ("malformed_auth_mode_does_not_echo_peer_payload", malformed_auth_mode_does_not_echo_peer_payload);
   ("path_ending_uses_second_char_index", path_ending_uses_second_char_index);
   ("short_string_returns_empty", short_string_returns_empty);
   ("public_key_wrapping_rejects_invalid_boundaries_without_panicking", public_key_wrapping_rejects_invalid_boundaries_without_panicking);
   ("con_notify_data2_plaintext_passes_through", con_notify_data2_plaintext_passes_through);
   ("con_notify_missing_data2_defaults_to_plaintext", con_notify_missing_data2_defaults_to_plaintext);
   ("con_notify_unknown_data2_is_explicit_error", con_notify_unknown_data2_is_explicit_error);
   ("con_notify_data2_3_requires_per_device_key", con_notify_data2_3_requires_per_device_key);
   ("con_notify_data2_3_uses_per_device_key", con_notify_data2_3_uses_per_device_key)].
(** All the tests above hold of the model. *)
Theorem engine_tests_pass : Forall (λ test, test.2 = true) engine_tests.
Proof. unfold engine_tests. repeat constructor; by vm_compute. Qed.
