(* ===== verification/MediaTests.v ===== *)
(** * The tests of the media pipelines, replayed (src/src/video/codec.rs, src/src/audio/transmit/service.rs)

    The unit tests of the H.264 decoder and of the audio sender on the model.  The
    pipeline of a test is stopped or plays: the buffers it drains and the messages on
    its bus are steps.  Left out are the tests that start GStreamer itself and those on
    payloads of a megabyte. *)
From S2P Require Import Prelude Floats Json Channel Utf8.
From S2P Require Video AudioTransmit Pipelines.
#[local] Open Scope Z_scope.

(** All assertions of a test hold. *)
Abbreviation asserts := (forallb id).

(** ** video/codec.rs *)
Section video.
Import Video.
Abbreviation Decoder := (H264Decoder vec_chan).
#[local] Instance decode_error_eq_dec : EqDecision H264DecodeError.
Proof. solve_decision. Defined.

(** A pipeline that is stopped drains nothing. *)
Definition stalled_decoder : Decoder := new_decoder.
Definition stalled : Interference :=
  {| before_push := []; allocation := None; pushes := true; after_push := []; before_recv := [] |}.
Definition draining : Interference :=
  {| before_push := []; allocation := None; pushes := true; after_push := [Take; Probe]; before_recv := [] |}.
Definition no_frame (r : result H264DecodeError (option DecodedFrame)) : bool :=
  match r with Ok None => true | _ => false end.
Definition failed_with (e : H264DecodeError) (r : result H264DecodeError (option DecodedFrame)) : bool :=
  match r with Err e' => bool_decide (e = e') | Ok _ => false end.
(** [n] units are decoded, none of them with an error or a frame. *)
Fixpoint decode_times (n : nat) (i : Interference) (d : Decoder) : bool * Decoder :=
  match n with
  | O => (true, d)
  | S n => let '(r, d) := decode [0x65] i d in
           let '(rest, d) := decode_times n i d in (no_frame r && rest, d)
  end.

Definition encoded_admission_bounds_stalled_queue_count : bool :=
  let '(admitted, d) := decode_times 64 stalled stalled_decoder in
  let '(r, d) := decode [0x65] stalled d in
  asserts
    [admitted; failed_with EncodedQueueOverflow r; total_bytes (appsrc d) =? 64 * 5;
     is_err (decode [] stalled d).1].

Definition encoded_admission_releases_count_when_appsrc_drains : bool :=
  (foldl (λ st _,
     let '(holds, d) := st in
     let '(admitted, d) := decode_times (Z.to_nat MAX_ENCODED_BUFFERS) draining d in
     (asserts [holds; admitted; queued_buffers d =? 0; total_bytes (appsrc d) =? 0], d))
     (true, stalled_decoder) [0; 1; 2]).1.

Definition terminal_pipeline_error_is_not_no_output : bool :=
  let '(first, d) := decode [] stalled stalled_decoder in
  let '(r, d) := decode [] stalled (stream_step (Post BusError) d) in
  asserts [no_frame first; failed_with PipelineFailed r; is_err (decode [0x65] stalled d).1].

Definition terminal_eos_and_closed_frame_channel_are_not_no_output : bool :=
  asserts
    [is_err (decode [0x65] stalled (stream_step SinkDropped stalled_decoder)).1;
     is_err (decode [] stalled (stream_step (Post BusEos) stalled_decoder)).1].

(** On a machine that has one of the plugins. *)
Definition test_decoder_detection : bool :=
  forallb (λ plugins, match detect_h264_decoder None plugins.1 plugins.2 with
                      | Ok name => seqb name "nvv4l2decoder" || seqb name "avdec_h264"
                      | Err _ => false
                      end) [(true, true); (true, false); (false, true)].

Definition test_decode_empty_data_returns_none : bool := no_frame (decode [] stalled new_decoder).1.

Definition bgr (width height stride offset : Z) (buffer : bytes) : Sample :=
  {| s_is_bgr := true; s_width := width; s_height := height; s_size := len buffer;
     s_mapped := Some {| vf_width := width; vf_height := height; vf_stride := stride; vf_offset := offset;
                         vf_plane := Some (slice_from buffer offset) |} |}.
Definition padded_bgr_plane_offset_is_repacked_to_tight_rows : bool :=
  match packed_bgr_frame (bgr 2 2 8 4 [99; 99; 99; 99; 1; 2; 3; 4; 5; 6; 88; 88; 7; 8; 9; 10; 11; 12; 88; 88]) with
  | Some frame => bool_decide (df_data frame = seqZ 1 12) && (df_width frame =? 2) && (df_height frame =? 2)
  | None => false
  end.
Definition tight_bgr_layout_is_preserved_and_large_shapes_are_rejected : bool :=
  asserts
    [bool_decide (df_data <$> packed_bgr_frame (bgr 4 2 12 0 (seqZ 0 24)) = Some (seqZ 0 24));
     bool_decide (bgr_output_size (2 ^ 32 - 1) (2 ^ 32 - 1) = None); bool_decide (bgr_output_size 0 2 = None)].
End video.

(** ** audio/transmit/service.rs *)
Section audio.
Import AudioTransmit Pipelines.
#[local] Instance byte_packets : RtpLib := {|
  RtpPacket := bytes; rtp_unmarshal := Some; rtp_timestamp p := from_le_bytes (take 4 p) |}.
Abbreviation Sender := (AudioSender vec_chan).

Definition is_finished (s : Sender) : bool := finished (task s).
Definition bus_joined (s : Sender) : bool := match bus s with BusLoop => false | _ => true end.
Definition is_done (pc : shutdown_pc) : bool := match pc with Finished _ => true | _ => false end.
Definition succeeded (pc : shutdown_pc) : bool := match pc with Finished (Ok _) => true | _ => false end.

Definition pipeline_error_stops_playback_and_sender_task : bool :=
  let s := bus_poll (Some (BError true)) (set_playing true (new true : Sender)) in
  let s := rtp_poll 0 None s in
  asserts
    [negb (is_playing s); is_finished s; negb (bus_running s); is_err (play [] [] true s).1].

(** [delayed_audio]: a sender that plays; its bus thread ends when it is released. *)
Definition delayed_audio : Sender := set_playing true (new true).

(** The drop returns at once; the timer runs, then both workers end. *)
Definition sender_final_drop_keeps_the_executor_live_and_finishes_workers : bool :=
  match drop_sender true true delayed_audio with
  | (Spawned pc, s) =>
      let blocked := shutdown_run [Shut true; Shut true; Other (Thread (RtpPoll 0 None)); Shut true] (pc, s) in
      let released := shutdown_run [Other (Thread (BusPoll None)); Shut true; Shut true] blocked in
      asserts
        [negb (is_done pc); negb (is_done blocked.1); is_done released.1; bus_joined released.2;
         is_finished released.2]
  | _ => false
  end.

(** The state change fails; the join is still awaited. *)
Definition pipeline_stop_failure_still_joins_the_native_bus : bool :=
  let s := (stop delayed_audio).2 in
  let '(pc, waiting, early) := native_step true (JoinBus (Err "controlled pipeline stop failure")) s in
  let s := bus_poll None waiting in
  let '(_, s, result) := native_step true pc s in
  asserts
    [match early with None => true | Some _ => false end; match result with Some (Err _) => true | _ => false end;
     bus_joined s].

(** The native part ends first; the RTP worker is still running. *)
Definition shutdown_does_not_return_before_the_aborted_rtp_worker_completes : bool :=
  let waiting := shutdown_run [Shut true; Other (Thread (BusPoll None)); Shut true; Shut true] (shutdown delayed_audio) in
  let ended := shutdown_run [Other (Thread (RtpPoll 0 None)); Shut true] waiting in
  asserts
    [bus_joined waiting.2; negb (is_finished waiting.2); negb (is_done waiting.1);
     succeeded ended.1; is_finished ended.2; bus_joined ended.2].

(** A directory as the file, and URIs of the schemes GStreamer has. *)
#[local] Instance test_files : MediaFiles := {|
  canonicalize := Some; is_file path := negb (seqb path "/tmp"); filename_to_uri path := Some ("file://" +:+ path);
  make_from_uri uri := starts_with uri "file://" || starts_with uri "https://" |}.
Definition source_rejects_invalid_and_unavailable_uri_schemes : bool :=
  asserts
    [forallb (λ url, is_err (to_uri (Url url)))
       ["relative/path"; "https://example.com/" +:+ string_of_bytes [0] +:+ "secret"; "unitree-unknown://host/a"];
     is_err (to_uri (File "/tmp"))].
End audio.

Definition media_tests : list (string * bool) :=
  [("encoded_admission_bounds_stalled_queue_count", encoded_admission_bounds_stalled_queue_count);
   ("encoded_admission_releases_count_when_appsrc_drains", encoded_admission_releases_count_when_appsrc_drains);
   ("terminal_pipeline_error_is_not_no_output", terminal_pipeline_error_is_not_no_output);
   ("terminal_eos_and_closed_frame_channel_are_not_no_output", terminal_eos_and_closed_frame_channel_are_not_no_output);
   ("test_decoder_detection", test_decoder_detection);
   ("test_decode_empty_data_returns_none", test_decode_empty_data_returns_none);
   ("padded_bgr_plane_offset_is_repacked_to_tight_rows", padded_bgr_plane_offset_is_repacked_to_tight_rows);
   ("tight_bgr_layout_is_preserved_and_large_shapes_are_rejected", tight_bgr_layout_is_preserved_and_large_shapes_are_rejected);
   ("pipeline_error_stops_playback_and_sender_task", pipeline_error_stops_playback_and_sender_task);
   ("sender_final_drop_keeps_the_executor_live_and_finishes_workers", sender_final_drop_keeps_the_executor_live_and_finishes_workers);
   ("pipeline_stop_failure_still_joins_the_native_bus", pipeline_stop_failure_still_joins_the_native_bus);
   ("shutdown_does_not_return_before_the_aborted_rtp_worker_completes", shutdown_does_not_return_before_the_aborted_rtp_worker_completes);
   ("source_rejects_invalid_and_unavailable_uri_schemes", source_rejects_invalid_and_unavailable_uri_schemes)].
(** All the tests above hold of the model. *)
Theorem media_tests_pass : Forall (λ test, test.2 = true) media_tests.
Proof. unfold media_tests. repeat constructor; by vm_compute. Qed.
