(* ===== verification/InterfaceTests.v ===== *)
(** * The tests of the Python interface, replayed (src/src/interface/)

    The unit tests of utils.rs, callbacks.rs and of the bridges on the model: a Python
    object is an entry of a store, a Python callback a number, the threads of a test are
    the order of the steps, and a test that drops the last reference looks at the drop
    of the session.  Left out is what only CPython decides: memory addresses and the
    collection of cycles. *)
From S2P Require Import Prelude Floats Json Constants Channel Events Ports JsonText.
From S2P Require Import PyJson.
From S2P Require Service ServiceProps Callbacks Bridges Ownership.
#[local] Open Scope Z_scope.
#[local] Existing Instance exact_layout.

(** All assertions of a test hold. *)
Abbreviation asserts := (forallb id).

(** ** utils.rs *)
Definition value_error {A} (r : result PyErr A) : bool := match r with Err (PyValueError _) => true | _ => false end.
Definition unsigned : list Z := [9007199254740993; 9223372036854775809; u64_max].

Definition python_unsigned_integers_keep_exact_json_values : bool :=
  forallb (λ value, bool_decide (ok (py_any_to_json_value [PyInt value] 0) ≫= as_u64 = Some value)) unsigned.

Definition json_unsigned_integers_return_exact_python_integers : bool :=
  forallb (λ value,
    let '(object, h) := json_value_to_py (JNumber (num_of_u64 value)) [] in
    is_PyInt (deref h object) && bool_decide (extract_u64 (deref h object) = Some value)) unsigned.

Definition signed_integer_extremes_keep_exact_values_in_both_directions : bool :=
  forallb (λ value,
    match py_any_to_json_value [PyInt value] 0 with
    | Ok json =>
        let '(object, h) := json_value_to_py json [] in
        bool_decide (as_i64 json = Some value) && bool_decide (extract_i64 (deref h object) = Some value)
    | Err _ => false
    end) [i64_min; i64_max].

(** [nested] is object [n], around [None] as object 0. *)
Fixpoint nested_lists (n : nat) : Store :=
  match n with O => [PyNone] | S n => nested_lists n ++ [PyList [n]] end.
Definition rejects_nonfinite_numbers_and_excessive_depth : bool :=
  asserts
    [forallb (λ value, value_error (py_any_to_json_value [PyFloat value] 0))
       [S754_nan; S754_infinity false; S754_infinity true];
     value_error (py_any_to_json_value (nested_lists 65) 65)].

Definition cycles_fail_but_shared_containers_are_valid : bool :=
  let one_two := JArray [jint 1; jint 2] in
  asserts
    [value_error (py_any_to_json_value [PyList [0%nat]] 0);
     value_error (py_any_to_json_value [PyDict [(1, 0)%nat]; PyStr (Some "self")] 0);
     bool_decide (ok (py_any_to_json_value [PyInt 1; PyInt 2; PyList [0; 1]%nat; PyList [2; 2]%nat] 3)
                  = Some (JArray [one_two; one_two]))].

Definition callback_validation_rejects_noncallable : bool :=
  match Callbacks.ensure_callable (λ _, false) 0%nat with Err (PyTypeError _) => true | _ => false end.

(** ** callbacks.rs *)
Section callbacks.
Import Callbacks.
Abbreviation Dispatcher := (Dispatcher (C:=vec_chan)).

Definition tx0 : EventSender := {| s_generation := 0 |}.
Definition channel (capacity : Z) : Events vec_chan :=
  match event_channel capacity with Ok (_, ch) => ch | Err _ => demo_channel end.
Definition topic_event (topic : string) (payload : value) : dispatcher_op := Send tx0 0 (TopicCallback topic payload).
Definition steps (n : nat) : list dispatcher_op := replicate n (Dispatch 0 true None).
Definition run (l : list dispatcher_op) : Dispatcher := dispatcher_run l (new_dispatcher (channel 8) new_callbacks).
Definition received (d : Dispatcher) : nat := length (calls d).

Definition dequeued_event_waiting_for_python_cannot_enter_a_new_generation : bool :=
  let waiting := [Register "topic" 1%nat; topic_event "topic" (obj []); Dispatch 0 true None] in
  asserts
    [match pc (run waiting) with Attaching _ _ _ => true | _ => false end;
     bool_decide (received (run (waiting ++ [NewGeneration 1] ++ steps 5)) = 0%nat)].

(** The registry is cleared while the argument is converted. *)
Definition concurrent_clear_preserves_copied_callback_but_suppresses_later_dispatch : bool :=
  let copied := [Register "topic" 1%nat; topic_event "topic" (obj [])] ++ steps 3 in
  let cleared := copied ++ [ClearCallbacks] ++ steps 3 in
  asserts
    [match pc (run copied) with Converting _ _ _ _ => true | _ => false end;
     bool_decide (received (run cleared) = 1%nat);
     bool_decide (received (run (cleared ++ [topic_event "topic" (obj [])] ++ steps 6)) = 1%nat)].

Definition callback_admission_is_rechecked_after_argument_conversion : bool :=
  let converted := [Register "topic" 1%nat; topic_event "topic" (obj [])] ++ steps 4 in
  asserts
    [match pc (run converted) with Admitting _ _ _ _ => true | _ => false end;
     bool_decide (received (run (converted ++ [NewGeneration 1] ++ steps 2)) = 0%nat)].

(** A subclass is none of the known types. *)
Definition exception_classification_uses_identity_not_secret_bearing_class_names : bool :=
  seqb (safe_exception_class ValueErrorT) "ValueError" && seqb (safe_exception_class OtherT) "unknown_exception".

(** The callback raises, and the registry changes while it runs. *)
Definition callback_runs_without_registry_lock_and_failure_does_not_stop_dispatch : bool :=
  let invoked := [Register "test" 1%nat; topic_event "test" (obj [])] ++ steps 5 in
  let failed := invoked ++ [Register "test" 2%nat; Dispatch 0 true (Some ValueErrorT)] in
  let recovered := failed ++ [topic_event "test" (obj [("value", jint 7)])] ++ steps 6 in
  asserts
    [match pc (run invoked) with Calling _ _ _ _ => true | _ => false end;
     bool_decide (received (run failed) = 1%nat);
     bool_decide ((λ c, callback (c_target c)) <$> calls (run recovered) = [2; 1]%nat)].

Definition float_points : list f32 := F32.of_Z <$> [1; 2; 3].
Definition points_of (message : Dict) : option (ndarray f32) :=
  let item key (d : Dict) := snd <$> List.find (λ kv, seqb kv.1 key) d in
  match item "data" message with
  | Some (PyItemDict data) =>
      match item "data" data with
      | Some (PyItemDict [(key, PyItemPoints points)]) => if seqb key "points" then Some points else None
      | _ => None
      end
  | _ => None
  end.
(** The first frame has one byte of three. *)
Definition media_arrays_retain_owned_buffers_and_expected_dtype_shape : bool :=
  let events :=
    [VideoFrame [1] 1 1; VideoFrame [1; 2; 3] 1 1; AudioFrame [4; 5] 48000 1;
     LidarCallback "lidar" (obj [("data", obj [])]) float_points] in
  let d := run ((λ key, Register key 1%nat) <$> ["video"; "audio"; "lidar"]) in
  let d := dispatcher_run (flat_map (λ event, Send tx0 0 event :: steps 6) events ++ [ClearCallbacks]) d in
  match rev (c_argument <$> calls d) with
  | [PyFrame video; PySamples audio; PyLidar message] =>
      asserts
        [bool_decide (shape video = [1; 1; 3]); bool_decide (elements video = [1; 2; 3]);
         bool_decide (audio = [4; 5]);
         bool_decide (shape <$> points_of message = Some [1; 3]);
         bool_decide (elements <$> points_of message = Some float_points);
         bool_decide (registry (callbacks d) = ∅)]
  | _ => false
  end.
End callbacks.

(** ** bridges/connection.rs *)
Section connection.
Import Bridges.

Definition resolve_aes_128_key_prefers_explicit_key : bool :=
  bool_decide
    (resolve_aes_128_key (Some "ffeeddccbbaa99887766554433221100") (Some " 00112233445566778899aabbccddeeff ")
     = Some "00112233445566778899aabbccddeeff").

(** Any other variable is not read. *)
Definition resolve_aes_128_key_uses_only_canonical_env_key : bool :=
  asserts
    [bool_decide (resolve_aes_128_key None None = None);
     bool_decide (resolve_aes_128_key (Some "00112233445566778899aabbccddeeff") None
                  = Some "00112233445566778899aabbccddeeff")].
End connection.

(** ** bridges/pubsub.rs *)
Section pubsub.
Import Service ServiceProps Callbacks Bridges.
#[local] Existing Instances toy_data_channel toy_cipher.

(** The service of a connection that was never opened. *)
Definition offline : Service vec_chan toy_port * Callbacks :=
  (new_service {| tp_open := false; tp_generation := 0; tp_sent := [] |} (channel 4) (bounded 4) 0 1, new_callbacks).
Definition registered (st : Service vec_chan toy_port * Callbacks) : list (string * nat) :=
  (λ kv, (kv.1, callback kv.2)) <$> map_to_list (registry st.2).

Definition rejected_subscription_changes_preserve_exact_callback_registration : bool :=
  let callable := λ _, true in
  let previous := 1%nat in
  let replacement := 2%nat in
  let '(first, st) := py_subscribe callable "topic" replacement 0 offline in
  let st1 := (st.1, register "topic" previous st.2) in
  let '(second, st2) := py_subscribe callable "topic" replacement 0 st1 in
  let '(third, st3) := py_unsubscribe "topic" 0 st2 in
  asserts
    [is_err first; bool_decide (registered st = []);
     is_err second; bool_decide (registered st2 = [("topic", previous)]);
     is_err third; bool_decide (registered st3 = [("topic", previous)])].
End pubsub.

(** ** The owners of a session *)
Section owners.
Import Ownership.

Definition owner (l : list (@own_op vec_chan)) : Owner (C:=vec_chan) := owned LocalSTA None (bounded 4) l.
Definition gone (l : list (@own_op vec_chan)) : bool := bool_decide (drops (owner l) = 1%nat).

(** A child keeps the session when the connection goes; object 0 is the one dropped. *)
Definition actual_python_getters_keep_session_alive_until_last_child_drops : bool :=
  forallb (λ children,
    let got := children ++ [ORelease 0] in
    negb (gone got) && gone (got ++ [ORelease 0]))
    [[OGet 0 OAudio]; [OGet 0 OVideo]; [OGet 0 ODataChannel]; [OGet 0 ODataChannel; OGet 1 OPubSub; ORelease 1]].

(** A future of the data channel, the only owner left. *)
Definition owning_future : list (@own_op vec_chan) := [OGet 0 ODataChannel; OCall 1 MRequest; ORelease 1; ORelease 0].
Definition async_operation_keeps_native_session_until_completion : bool :=
  negb (gone (owning_future ++ [OPoll 0])) && gone (owning_future ++ [OPoll 0; OPoll 0]).
Definition cancelling_async_operation_releases_native_session : bool :=
  negb (gone (owning_future ++ [OPoll 0])) && gone (owning_future ++ [OPoll 0; OCancel 0]).
Definition dropping_unpolled_async_operation_releases_native_session : bool :=
  negb (gone owning_future) && gone (owning_future ++ [OCancel 0]).
End owners.

Definition interface_tests : list (string * bool) :=
  [("python_unsigned_integers_keep_exact_json_values", python_unsigned_integers_keep_exact_json_values);
   ("json_unsigned_integers_return_exact_python_integers", json_unsigned_integers_return_exact_python_integers);
   ("signed_integer_extremes_keep_exact_values_in_both_directions", signed_integer_extremes_keep_exact_values_in_both_directions);
   ("rejects_nonfinite_numbers_and_excessive_depth", rejects_nonfinite_numbers_and_excessive_depth);
   ("cycles_fail_but_shared_containers_are_valid", cycles_fail_but_shared_containers_are_valid);
   ("callback_validation_rejects_noncallable", callback_validation_rejects_noncallable);
   ("dequeued_event_waiting_for_python_cannot_enter_a_new_generation", dequeued_event_waiting_for_python_cannot_enter_a_new_generation);
   ("concurrent_clear_preserves_copied_callback_but_suppresses_later_dispatch", concurrent_clear_preserves_copied_callback_but_suppresses_later_dispatch);
   ("callback_admission_is_rechecked_after_argument_conversion", callback_admission_is_rechecked_after_argument_conversion);
   ("exception_classification_uses_identity_not_secret_bearing_class_names", exception_classification_uses_identity_not_secret_bearing_class_names);
   ("callback_runs_without_registry_lock_and_failure_does_not_stop_dispatch", callback_runs_without_registry_lock_and_failure_does_not_stop_dispatch);
   ("media_arrays_retain_owned_buffers_and_expected_dtype_shape", media_arrays_retain_owned_buffers_and_expected_dtype_shape);
   ("resolve_aes_128_key_prefers_explicit_key", resolve_aes_128_key_prefers_explicit_key);
   ("resolve_aes_128_key_uses_only_canonical_env_key", resolve_aes_128_key_uses_only_canonical_env_key);
   ("rejected_subscription_changes_preserve_exact_callback_registration", rejected_subscription_changes_preserve_exact_callback_registration);
   ("actual_python_getters_keep_session_alive_until_last_child_drops", actual_python_getters_keep_session_alive_until_last_child_drops);
   ("async_operation_keeps_native_session_until_completion", async_operation_keeps_native_session_until_completion);
   ("cancelling_async_operation_releases_native_session", cancelling_async_operation_releases_native_session);
   ("dropping_unpolled_async_operation_releases_native_session", dropping_unpolled_async_operation_releases_native_session)].
(** All the tests above hold of the model. *)
Theorem interface_tests_pass : Forall (λ test, test.2 = true) interface_tests.
Proof. unfold interface_tests. repeat constructor; by vm_compute. Qed.
