(* ===== verification/ConnectionTests.v ===== *)
(** * The tests of the connection attempts, replayed (src/src/connection/)

    connection/tests.rs and the session tests of lifecycle.rs on the model.  The mock
    engine and the mock signaling decide what an awaited call returns; [poll] is one
    step of the executor for one task and [complete] polls a task to its end.  The calls
    the mocks count are those the model logs. *)
From S2P Require Import Prelude Floats Json Constants JsonText Connection.
#[local] Open Scope Z_scope.

Abbreviation asserts := (forallb id).

(** ** Fixtures *)

(** [MockEngine], [MockSignaling] and the validation of the channel: how often a call
    fails, and the await at which it never returns. *)
Record Mock := {
  fail_prepare_count : nat;
  fail_count : nat;
  fail_apply : bool;
  validate : bool;
  stall : list stage;
}.
Definition default_mock : Mock :=
  {| fail_prepare_count := 0; fail_count := 0; fail_apply := false; validate := true; stall := [] |}.
Definition with_prepare_fail_count (n : nat) : Mock :=
  {| fail_prepare_count := n; fail_count := 0; fail_apply := false; validate := true; stall := [] |}.
Definition with_fail_count (n : nat) : Mock :=
  {| fail_prepare_count := 0; fail_count := n; fail_apply := false; validate := true; stall := [] |}.
Definition failing_apply : Mock :=
  {| fail_prepare_count := 0; fail_count := 0; fail_apply := true; validate := true; stall := [] |}.
Definition without_validation : Mock :=
  {| fail_prepare_count := 0; fail_count := 0; fail_apply := false; validate := false; stall := [] |}.
Definition blocking (st : stage) : Mock :=
  {| fail_prepare_count := 0; fail_count := 0; fail_apply := false; validate := true; stall := [st] |}.

#[local] Instance stage_eq_dec : EqDecision stage.
Proof. solve_decision. Defined.
(** What the mocks answer at an await. *)
Definition answer (st : stage) (m : Mock) : PortResult string * Mock :=
  match st with
  | AtOffer =>
      match fail_prepare_count m with
      | S n => (Err "prepare failed",
                {| fail_prepare_count := n; fail_count := fail_count m; fail_apply := fail_apply m;
                   validate := validate m; stall := stall m |})
      | O => (Ok "offer-sdp", m)
      end
  | AtExchange =>
      match fail_count m with
      | S n => (Err "signaling failed",
                {| fail_prepare_count := fail_prepare_count m; fail_count := n; fail_apply := fail_apply m;
                   validate := validate m; stall := stall m |})
      | O => (Ok "answer-sdp", m)
      end
  | AtAnswer => (if fail_apply m then Err "apply failed" else Ok "", m)
  | AtOpen => (if validate m then Ok "" else Err "Data channel did not open in time", m)
  | _ => (Ok "", m)
  end.

Section mocked.
Context (method : WebRTCConnectionMethod) (ip : option string).
Abbreviation step := (conn_step method ip).
Implicit Types (m : Mock) (s : ConnectionService).

(** One step of task [i]; nothing happens at a stalled await. *)
Definition poll (i : nat) (ms : Mock * ConnectionService) : Mock * ConnectionService :=
  let '(m, s) := ms in
  match t_pc <$> tasks s !! i with
  | Some Waiting => (m, step (Acquire i) s)
  | Some (Running false _) => (m, step (Poll i) s)
  | Some (Running true st) =>
      if decide (st ∈ stall m) then (m, step (Yield i) s) else
      let '(out, m) := answer st m in (m, step (Return_ i out) s)
  | Some _ => (m, step (Continue i) s)
  | None => (m, s)
  end.
Definition complete (i : nat) (ms : Mock * ConnectionService) : Mock * ConnectionService := Nat.iter 30 (poll i) ms.
(** A call: its task; and a call that is awaited. *)
Definition spawn (k : kind) (ms : Mock * ConnectionService) : nat * (Mock * ConnectionService) :=
  (length (tasks ms.2), (ms.1, step (Spawn k) ms.2)).
Definition awaited (k : kind) (ms : Mock * ConnectionService) : Mock * ConnectionService :=
  let '(i, ms) := spawn k ms in complete i ms.
Definition result_of (i : nat) s : option (PortResult ()) :=
  match t_pc <$> tasks s !! i with Some (Done r) => Some r | _ => None end.
Fixpoint auto_reconnect (max_retries : nat) (ms : Mock * ConnectionService) : bool * (Mock * ConnectionService) :=
  match max_retries with
  | O => (false, ms)
  | S n =>
      if intentional_disconnect ms.2 then (false, ms) else
      let '(i, ms) := spawn KAuto ms in
      let ms := complete i ms in
      match result_of i ms.2 with
      | Some (Ok _) => (true, ms)
      | _ => auto_reconnect n ms
      end
  end.
End mocked.

Definition counted (p : Call → bool) (s : ConnectionService) : nat := length (filter (λ ic, p ic.2 = true) (calls s)).
Definition closed_count : ConnectionService → nat := counted (λ c, match c with Close => true | _ => false end).
Definition signaling_calls : ConnectionService → nat := counted (λ c, match c with ExchangeSdp _ _ => true | _ => false end).
Definition answer_history : ConnectionService → nat := counted (λ c, match c with ApplyAnswer _ => true | _ => false end).
Definition sta : WebRTCConnectionMethod := LocalSTA.
Definition address : option string := Some "10.0.0.1".
Definition started (m : Mock) : Mock * ConnectionService := (m, new).
Definition error_contains (needle : string) (r : option (PortResult ())) : bool :=
  match r with
  | Some (Err e) => match String.index 0 needle e with Some _ => true | None => false end
  | _ => false
  end.
Definition succeeded (r : option (PortResult ())) : bool := match r with Some (Ok _) => true | _ => false end.

(** ** connection/tests.rs *)
Definition connect_sets_connected_state : bool :=
  let '(_, s) := awaited sta address (KService false) (started default_mock) in
  asserts [succeeded (result_of 0 s); is_connected s; bool_decide (signaling_calls s = 1%nat); bool_decide (answer_history s = 1%nat)].

Definition disconnect_sets_intentional_state : bool :=
  let '(_, s) := awaited sta address KDisconnect (started default_mock) in
  asserts [intentional_disconnect s; bool_decide (closed_count s = 1%nat)].

Definition auto_reconnect_succeeds_after_retry : bool := (auto_reconnect sta address 3 (started (with_prepare_fail_count 1))).1.

Definition auto_reconnect_stops_when_intentional_disconnect : bool :=
  let ms := awaited sta address KDisconnect (started (with_fail_count 5)) in
  negb (auto_reconnect sta address 3 ms).1.

Definition remote_connection_returns_not_implemented_error : bool :=
  error_contains "not implemented" (result_of 0 (awaited Remote None (KService false) (started default_mock)).2).

Definition reconnect_closes_then_reconnects : bool :=
  let ms := awaited sta address (KService false) (started default_mock) in
  let '(_, s) := awaited sta address (KService true) ms in
  asserts
    [bool_decide (answer_history ms.2 = 1%nat); succeeded (result_of 1 s); bool_decide (closed_count s = 1%nat);
     bool_decide (answer_history s = 2%nat); is_connected s].

(** A connect that fails. *)
Definition rolls_back (m : Mock) : bool :=
  let '(_, s) := awaited sta address (KService false) (started m) in
  asserts [negb (succeeded (result_of 0 s)); negb (is_connected s); bool_decide (closed_count s = 1%nat)].
Definition failed_signaling_rolls_back_engine_and_connected_state : bool := rolls_back (with_fail_count 1).
Definition failed_prepare_rolls_back_engine : bool := rolls_back (with_prepare_fail_count 1).
Definition failed_answer_rolls_back_engine : bool := rolls_back failing_apply.

(** A connect that hangs in signaling, or elsewhere. *)
Definition blocked (k : kind) (st : stage) : Mock * ConnectionService := awaited sta address k (started (blocking st)).
Definition unblocked (ms : Mock * ConnectionService) : Mock * ConnectionService := (default_mock, ms.2).
Definition dropped (i : nat) (ms : Mock * ConnectionService) : Mock * ConnectionService :=
  (ms.1, conn_step sta address (DropFuture i) ms.2).

Definition cancelling_connect_closes_partial_session : bool :=
  let '(_, s) := complete sta address 0 (dropped 0 (blocked (KService false) AtExchange)) in
  bool_decide (closed_count s = 1%nat).

(** The close has begun when the next connect is called, and ends later. *)
Definition cancelled_cleanup_holds_gate_until_close_before_next_attempt : bool :=
  let ms := poll sta address 0 (dropped 0 (blocked (KService false) AtExchange)) in
  let closing := bool_decide (closed_count ms.2 = 1%nat) in
  let '(next, ms) := spawn sta address (KService false) (unblocked ms) in
  let held := complete sta address next ms in
  let '(_, s) := complete sta address next (poll sta address 0 held) in
  asserts
    [closing; bool_decide (signaling_calls held.2 = 1%nat); succeeded (result_of next s); bool_decide (closed_count s = 1%nat);
     is_connected s].

Definition explicit_disconnect_interrupts_blocked_signaling : bool :=
  let ms := blocked (KService false) AtExchange in
  let '(disconnect, ms) := spawn sta address KDisconnect ms in
  let '(_, s) := complete sta address disconnect (complete sta address 0 ms) in
  asserts
    [succeeded (result_of disconnect s); error_contains "cancel" (result_of 0 s); negb (is_connected s); intentional_disconnect s].

Definition disconnect_invalidates_connect_queued_before_the_session_gate : bool :=
  let '(connecting, ms) := spawn sta address (KService false) (started default_mock) in
  let '(disconnect, ms) := spawn sta address KDisconnect (ms.1, request_disconnect ms.2) in
  let '(m, s) := complete sta address disconnect (complete sta address connecting ms) in
  let '(_, s') := awaited sta address (KService false) (m, s) in
  asserts
    [error_contains "cancel" (result_of connecting s); bool_decide (signaling_calls s = 0%nat); intentional_disconnect s;
     is_connected s'].

(** The deadline passes while the await hangs; the diagnostic is the engine's. *)
Definition times_out (st : stage) (diagnostic : option string) : ConnectionService :=
  let ms := poll sta address 0 (blocked (KService false) st) in
  let s := match t_pc <$> tasks ms.2 !! 0%nat with
           | Some (Running true _) => ms.2
           | _ => conn_step sta address (Poll 0) ms.2
           end in
  (complete sta address 0 (ms.1, conn_step sta address (Timeout_ 0 diagnostic) s)).2.
Definition connect_deadline_interrupts_blocked_signaling : bool :=
  let s := times_out AtExchange None in
  asserts [bool_decide (result_of 0 s = Some (Err "Connection attempt timed out")); negb (is_connected s)].
Definition connect_deadline_reports_transport_snapshot_before_rollback : bool :=
  let snapshot := "peer=connecting, ice=checking, dtls=new, sctp=connecting, channel=connecting" in
  let s := times_out AtAnswer (Some snapshot) in
  asserts
    [error_contains "Connection attempt timed out" (result_of 0 s); error_contains snapshot (result_of 0 s);
     negb (error_contains "10.0.0.1" (result_of 0 s)); bool_decide (closed_count s = 1%nat); negb (is_connected s)].

(** ** connection/lifecycle.rs *)
Definition shared_connect_path_requires_fresh_validation_and_rolls_back_failure : bool :=
  let '(_, s) := awaited sta address (KSession Connect) (started default_mock) in
  let '(_, s') := awaited sta address (KSession Reconnect) (without_validation, s) in
  asserts
    [is_connected s; negb (succeeded (result_of 1 s')); negb (is_connected s'); negb (intentional_disconnect s');
     bool_decide (closed_count s' = 2%nat)].

Definition explicit_disconnect_interrupts_validation : bool :=
  let '(disconnect, ms) := spawn sta address KDisconnect (blocked (KSession Connect) AtOpen) in
  let '(_, s) := complete sta address disconnect (complete sta address 0 ms) in
  asserts
    [succeeded (result_of disconnect s); error_contains "cancel" (result_of 0 s); bool_decide (closed_count s = 2%nat);
     negb (is_connected s)].

Definition cancelling_validation_resets_core_and_closes_session : bool :=
  let '(_, s) := complete sta address 0 (dropped 0 (blocked (KSession Connect) AtOpen)) in
  asserts
    [bool_decide (closed_count s = 1%nat); negb (is_connected s);
     bool_decide (1 < counted (λ c, match c with StopBackground => true | _ => false end) s)%nat].

(** The old audio is still stopping when the attempt is cancelled: no new epoch starts,
    and the gate is held until that has ended. *)
Definition cancelled_connect_and_reconnect_wait_for_audio_before_the_next_epoch : bool :=
  forallb (λ mode,
    let ms := blocked (KSession mode) AtAudio in
    let epochs s := counted (λ c, match c with StopBackground => true | _ => false end) s in
    let ms1 := dropped 0 ms in
    let '(next, ms2) := spawn sta address (KSession Connect) (unblocked ms1) in
    let held := complete sta address next ms2 in
    let '(_, s) := complete sta address next (complete sta address 0 held) in
    asserts
      [bool_decide (epochs ms.2 = 0%nat); bool_decide (result_of next held.2 = None); negb (is_connected held.2);
       succeeded (result_of next s); is_connected s])
    [Connect; Reconnect].

Definition connection_tests : list (string * bool) :=
  [("connect_sets_connected_state", connect_sets_connected_state);
   ("disconnect_sets_intentional_state", disconnect_sets_intentional_state);
   ("auto_reconnect_succeeds_after_retry", auto_reconnect_succeeds_after_retry);
   ("auto_reconnect_stops_when_intentional_disconnect", auto_reconnect_stops_when_intentional_disconnect);
   ("remote_connection_returns_not_implemented_error", remote_connection_returns_not_implemented_error);
   ("reconnect_closes_then_reconnects", reconnect_closes_then_reconnects);
   ("failed_signaling_rolls_back_engine_and_connected_state", failed_signaling_rolls_back_engine_and_connected_state);
   ("failed_prepare_rolls_back_engine", failed_prepare_rolls_back_engine);
   ("failed_answer_rolls_back_engine", failed_answer_rolls_back_engine);
   ("cancelling_connect_closes_partial_session", cancelling_connect_closes_partial_session);
   ("cancelled_cleanup_holds_gate_until_close_before_next_attempt", cancelled_cleanup_holds_gate_until_close_before_next_attempt);
   ("explicit_disconnect_interrupts_blocked_signaling", explicit_disconnect_interrupts_blocked_signaling);
   ("disconnect_invalidates_connect_queued_before_the_session_gate", disconnect_invalidates_connect_queued_before_the_session_gate);
   ("connect_deadline_interrupts_blocked_signaling", connect_deadline_interrupts_blocked_signaling);
   ("connect_deadline_reports_transport_snapshot_before_rollback", connect_deadline_reports_transport_snapshot_before_rollback);
   ("shared_connect_path_requires_fresh_validation_and_rolls_back_failure", shared_connect_path_requires_fresh_validation_and_rolls_back_failure);
   ("explicit_disconnect_interrupts_validation", explicit_disconnect_interrupts_validation);
   ("cancelling_validation_resets_core_and_closes_session", cancelling_validation_resets_core_and_closes_session);
   ("cancelled_connect_and_reconnect_wait_for_audio_before_the_next_epoch", cancelled_connect_and_reconnect_wait_for_audio_before_the_next_epoch)].
(** All the tests above hold of the model. *)
Theorem connection_tests_pass : Forall (λ test, test.2 = true) connection_tests.
Proof. unfold connection_tests. repeat constructor; by vm_compute. Qed.
